(* ===== verification/_CoqProject ===== *)
-Q . S2P
Prelude.v
Paths.v
WalRecord.v
Crc32.v
WalErrorText.v
WalWriter.v
AlignedBuffer.v
WalRecovery.v
WalTests.v
Bloom.v
Block.v
Footer.v
BinarySearch.v
SSTable.v
SSTableReader.v
Streaming.v
TableMapping.v
Merge.v
SkipList.v
ConcurrentSkip.v
Compaction.v
MemTable.v
Queue.v
UnpaddedQueue.v
Ebr.v
ConcurrentEbr.v
ConcurrentMap.v
Engine.v
Levels.v
EngineBenchmark.v
EngineDrop.v
UringOp.v
Sys.v
Uring.v
BufRing.v
Server.v
Clients.v
ClientThreads.v
Process.v
ServerRun.v
Cluster.v
EngineStore.v
