(* ===== verification/Prelude.v ===== *)
(** * Verification of the LSM storage engine and its server

    This library models the repository's storage engine ([tier3_storage]), its
    concurrent structures ([tier2_concurrency]) and its io_uring server
    ([uring-engine]), and proves the components and their composition correct.
    Data, operations and error paths are translated from the source; every
    definition can be computed.

    ** The program and its parts

    A write goes to the log ([wal/]) and to the skip list in memory
    ([memtable/]); a full memtable is frozen, put on the flush queue
    ([tier2_concurrency/src/queue.rs]) and written by a background thread to a
    sorted table ([sstable/], with a Bloom filter, [bloom/]); four tables in
    level 0 are merged with level 1 ([compaction/]).  A read asks the active
    memtable, the frozen one, level 0 from the newest table on, and level 1.
    [engine.rs] puts the parts together.  The server runs one worker per core, each
    with an engine of its own: it takes requests from receive buffers the kernel
    fills ([buf_ring.rs]), submits its operations through a ring shared with the
    kernel ([uring.rs], tagged as in [op.rs]), and hands every write to the next core
    through an MPMC queue ([main.rs]).  The engine owns an epoch collector
    ([ebr.rs]), on which the hash map ([map.rs]) is built.

    - WalRecord.v: [wal/record.rs], the frame of a log record; WalErrorText.v: the
      messages of its errors; Crc32.v: CRC-32, an instance of what the log asks of its
      checksum.
    - WalWriter.v: [wal/writer.rs], the writer with its staging buffer;
      AlignedBuffer.v: [wal/aligned_buffer.rs], that buffer with its memory.
    - WalRecovery.v: [wal/recovery.rs], the scan of a log file.
    - WalTests.v: the repository's tests of the log, as functions over the model.
    - Bloom.v: [bloom/filter.rs], the builder and both probes.
    - Block.v, Footer.v: [sstable/block.rs], [sstable/footer.rs].
    - BinarySearch.v: the contract of [slice::binary_search_by], and bisection.
    - SSTable.v, SSTableReader.v, Streaming.v: [sstable/writer.rs],
      [sstable/reader.rs], [sstable/streaming.rs]; TableMapping.v: the descriptors and
      mappings these take and give back.
    - Merge.v: [compaction/merge.rs], the merge of any number of tables.
    - SkipList.v: [memtable/skiplist.rs], one call at a time; ConcurrentSkip.v: any
      number of calls at once, one atomic operation a step.
    - Paths.v: file names and the number formats in them.
    - Compaction.v: [compaction/manager.rs], the two levels.
    - MemTable.v: [memtable/manager.rs], log and memtables together.
    - Queue.v: [tier2_concurrency/src/queue.rs], the bounded MPMC queue;
      UnpaddedQueue.v: the queue without padding of the same file, and the [Drop] of
      both.
    - Ebr.v: [tier2_concurrency/src/ebr.rs], epoch-based reclamation, one call at a
      time; ConcurrentEbr.v: any number of threads, one atomic operation a step.
    - ConcurrentMap.v: [tier2_concurrency/src/map.rs], the hash map over ConcurrentEbr.v.
    - Engine.v: [engine.rs], the owner's calls and the background threads;
      EngineDrop.v: its shutdown; Levels.v: its reads of the two levels, and
      compaction under them.
    - EngineBenchmark.v: [bin/engine_benchmark.rs], the client that lets tables be
      written, compacted and read.
    - UringOp.v: [uring-engine/src/op.rs], requests and their tags; Sys.v: [sys.rs], the
      layouts shared with the kernel and the system calls.
    - Uring.v: [uring-engine/src/uring.rs], the two rings shared with the kernel.
    - BufRing.v: [uring-engine/src/buf_ring.rs], the provided buffers.
    - Server.v: [uring-engine/src/main.rs], the worker's calls and handlers over an
      abstract store; Process.v: the listener, pinning, set-up and tear-down of a
      worker, [main] and its telemetry; ServerRun.v: the worker among the kernel, the
      other cores and the store's threads; Cluster.v: all cores over their queues;
      EngineStore.v: Engine.v as the store of every core.
    - Clients.v: [uring-engine/src/bin], the benchmark, the load generator and the
      baseline server, a connection of each; ClientThreads.v: both clients with their
      threads.

    ** How the code is modelled

    Bytes are [Init.Byte.byte], a buffer or file is the list of its bytes,
    integers of a fixed width are [Z] and wrap where the code's arithmetic can
    wrap (as in a release build).  A call ends in an [outcome]: a value, an error
    value, a panic, or undefined behaviour (an access outside of a mapping, a
    dangling pointer, an uninitialised slot), so a theorem that a call ends in
    [Ok] says that none of the others happens.  Calls that change state are
    functions in the monad [st] below, which keeps the state of a failed call.

    What is not the repository's code is a parameter or a class.  The checksum of
    crc32fast is a function into 32 bits ([Crc32] in WalRecord.v); [pwrite],
    [fsync] and [ftruncate] are functions that return any result; creating, writing
    and syncing a table may fail at any point ([FileOps], SSTable.v), and
    [BoundedFile] says that a file that was written is shorter than 2^64 bytes;
    whether the log of a rotation opens is an argument of every write;
    [binary_search_by] and [BinaryHeap] are classes with the contracts of the
    standard library and an instance each.  Clients are proved against the class
    ([EntryStream] in Streaming.v is what the merge needs of a table iterator,
    [Store] and [StoreSpec] in Server.v what the server needs of the engine).  The
    kernel's side of io_uring is a relation with its documented behaviour
    ([kernel_ok] in Uring.v, [posted_ok] in ServerRun.v, [setup_ok] for a new ring).

    Loops that are not structural have fuel: the length of the bytes they scan,
    the number of entries pending, the nodes of the store times the levels of the
    skip list.  The theorems show that the fuel is enough, since running out of it
    is an error value (class [Fueled]) that they exclude.

    Threads interleave as explicit sequences of steps: in Queue.v, ConcurrentSkip.v,
    ConcurrentEbr.v, ConcurrentMap.v and ClientThreads.v one atomic operation each, under
    sequential consistency (in ConcurrentMap.v those of the collector's calls as well,
    which are ConcurrentEbr.v's); in Engine.v the owner's calls and three steps of a flush
    thread (take a task, build the table, publish it under the lock); in Ebr.v whole calls,
    and the parts of a flush; in BufRing.v a recycle, a flush, and a buffer the kernel
    takes; in ServerRun.v and Cluster.v the start of a round, one task, one completion, and
    every action of the kernel.  The engine uses the skip list through [&mut self], one call
    at a time, which SkipList.v models.

    ** What the theorems show

    - The log: encoding and decoding are inverse and decoding accepts exactly the
      valid frames; [append] extends the log by one frame and keeps its position
      on failure; the scan returns the longest valid prefix of any file, after a
      cut at any byte exactly the records before it, after a changed byte exactly
      the records before it.  Records that end on a sector boundary and logs that
      are opened again are overwritten ([sector_record_lost], [boundary_record_lost],
      [reopen_overwrites_log]).
    - Tables: the writer writes the specified file; the reader's [get] is lookup
      in the entries; the streaming iterator gives them back; blocks, index and
      footer are read back as written; the filter has no false negatives and its
      two probes agree.  With several versions of a key [get] finds some version,
      not always the newest ([overwritten_value_returned]).  A table that opened gives
      its mapping back; one that did not parse keeps it, until no table opens any more
      ([open_accounts], [leak_hides_tables]).
    - Merge and compaction: a merge keeps exactly the newest version of every key
      and drops tombstones at the bottom; the invariant of the levels (sorted,
      disjoint, described by their metadata) is kept and so is the newest version
      of every key.  Reads of levels in order answer with the newest version, and no
      compaction changes an answer ([get_reads_newest], [compaction_keeps_reads]), if
      no stored key is empty ([empty_table_hides_keys]); the storage benchmark, at any
      size, hits with every read ([benchmark_reads_all]).
    - Memory: the skip list keeps all inserts in order and finds every key;
      [get] may answer an older version ([deleted_key_read_back]).  Under
      concurrent calls each takes effect between its call and its return, and the calls
      in progress end ([skip_linearizable], [skip_lock_free]).
    - The queue: any interleaving is a run of a bounded first-in first-out queue,
      without races on the slots; without padding it is the same queue, and what is
      left in it is dropped once.
    - Reclamation: while the callers keep the contract no object is freed under a
      guard, objects are freed once, and three flushes free everything retired; four
      ways in which the code itself breaks the promise are computed
      ([ebr_frees_early]).  All of it holds for the atomic operations of any number of
      threads ([atomic_safe], [atomic_conserves]), of which the calls of Ebr.v are the
      runs nothing interleaves with ([call_alone]), as long as no load of the global
      epoch is overtaken by two changes of it, without which an object is freed under
      its guard ([stale_frees_early]).
    - The hash map: no interleaving that keeps the collector's contract, the same one
      ([may_act]), reads a freed entry ([map_memory_safe]); calls that are not disturbed
      are those of a finite map, if there is room in the bag of a thread that retires an
      entry ([map_refines_gmap]) and except for [map_insert_anomalies].
    - The engine: while it is open, [get] finds a version of every accepted write
      under any interleaving, file errors and dead flush threads included; a write panics
      only when it fills the memtable for the first time and the next log does not open
      ([engine_finds_writes]).  A flush keeps the levels in order, and panics, as a
      compaction does, only when the very table it writes cannot be written
      ([table_fails], SSTable.v).  It flushes at most once ([engine_flushes_once])
      and forgets everything when it is opened again ([open_forgets]);
      its [Drop] ends ([engine_drop_ends]) and leaves the queue ([drop_leaves_queue]).
    - The rings: the kernel takes exactly the prepared requests in order, the
      application reaps exactly the completions in order, under any interleaving and
      over the wrap of the counters; every buffer is with one party as long as the kernel
      takes none between a recycle into entry 0 and the flush ([buf_ring_cycle];
      [buf_ring_torn_tail] shows what happens in that window).
    - The server: the worker does not panic or leave its arrays in any run, a round
      ends, a received buffer is served as one request, reads answer from the accepted
      writes, and all of it holds over the engine, as long as the next log opens when a
      memtable is frozen ([server_over_engine]); a reply may
      be overwritten before it is sent ([server_reply_overwritten]), and of pipelined
      requests only the first is served ([server_drops_pipelined]).  Set-up releases
      what it took whenever it fails ([worker_setup_releases]).
    - The boundary to the kernel: no structure has padding ([layouts_asserted]).
    - The cores together: every served write is applied by the core it was handed
      to, in order, once, or waits, or found a full queue when it was handed over: the
      queues are exactly those of first-in first-out queues of 2048 places
      ([cluster_routes]); a read answers from what its core served or applied
      ([cluster_reads]); two cores may keep different values for ever
      ([replicas_diverge]).  A benchmark's stream is echoed however TCP cuts it
      ([bench_is_echoed]); requests are not ([torn_request_misread]).  The clients count every success once, whatever the
      order of their threads ([counter_exact], [pool_reports], [joined]).
    - The repository's tests of the log hold for every checksum that detects a changed
      byte and every file system whose writes complete ([codec_tests_pass],
      [buffer_tests_pass], [wal_tests_pass]); what they do not see is shown with them
      ([many_first_boundary], [torn_tail_is_padding]).  A message tells its error
      ([message_tells]).

    The bounds in hypotheses are generous: fewer than 2^40 calls for the log's
    offsets (a record is at most 1 MiB), fewer than 2^62 steps for the queue's
    counters, table numbers below 2^64, fewer than 2^40 writes of a worker, at most
    2^15 provided buffers and 2^31 ring entries.  A round's loop has fuel for the
    completions that wait ([server_round_ends]).

    ** What is not modelled

    Memory orderings: all atomics are sequentially consistent.  Opening the first log of an
    engine and mapping a log for recovery are taken to succeed, and so is mapping a table
    outside of TableMapping.v; the results of syncing and truncating a log are dropped by
    the code.  The loom shims of [sync.rs] have no logic of their own; the clocks
    of the benchmarks, the text of an [io::Error] and the tests and benchmarks other
    than those of the log are left out.  Whether a send completes, and with how many
    bytes, is the kernel's; the worker looks at errors only. *)

From coqutil Require Export Byte Word.LittleEndianList.
From stdpp Require Export base tactics numbers sorting list.

#[local] Open Scope Z_scope.

(** ** Bytes

    A Rust [u8] is [Init.Byte.byte]; integers of a fixed width are [Z] in the
    range of the width.  [to_le_bytes]/[from_le_bytes] are coqutil's
    [le_split]/[le_combine]. *)

#[export] Instance byte_eq_dec : EqDecision byte := Byte.byte_eq_dec.
#[export] Instance byte_inhabited : Inhabited byte := populate Byte.x00.

Abbreviation bytes := (list byte).

Definition u32_max : Z := 2 ^ 32 - 1.
Definition u64_max : Z := 2 ^ 64 - 1.

(** [as u32], [as u64]: truncation to the width (also what release-profile
    arithmetic on the width does on overflow). *)
Definition wrap32 (x : Z) : Z := x mod 2 ^ 32.
Definition wrap64 (x : Z) : Z := x mod 2 ^ 64.

Definition is_u32 (x : Z) : Prop := 0 <= x < 2 ^ 32.
Definition is_u64 (x : Z) : Prop := 0 <= x < 2 ^ 64.

Definition to_le_bytes (n : nat) (x : Z) : bytes := le_split n x.
Definition from_le_bytes (b : bytes) : Z := le_combine b.
Definition to_be_bytes (n : nat) (x : Z) : bytes := reverse (le_split n x).
Definition from_be_bytes (b : bytes) : Z := le_combine (reverse b).

(** ** Outcomes

    What a call can end in: a value, an error value, a Rust panic, or
    undefined behaviour (an unsafe access out of bounds). *)

Inductive outcome (E A : Type) : Type :=
| Ok (a : A)
| Err (e : E)
| Panic
| Ub.
Arguments Ok {E A} a.
Arguments Err {E A} e.
Arguments Panic {E A}.
Arguments Ub {E A}.

#[export] Instance outcome_ret E : MRet (outcome E) := fun A a => Ok a.
#[export] Instance outcome_bind E : MBind (outcome E) := fun A B f c =>
  match c with
  | Ok a => f a
  | Err e => Err e
  | Panic => Panic
  | Ub => Ub
  end.

(** Methods that change [self]: a state, and an outcome. *)
Definition st (S E A : Type) : Type := S -> S * outcome E A.

#[export] Instance st_ret S E : MRet (st S E) := fun A a s => (s, Ok a).
#[export] Instance st_bind S E : MBind (st S E) := fun A B f c s =>
  match c s with
  | (s', Ok a) => f a s'
  | (s', Err e) => (s', Err e)
  | (s', Panic) => (s', Panic)
  | (s', Ub) => (s', Ub)
  end.

Definition get_state {S E} : st S E S := fun s => (s, Ok s).
Definition put_state {S E} (s : S) : st S E unit := fun _ => (s, Ok tt).
Definition throw {S E A} (e : E) : st S E A := fun s => (s, Err e).
Definition lift {S E A} (c : outcome E A) : st S E A := fun s => (s, c).

(** A loop of the code is a [Fixpoint] with fuel; running out of fuel is an
    error value the code does not have, which the theorems exclude. *)
Inductive fuel_error := OutOfFuel.

Inductive io_error :=
| UnexpectedEof
| InvalidData
| NotFound
| Os (code : Z)
| NoFuel.

Class Fueled (E : Type) := out_of_fuel : E.
#[export] Instance fuel_error_fueled : Fueled fuel_error := OutOfFuel.
#[export] Instance io_error_fueled : Fueled io_error := NoFuel.

(** An outcome without a panic or undefined behaviour. *)
Definition safe {E A} (c : outcome E A) : Prop :=
  match c with Ok _ | Err _ => True | Panic | Ub => False end.

(** ** Slices

    [usize] indices are [Z]. [len] is [slice.len()], [sub l i j] the bytes of
    [&l[i..j]], [range] the checked slice expression, [copy_from] is
    [l[i..j].copy_from_slice(src)] and [fill_zero] the loop that zeroes
    [l[i..j]]. *)

Definition len {A} (l : list A) : Z := Z.of_nat (length l).

Definition sub {A} (l : list A) (i j : Z) : list A :=
  take (Z.to_nat (j - i)) (drop (Z.to_nat i) l).

Definition in_range {A} (l : list A) (i j : Z) : bool :=
  (0 <=? i) && (i <=? j) && (j <=? len l).

Definition range {E A} (l : list A) (i j : Z) : outcome E (list A) :=
  if in_range l i j then Ok (sub l i j) else Panic.

Definition splice {A} (l : list A) (i : Z) (src : list A) : list A :=
  take (Z.to_nat i) l ++ src ++ drop (Z.to_nat (i + len src)) l.

Definition copy_from {E A} (l : list A) (i j : Z) (src : list A) : outcome E (list A) :=
  if in_range l i j && (len src =? j - i) then Ok (splice l i src) else Panic.

Definition zeros (n : Z) : bytes := replicate (Z.to_nat n) Byte.x00.

Definition fill_zero {E} (l : bytes) (i j : Z) : outcome E bytes :=
  if in_range l i j then Ok (splice l i (zeros (j - i))) else Panic.

Definition is_zero (b : byte) : bool := byte.unsigned b =? 0.

(** [l[i]]. *)
Definition index {E A} (l : list A) (i : Z) : outcome E A :=
  if 0 <=? i then match l !! Z.to_nat i with Some x => Ok x | None => Panic end else Panic.

(** [is_power_of_two]. *)
Definition is_power_of_two (n : Z) : bool := (0 <? n) && (2 ^ Z.log2 n =? n).

(** [for x in l { s = f(x, s)? }]. *)
Fixpoint for_each {E A S} (f : A -> S -> outcome E S) (l : list A) (s : S) : outcome E S :=
  match l with
  | [] => Ok s
  | x :: l => s ← f x s; for_each f l s
  end.

(** [slice.chunks(n)]; a chunk takes at least one element. *)
Fixpoint chunks_fuel (fuel n : nat) {A} (l : list A) : list (list A) :=
  match fuel, l with
  | O, _ | _, [] => []
  | S fuel, _ => take n l :: chunks_fuel fuel n (drop n l)
  end.
Definition chunks {A} (n : nat) (l : list A) : list (list A) := chunks_fuel (length l) n l.

(** ** Rust's [Ord] on [[u8]]: lexicographic. *)

Fixpoint bytes_cmp (a b : bytes) : comparison :=
  match a, b with
  | [], [] => Eq
  | [], _ :: _ => Lt
  | _ :: _, [] => Gt
  | x :: a', y :: b' =>
      match byte.compare x y with
      | Eq => bytes_cmp a' b'
      | c => c
      end
  end.

Definition blt (a b : bytes) : Prop := bytes_cmp a b = Lt.
Definition ble (a b : bytes) : Prop := bytes_cmp a b <> Gt.
Definition bltb (a b : bytes) : bool := match bytes_cmp a b with Lt => true | _ => false end.
Definition bleb (a b : bytes) : bool := match bytes_cmp a b with Gt => false | _ => true end.
Definition beqb (a b : bytes) : bool := match bytes_cmp a b with Eq => true | _ => false end.

(** [usize::next_multiple_of]. *)
Definition next_multiple_of (x m : Z) : Z := (x + m - 1) / m * m.

(** * Lemmas *)

(** ** Lengths *)

Create Rewrite HintDb slices.

Lemma len_nil {A} : len (@nil A) = 0.
Proof. done. Qed.
Lemma len_cons {A} (x : A) l : len (x :: l) = 1 + len l.
Proof. unfold len. simpl length. lia. Qed.
Lemma len_app {A} (l k : list A) : len (l ++ k) = len l + len k.
Proof. unfold len. rewrite length_app. lia. Qed.
Lemma len_nonneg {A} (l : list A) : 0 <= len l.
Proof. unfold len. lia. Qed.
Lemma len_zeros n : len (zeros n) = Z.max 0 n.
Proof. unfold len, zeros. rewrite length_replicate. lia. Qed.
Lemma len_le n x : len (to_le_bytes n x) = Z.of_nat n.
Proof. unfold len, to_le_bytes. by rewrite length_le_split. Qed.
Lemma len_be n x : len (to_be_bytes n x) = Z.of_nat n.
Proof. unfold len, to_be_bytes. by rewrite length_reverse, length_le_split. Qed.
Lemma len_take {A} n (l : list A) : len (take n l) = Z.min (Z.of_nat n) (len l).
Proof. unfold len. rewrite length_take. lia. Qed.
Lemma len_drop {A} n (l : list A) : len (drop n l) = Z.max 0 (len l - Z.of_nat n).
Proof. unfold len. rewrite length_drop. lia. Qed.
Lemma len_sub {A} (l : list A) i j :
  0 <= i -> i <= j -> j <= len l -> len (sub l i j) = j - i.
Proof. intros. unfold sub. rewrite len_take, len_drop. lia. Qed.
Lemma len_splice {A} (l : list A) i src :
  0 <= i -> i + len src <= len l -> len (splice l i src) = len l.
Proof.
  intros. unfold splice. rewrite !len_app, len_take, len_drop.
  pose proof (len_nonneg src). lia.
Qed.
Lemma len_zero_nil {A} (l : list A) : len l = 0 -> l = [].
Proof. unfold len. destruct l; simpl; [done | lia]. Qed.
Lemma len_fmap {A B} (f : A -> B) l : len (f <$> l) = len l.
Proof. unfold len. by rewrite length_fmap. Qed.

#[export] Hint Rewrite @len_nil @len_cons @len_app len_zeros len_le len_be @len_take @len_drop
  @len_fmap : slices.

(** Push [len] through the list operations, bring the sign facts of the lists
    in scope, and leave the rest to [lia]. *)
Ltac len_facts :=
  repeat match goal with
  | |- context [len ?l] =>
      lazymatch goal with H : 0 <= len l |- _ => fail | _ => pose proof (len_nonneg l) end
  | _ : context [len ?l] |- _ =>
      lazymatch goal with H : 0 <= len l |- _ => fail | _ => pose proof (len_nonneg l) end
  end.
Ltac len_lia := autorewrite with slices in *; len_facts; lia.

(** ** Slices at the seams of a concatenation *)

Lemma sub_app {A} (a b c : list A) i j :
  i = len a -> j = len a + len b -> sub (a ++ b ++ c) i j = b.
Proof.
  intros -> ->. unfold sub, len.
  rewrite Nat2Z.id, drop_app_length.
  replace (Z.to_nat _) with (length b) by lia. apply take_app_length.
Qed.

Lemma sub_app_end {A} (a b : list A) i j :
  i = len a -> j = len a + len b -> sub (a ++ b) i j = b.
Proof. intros. rewrite <- (app_nil_r b) at 1. by apply sub_app. Qed.

Lemma sub_app_start {A} (a b : list A) j : j = len a -> sub (a ++ b) 0 j = a.
Proof. intros. apply (sub_app [] a b); [done | rewrite len_nil; lia]. Qed.

Lemma sub_full {A} (l : list A) : sub l 0 (len l) = l.
Proof. rewrite <- (app_nil_r l) at 1. by apply sub_app_start. Qed.

Lemma splice_app {A} (a b c src : list A) i :
  i = len a -> len src = len b -> splice (a ++ b ++ c) i src = a ++ src ++ c.
Proof.
  intros -> Hs. unfold splice, len in *. rewrite Nat2Z.id, take_app_length.
  replace (Z.to_nat _) with (length a + length b)%nat by lia.
  rewrite <- drop_drop, drop_app_length, drop_app_length. done.
Qed.

(** Splitting a list at an index: the way slice arithmetic is reduced to the
    seams above. *)
Lemma split_at {A} (l : list A) i :
  0 <= i <= len l -> exists a b, l = a ++ b /\ len a = i.
Proof.
  intros. exists (take (Z.to_nat i) l), (drop (Z.to_nat i) l).
  split; [by rewrite take_drop | rewrite len_take; lia].
Qed.

Lemma in_range_true {A} (l : list A) i j :
  0 <= i -> i <= j -> j <= len l -> in_range l i j = true.
Proof. intros. unfold in_range. rewrite !andb_true_iff, !Z.leb_le. lia. Qed.

Lemma range_ok {E A} (l : list A) i j :
  0 <= i -> i <= j -> j <= len l -> range (E := E) l i j = Ok (sub l i j).
Proof. intros. unfold range. by rewrite in_range_true. Qed.

Lemma range_at {E A} (a b c l : list A) i j :
  l = a ++ b ++ c -> i = len a -> j = len a + len b -> range (E := E) l i j = Ok b.
Proof. intros -> -> ->. rewrite range_ok by len_lia. by rewrite sub_app. Qed.

Lemma copy_from_app {E A} (a b c src : list A) i j :
  i = len a -> j = len a + len b -> len src = len b ->
  copy_from (E := E) (a ++ b ++ c) i j src = Ok (a ++ src ++ c).
Proof.
  intros Hi Hj Hs. unfold copy_from.
  rewrite in_range_true by len_lia.
  replace (len src =? j - i) with true by (symmetry; apply Z.eqb_eq; lia).
  simpl. by rewrite (splice_app a b c).
Qed.

Lemma copy_from_start {E A} (b c src : list A) j :
  j = len b -> len src = len b -> copy_from (E := E) (b ++ c) 0 j src = Ok (src ++ c).
Proof. intros. apply (copy_from_app [] b c); len_lia. Qed.

Lemma fill_zero_ok {E} (l : bytes) i j :
  0 <= i -> i <= j -> j <= len l -> fill_zero (E := E) l i j = Ok (splice l i (zeros (j - i))).
Proof. intros. unfold fill_zero. by rewrite in_range_true. Qed.

Lemma zeros_add n m : 0 <= n -> 0 <= m -> zeros (n + m) = zeros n ++ zeros m.
Proof. intros. unfold zeros. rewrite Z2Nat.inj_add by lia. apply replicate_add. Qed.
Lemma zeros_0 : zeros 0 = [].
Proof. done. Qed.

Lemma len_length {A} (a b : list A) : len a = len b -> length a = length b.
Proof. unfold len. lia. Qed.

(** Where a position of [a ++ b] falls. *)
Lemma app_cut_left {A} (a b l t : list A) x :
  a ++ b = l ++ x :: t -> len l < len a -> exists a2, a = l ++ x :: a2 /\ t = a2 ++ b.
Proof.
  intros Heq Hlt. apply app_eq_inv in Heq as [(k & -> & Hk) | (k & -> & Hk)].
  - destruct k as [|y k]; [rewrite len_app, len_nil in Hlt; lia |].
    injection Hk as -> ->. eauto.
  - rewrite len_app in Hlt. pose proof (len_nonneg k). lia.
Qed.

Lemma app_cut_right {A} (a b l t : list A) x :
  a ++ b = l ++ x :: t -> len a <= len l -> exists l2, l = a ++ l2 /\ b = l2 ++ x :: t.
Proof.
  intros Heq Hle. apply app_eq_inv in Heq as [(k & -> & Hk) | (k & -> & Hk)]; [| eauto].
  destruct k as [|y k]; [| rewrite len_app, len_cons in Hle; pose proof (len_nonneg k); lia].
  exists []. rewrite !app_nil_r. rewrite app_nil_l in Hk. done.
Qed.

Lemma app_inj_len {A} (a b c d : list A) :
  a ++ b = c ++ d -> len a = len c -> a = c /\ b = d.
Proof. intros Heq Hl. apply app_inj_1; [by apply len_length | done]. Qed.

(** Slices and updates by position. *)
Lemma lookup_sub {A} (l : list A) i j k : 0 <= i ->
  sub l i j !! k = if decide (Z.of_nat k < j - i) then l !! (Z.to_nat i + k)%nat else None.
Proof.
  intros Hi. unfold sub. case_decide.
  - rewrite lookup_take_lt by lia. apply lookup_drop.
  - apply lookup_take_ge. lia.
Qed.

Lemma lookup_splice {A} (l : list A) i src k : 0 <= i -> i + len src <= len l ->
  splice l i src !! k =
  if decide (i <= Z.of_nat k < i + len src) then src !! (k - Z.to_nat i)%nat else l !! k.
Proof.
  intros Hi Hl. unfold splice, len in *. rewrite lookup_app.
  destruct (decide (Z.of_nat k < i)).
  - rewrite lookup_take_lt by lia. case_decide; [lia |].
    destruct (l !! k) eqn:Hk; [done |]. apply lookup_ge_None in Hk. lia.
  - rewrite lookup_take_ge by lia. rewrite length_take.
    replace (k - min (Z.to_nat i) (length l))%nat with (k - Z.to_nat i)%nat by lia.
    case_decide; [rewrite lookup_app_l by lia; done |].
    rewrite lookup_app_r by lia. rewrite lookup_drop. f_equal. lia.
Qed.

Lemma sub_splice_same {A} (l : list A) i j src :
  0 <= i -> len src = j - i -> j <= len l -> sub (splice l i src) i j = src.
Proof.
  intros Hi Hs Hj. pose proof (len_nonneg src). apply list_eq. intros k.
  rewrite lookup_sub, lookup_splice by lia. case_decide.
  - case_decide; [f_equal; lia | lia].
  - symmetry. apply lookup_ge_None. unfold len in *. lia.
Qed.

Lemma sub_splice_disjoint {A} (l : list A) i src a b :
  0 <= i -> i + len src <= len l -> 0 <= a -> b <= i \/ i + len src <= a ->
  sub (splice l i src) a b = sub l a b.
Proof.
  intros Hi Hs Ha Hd. apply list_eq. intros k. rewrite !lookup_sub, lookup_splice by lia.
  repeat case_decide; try done; lia.
Qed.

Lemma index_ok {E A} (l : list A) i x : 0 <= i -> l !! Z.to_nat i = Some x -> index (E := E) l i = Ok x.
Proof. intros Hi Hx. unfold index. by rewrite (proj2 (Z.leb_le _ _)), Hx. Qed.

Lemma index_Ok {E A} (l : list A) i x : index (E := E) l i = Ok x -> l !! Z.to_nat i = Some x.
Proof.
  unfold index. case_match; [|done]. destruct (l !! Z.to_nat i) eqn:H'; [|done]. congruence.
Qed.

Lemma concat_insert {A} (ls : list (list A)) i x y : ls !! i = Some y -> concat (<[i := x]> ls) ++ y ≡ₚ concat ls ++ x.
Proof.
  revert i. induction ls as [|z ls IH]; intros i Hi; [done|]. destruct i as [|i]; cbn in *.
  - injection Hi as <-. solve_Permutation.
  - rewrite <- !(assoc_L (++)). by rewrite (IH i Hi).
Qed.

(** A loop whose body always continues, under an invariant. *)
Lemma for_each_ok {E A S} (f : A -> S -> outcome E S) (I : list A -> S -> Prop) l s :
  I l s ->
  (forall x l s, I (x :: l) s -> exists s', f x s = Ok s' /\ I l s') ->
  exists s', for_each f l s = Ok s' /\ I [] s'.
Proof.
  revert s. induction l as [|x l IH]; intros s HI Hstep; [by exists s |].
  destruct (Hstep x l s HI) as (s1 & Hf & HI'). cbn. rewrite Hf. by apply IH.
Qed.

(** ** Integers as bytes *)

Lemma from_to_le n x : 0 <= x < 2 ^ (Z.of_nat n * 8) -> from_le_bytes (to_le_bytes n x) = x.
Proof. intros. unfold from_le_bytes, to_le_bytes. rewrite le_combine_split. by apply Z.mod_small. Qed.

Lemma from_to_be n x : 0 <= x < 2 ^ (Z.of_nat n * 8) -> from_be_bytes (to_be_bytes n x) = x.
Proof.
  intros. unfold from_be_bytes, to_be_bytes. rewrite reverse_involutive. by apply from_to_le.
Qed.

Lemma to_from_le n b : len b = Z.of_nat n -> to_le_bytes n (from_le_bytes b) = b.
Proof. intros. unfold to_le_bytes, from_le_bytes. apply split_le_combine'. unfold len in *. lia. Qed.

Lemma to_from_be n b : len b = Z.of_nat n -> to_be_bytes n (from_be_bytes b) = b.
Proof.
  intros Hb. unfold to_be_bytes, from_be_bytes. rewrite <- (reverse_involutive b) at 2. f_equal.
  apply to_from_le. unfold len in *. by rewrite length_reverse.
Qed.

Lemma to_le_inj n x y :
  0 <= x < 2 ^ (Z.of_nat n * 8) -> 0 <= y < 2 ^ (Z.of_nat n * 8) ->
  to_le_bytes n x = to_le_bytes n y -> x = y.
Proof. intros Hx Hy He. by rewrite <- (from_to_le n x), <- (from_to_le n y), He. Qed.

Lemma from_le_bound b : 0 <= from_le_bytes b < 2 ^ (8 * len b).
Proof. unfold from_le_bytes. pose proof (le_combine_bound b). unfold len. lia. Qed.

Lemma forallb_zero_le b : forallb is_zero b = true -> from_le_bytes b = 0.
Proof.
  induction b as [|x b IH]; [done |]. simpl. rewrite andb_true_iff. intros [Hx Hb].
  unfold from_le_bytes in *. change (le_combine (x :: b)) with (Z.lor (byte.unsigned x) (Z.shiftl (le_combine b) 8)).
  rewrite (IH Hb).
  apply Z.eqb_eq in Hx. by rewrite Hx.
Qed.

Lemma from_le_u32 b : len b = 4 -> is_u32 (from_le_bytes b).
Proof. intros H. pose proof (from_le_bound b) as Hb. rewrite H in Hb. done. Qed.
Lemma from_le_u64 b : len b = 8 -> is_u64 (from_le_bytes b).
Proof. intros H. pose proof (from_le_bound b) as Hb. rewrite H in Hb. done. Qed.
Lemma from_be_u64 b : len b = 8 -> is_u64 (from_be_bytes b).
Proof. intros Hb. apply from_le_u64. unfold len in *. by rewrite length_reverse. Qed.

Lemma wrap32_small x : is_u32 x -> wrap32 x = x.
Proof. apply Z.mod_small. Qed.
Lemma wrap64_small x : is_u64 x -> wrap64 x = x.
Proof. apply Z.mod_small. Qed.
Lemma wrap64_add x y : wrap64 (wrap64 x + y) = wrap64 (x + y).
Proof. unfold wrap64. by rewrite Z.add_mod_idemp_l. Qed.

(** ** The order on keys *)

Lemma byte_compare_eq x y : byte.compare x y = Eq <-> x = y.
Proof.
  unfold byte.compare. rewrite Z.compare_eq_iff. split; [apply byte.unsigned_inj | congruence].
Qed.

Lemma bytes_cmp_eq a b : bytes_cmp a b = Eq <-> a = b.
Proof.
  revert b. induction a as [|x a IH]; intros [|y b]; simpl; try (split; congruence).
  destruct (byte.compare x y) eqn:Hc.
  - apply byte_compare_eq in Hc as ->. rewrite IH. split; congruence.
  - split; [done |]. intros [= -> ->]. by rewrite (proj2 (byte_compare_eq y y)) in Hc.
  - split; [done |]. intros [= -> ->]. by rewrite (proj2 (byte_compare_eq y y)) in Hc.
Qed.

Lemma bytes_cmp_antisym a b : bytes_cmp b a = CompOpp (bytes_cmp a b).
Proof.
  revert b. induction a as [|x a IH]; intros [|y b]; simpl; try done.
  unfold byte.compare. rewrite (Z.compare_antisym (byte.unsigned x)).
  destruct (Z.compare _ _); simpl; auto.
Qed.

Lemma bytes_cmp_refl a : bytes_cmp a a = Eq.
Proof. by apply bytes_cmp_eq. Qed.

Lemma blt_trans a b c : blt a b -> blt b c -> blt a c.
Proof.
  unfold blt. revert b c.
  induction a as [|x a IH]; intros [|y b] [|z c]; simpl; try done.
  unfold byte.compare.
  destruct (Z.compare_spec (byte.unsigned x) (byte.unsigned y));
    destruct (Z.compare_spec (byte.unsigned y) (byte.unsigned z));
    destruct (Z.compare_spec (byte.unsigned x) (byte.unsigned z)); try done; try lia; eauto.
Qed.

Lemma blt_irrefl a : ~ blt a a.
Proof. unfold blt. by rewrite bytes_cmp_refl. Qed.

Lemma bgt_blt a b : bytes_cmp a b = Gt <-> blt b a.
Proof. unfold blt. rewrite (bytes_cmp_antisym a b). destruct (bytes_cmp a b); done. Qed.

Lemma ble_cases a b : ble a b <-> blt a b \/ a = b.
Proof.
  unfold ble, blt. rewrite <- bytes_cmp_eq. destruct (bytes_cmp a b); intuition congruence.
Qed.

Lemma not_blt a b : ~ blt a b <-> ble b a.
Proof.
  unfold ble, blt. rewrite (bytes_cmp_antisym a b).
  destruct (bytes_cmp a b); simpl; intuition congruence.
Qed.

Lemma not_ble a b : ~ ble a b <-> blt b a.
Proof. rewrite <- not_blt. unfold blt. destruct (bytes_cmp b a); intuition congruence. Qed.

Lemma ble_refl a : ble a a.
Proof. apply ble_cases. by right. Qed.

Lemma ble_trans a b c : ble a b -> ble b c -> ble a c.
Proof. rewrite !ble_cases. intros [? | ->] [? | ->]; eauto using blt_trans. Qed.

Lemma blt_ble_trans a b c : blt a b -> ble b c -> blt a c.
Proof. rewrite ble_cases. intros ? [? | ->]; eauto using blt_trans. Qed.

Lemma ble_blt_trans a b c : ble a b -> blt b c -> blt a c.
Proof. rewrite ble_cases. intros [? | ->] ?; eauto using blt_trans. Qed.

Lemma blt_ble a b : blt a b -> ble a b.
Proof. rewrite ble_cases. auto. Qed.

Lemma blt_trichotomy a b : blt a b \/ a = b \/ blt b a.
Proof.
  rewrite <- bytes_cmp_eq, <- (bgt_blt a b). unfold blt. destruct (bytes_cmp a b); auto.
Qed.

Lemma ble_antisym a b : ble a b -> ble b a -> a = b.
Proof.
  rewrite !ble_cases. intros [Hab | ?] [Hba | ?]; try congruence.
  by destruct (blt_irrefl a); eapply blt_trans.
Qed.

#[export] Instance blt_strict : StrictOrder blt.
Proof. split; [exact blt_irrefl | exact blt_trans]. Qed.
#[export] Instance ble_preorder : PreOrder ble.
Proof. split; [exact ble_refl | exact ble_trans]. Qed.
#[export] Instance blt_dec : RelDecision blt.
Proof. intros a b. unfold blt. destruct (bytes_cmp a b); [right | left | right]; done. Defined.
#[export] Instance ble_dec : RelDecision ble.
Proof. intros a b. unfold ble. destruct (bytes_cmp a b); [left | left | right]; congruence. Defined.

Lemma bltb_spec a b : reflect (blt a b) (bltb a b).
Proof. unfold bltb, blt. destruct (bytes_cmp a b); constructor; congruence. Qed.
Lemma bleb_spec a b : reflect (ble a b) (bleb a b).
Proof. unfold bleb, ble. destruct (bytes_cmp a b); constructor; congruence. Qed.
Lemma beqb_spec a b : reflect (a = b) (beqb a b).
Proof.
  unfold beqb. destruct (bytes_cmp a b) eqn:H; constructor; rewrite <- bytes_cmp_eq; congruence.
Qed.

(** A sub-list of a sorted list. *)
Lemma sorted_filter {A} (R : relation A) (P : A -> Prop) `{forall x, Decision (P x)} l :
  StronglySorted R l -> StronglySorted R (filter P l).
Proof.
  induction 1 as [|x l Hs IH Hall]; [constructor |]. rewrite filter_cons. case_decide; [| done].
  constructor; [done |]. apply Forall_forall. intros y Hy. apply list_elem_of_filter in Hy as [_ Hy].
  rewrite Forall_forall in Hall. by apply Hall.
Qed.

Lemma StronglySorted_lookup {A} (R : relation A) l i j x y : StronglySorted R l -> (i < j)%nat ->
  l !! i = Some x -> l !! j = Some y -> R x y.
Proof.
  intros Hs. revert i j. induction Hs as [|z l Hs IH Hall]; intros i j Hij Hx Hy; [done |].
  destruct j as [|j]; [lia |]. destruct i as [|i]; cbn in *.
  - injection Hx as ->. rewrite Forall_forall in Hall. apply Hall. by eapply list_elem_of_lookup_2.
  - eapply IH; [| done..]. lia.
Qed.

Create HintDb keys discriminated.
#[export] Hint Resolve blt_trans ble_refl ble_trans blt_ble_trans ble_blt_trans blt_ble : keys.

(** ** Sector arithmetic *)

Lemma next_multiple_of_spec x m :
  0 < m -> x <= next_multiple_of x m < x + m /\ next_multiple_of x m mod m = 0.
Proof.
  intros Hm. unfold next_multiple_of.
  rewrite Z.mod_mul by lia. pose proof (Z.mod_pos_bound (x + m - 1) m Hm).
  pose proof (Z.div_mod (x + m - 1) m ltac:(lia)). nia.
Qed.

Lemma next_multiple_of_exact x m : 0 < m -> x mod m = 0 -> next_multiple_of x m = x.
Proof.
  intros Hm Hx. destruct (next_multiple_of_spec x m Hm) as [Hb Hd].
  apply Z.mod_divide in Hx as [q ->]; [|lia]. apply Z.mod_divide in Hd as [p Hp]; [|lia].
  rewrite Hp in *. f_equal. nia.
Qed.

Lemma next_multiple_of_unique x m y :
  0 < m -> x <= y < x + m -> y mod m = 0 -> next_multiple_of x m = y.
Proof.
  intros Hm Hb Hy. destruct (next_multiple_of_spec x m Hm) as [Hb' Hd].
  apply Z.mod_divide in Hy as [q ->]; [|lia]. apply Z.mod_divide in Hd as [p Hp]; [|lia].
  rewrite Hp in *. f_equal. nia.
Qed.

Lemma next_multiple_of_add s x m :
  0 < m -> s mod m = 0 -> next_multiple_of (s + x) m = s + next_multiple_of x m.
Proof.
  intros Hm Hs. apply Z.mod_divide in Hs as [q ->]; [| lia]. unfold next_multiple_of.
  replace (q * m + x + m - 1) with (x + m - 1 + q * m) by lia.
  rewrite Z.div_add by lia. lia.
Qed.

(** ** Option and outcome inversion *)

Lemma bind_Ok {E A B} (c : outcome E A) (f : A -> outcome E B) b :
  c ≫= f = Ok b <-> exists a, c = Ok a /\ f a = Ok b.
Proof.
  destruct c as [a | | |]; simpl; (split; [intros Hc | intros (x & Hx & Hf)]);
    try congruence; eauto.
Qed.

Lemma st_bind_Ok {S E A B} (c : st S E A) (f : A -> st S E B) s s' a :
  c s = (s', Ok a) -> (c ≫= f) s = f a s'.
Proof. intros H. unfold mbind, st_bind. by rewrite H. Qed.

Lemma st_Ok_bind {S E A B} (c : st S E A) (f : A -> st S E B) s s' b :
  (c ≫= f) s = (s', Ok b) -> exists s1 a, c s = (s1, Ok a) /\ f a s1 = (s', Ok b).
Proof. unfold mbind, st_bind. destruct (c s) as [s1 [a | | |]]; [eauto | done..]. Qed.

Lemma safe_bind {E A B} (c : outcome E A) (f : A -> outcome E B) :
  safe c -> (forall a, c = Ok a -> safe (f a)) -> safe (c ≫= f).
Proof. destruct c; simpl; auto. Qed.

(** Conversions are reasoned about by the lemmas above only. *)
#[global] Opaque to_le_bytes from_le_bytes to_be_bytes from_be_bytes.
