(* ===== verification/Paths.v ===== *)
(** * File names (the [std::path] and [format!] calls of tier3_storage)

    The storage engine builds every path as [db_dir.join(name)] and
    [path.with_extension(..)], so a path is its directory and its file name.
    [with_extension], [strip_prefix], [str::parse::<u64>] and the decimal
    formats are the standard library's, written out on strings; a number that
    was formatted is parsed back. *)

From Stdlib Require Import Ascii String NArith DecimalString DecimalNat DecimalPos DecimalN.
From stdpp Require Import countable strings.
From S2P Require Import Prelude.
#[local] Open Scope string_scope.
#[local] Open Scope Z_scope.

(** [dir.join(name)], for a name that is one ordinary component. *)
Record path := mk_path { parent : string; file_name : string }.
#[export] Instance path_eq_dec : EqDecision path.
Proof. solve_decision. Defined.
#[export] Instance path_countable : Countable path.
Proof.
  refine (inj_countable' (fun p => (parent p, file_name p)) (fun q => mk_path q.1 q.2) _). by intros [].
Defined.

(** The text before and after the last dot. *)
Fixpoint rsplit_dot (s : string) : option (string * string) :=
  match s with
  | "" => None
  | String c s =>
      match rsplit_dot s with
      | Some (a, b) => Some (String c a, b)
      | None => if Ascii.eqb c "." then Some ("", s) else None
      end
  end.

(** [Path::file_stem]: a name whose only dot is its first character is all stem. *)
Definition file_stem (s : string) : string :=
  match rsplit_dot s with
  | None | Some ("", _) => s
  | Some (a, _) => a
  end.

Definition with_extension (p : path) (ext : string) : path :=
  let stem := file_stem (file_name p) in
  mk_path (parent p) (match ext with "" => stem | _ => stem ++ "." ++ ext end).

Fixpoint strip_prefix (p s : string) : option string :=
  match p, s with
  | "", _ => Some s
  | String a p, String b s => if Ascii.eqb a b then strip_prefix p s else None
  | _, _ => None
  end.

(** [{}] of a [u64]. *)
Definition show_u64 (n : Z) : string := NilEmpty.string_of_uint (N.to_uint (Z.to_N n)).

(** [{:06}] of a [u64]: pad_zeros on the left up to six characters. *)
Fixpoint pad_zeros (n : nat) (s : string) : string :=
  match n with O => s | S n => String "0" (pad_zeros n s) end.
Definition show_06 (n : Z) : string :=
  let s := show_u64 n in pad_zeros (6 - String.length s) s.

(** [str::parse::<u64>]. *)
Definition digit (c : ascii) : option Z :=
  let d := Z.of_N (N_of_ascii c) - 48 in
  if (0 <=? d) && (d <=? 9) then Some d else None.
Fixpoint parse_digits (acc : Z) (s : string) : option Z :=
  match s with
  | "" => Some acc
  | String c s =>
      match digit c with
      | Some d => if acc * 10 + d <? 2 ^ 64 then parse_digits (acc * 10 + d) s else None
      | None => None
      end
  end.
Definition parse_u64 (s : string) : option Z :=
  match s with
  | "" => None
  | String c t => if Ascii.eqb c "+" then match t with "" => None | _ => parse_digits 0 t end else parse_digits 0 s
  end.

(** ** Round trips *)

Lemma length_string_app s t : String.length (s ++ t) = (String.length s + String.length t)%nat.
Proof. induction s as [|c s IH]; [done |]. exact (f_equal S IH). Qed.

#[export] Instance string_app_inj_l u : Inj (=) (=) (fun s => s ++ u).
Proof.
  intros s. induction s as [|c s IH]; intros [|d t] Heq; [done | | |].
  - apply (f_equal String.length) in Heq. rewrite !length_string_app in Heq. cbn in Heq. lia.
  - apply (f_equal String.length) in Heq. rewrite !length_string_app in Heq. cbn in Heq. lia.
  - injection Heq as -> Heq. f_equal. by apply IH.
Qed.

Lemma parse_digits_pos d p : Z.pos (Pos.of_uint_acc d p) < 2 ^ 64 ->
  parse_digits (Z.pos p) (NilEmpty.string_of_uint d) = Some (Z.pos (Pos.of_uint_acc d p)).
Proof.
  assert (forall d p, Z.pos p <= Z.pos (Pos.of_uint_acc d p)) as Hmono.
  { intros e. induction e as [|e IH|e IH|e IH|e IH|e IH|e IH|e IH|e IH|e IH|e IH]; intros q; cbn [Pos.of_uint_acc];
      [lia | (etrans; [| apply IH]; lia)..]. }
  revert p. induction d as [|d IH|d IH|d IH|d IH|d IH|d IH|d IH|d IH|d IH|d IH]; intros p Hb; [done |..];
    cbn [NilEmpty.string_of_uint parse_digits Pos.of_uint_acc] in *;
    match type of Hb with Z.pos (Pos.of_uint_acc d ?q) < _ =>
      specialize (Hmono d q);
      match goal with |- context [digit ?c] => let x := eval vm_compute in (digit c) in change (digit c) with x end;
      cbn iota; match goal with |- context [if ?x <? _ then _ else _] => replace x with (Z.pos q) by lia end;
      rewrite (proj2 (Z.ltb_lt _ _)) by lia; by apply IH
    end.
Qed.

Lemma parse_digits_uint d : Z.of_N (N.of_uint d) < 2 ^ 64 ->
  parse_digits 0 (NilEmpty.string_of_uint d) = Some (Z.of_N (N.of_uint d)).
Proof.
  induction d as [|d IH|d IH|d IH|d IH|d IH|d IH|d IH|d IH|d IH|d IH]; intros Hb; [done | by apply IH |..];
    cbn [NilEmpty.string_of_uint parse_digits];
    match goal with |- context [digit ?c] => let x := eval vm_compute in (digit c) in change (digit c) with x end;
    cbn iota; match goal with |- context [if ?x <? _ then _ else _] => let y := eval vm_compute in x in change x with y end;
    cbn iota; by apply parse_digits_pos.
Qed.

Lemma parse_pad n s : parse_digits 0 (pad_zeros n s) = parse_digits 0 s.
Proof. by induction n. Qed.

Lemma show_first n : exists c s, show_u64 n = String c s /\ digit c <> None.
Proof.
  unfold show_u64.
  destruct (N.to_uint (Z.to_N n)) eqn:Hu; cbn; eauto; [| by eexists _, _..].
  pose proof (DecimalN.Unsigned.of_to (Z.to_N n)) as Hz. rewrite Hu in Hz. cbn in Hz. rewrite <- Hz in Hu. done.
Qed.

Lemma show_06_first n : exists c s, show_06 n = String c s /\ digit c <> None.
Proof.
  unfold show_06. destruct (6 - String.length (show_u64 n))%nat; [apply show_first |]. by eexists _, _.
Qed.

Lemma show_digits n : is_u64 n -> parse_digits 0 (show_u64 n) = Some n.
Proof.
  intros Hn. unfold show_u64. unfold is_u64 in Hn.
  rewrite parse_digits_uint; rewrite DecimalN.Unsigned.of_to; [f_equal |]; lia.
Qed.

Lemma show_06_inj a b : is_u64 a -> is_u64 b -> show_06 a = show_06 b -> a = b.
Proof.
  intros Ha Hb Heq. assert (forall x, is_u64 x -> parse_digits 0 (show_06 x) = Some x) as Hp.
  { intros x Hx. unfold show_06. by rewrite parse_pad, show_digits. }
  apply Hp in Ha, Hb. rewrite Heq in Ha. congruence.
Qed.

Lemma parse_first s : (exists c t, s = String c t /\ digit c <> None) -> parse_u64 s = parse_digits 0 s.
Proof. intros (c & t & -> & Hc). unfold parse_u64. by destruct (Ascii.eqb_spec c "+") as [-> |]. Qed.

(** A number written with [{}] or [{:06}] is read back by [parse::<u64>]. *)
Lemma show_parse n : is_u64 n -> parse_u64 (show_u64 n) = Some n /\ parse_u64 (show_06 n) = Some n.
Proof.
  intros Hn. rewrite !parse_first by (apply show_first || apply show_06_first). unfold show_06.
  rewrite parse_pad. split; by apply show_digits.
Qed.

(** The stem of a name keeps its first character. *)
Lemma file_stem_first c s : c <> "."%char -> exists t, file_stem (String c s) = String c t.
Proof.
  intros Hc. unfold file_stem. cbn [rsplit_dot]. destruct (rsplit_dot s) as [[a b] |]; [by eexists |].
  destruct (Ascii.eqb_spec c "."); [done | by eexists].
Qed.

Lemma with_extension_first dir c s ext : c <> "."%char ->
  exists t, with_extension (mk_path dir (String c s)) ext = mk_path dir (String c t).
Proof.
  intros Hc. destruct (file_stem_first c s Hc) as (t & Ht). unfold with_extension. cbn [file_name parent].
  rewrite Ht. destruct ext; by eexists.
Qed.
