(* ===== verification/WalRecord.v ===== *)
(** * The WAL record codec (tier3_storage/src/wal/record.rs)

    [encode_record] and [decode_record] as the code has them, over a parameter
    [crc32] for the crc32fast crate; [frame], the bytes a record stands for;
    [decode_record] characterised by the frames it accepts. *)

From S2P Require Import Prelude.
#[local] Open Scope Z_scope.

(** ** Data *)

Definition HEADER_SIZE : Z := 4 + 4 + 8.
Definition MAX_PAYLOAD_SIZE : Z := 16 * 1024 * 1024.

Record WalRecord := mk_WalRecord { seq : Z; payload : bytes }.

(** The two ways the code builds an [io::Error] for the log: the errno of a
    failed call, and a short write ([ErrorKind::WriteZero]). *)
Inductive io_error :=
| OsError
| WriteZero (written expected : Z).

Inductive WalError :=
| Io (e : io_error)
| CorruptCrc (expected found seq : Z)
| Truncated (needed available : Z)
| PayloadTooLarge (n : Z)
| SequenceRegression (prev found : Z)
| EndOfLog.

(** What the code relies on of [crc32fast]: [finalize] returns a [u32]. *)
Class Crc32 (crc32 : bytes -> Z) : Prop :=
  crc32_u32 : forall b, is_u32 (crc32 b).

(** CRC-32 detects every error burst of at most 32 bits, so every change
    confined to one byte. *)
Class Crc32Detects (crc32 : bytes -> Z) : Prop :=
  crc32_detects : forall l x y r, x <> y -> crc32 (l ++ x :: r) <> crc32 (l ++ y :: r).

Section codec.
  Context (crc32 : bytes -> Z).

(** ** Operations *)

(** [encode_record]: the returned pair is the record's size and [out] after the
    call.  Every error is returned before [out] is written. *)
Definition encode_record (seq : Z) (payload out : bytes) : outcome WalError (Z * bytes) :=
  if MAX_PAYLOAD_SIZE <? len payload then Err (PayloadTooLarge (len payload)) else
  let total := HEADER_SIZE + len payload in
  if len out <? total then Err (Truncated total (len out)) else
  let plen := wrap32 (len payload) in
  out ← copy_from out 4 8 (to_le_bytes 4 plen);
  out ← copy_from out 8 16 (to_le_bytes 8 seq);
  out ← copy_from out HEADER_SIZE total payload;
  body ← range out 4 total;
  let crc := crc32 body in
  out ← copy_from out 0 4 (to_le_bytes 4 crc);
  Ok (total, out).

Definition decode_record (buf : bytes) (prev_seq : option Z) : outcome WalError (WalRecord * Z) :=
  if len buf <? HEADER_SIZE then Err EndOfLog else
  header ← range buf 0 HEADER_SIZE;
  if forallb is_zero header then Err EndOfLog else
  crc_bytes ← range buf 0 4;
  len_bytes ← range buf 4 8;
  seq_bytes ← range buf 8 16;
  let crc_stored := from_le_bytes crc_bytes in
  let plen := from_le_bytes len_bytes in
  let seq := from_le_bytes seq_bytes in
  if MAX_PAYLOAD_SIZE <? plen then Err (CorruptCrc 0 crc_stored seq) else
  let total := HEADER_SIZE + plen in
  if len buf <? total then Err (Truncated total (len buf)) else
  body ← range buf 4 total;
  let crc_computed := crc32 body in
  if negb (crc_computed =? crc_stored) then Err (CorruptCrc crc_computed crc_stored seq) else
  let accept :=
    payload ← range buf HEADER_SIZE total;
    Ok (mk_WalRecord seq payload, total) in
  match prev_seq with
  | Some p => if seq <=? p then Err (SequenceRegression p seq) else accept
  | None => accept
  end.

(** ** Specification: the bytes of a record *)

Definition frame_body (seq : Z) (payload : bytes) : bytes :=
  to_le_bytes 4 (len payload) ++ to_le_bytes 8 seq ++ payload.

Definition frame (r : WalRecord) : bytes :=
  to_le_bytes 4 (crc32 (frame_body (seq r) (payload r))) ++ frame_body (seq r) (payload r).

(** A record the log can hold: the limits [encode_record] and the types put. *)
Definition record_ok (r : WalRecord) : Prop :=
  is_u64 (seq r) /\ len (payload r) <= MAX_PAYLOAD_SIZE.

(** The acceptance test on the sequence number. *)
Definition seq_after (prev_seq : option Z) (s : Z) : Prop :=
  match prev_seq with Some p => p < s | None => True end.

Definition header_zero (b : bytes) : bool := forallb is_zero (sub b 0 HEADER_SIZE).

(** ** Lemmas *)

Lemma len_frame_body s p : len (frame_body s p) = 12 + len p.
Proof. unfold frame_body. len_lia. Qed.

Lemma len_frame r : len (frame r) = HEADER_SIZE + len (payload r).
Proof. unfold frame, HEADER_SIZE. rewrite len_app, len_le, len_frame_body. lia. Qed.

(** The fields of a buffer cut at the offsets the code reads. *)
Lemma cut_fields (c l s p rest : bytes) (n : Z) :
  len c = 4 -> len l = 4 -> len s = 8 -> n = HEADER_SIZE + len p ->
  let b := c ++ l ++ s ++ p ++ rest in
  sub b 0 4 = c /\ sub b 4 8 = l /\ sub b 8 16 = s /\
  sub b HEADER_SIZE n = p /\ sub b 4 n = l ++ s ++ p.
Proof.
  unfold HEADER_SIZE. intros Hc Hl Hs ->. repeat split.
  - by apply sub_app_start.
  - apply sub_app; lia.
  - rewrite (app_assoc c). apply sub_app; len_lia.
  - rewrite (app_assoc c), (app_assoc _ s). apply sub_app; len_lia.
  - rewrite (app_assoc s), (app_assoc l). apply sub_app; len_lia.
Qed.

Lemma frame_app r rest :
  frame r ++ rest =
  to_le_bytes 4 (crc32 (frame_body (seq r) (payload r))) ++ to_le_bytes 4 (len (payload r)) ++
  to_le_bytes 8 (seq r) ++ payload r ++ rest.
Proof. unfold frame, frame_body. by rewrite <- !app_assoc. Qed.

(** [decode_record] on a buffer that holds a header: every slice expression of
    the code is in range. *)
Lemma decode_long buf prev :
  HEADER_SIZE <= len buf ->
  decode_record buf prev =
  if header_zero buf then Err EndOfLog else
  let plen := from_le_bytes (sub buf 4 8) in
  let s := from_le_bytes (sub buf 8 16) in
  let found := from_le_bytes (sub buf 0 4) in
  if MAX_PAYLOAD_SIZE <? plen then Err (CorruptCrc 0 found s) else
  if len buf <? HEADER_SIZE + plen then Err (Truncated (HEADER_SIZE + plen) (len buf)) else
  let computed := crc32 (sub buf 4 (HEADER_SIZE + plen)) in
  if negb (computed =? found) then Err (CorruptCrc computed found s) else
  let accepted := Ok (mk_WalRecord s (sub buf HEADER_SIZE (HEADER_SIZE + plen)), HEADER_SIZE + plen) in
  match prev with
  | Some p => if s <=? p then Err (SequenceRegression p s) else accepted
  | None => accepted
  end.
Proof.
  unfold decode_record, header_zero, HEADER_SIZE. intros Hlen.
  replace (len buf <? 4 + 4 + 8) with false by (symmetry; apply Z.ltb_ge; lia).
  rewrite !range_ok by lia. cbn [mbind outcome_bind].
  destruct (forallb _ _); [done |].
  pose proof (from_le_bound (sub buf 4 8)) as Hp.
  destruct (Z.ltb_spec MAX_PAYLOAD_SIZE (from_le_bytes (sub buf 4 8))); [done |].
  destruct (Z.ltb_spec (len buf) (4 + 4 + 8 + from_le_bytes (sub buf 4 8))); [done |].
  rewrite !range_ok by lia. done.
Qed.

Lemma decode_short buf prev : len buf < HEADER_SIZE -> decode_record buf prev = Err EndOfLog.
Proof. intros. unfold decode_record. by rewrite (proj2 (Z.ltb_lt _ _)). Qed.

(** A buffer whose length field fits and whose checksum matches starts with
    the frame of the record it decodes to. *)
Lemma fields_frame buf :
  let plen := from_le_bytes (sub buf 4 8) in
  let r := mk_WalRecord (from_le_bytes (sub buf 8 16)) (sub buf HEADER_SIZE (HEADER_SIZE + plen)) in
  HEADER_SIZE + plen <= len buf ->
  crc32 (sub buf 4 (HEADER_SIZE + plen)) = from_le_bytes (sub buf 0 4) ->
  exists rest, buf = frame r ++ rest /\ len (payload r) = plen.
Proof.
  intros plen r Hlen Hcrc.
  assert (0 <= plen) by apply from_le_bound. unfold HEADER_SIZE in Hlen.
  destruct (split_at buf 4) as (c & b1 & -> & Hc); [lia |].
  destruct (split_at b1 4) as (l & b2 & -> & Hl); [len_lia |].
  destruct (split_at b2 8) as (s & b3 & -> & Hs); [len_lia |].
  destruct (split_at b3 plen) as (p & rest & -> & Hp); [len_lia |].
  exists rest. rewrite frame_app. subst r. cbn [seq payload].
  destruct (cut_fields c l s p rest (HEADER_SIZE + plen)) as (E1 & E2 & E3 & E4 & E5);
    [done.. | lia |].
  rewrite E1, E5 in Hcrc. rewrite E3, E4. split; [| done].
  unfold frame_body. rewrite (to_from_le 8) by done.
  replace (len p) with (from_le_bytes l) by (unfold plen in Hp; rewrite E2 in Hp; done).
  rewrite (to_from_le 4 l), Hcrc, (to_from_le 4 c) by done. done.
Qed.

(** Decoding a frame, whatever follows it. *)
Lemma decode_frame `{!Crc32 crc32} r rest prev :
  record_ok r -> header_zero (frame r ++ rest) = false ->
  decode_record (frame r ++ rest) prev =
  match prev with
  | Some p => if seq r <=? p then Err (SequenceRegression p (seq r)) else Ok (r, len (frame r))
  | None => Ok (r, len (frame r))
  end.
Proof.
  intros [Hs Hp] Hz. pose proof (len_frame r) as Hf.
  rewrite decode_long by len_lia. rewrite Hz, frame_app, Hf.
  edestruct (cut_fields (to_le_bytes 4 (crc32 (frame_body (seq r) (payload r))))
    (to_le_bytes 4 (len (payload r))) (to_le_bytes 8 (seq r)) (payload r) rest (HEADER_SIZE + len (payload r)))
    as (E1 & E2 & E3 & E4 & E5); [apply len_le.. | done |].
  rewrite E1, E2, E3. unfold MAX_PAYLOAD_SIZE in *.
  rewrite !from_to_le by (try apply crc32_u32; unfold is_u64 in *; len_lia).
  cbv zeta. rewrite E4, E5. fold (frame_body (seq r) (payload r)).
  rewrite Z.eqb_refl, <- frame_app. cbn [negb].
  rewrite !(proj2 (Z.ltb_ge _ _)) by len_lia.
  by destruct r.
Qed.

Lemma frame_body_inj s p s' p' rest rest' :
  is_u64 s -> is_u64 s' -> len p <= MAX_PAYLOAD_SIZE -> len p' <= MAX_PAYLOAD_SIZE ->
  frame_body s p ++ rest = frame_body s' p' ++ rest' -> s = s' /\ p = p' /\ rest = rest'.
Proof.
  unfold frame_body, is_u64, MAX_PAYLOAD_SIZE. intros Hs Hs' Hp Hp' Heq.
  rewrite <- !app_assoc in Heq.
  apply app_inj_len in Heq as [El Heq]; [| by rewrite !len_le].
  apply app_inj_len in Heq as [Es Heq]; [| by rewrite !len_le].
  apply to_le_inj in El; [| len_lia..]. apply to_le_inj in Es; [| lia..].
  apply app_inj_len in Heq as [-> ->]; done.
Qed.

(** The slice expressions and conversions of [decode_record] never panic. *)
Lemma decode_no_panic buf prev : safe (decode_record buf prev).
Proof.
  destruct (Z.lt_ge_cases (len buf) HEADER_SIZE); [by rewrite decode_short |].
  rewrite decode_long by done. cbv zeta.
  repeat (case_match; try done).
Qed.

Lemma decode_accepts `{!Crc32 crc32} buf prev r n :
  decode_record buf prev = Ok (r, n) <->
  exists rest, buf = frame r ++ rest /\ n = len (frame r) /\ record_ok r /\
    header_zero buf = false /\ seq_after prev (seq r).
Proof.
  split.
  - intros Hd. destruct (Z.lt_ge_cases (len buf) HEADER_SIZE) as [Hl | Hl];
      [by rewrite decode_short in Hd |].
    rewrite decode_long in Hd by done. cbv zeta in Hd.
    destruct (header_zero buf) eqn:Hz; [done |].
    set (plen := from_le_bytes (sub buf 4 8)) in *.
    destruct (Z.ltb_spec MAX_PAYLOAD_SIZE plen); [done |].
    destruct (Z.ltb_spec (len buf) (HEADER_SIZE + plen)); [done |].
    destruct (Z.eqb_spec (crc32 (sub buf 4 (HEADER_SIZE + plen))) (from_le_bytes (sub buf 0 4)))
      as [Hc |]; [| done].
    destruct (fields_frame buf) as (rest & Hbuf & Hp); [done.. |]. fold plen in Hbuf, Hp.
    assert (Hr : r = mk_WalRecord (from_le_bytes (sub buf 8 16))
      (sub buf HEADER_SIZE (HEADER_SIZE + plen)) /\ n = HEADER_SIZE + plen /\
      seq_after prev (from_le_bytes (sub buf 8 16))).
    { destruct prev as [p|]; cbn in Hd |- *; [| by simplify_eq].
      destruct (Z.leb_spec (from_le_bytes (sub buf 8 16)) p); by simplify_eq. }
    destruct Hr as (-> & -> & Hs). exists rest. rewrite len_frame, Hp.
    repeat split; [done | | | cbn [payload] in *; lia | done].
    all: apply (from_le_u64 (sub buf 8 16)); rewrite len_sub; unfold HEADER_SIZE in *; lia.
  - intros (rest & -> & -> & Hok & Hz & Hs). rewrite decode_frame by done.
    destruct prev as [p|]; [| done]. cbn in Hs.
    by rewrite (proj2 (Z.leb_gt _ _)).
Qed.

(** A header whose sequence number is not zero is not all zero. *)
Lemma header_zero_fields c l s rest : len c = 4 -> len l = 4 -> is_u64 s -> 0 < s ->
  header_zero (c ++ l ++ to_le_bytes 8 s ++ rest) = false.
Proof.
  intros Hc Hl Hu Hs. apply not_true_is_false. unfold header_zero. intros Hz.
  rewrite (app_assoc l), (app_assoc c), sub_app_start in Hz by (unfold HEADER_SIZE; len_lia).
  rewrite !forallb_app, !andb_true_iff in Hz. destruct Hz as (_ & _ & Hz).
  apply forallb_zero_le in Hz. rewrite from_to_le in Hz by done. lia.
Qed.

Lemma header_zero_seq r rest : is_u64 (seq r) -> 0 < seq r -> header_zero (frame r ++ rest) = false.
Proof. intros Hu Hs. rewrite frame_app. apply header_zero_fields; [apply len_le..|done|done]. Qed.

(** [encode_record] on every branch: too large a payload, too small a buffer,
    and otherwise the record's frame at the start of [out], the rest of [out]
    kept. *)
Lemma encode_result s p out :
  encode_record s p out =
  if MAX_PAYLOAD_SIZE <? len p then Err (PayloadTooLarge (len p))
  else if len out <? HEADER_SIZE + len p then Err (Truncated (HEADER_SIZE + len p) (len out))
  else Ok (HEADER_SIZE + len p,
    frame (mk_WalRecord s p) ++ drop (Z.to_nat (HEADER_SIZE + len p)) out).
Proof.
  unfold encode_record. destruct (Z.ltb_spec MAX_PAYLOAD_SIZE (len p)); [done |].
  cbv zeta. destruct (Z.ltb_spec (len out) (HEADER_SIZE + len p)); [done |].
  rewrite wrap32_small by (unfold is_u32, MAX_PAYLOAD_SIZE in *; len_lia).
  unfold HEADER_SIZE in *.
  destruct (split_at out 4) as (c & b1 & -> & Hc); [len_lia |].
  destruct (split_at b1 4) as (l & b2 & -> & Hl); [len_lia |].
  destruct (split_at b2 8) as (q & b3 & -> & Hq); [len_lia |].
  destruct (split_at b3 (len p)) as (v & rest & -> & Hv); [len_lia |].
  replace (drop _ _) with rest.
  2: { rewrite !app_assoc, drop_app_length'; [done |].
       unfold len in *. rewrite !length_app. lia. }
  rewrite (copy_from_app c l (q ++ v ++ rest)) by len_lia. cbn [mbind outcome_bind].
  rewrite (app_assoc c), (copy_from_app (c ++ _) q (v ++ rest)) by len_lia. cbn [mbind outcome_bind].
  rewrite (app_assoc (c ++ _)), (copy_from_app ((c ++ _) ++ _) v rest) by len_lia.
  cbn [mbind outcome_bind].
  rewrite range_ok by len_lia. cbn [mbind outcome_bind].
  rewrite <- !app_assoc.
  destruct (cut_fields c (to_le_bytes 4 (len p)) (to_le_bytes 8 s) p rest (HEADER_SIZE + len p))
    as (_ & _ & _ & _ & E); [done | apply len_le.. | done |]. unfold HEADER_SIZE in E. rewrite E.
  rewrite copy_from_start by len_lia. cbn [mbind outcome_bind].
  unfold frame, frame_body. cbn [seq payload]. by rewrite <- !app_assoc.
Qed.

(** One changed byte outside the length field is never decoded. *)
Lemma corrupt_not_decoded `{!Crc32 crc32, !Crc32Detects crc32} r rest l x y t prev :
  record_ok r -> frame r ++ rest = l ++ x :: t -> x <> y ->
  (len l < 4 \/ 8 <= len l < len (frame r)) ->
  exists e, decode_record (l ++ y :: t) prev = Err e.
Proof.
  intros Hok Hf Hxy Hpos.
  pose proof (decode_no_panic (l ++ y :: t) prev) as Hsafe.
  destruct (decode_record (l ++ y :: t) prev) as [[r' n] | e | |] eqn:Hd; [| by eauto | done..].
  apply decode_accepts in Hd as (rest' & Hb & _ & [Hu' Hp'] & _).
  exfalso. destruct Hok as [Hu Hp].
  unfold frame in Hf, Hb, Hpos. rewrite <- app_assoc in Hf, Hb.
  rewrite len_app, len_le in Hpos. destruct Hpos as [Hpos | Hpos].
  - apply app_cut_left in Hf as (c & Hc & ->); [| by rewrite len_le].
    rewrite app_comm_cons, app_assoc in Hb.
    apply app_inj_len in Hb as [Hc' Hb];
      [| apply (f_equal len) in Hc; revert Hc; rewrite len_le, !len_app, !len_cons, len_le; lia].
    apply frame_body_inj in Hb as (Hs & Hpl & _); [| done..].
    rewrite <- Hs, <- Hpl, Hc in Hc'. apply app_inv_head in Hc'. congruence.
  - apply app_cut_right in Hf as (b & -> & Hf); [| rewrite len_le; lia].
    rewrite <- app_assoc in Hb. apply app_inj_len in Hb as [Hc Hb]; [| by rewrite !len_le].
    rewrite len_app, len_le in Hpos.
    pose proof Hf as Hcut. apply app_cut_left in Hcut as (d & Hbody & ->); [| lia].
    rewrite Hbody, <- app_assoc in Hf. clear Hf.
    rewrite app_comm_cons, app_assoc in Hb.
    assert (Hlen : len (payload r) = len (payload r')).
    { destruct (split_at b 4) as (b1 & b2 & -> & Hb1); [len_lia |].
      unfold frame_body in Hbody, Hb. rewrite <- !app_assoc in Hbody.
      apply app_inj_len in Hbody as [<- _]; [| by rewrite len_le].
      rewrite <- !app_assoc in Hb.
      apply app_inj_len in Hb as [Hb _]; [| by rewrite !len_le].
      apply to_le_inj in Hb; unfold MAX_PAYLOAD_SIZE in *; len_lia. }
    apply app_inj_len in Hb as [Hb _].
    + apply (crc32_detects b x y d Hxy).
      apply to_le_inj in Hc; [| apply crc32_u32..]. congruence.
    + rewrite len_frame_body, <- Hlen. apply (f_equal len) in Hbody.
      rewrite len_frame_body, len_app, len_cons in Hbody. rewrite len_app, len_cons. lia.
Qed.

(** No frame is a proper prefix of another. *)
Lemma frame_prefix_inj r r' a b :
  record_ok r -> record_ok r' -> frame r ++ a = frame r' ++ b -> r = r' /\ a = b.
Proof.
  intros [Hu Hp] [Hu' Hp'] Heq. unfold frame in Heq. rewrite <- !app_assoc in Heq.
  apply app_inj_len in Heq as [_ Heq]; [| by rewrite !len_le].
  apply frame_body_inj in Heq as (Hs & Hpl & ->); [| done..].
  destruct r, r'; simpl in *; by subst.
Qed.

End codec.

(** A checksum that meets both laws, for the witnesses. *)
Definition byte_sum (b : bytes) : Z := wrap32 (foldr (fun x s => byte.unsigned x + s) 0 b).

#[export] Instance byte_sum_u32 : Crc32 byte_sum.
Proof. intros b. apply Z.mod_pos_bound. lia. Qed.

Lemma byte_sum_split l x r :
  foldr (fun x s => byte.unsigned x + s) 0 (l ++ x :: r) =
  byte.unsigned x + foldr (fun x s => byte.unsigned x + s) 0 (l ++ r).
Proof. induction l as [|y l IH]; simpl; [done |]. rewrite IH. lia. Qed.

#[export] Instance byte_sum_detects : Crc32Detects byte_sum.
Proof.
  intros l x y r Hxy Heq. apply Hxy, byte.unsigned_inj.
  unfold byte_sum, wrap32 in Heq. rewrite !byte_sum_split in Heq.
  pose proof (byte.unsigned_range x). pose proof (byte.unsigned_range y).
  revert Heq. generalize (foldr (fun x s => byte.unsigned x + s) 0 (l ++ r)). intros z Heq.
  pose proof (Z.div_mod (byte.unsigned x + z) (2 ^ 32) ltac:(lia)).
  pose proof (Z.div_mod (byte.unsigned y + z) (2 ^ 32) ltac:(lia)).
  rewrite Heq in *. nia.
Qed.

(** * Theorems *)

Section theorems.
  Context (crc32 : bytes -> Z).

(** C39: [decode_record] accepts exactly the buffers that start with the frame
    of a record within the limits, whose header is not all zero and whose
    sequence number exceeds [prev_seq]; it then returns that record and the
    frame's length. *)
Theorem decode_record_accepts_iff `{!Crc32 crc32} buf prev r n :
  decode_record crc32 buf prev = Ok (r, n) <->
  exists rest, buf = frame crc32 r ++ rest /\ n = len (frame crc32 r) /\ record_ok r /\
    header_zero buf = false /\ seq_after prev (seq r).
Proof. by apply decode_accepts. Qed.

(** decoding what [encode_record] wrote, with anything after it, gives the
    record back and consumes exactly the bytes written; the rest of the buffer
    is untouched. *)
Theorem encode_decode_roundtrip `{!Crc32 crc32} s p out n out' prev :
  encode_record crc32 s p out = Ok (n, out') -> is_u64 s -> 0 < s -> seq_after prev s ->
  decode_record crc32 out' prev = Ok (mk_WalRecord s p, n) /\
  drop (Z.to_nat n) out' = drop (Z.to_nat n) out /\ len out' = len out.
Proof.
  rewrite encode_result. intros He Hu Hs Hp.
  destruct (Z.ltb_spec MAX_PAYLOAD_SIZE (len p)); [done |].
  destruct (Z.ltb_spec (len out) (HEADER_SIZE + len p)); [done |].
  injection He as <- <-. pose proof (len_frame crc32 (mk_WalRecord s p)) as Hl. cbn [payload] in Hl.
  repeat split.
  - apply decode_accepts; [done |]. eexists.
    split_and!; [done | by rewrite Hl | done | by apply header_zero_seq | done].
  - rewrite drop_app_length'; [done | unfold len in *; lia].
  - rewrite len_app, Hl, len_drop. unfold HEADER_SIZE in *. len_lia.
Qed.

(** One changed byte in the checksum, sequence-number or payload field of
    a framed record is rejected with an error, never decoded. *)
Theorem corrupt_byte_rejected `{!Crc32 crc32, !Crc32Detects crc32} r rest l x y t prev :
  record_ok r -> frame crc32 r ++ rest = l ++ x :: t -> x <> y ->
  (len l < 4 \/ 8 <= len l < len (frame crc32 r)) ->
  exists e, decode_record crc32 (l ++ y :: t) prev = Err e.
Proof. by apply corrupt_not_decoded. Qed.

End theorems.

(** * Witnesses *)

Lemma decode_record_accepts_iff_witness :
  decode_record byte_sum (frame byte_sum (mk_WalRecord 7 [Byte.x41]) ++ [Byte.x00]) (Some 6) =
  Ok (mk_WalRecord 7 [Byte.x41], 17).
Proof.
  apply (decode_record_accepts_iff byte_sum). exists [Byte.x00].
  split; [reflexivity |]. split; [vm_compute; reflexivity |].
  split; [split; [split; vm_compute; congruence | vm_compute; congruence] |].
  split; vm_compute; reflexivity.
Defined.

Lemma encode_decode_roundtrip_witness :
  let out' := frame byte_sum (mk_WalRecord 7 [Byte.x41]) ++ zeros 3 in
  decode_record byte_sum out' None = Ok (mk_WalRecord 7 [Byte.x41], 17) /\
  drop (Z.to_nat 17) out' = drop (Z.to_nat 17) (zeros 20) /\ len out' = len (zeros 20).
Proof.
  apply (encode_decode_roundtrip byte_sum 7 [Byte.x41] (zeros 20) 17).
  - vm_compute. reflexivity.
  - split; vm_compute; congruence.
  - vm_compute. reflexivity.
  - exact I.
Defined.

Lemma corrupt_byte_rejected_witness :
  exists e, decode_record byte_sum
    (take 17 (frame byte_sum (mk_WalRecord 7 [Byte.x41; Byte.x42])) ++ [Byte.x43]) None = Err e.
Proof.
  apply (corrupt_byte_rejected byte_sum (mk_WalRecord 7 [Byte.x41; Byte.x42]) []
    _ Byte.x42 Byte.x43).
  - split; [split; vm_compute; congruence | vm_compute; congruence].
  - vm_compute. reflexivity.
  - congruence.
  - right. split; vm_compute; [congruence | reflexivity].
Defined.
