(* ===== verification/Crc32.v ===== *)
(** * CRC-32

    The checksum [crc32fast] documents, CRC-32 of IEEE 802.3, bit by bit: an instance of
    the classes that the log's theorems take it by ([Crc32], [Crc32Detects] in
    WalRecord.v).  The register's step is injective, so two inputs that differ in one
    byte leave it in different states, whatever follows. *)

From Stdlib Require Import String.
From S2P Require Import Prelude WalRecord.
#[local] Open Scope Z_scope.

(** The polynomial, bits reversed. *)
Definition POLY : Z := 0xEDB88320.

Definition crc_bit (c : Z) : Z := if Z.testbit c 0 then Z.lxor (Z.shiftr c 1) POLY else Z.shiftr c 1.
Definition crc_byte (c : Z) (b : byte) : Z := Nat.iter 8 crc_bit (Z.lxor c (byte.unsigned b)).
Definition ieee (bs : bytes) : Z := Z.lxor (fold_left crc_byte bs u32_max) u32_max.

(** The check value of the standard. *)
Example ieee_check : ieee (list_byte_of_string "123456789") = 0xCBF43926.
Proof. vm_compute. reflexivity. Qed.

(** ** Registers of 32 bits *)

Lemma u32_bits c : is_u32 c <-> 0 <= c /\ forall i, 32 <= i -> Z.testbit c i = false.
Proof.
  unfold is_u32. split.
  - intros Hc. split; [lia|]. intros i Hi. destruct (decide (c = 0)) as [->|]; [apply Z.bits_0|]. apply Z.bits_above_log2; [lia|].
    apply Z.log2_lt_pow2; [lia|]. apply (Z.lt_le_trans _ (2 ^ 32)); [lia|]. apply Z.pow_le_mono_r; lia.
  - intros [H0 Hb]. split; [done|]. destruct (decide (c = 0)) as [->|]; [lia|]. apply Z.log2_lt_pow2; [lia|].
    destruct (Z.le_gt_cases 32 (Z.log2 c)) as [Hl|]; [|lia]. apply Hb in Hl. by rewrite Z.bit_log2 in Hl by lia.
Qed.

Lemma lxor_u32 a b : is_u32 a -> is_u32 b -> is_u32 (Z.lxor a b).
Proof.
  rewrite !u32_bits. intros [Ha Ha'] [Hb Hb']. split; [by apply Z.lxor_nonneg|].
  intros i Hi. by rewrite Z.lxor_spec, Ha', Hb'.
Qed.

Lemma shiftr_u32 c : is_u32 c -> is_u32 (Z.shiftr c 1) /\ Z.testbit (Z.shiftr c 1) 31 = false.
Proof.
  rewrite !u32_bits. intros [H0 Hb]. split_and!; [by apply Z.shiftr_nonneg| |rewrite Z.shiftr_spec by lia; by apply Hb].
  intros i Hi. rewrite Z.shiftr_spec by lia. apply Hb. lia.
Qed.

Lemma poly_u32 : is_u32 POLY.
Proof. unfold is_u32, POLY. lia. Qed.

Lemma crc_bit_u32 c : is_u32 c -> is_u32 (crc_bit c).
Proof.
  intros Hc. unfold crc_bit. destruct (shiftr_u32 _ Hc) as [Hs _]. case_match; [|done]. apply lxor_u32; [done|apply poly_u32].
Qed.

(** The bit that was shifted out is the highest bit of the new register. *)
Lemma crc_bit_out c : is_u32 c -> Z.testbit (crc_bit c) 31 = Z.testbit c 0.
Proof.
  intros Hc. unfold crc_bit. destruct (shiftr_u32 _ Hc) as [_ Hs]. destruct (Z.testbit c 0); [|done]. by rewrite Z.lxor_spec, Hs.
Qed.

Lemma crc_bit_inj a b : is_u32 a -> is_u32 b -> crc_bit a = crc_bit b -> a = b.
Proof.
  intros Ha Hb H. assert (Z.testbit a 0 = Z.testbit b 0) as H0 by (by rewrite <- (crc_bit_out a), <- (crc_bit_out b), H).
  assert (Z.shiftr a 1 = Z.shiftr b 1) as Hs.
  { unfold crc_bit in H. rewrite H0 in H. destruct (Z.testbit b 0); [|done].
    apply (f_equal (fun z => Z.lxor z POLY)) in H. by rewrite !Z.lxor_assoc, Z.lxor_nilpotent, !Z.lxor_0_r in H. }
  apply Z.bits_inj'. intros i Hi. destruct (decide (i = 0)) as [->|]; [done|].
  apply (f_equal (fun z => Z.testbit z (i - 1))) in Hs. rewrite !Z.shiftr_spec in Hs by lia. by replace (i - 1 + 1) with i in Hs by lia.
Qed.

Lemma iter_u32 n c : is_u32 c -> is_u32 (Nat.iter n crc_bit c).
Proof. intros Hc. induction n as [|n IH]; [done|]. cbn. by apply crc_bit_u32. Qed.

Lemma iter_inj n a b : is_u32 a -> is_u32 b -> Nat.iter n crc_bit a = Nat.iter n crc_bit b -> a = b.
Proof.
  intros Ha Hb. induction n as [|n IH]; [done|]. cbn. intros H%crc_bit_inj; [by apply IH|by apply iter_u32..].
Qed.

Lemma byte_u32 (b : byte) : is_u32 (byte.unsigned b).
Proof. pose proof (byte.unsigned_range b). unfold is_u32. lia. Qed.

Lemma crc_byte_u32 c b : is_u32 c -> is_u32 (crc_byte c b).
Proof. intros Hc. apply iter_u32, lxor_u32; [done|apply byte_u32]. Qed.

Lemma lxor_inj_r a b c : Z.lxor a c = Z.lxor b c -> a = b.
Proof.
  intros H. apply (f_equal (fun z => Z.lxor z c)) in H. by rewrite !Z.lxor_assoc, Z.lxor_nilpotent, !Z.lxor_0_r in H.
Qed.

(** A byte tells registers apart, and registers tell bytes apart. *)
Lemma crc_byte_inj_l b c d : is_u32 c -> is_u32 d -> crc_byte c b = crc_byte d b -> c = d.
Proof.
  intros Hc Hd H. apply (lxor_inj_r _ _ (byte.unsigned b)). eapply iter_inj; [| |exact H]; apply lxor_u32; (done || apply byte_u32).
Qed.

Lemma crc_byte_inj_r c x y : is_u32 c -> crc_byte c x = crc_byte c y -> x = y.
Proof.
  intros Hc H. apply byte.unsigned_inj, (lxor_inj_r _ _ c). rewrite !(Z.lxor_comm _ c).
  eapply iter_inj; [| |exact H]; apply lxor_u32; (done || apply byte_u32).
Qed.

Lemma crc_bytes_u32 bs c : is_u32 c -> is_u32 (fold_left crc_byte bs c).
Proof. revert c. induction bs as [|b bs IH]; intros c Hc; [done|]. cbn. by apply IH, crc_byte_u32. Qed.

Lemma crc_bytes_inj bs c d : is_u32 c -> is_u32 d -> fold_left crc_byte bs c = fold_left crc_byte bs d -> c = d.
Proof.
  revert c d. induction bs as [|b bs IH]; intros c d Hc Hd H; [done|]. cbn in H.
  apply IH in H; [|apply crc_byte_u32; assumption..]. exact (crc_byte_inj_l _ _ _ Hc Hd H).
Qed.

(** ** The classes *)

Lemma start_u32 : is_u32 u32_max.
Proof. unfold is_u32, u32_max. lia. Qed.

#[export] Instance ieee_Crc32 : Crc32 ieee.
Proof. intros b. apply lxor_u32; [apply crc_bytes_u32|]; apply start_u32. Qed.

(** Every change of one byte changes the checksum. *)
#[export] Instance ieee_Crc32Detects : Crc32Detects ieee.
Proof.
  intros l x y r Hxy H. unfold ieee in H. apply lxor_inj_r in H. rewrite !fold_left_app in H. cbn [fold_left] in H.
  assert (is_u32 (fold_left crc_byte l u32_max)) as Hl by apply crc_bytes_u32, start_u32.
  apply crc_bytes_inj in H; [|apply crc_byte_u32; assumption..]. apply (crc_byte_inj_r _ _ _ Hl) in H. contradiction.
Qed.
