(* ===== verification/WalErrorText.v ===== *)
(** * The messages of log errors (tier3_storage/src/wal/record.rs)

    [Display] for [WalError], with the two number formats it uses, [{}] and
    [{:08x}].  [hex_read_back]: eight hexadecimal digits, and only eight, for every
    checksum, and they determine it.  [message_tells]: a message determines the
    error it was made from, its numbers included. *)

From Stdlib Require Import String Ascii.
From stdpp Require Import strings.
From S2P Require Import Prelude Paths WalRecord.
#[local] Open Scope string_scope.
#[local] Open Scope Z_scope.

(** ** Number formats *)

(** [{:08x}]. *)
Definition hex_digit (d : Z) : ascii :=
  ascii_of_N (Z.to_N (if d <? 10 then 48 + d else 87 + d)).
Fixpoint hex_digits (n : nat) (x : Z) (s : string) : string :=
  match n with
  | O => s
  | S n => if x =? 0 then s else hex_digits n (x / 16) (String (hex_digit (x mod 16)) s)
  end.
Definition show_08x (x : Z) : string :=
  let s := if x =? 0 then "0" else hex_digits 16 x "" in pad_zeros (8 - String.length s) s.

(** ** Messages *)

Section display.
  Context (io_text : io_error -> string).

(** [Display::fmt]; [io_text] is the text of an [io::Error]. *)
Definition fmt (e : WalError) : string :=
  match e with
  | Io e => "I/O error: " ++ io_text e
  | CorruptCrc expected found seq =>
      "CRC mismatch at seq " ++ show_u64 seq ++ ": expected " ++ show_08x expected ++ ", found " ++ show_08x found
  | Truncated needed available =>
      "record truncated: need " ++ show_u64 needed ++ " bytes, " ++ show_u64 available ++ " available"
  | PayloadTooLarge n => "payload too large: " ++ show_u64 n ++ " bytes"
  | SequenceRegression prev found => "sequence regression: prev=" ++ show_u64 prev ++ ", found=" ++ show_u64 found
  | EndOfLog => "end of log"
  end.

(** [From<io::Error>]. *)
Definition from_io (e : io_error) : WalError := Io e.
End display.

Example fmt_crc : fmt (fun _ => "") (CorruptCrc 0xDEADBEEF 0x1A 42) =
  "CRC mismatch at seq 42: expected deadbeef, found 0000001a".
Proof. reflexivity. Qed.

(** ** Reading the numbers back *)

Definition hex_value (c : ascii) : option Z :=
  let d := Z.of_N (N_of_ascii c) in
  if (48 <=? d) && (d <=? 57) then Some (d - 48) else if (97 <=? d) && (d <=? 102) then Some (d - 87) else None.
Fixpoint parse_hex (acc : Z) (s : string) : option Z :=
  match s with
  | "" => Some acc
  | String c s => match hex_value c with Some d => parse_hex (acc * 16 + d) s | None => None end
  end.

Lemma hex_value_digit d : 0 <= d < 16 -> hex_value (hex_digit d) = Some d.
Proof.
  intros Hd. assert (forallb (fun d => bool_decide (hex_value (hex_digit d) = Some d)) (seqZ 0 16) = true) as H by (vm_compute; reflexivity).
  eapply forallb_forall in H; [by apply bool_decide_eq_true in H|]. apply list_elem_of_In, elem_of_seqZ. lia.
Qed.

Lemma parse_hex_digits n x s : 0 <= x < 16 ^ Z.of_nat n -> parse_hex 0 (hex_digits n x s) = parse_hex x s.
Proof.
  revert x s. induction n as [|n IH]; intros x s Hx; [cbn in *; f_equal; lia|]. cbn [hex_digits].
  destruct (Z.eqb_spec x 0) as [->|Hn]; [done|]. pose proof (Z.mod_pos_bound x 16 ltac:(lia)).
  rewrite Nat2Z.inj_succ, Z.pow_succ_r in Hx by lia. rewrite IH by (split; [apply Z.div_pos; lia|apply Z.div_lt_upper_bound; lia]).
  cbn [parse_hex]. rewrite hex_value_digit by done. f_equal. rewrite (Z.div_mod x 16) at 3 by lia. lia.
Qed.

Lemma length_hex_digits n k x s : 0 <= x < 16 ^ Z.of_nat k -> (String.length (hex_digits n x s) <= k + String.length s)%nat.
Proof.
  revert k x s. induction n as [|n IH]; intros k x s Hx; cbn [hex_digits]; [lia|].
  destruct (Z.eqb_spec x 0) as [->|Hn]; [lia|]. destruct k as [|k]; [cbn in Hx; lia|].
  rewrite Nat2Z.inj_succ, Z.pow_succ_r in Hx by lia. etransitivity; [apply (IH k)|cbn; lia].
  split; [apply Z.div_pos; lia|apply Z.div_lt_upper_bound; lia].
Qed.

Lemma parse_hex_pad n s : parse_hex 0 (pad_zeros n s) = parse_hex 0 s.
Proof. by induction n. Qed.

Lemma length_pad_zeros n s : String.length (pad_zeros n s) = (n + String.length s)%nat.
Proof. induction n as [|n IH]; [done|]. cbn. by rewrite IH. Qed.

(** Every checksum is written with exactly eight digits, from which it is read
    back. *)
Theorem hex_read_back (x : Z) (Hx : is_u32 x) : String.length (show_08x x) = 8%nat /\ parse_hex 0 (show_08x x) = Some x.
Proof.
  unfold show_08x, is_u32 in *. set (s := if x =? 0 then "0" else hex_digits 16 x "").
  assert (parse_hex 0 s = Some x /\ (String.length s <= 8)%nat) as [Hp Hl].
  { subst s. destruct (Z.eqb_spec x 0) as [->|Hn]; [split; [done|cbn; lia]|]. split.
    - rewrite parse_hex_digits; [done|]. cbn. lia.
    - etransitivity; [by apply (length_hex_digits 16 8)|done]. }
  rewrite parse_hex_pad, length_pad_zeros. split; [lia|done].
Qed.

(** ** A message determines its error *)

Fixpoint all_digits (s : string) : Prop :=
  match s with "" => True | String c s => digit c <> None /\ all_digits s end.

Lemma parse_all_digits acc s n : parse_digits acc s = Some n -> all_digits s.
Proof.
  revert acc. induction s as [|c s IH]; intros acc H; [done|]. cbn [parse_digits] in H. cbn [all_digits].
  destruct (digit c); [|done]. split; [done|]. destruct (_ <? _) in H; [by eapply IH|done].
Qed.

(** A number ends where the first character that is no digit is. *)
Lemma number_end s t c d u v : all_digits s -> all_digits t -> digit c = None -> digit d = None ->
  s ++ String c u = t ++ String d v -> s = t /\ u = v.
Proof.
  revert t. induction s as [|a s IH]; intros [|b t] Hs Ht Hc Hd H; cbn in H.
  - by injection H as _ ->.
  - injection H as -> _. by destruct Ht.
  - injection H as -> _. by destruct Hs.
  - injection H as -> H. destruct Hs as [_ Hs], Ht as [_ Ht]. by destruct (IH t Hs Ht Hc Hd H) as [-> ->].
Qed.

(** A number and the literal text after it. *)
Lemma show_u64_end a b l u v : is_u64 a -> is_u64 b -> match l with String c _ => digit c = None | "" => False end ->
  show_u64 a ++ l ++ u = show_u64 b ++ l ++ v -> a = b /\ u = v.
Proof.
  destruct l as [|c l]; [done|]. intros Ha%show_digits Hb%show_digits Hc H. cbn [String.append] in H.
  apply number_end in H as [H Huv]; [|by eapply parse_all_digits|by eapply parse_all_digits|done..].
  apply (inj (String.append l)) in Huv. split; [|done]. rewrite H in Ha. congruence.
Qed.

Lemma show_u64_tells a b : is_u64 a -> is_u64 b -> show_u64 a = show_u64 b -> a = b.
Proof. intros Ha%show_digits Hb%show_digits H. rewrite H in Ha. congruence. Qed.

Lemma append_nil_r s : s ++ "" = s.
Proof. induction s as [|c s IH]; [done|]. exact (f_equal (String c) IH). Qed.

Lemma append_inj s t u v : String.length s = String.length t -> s ++ u = t ++ v -> s = t /\ u = v.
Proof.
  revert t. induction s as [|a s IH]; intros [|b t] Hl H; cbn in *; try done. injection H as -> H. injection Hl as Hl.
  by destruct (IH t Hl H) as [-> ->].
Qed.

Lemma show_08x_inj x y u v : is_u32 x -> is_u32 y -> show_08x x ++ u = show_08x y ++ v -> x = y /\ u = v.
Proof.
  intros [Hlx Hx]%hex_read_back [Hly Hy]%hex_read_back H. apply append_inj in H as [H ->]; [|by rewrite Hlx, Hly].
  split; [|done]. rewrite H in Hx. congruence.
Qed.

(** The fields are in the range of their types. *)
Definition error_typed (e : WalError) : Prop :=
  match e with
  | Io _ | EndOfLog => True
  | CorruptCrc expected found seq => is_u32 expected /\ is_u32 found /\ is_u64 seq
  | Truncated a b | SequenceRegression a b => is_u64 a /\ is_u64 b
  | PayloadTooLarge n => is_u64 n
  end.

(** Two errors with the same message are the same error, numbers included, if the
    texts of the I/O errors in them tell those apart. *)
Theorem message_tells (io_text : io_error -> string) (e f : WalError) (Hio : forall a b, e = Io a -> f = Io b -> io_text a = io_text b -> a = b)
    (He : error_typed e) (Hf : error_typed f) : fmt io_text e = fmt io_text f -> e = f.
Proof.
  intros H. destruct e as [e|x y n|a b|n|a b|], f as [e'|x' y' n'|a' b'|n'|a' b'|]; try discriminate H;
    cbn [error_typed fmt] in He, Hf, H; try apply (inj (String.append _)) in H; destruct_and?.
  - by apply (Hio e e') in H as ->.
  - apply show_u64_end in H as [-> H]; [|done..]. apply show_08x_inj in H as [-> H]; [|done..].
    apply (inj (String.append _)) in H. rewrite <- (append_nil_r (show_08x y)), <- (append_nil_r (show_08x y')) in H.
    by apply show_08x_inj in H as [-> _].
  - apply show_u64_end in H as [-> H]; [|done..].
    rewrite <- (append_nil_r " available") in H. by apply show_u64_end in H as [-> _].
  - rewrite <- (append_nil_r " bytes") in H. by apply show_u64_end in H as [-> _].
  - apply show_u64_end in H as [-> H]; [|done..]. by apply show_u64_tells in H as ->.
  - done.
Qed.

Lemma message_tells_witness : fmt (fun _ => "") (CorruptCrc 255 16 7) = "CRC mismatch at seq 7: expected 000000ff, found 00000010" /\
  forall f, error_typed f -> (forall e, f <> Io e) -> fmt (fun _ => "") f = "CRC mismatch at seq 7: expected 000000ff, found 00000010" ->
  CorruptCrc 255 16 7 = f.
Proof.
  split; [reflexivity|]. intros f Hf Hn H. apply (message_tells (fun _ => "") (CorruptCrc 255 16 7) f); [done| |done|by rewrite H].
  cbn. unfold is_u32, is_u64. lia.
Defined.
