(* ===== verification/WalWriter.v ===== *)
(** * The WAL writer (tier3_storage/src/wal/{aligned_buffer,writer}.rs)

    [WalWriter] with its staging buffer and the bytes of the file behind its
    descriptor; [append] with every early return; the log invariant that ties
    the state to the bytes appended so far, and what [append] does to it. *)

From S2P Require Import Prelude WalRecord.
#[local] Open Scope Z_scope.

Definition SECTOR_SIZE : Z := 4096.
Definition STAGING_SIZE : Z := 1024 * 1024.

(** The contents of an [AlignedBuffer]; its [len] is the list's. *)
Definition AlignedBuffer_new (size : Z) : bytes :=
  zeros (Z.max (next_multiple_of size SECTOR_SIZE) SECTOR_SIZE).

(** [WalWriter]; [file] stands for the bytes behind [fd]. *)
Record WalWriter := mk_WalWriter {
  file : bytes;
  sector_offset : Z;
  tail_offset : Z;
  staging : bytes;
  next_seq : Z
}.

Definition set_next_seq (x : Z) (w : WalWriter) : WalWriter :=
  mk_WalWriter (file w) (sector_offset w) (tail_offset w) (staging w) x.
Definition set_staging (x : bytes) (w : WalWriter) : WalWriter :=
  mk_WalWriter (file w) (sector_offset w) (tail_offset w) x (next_seq w).
Definition set_file (x : bytes) (w : WalWriter) : WalWriter :=
  mk_WalWriter x (sector_offset w) (tail_offset w) (staging w) (next_seq w).
Definition set_offsets (sector tail : Z) (w : WalWriter) : WalWriter :=
  mk_WalWriter (file w) sector tail (staging w) (next_seq w).

(** [WalWriter::open] once the descriptor is obtained: the flags hold no
    [O_TRUNC], so the file keeps its bytes. *)
Definition WalWriter_open (contents : bytes) : WalWriter :=
  mk_WalWriter contents 0 0 (AlignedBuffer_new STAGING_SIZE) 1.

(** The bytes of a file after [buf] is written at [off]; a gap reads as zero. *)
Definition write_at (f buf : bytes) (off : Z) : bytes :=
  take (Z.to_nat off) (f ++ zeros (off - len f)) ++ buf ++ drop (Z.to_nat (off + len buf)) f.

(** The system calls the writer makes: the file before, the arguments, and the
    file after with the return value. *)
Class Pwrite (pwrite : bytes -> bytes -> Z -> bytes * Z) : Prop :=
  pwrite_full : forall f buf off f',
    pwrite f buf off = (f', len buf) -> f' = write_at f buf off.

Section writer.
  Context (crc32 : bytes -> Z).
  Context (pwrite : bytes -> bytes -> Z -> bytes * Z).
  Context (fsync : bytes -> Z).
  Context (ftruncate : bytes -> Z -> bytes * Z).

(** [WalWriter::append]. *)
Definition append (payload : bytes) : st WalWriter WalError Z :=
  let record_size := HEADER_SIZE + len payload in
  if STAGING_SIZE <? record_size then throw (PayloadTooLarge (len payload)) else
  w ← get_state;
  let seq := next_seq w in
  put_state (set_next_seq (wrap64 (seq + 1)) w);;
  let write_start := tail_offset w in
  if STAGING_SIZE <? write_start + record_size then throw (PayloadTooLarge (len payload)) else
  out ← lift (range (staging w) write_start (write_start + record_size));
  encoded ← lift (encode_record crc32 seq payload out);
  let stg := splice (staging w) write_start (snd encoded) in
  let new_tail := write_start + record_size in
  let write_end_aligned := next_multiple_of new_tail SECTOR_SIZE in
  stg ← lift (fill_zero stg new_tail write_end_aligned);
  w ← get_state;
  put_state (set_staging stg w);;
  let '(f, written) := pwrite (file w) (sub stg 0 write_end_aligned) (sector_offset w) in
  w ← get_state;
  put_state (set_file f w);;
  if written <? 0 then throw (Io OsError) else
  if negb (written =? write_end_aligned) then throw (Io (WriteZero written write_end_aligned)) else
  let full_sectors := write_end_aligned / SECTOR_SIZE in
  let last_sector_start := (full_sectors - 1) * SECTOR_SIZE in
  stg ← (if 0 <? last_sector_start then
      last ← lift (range stg last_sector_start (last_sector_start + SECTOR_SIZE));
      stg ← lift (copy_from stg 0 SECTOR_SIZE last);
      lift (fill_zero stg SECTOR_SIZE write_end_aligned)
    else mret stg);
  w ← get_state;
  put_state (set_offsets (wrap64 (sector_offset w + last_sector_start)) (new_tail mod SECTOR_SIZE)
    (set_staging stg w));;
  mret seq.

(** [WalWriter::sync]. *)
Definition sync : st WalWriter io_error unit :=
  w ← get_state;
  if fsync (file w) <? 0 then throw OsError else mret tt.

(** [WalWriter::truncate_to_logical_end]. *)
Definition truncate_to_logical_end : st WalWriter io_error unit :=
  w ← get_state;
  let logical_end := sector_offset w + tail_offset w in
  let '(f, rc) := ftruncate (file w) logical_end in
  put_state (set_file f w);;
  if rc <? 0 then throw OsError else mret tt.

End writer.

(** ** The log invariant

    [log_inv w L]: the log written so far is [L]; the file is [L] padded with
    zeros to a whole sector, the writer's two offsets add up to its end, and
    the staging buffer starts with the part of [L] in the open sector. *)

Record log_inv (w : WalWriter) (L : bytes) : Prop := {
  li_sector : 0 <= sector_offset w /\ sector_offset w mod SECTOR_SIZE = 0;
  li_tail : 0 <= tail_offset w < SECTOR_SIZE;
  li_end : len L = sector_offset w + tail_offset w;
  li_staging : len (staging w) = STAGING_SIZE;
  li_open : exists rest, staging w = drop (Z.to_nat (sector_offset w)) L ++ rest;
  li_file : file w = L ++ zeros (next_multiple_of (len L) SECTOR_SIZE - len L)
}.

(** Well-formedness alone, which [append] keeps on every branch. *)
Record writer_wf (w : WalWriter) : Prop := {
  wf_sector : 0 <= sector_offset w /\ sector_offset w mod SECTOR_SIZE = 0;
  wf_tail : 0 <= tail_offset w < SECTOR_SIZE;
  wf_staging : len (staging w) = STAGING_SIZE
}.

(** * Lemmas *)

Lemma sector_end x : 0 < x ->
  let e := next_multiple_of x SECTOR_SIZE in
  x <= e < x + SECTOR_SIZE /\ e mod SECTOR_SIZE = 0 /\ SECTOR_SIZE <= e /\
  (e / SECTOR_SIZE - 1) * SECTOR_SIZE = e - SECTOR_SIZE.
Proof.
  intros Hx. cbv zeta. destruct (next_multiple_of_spec x SECTOR_SIZE) as [Hb Hm]; [done |].
  set (e := next_multiple_of x SECTOR_SIZE) in *. unfold SECTOR_SIZE in *.
  pose proof (Z.div_mod e 4096 ltac:(lia)). lia.
Qed.

Lemma sector_inner x : 0 <= x -> x mod SECTOR_SIZE <> 0 ->
  x = next_multiple_of x SECTOR_SIZE - SECTOR_SIZE + x mod SECTOR_SIZE.
Proof.
  intros Hx Hm. destruct (next_multiple_of_spec x SECTOR_SIZE) as [Hb He]; [done |].
  unfold SECTOR_SIZE in *. pose proof (Z.div_mod (next_multiple_of x 4096) 4096 ltac:(lia)).
  pose proof (Z.div_mod x 4096 ltac:(lia)). pose proof (Z.mod_pos_bound x 4096 ltac:(lia)).
  lia.
Qed.

Lemma sector_end_staging x : 0 < x <= STAGING_SIZE -> next_multiple_of x SECTOR_SIZE <= STAGING_SIZE.
Proof.
  intros [Hx Hs]. destruct (sector_end x Hx) as (Hb & Hm & _).
  unfold STAGING_SIZE, SECTOR_SIZE in *. pose proof (Z.div_mod (next_multiple_of x 4096) 4096 ltac:(lia)).
  lia.
Qed.

Section lemmas.
  Context (crc32 : bytes -> Z) (pwrite : bytes -> bytes -> Z -> bytes * Z).

(** The bytes [append] hands to [pwrite], and the staging buffer then. *)
Definition write_buf (w : WalWriter) (p : bytes) : bytes :=
  let new_tail := tail_offset w + HEADER_SIZE + len p in
  take (Z.to_nat (tail_offset w)) (staging w) ++
  frame crc32 (mk_WalRecord (next_seq w) p) ++
  zeros (next_multiple_of new_tail SECTOR_SIZE - new_tail).

(** The state a failed [pwrite] leaves, with the file it left. *)
Definition written_state (w : WalWriter) (p f : bytes) : WalWriter :=
  mk_WalWriter f (sector_offset w) (tail_offset w)
    (write_buf w p ++ drop (Z.to_nat (len (write_buf w p))) (staging w))
    (wrap64 (next_seq w + 1)).

(** The state after a completed write: the last sector moves to the front. *)
Definition moved_state (w : WalWriter) (p f : bytes) : WalWriter :=
  let wb := write_buf w p in
  let last := len wb - SECTOR_SIZE in
  mk_WalWriter f (wrap64 (sector_offset w + last))
    ((tail_offset w + HEADER_SIZE + len p) mod SECTOR_SIZE)
    (drop (Z.to_nat last) wb ++ zeros last ++ drop (Z.to_nat (len wb)) (staging w))
    (wrap64 (next_seq w + 1)).

Lemma len_write_buf w p : writer_wf w ->
  len (write_buf w p) = next_multiple_of (tail_offset w + HEADER_SIZE + len p) SECTOR_SIZE.
Proof.
  intros [_ Ht Hs]. unfold write_buf. cbv zeta.
  destruct (sector_end (tail_offset w + HEADER_SIZE + len p)) as (Hb & _);
    [unfold HEADER_SIZE; len_lia |].
  rewrite !len_app, len_take, len_zeros, len_frame, Hs. cbn [payload].
  unfold SECTOR_SIZE, STAGING_SIZE in *. lia.
Qed.

(** The shifting of the last sector, for any staged bytes. *)
Lemma shift_last (wb rest : bytes) :
  len wb mod SECTOR_SIZE = 0 -> SECTOR_SIZE <= len wb ->
  let last := len wb - SECTOR_SIZE in
  (if 0 <? last then
    b ← lift (range (wb ++ rest) last (last + SECTOR_SIZE));
    stg ← lift (copy_from (wb ++ rest) 0 SECTOR_SIZE b);
    lift (fill_zero stg SECTOR_SIZE (len wb))
  else mret (wb ++ rest) : st WalWriter WalError bytes) =
  fun w => (w, Ok (drop (Z.to_nat last) wb ++ zeros last ++ rest)).
Proof.
  intros Hm Hl last. subst last. unfold SECTOR_SIZE in *.
  destruct (Z.ltb_spec 0 (len wb - 4096)).
  2: { replace (len wb - 4096) with 0 by lia. done. }
  destruct (split_at wb (len wb - 4096)) as (a & b & -> & Ha); [lia |].
  assert (Hbl : len b = 4096) by len_lia. rewrite <- Ha. clear Ha Hl Hm.
  rewrite drop_app_length' by (unfold len; lia). rewrite <- app_assoc.
  rewrite range_ok by len_lia. rewrite (sub_app a b rest) by lia.
  destruct (split_at (a ++ b ++ rest) 4096) as (c & d & Hcd & Hc); [len_lia |].
  assert (Hd : drop (length a) d = rest).
  { rewrite app_assoc in Hcd. apply (f_equal (drop (length c + length a))) in Hcd.
    rewrite drop_app_length' in Hcd by (unfold len in *; rewrite length_app; lia).
    by rewrite Hcd, drop_app_add. }
  assert (Hld : len a <= len d) by (apply (f_equal len) in Hcd; len_lia).
  unfold lift, mbind, st_bind. rewrite Hcd, copy_from_start by lia.
  rewrite fill_zero_ok by len_lia.
  replace (len (a ++ b) - 4096) with (len a) by len_lia.
  unfold splice. rewrite take_app_length' by (unfold len in *; lia).
  rewrite len_zeros. replace (Z.to_nat (4096 + _)) with (length b + length a)%nat
    by (unfold len in *; lia).
  rewrite drop_app_add, Hd. done.
Qed.

(** Encoding into the staging buffer and zeroing to the sector end. *)
Lemma stage_record w p : writer_wf w ->
  tail_offset w + (HEADER_SIZE + len p) <= STAGING_SIZE ->
  let n := HEADER_SIZE + len p in
  let new_tail := tail_offset w + n in
  exists out enc,
    range (E := WalError) (staging w) (tail_offset w) (tail_offset w + n) = Ok out /\
    encode_record crc32 (next_seq w) p out = Ok (n, enc) /\
    fill_zero (E := WalError) (splice (staging w) (tail_offset w) enc) new_tail
      (next_multiple_of new_tail SECTOR_SIZE) =
    Ok (write_buf w p ++ drop (Z.to_nat (len (write_buf w p))) (staging w)).
Proof.
  intros Hwf Hfit n new_tail. rewrite (len_write_buf w p Hwf).
  destruct Hwf as [_ Ht Hs]. pose proof (len_nonneg p) as Hp.
  destruct (sector_end new_tail) as (Hb & _); [unfold new_tail, n, HEADER_SIZE; lia |].
  pose proof (sector_end_staging new_tail ltac:(unfold new_tail, n, HEADER_SIZE in *; lia)).
  unfold write_buf. replace (tail_offset w + HEADER_SIZE + len p) with new_tail
    by (unfold new_tail, n; lia). cbv zeta.
  set (e := next_multiple_of new_tail SECTOR_SIZE) in *. clearbody e.
  assert (Hn : n = HEADER_SIZE + len p) by done. assert (Hnt : new_tail = tail_offset w + n) by done.
  clearbody n new_tail. unfold SECTOR_SIZE, STAGING_SIZE, HEADER_SIZE in *.
  destruct (split_at (staging w) (tail_offset w)) as (a & s1 & Hst & Ha); [lia |].
  rewrite Hst in Hs |- *.
  destruct (split_at s1 n) as (b & s2 & -> & Hbl); [len_lia |].
  destruct (split_at s2 (e - new_tail)) as (z & d & -> & Hz); [len_lia |].
  exists b, (frame crc32 (mk_WalRecord (next_seq w) p)).
  pose proof (len_frame crc32 (mk_WalRecord (next_seq w) p)) as Hf. cbn [payload] in Hf.
  split_and!.
  - by rewrite range_ok, sub_app by len_lia.
  - rewrite encode_result. unfold HEADER_SIZE, MAX_PAYLOAD_SIZE.
    rewrite !(proj2 (Z.ltb_ge _ _)) by lia. rewrite <- Hn.
    rewrite drop_ge by (unfold len in *; lia). by rewrite app_nil_r.
  - unfold HEADER_SIZE in Hf. rewrite (splice_app a b) by lia. rewrite fill_zero_ok by len_lia.
    rewrite (app_assoc a), (splice_app (a ++ _) z) by len_lia.
    rewrite take_app_length' by (unfold len in *; lia). rewrite <- !app_assoc.
    do 4 f_equal. rewrite !app_assoc, drop_app_length'; [done |].
    unfold len in *. rewrite !length_app. lia.
Qed.

(** [append] on every branch, as one equation. *)
Lemma append_result w p : writer_wf w ->
  append crc32 pwrite p w =
  if STAGING_SIZE <? HEADER_SIZE + len p then (w, Err (PayloadTooLarge (len p))) else
  if STAGING_SIZE <? tail_offset w + (HEADER_SIZE + len p) then
    (set_next_seq (wrap64 (next_seq w + 1)) w, Err (PayloadTooLarge (len p))) else
  let wb := write_buf w p in
  let '(f, written) := pwrite (file w) wb (sector_offset w) in
  if written <? 0 then (written_state w p f, Err (Io OsError)) else
  if negb (written =? len wb) then (written_state w p f, Err (Io (WriteZero written (len wb))))
  else (moved_state w p f, Ok (next_seq w)).
Proof.
  intros Hwf. pose proof (len_write_buf w p Hwf) as Hwb.
  unfold append. destruct (Z.ltb_spec STAGING_SIZE (HEADER_SIZE + len p)); [done |].
  unfold get_state, put_state, mbind, st_bind. cbv beta iota zeta.
  destruct (Z.ltb_spec STAGING_SIZE (tail_offset w + (HEADER_SIZE + len p))) as [|Hfit]; [done |].
  destruct (stage_record w p Hwf Hfit) as (out & enc & Hr & He & Hz).
  unfold lift at 1. rewrite Hr. unfold lift at 1. rewrite He. unfold lift at 1.
  cbn [snd]. rewrite Hz.
  replace (tail_offset w + HEADER_SIZE + len p) with (tail_offset w + (HEADER_SIZE + len p))
    in Hwb by lia. rewrite <- Hwb.
  rewrite sub_app_start by done.
  cbn [file sector_offset set_staging set_next_seq].
  destruct (pwrite (file w) (write_buf w p) (sector_offset w)) as [f written].
  destruct (written <? 0); [done |]. destruct (negb (written =? len (write_buf w p))); [done |].
  destruct (sector_end (tail_offset w + (HEADER_SIZE + len p))) as (_ & Hm & Hmin & Hlast);
    [destruct Hwf; unfold HEADER_SIZE; len_lia |].
  rewrite <- Hwb in *. rewrite Hlast.
  pose proof (shift_last (write_buf w p) (drop (Z.to_nat (len (write_buf w p))) (staging w)) Hm Hmin)
    as Hshift. cbv zeta in Hshift. unfold mbind, st_bind in Hshift. rewrite Hshift.
  unfold moved_state. by rewrite Z.add_assoc.
Qed.

Lemma log_inv_wf w L : log_inv w L -> writer_wf w.
Proof. intros []. by split. Qed.

(** The buffer handed to [pwrite] continues the log from the open sector. *)
Lemma write_buf_log w L p : log_inv w L ->
  let L' := L ++ frame crc32 (mk_WalRecord (next_seq w) p) in
  write_buf w p = drop (Z.to_nat (sector_offset w)) L' ++
    zeros (next_multiple_of (len L') SECTOR_SIZE - len L') /\
  len L' = sector_offset w + (tail_offset w + HEADER_SIZE + len p) /\
  next_multiple_of (len L') SECTOR_SIZE = sector_offset w + len (write_buf w p).
Proof.
  intros Hinv L'. pose proof (len_write_buf w p (log_inv_wf _ _ Hinv)) as Hwb.
  destruct Hinv as [[Hs0 Hsm] Ht He _ [rest Hst] _].
  assert (Hl : len L' = sector_offset w + (tail_offset w + HEADER_SIZE + len p)).
  { unfold L'. rewrite len_app, len_frame, He. cbn [payload]. lia. }
  assert (Hn : next_multiple_of (len L') SECTOR_SIZE = sector_offset w + len (write_buf w p)).
  { by rewrite Hl, next_multiple_of_add, Hwb by done. }
  split_and!; [| done..].
  rewrite Hn, Hwb, Hl. unfold write_buf. rewrite Hst.
  assert (Hd : len (drop (Z.to_nat (sector_offset w)) L) = tail_offset w).
  { rewrite len_drop, He. lia. }
  rewrite take_app_length' by (unfold len in *; lia).
  unfold L'. rewrite drop_app_le by (unfold len in *; lia). rewrite <- app_assoc.
  do 3 f_equal. lia.
Qed.

(** What a completed write leaves in the file. *)
Lemma write_at_log w L p : log_inv w L ->
  let L' := L ++ frame crc32 (mk_WalRecord (next_seq w) p) in
  write_at (file w) (write_buf w p) (sector_offset w) =
  L' ++ zeros (next_multiple_of (len L') SECTOR_SIZE - len L').
Proof.
  intros Hinv L'. destruct (write_buf_log w L p Hinv) as (Hwb & Hl & Hn). fold L' in Hwb, Hl, Hn.
  destruct Hinv as [[Hs0 Hsm] Ht He _ _ Hf]. unfold write_at. rewrite Hf.
  destruct (next_multiple_of_spec (len L) SECTOR_SIZE) as [Hb _]; [done |].
  assert (Hle : next_multiple_of (len L) SECTOR_SIZE <= sector_offset w + len (write_buf w p)).
  { rewrite <- Hn, Hl, He, !next_multiple_of_add by done. apply Z.add_le_mono_l.
    unfold next_multiple_of. apply Z.mul_le_mono_nonneg_r; [done |].
    apply Z.div_le_mono; [done |]. unfold HEADER_SIZE. len_lia. }
  rewrite (drop_ge (L ++ _)) by (unfold len in *; rewrite length_app;
    unfold zeros; rewrite length_replicate; lia).
  rewrite app_nil_r, take_app_le, take_app_le by (rewrite ?length_app; unfold len in *; lia).
  rewrite Hwb, app_assoc. f_equal.
  transitivity (take (Z.to_nat (sector_offset w)) L' ++ drop (Z.to_nat (sector_offset w)) L');
    [| apply take_drop].
  f_equal. unfold L'. by rewrite take_app_le by (unfold len in *; lia).
Qed.

(** The writer's offsets after a completed write: the log's end, unless the
    log ends on a sector boundary. *)
Lemma moved_offsets w L p f : log_inv w L ->
  let L' := L ++ frame crc32 (mk_WalRecord (next_seq w) p) in
  is_u64 (len L') -> tail_offset w + HEADER_SIZE + len p <= STAGING_SIZE ->
  let w' := moved_state w p f in
  0 <= sector_offset w' /\ sector_offset w' mod SECTOR_SIZE = 0 /\
  sector_offset w' = next_multiple_of (len L') SECTOR_SIZE - SECTOR_SIZE /\
  tail_offset w' = len L' mod SECTOR_SIZE /\
  len (staging w') = STAGING_SIZE /\
  (exists rest, staging w' = drop (Z.to_nat (sector_offset w')) L' ++ rest).
Proof.
  intros Hinv L' Hu Hfit w'. pose proof (len_write_buf w p (log_inv_wf _ _ Hinv)) as Hlen.
  destruct (write_buf_log w L p Hinv) as (Hwb & Hl & Hn). fold L' in Hwb, Hl, Hn.
  destruct (sector_end (tail_offset w + HEADER_SIZE + len p)) as (Hb & Hm & Hmin & _);
    [destruct Hinv; unfold HEADER_SIZE; len_lia |].
  pose proof (sector_end_staging (tail_offset w + HEADER_SIZE + len p)
    ltac:(destruct Hinv; unfold HEADER_SIZE in *; len_lia)) as Hmax. rewrite <- Hlen in *.
  destruct Hinv as [[Hs0 Hsm] Ht He Hst _ _].
  assert (Hsec : sector_offset w' = next_multiple_of (len L') SECTOR_SIZE - SECTOR_SIZE).
  { unfold w', moved_state. cbn [sector_offset]. rewrite wrap64_small; [lia |].
    unfold is_u64, SECTOR_SIZE in *. lia. }
  rewrite Hsec. unfold w', moved_state. cbn [tail_offset staging].
  assert (Hq : sector_offset w + len (write_buf w p) - SECTOR_SIZE =
    sector_offset w + (len (write_buf w p) - SECTOR_SIZE)) by lia.
  split_and!; [lia | | done | | |].
  - rewrite Zminus_mod, Z_mod_same_full.
    by rewrite (proj2 (next_multiple_of_spec (len L') SECTOR_SIZE ltac:(done))).
  - rewrite Hl, (Z.add_mod (sector_offset w)), Hsm, Z.add_0_l, Z.mod_mod by done. done.
  - rewrite !len_app, len_zeros, !len_drop, Hst. unfold SECTOR_SIZE in *. lia.
  - rewrite Hn, Hq, Z2Nat.inj_add, <- drop_drop by lia.
    set (last := Z.to_nat (len (write_buf w p) - SECTOR_SIZE)).
    assert (Hle : (last <= length (drop (Z.to_nat (sector_offset w)) L'))%nat).
    { rewrite length_drop. unfold last, len in *. lia. }
    clearbody last. rewrite Hwb, drop_app_le, <- app_assoc by done. eauto.
Qed.

(** A completed [append] on any log. *)
Lemma append_completes `{!Pwrite pwrite} w L p f :
  log_inv w L -> tail_offset w + HEADER_SIZE + len p <= STAGING_SIZE ->
  pwrite (file w) (write_buf w p) (sector_offset w) = (f, len (write_buf w p)) ->
  let L' := L ++ frame crc32 (mk_WalRecord (next_seq w) p) in
  append crc32 pwrite p w = (moved_state w p f, Ok (next_seq w)) /\
  file (moved_state w p f) = L' ++ zeros (next_multiple_of (len L') SECTOR_SIZE - len L').
Proof.
  intros Hinv Hfit Hpw L'. pose proof (log_inv_wf _ _ Hinv) as Hwf. split.
  - rewrite append_result by done. rewrite !(proj2 (Z.ltb_ge _ _)) by (destruct Hwf; lia).
    cbv zeta. rewrite Hpw, Z.eqb_refl. pose proof (len_nonneg (write_buf w p)).
    by rewrite (proj2 (Z.ltb_ge _ _)).
  - cbn [file moved_state]. apply pwrite_full in Hpw as ->. by apply write_at_log.
Qed.

(** ... and on one whose new end is inside a sector. *)
Lemma append_log `{!Pwrite pwrite} w L p f :
  log_inv w L -> tail_offset w + HEADER_SIZE + len p <= STAGING_SIZE ->
  let L' := L ++ frame crc32 (mk_WalRecord (next_seq w) p) in
  is_u64 (len L') -> is_u64 (next_seq w + 1) -> len L' mod SECTOR_SIZE <> 0 ->
  pwrite (file w) (write_buf w p) (sector_offset w) = (f, len (write_buf w p)) ->
  append crc32 pwrite p w = (moved_state w p f, Ok (next_seq w)) /\
  log_inv (moved_state w p f) L' /\ next_seq (moved_state w p f) = next_seq w + 1.
Proof.
  intros Hinv Hfit L' Hu Hseq Hmod Hpw.
  destruct (moved_offsets w L p f Hinv Hu Hfit) as (Hs0 & Hsm & Hs & Ht & Hst & Hop).
  destruct (append_completes w L p f Hinv Hfit Hpw) as [Hap Hf].
  split_and!; [done | split; try done | cbn [next_seq moved_state]; by apply wrap64_small].
  - rewrite Ht. apply Z.mod_pos_bound. done.
  - fold L' in Hs, Ht. rewrite Hs, Ht. apply sector_inner; [|done]. apply len_nonneg.
Qed.

End lemmas.

(** A file system on which every write completes, for the witnesses. *)
Definition pwrite_all (f buf : bytes) (off : Z) : bytes * Z := (write_at f buf off, len buf).

#[export] Instance pwrite_all_ok : Pwrite pwrite_all.
Proof. intros f b o f' [= <-]. done. Qed.

Lemma len_AlignedBuffer : len (AlignedBuffer_new STAGING_SIZE) = STAGING_SIZE.
Proof. unfold AlignedBuffer_new. by rewrite len_zeros. Qed.

Lemma AlignedBuffer_zeros size : AlignedBuffer_new size = zeros (Z.max (next_multiple_of size SECTOR_SIZE) SECTOR_SIZE).
Proof. done. Qed.

#[global] Opaque AlignedBuffer_new.

(** A fresh log file is the empty log. *)
Lemma open_log_inv : log_inv (WalWriter_open []) [].
Proof.
  unfold WalWriter_open. pose proof len_AlignedBuffer as Hb. revert Hb.
  generalize (AlignedBuffer_new STAGING_SIZE). intros b Hb. split; cbn [file sector_offset tail_offset staging]; [done.. | by exists b | done].
Qed.

(** A freshly opened writer writes from offset 0, whatever the file holds. *)
Lemma open_writer_wf contents : writer_wf (WalWriter_open contents).
Proof. split; [done | done | apply len_AlignedBuffer]. Qed.

Lemma open_append crc32 pwrite `{!Pwrite pwrite} l p w n : append crc32 pwrite p (WalWriter_open l) = (w, Ok n) ->
  let record := frame crc32 (mk_WalRecord 1 p) in
  let end_ := next_multiple_of (len record) SECTOR_SIZE in
  file w = record ++ zeros (end_ - len record) ++ drop (Z.to_nat end_) l.
Proof.
  pose proof (open_writer_wf l) as Hwf. pose proof (len_write_buf crc32 _ p Hwf) as Hlen.
  rewrite append_result by done. destruct (STAGING_SIZE <? HEADER_SIZE + len p); [done |].
  destruct (STAGING_SIZE <? tail_offset (WalWriter_open l) + (HEADER_SIZE + len p)); [done |]. cbv zeta.
  destruct (pwrite _ _ _) as [f written] eqn:Hpw. destruct (written <? 0); [done |].
  destruct (Z.eqb_spec written (len (write_buf crc32 (WalWriter_open l) p))) as [-> |]; [| done].
  intros [= <- _]. cbn [file moved_state]. apply pwrite_full in Hpw as ->. unfold write_at.
  rewrite Hlen, len_frame. cbn [payload sector_offset tail_offset WalWriter_open file].
  rewrite !Z.add_0_l. cbn [Z.to_nat take app]. unfold write_buf.
  cbn [tail_offset WalWriter_open next_seq]. rewrite Z.add_0_l. change (Z.to_nat 0) with 0%nat.
  by rewrite !take_0, !app_nil_l, <- app_assoc.
Qed.

(** * Theorems *)

(** C33: whatever [pwrite] returns, [append] ends in a value or an error and
    keeps the writer well formed (sector-aligned offset, tail inside a sector,
    staging buffer of full size); when it fails, both offsets and the staged
    bytes of the open sector are as before, so the log position is not lost. *)
Theorem append_safe crc32 pwrite w p :
  writer_wf w -> is_u64 (sector_offset w + STAGING_SIZE) ->
  let (w', res) := append crc32 pwrite p w in
  safe res /\ writer_wf w' /\
  (forall e, res = Err e ->
     sector_offset w' = sector_offset w /\ tail_offset w' = tail_offset w /\
     take (Z.to_nat (tail_offset w)) (staging w') = take (Z.to_nat (tail_offset w)) (staging w)).
Proof.
  intros Hwf Hu. pose proof (len_write_buf crc32 w p Hwf) as Hlen.
  rewrite append_result by done.
  destruct (Z.ltb_spec STAGING_SIZE (HEADER_SIZE + len p)); [naive_solver |].
  destruct (Z.ltb_spec STAGING_SIZE (tail_offset w + (HEADER_SIZE + len p))) as [|Hfit].
  { split_and!; [done | by destruct Hwf; split | by intros]. }
  cbv zeta. destruct (pwrite _ _ _) as [f written].
  destruct (sector_end (tail_offset w + HEADER_SIZE + len p)) as (Hb & Hm & Hmin & _);
    [destruct Hwf; unfold HEADER_SIZE; len_lia |].
  pose proof (sector_end_staging (tail_offset w + HEADER_SIZE + len p)
    ltac:(destruct Hwf; unfold HEADER_SIZE in *; len_lia)) as Hmax. rewrite <- Hlen in *.
  destruct Hwf as [[Hs0 Hsm] Ht Hst].
  assert (Hfail : writer_wf (written_state crc32 w p f) /\
    take (Z.to_nat (tail_offset w)) (staging (written_state crc32 w p f)) =
    take (Z.to_nat (tail_offset w)) (staging w)).
  { split; [split; [done | done |] |]; cbn [staging written_state].
    - rewrite len_app, len_drop, Hst. len_lia.
    - unfold write_buf. cbv zeta. rewrite <- !app_assoc, take_app_length'; [done |].
      rewrite length_take. unfold len, SECTOR_SIZE, STAGING_SIZE in *. lia. }
  destruct Hfail as [Hwf' Hopen].
  destruct (written <? 0); [by split_and! |]. destruct (negb (written =? len _)); [by split_and! |].
  split_and!; [done | | done]. unfold moved_state. split; cbn [sector_offset tail_offset staging].
  - rewrite wrap64_small by (unfold is_u64, SECTOR_SIZE, STAGING_SIZE in *; lia).
    split; [lia |]. rewrite Z.add_mod, Hsm, Zminus_mod, Hm, Z_mod_same_full by done. done.
  - apply Z.mod_pos_bound. done.
  - rewrite !len_app, len_zeros, !len_drop, Hst. unfold SECTOR_SIZE in *. lia.
Qed.

(** The log position moves by at most the staging buffer. *)
Lemma append_advance crc32 pwrite w p : writer_wf w -> is_u64 (sector_offset w + STAGING_SIZE) ->
  sector_offset (append crc32 pwrite p w).1 <= sector_offset w + STAGING_SIZE.
Proof.
  intros Hwf Hu. pose proof (len_write_buf crc32 w p Hwf) as Hlen. rewrite append_result by done.
  destruct (_ <? _); [cbn; unfold STAGING_SIZE; lia |].
  destruct (Z.ltb_spec STAGING_SIZE (tail_offset w + (HEADER_SIZE + len p))) as [|Hfit]; [cbn; unfold STAGING_SIZE; lia |].
  cbv zeta. destruct (pwrite _ _ _) as [f written].
  destruct (written <? 0); [cbn; unfold STAGING_SIZE; lia |].
  destruct (negb _); [cbn; unfold STAGING_SIZE; lia |]. cbn [fst sector_offset moved_state].
  destruct (sector_end (tail_offset w + HEADER_SIZE + len p)) as (_ & _ & Hmin & _);
    [destruct Hwf; unfold HEADER_SIZE; len_lia |].
  pose proof (sector_end_staging (tail_offset w + HEADER_SIZE + len p)
    ltac:(destruct Hwf; unfold HEADER_SIZE in *; len_lia)) as Hmax. rewrite <- Hlen in *.
  destruct Hwf. rewrite wrap64_small; unfold is_u64, SECTOR_SIZE, STAGING_SIZE in *; lia.
Qed.

(** C32: a completed [append] whose record ends inside a sector extends the log
    by exactly the record's frame, in the file and in the writer's state. *)
Theorem append_extends_log crc32 pwrite `{!Pwrite pwrite} w L p f :
  log_inv w L -> tail_offset w + HEADER_SIZE + len p <= STAGING_SIZE ->
  let L' := L ++ frame crc32 (mk_WalRecord (next_seq w) p) in
  is_u64 (len L') -> is_u64 (next_seq w + 1) -> len L' mod SECTOR_SIZE <> 0 ->
  pwrite (file w) (write_buf crc32 w p) (sector_offset w) = (f, len (write_buf crc32 w p)) ->
  exists w', append crc32 pwrite p w = (w', Ok (next_seq w)) /\ log_inv w' L' /\
    next_seq w' = next_seq w + 1.
Proof. intros. eexists. by apply append_log. Qed.

(** A record that ends exactly on a sector boundary is written in full, but
    the writer's position is set back by one sector: the next append starts
    4096 bytes before the end of the log. *)
Theorem append_sector_end_rewinds crc32 pwrite `{!Pwrite pwrite} w L p f :
  log_inv w L -> tail_offset w + HEADER_SIZE + len p <= STAGING_SIZE ->
  let L' := L ++ frame crc32 (mk_WalRecord (next_seq w) p) in
  is_u64 (len L') -> len L' mod SECTOR_SIZE = 0 ->
  pwrite (file w) (write_buf crc32 w p) (sector_offset w) = (f, len (write_buf crc32 w p)) ->
  exists w', append crc32 pwrite p w = (w', Ok (next_seq w)) /\ file w' = L' /\
    sector_offset w' + tail_offset w' = len L' - SECTOR_SIZE.
Proof.
  intros Hinv Hfit L' Hu Hmod Hpw.
  destruct (append_completes crc32 pwrite w L p f Hinv Hfit Hpw) as [Hap Hf]. fold L' in Hf.
  exists (moved_state crc32 w p f). split_and!; [done | |].
  - rewrite Hf, next_multiple_of_exact, Z.sub_diag, zeros_0, app_nil_r by done. done.
  - destruct (moved_offsets crc32 w L p f Hinv Hu Hfit) as (_ & _ & Hs & Ht & _).
    fold L' in Hs, Ht. rewrite Hs, Ht, Hmod, next_multiple_of_exact by done. lia.
Qed.

(** * Witnesses *)

Lemma append_safe_witness :
  let (w', res) := append byte_sum pwrite_all [Byte.x41] (WalWriter_open []) in
  safe res /\ writer_wf w' /\
  (forall e, res = Err e ->
     sector_offset w' = sector_offset (WalWriter_open []) /\
     tail_offset w' = tail_offset (WalWriter_open []) /\
     take (Z.to_nat (tail_offset (WalWriter_open []))) (staging w') =
     take (Z.to_nat (tail_offset (WalWriter_open []))) (staging (WalWriter_open []))).
Proof.
  apply (append_safe byte_sum pwrite_all (WalWriter_open []) [Byte.x41]).
  - apply open_writer_wf.
  - split; vm_compute; congruence.
Defined.

Lemma append_extends_log_witness :
  let L' := [] ++ frame byte_sum (mk_WalRecord 1 [Byte.x41]) in
  exists w', append byte_sum pwrite_all [Byte.x41] (WalWriter_open []) = (w', Ok 1) /\
    log_inv w' L' /\ next_seq w' = 1 + 1.
Proof.
  eapply (append_extends_log byte_sum pwrite_all (WalWriter_open []) [] [Byte.x41]).
  - apply open_log_inv.
  - vm_compute. congruence.
  - split; vm_compute; congruence.
  - split; vm_compute; congruence.
  - vm_compute. congruence.
  - reflexivity.
Defined.

Lemma append_sector_end_rewinds_witness :
  let L' := [] ++ frame byte_sum (mk_WalRecord 1 (zeros 4080)) in
  exists w', append byte_sum pwrite_all (zeros 4080) (WalWriter_open []) = (w', Ok 1) /\
    file w' = L' /\ sector_offset w' + tail_offset w' = len L' - SECTOR_SIZE.
Proof.
  assert (Hl : len ([] ++ frame byte_sum (mk_WalRecord 1 (zeros 4080))) = 4096).
  { rewrite app_nil_l, len_frame. reflexivity. }
  eapply (append_sector_end_rewinds byte_sum pwrite_all (WalWriter_open []) [] (zeros 4080)).
  - apply open_log_inv.
  - change (len (zeros 4080)) with 4080. vm_compute. congruence.
  - change (next_seq (WalWriter_open [])) with 1. rewrite Hl. split; vm_compute; congruence.
  - change (next_seq (WalWriter_open [])) with 1. rewrite Hl. reflexivity.
  - reflexivity.
Defined.
