(* ===== verification/AlignedBuffer.v ===== *)
(** * The aligned buffer (tier3_storage/src/wal/aligned_buffer.rs)

    [AlignedBuffer] with its memory: the allocator keeps the live blocks, each with the
    layout it was asked for, and its choice of an address is a parameter with the
    contract of [GlobalAlloc].  Reading or writing outside of a live block, and freeing
    with another layout, is undefined behaviour.  [AlignedBuffer_new] of WalWriter.v,
    which the writer's staging buffer is made with, is the contents of a new buffer.

    [aligned_buffer_new]: what [new] gives for every size a [usize] can have.
    [aligned_buffer_array]: in any use a buffer is an array of bytes, and dropping it
    gives back exactly its block. *)

From stdpp Require Import gmap.
From S2P Require Import Prelude WalRecord WalWriter.
#[local] Open Scope Z_scope.

Record Layout := mk_Layout { lay_size : Z; lay_align : Z }.
#[export] Instance layout_eq_dec : EqDecision Layout.
Proof. solve_decision. Defined.

(** [Layout::from_size_align]: the size rounded up to the alignment fits an [isize]. *)
Definition from_size_align (size align : Z) : option Layout :=
  if is_power_of_two align && (size <=? 2 ^ 63 - align) then Some (mk_Layout size align) else None.

(** The live blocks by address. *)
Abbreviation heap := (gmap Z (Layout * bytes)).

(** [alloc_zeroed]: the address of a new block, or null. *)
Class Allocator := alloc_at : heap -> Layout -> option Z.
Class AllocatorSpec (A : Allocator) :=
  alloc_spec h l p : alloc_at h l = Some p -> h !! p = None /\ 0 < p /\ p mod lay_align l = 0.

(** [usize::next_multiple_of], which wraps. *)
Definition usize_next_multiple_of (x m : Z) : Z := if x mod m =? 0 then x else wrap64 (x + (m - x mod m)).

Record AlignedBuffer := mk_AlignedBuffer { ptr : Z; buf_len : Z; layout : Layout }.

Section buffer.
  Context `{Allocator}.

(** [AlignedBuffer::new]; [handle_alloc_error] ends the process, as a panic does here. *)
Definition new (size : Z) : st heap fuel_error AlignedBuffer :=
  let aligned_len := Z.max (usize_next_multiple_of size SECTOR_SIZE) SECTOR_SIZE in
  match from_size_align aligned_len SECTOR_SIZE with
  | None => lift Panic
  | Some layout =>
      h ← get_state;
      match alloc_at h layout with
      | Some p =>
          put_state (<[p := (layout, zeros (lay_size layout))]> h);;
          mret (mk_AlignedBuffer p aligned_len layout)
      | None => lift Panic
      end
  end.

(** The slice of [deref] and [deref_mut]. *)
Definition deref (b : AlignedBuffer) (h : heap) : outcome fuel_error bytes :=
  match h !! ptr b with
  | Some (_, block) => if buf_len b <=? len block then Ok (take (Z.to_nat (buf_len b)) block) else Ub
  | None => Ub
  end.

(** Bytes written through [deref_mut] or [as_mut_ptr]. *)
Definition store (b : AlignedBuffer) (bs : bytes) : st heap fuel_error unit := fun h =>
  match h !! ptr b with
  | Some (l, block) => if len bs <=? len block then (<[ptr b := (l, splice block 0 bs)]> h, Ok tt) else (h, Ub)
  | None => (h, Ub)
  end.

Definition is_empty (b : AlignedBuffer) : bool := buf_len b =? 0.

Definition zero (b : AlignedBuffer) : st heap fuel_error unit := store b (zeros (buf_len b)).

(** [buf[i]] and [buf[i] = x]. *)
Definition read_byte (b : AlignedBuffer) (i : Z) : st heap fuel_error byte :=
  h ← get_state;
  s ← lift (deref b h);
  lift (index s i).

Definition write_byte (b : AlignedBuffer) (i : Z) (x : byte) : st heap fuel_error unit :=
  h ← get_state;
  s ← lift (deref b h);
  lift (index s i);;
  store b (<[Z.to_nat i := x]> s).

(** [Drop]: [dealloc] wants the layout the block was made with. *)
Definition drop_buffer (b : AlignedBuffer) : st heap fuel_error unit := fun h =>
  match h !! ptr b with
  | Some (l, _) => if decide (l = layout b) then (base.delete (ptr b) h, Ok tt) else (h, Ub)
  | None => (h, Ub)
  end.

(** A use of a buffer. *)
Inductive use := Zero | Read (i : Z) | Write (i : Z) (x : byte).

Definition use_buffer (b : AlignedBuffer) (u : use) : st heap fuel_error (option byte) :=
  match u with
  | Zero => zero b;; mret None
  | Read i => x ← read_byte b i; mret (Some x)
  | Write i x => write_byte b i x;; mret None
  end.

Fixpoint use_all (b : AlignedBuffer) (us : list use) : st heap fuel_error (list (option byte)) :=
  match us with
  | [] => mret []
  | u :: us => r ← use_buffer b u; rs ← use_all b us; mret (r :: rs)
  end.

(** The same on an array. *)
Definition use_array (u : use) : st bytes fuel_error (option byte) := fun s =>
  match u with
  | Zero => (zeros (len s), Ok None)
  | Read i => (s, x ← index s i; Ok (Some x))
  | Write i x => match index (E := fuel_error) s i with Ok _ => (<[Z.to_nat i := x]> s, Ok None) | _ => (s, Panic) end
  end.

Fixpoint array_all (us : list use) : st bytes fuel_error (list (option byte)) :=
  match us with
  | [] => mret []
  | u :: us => r ← use_array u; rs ← array_all us; mret (r :: rs)
  end.

(** ** Lemmas *)

(** [h] with the buffer's block, of contents [s]. *)
Definition with_block (h : heap) (b : AlignedBuffer) (s : bytes) : heap := <[ptr b := (layout b, s)]> h.

Lemma store_block h b s bs : len bs = len s -> store b bs (with_block h b s) = (with_block h b bs, Ok tt).
Proof.
  intros Hl. unfold store, with_block. rewrite lookup_insert_eq, insert_insert_eq, (proj2 (Z.leb_le _ _)) by lia.
  unfold splice. rewrite Z.add_0_l, Hl. cbn [take Z.to_nat app]. unfold len. by rewrite Nat2Z.id, drop_all, app_nil_r.
Qed.

Lemma deref_block h b s : len s = buf_len b -> deref b (with_block h b s) = Ok s.
Proof.
  intros Hl. unfold deref, with_block. rewrite lookup_insert_eq, (proj2 (Z.leb_le _ _)) by lia.
  rewrite take_ge; [done|]. unfold len in Hl. lia.
Qed.

Lemma index_cases s i : (exists x, index (E := fuel_error) s i = Ok x) \/ index (E := fuel_error) (A := byte) s i = Panic.
Proof. unfold index. destruct (0 <=? i); [destruct (s !! Z.to_nat i)|]; eauto. Qed.

(** A use of the buffer is that use of the array. *)
Lemma use_ok h b s u : len s = buf_len b ->
  use_buffer b u (with_block h b s) = (with_block h b (use_array u s).1, (use_array u s).2) /\ len (use_array u s).1 = buf_len b.
Proof.
  intros Hl. destruct u as [|i|i x]; cbn [use_buffer use_array fst snd].
  - unfold zero, mbind, st_bind. rewrite store_block by (rewrite len_zeros, <- Hl; unfold len; lia).
    rewrite Hl. split; [done|]. rewrite len_zeros, <- Hl. unfold len. lia.
  - unfold read_byte, mbind, st_bind, get_state, lift. rewrite deref_block by done.
    by destruct (index_cases s i) as [[x ->] | ->].
  - unfold write_byte, mbind, st_bind, get_state, lift. rewrite deref_block by done.
    destruct (index_cases s i) as [[y ->] | ->]; [|done]. cbn [fst snd].
    assert (len (<[Z.to_nat i := x]> s) = len s) as Hi by (unfold len; by rewrite length_insert).
    rewrite store_block by done. split; [done | by rewrite Hi].
Qed.

Lemma use_all_ok h b us s : len s = buf_len b ->
  use_all b us (with_block h b s) = (with_block h b (array_all us s).1, (array_all us s).2) /\ len (array_all us s).1 = buf_len b.
Proof.
  revert s. induction us as [|u us IH]; intros s Hl; [done|]. cbn [use_all array_all]. unfold mbind, st_bind.
  destruct (use_ok h b s u Hl) as [-> Hl']. destruct (use_array u s) as [s1 [r | e | |]]; cbn [fst snd] in *; try done.
  destruct (IH s1 Hl') as [-> Hl'']. by destruct (array_all us s1) as [s2 [rs | e | |]].
Qed.

Lemma drop_ok h b s : h !! ptr b = None -> drop_buffer b (with_block h b s) = (h, Ok tt).
Proof.
  intros Hf. unfold drop_buffer, with_block. rewrite lookup_insert_eq, decide_True by done. by rewrite delete_insert_id.
Qed.

(** What [new] does: the sizes it asks for. *)
Definition asked (size : Z) : Z := Z.max (usize_next_multiple_of size SECTOR_SIZE) SECTOR_SIZE.

Lemma asked_cases size : is_u64 size ->
  (size <= 2 ^ 64 - SECTOR_SIZE /\ asked size = Z.max (next_multiple_of size SECTOR_SIZE) SECTOR_SIZE) \/
  (2 ^ 64 - SECTOR_SIZE < size /\ asked size = SECTOR_SIZE).
Proof.
  intros Hu. unfold asked, usize_next_multiple_of, is_u64, wrap64, SECTOR_SIZE in *.
  pose proof (Z.mod_pos_bound size 4096 ltac:(lia)) as Hm. pose proof (Z.div_mod size 4096 ltac:(lia)) as Hd.
  assert (2 ^ 64 = 4096 * 2 ^ 52) as Hp by reflexivity.
  destruct (Z.eqb_spec (size mod 4096) 0) as [Hz | Hz].
  - left. split; [lia|]. by rewrite next_multiple_of_exact by (lia || done).
  - assert (size + (4096 - size mod 4096) = 4096 * (size / 4096 + 1)) as Hs by lia.
    assert (next_multiple_of size 4096 = 4096 * (size / 4096 + 1)) as Hn.
    { apply next_multiple_of_unique; [lia | lia |]. rewrite Z.mul_comm. apply Z.mod_mul. lia. }
    destruct (Z.le_gt_cases size (2 ^ 64 - 4096)) as [Hle | Hgt].
    + left. split; [done|]. rewrite Hn, Hs. rewrite Z.mod_small; [done | nia].
    + right. split; [lia|]. rewrite Hs. assert (size / 4096 = 2 ^ 52 - 1) as -> by nia. reflexivity.
Qed.

(** What [new] ends in; [max] is the largest size with a layout. *)
Definition new_post (size : Z) (h : heap) (r : heap * outcome fuel_error AlignedBuffer) : Prop :=
  let max := 2 ^ 63 - SECTOR_SIZE in
  match r with
  | (h', Ok b) =>
      h' = with_block h b (zeros (buf_len b)) /\ h !! ptr b = None /\
      ptr b mod SECTOR_SIZE = 0 /\ buf_len b mod SECTOR_SIZE = 0 /\ SECTOR_SIZE <= buf_len b <= max /\
      (size <= max -> deref b h' = Ok (AlignedBuffer_new size) /\ size <= buf_len b < Z.max (size + SECTOR_SIZE) (SECTOR_SIZE + 1)) /\
      (max < size -> 2 ^ 64 - SECTOR_SIZE < size /\ buf_len b = SECTOR_SIZE)
  | (h', Panic) => h' = h /\ (max < size <= 2 ^ 64 - SECTOR_SIZE \/
      exists n, n <= max /\ alloc_at h (mk_Layout n SECTOR_SIZE) = None)
  | _ => False
  end.

Lemma new_size_ok `{!AllocatorSpec H} size h : is_u64 size -> new_post size h (new size h).
Proof.
  intros Hu. unfold new. fold (asked size). pose proof (asked_cases size Hu) as Hasked.
  assert (0 <= size) as Hpos by (unfold is_u64 in Hu; lia). clear Hu.
  destruct (next_multiple_of_spec size SECTOR_SIZE ltac:(done)) as [Hnb Hnm].
  assert (asked size mod SECTOR_SIZE = 0 /\ SECTOR_SIZE <= asked size) as [Hmod Hmin].
  { destruct Hasked as [[_ ->] | [_ ->]]; [|done]. split; [|lia].
    destruct (Z.max_spec (next_multiple_of size SECTOR_SIZE) SECTOR_SIZE) as [[_ ->] | [_ ->]]; done. }
  unfold from_size_align. change (is_power_of_two SECTOR_SIZE) with true. cbn [andb].
  destruct (Z.leb_spec (asked size) (2 ^ 63 - SECTOR_SIZE)) as [Hle | Hgt]; unfold SECTOR_SIZE in *.
  - unfold mbind, st_bind, get_state. destruct (alloc_at h (mk_Layout (asked size) 4096)) as [p|] eqn:Ha.
    2:{ split; [done|]. right. by exists (asked size). }
    destruct (alloc_spec h _ p Ha) as (Hf & _ & Hp). unfold put_state. cbn [new_post mret st_ret buf_len ptr layout lay_size lay_align] in *. unfold SECTOR_SIZE in *.
    split_and!; [done | done | done | done | lia | lia | |].
    + intros Hs. destruct Hasked as [[_ He] | [? _]]; [|lia].
      change (<[p:=_]> h) with (with_block h (mk_AlignedBuffer p (asked size) (mk_Layout (asked size) 4096)) (zeros (asked size))).
      rewrite deref_block by (rewrite len_zeros; cbn [buf_len]; lia). rewrite AlignedBuffer_zeros. unfold SECTOR_SIZE. rewrite <- He. split; [done | lia].
    + intros Hs. destruct Hasked as [[? He] | [? He]]; lia.
  - split; [done|]. left. unfold SECTOR_SIZE in *. destruct Hasked as [[? He] | [? He]]; [|lia].
    apply Z.mod_divide in Hnm as [q Hq]; [|done]. assert (2 ^ 63 = 2 ^ 51 * 4096) as Hp by reflexivity. lia.
Qed.

(** ** Properties *)

(** C35: [AlignedBuffer::new] over all of [usize]: up to 2^63 - 4096 bytes it gives a zeroed buffer
    of whole sectors at a sector address, at least as long as asked and by less than a sector
    longer (one sector for nothing), unless memory runs out; above that it panics, and for the last
    4095 sizes, where rounding up wraps, it gives a single sector. *)
Theorem aligned_buffer_new `{!AllocatorSpec H} (size : Z) (h : heap) (Hu : is_u64 size) : new_post size h (new size h).
Proof. exact (new_size_ok size h Hu). Qed.

(** A buffer is an array: whatever reads, writes and zeroings a new buffer is put to, they end
    as on a zeroed array of its length (in a panic exactly for an index outside), no access is
    outside of the block, and dropping the buffer afterwards frees exactly its block. *)
Theorem aligned_buffer_array `{!AllocatorSpec H} (size : Z) (h h' : heap) (b : AlignedBuffer) (us : list use)
    (Hu : is_u64 size) (Hnew : new size h = (h', Ok b)) :
  let '(array, r) := array_all us (zeros (buf_len b)) in
  let '(h'', r') := use_all b us h' in
  r' = r /\ deref b h'' = Ok array /\ drop_buffer b h'' = (h, Ok tt).
Proof.
  pose proof (new_size_ok size h Hu) as Hp. rewrite Hnew in Hp. destruct Hp as (-> & Hf & _ & _ & Hb & _).
  assert (len (zeros (buf_len b)) = buf_len b) as Hl by (rewrite len_zeros; unfold SECTOR_SIZE in Hb; lia).
  destruct (use_all_ok h b us _ Hl) as [-> Hl']. destruct (array_all us (zeros (buf_len b))) as [s r]. cbn [fst snd] in *.
  split_and!; [done | by apply deref_block | by apply drop_ok].
Qed.
End buffer.

(** An allocator: the first sector above every live block. *)
#[export] Instance bump : Allocator := fun h l =>
  if 0 <? lay_align l then Some ((foldr (fun x m => Z.max x.1 m) 0 (map_to_list h) / lay_align l + 1) * lay_align l) else None.

Lemma foldr_max_le (x : Z * (Layout * bytes)) l : x ∈ l -> x.1 <= foldr (fun x m => Z.max x.1 m) 0 l.
Proof. induction 1 as [|y l Hx IH]; cbn; lia. Qed.

Lemma foldr_max_pos (l : list (Z * (Layout * bytes))) : 0 <= foldr (fun x m => Z.max x.1 m) 0 l.
Proof. induction l as [|y l IH]; [done|]. cbn. lia. Qed.

#[export] Instance bump_spec : AllocatorSpec bump.
Proof.
  intros h l p. unfold alloc_at, bump. destruct (Z.ltb_spec 0 (lay_align l)) as [Ha | _]; [|done]. intros [= <-].
  set (m := foldr _ 0 _). assert (0 <= m) as Hm by apply foldr_max_pos.
  pose proof (Z.mul_succ_div_gt m (lay_align l) Ha) as Hgt. pose proof (Z.div_pos m (lay_align l) Hm Ha) as Hd.
  split_and!; [| nia | by apply Z.mod_mul; lia].
  destruct (h !! _) as [v|] eqn:Hv; [|done]. apply elem_of_map_to_list, foldr_max_le in Hv. cbn in Hv. fold m in Hv. nia.
Qed.

Lemma aligned_buffer_new_witness : is_u64 STAGING_SIZE /\ new_post STAGING_SIZE ∅ (new STAGING_SIZE ∅).
Proof.
  assert (is_u64 STAGING_SIZE) as Hu by (unfold is_u64, STAGING_SIZE; lia).
  split; [exact Hu | exact (aligned_buffer_new STAGING_SIZE ∅ Hu)].
Defined.

(** A buffer for a hundred bytes. *)
Definition small : heap * outcome fuel_error AlignedBuffer := new 100 ∅.
Definition small_buffer : AlignedBuffer := mk_AlignedBuffer 4096 4096 (mk_Layout 4096 4096).
Definition small_uses : list use := [Read 4095; Write 4095 Byte.xcd; Read 4095; Zero; Read 4095; Write 4096 Byte.x01].

Lemma small_new : small = (small.1, Ok small_buffer).
Proof. vm_compute. reflexivity. Qed.

Lemma aligned_buffer_array_witness :
  (is_u64 100 /\ small = (small.1, Ok small_buffer)) /\
  let '(array, r) := array_all small_uses (zeros (buf_len small_buffer)) in
  let '(h'', r') := use_all small_buffer small_uses small.1 in
  r' = r /\ deref small_buffer h'' = Ok array /\ drop_buffer small_buffer h'' = (∅, Ok tt).
Proof.
  assert (is_u64 100) as Hu by (unfold is_u64; lia). split; [exact (conj Hu small_new)|].
  exact (aligned_buffer_array 100 ∅ small.1 small_buffer small_uses Hu small_new).
Defined.

(** The index behind the buffer panics; the reads before it see the write and the zeroing. *)
Example small_ends : (use_all small_buffer small_uses small.1).2 = Panic /\
  (use_all small_buffer (take 5 small_uses) small.1).2 = Ok [Some Byte.x00; None; Some Byte.xcd; None; Some Byte.x00].
Proof. vm_compute. done. Qed.

(** The last sizes of a [usize] round up to nothing, and get one sector. *)
Example wrapped_size : (new (2 ^ 64 - 1) ∅).2 = Ok small_buffer /\ (new (2 ^ 64 - 4096) ∅).2 = Panic.
Proof. vm_compute. done. Qed.
