(* ===== verification/WalRecovery.v ===== *)
(** * WAL recovery (tier3_storage/src/wal/recovery.rs)

    [RecoveryScanner] over the bytes of the log file; [replay_all] on any file
    characterised by the frames the file starts with; what a replay returns
    after a run of the writer, after a torn tail, after a changed byte, and
    after the two situations in which the writer overwrites its own log. *)

From S2P Require Import Prelude WalRecord WalWriter.
#[local] Open Scope Z_scope.

Record RecoveryScanner := mk_RecoveryScanner {
  buf : bytes;
  pos : Z;
  prev_seq : option Z;
  last_valid_end : Z
}.

(** [RecoveryScanner::open] on a file that reads as [contents]. *)
Definition RecoveryScanner_open (contents : bytes) : RecoveryScanner :=
  mk_RecoveryScanner contents 0 None 0.

Section recovery.
  Context (crc32 : bytes -> Z).

(** [RecoveryScanner::next_record]; every [WalError] of the decoder ends the
    scan with [None]. *)
Definition next_record {E} : st RecoveryScanner E (option WalRecord) :=
  s ← get_state;
  if len (buf s) <? pos s + HEADER_SIZE then mret None else
  rest ← lift (range (buf s) (pos s) (len (buf s)));
  match decode_record crc32 rest (prev_seq s) with
  | Ok (rec, consumed) =>
      let pos := pos s + consumed in
      put_state (mk_RecoveryScanner (buf s) pos (Some (seq rec)) pos);;
      mret (Some rec)
  | Err _ => mret None
  | Panic => lift Panic
  | Ub => lift Ub
  end.

Definition truncation_offset (s : RecoveryScanner) : Z := last_valid_end s.

(** The [while let] loop of [replay_all]. *)
Fixpoint replay_loop (fuel : nat) (out : list WalRecord) :
    st RecoveryScanner fuel_error (list WalRecord) :=
  match fuel with
  | O => throw OutOfFuel
  | S fuel =>
      r ← next_record;
      match r with
      | Some r => replay_loop fuel (out ++ [r])
      | None => mret out
      end
  end.

(** [RecoveryScanner::replay_all].  Each turn consumes at least a header, so
    one unit of fuel per byte is more than the loop can use. *)
Definition replay_all (s : RecoveryScanner) : outcome fuel_error (list WalRecord * Z) :=
  match replay_loop (S (length (buf s))) [] s with
  | (s', c) => out ← c; Ok (out, last_valid_end s')
  end.

(** ** Specification: the log as a sequence of frames *)

Definition frames (rs : list WalRecord) : bytes := concat (frame crc32 <$> rs).

(** Records a scan accepts one after the other. *)
Fixpoint valid_log (prev : option Z) (rs : list WalRecord) : Prop :=
  match rs with
  | [] => True
  | r :: rs =>
      record_ok r /\ header_zero (frame crc32 r) = false /\ seq_after prev (seq r) /\
      valid_log (Some (seq r)) rs
  end.

Definition last_seq (prev : option Z) (rs : list WalRecord) : option Z :=
  match last rs with Some r => Some (seq r) | None => prev end.

(** No further record is decoded from [rest]. *)
Definition stops (prev : option Z) (rest : bytes) : Prop :=
  forall r n, decode_record crc32 rest prev <> Ok (r, n).

(** ** Lemmas *)

Lemma frames_cons r rs : frames (r :: rs) = frame crc32 r ++ frames rs.
Proof. done. Qed.

Lemma frames_app rs rs' : frames (rs ++ rs') = frames rs ++ frames rs'.
Proof. unfold frames. by rewrite fmap_app, concat_app. Qed.

Lemma last_seq_cons prev r rs : last_seq prev (r :: rs) = last_seq (Some (seq r)) rs.
Proof. unfold last_seq. rewrite last_cons. by destruct (last rs). Qed.

Lemma len_frame_min r : HEADER_SIZE <= len (frame crc32 r).
Proof. rewrite len_frame. len_lia. Qed.

(** [header_zero] looks at the first sixteen bytes only. *)
Lemma header_zero_app b rest : HEADER_SIZE <= len b -> header_zero (b ++ rest) = header_zero b.
Proof.
  intros Hb. unfold header_zero. f_equal.
  destruct (split_at b HEADER_SIZE) as (h & t & -> & Hh); [unfold HEADER_SIZE in *; lia |].
  by rewrite <- app_assoc, !sub_app_start.
Qed.

Lemma stops_short prev rest : len rest < HEADER_SIZE -> stops prev rest.
Proof. intros Hl r n. by rewrite decode_short. Qed.

(** Zero padding never decodes. *)
Lemma stops_zeros prev n : stops prev (zeros n).
Proof.
  destruct (Z.lt_ge_cases (len (zeros n)) HEADER_SIZE) as [Hl | Hl]; [by apply stops_short |].
  intros r m. rewrite decode_long by done.
  assert (Hz : header_zero (zeros n) = true); [| by rewrite Hz].
  unfold header_zero, sub, zeros. rewrite drop_replicate, take_replicate.
  generalize (min (Z.to_nat (HEADER_SIZE - 0)) (Z.to_nat n - Z.to_nat 0)).
  intros k. induction k; simpl; auto.
Qed.

(** The result of the loop from a scanner that still has [rest] to read. *)
Lemma replay_frames `{!Crc32 crc32} rs fuel out pre rest prev e :
  valid_log prev rs -> stops (last_seq prev rs) rest -> (length rs < fuel)%nat ->
  replay_loop fuel out (mk_RecoveryScanner (pre ++ frames rs ++ rest) (len pre) prev e) =
  (mk_RecoveryScanner (pre ++ frames rs ++ rest) (len (pre ++ frames rs)) (last_seq prev rs)
     (if rs is [] then e else len (pre ++ frames rs)),
   Ok (out ++ rs)).
Proof.
  revert fuel out pre prev e. induction rs as [|r rs IH]; intros fuel out pre prev e Hv Hst Hf;
    (destruct fuel as [|fuel]; [simpl in Hf; lia |]).
  - cbn [replay_loop]. unfold frames. simpl concat. rewrite !app_nil_r, app_nil_l.
    unfold next_record, get_state, mbind, st_bind. cbn [buf pos prev_seq].
    destruct (Z.ltb_spec (len (pre ++ rest)) (len pre + HEADER_SIZE)); [done |].
    rewrite range_ok, sub_app_end by len_lia. unfold lift.
    pose proof (decode_no_panic crc32 rest prev) as Hs. cbn in Hst.
    destruct (decode_record crc32 rest prev) as [[r n]| | |] eqn:Hd; try done.
    by destruct (Hst r n).
  - destruct Hv as (Hok & Hz & Hseq & Hv). rewrite last_seq_cons in Hst |- *.
    cbn [replay_loop]. rewrite frames_cons, <- app_assoc.
    pose proof (len_frame_min r) as Hmin.
    unfold mbind at 1, st_bind at 1. unfold next_record at 1, get_state, mbind at 1, st_bind at 1.
    cbn [buf pos prev_seq]. rewrite (proj2 (Z.ltb_ge _ _)) by len_lia.
    rewrite range_ok, sub_app_end by len_lia. unfold lift, mbind at 1, st_bind at 1.
    assert (Hd : decode_record crc32 (frame crc32 r ++ frames rs ++ rest) prev =
      Ok (r, len (frame crc32 r))).
    { apply decode_accepts; [done |]. eexists. split_and!; try done. }
    rewrite Hd. unfold put_state, mbind at 1, st_bind at 1. cbn [mret st_ret].
    replace (len pre + len (frame crc32 r)) with (len (pre ++ frame crc32 r)) by len_lia.
    rewrite !(app_assoc pre), IH by (try done; simpl in Hf; lia).
    rewrite <- (app_assoc out). by destruct rs as [|r' rs]; [rewrite app_nil_r |].
Qed.

(** Every buffer starts with a maximal valid log. *)
Lemma split_log `{!Crc32 crc32} n b prev :
  (length b < n)%nat ->
  exists rs rest, b = frames rs ++ rest /\ valid_log prev rs /\ stops (last_seq prev rs) rest.
Proof.
  revert b prev. induction n as [|n IH]; intros b prev Hl; [lia |].
  destruct (decode_record crc32 b prev) as [[r m] | e | |] eqn:Hd.
  2-4: exists [], b; split_and!; [done.. | intros r m; cbn; congruence].
  apply decode_accepts in Hd as (rest & -> & -> & Hok & Hz & Hs); [| done].
  pose proof (len_frame_min r) as Hmin. rewrite header_zero_app in Hz by done.
  destruct (IH rest (Some (seq r))) as (rs & rest' & -> & Hv & Hst).
  { rewrite length_app in Hl. unfold len, HEADER_SIZE in Hmin. lia. }
  exists (r :: rs), rest'. rewrite frames_cons, <- app_assoc, last_seq_cons. done.
Qed.

Lemma length_frames rs : (length rs <= length (frames rs))%nat.
Proof.
  induction rs as [|r rs IH]; [done |]. rewrite frames_cons, length_app.
  pose proof (len_frame_min r). unfold len, HEADER_SIZE in *. simpl. lia.
Qed.

Lemma replay_open `{!Crc32 crc32} rs rest :
  valid_log None rs -> stops (last_seq None rs) rest ->
  replay_all (RecoveryScanner_open (frames rs ++ rest)) = Ok (rs, len (frames rs)).
Proof.
  intros Hv Hst. unfold replay_all, RecoveryScanner_open. cbn [buf].
  pose proof (replay_frames rs (S (length (frames rs ++ rest))) [] [] rest None 0 Hv Hst) as Hr.
  rewrite app_nil_l in Hr. change (len []) with 0 in Hr. rewrite Hr.
  - cbn. by destruct rs.
  - rewrite length_app. pose proof (length_frames rs). lia.
Qed.

(** ** A run of the writer *)

Fixpoint run_appends (pwrite : bytes -> bytes -> Z -> bytes * Z) (ps : list bytes) :
    st WalWriter WalError (list Z) :=
  match ps with
  | [] => mret []
  | p :: ps =>
      s ← append crc32 pwrite p;
      ss ← run_appends pwrite ps;
      mret (s :: ss)
  end.

(** The records a run of appends makes from the payloads. *)
Fixpoint numbered (n : Z) (ps : list bytes) : list WalRecord :=
  match ps with
  | [] => []
  | p :: ps => mk_WalRecord n p :: numbered (n + 1) ps
  end.

(** No record but the last ends on a sector boundary, from a log of [off] bytes. *)
Fixpoint inside_sectors (off : Z) (ps : list bytes) : Prop :=
  match ps with
  | [] => True
  | p :: ps =>
      let off := off + HEADER_SIZE + len p in
      (ps = [] \/ off mod SECTOR_SIZE <> 0) /\ inside_sectors off ps
  end.

(** A payload that fits the staging buffer behind any open sector. *)
Definition payload_fits (p : bytes) : Prop := SECTOR_SIZE + HEADER_SIZE + len p <= STAGING_SIZE.

Lemma length_numbered n ps : length (numbered n ps) = length ps.
Proof. revert n. induction ps as [|p ps IH]; intros n; [done |]. simpl. by rewrite IH. Qed.

Lemma numbered_valid n ps prev :
  0 < n -> n + Z.of_nat (length ps) <= 2 ^ 64 -> seq_after prev n -> Forall payload_fits ps ->
  valid_log prev (numbered n ps).
Proof.
  revert n prev. induction ps as [|p ps IH]; intros n prev Hn Hb Hs Hf; [done |].
  apply Forall_cons in Hf as [Hp Hf]. cbn [numbered valid_log]. simpl length in Hb.
  assert (Hu : is_u64 n) by (unfold is_u64; lia).
  split_and!; [split; [done |] | | done |].
  - unfold payload_fits, STAGING_SIZE, SECTOR_SIZE, HEADER_SIZE, MAX_PAYLOAD_SIZE in *.
    cbn [payload]. lia.
  - rewrite <- (header_zero_app _ []) by apply len_frame_min. by apply header_zero_seq.
  - apply IH; [lia | lia | simpl; lia | done].
Qed.

Lemma run_appends_file pwrite `{!Pwrite pwrite} w L ps :
  (forall f b off, exists f', pwrite f b off = (f', len b)) ->
  log_inv w L -> Forall payload_fits ps -> inside_sectors (len L) ps ->
  let rs := numbered (next_seq w) ps in
  is_u64 (len (L ++ frames rs)) -> 0 < next_seq w -> next_seq w + Z.of_nat (length ps) < 2 ^ 64 ->
  exists w', run_appends pwrite ps w = (w', Ok (seq <$> rs)) /\
    file w' = (L ++ frames rs) ++ zeros (next_multiple_of (len (L ++ frames rs)) SECTOR_SIZE - len (L ++ frames rs)).
Proof.
  intros Hpw. revert w L. induction ps as [|p ps IH]; intros w L Hinv Hf Hin rs Hu Hn Hb.
  - exists w. change (frames rs) with (@nil byte). rewrite app_nil_r. split; [done | apply Hinv].
  - apply Forall_cons in Hf as [Hp Hf]. destruct Hin as [Hmod Hin]. simpl length in Hb.
    destruct (Hpw (file w) (write_buf crc32 w p) (sector_offset w)) as [f Hf'].
    assert (Hfit : tail_offset w + HEADER_SIZE + len p <= STAGING_SIZE).
    { unfold payload_fits in Hp. destruct Hinv. lia. }
    set (fr := frame crc32 (mk_WalRecord (next_seq w) p)).
    assert (Hl : len (L ++ fr) = len L + HEADER_SIZE + len p).
    { unfold fr. rewrite len_app, len_frame. cbn [payload]. lia. }
    assert (Hrs : L ++ frames rs = (L ++ fr) ++ frames (numbered (next_seq w + 1) ps)).
    { unfold rs. cbn [numbered]. by rewrite frames_cons, app_assoc. }
    assert (Hul : is_u64 (len (L ++ fr))).
    { rewrite Hrs in Hu. unfold is_u64 in *. rewrite len_app in Hu. split; len_lia. }
    cbn [run_appends]. unfold mbind, st_bind. fold (@mbind (st WalWriter WalError)).
    destruct (decide (ps = [])) as [-> | Hne].
    + destruct (append_completes crc32 pwrite w L p f Hinv Hfit Hf') as [-> Hfile].
      eexists. split; [done |]. rewrite Hfile, Hrs. cbn [numbered]. change (frames []) with (@nil byte). by rewrite app_nil_r.
    + destruct (append_log crc32 pwrite w L p f Hinv Hfit) as (-> & Hinv' & Hseq);
        [done | unfold is_u64; lia | fold fr; rewrite Hl; by destruct Hmod | done |].
      fold fr in Hinv'. rewrite <- Hl in Hin.
      destruct (IH (moved_state crc32 w p f) (L ++ fr)) as (w' & Hrun & Hfile);
        [done | done | done | by rewrite Hseq, <- Hrs | lia | rewrite Hseq; lia |].
      rewrite Hseq in Hrun, Hfile. rewrite <- Hrs in Hfile. unfold mbind, st_bind in *.
      exists w'. rewrite Hrun. done.
Qed.

(** [append] on any writer at position 0 of its file: the frame goes to the
    start of the file. *)
Lemma append_at_start pwrite `{!Pwrite pwrite} w p :
  (forall f b off, exists f', pwrite f b off = (f', len b)) ->
  writer_wf w -> sector_offset w = 0 -> tail_offset w = 0 -> payload_fits p ->
  exists w' k, append crc32 pwrite p w = (w', Ok (next_seq w)) /\ 0 <= k /\
    file w' = frame crc32 (mk_WalRecord (next_seq w) p) ++ zeros k ++
      drop (Z.to_nat (HEADER_SIZE + len p + k)) (file w) /\
    SECTOR_SIZE <= HEADER_SIZE + len p + k.
Proof.
  intros Hpw Hwf Hs Ht Hp. pose proof (len_write_buf crc32 w p Hwf) as Hlen.
  destruct (Hpw (file w) (write_buf crc32 w p) (sector_offset w)) as [f Hf].
  destruct (sector_end (tail_offset w + HEADER_SIZE + len p)) as (Hb & _ & Hmin & _);
    [unfold HEADER_SIZE; len_lia |].
  exists (moved_state crc32 w p f), (len (write_buf crc32 w p) - (HEADER_SIZE + len p)).
  split_and!.
  - rewrite append_result by done. unfold payload_fits, SECTOR_SIZE in Hp.
    rewrite !(proj2 (Z.ltb_ge _ _)) by lia. cbv zeta. rewrite Hf, Z.eqb_refl.
    by rewrite (proj2 (Z.ltb_ge _ _)) by apply len_nonneg.
  - lia.
  - cbn [file moved_state]. apply pwrite_full in Hf as ->. unfold write_at. rewrite Hs.
    rewrite Z.add_0_l, Zplus_minus, take_0, app_nil_l.
    assert (Hwb : write_buf crc32 w p = frame crc32 (mk_WalRecord (next_seq w) p) ++
      zeros (len (write_buf crc32 w p) - (HEADER_SIZE + len p))).
    { rewrite Hlen. unfold write_buf. rewrite Ht. cbv zeta. done. }
    by rewrite (app_assoc (frame _ _)), <- Hwb.
  - lia.
Qed.

(** ** A log cut short *)

(** The records that lie wholly in the first [n] bytes. *)
Fixpoint whole (n : Z) (rs : list WalRecord) : list WalRecord :=
  match rs with
  | [] => []
  | r :: rs =>
      let size := len (frame crc32 r) in
      if size <=? n then r :: whole (n - size) rs else []
  end.

Lemma torn_frame `{!Crc32 crc32} r b n prev :
  record_ok r -> 0 <= n < len (frame crc32 r) -> stops prev (take (Z.to_nat n) (frame crc32 r ++ b)).
Proof.
  intros Hok Hn r' m Hd. apply decode_accepts in Hd as (rest & Heq & _ & Hok' & _); [| done].
  rewrite take_app_le in Heq by (unfold len in *; lia).
  assert (Hf : frame crc32 r ++ [] = frame crc32 r' ++ rest ++ drop (Z.to_nat n) (frame crc32 r)).
  { by rewrite app_nil_r, app_assoc, <- Heq, take_drop. }
  apply frame_prefix_inj in Hf as [_ Hf]; [| done..].
  apply (f_equal len) in Hf. rewrite len_app, len_drop, len_nil in Hf. len_lia.
Qed.

Lemma torn_log `{!Crc32 crc32} rs prev n pad :
  valid_log prev rs -> 0 <= n ->
  exists rest, take (Z.to_nat n) (frames rs ++ zeros pad) = frames (whole n rs) ++ rest /\
    valid_log prev (whole n rs) /\ stops (last_seq prev (whole n rs)) rest.
Proof.
  revert prev n. induction rs as [|r rs IH]; intros prev n Hv Hn.
  - exists (take (Z.to_nat n) (zeros pad)). split_and!; [done.. |].
    unfold zeros. rewrite take_replicate.
    replace (replicate _ _) with (zeros (Z.of_nat (min (Z.to_nat n) (Z.to_nat pad))));
      [apply stops_zeros | unfold zeros; by rewrite Nat2Z.id].
  - destruct Hv as (Hok & Hz & Hs & Hv). rewrite frames_cons, <- app_assoc. cbn [whole]. cbv zeta.
    destruct (Z.leb_spec (len (frame crc32 r)) n) as [Hle | Hgt].
    + destruct (IH (Some (seq r)) (n - len (frame crc32 r)) Hv) as (rest & Htk & Hv' & Hst); [lia |].
      exists rest. rewrite last_seq_cons, frames_cons, <- app_assoc, <- Htk.
      split_and!; [| done..].
      rewrite <- take_app_add. f_equal. unfold len in *. lia.
    + eexists. split_and!; [done | done | by apply torn_frame].
Qed.

Lemma valid_log_snoc prev rs r : valid_log prev (rs ++ [r]) -> valid_log prev rs /\ record_ok r.
Proof.
  revert prev. induction rs as [|r' rs IH]; intros prev; cbn [app valid_log].
  - by intros (? & _).
  - intros (? & ? & ? & [Hv Hr]%IH). by split_and!.
Qed.

(** A scan ends at the record with a changed byte. *)
Lemma replay_corrupt `{!Crc32 crc32, !Crc32Detects crc32} rs r after l x y t :
  valid_log None (rs ++ [r]) ->
  frame crc32 r ++ after = l ++ x :: t -> x <> y ->
  (len l < 4 \/ 8 <= len l < len (frame crc32 r)) ->
  replay_all (RecoveryScanner_open (frames rs ++ l ++ y :: t)) =
  Ok (rs, len (frames rs)).
Proof.
  intros Hv Hf Hxy Hpos. apply valid_log_snoc in Hv as [Hv Hok]. apply replay_open; [done|]. intros r' n Hd.
  destruct (corrupt_not_decoded crc32 r after l x y t (last_seq None rs) Hok Hf Hxy Hpos) as [e He].
  by rewrite He in Hd.
Qed.

End recovery.

(** * Theorems *)

(** C10: after any run of completed appends to a fresh log, none of whose records
    but the last ends on a sector boundary, [replay_all] on the file returns
    exactly the appended payloads, numbered from 1, and the log's length. *)
Theorem recovery_complete crc32 pwrite `{!Crc32 crc32, !Pwrite pwrite} ps :
  (forall f b off, exists f', pwrite f b off = (f', len b)) ->
  Forall payload_fits ps -> inside_sectors 0 ps ->
  let rs := numbered 1 ps in
  len (frames crc32 rs) < 2 ^ 63 ->
  exists w, run_appends crc32 pwrite ps (WalWriter_open []) = (w, Ok (seq <$> rs)) /\
    replay_all crc32 (RecoveryScanner_open (file w)) = Ok (rs, len (frames crc32 rs)).
Proof.
  intros Hpw Hf Hin rs Hu.
  assert (Hlen : Z.of_nat (length ps) <= len (frames crc32 rs)).
  { pose proof (length_frames crc32 rs) as Hl. unfold rs in Hl at 1.
    rewrite length_numbered in Hl. unfold len. lia. }
  destruct (run_appends_file crc32 pwrite (WalWriter_open []) [] ps Hpw open_log_inv Hf Hin)
    as (w & Hrun & Hfile); cbn [next_seq WalWriter_open app];
    [split; [apply len_nonneg | fold rs; lia] | lia | lia |].
  exists w. split; [done |]. rewrite Hfile, app_nil_l. apply replay_open.
  - done.
  - apply numbered_valid; [lia | lia | done | done].
  - apply stops_zeros.
Qed.

(** C16: [replay_all] ends on every file, and what it returns is the maximal
    sequence of valid frames the file starts with: checksums match, sequence
    numbers increase, and the truncation offset is the end of the last frame. *)
Theorem replay_sound crc32 `{!Crc32 crc32} contents :
  exists rs rest, contents = frames crc32 rs ++ rest /\ valid_log crc32 None rs /\
    stops crc32 (last_seq None rs) rest /\
    replay_all crc32 (RecoveryScanner_open contents) = Ok (rs, len (frames crc32 rs)).
Proof.
  destruct (split_log crc32 (S (length contents)) contents None) as (rs & rest & -> & Hv & Hst); [lia |].
  exists rs, rest. split_and!; [done.. |]. by apply replay_open.
Qed.

(** C27: a log file cut at any byte replays to exactly the records that lie
    wholly before the cut. *)
Theorem replay_torn_prefix crc32 `{!Crc32 crc32} rs pad n :
  valid_log crc32 None rs -> 0 <= n ->
  replay_all crc32 (RecoveryScanner_open (take (Z.to_nat n) (frames crc32 rs ++ zeros pad))) =
  Ok (whole crc32 n rs, len (frames crc32 (whole crc32 n rs))).
Proof.
  intros Hv Hn. destruct (torn_log crc32 rs None n pad Hv Hn) as (rest & -> & Hv' & Hst).
  by apply replay_open.
Qed.

(** C28: one changed byte in the checksum, sequence-number or payload field of a
    record stops the replay there: exactly the records before it come back. *)
Theorem replay_stops_at_corruption crc32 `{!Crc32 crc32, !Crc32Detects crc32} rs r after l x y t :
  valid_log crc32 None (rs ++ [r]) ->
  frame crc32 r ++ after = l ++ x :: t -> x <> y ->
  (len l < 4 \/ 8 <= len l < len (frame crc32 r)) ->
  replay_all crc32 (RecoveryScanner_open (frames crc32 rs ++ l ++ y :: t)) =
  Ok (rs, len (frames crc32 rs)).
Proof. by apply replay_corrupt. Qed.

(** a record of exactly one sector is lost by the append that follows it:
    both appends succeed, and the replay returns the second record alone. *)
Theorem sector_record_lost crc32 pwrite `{!Crc32 crc32, !Pwrite pwrite} p1 p2 :
  (forall f b off, exists f', pwrite f b off = (f', len b)) ->
  HEADER_SIZE + len p1 = SECTOR_SIZE -> payload_fits p2 ->
  exists w, run_appends crc32 pwrite [p1; p2] (WalWriter_open []) = (w, Ok [1; 2]) /\
    replay_all crc32 (RecoveryScanner_open (file w)) =
      Ok ([mk_WalRecord 2 p2], HEADER_SIZE + len p2).
Proof.
  intros Hpw H1 H2. set (w0 := WalWriter_open []).
  destruct (Hpw (file w0) (write_buf crc32 w0 p1) (sector_offset w0)) as [f Hf].
  assert (Hfit : tail_offset w0 + HEADER_SIZE + len p1 <= STAGING_SIZE).
  { rewrite <- Z.add_assoc, H1. done. }
  destruct (append_completes crc32 pwrite w0 [] p1 f open_log_inv Hfit Hf) as [Ha1 Hfile].
  assert (Hl : len ([] ++ frame crc32 (mk_WalRecord (next_seq w0) p1)) = SECTOR_SIZE).
  { rewrite app_nil_l, len_frame. done. }
  destruct (moved_offsets crc32 w0 [] p1 f open_log_inv) as (_ & _ & Hs & Ht & Hst & _);
    [by rewrite Hl | done |].
  rewrite Hl in Hs, Ht, Hfile.
  set (w1 := moved_state crc32 w0 p1 f) in *.
  destruct (append_at_start crc32 pwrite w1 p2) as (w2 & k & Ha2 & Hk & Hf2 & Hmin);
    [done | split; by rewrite ?Hs, ?Ht | done.. |].
  change (next_seq w1) with 2 in *.
  exists w2. split.
  - cbn [run_appends]. unfold mbind, st_bind. rewrite Ha1, Ha2. done.
  - rewrite (drop_ge (file w1)), app_nil_r in Hf2.
    2: { rewrite Hfile. change (zeros _) with (@nil byte). rewrite app_nil_r. unfold len in *. lia. }
    rewrite Hf2.
    rewrite <- (app_nil_r (frame _ _)).
    change (frame crc32 (mk_WalRecord 2 p2) ++ []) with (frames crc32 [mk_WalRecord 2 p2]).
    rewrite replay_open; [| done | | apply stops_zeros].
    + unfold frames. cbn. by rewrite app_nil_r, len_frame.
    + apply (numbered_valid crc32 2 [p2] None); [done | done | done | by constructor].
Qed.

(** opening an existing log for writing starts again at offset 0 with
    sequence number 1: after one append the file begins with the new record,
    and the replay returns it in place of the old first record. *)
Theorem reopen_overwrites_log crc32 pwrite `{!Crc32 crc32, !Pwrite pwrite} contents p :
  (forall f b off, exists f', pwrite f b off = (f', len b)) -> payload_fits p ->
  exists w rs n, append crc32 pwrite p (WalWriter_open contents) = (w, Ok 1) /\
    replay_all crc32 (RecoveryScanner_open (file w)) = Ok (mk_WalRecord 1 p :: rs, n).
Proof.
  intros Hpw Hp.
  destruct (append_at_start crc32 pwrite (WalWriter_open contents) p) as (w & k & Ha & _ & Hf & _);
    [done | split; [done | done | apply len_AlignedBuffer] | done.. |].
  change (next_seq _) with 1 in *.
  set (rest := zeros k ++ drop _ _) in Hf. clearbody rest.
  destruct (split_log crc32 (S (length rest)) rest (Some 1)) as (rs & rest' & -> & Hv & Hst); [lia |].
  exists w, rs, (len (frames crc32 (mk_WalRecord 1 p :: rs))). split; [done |].
  rewrite Hf, app_assoc. apply (replay_open crc32 (mk_WalRecord 1 p :: rs)).
  - destruct (numbered_valid crc32 1 [p] None) as (? & ? & ? & _); [done.. | by constructor | done].
  - by rewrite last_seq_cons.
Qed.

(** * Witnesses *)

Lemma pwrite_all_completes f b off : exists f', pwrite_all f b off = (f', len b).
Proof. by eexists. Qed.

Lemma small_payload_fits p : len p <= 4080 -> payload_fits p.
Proof. intros H. unfold payload_fits, SECTOR_SIZE, STAGING_SIZE, HEADER_SIZE. lia. Qed.

Lemma recovery_complete_witness :
  let rs := numbered 1 [[Byte.x41]; [Byte.x42; Byte.x43]] in
  exists w, run_appends byte_sum pwrite_all [[Byte.x41]; [Byte.x42; Byte.x43]] (WalWriter_open []) =
      (w, Ok (seq <$> rs)) /\
    replay_all byte_sum (RecoveryScanner_open (file w)) = Ok (rs, len (frames byte_sum rs)).
Proof.
  apply (recovery_complete byte_sum pwrite_all [[Byte.x41]; [Byte.x42; Byte.x43]]).
  - apply pwrite_all_completes.
  - repeat constructor; apply small_payload_fits; vm_compute; congruence.
  - cbn. repeat split; [right; vm_compute; congruence | left; reflexivity].
  - vm_compute. reflexivity.
Defined.

Lemma replay_sound_witness :
  exists rs rest, [Byte.x01; Byte.x02] = frames byte_sum rs ++ rest /\ valid_log byte_sum None rs /\
    stops byte_sum (last_seq None rs) rest /\
    replay_all byte_sum (RecoveryScanner_open [Byte.x01; Byte.x02]) =
      Ok (rs, len (frames byte_sum rs)).
Proof. apply (replay_sound byte_sum). Defined.

Lemma two_records_valid :
  valid_log byte_sum None [mk_WalRecord 1 [Byte.x41]; mk_WalRecord 2 [Byte.x42]].
Proof.
  apply (numbered_valid byte_sum 1 [[Byte.x41]; [Byte.x42]] None); [done | done | done |].
  repeat constructor; by apply small_payload_fits.
Qed.

Lemma replay_torn_prefix_witness :
  replay_all byte_sum (RecoveryScanner_open (take (Z.to_nat 30)
    (frames byte_sum [mk_WalRecord 1 [Byte.x41]; mk_WalRecord 2 [Byte.x42]] ++ zeros 10))) =
  Ok ([mk_WalRecord 1 [Byte.x41]], 17).
Proof.
  rewrite (replay_torn_prefix byte_sum
    [mk_WalRecord 1 [Byte.x41]; mk_WalRecord 2 [Byte.x42]] 10 30).
  - vm_compute. reflexivity.
  - apply two_records_valid.
  - vm_compute. congruence.
Defined.

Lemma replay_stops_at_corruption_witness :
  replay_all byte_sum (RecoveryScanner_open
    (frames byte_sum [mk_WalRecord 1 [Byte.x41]] ++
     take 16 (frame byte_sum (mk_WalRecord 2 [Byte.x42])) ++ Byte.x43 :: zeros 5)) =
  Ok ([mk_WalRecord 1 [Byte.x41]], len (frames byte_sum [mk_WalRecord 1 [Byte.x41]])).
Proof.
  apply (replay_stops_at_corruption byte_sum [mk_WalRecord 1 [Byte.x41]]
    (mk_WalRecord 2 [Byte.x42]) (zeros 5) _ Byte.x42 Byte.x43).
  - apply two_records_valid.
  - vm_compute. reflexivity.
  - congruence.
  - right. split; vm_compute; [congruence | reflexivity].
Defined.

Lemma sector_record_lost_witness :
  exists w, run_appends byte_sum pwrite_all [zeros 4080; [Byte.x42]] (WalWriter_open []) =
      (w, Ok [1; 2]) /\
    replay_all byte_sum (RecoveryScanner_open (file w)) =
      Ok ([mk_WalRecord 2 [Byte.x42]], HEADER_SIZE + len [Byte.x42]).
Proof.
  apply (sector_record_lost byte_sum pwrite_all (zeros 4080) [Byte.x42]).
  - apply pwrite_all_completes.
  - reflexivity.
  - apply small_payload_fits. vm_compute. congruence.
Defined.

Lemma reopen_overwrites_log_witness :
  exists w rs n, append byte_sum pwrite_all [Byte.x42]
      (WalWriter_open (frames byte_sum [mk_WalRecord 1 [Byte.x41]])) = (w, Ok 1) /\
    replay_all byte_sum (RecoveryScanner_open (file w)) = Ok (mk_WalRecord 1 [Byte.x42] :: rs, n).
Proof.
  apply (reopen_overwrites_log byte_sum pwrite_all _ [Byte.x42]).
  - apply pwrite_all_completes.
  - apply small_payload_fits. vm_compute. congruence.
Defined.
