(* ===== verification/WalTests.v ===== *)
(** * The tests of the log (record.rs, aligned_buffer.rs, tests/wal_integration.rs)

    The repository's own tests as functions over the model: a test ends in [Ok tt] when
    every [assert] holds and no [unwrap] meets an error.  They hold not only for the
    checksum and the system the tests run with, but for every checksum that detects a
    changed byte ([codec_tests_pass]), every allocator that finds memory
    ([buffer_tests_pass]) and every file system whose writes complete
    ([wal_tests_pass]).

    What they leave open is shown too: the thousand records of
    [append_many_and_recover_all] could be 3682 and not one more
    ([many_first_boundary]), since the next append overwrites a sector, and the cut of
    the torn tail removes padding only, so every record is still there
    ([torn_tail_is_padding]). *)

From Stdlib Require Import String.
From stdpp Require Import gmap.
From S2P Require Import Prelude Paths WalRecord Crc32 WalWriter AlignedBuffer WalRecovery.
#[local] Open Scope Z_scope.

(** ** Assertions *)

Definition assert_that {E} (b : bool) : outcome E unit := if b then Ok tt else Panic.
(** [Result::unwrap]. *)
Definition unwrap_result {E F A} (r : outcome E A) : outcome F A :=
  match r with Ok a => Ok a | Err _ => Panic | Panic => Panic | Ub => Ub end.
Definition text (s : string) : bytes := list_byte_of_string s.
(** [b ^= mask]. *)
Definition flip (mask : Z) (b : byte) : byte := byte.of_Z (Z.lxor (byte.unsigned b) mask).

(** ** record.rs *)

Section codec.
  Context (crc32 : bytes -> Z).

Definition roundtrip : outcome fuel_error unit :=
  let payload := text "hello world" in
  r ← unwrap_result (encode_record crc32 42 payload (zeros (HEADER_SIZE + len payload)));
  let '(n, buf) := r in
  assert_that (n =? HEADER_SIZE + len payload);;
  d ← unwrap_result (decode_record crc32 buf None);
  let '(rec, consumed) := d in
  assert_that (seq rec =? 42);;
  assert_that (bool_decide (WalRecord.payload rec = payload));;
  assert_that (consumed =? n).

Definition crc_detects_corruption : outcome fuel_error unit :=
  r ← unwrap_result (encode_record crc32 1 (text "data") (zeros (HEADER_SIZE + 4)));
  let buf := r.2 in
  b ← index buf (HEADER_SIZE + 2);
  let buf := <[Z.to_nat (HEADER_SIZE + 2) := flip 0xFF b]> buf in
  assert_that (match decode_record crc32 buf None with Err (CorruptCrc _ _ _) => true | _ => false end).

Definition zero_header_is_end_of_log : outcome fuel_error unit :=
  assert_that (match decode_record crc32 (zeros HEADER_SIZE) None with Err EndOfLog => true | _ => false end).

Definition sequence_regression_detected : outcome fuel_error unit :=
  r ← unwrap_result (encode_record crc32 5 (text "x") (zeros (HEADER_SIZE + 1)));
  assert_that (match decode_record crc32 r.2 (Some 10) with
               | Err (SequenceRegression prev found) => (prev =? 10) && (found =? 5)
               | _ => false
               end).

(** *** Lemmas *)

(** A frame in a buffer of its size. *)
Lemma encode_exact s p : len p <= MAX_PAYLOAD_SIZE ->
  encode_record crc32 s p (zeros (HEADER_SIZE + len p)) = Ok (HEADER_SIZE + len p, frame crc32 (mk_WalRecord s p)).
Proof.
  intros Hp. rewrite encode_result. assert (len (zeros (HEADER_SIZE + len p)) = HEADER_SIZE + len p) as Hl.
  { rewrite len_zeros. unfold WalRecord.HEADER_SIZE. pose proof (len_nonneg p). lia. }
  rewrite Hl, !(proj2 (Z.ltb_ge _ _)) by lia. rewrite drop_ge by (unfold len in Hl |- *; lia). by rewrite app_nil_r.
Qed.

Lemma decode_exact `{!Crc32 crc32} s p prev : is_u64 s -> 0 < s -> len p <= MAX_PAYLOAD_SIZE ->
  decode_record crc32 (frame crc32 (mk_WalRecord s p)) prev =
  match prev with
  | Some q => if s <=? q then Err (SequenceRegression q s) else Ok (mk_WalRecord s p, HEADER_SIZE + len p)
  | None => Ok (mk_WalRecord s p, HEADER_SIZE + len p)
  end.
Proof.
  intros Hu Hs Hp. rewrite <- (app_nil_r (frame _ _)) at 1. rewrite decode_frame; [|done|done|by apply header_zero_seq].
  by rewrite len_frame.
Qed.

(** A payload exchanged under the checksum of another is reported, with both checksums. *)
Lemma decode_exchanged `{!Crc32 crc32} s p q prev : is_u64 s -> 0 < s -> len p <= MAX_PAYLOAD_SIZE -> len q = len p ->
  let stored := crc32 (frame_body s p) in
  let computed := crc32 (frame_body s q) in
  computed <> stored ->
  decode_record crc32 (to_le_bytes 4 stored ++ frame_body s q) prev = Err (CorruptCrc computed stored s).
Proof.
  intros Hu Hs Hp Hq stored computed Hne. unfold frame_body at 1.
  destruct (cut_fields (to_le_bytes 4 stored) (to_le_bytes 4 (len q)) (to_le_bytes 8 s) q [] (HEADER_SIZE + len q))
    as (E1 & E2 & E3 & _ & E5); [apply len_le..|done|]. rewrite app_nil_r in E1, E2, E3, E5.
  rewrite decode_long by (rewrite !len_app, !len_le; unfold HEADER_SIZE; len_lia).
  assert (header_zero (to_le_bytes 4 stored ++ to_le_bytes 4 (len q) ++ to_le_bytes 8 s ++ q) = false) as ->.
  { apply header_zero_fields; [apply len_le..|done|done]. }
  rewrite E1, E2, E3. cbv zeta. rewrite !from_to_le by (try apply crc32_u32; unfold is_u64, MAX_PAYLOAD_SIZE in *; len_lia).
  rewrite !(proj2 (Z.ltb_ge _ _)) by (rewrite ?len_app, ?len_le; unfold HEADER_SIZE; lia).
  rewrite E5. fold (frame_body s q). fold computed. by rewrite (proj2 (Z.eqb_neq _ _)).
Qed.

(** For every checksum that detects a changed byte. *)
Theorem codec_tests_pass `{!Crc32 crc32, !Crc32Detects crc32} :
  roundtrip = Ok tt /\ crc_detects_corruption = Ok tt /\ zero_header_is_end_of_log = Ok tt /\ sequence_regression_detected = Ok tt.
Proof.
  split_and!.
  - unfold roundtrip. rewrite encode_exact by done. cbn [unwrap_result mbind outcome_bind]. rewrite decode_exact by done. done.
  - unfold crc_detects_corruption. change (HEADER_SIZE + 4) with (HEADER_SIZE + len (text "data")). rewrite (encode_exact 1 (text "data")) by done. cbn [unwrap_result mbind outcome_bind snd].
    unfold frame. cbn [seq payload]. set (stored := crc32 (frame_body 1 (text "data"))).
    change (index _ _) with (Ok (E := fuel_error) Byte.x74). cbn [mbind outcome_bind].
    change (<[_:=_]> _) with (to_le_bytes 4 stored ++ frame_body 1 [Byte.x64; Byte.x61; Byte.x8b; Byte.x61]).
    subst stored. rewrite decode_exchanged; [done..|].
    by apply (crc32_detects (to_le_bytes 4 4 ++ to_le_bytes 8 1 ++ [Byte.x64; Byte.x61]) Byte.x8b Byte.x74 [Byte.x61]).
  - unfold zero_header_is_end_of_log. rewrite decode_long by done. done.
  - unfold sequence_regression_detected. change (HEADER_SIZE + 1) with (HEADER_SIZE + len (text "x")). rewrite (encode_exact 5 (text "x")) by done. cbn [unwrap_result mbind outcome_bind snd].
    rewrite decode_exact by done. done.
Qed.
End codec.

(** ** aligned_buffer.rs *)

Section buffer.
  Context `{Allocator}.

Definition allocation_is_sector_aligned : st heap fuel_error unit :=
  buf ← new 100;
  lift (assert_that (ptr buf mod SECTOR_SIZE =? 0));;
  lift (assert_that (buf_len buf mod SECTOR_SIZE =? 0));;
  lift (assert_that (SECTOR_SIZE <=? buf_len buf));;
  drop_buffer buf.

Definition zero_initialized : st heap fuel_error unit :=
  buf ← new SECTOR_SIZE;
  h ← get_state;
  bs ← lift (deref buf h);
  lift (assert_that (forallb is_zero bs));;
  drop_buffer buf.

Definition round_up_to_sector : st heap fuel_error unit :=
  buf ← new (SECTOR_SIZE + 1);
  lift (assert_that (buf_len buf =? SECTOR_SIZE * 2));;
  drop_buffer buf.

Definition mutation_persists : st heap fuel_error unit :=
  buf ← new SECTOR_SIZE;
  write_byte buf 0 Byte.xab;;
  write_byte buf (SECTOR_SIZE - 1) Byte.xcd;;
  a ← read_byte buf 0;
  lift (assert_that (bool_decide (a = Byte.xab)));;
  b ← read_byte buf (SECTOR_SIZE - 1);
  lift (assert_that (bool_decide (b = Byte.xcd)));;
  drop_buffer buf.

(** *** Lemmas *)

Context `{!AllocatorSpec H} (Hmem : forall h n, alloc_at h (mk_Layout n SECTOR_SIZE) <> None).

Lemma new_total size h : 0 <= size <= 2 ^ 63 - SECTOR_SIZE ->
  exists b, new size h = (with_block h b (zeros (buf_len b)), Ok b) /\ h !! ptr b = None /\ ptr b mod SECTOR_SIZE = 0 /\
    buf_len b = Z.max (next_multiple_of size SECTOR_SIZE) SECTOR_SIZE.
Proof.
  intros Hs. pose proof (new_size_ok size h ltac:(unfold is_u64, SECTOR_SIZE in *; lia)) as Hp.
  destruct (new size h) as [h' [b | e | |]]; cbn [new_post] in Hp; [|done| |done].
  - destruct Hp as (-> & Hf & Hm & _ & Hl & Hd & _). exists b. split_and!; [done..|].
    destruct (Hd (proj2 Hs)) as [He _]. rewrite deref_block in He by (rewrite len_zeros; unfold SECTOR_SIZE in Hl; lia).
    injection He as He. rewrite AlignedBuffer_zeros in He. apply (f_equal len) in He. rewrite !len_zeros in He. unfold SECTOR_SIZE in *. lia.
  - destruct Hp as [_ [? | (n & _ & Hn)]]; [lia|]. by destruct (Hmem _ _ Hn).
Qed.

Lemma write_block h b s i x y : len s = buf_len b -> index (E := fuel_error) s i = Ok y ->
  write_byte b i x (with_block h b s) = (with_block h b (<[Z.to_nat i := x]> s), Ok tt).
Proof.
  intros Hl Hi. unfold write_byte, mbind, st_bind, get_state, lift. rewrite deref_block by done. rewrite Hi.
  apply store_block. unfold len. by rewrite length_insert.
Qed.

Lemma read_block h b s i x : len s = buf_len b -> index (E := fuel_error) s i = Ok x ->
  read_byte b i (with_block h b s) = (with_block h b s, Ok x).
Proof. intros Hl Hi. unfold read_byte, mbind, st_bind, get_state, lift. by rewrite deref_block, Hi. Qed.

(** The tests pass, and give back what they allocated. *)
Theorem buffer_tests_pass h :
  allocation_is_sector_aligned h = (h, Ok tt) /\ zero_initialized h = (h, Ok tt) /\
  round_up_to_sector h = (h, Ok tt) /\ mutation_persists h = (h, Ok tt).
Proof.
  split_and!.
  - unfold allocation_is_sector_aligned. destruct (new_total 100 h ltac:(done)) as (b & Hn & Hf & Hp & Hl).
    unfold mbind, st_bind, lift. rewrite Hn, Hp, Hl. by apply drop_ok.
  - unfold zero_initialized. destruct (new_total SECTOR_SIZE h ltac:(done)) as (b & Hn & Hf & Hp & Hl).
    unfold mbind, st_bind, lift, get_state. rewrite Hn, deref_block by (by rewrite Hl). rewrite Hl. by apply drop_ok.
  - unfold round_up_to_sector. destruct (new_total (SECTOR_SIZE + 1) h ltac:(done)) as (b & Hn & Hf & Hp & Hl).
    unfold mbind, st_bind, lift. rewrite Hn, Hl. by apply drop_ok.
  - unfold mutation_persists. destruct (new_total SECTOR_SIZE h ltac:(done)) as (b & Hn & Hf & Hp & Hl).
    unfold mbind, st_bind, lift. rewrite Hn, Hl.
    rewrite (write_block _ _ _ _ _ Byte.x00) by (by rewrite ?Hl). rewrite (write_block _ _ _ _ _ Byte.x00) by (by rewrite ?Hl).
    rewrite (read_block _ _ _ _ Byte.xab) by (by rewrite ?Hl). cbn [assert_that].
    rewrite (read_block _ _ _ _ Byte.xcd) by (by rewrite ?Hl). by apply drop_ok.
Qed.
End buffer.

(** ** tests/wal_integration.rs *)

(** [format!("{prefix}{i}")] for [i] in [0..count]. *)
Definition numbered_text (prefix : string) (i : Z) : bytes := text (prefix ++ show_u64 i).
Definition payloads (prefix : string) (count : Z) : list bytes := numbered_text prefix <$> seqZ 0 count.

(** [records.iter().enumerate()] of the second test. *)
Fixpoint check_records (prefix : string) (i : Z) (records : list WalRecord) : bool :=
  match records with
  | [] => true
  | rec :: records =>
      (seq rec =? i + 1) && bool_decide (payload rec = numbered_text prefix i) && check_records prefix (i + 1) records
  end.

(** [windows(2)] of the third. *)
Fixpoint rising (records : list WalRecord) : bool :=
  match records with
  | a :: (b :: _) as records => (seq a <? seq b) && rising records
  | _ => true
  end.

Section log.
  Context (crc32 : bytes -> Z) (pwrite : bytes -> bytes -> Z -> bytes * Z) (fsync : bytes -> Z).

(** The block each test starts with: a fresh log, appends and a sync; its file. *)
Definition write_log (ps : list bytes) : outcome fuel_error (list Z * bytes) :=
  let '(w, r) := run_appends crc32 pwrite ps (WalWriter_open []) in
  seqs ← unwrap_result r;
  unwrap_result (sync fsync w).2;;
  Ok (seqs, file w).
Definition recover (f : bytes) : outcome fuel_error (list WalRecord) :=
  r ← replay_all crc32 (RecoveryScanner_open f); Ok r.1.

Definition append_and_recover_single_record : outcome fuel_error unit :=
  r ← write_log [text "hello"];
  let '(seqs, f) := r in
  assert_that (bool_decide (seqs = [1]));;
  records ← recover f;
  assert_that (length records =? 1)%nat;;
  assert_that (match records with rec :: _ => (seq rec =? 1) && bool_decide (payload rec = text "hello") | [] => false end).

Definition append_many_and_recover_all (count : Z) : outcome fuel_error unit :=
  r ← write_log (payloads "record-" count);
  records ← recover r.2;
  assert_that (len records =? count);;
  assert_that (check_records "record-" 0 records).

Definition crash_simulation_torn_tail_recovers_valid_prefix : outcome fuel_error unit :=
  r ← write_log (payloads "rec-" 100);
  let f := r.2 in
  let f := take (Z.to_nat (len f - 37)) f in
  records ← recover f;
  assert_that (0 <? len records);;
  assert_that (len records <=? 100);;
  assert_that (rising records).

Definition crash_simulation_bitflip_stops_replay : outcome fuel_error unit :=
  r ← write_log (payloads "rec-" 50);
  let f := r.2 in
  b ← index f 80;
  let f := <[80%nat := flip 0x01 b]> f in
  records ← recover f;
  assert_that (len records <? 50);;
  assert_that (0 <? len records).

(** *** Lemmas *)

(** The bytes of the log of some payloads, and whether each record but the last ends
    inside a sector. *)
Fixpoint log_size (ps : list bytes) : Z := match ps with [] => 0 | p :: ps => HEADER_SIZE + len p + log_size ps end.
Fixpoint inside (off : Z) (ps : list bytes) : bool :=
  match ps with
  | [] => true
  | p :: ps => let off := off + HEADER_SIZE + len p in
      (match ps with [] => true | _ => negb (off mod SECTOR_SIZE =? 0) end) && inside off ps
  end.
Definition short (p : bytes) : bool := len p <=? 64.
(** What the lemmas ask of a test's payloads, in a form that computes. *)
Definition plain (ps : list bytes) : bool := inside 0 ps && forallb short ps.

Lemma inside_sectors_inside off ps : inside off ps = true -> inside_sectors off ps.
Proof.
  revert off. induction ps as [|p ps IH]; intros off H; [done|]. cbn [inside inside_sectors] in *. apply andb_true_iff in H as [H Hi].
  split; [|by apply IH]. destruct ps as [|q ps]; [by left|]. right. apply negb_true_iff in H. by apply Z.eqb_neq in H.
Qed.

Lemma inside_take n off ps : inside off ps = true -> inside off (take n ps) = true.
Proof.
  revert n off. induction ps as [|p ps IH]; intros [|n] off H; try done. cbn [inside take] in *. apply andb_true_iff in H as [H Hi].
  rewrite IH by done. destruct ps as [|q ps]; [by destruct n|]. by destruct n; [|rewrite H].
Qed.

Lemma plain_take n ps : plain ps = true -> plain (take n ps) = true.
Proof.
  unfold plain. intros [Hi Hs]%andb_true_iff. rewrite inside_take by done. cbn [andb].
  rewrite <- (take_drop n ps), forallb_app in Hs. by apply andb_true_iff in Hs as [-> _].
Qed.

Lemma log_size_frames n ps : len (frames crc32 (numbered n ps)) = log_size ps.
Proof.
  revert n. induction ps as [|p ps IH]; intros n; [done|]. cbn [numbered log_size]. rewrite frames_cons, len_app, len_frame, IH. done.
Qed.

Lemma log_size_short ps : forallb short ps = true -> 0 <= log_size ps <= 80 * len ps.
Proof.
  induction ps as [|p ps IH]; [done|]. cbn [forallb log_size]. intros [Hp%Z.leb_le ?%IH]%andb_true_iff. rewrite len_cons.
  pose proof (len_nonneg p). unfold HEADER_SIZE. lia.
Qed.

Lemma payloads_take prefix m n : 0 <= m <= n -> payloads prefix m = take (Z.to_nat m) (payloads prefix n).
Proof.
  intros Hm. unfold payloads. rewrite <- fmap_take. f_equal. unfold seqZ. rewrite <- fmap_take. f_equal. rewrite take_seq. f_equal. lia.
Qed.

Lemma check_numbered prefix i n : check_records prefix i (numbered (i + 1) (numbered_text prefix <$> seqZ i (Z.of_nat n))) = true.
Proof.
  revert i. induction n as [|n IH]; intros i; [done|]. rewrite seqZ_cons by lia. cbn [fmap list_fmap numbered check_records seq payload].
  rewrite Z.eqb_refl, bool_decide_eq_true_2 by done. replace (Z.pred (Z.of_nat (S n))) with (Z.of_nat n) by lia. apply (IH (i + 1)).
Qed.

Lemma rising_numbered n ps : rising (numbered n ps) = true.
Proof.
  revert n. induction ps as [|p ps IH]; intros n; [done|]. specialize (IH (n + 1)). destruct ps as [|q ps]; [done|]. cbn [numbered rising] in *.
  rewrite IH. cbn [seq]. by rewrite (proj2 (Z.ltb_lt _ _)) by lia.
Qed.

Definition padding (ps : list bytes) : Z := next_multiple_of (log_size ps) SECTOR_SIZE - log_size ps.

Context `{!Crc32 crc32, !Pwrite pwrite} (Hwrite : forall f b off, exists f', pwrite f b off = (f', len b)) (Hsync : forall f, 0 <= fsync f).

Lemma short_fits ps : forallb short ps = true -> Forall payload_fits ps.
Proof.
  induction ps as [|p ps IH]; [done|]. cbn [forallb]. intros [Hp%Z.leb_le ?%IH]%andb_true_iff. constructor; [|done].
  unfold payload_fits, SECTOR_SIZE, HEADER_SIZE, STAGING_SIZE. lia.
Qed.

Lemma plain_valid ps : plain ps = true -> len ps <= 2 ^ 32 -> valid_log crc32 None (numbered 1 ps).
Proof.
  intros [_ Hs%short_fits]%andb_true_iff Hl. apply numbered_valid; [lia| |done|done]. unfold len in Hl. lia.
Qed.

Lemma write_log_plain ps : plain ps = true -> len ps <= 2 ^ 32 ->
  write_log ps = Ok (seq <$> numbered 1 ps, frames crc32 (numbered 1 ps) ++ zeros (padding ps)).
Proof.
  intros Hp Hl. pose proof Hp as [Hi Hs]%andb_true_iff. pose proof (log_size_short ps Hs) as Hsz. pose proof (log_size_frames 1 ps) as Hf.
  destruct (run_appends_file crc32 pwrite (WalWriter_open []) [] ps Hwrite open_log_inv (short_fits ps Hs) (inside_sectors_inside 0 ps Hi))
    as (w & Hrun & Hfile); cbn [next_seq WalWriter_open app] in *; [unfold is_u64; lia|lia|unfold len in Hl; lia|].
  unfold write_log. rewrite Hrun. cbn [unwrap_result mbind outcome_bind]. unfold sync, mbind, st_bind, get_state.
  rewrite (proj2 (Z.ltb_ge _ _)) by apply Hsync. cbn. unfold padding. by rewrite Hfile, Hf.
Qed.

Lemma recover_frames rs k : valid_log crc32 None rs -> recover (frames crc32 rs ++ zeros k) = Ok rs.
Proof. intros Hv. unfold recover. by rewrite replay_open by (done || apply stops_zeros). Qed.

(** A cut in the padding loses nothing. *)
Lemma recover_cut rs k n : valid_log crc32 None rs -> len (frames crc32 rs) <= n <= len (frames crc32 rs) + k ->
  recover (take (Z.to_nat n) (frames crc32 rs ++ zeros k)) = Ok rs.
Proof.
  intros Hv Hn. rewrite take_app_ge by (unfold len in Hn; lia). unfold zeros. rewrite take_replicate.
  replace (replicate _ Byte.x00) with (zeros (n - len (frames crc32 rs))); [by apply recover_frames|].
  unfold zeros. f_equal. unfold len in *. lia.
Qed.

Lemma plain_prefix prefix m n : plain (payloads prefix n) = true -> 0 <= m <= n -> plain (payloads prefix m) = true.
Proof. intros Hp Hm. rewrite (payloads_take prefix m n) by done. by apply plain_take. Qed.

Lemma len_payloads prefix n : 0 <= n -> len (payloads prefix n) = n.
Proof. intros Hn. unfold payloads, len. rewrite length_fmap, length_seqZ. lia. Qed.

(** The thousand records of the test could be 3682. *)
Lemma many_passes count : 0 <= count <= 3682 -> append_many_and_recover_all count = Ok tt.
Proof.
  intros Hc. assert (plain (payloads "record-" count) = true) as Hp.
  { apply (plain_prefix _ _ 3682); [vm_compute; reflexivity|done]. }
  assert (len (payloads "record-" count) = count) as Hl by (apply len_payloads; lia).
  unfold append_many_and_recover_all. rewrite write_log_plain by (done || lia). cbn [mbind outcome_bind snd].
  rewrite recover_frames by (apply plain_valid; (done || lia)). cbn [mbind outcome_bind].
  replace (len (numbered 1 _)) with count by (unfold len in *; by rewrite length_numbered).
  rewrite Z.eqb_refl. cbn [assert_that mbind outcome_bind]. unfold payloads.
  replace count with (Z.of_nat (Z.to_nat count)) by lia. by rewrite (check_numbered _ 0).
Qed.

Lemma cut_padding ps n seqs f : plain ps = true -> len ps <= 2 ^ 32 -> 0 <= n <= padding ps -> write_log ps = Ok (seqs, f) ->
  len f = log_size ps + padding ps /\ recover (take (Z.to_nat (len f - n)) f) = Ok (numbered 1 ps).
Proof.
  intros Hp Hl Hn. rewrite write_log_plain by done. intros [= <- <-].
  assert (len (frames crc32 (numbered 1 ps) ++ zeros (padding ps)) = log_size ps + padding ps) as ->.
  { rewrite len_app, len_zeros, log_size_frames. lia. }
  split; [done|]. apply recover_cut; [by apply plain_valid|]. rewrite log_size_frames. lia.
Qed.

Lemma recs_plain n : 0 <= n <= 100 -> plain (payloads "rec-" n) = true /\ len (payloads "rec-" n) = n.
Proof. intros Hn. split; [|apply len_payloads; lia]. apply (plain_prefix _ _ 100); [vm_compute; reflexivity|done]. Qed.

(** The cut of the torn tail is in the padding: every record comes back. *)
Theorem torn_tail_is_padding (f : bytes) (seqs : list Z) (Hf : write_log (payloads "rec-" 100) = Ok (seqs, f)) :
  len f = 4096 /\ log_size (payloads "rec-" 100) = 2190 /\
  recover (take (Z.to_nat (len f - 37)) f) = Ok (numbered 1 (payloads "rec-" 100)).
Proof.
  pose proof (recs_plain 100 ltac:(lia)) as Hr. destruct Hr as [Hp Hl].
  assert (log_size (payloads "rec-" 100) = 2190) as Hz by (vm_compute; reflexivity).
  assert (padding (payloads "rec-" 100) = 1906) as Hk by (vm_compute; reflexivity).
  destruct (cut_padding (payloads "rec-" 100) 37 seqs f Hp ltac:(lia) ltac:(lia) Hf) as [Hlen Hr].
  rewrite Hz, Hk in Hlen. exact (conj Hlen (conj Hz Hr)).
Qed.

Lemma torn_tail_passes : crash_simulation_torn_tail_recovers_valid_prefix = Ok tt.
Proof.
  assert (padding (payloads "rec-" 100) = 1906) as Hk by (vm_compute; reflexivity).
  pose proof (recs_plain 100 ltac:(lia)) as Hr. destruct Hr as [Hp Hl]. unfold crash_simulation_torn_tail_recovers_valid_prefix.
  revert Hk Hp Hl. generalize (payloads "rec-" 100). intros ps Hk Hp Hl.
  pose proof (write_log_plain ps Hp ltac:(lia)) as Hw. rewrite Hw. cbn [mbind outcome_bind snd].
  destruct (cut_padding ps 37 _ _ Hp ltac:(lia) ltac:(lia) Hw) as [_ ->]. cbn [mbind outcome_bind].
  replace (len (numbered 1 ps)) with 100 by (unfold len in *; by rewrite length_numbered). by rewrite rising_numbered.
Qed.

(** *** A flipped bit *)

Lemma flip_neq b : flip 0x01 b <> b.
Proof. by destruct b. Qed.

Lemma index_app {E} (a b : bytes) i : len a <= i -> index (E := E) (a ++ b) i = index b (i - len a).
Proof.
  intros Hi. unfold index. pose proof (len_nonneg a). rewrite !(proj2 (Z.leb_le _ _)) by lia.
  rewrite lookup_app_r by (unfold len in *; lia). by replace (Z.to_nat i - length a)%nat with (Z.to_nat (i - len a)) by (unfold len in *; lia).
Qed.

Lemma index_inside (l : bytes) i : 0 <= i < len l -> exists b, index (E := fuel_error) l i = Ok b.
Proof.
  intros Hi. unfold index. rewrite (proj2 (Z.leb_le _ _)) by lia. destruct (lookup_lt_is_Some_2 l (Z.to_nat i)) as [b ->]; [unfold len in Hi; lia|].
  by exists b.
Qed.

Context `{!Crc32Detects crc32}.

(** A flipped bit in the payload of record [length rs + 1]. *)
Lemma recover_flipped rs r after i b : valid_log crc32 None (rs ++ [r]) ->
  let at_ := len (frames crc32 rs) + i in
  HEADER_SIZE <= i < len (frame crc32 r) ->
  index (E := fuel_error) (frames crc32 rs ++ frame crc32 r ++ after) at_ = Ok b ->
  recover (<[Z.to_nat at_ := flip 0x01 b]> (frames crc32 rs ++ frame crc32 r ++ after)) = Ok rs.
Proof.
  intros Hv at_ Hi Hb. unfold at_ in *. rewrite index_app in Hb by (unfold HEADER_SIZE in Hi; lia).
  replace (len (frames crc32 rs) + i - len (frames crc32 rs)) with i in Hb by lia. unfold index in Hb.
  rewrite (proj2 (Z.leb_le 0 i)) in Hb by (unfold HEADER_SIZE in Hi; lia).
  destruct ((frame crc32 r ++ after) !! Z.to_nat i) as [x|] eqn:Hx; [|done]. injection Hb as ->.
  rewrite insert_app_r_alt by (unfold len, HEADER_SIZE in *; lia).
  replace (Z.to_nat (len (frames crc32 rs) + i) - length (frames crc32 rs))%nat with (Z.to_nat i) by (unfold len, HEADER_SIZE in *; lia).
  rewrite insert_take_drop by (by eapply lookup_lt_Some). unfold recover.
  rewrite (replay_corrupt crc32 rs r after (take (Z.to_nat i) (frame crc32 r ++ after)) b); [done|done| |apply not_eq_sym, flip_neq|].
  - by rewrite take_drop_middle.
  - right. apply lookup_lt_Some in Hx. unfold len, HEADER_SIZE in *. rewrite length_take. lia.
Qed.

Lemma bitflip_passes : crash_simulation_bitflip_stops_replay = Ok tt.
Proof.
  assert (numbered 1 (payloads "rec-" 50) =
    numbered 1 (payloads "rec-" 3) ++ mk_WalRecord 4 (numbered_text "rec-" 3) :: numbered 5 (drop 4 (payloads "rec-" 50))) as Hn
    by (vm_compute; reflexivity).
  assert (numbered 1 (payloads "rec-" 4) = numbered 1 (payloads "rec-" 3) ++ [mk_WalRecord 4 (numbered_text "rec-" 3)]) as H4
    by (vm_compute; reflexivity).
  assert (log_size (payloads "rec-" 3) = 63) as H63 by (vm_compute; reflexivity).
  assert (len (numbered_text "rec-" 3) = 5) as Hp3 by (vm_compute; reflexivity).
  pose proof (recs_plain 50 ltac:(lia)) as Hr. destruct Hr as [Hp Hl].
  pose proof (recs_plain 4 ltac:(lia)) as Hr. destruct Hr as [Hp4 Hl4].
  pose proof (len_payloads "rec-" 3 ltac:(lia)) as Hl3.
  unfold crash_simulation_bitflip_stops_replay. rewrite write_log_plain by (assumption || lia). cbn [mbind outcome_bind snd].
  pose proof (plain_valid _ Hp4 ltac:(lia)) as Hv. rewrite H4 in Hv. rewrite Hn. clear Hn H4 Hp Hl Hp4 Hl4.
  pose proof (log_size_frames 1 (payloads "rec-" 3)) as Hf. rewrite H63 in Hf. clear H63.
  assert (length (numbered 1 (payloads "rec-" 3)) = 3%nat) as Hlen by (rewrite length_numbered; unfold len in Hl3; lia).
  revert Hv Hf Hlen. generalize (numbered 1 (payloads "rec-" 3)) (padding (payloads "rec-" 50)) (numbered 5 (drop 4 (payloads "rec-" 50))).
  intros rs k rest Hv Hf Hlen. set (r := mk_WalRecord 4 (numbered_text "rec-" 3)) in *.
  assert (len (frame crc32 r) = 21) as Hr by (rewrite len_frame; cbn [payload r]; rewrite Hp3; reflexivity). clearbody r.
  rewrite frames_app, frames_cons, <- !app_assoc. pose proof (recover_flipped rs r (frames crc32 rest ++ zeros k) 17) as Hrec.
  rewrite Hf in Hrec. cbv zeta in Hrec. change (63 + 17) with 80 in Hrec. change 80%nat with (Z.to_nat 80).
  destruct (index_inside (frames crc32 rs ++ frame crc32 r ++ frames crc32 rest ++ zeros k) 80) as [b Hb].
  { rewrite !len_app, Hf, Hr. pose proof (len_nonneg (frames crc32 rest)). pose proof (len_nonneg (zeros k)). lia. }
  rewrite Hb. cbn [mbind outcome_bind]. rewrite (Hrec b Hv); [|rewrite Hr; by unfold HEADER_SIZE|exact Hb]. cbn [mbind outcome_bind].
  by rewrite (eq_refl : len rs = Z.of_nat (length rs)), Hlen.
Qed.

(** *** Past a sector boundary *)

Lemma run_appends_app ps qs w w1 w2 a b : run_appends crc32 pwrite ps w = (w1, Ok a) -> run_appends crc32 pwrite qs w1 = (w2, Ok b) ->
  run_appends crc32 pwrite (ps ++ qs) w = (w2, Ok (a ++ b)).
Proof.
  revert w a. induction ps as [|p ps IH]; intros w a Hp Hq; [by injection Hp as <- <-|]. cbn [app run_appends] in *.
  unfold mbind, st_bind in *. destruct (append crc32 pwrite p w) as [w' [s | e | |]]; try done.
  destruct (run_appends crc32 pwrite ps w') as [w3 [ss | e | |]] eqn:Hr; try done. injection Hp as -> <-. by rewrite (IH w' ss Hr Hq).
Qed.

Lemma numbered_app n ps qs : numbered n (ps ++ qs) = numbered n ps ++ numbered (n + len ps) qs.
Proof.
  revert n. induction ps as [|p ps IH]; intros n; [by rewrite Z.add_0_r|]. cbn [app numbered]. rewrite IH, len_cons. do 3 f_equal. lia.
Qed.

(** Every record ends inside a sector. *)
Fixpoint all_inside (off : Z) (ps : list bytes) : bool :=
  match ps with
  | [] => true
  | p :: ps => let off := off + HEADER_SIZE + len p in negb (off mod SECTOR_SIZE =? 0) && all_inside off ps
  end.

(** The log after a run that leaves its end inside a sector. *)
Lemma run_appends_log ps w L : log_inv w L -> forallb short ps = true -> all_inside (len L) ps = true ->
  len L + log_size ps < 2 ^ 64 -> 0 <= next_seq w -> next_seq w + len ps < 2 ^ 64 ->
  exists w', run_appends crc32 pwrite ps w = (w', Ok (seq <$> numbered (next_seq w) ps)) /\
    log_inv w' (L ++ frames crc32 (numbered (next_seq w) ps)) /\ next_seq w' = next_seq w + len ps.
Proof.
  revert w L. induction ps as [|p ps IH]; intros w L Hinv Hs Hi Hu Hn Hb.
  - exists w. change (frames crc32 (numbered (next_seq w) [])) with (@nil byte). rewrite app_nil_r, Z.add_0_r. done.
  - cbn [forallb all_inside log_size] in *. apply andb_true_iff in Hs as [Hp Hs], Hi as [Hm Hi].
    apply negb_true_iff, Z.eqb_neq in Hm. rewrite len_cons in Hb. pose proof (len_nonneg ps). pose proof (len_nonneg L).
    pose proof (log_size_short ps Hs). destruct (Hwrite (file w) (write_buf crc32 w p) (sector_offset w)) as [f Hf].
    set (fr := frame crc32 (mk_WalRecord (next_seq w) p)).
    assert (len (L ++ fr) = len L + HEADER_SIZE + len p) as Hl by (unfold fr; rewrite len_app, len_frame; cbn [payload]; lia).
    pose proof (len_nonneg p). apply Z.leb_le in Hp. destruct (append_log crc32 pwrite w L p f Hinv) as (Ha & Hinv' & Hn').
    1: { destruct Hinv as [_ ? _ _ _ _]. unfold SECTOR_SIZE, HEADER_SIZE, STAGING_SIZE in *. lia. }
    1: { fold fr. rewrite Hl. unfold is_u64, HEADER_SIZE in *. lia. }
    1: { unfold is_u64. lia. }
    1: { fold fr. by rewrite Hl. }
    1: { done. }
    fold fr in Hinv'. rewrite <- Hl in Hi.
    destruct (IH (moved_state crc32 w p f) (L ++ fr) Hinv' Hs Hi) as (w' & Hr & Hinv'' & Hn''); [lia..|].
    rewrite Hn' in Hr, Hinv'', Hn''. exists w'. cbn [run_appends numbered]. unfold mbind, st_bind in *. rewrite Ha, Hr.
    rewrite frames_cons, app_assoc. split_and!; [done|done|]. rewrite Hn'', len_cons. lia.
Qed.

(** An append from the start of the last sector of the file. *)
Lemma append_over w q : writer_wf w -> tail_offset w = 0 -> len (file w) = sector_offset w + SECTOR_SIZE -> short q = true ->
  exists w', append crc32 pwrite q w = (w', Ok (next_seq w)) /\ len (file w') = len (file w).
Proof.
  intros Hwf Ht Hl Hq%Z.leb_le. pose proof (len_nonneg q). pose proof (len_write_buf crc32 w q Hwf) as Hb. rewrite Ht in Hb.
  rewrite (next_multiple_of_unique _ SECTOR_SIZE SECTOR_SIZE) in Hb by (unfold HEADER_SIZE, SECTOR_SIZE; (lia || done)).
  destruct (Hwrite (file w) (write_buf crc32 w q) (sector_offset w)) as [f Hf]. exists (moved_state crc32 w q f).
  rewrite append_result by done. rewrite !(proj2 (Z.ltb_ge _ _)) by (unfold HEADER_SIZE, STAGING_SIZE; lia).
  cbv zeta. rewrite Hf, Z.eqb_refl, Hb. split; [done|]. cbn [file moved_state]. apply pwrite_full in Hf as ->.
  destruct Hwf as [[Hs _] _ _]. unfold write_at. unfold SECTOR_SIZE in *. rewrite !len_app, Hb, len_drop, Hl.
  rewrite take_app_le by (unfold len in Hl; lia). unfold len in *. rewrite length_take. lia.
Qed.

(** A run to a sector boundary: the writer is at the start of the last sector. *)
Lemma run_to_boundary ps p : forallb short (ps ++ [p]) = true -> all_inside 0 ps = true -> log_size (ps ++ [p]) mod SECTOR_SIZE = 0 ->
  len ps <= 2 ^ 32 ->
  exists w, run_appends crc32 pwrite (ps ++ [p]) (WalWriter_open []) = (w, Ok (seq <$> numbered 1 (ps ++ [p]))) /\
    writer_wf w /\ tail_offset w = 0 /\ len (file w) = sector_offset w + SECTOR_SIZE /\ len (file w) = log_size (ps ++ [p]) /\
    next_seq w = len ps + 2.
Proof.
  rewrite forallb_app. intros [Hs Hp]%andb_true_iff Hi Hm Hl. cbn [forallb] in Hp. rewrite andb_true_r in Hp.
  pose proof (log_size_short ps Hs). pose proof (len_nonneg ps).
  destruct (run_appends_log ps (WalWriter_open []) [] open_log_inv Hs Hi) as (w & Hr & Hinv & Hn);
    [rewrite len_nil; lia|done|change (next_seq _) with 1; lia|].
  cbn [next_seq WalWriter_open app] in *. set (L := frames crc32 (numbered 1 ps)) in *.
  destruct (Hwrite (file w) (write_buf crc32 w p) (sector_offset w)) as [f Hf].
  assert (L ++ frame crc32 (mk_WalRecord (next_seq w) p) = frames crc32 (numbered 1 (ps ++ [p]))) as HL.
  { rewrite numbered_app, frames_app, <- Hn. cbn [numbered]. unfold frames at 2. cbn. by rewrite app_nil_r. }
  assert (tail_offset w + HEADER_SIZE + len p <= STAGING_SIZE) as Hfit.
  { destruct Hinv as [_ ? _ _ _ _]. apply Z.leb_le in Hp. unfold SECTOR_SIZE, HEADER_SIZE, STAGING_SIZE in *. lia. }
  assert (forallb short (ps ++ [p]) = true) as Hs' by (rewrite forallb_app, Hs; cbn; by rewrite Hp).
  pose proof (log_size_short _ Hs') as Hsz. assert (len (ps ++ [p]) = len ps + 1) as Hlp by (by rewrite len_app).
  destruct (append_completes crc32 pwrite w L p f Hinv Hfit Hf) as [Ha Hfile].
  destruct (moved_offsets crc32 w L p f Hinv) as (Ho & Hom & Hsec & Htl & Hst & _); [rewrite HL, log_size_frames; unfold is_u64; lia|done|].
  rewrite HL, ?log_size_frames in *. rewrite Hm in Htl. rewrite next_multiple_of_exact in Hsec, Hfile by done.
  exists (moved_state crc32 w p f). split_and!.
  - rewrite numbered_app, fmap_app, <- Hn. eapply run_appends_app; [exact Hr|]. cbn [run_appends]. unfold mbind, st_bind. by rewrite Ha.
  - split; [done|by rewrite Htl|done].
  - done.
  - rewrite Hfile, Z.sub_diag, zeros_0, app_nil_r, log_size_frames. lia.
  - by rewrite Hfile, Z.sub_diag, zeros_0, app_nil_r, log_size_frames.
  - cbn [next_seq moved_state]. rewrite Hn, wrap64_small; [lia|unfold is_u64; lia].
Qed.

(** The record after one that ends on a boundary is written over it: every append
    succeeds, the file does not grow, and no scan gives back all of the records. *)
Theorem boundary_record_lost ps p q : forallb short (ps ++ [p]) = true -> short q = true -> all_inside 0 ps = true ->
  log_size (ps ++ [p]) mod SECTOR_SIZE = 0 -> len ps <= 2 ^ 32 ->
  exists f, write_log ((ps ++ [p]) ++ [q]) = Ok (seq <$> numbered 1 ((ps ++ [p]) ++ [q]), f) /\
    forall rs, recover f = Ok rs -> rs <> numbered 1 ((ps ++ [p]) ++ [q]).
Proof.
  intros Hs Hq Hi Hm Hl. destruct (run_to_boundary ps p Hs Hi Hm Hl) as (w & Hr & Hwf & Ht & Hsec & Hlen & Hn).
  destruct (append_over w q Hwf Ht Hsec Hq) as (w' & Ha & Hlen').
  assert (run_appends crc32 pwrite ((ps ++ [p]) ++ [q]) (WalWriter_open []) = (w', Ok (seq <$> numbered 1 ((ps ++ [p]) ++ [q])))) as Hrun.
  { rewrite (numbered_app 1 (ps ++ [p])), fmap_app. eapply run_appends_app; [exact Hr|]. cbn [run_appends]. unfold mbind, st_bind. rewrite Ha.
    cbn [numbered fmap list_fmap seq]. rewrite len_app, len_cons, len_nil, Hn. by replace (1 + (len ps + (1 + 0))) with (len ps + 2) by lia. }
  exists (file w'). split.
  - unfold write_log. rewrite Hrun. cbn [unwrap_result mbind outcome_bind]. unfold sync, mbind, st_bind, get_state.
    by rewrite (proj2 (Z.ltb_ge _ _)) by apply Hsync.
  - intros rs Hrs ->. destruct (split_log crc32 (S (length (file w'))) (file w') None) as (rs & rest & Hf & Hv & Hst); [lia|].
    unfold recover in Hrs. rewrite Hf, replay_open in Hrs by done. cbn [mbind outcome_bind fst] in Hrs. injection Hrs as ->.
    apply (f_equal len) in Hf. rewrite Hlen', Hlen, len_app, log_size_frames in Hf.
    assert (forall a b, log_size (a ++ b) = log_size a + log_size b) as Happ by (intros a; induction a as [|x a IH]; intros b; cbn; rewrite ?IH; lia).
    rewrite (Happ (ps ++ [p])) in Hf. cbn [log_size] in Hf. pose proof (len_nonneg rest). pose proof (len_nonneg q). unfold HEADER_SIZE in Hf. lia.
Qed.

Lemma check_records_numbered prefix i rs : check_records prefix i rs = true ->
  rs = numbered (i + 1) (numbered_text prefix <$> seqZ i (Z.of_nat (length rs))).
Proof.
  revert i. induction rs as [|[s p] rs IH]; intros i H; [done|]. cbn [check_records seq payload length] in *.
  apply andb_true_iff in H as [[Hs%Z.eqb_eq Hp%bool_decide_eq_true]%andb_true_iff H%IH]. rewrite seqZ_cons by lia.
  cbn [fmap list_fmap numbered]. replace (Z.pred (Z.of_nat (S (length rs)))) with (Z.of_nat (length rs)) by lia.
  rewrite Hs, Hp. f_equal. exact H.
Qed.

(** ** Theorems *)

(** The tests pass, the second one with any number of records up to 3682. *)
Theorem wal_tests_pass (count : Z) (Hc : 0 <= count <= 3682) :
  append_and_recover_single_record = Ok tt /\ append_many_and_recover_all count = Ok tt /\
  crash_simulation_torn_tail_recovers_valid_prefix = Ok tt /\ crash_simulation_bitflip_stops_replay = Ok tt.
Proof.
  split; [|split; [by apply many_passes|split; [apply torn_tail_passes|apply bitflip_passes]]].
  unfold append_and_recover_single_record. rewrite write_log_plain by (by vm_compute). cbn [mbind outcome_bind].
  rewrite recover_frames by (by apply plain_valid; vm_compute). done.
Qed.

(** With one record more the test fails, whatever the checksum is: record 3682 ends on a
    sector boundary, and the append after it, which succeeds, writes over the sector. *)
Theorem many_first_boundary : append_many_and_recover_all 3683 = Panic.
Proof.
  assert (payloads "record-" 3683 = (payloads "record-" 3681 ++ [numbered_text "record-" 3681]) ++ [numbered_text "record-" 3682]) as Hps
    by (vm_compute; reflexivity).
  destruct (boundary_record_lost (payloads "record-" 3681) (numbered_text "record-" 3681) (numbered_text "record-" 3682)) as (f & Hw & Hrec);
    [vm_compute; reflexivity..|vm_compute; discriminate|].
  unfold append_many_and_recover_all. rewrite <- Hps in Hw, Hrec. rewrite Hw. cbn [mbind outcome_bind snd].
  destruct (split_log crc32 (S (length f)) f None) as (rs & rest & -> & Hv & Hst); [lia|].
  assert (recover (frames crc32 rs ++ rest) = Ok rs) as Hr by (unfold recover; by rewrite replay_open).
  specialize (Hrec rs Hr). rewrite Hr. cbn [mbind outcome_bind].
  destruct (Z.eqb_spec (len rs) 3683) as [Hl|]; [|done]. cbn [assert_that mbind outcome_bind].
  destruct (check_records "record-" 0 rs) eqn:Hc; [|done]. apply check_records_numbered in Hc.
  destruct Hrec. rewrite Hc. unfold payloads. by rewrite (eq_refl : Z.of_nat (length rs) = len rs), Hl.
Qed.
End log.

(** ** With CRC-32, a bump allocator and writes that complete *)

Lemma codec_tests_pass_witness : roundtrip ieee = Ok tt /\ crc_detects_corruption ieee = Ok tt.
Proof. destruct (codec_tests_pass ieee) as (H1 & H2 & _). exact (conj H1 H2). Defined.

Lemma bump_finds h n : alloc_at (Allocator := bump) h (mk_Layout n SECTOR_SIZE) <> None.
Proof. done. Qed.

Lemma buffer_tests_pass_witness : mutation_persists (H := bump) ∅ = (∅, Ok tt).
Proof. destruct (buffer_tests_pass bump_finds ∅) as (_ & _ & _ & H). exact H. Defined.

Lemma pwrite_all_full f b off : exists f', pwrite_all f b off = (f', len b).
Proof. by eexists. Qed.

Lemma wal_tests_pass_witness : append_many_and_recover_all ieee pwrite_all (fun _ => 0) 1000 = Ok tt /\
  crash_simulation_bitflip_stops_replay ieee pwrite_all (fun _ => 0) = Ok tt.
Proof.
  assert (0 <= 1000 <= 3682) as Hc by lia.
  destruct (wal_tests_pass ieee pwrite_all (fun _ => 0) pwrite_all_full (fun _ => Z.le_refl 0) 1000 Hc) as (_ & H1 & _ & H2).
  exact (conj H1 H2).
Defined.

Lemma many_first_boundary_witness : append_many_and_recover_all ieee pwrite_all (fun _ => 0) 3683 = Panic.
Proof. exact (many_first_boundary ieee pwrite_all (fun _ => 0) pwrite_all_full (fun _ => Z.le_refl 0)). Defined.
