(* ===== verification/Bloom.v ===== *)
(** * The split-block Bloom filter (tier3_storage/src/bloom/filter.rs)

    [hash64], [BloomBuilder] and [BloomFilter], with the scalar probe and the
    AVX2 probe over a lane-wise model of the intrinsics.  The filter has no
    false negatives, and the two probes agree. *)

From S2P Require Import Prelude.
#[local] Open Scope Z_scope.

Definition BITS_PER_KEY : Z := 10.
Definition BYTES_PER_BLOCK : Z := 32.

Definition SALTS : list Z :=
  [0x47b6137b; 0x44974d91; 0x8824ad5b; 0xa2b7289d;
   0x705495c7; 0x2df1424b; 0x9efc4947; 0x5c6bfb31].

(** ** Hashing *)

(** The inner loop of [hash64]: [val |= (b as u64) << (i * 8)]. *)
Fixpoint chunk_val (chunk : bytes) (i val : Z) : Z :=
  match chunk with
  | [] => val
  | b :: chunk => chunk_val chunk (i + 1) (Z.lor val (Z.shiftl (byte.unsigned b) (i * 8)))
  end.

Definition hash_step (h : Z) (chunk : bytes) : Z :=
  let h := Z.lxor h (chunk_val chunk 0 0) in
  let h := wrap64 (h * 0x5bd1e9955bd1e995) in
  Z.lxor h (Z.shiftr h 47).

Definition hash64 (data : bytes) : Z := fold_left hash_step (chunks 8 data) 0xc6a4a7935bd1e995.

(** ** Building *)

Record BloomBuilder := mk_BloomBuilder { keys : list Z }.

Definition BloomBuilder_new : BloomBuilder := mk_BloomBuilder [].

Definition BloomBuilder_add (b : BloomBuilder) (key : bytes) : BloomBuilder :=
  mk_BloomBuilder (keys b ++ [hash64 key]).

(** One word of [insert_block]: set the bit the salt selects. *)
Definition insert_word {E} (h : Z) (i : Z) (block : bytes) : outcome E bytes :=
  salt ← index SALTS i;
  let rot := Z.shiftr (wrap32 (h * salt)) 27 in
  let bit_mask := Z.shiftl 1 rot in
  let byte_idx := i * 4 in
  word ← range block byte_idx (byte_idx + 4);
  let updated := Z.lor (from_le_bytes word) bit_mask in
  copy_from block byte_idx (byte_idx + 4) (to_le_bytes 4 updated).

Definition insert_block {E} (block : bytes) (h : Z) : outcome E bytes :=
  for_each (insert_word h) (seqZ 0 8) block.

Definition block_index (h num_blocks : Z) : Z := Z.shiftr h 32 mod num_blocks.

(** One turn of the loop of [build]. *)
Definition insert_hash {E} (num_blocks h : Z) (data : bytes) : outcome E bytes :=
  let block_offset := block_index h num_blocks * BYTES_PER_BLOCK in
  let h32 := wrap32 h in
  block ← range data block_offset (block_offset + BYTES_PER_BLOCK);
  block ← insert_block block h32;
  Ok (splice data block_offset block).

Definition build {E} (b : BloomBuilder) : outcome E bytes :=
  let n_keys := len (keys b) in
  if n_keys =? 0 then Ok [] else
  let num_blocks := Z.max ((n_keys * BITS_PER_KEY + 255) / 256) 1 in
  for_each (insert_hash num_blocks) (keys b) (zeros (num_blocks * BYTES_PER_BLOCK)).

(** ** Probing *)

Record BloomFilter := mk_BloomFilter { data : bytes; num_blocks : Z }.

Definition BloomFilter_new (data : bytes) : option BloomFilter :=
  if (len data =? 0) || negb (len data mod BYTES_PER_BLOCK =? 0) then None
  else Some (mk_BloomFilter data (len data / BYTES_PER_BLOCK)).

(** The loop of [contains_scalar] over the words left. *)
Fixpoint scalar_loop {E} (block : bytes) (h : Z) (idxs : list Z) : outcome E bool :=
  match idxs with
  | [] => Ok true
  | i :: idxs =>
      salt ← index SALTS i;
      let rot := Z.shiftr (wrap32 (h * salt)) 27 in
      let bit_mask := Z.shiftl 1 rot in
      let byte_idx := i * 4 in
      word ← range block byte_idx (byte_idx + 4);
      if negb (Z.land (from_le_bytes word) bit_mask =? bit_mask) then Ok false
      else scalar_loop block h idxs
  end.

Definition contains_scalar {E} (block : bytes) (h : Z) : outcome E bool :=
  scalar_loop block h (seqZ 0 8).

(** AVX2 registers as eight 32-bit lanes, and the intrinsics the code uses:
    [loadu] reads 32 bytes, [mullo] keeps the low half of each product, [sllv]
    shifts each lane by its own count and gives 0 past the width, and [testc]
    is the carry flag of VPTEST, set when [~a & b] is zero. *)
Module Avx.
Fixpoint lanes (n : nat) (b : bytes) : list Z :=
  match n with
  | O => []
  | S n => from_le_bytes (take 4 b) :: lanes n (drop 4 b)
  end.
Definition loadu_si256 {E} (b : bytes) : outcome E (list Z) :=
  if len b <? 32 then Ub else Ok (lanes 8 b).
Definition set1_epi32 (x : Z) : list Z := replicate 8 (wrap32 x).
Definition mullo_epi32 : list Z -> list Z -> list Z := zip_with (fun x y => wrap32 (x * y)).
Definition srli_epi32 (v : list Z) (k : Z) : list Z := (fun x => Z.shiftr x k) <$> v.
Definition sllv_epi32 : list Z -> list Z -> list Z :=
  zip_with (fun x k => if 32 <=? k then 0 else wrap32 (Z.shiftl x k)).
Definition testc_si256 (a b : list Z) : Z :=
  if forallb (fun z => z =? 0) (zip_with (fun x y => Z.land (Z.lxor x u32_max) y) a b)
  then 1 else 0.
End Avx.

Definition contains_avx2 {E} (block : bytes) (h : Z) : outcome E bool :=
  block_vec ← Avx.loadu_si256 block;
  let hash_vec := Avx.set1_epi32 h in
  let salts_vec := SALTS in
  let multiplied := Avx.mullo_epi32 hash_vec salts_vec in
  let shifted := Avx.srli_epi32 multiplied 27 in
  let ones := Avx.set1_epi32 1 in
  let mask := Avx.sllv_epi32 ones shifted in
  Ok (negb (Avx.testc_si256 block_vec mask =? 0)).

(** [contains]; [avx2] is what the CPU feature test answers. *)
Definition contains {E} (avx2 : bool) (f : BloomFilter) (key : bytes) : outcome E bool :=
  let h := hash64 key in
  let block_offset := block_index h (num_blocks f) * BYTES_PER_BLOCK in
  block ← range (data f) block_offset (block_offset + BYTES_PER_BLOCK);
  let h32 := wrap32 h in
  if avx2 then contains_avx2 block h32 else contains_scalar block h32.

(** * Lemmas *)

(** The bit a salt selects for a hash, and a block's words. *)
Definition mask (h salt : Z) : Z := Z.shiftl 1 (Z.shiftr (wrap32 (h * salt)) 27).
Definition has_mask (w m : Z) : Prop := Z.land w m = m.

(** Every word of the block has its bit for [h]. *)
Definition has_masks (ws ms : list Z) : bool :=
  forallb id (zip_with (fun w m => Z.land w m =? m) ws ms).
Definition block_has (block : bytes) (h : Z) : bool :=
  has_masks (Avx.lanes 8 block) (mask h <$> SALTS).

Lemma rot_bound h salt : 0 <= Z.shiftr (wrap32 (h * salt)) 27 < 32.
Proof.
  rewrite Z.shiftr_div_pow2 by lia. unfold wrap32.
  pose proof (Z.mod_pos_bound (h * salt) (2 ^ 32) ltac:(lia)).
  split; [apply Z.div_pos; lia | apply Z.div_lt_upper_bound; lia].
Qed.

Lemma mask_bound h salt : is_u32 (mask h salt).
Proof.
  unfold is_u32, mask. pose proof (rot_bound h salt).
  rewrite Z.shiftl_1_l. split; [apply Z.pow_nonneg; lia | apply Z.pow_lt_mono_r; lia].
Qed.

Lemma lor_u32 x y : is_u32 x -> is_u32 y -> is_u32 (Z.lor x y).
Proof.
  unfold is_u32. intros [Hx Hx'] [Hy Hy']. split; [by apply Z.lor_nonneg |].
  destruct (Z.eq_dec (Z.lor x y) 0) as [->|]; [lia |].
  apply Z.log2_lt_cancel. rewrite Z.log2_lor by done. change (Z.log2 (2 ^ 32)) with 32.
  destruct (Z.eq_dec x 0) as [->|], (Z.eq_dec y 0) as [->|]; simpl; try lia;
    repeat match goal with
    | |- context [Z.log2 ?z] =>
        lazymatch goal with
        | _ : Z.log2 z < 32 |- _ => fail
        | _ => assert (Z.log2 z < 32) by (apply Z.log2_lt_pow2; lia)
        end
    end; lia.
Qed.

Lemma has_mask_lor_l w m m' : has_mask w m -> has_mask (Z.lor w m') m.
Proof.
  unfold has_mask. intros H. apply Z.bits_inj'. intros n Hn.
  apply (f_equal (fun z => Z.testbit z n)) in H. rewrite !Z.land_spec, ?Z.lor_spec in *.
  destruct (Z.testbit w n), (Z.testbit m n); simpl in *; congruence || by rewrite ?andb_false_r.
Qed.

Lemma has_mask_lor_r w m : has_mask (Z.lor w m) m.
Proof.
  unfold has_mask. apply Z.bits_inj'. intros n Hn. rewrite Z.land_spec, Z.lor_spec.
  by destruct (Z.testbit w n), (Z.testbit m n).
Qed.

(** ** The loops over a block's words *)

(** A block at word [i]: [pre] is done, the words of [suf] are to come, one for
    each of the salts left. *)
Definition at_word (i : Z) (pre suf : bytes) (ss : list Z) : Prop :=
  len pre = 4 * i /\ len suf = 4 * len ss /\ 0 <= i /\ exists sp, SALTS = sp ++ ss /\ len sp = i.

Lemma at_word_salt {E} i pre suf s ss : at_word i pre suf (s :: ss) ->
  index (E := E) SALTS i = Ok s /\
  exists w suf', suf = w ++ suf' /\ len w = 4 /\ range (E := E) (pre ++ suf) (i * 4) (i * 4 + 4) = Ok w /\
    at_word (i + 1) (pre ++ w) suf' ss /\
    (forall v, len v = 4 -> at_word (i + 1) (pre ++ v) suf' ss /\
      copy_from (E := E) (pre ++ suf) (i * 4) (i * 4 + 4) v = Ok ((pre ++ v) ++ suf')).
Proof.
  intros (Hp & Hs & Hi & sp & Hsp & Hl). split.
  - apply index_ok; [done |]. rewrite Hsp, lookup_app_r by (unfold len in *; lia).
    replace (Z.to_nat i - length sp)%nat with 0%nat by (unfold len in *; lia). done.
  - rewrite len_cons in Hs.
    destruct (split_at suf 4) as (w & suf' & -> & Hw); [len_lia |].
    assert (Hat : forall v, len v = 4 -> at_word (i + 1) (pre ++ v) suf' ss).
    { intros v Hv. split_and!; [len_lia.. | exists (sp ++ [s])].
      rewrite <- app_assoc. split; [done | len_lia]. }
    exists w, suf'. split_and!; [done | done | | by apply Hat |].
    + rewrite range_ok by len_lia. f_equal. apply sub_app; lia.
    + intros v Hv. split; [by apply Hat |]. rewrite <- app_assoc. apply copy_from_app; lia.
Qed.

Lemma seqZ_cons' i n : 0 <= n -> seqZ i (n + 1) = i :: seqZ (i + 1) n.
Proof. intros. rewrite seqZ_cons by lia. do 2 f_equal; lia. Qed.

Lemma lanes_app n w suf : len w = 4 ->
  Avx.lanes (S n) (w ++ suf) = from_le_bytes w :: Avx.lanes n suf.
Proof.
  intros Hw. cbn [Avx.lanes]. rewrite take_app_length', drop_app_length' by (unfold len in *; lia).
  done.
Qed.

Lemma insert_word_at {E} h i pre suf s ss : at_word i pre suf (s :: ss) ->
  exists w suf' v, suf = w ++ suf' /\ len w = 4 /\ len v = 4 /\
    from_le_bytes v = Z.lor (from_le_bytes w) (mask h s) /\
    insert_word (E := E) h i (pre ++ suf) = Ok ((pre ++ v) ++ suf') /\
    at_word (i + 1) (pre ++ v) suf' ss.
Proof.
  intros Hat.
  destruct (at_word_salt (E := E) _ _ _ _ _ Hat) as (Hi & w & suf' & Hs & Hw & Hr & _ & Hcp).
  destruct (Hcp (to_le_bytes 4 (Z.lor (from_le_bytes w) (mask h s)))) as [Hat' Hc]; [apply len_le |].
  exists w, suf', (to_le_bytes 4 (Z.lor (from_le_bytes w) (mask h s))).
  split_and!; [done | done | apply len_le | | | done].
  - apply from_to_le. apply lor_u32; [by apply from_le_u32 | apply mask_bound].
  - unfold insert_word. rewrite Hi. cbn [mbind outcome_bind]. rewrite Hr. apply Hc.
Qed.

Lemma insert_loop {E} h i pre suf ss : at_word i pre suf ss ->
  exists suf', for_each (E := E) (insert_word h) (seqZ i (len ss)) (pre ++ suf) = Ok (pre ++ suf') /\
    len suf' = len suf /\
    Avx.lanes (length ss) suf' = zip_with Z.lor (Avx.lanes (length ss) suf) (mask h <$> ss).
Proof.
  revert i pre suf. induction ss as [|s ss IH]; intros i pre suf Hat.
  - exists suf. done.
  - destruct (insert_word_at (E := E) h _ _ _ _ _ Hat) as (w & suf' & v & -> & Hw & Hv & Hf & Hi & Hat').
    rewrite len_cons, Z.add_comm, seqZ_cons' by apply len_nonneg. cbn [for_each].
    rewrite Hi. cbn [mbind outcome_bind].
    destruct (IH (i + 1) (pre ++ v) suf' Hat') as (suf2 & Hrun & Hl & Hlan).
    exists (v ++ suf2). rewrite app_assoc. split_and!; [done | rewrite !len_app, Hl; lia |].
    cbn [length fmap list_fmap]. rewrite !lanes_app by done. cbn [zip_with].
    by rewrite Hlan, Hf.
Qed.

Lemma salts_at_start block : len block = 32 -> at_word 0 [] block SALTS.
Proof. intros H. split_and!; [done | by rewrite H | done | by exists []]. Qed.

(** [insert_block] ors the masks of the hash into the block's words. *)
Lemma insert_block_lanes {E} block h : len block = 32 ->
  exists block', insert_block (E := E) block h = Ok block' /\ len block' = 32 /\
    Avx.lanes 8 block' = zip_with Z.lor (Avx.lanes 8 block) (mask h <$> SALTS).
Proof.
  intros Hl. destruct (insert_loop (E := E) h 0 [] block SALTS (salts_at_start _ Hl))
    as (b' & Hrun & Hb & Hlan).
  exists b'. rewrite Hb. done.
Qed.

Lemma scalar_loop_lanes {E} h i pre suf ss : at_word i pre suf ss ->
  scalar_loop (E := E) (pre ++ suf) h (seqZ i (len ss)) =
  Ok (forallb id (zip_with (fun w m => Z.land w m =? m) (Avx.lanes (length ss) suf) (mask h <$> ss))).
Proof.
  revert i pre suf. induction ss as [|s ss IH]; intros i pre suf Hat; [done |].
  destruct (at_word_salt (E := E) _ _ _ _ _ Hat) as (Hi & w & suf' & -> & Hw & Hr & Hat' & _).
  rewrite len_cons, Z.add_comm, seqZ_cons' by apply len_nonneg. cbn [scalar_loop].
  rewrite Hi. cbn [mbind outcome_bind]. rewrite Hr. cbn [mbind outcome_bind]. fold (mask h s).
  cbn [length fmap list_fmap]. rewrite lanes_app by done. cbn [zip_with forallb]. unfold id at 1.
  destruct (Z.land (from_le_bytes w) (mask h s) =? mask h s); [| done]. cbn [negb andb].
  rewrite app_assoc. by rewrite IH.
Qed.

Lemma contains_scalar_lanes {E} block h : len block = 32 ->
  contains_scalar (E := E) block h = Ok (block_has block h).
Proof. intros Hl. apply (scalar_loop_lanes h 0 [] block SALTS (salts_at_start _ Hl)). Qed.

(** ** The AVX2 probe *)

Lemma testbit_u32_max n : 0 <= n -> Z.testbit u32_max n = (n <? 32).
Proof. intros. change u32_max with (Z.ones 32). apply Z.testbit_ones_nonneg; lia. Qed.

Lemma u32_high_bit m n : is_u32 m -> 32 <= n -> Z.testbit m n = false.
Proof.
  intros [Hm Hm'] Hn. destruct (Z.eq_dec m 0) as [-> | Hz]; [apply Z.bits_0 |].
  apply Z.bits_above_log2; [done |]. assert (Z.log2 m < 32) by (apply Z.log2_lt_pow2; lia). lia.
Qed.

(** One lane of [testc]: no bit of the mask is missing. *)
Lemma lane_test w m : is_u32 m ->
  (Z.land (Z.lxor w u32_max) m =? 0) = (Z.land w m =? m).
Proof.
  intros Hm. apply eq_true_iff_eq. rewrite !Z.eqb_eq. split; intros H; apply Z.bits_inj'; intros n Hn;
    apply (f_equal (fun z => Z.testbit z n)) in H;
    rewrite ?Z.land_spec, ?Z.lxor_spec, ?Z.bits_0, testbit_u32_max in * by done;
    (destruct (Z.ltb_spec n 32); [| rewrite (u32_high_bit m n) in * by done; by rewrite ?andb_false_r]);
    destruct (Z.testbit w n), (Z.testbit m n); done.
Qed.

Lemma avx_mask_loop h n ss : is_u32 h -> length ss = n ->
  Avx.sllv_epi32 (replicate n 1) (Avx.srli_epi32 (Avx.mullo_epi32 (replicate n h) ss) 27)
  = mask h <$> ss.
Proof.
  intros Hh <-. induction ss as [|s ss IH]; [done |].
  cbn [length replicate]. unfold Avx.mullo_epi32, Avx.srli_epi32, Avx.sllv_epi32 in *.
  cbn [zip_with fmap list_fmap]. pose proof (rot_bound h s) as Hr. pose proof (mask_bound h s) as Hm.
  destruct (Z.leb_spec 32 (Z.shiftr (wrap32 (h * s)) 27)); [lia |]. f_equal; [| apply IH].
  by apply Z.mod_small.
Qed.

Lemma testc_lanes ws ms : Forall is_u32 ms ->
  negb (Avx.testc_si256 ws ms =? 0) =
  forallb id (zip_with (fun w m => Z.land w m =? m) ws ms).
Proof.
  intros Hms. unfold Avx.testc_si256.
  enough (forallb (fun z => z =? 0) (zip_with (fun x y => Z.land (Z.lxor x u32_max) y) ws ms)
          = forallb id (zip_with (fun w m => Z.land w m =? m) ws ms)) as ->
    by (by destruct (forallb id _)).
  revert ws. induction Hms as [|m ms Hm _ IH]; intros [|w ws]; [done.. |].
  cbn [zip_with forallb]. by rewrite lane_test, IH.
Qed.

Lemma contains_avx2_lanes {E} block h : len block = 32 -> is_u32 h ->
  contains_avx2 (E := E) block h = Ok (block_has block h).
Proof.
  intros Hl Hh. unfold contains_avx2, Avx.loadu_si256. rewrite Hl. change (32 <? 32) with false.
  cbn [mbind outcome_bind].
  unfold Avx.set1_epi32. replace (wrap32 h) with h by (symmetry; by apply Z.mod_small).
  change (wrap32 1) with 1. rewrite avx_mask_loop by done.
  rewrite testc_lanes; [done |]. apply Forall_fmap, Forall_true. intros s. apply mask_bound.
Qed.


Lemma wrap32_u32 x : is_u32 (wrap32 x).
Proof. apply Z.mod_pos_bound. lia. Qed.

(** ** Building *)

Lemma has_masks_or_same ws ms : has_masks (zip_with Z.lor ws ms) ms = true.
Proof.
  revert ws. induction ms as [|m ms IH]; intros [|w ws]; [done.. |].
  unfold has_masks in *. cbn [zip_with forallb]. rewrite IH, andb_true_r. apply Z.eqb_eq.
  apply has_mask_lor_r.
Qed.

Lemma has_masks_or_keep ws ms ms' :
  has_masks ws ms = true -> has_masks (zip_with Z.lor ws ms') ms = true.
Proof.
  revert ws ms'. induction ms as [|m ms IH]; intros [|w ws] [|m' ms']; [done.. |].
  unfold has_masks in *. cbn [zip_with forallb]. rewrite !andb_true_iff. unfold id. rewrite !Z.eqb_eq.
  intros [Hw Hws]. split; [by apply has_mask_lor_l | by apply IH].
Qed.

Lemma insert_block_has {E} block h : len block = 32 ->
  exists block', insert_block (E := E) block h = Ok block' /\ len block' = 32 /\
    block_has block' h = true /\
    forall h', block_has block h' = true -> block_has block' h' = true.
Proof.
  intros Hl. destruct (insert_block_lanes (E := E) block h Hl) as (b' & Hi & Hb & Hlan).
  exists b'. unfold block_has. rewrite Hlan. split_and!; [done | done | apply has_masks_or_same |].
  intros h'. apply has_masks_or_keep.
Qed.

(** A hash's block of the filter, and the claim that it has the hash's bits. *)
Definition block_of (nb : Z) (data : bytes) (h : Z) : bytes :=
  sub data (block_index h nb * 32) (block_index h nb * 32 + 32).
Definition data_has (nb : Z) (data : bytes) (h : Z) : Prop :=
  block_has (block_of nb data h) (wrap32 h) = true.

Lemma block_in_data nb h : 0 < nb ->
  0 <= block_index h nb * 32 /\ block_index h nb * 32 + 32 <= nb * 32.
Proof. intros Hn. unfold block_index. pose proof (Z.mod_pos_bound (Z.shiftr h 32) nb Hn). lia. Qed.

Lemma block_range {E} nb data h : 0 < nb -> len data = nb * 32 ->
  range (E := E) data (block_index h nb * BYTES_PER_BLOCK)
    (block_index h nb * BYTES_PER_BLOCK + BYTES_PER_BLOCK) = Ok (block_of nb data h) /\
  len (block_of nb data h) = 32.
Proof.
  intros Hn Hl. change BYTES_PER_BLOCK with 32. pose proof (block_in_data nb h Hn).
  unfold block_of. rewrite range_ok, len_sub by lia. split; [done | lia].
Qed.

Lemma insert_hash_has {E} nb data h : 0 < nb -> len data = nb * 32 ->
  exists data', insert_hash (E := E) nb h data = Ok data' /\ len data' = nb * 32 /\
    data_has nb data' h /\ forall h', data_has nb data h' -> data_has nb data' h'.
Proof.
  intros Hn Hl. pose proof (block_in_data nb h Hn). unfold insert_hash.
  destruct (block_range (E := E) nb data h Hn Hl) as [-> Hb]. cbn [mbind outcome_bind].
  destruct (insert_block_has (E := E) _ (wrap32 h) Hb) as (b' & -> & Hb' & Hnew & Hold).
  cbn [mbind outcome_bind]. change BYTES_PER_BLOCK with 32.
  exists (splice data (block_index h nb * 32) b'). split_and!; [done | by rewrite len_splice by lia | |].
  - unfold data_has, block_of. by rewrite sub_splice_same by lia.
  - intros h' Hh'. pose proof (block_in_data nb h' Hn). unfold data_has, block_of in *.
    destruct (Z.eq_dec (block_index h' nb) (block_index h nb)) as [He | Hne].
    + rewrite He in *. rewrite sub_splice_same by lia. by apply Hold.
    + by rewrite sub_splice_disjoint by lia.
Qed.

Lemma insert_hashes_have {E} nb ks data : 0 < nb -> len data = nb * 32 ->
  exists data', for_each (E := E) (insert_hash nb) ks data = Ok data' /\ len data' = nb * 32 /\
    (forall h, data_has nb data h -> data_has nb data' h) /\ Forall (data_has nb data') ks.
Proof.
  intros Hn. revert data. induction ks as [|k ks IH]; intros data Hl; [by exists data |].
  cbn [for_each]. destruct (insert_hash_has (E := E) nb data k Hn Hl) as (d1 & -> & Hl1 & Hk & Hold).
  cbn [mbind outcome_bind]. destruct (IH d1 Hl1) as (d2 & -> & Hl2 & Hkeep & Hks).
  exists d2. split_and!; [done | done | auto | constructor; [by apply Hkeep | done]].
Qed.

(** Adding keys one by one, as [SSTableWriter] does. *)
Definition add_keys (ks : list bytes) : BloomBuilder := foldl BloomBuilder_add BloomBuilder_new ks.

Lemma add_keys_keys ks : keys (add_keys ks) = hash64 <$> ks.
Proof.
  unfold add_keys. enough (forall b, keys (foldl BloomBuilder_add b ks) = keys b ++ (hash64 <$> ks)) as H
    by (rewrite H; done).
  induction ks as [|k ks IH]; intros b; cbn; [by rewrite app_nil_r |].
  rewrite IH. cbn. by rewrite <- app_assoc.
Qed.

(** What a built filter promises. *)
Lemma filter_has_keys {E} ks : ks <> [] ->
  exists data f, build (E := E) (add_keys ks) = Ok data /\ 0 < len data /\ BloomFilter_new data = Some f /\
    (forall E' avx2 k, exists r, contains (E := E') avx2 f k = Ok r /\ (k ∈ ks -> r = true)).
Proof.
  intros Hne. unfold build. rewrite add_keys_keys, len_fmap.
  assert (0 < len ks) by (destruct ks; [done | len_lia]).
  destruct (Z.eqb_spec (len ks) 0); [lia |].
  set (nb := Z.max ((len ks * BITS_PER_KEY + 255) / 256) 1).
  assert (Hn : 0 < nb) by lia. change BYTES_PER_BLOCK with 32.
  destruct (insert_hashes_have (E := E) nb (hash64 <$> ks) (zeros (nb * 32)) Hn) as (d & -> & Hl & _ & Hks).
  { rewrite len_zeros. lia. }
  exists d, (mk_BloomFilter d nb). unfold BloomFilter_new. rewrite Hl. change BYTES_PER_BLOCK with 32.
  rewrite Z.mod_mul, Z.div_mul by lia. destruct (Z.eqb_spec (nb * 32) 0); [lia |].
  split_and!; [done | lia | done |]. intros E' avx2 k. unfold contains. cbn [num_blocks Bloom.data].
  destruct (block_range (E := E') nb d (hash64 k) Hn Hl) as [-> Hb]. cbn [mbind outcome_bind].
  exists (block_has (block_of nb d (hash64 k)) (wrap32 (hash64 k))). split.
  - destruct avx2; [apply contains_avx2_lanes | apply contains_scalar_lanes]; auto using wrap32_u32.
  - intros Hk. rewrite Forall_forall in Hks. apply Hks. by apply list_elem_of_fmap_2.
Qed.

(** Probing never leaves the filter's bytes, whatever they hold. *)
Lemma contains_ok {E} avx2 data f k : BloomFilter_new data = Some f ->
  exists r, contains (E := E) avx2 f k = Ok r.
Proof.
  unfold BloomFilter_new. destruct (Z.eqb_spec (len data) 0) as [|Hz]; [done |].
  destruct (Z.eqb_spec (len data mod BYTES_PER_BLOCK) 0) as [Hm |]; [| done]. cbn. intros [= <-].
  unfold contains. cbn [num_blocks Bloom.data]. pose proof (len_nonneg data).
  assert (len data = len data / BYTES_PER_BLOCK * 32 /\ 0 < len data / BYTES_PER_BLOCK) as [Hl Hn].
  { change BYTES_PER_BLOCK with 32 in *. pose proof (Z.div_mod (len data) 32). lia. }
  destruct (block_range (E := E) _ data (hash64 k) Hn Hl) as [-> Hb]. cbn [mbind outcome_bind].
  destruct avx2; [rewrite contains_avx2_lanes | rewrite contains_scalar_lanes];
    eauto using wrap32_u32.
Qed.

(** * Properties *)

(** C37: No false negatives: for any non-empty list of keys, [build] gives filter data that
    [BloomFilter::new] accepts, [contains] ends without a panic for every key, with the AVX2 probe
    as with the scalar one, and answers true for every key that was added. *)
Theorem bloom_no_false_negatives (ks : list bytes) (Hks : ks <> []) :
  exists data f, build (E := unit) (add_keys ks) = Ok data /\ BloomFilter_new data = Some f /\
    forall avx2 k, exists r, contains (E := unit) avx2 f k = Ok r /\ (k ∈ ks -> r = true).
Proof. destruct (filter_has_keys (E := unit) ks Hks) as (d & f & Hb & _ & Hf & Hc). eauto. Qed.

Lemma bloom_no_false_negatives_witness :
  [[Byte.x61]; [Byte.x62]] <> [] /\
  (exists data f, build (E := unit) (add_keys [[Byte.x61]; [Byte.x62]]) = Ok data /\ BloomFilter_new data = Some f /\
    forall avx2 k, exists r, contains (E := unit) avx2 f k = Ok r /\ (k ∈ [[Byte.x61]; [Byte.x62]] -> r = true)) /\
  match build (E := unit) (add_keys [[Byte.x61]; [Byte.x62]]) with
  | Ok data => match BloomFilter_new data with
    | Some f => contains (E := unit) true f [Byte.x63] = Ok false
    | None => False end
  | _ => False
  end.
Proof. split; [done |]. split; [by apply bloom_no_false_negatives | by vm_compute]. Defined.

(** C38: The AVX2 probe computes what the scalar probe computes, on every 32-byte block and every
    32-bit hash: the choice by CPU feature never changes an answer. *)
Theorem avx2_probe_is_scalar (block : bytes) (h : Z) (Hb : len block = 32) (Hh : is_u32 h) :
  contains_avx2 (E := unit) block h = contains_scalar (E := unit) block h.
Proof. by rewrite contains_avx2_lanes, contains_scalar_lanes. Qed.

Lemma avx2_probe_is_scalar_witness :
  len (replicate 32 Byte.xaa) = 32 /\ is_u32 12345 /\
  contains_avx2 (E := unit) (replicate 32 Byte.xaa) 12345 =
  contains_scalar (E := unit) (replicate 32 Byte.xaa) 12345.
Proof. split; [done |]. split; [done | by apply avx2_probe_is_scalar]. Defined.
