(* ===== verification/Block.v ===== *)
(** * Data blocks (tier3_storage/src/sstable/block.rs)

    [BlockBuilder] and [BlockIter]: the encoding of an entry, that iterating a
    block gives back the entries added to it, what [search] answers on a block
    sorted by key, and that no operation panics on any bytes. *)

From S2P Require Import Prelude.
#[local] Open Scope Z_scope.

Definition TARGET_BLOCK_SIZE : Z := 4096.
Definition TOMBSTONE_VAL_LEN : Z := u32_max.

(** Key, value ([None] is a tombstone), sequence number. *)
Definition entry : Type := bytes * option bytes * Z.
Definition ekey (e : entry) : bytes := e.1.1.
Definition eval (e : entry) : option bytes * Z := (e.1.2, e.2).

(** ** [BlockBuilder] *)

Record BlockBuilder := mk_BlockBuilder { buf : bytes; last_key : bytes }.

Definition BlockBuilder_new : BlockBuilder := mk_BlockBuilder [] [].

Definition BlockBuilder_add (b : BlockBuilder) (key : bytes) (value : option bytes) (seq : Z) : BlockBuilder :=
  let k_len := wrap32 (len key) in
  let v_len := match value with Some v => wrap32 (len v) | None => TOMBSTONE_VAL_LEN end in
  let buf := buf b ++ to_le_bytes 4 k_len in
  let buf := buf ++ to_le_bytes 4 v_len in
  let buf := buf ++ to_le_bytes 8 seq in
  let buf := buf ++ key in
  let buf := match value with Some v => buf ++ v | None => buf end in
  mk_BlockBuilder buf key.

Definition estimated_size (b : BlockBuilder) : Z := len (buf b).
Definition is_empty (b : BlockBuilder) : bool := len (buf b) =? 0.
Definition BlockBuilder_finish (b : BlockBuilder) : bytes * bytes := (buf b, last_key b).

(** ** [BlockIter] *)

Record BlockIter := mk_BlockIter { data : bytes; offset : Z }.

Definition BlockIter_new (data : bytes) : BlockIter := mk_BlockIter data 0.

Definition next_entry {E} : st BlockIter E (option entry) :=
  s ← get_state;
  let data := data s in
  let offset := offset s in
  if len data <? offset + 16 then mret None else
  k ← lift (range data offset (offset + 4));
  v ← lift (range data (offset + 4) (offset + 8));
  q ← lift (range data (offset + 8) (offset + 16));
  let k_len := from_le_bytes k in
  let v_len_raw := from_le_bytes v in
  let seq := from_le_bytes q in
  let total_val_len := if v_len_raw =? TOMBSTONE_VAL_LEN then 0 else v_len_raw in
  let total_len := 16 + k_len + total_val_len in
  if len data <? offset + total_len then mret None else
  key ← lift (range data (offset + 16) (offset + 16 + k_len));
  val ← (if v_len_raw =? TOMBSTONE_VAL_LEN then mret None
         else v ← lift (range data (offset + 16 + k_len) (offset + total_len)); mret (Some v));
  put_state (mk_BlockIter data (offset + total_len));;
  mret (Some (key, val, seq)).

(** The [while let] loop of [search]. *)
Fixpoint search_loop `{Fueled E} (fuel : nat) (target_key : bytes) : st BlockIter E (option (option bytes * Z)) :=
  match fuel with
  | O => throw out_of_fuel
  | S fuel =>
      e ← next_entry;
      match e with
      | None => mret None
      | Some (key, val, seq) =>
          if beqb key target_key then mret (Some (val, seq))
          else if bltb target_key key then mret None
          else search_loop fuel target_key
      end
  end.

(** An entry takes at least sixteen bytes, so a unit of fuel per byte is more
    than the loop can use. *)
Definition search `{Fueled E} (target_key : bytes) : st BlockIter E (option (option bytes * Z)) :=
  fun s => search_loop (S (length (data s))) target_key s.

(** ** Specification *)

(** What fits the length fields. *)
Definition entry_ok (e : entry) : Prop :=
  is_u32 (len (ekey e)) /\ is_u64 e.2 /\
  match e.1.2 with Some v => len v < TOMBSTONE_VAL_LEN | None => True end.

Definition enc_vlen (v : option bytes) : Z :=
  match v with Some v => wrap32 (len v) | None => TOMBSTONE_VAL_LEN end.

Definition enc_entry (e : entry) : bytes :=
  to_le_bytes 4 (wrap32 (len (ekey e))) ++ to_le_bytes 4 (enc_vlen e.1.2) ++
  to_le_bytes 8 e.2 ++ ekey e ++ default [] e.1.2.

Definition enc_block (es : list entry) : bytes := concat (enc_entry <$> es).

Definition add_entry (b : BlockBuilder) (e : entry) : BlockBuilder :=
  BlockBuilder_add b (ekey e) e.1.2 e.2.

(** What a scan for a key that stops at the first key not below it finds. *)
Fixpoint search_entries (es : list entry) (key : bytes) : option (option bytes * Z) :=
  match es with
  | [] => None
  | e :: es =>
      if beqb (ekey e) key then Some (eval e)
      else if bltb key (ekey e) then None
      else search_entries es key
  end.

(** The first entry of a key. *)
Definition lookup_entries (es : list entry) (key : bytes) : option (option bytes * Z) :=
  eval <$> head (filter (fun e => ekey e = key) es).

Definition sorted_keys (es : list entry) : Prop := StronglySorted ble (ekey <$> es).
Definition strictly_sorted (es : list entry) : Prop := StronglySorted blt (ekey <$> es).

(** * Lemmas *)

Lemma add_entry_buf b e : buf (add_entry b e) = buf b ++ enc_entry e.
Proof.
  destruct e as [[k v] q]. unfold add_entry, BlockBuilder_add, enc_entry, ekey.
  destruct v; cbn [buf fst snd enc_vlen default]; by rewrite <- !app_assoc, ?app_nil_r.
Qed.

Lemma add_entry_last_key b e : last_key (add_entry b e) = ekey e.
Proof. done. Qed.

Lemma enc_block_app es es' : enc_block (es ++ es') = enc_block es ++ enc_block es'.
Proof. unfold enc_block. by rewrite fmap_app, concat_app. Qed.
Lemma enc_block_cons e es : enc_block (e :: es) = enc_entry e ++ enc_block es.
Proof. done. Qed.

Lemma len_enc_entry e : len (enc_entry e) = 16 + len (ekey e) + len (default [] e.1.2).
Proof. unfold enc_entry. len_lia. Qed.

Lemma enc_vlen_tombstone e : entry_ok e ->
  from_le_bytes (to_le_bytes 4 (enc_vlen e.1.2)) = enc_vlen e.1.2 /\
  (enc_vlen e.1.2 =? TOMBSTONE_VAL_LEN) = (match e.1.2 with None => true | _ => false end) /\
  (if enc_vlen e.1.2 =? TOMBSTONE_VAL_LEN then 0 else enc_vlen e.1.2) = len (default [] e.1.2).
Proof.
  intros (_ & _ & Hv). destruct e as [[k [v |]] q]; cbn [fst snd enc_vlen default] in *; [| done].
  unfold TOMBSTONE_VAL_LEN, u32_max in *. pose proof (len_nonneg v).
  rewrite wrap32_small by (unfold is_u32; lia). rewrite from_to_le by lia.
  destruct (Z.eqb_spec (len v) (2 ^ 32 - 1)); [lia | done].
Qed.

(** The bytes of an entry are read back, wherever they stand. *)
Lemma next_entry_enc {E} pre e rest : entry_ok e ->
  next_entry (E := E) (mk_BlockIter (pre ++ enc_entry e ++ rest) (len pre)) =
  (mk_BlockIter (pre ++ enc_entry e ++ rest) (len (pre ++ enc_entry e)), Ok (Some e)).
Proof.
  intros He. pose proof He as (Hk & Hq & _). destruct (enc_vlen_tombstone e He) as (Hv & Ht & Hl).
  assert (Hlen : len (pre ++ enc_entry e ++ rest) =
    len pre + 16 + len (ekey e) + len (default [] e.1.2) + len rest) by
    (rewrite !len_app, len_enc_entry; lia).
  set (d := pre ++ enc_entry e ++ rest) in *.
  assert (Hd : d = pre ++ to_le_bytes 4 (len (ekey e)) ++ to_le_bytes 4 (enc_vlen e.1.2) ++
    to_le_bytes 8 e.2 ++ ekey e ++ default [] e.1.2 ++ rest).
  { unfold d, enc_entry. rewrite wrap32_small by done. by rewrite <- !app_assoc. }
  rewrite (len_app pre), len_enc_entry. clearbody d.
  unfold next_entry, mbind, st_bind, get_state, lift, put_state. cbn [data offset].
  pose proof (len_nonneg pre). pose proof (len_nonneg (ekey e)).
  pose proof (len_nonneg (default [] e.1.2)). pose proof (len_nonneg rest).
  destruct (Z.ltb_spec (len d) (len pre + 16)); [lia |].
  rewrite (range_at pre (to_le_bytes 4 (len (ekey e))) (to_le_bytes 4 (enc_vlen e.1.2) ++
    to_le_bytes 8 e.2 ++ ekey e ++ default [] e.1.2 ++ rest)) by (done || len_lia).
  rewrite (range_at (pre ++ to_le_bytes 4 (len (ekey e))) (to_le_bytes 4 (enc_vlen e.1.2))
    (to_le_bytes 8 e.2 ++ ekey e ++ default [] e.1.2 ++ rest)) by (rewrite <- ?app_assoc; done || len_lia).
  rewrite (range_at (pre ++ to_le_bytes 4 (len (ekey e)) ++ to_le_bytes 4 (enc_vlen e.1.2))
    (to_le_bytes 8 e.2) (ekey e ++ default [] e.1.2 ++ rest)) by (rewrite <- ?app_assoc; done || len_lia).
  rewrite (from_to_le 4 (len (ekey e))) by done. rewrite (from_to_le 8) by done. rewrite Hv, Hl.
  destruct (Z.ltb_spec (len d) (len pre + (16 + len (ekey e) + len (default [] e.1.2)))); [lia |].
  set (h := pre ++ to_le_bytes 4 (len (ekey e)) ++ to_le_bytes 4 (enc_vlen e.1.2) ++ to_le_bytes 8 e.2).
  assert (len h = len pre + 16) as Hh by (unfold h; len_lia).
  rewrite (range_at h (ekey e) (default [] e.1.2 ++ rest)) by (first [lia | unfold h; by rewrite <- ?app_assoc]).
  rewrite Ht. destruct e as [[k [v |]] q]; cbn [ekey fst snd default id] in *.
  - rewrite (range_at (h ++ k) v rest) by (first [rewrite ?len_app; lia | unfold h; by rewrite <- ?app_assoc]).
    unfold mret, st_ret. by repeat f_equal; lia.
  - unfold mret, st_ret. by repeat f_equal; lia.
Qed.

Lemma next_entry_short {E} d o : len d < o + 16 ->
  next_entry (E := E) (mk_BlockIter d o) = (mk_BlockIter d o, Ok None).
Proof.
  intros H. unfold next_entry, mbind, st_bind, get_state. cbn [data offset].
  destruct (Z.ltb_spec (len d) (o + 16)); [done | lia].
Qed.

(** Any bytes: either an entry's encoding comes next, and is read, or there is
    none and the iterator stays where it is. *)
Lemma next_entry_cases {E} pre rest :
  (exists e rest', rest = enc_entry e ++ rest' /\ entry_ok e /\
     next_entry (E := E) (mk_BlockIter (pre ++ rest) (len pre)) =
     (mk_BlockIter (pre ++ rest) (len (pre ++ enc_entry e)), Ok (Some e))) \/
  next_entry (E := E) (mk_BlockIter (pre ++ rest) (len pre)) =
    (mk_BlockIter (pre ++ rest) (len pre), Ok None).
Proof.
  destruct (Z.ltb_spec (len rest) 16) as [Hs | Hs].
  { right. apply next_entry_short. rewrite len_app. lia. }
  destruct (split_at rest 4) as (k & r1 & -> & Hk); [lia |]. rewrite len_app in Hs.
  destruct (split_at r1 4) as (v & r2 & -> & Hv); [lia |]. rewrite len_app in Hs.
  destruct (split_at r2 8) as (q & r3 & -> & Hq); [lia |].
  pose proof (from_le_u32 k Hk) as Hkb. pose proof (from_le_u32 v Hv) as Hvb.
  pose proof (from_le_u64 q Hq) as Hqb. unfold is_u32 in *.
  set (vl := if from_le_bytes v =? TOMBSTONE_VAL_LEN then 0 else from_le_bytes v).
  assert (Hvl : 0 <= vl) by (unfold vl; destruct (_ =? _); lia).
  destruct (Z.ltb_spec (len r3) (from_le_bytes k + vl)) as [Hs2 | Hs2].
  - right. unfold next_entry, mbind, st_bind, get_state, lift. cbn [data offset].
    destruct (Z.ltb_spec (len (pre ++ k ++ v ++ q ++ r3)) (len pre + 16)); [len_lia |].
    rewrite (range_at pre k (v ++ q ++ r3)) by (done || lia).
    rewrite (range_at (pre ++ k) v (q ++ r3)) by (rewrite <- ?app_assoc; done || len_lia).
    rewrite (range_at (pre ++ k ++ v) q r3) by (rewrite <- ?app_assoc; done || len_lia).
    fold vl. destruct (Z.ltb_spec (len (pre ++ k ++ v ++ q ++ r3)) (len pre + (16 + from_le_bytes k + vl)));
      [done | len_lia].
  - left. destruct (split_at r3 (from_le_bytes k)) as (key & r4 & -> & Hkey); [lia |].
    rewrite len_app in Hs2. destruct (split_at r4 vl) as (val & rest' & -> & Hval); [lia |].
    set (e := (key, if from_le_bytes v =? TOMBSTONE_VAL_LEN then None else Some val, from_le_bytes q) : entry).
    assert (He : entry_ok e /\ k ++ v ++ q ++ key ++ val ++ rest' = enc_entry e ++ rest').
    { unfold entry_ok, enc_entry, e, ekey. cbn [fst snd]. rewrite Hkey, wrap32_small by done.
      rewrite !to_from_le by done. unfold vl in *. destruct (Z.eqb_spec (from_le_bytes v) TOMBSTONE_VAL_LEN) as [Ht | Ht].
      - apply len_zero_nil in Hval as ->. cbn [enc_vlen default]. rewrite <- Ht, to_from_le by done.
        rewrite <- !app_assoc. done.
      - cbn [enc_vlen default id]. rewrite Hval, wrap32_small, to_from_le by done. rewrite <- !app_assoc.
        unfold TOMBSTONE_VAL_LEN, u32_max in *. split_and!; try done; unfold is_u32, is_u64 in *; lia. }
    destruct He as [He ->]. exists e, rest'. split_and!; [done | done |]. by apply next_entry_enc.
Qed.

(** Reading a block written entry by entry: the iterator sits between them. *)
Lemma next_entry_block {E} es1 e es2 : entry_ok e ->
  next_entry (E := E) (mk_BlockIter (enc_block (es1 ++ e :: es2)) (len (enc_block es1))) =
  (mk_BlockIter (enc_block (es1 ++ e :: es2)) (len (enc_block (es1 ++ [e]))), Ok (Some e)).
Proof.
  intros He. rewrite !enc_block_app, !enc_block_cons. unfold enc_block at 6. cbn [concat fmap list_fmap].
  rewrite app_nil_r. by apply next_entry_enc.
Qed.

Lemma next_entry_block_end {E} es :
  next_entry (E := E) (mk_BlockIter (enc_block es) (len (enc_block es))) =
  (mk_BlockIter (enc_block es) (len (enc_block es)), Ok None).
Proof. apply next_entry_short. lia. Qed.

(** The blocks' bytes bound the number of their entries. *)
Lemma enc_block_length es : (length es <= length (enc_block es))%nat.
Proof.
  induction es as [|e es IH]; [done |]. rewrite enc_block_cons, length_app. cbn [length].
  pose proof (len_enc_entry e). unfold len in *. lia.
Qed.

Lemma search_loop_block `{Fueled E} fuel key es1 es2 : Forall entry_ok es2 -> (length es2 < fuel)%nat ->
  (search_loop (E := E) fuel key (mk_BlockIter (enc_block (es1 ++ es2)) (len (enc_block es1)))).2 =
  Ok (search_entries es2 key).
Proof.
  revert fuel es1. induction es2 as [|e es2 IH]; intros fuel es1 Hok Hf;
    (destruct fuel as [|fuel]; [cbn in Hf; lia |]); cbn [search_loop].
  - rewrite app_nil_r. by rewrite (st_bind_Ok _ _ _ _ _ (next_entry_block_end _)).
  - apply Forall_cons in Hok as [He Hok].
    rewrite (st_bind_Ok _ _ _ _ _ (next_entry_block es1 e es2 He)). destruct e as [[k v] q].
    cbn [search_entries ekey fst snd]. destruct (beqb k key); [done |]. destruct (bltb key k); [done |].
    change ((k, v, q) :: es2) with ([(k, v, q)] ++ es2). rewrite app_assoc.
    apply IH; [done | cbn in Hf; lia].
Qed.

Lemma search_block `{Fueled E} key es : Forall entry_ok es ->
  (search (E := E) key (BlockIter_new (enc_block es))).2 = Ok (search_entries es key).
Proof.
  intros Hok. apply (search_loop_block _ key [] es Hok). pose proof (enc_block_length es).
  unfold BlockIter_new. cbn. lia.
Qed.

Lemma search_loop_total `{Fueled E} fuel key pre rest : (length rest < fuel)%nat ->
  exists r, (search_loop (E := E) fuel key (mk_BlockIter (pre ++ rest) (len pre))).2 = Ok r.
Proof.
  revert pre rest. induction fuel as [|fuel IH]; intros pre rest Hf; [lia |]. cbn [search_loop].
  destruct (next_entry_cases (E := E) pre rest) as [(e & rest' & -> & _ & Hn) | Hn];
    rewrite (st_bind_Ok _ _ _ _ _ Hn); [| by eexists].
  destruct e as [[k v] q]. destruct (beqb k key); [by eexists |]. destruct (bltb key k); [by eexists |].
  rewrite app_assoc. apply IH. rewrite length_app in Hf. pose proof (len_enc_entry (k, v, q)).
  cbn [ekey fst snd] in *. len_facts. unfold len in *. lia.
Qed.

Lemma search_total `{Fueled E} key data :
  exists r, (search (E := E) key (BlockIter_new data)).2 = Ok r.
Proof. apply (search_loop_total _ key [] data). cbn. lia. Qed.

(** On a block sorted by key, stopping at the first larger key loses nothing. *)
Lemma lookup_entries_cons e es key :
  lookup_entries (e :: es) key = if decide (ekey e = key) then Some (eval e) else lookup_entries es key.
Proof. unfold lookup_entries. rewrite filter_cons. by case_decide. Qed.

Lemma lookup_entries_above es key : Forall (blt key) (ekey <$> es) -> lookup_entries es key = None.
Proof.
  induction es as [|e es IH]; [done |]. rewrite fmap_cons, Forall_cons. intros [He Hes].
  rewrite lookup_entries_cons. destruct (decide (ekey e = key)) as [<- |]; [by destruct (blt_irrefl (ekey e)) |].
  by apply IH.
Qed.

Lemma search_entries_sorted es key : sorted_keys es -> search_entries es key = lookup_entries es key.
Proof.
  unfold sorted_keys. induction es as [|e es IH]; [done |]. rewrite fmap_cons. intros Hs.
  apply StronglySorted_inv in Hs as [Hs Hall]. rewrite lookup_entries_cons. cbn [search_entries].
  destruct (beqb_spec (ekey e) key) as [-> | Hne]; [by rewrite decide_True |].
  rewrite decide_False by done. destruct (bltb_spec key (ekey e)) as [Hlt |]; [| by apply IH].
  symmetry. apply lookup_entries_above. eapply Forall_impl; [exact Hall |]. intros k Hk. eauto with keys.
Qed.

Lemma strictly_sorted_sorted es : strictly_sorted es -> sorted_keys es.
Proof.
  unfold strictly_sorted, sorted_keys. induction 1 as [|k ks Hs IH Hall]; constructor; [done |].
  eapply Forall_impl; [exact Hall |]. intros. by apply blt_ble.
Qed.

(** Iterating to the end, the way a client of [next_entry] does. *)
Fixpoint drain `{Fueled E} (fuel : nat) (out : list entry) : st BlockIter E (list entry) :=
  match fuel with
  | O => throw out_of_fuel
  | S fuel => e ← next_entry; match e with Some e => drain fuel (out ++ [e]) | None => mret out end
  end.

Lemma drain_block `{Fueled E} fuel es1 es2 : Forall entry_ok es2 -> (length es2 < fuel)%nat ->
  (drain (E := E) fuel es1 (mk_BlockIter (enc_block (es1 ++ es2)) (len (enc_block es1)))).2 = Ok (es1 ++ es2).
Proof.
  revert fuel es1. induction es2 as [|e es2 IH]; intros fuel es1 Hok Hf;
    (destruct fuel as [|fuel]; [cbn in Hf; lia |]); cbn [drain].
  - rewrite app_nil_r. by rewrite (st_bind_Ok _ _ _ _ _ (next_entry_block_end _)).
  - apply Forall_cons in Hok as [He Hok].
    rewrite (st_bind_Ok _ _ _ _ _ (next_entry_block es1 e es2 He)).
    change (e :: es2) with ([e] ++ es2). rewrite app_assoc. apply IH; [done | cbn in Hf; lia].
Qed.

Definition add_entries (es : list entry) : BlockBuilder := foldl add_entry BlockBuilder_new es.

Lemma add_entries_buf es : buf (add_entries es) = enc_block es.
Proof.
  unfold add_entries. enough (forall b, buf (foldl add_entry b es) = buf b ++ enc_block es) as -> by done.
  induction es as [|e es IH]; intros b; cbn [foldl]; [by rewrite app_nil_r |].
  by rewrite IH, add_entry_buf, enc_block_cons, app_assoc.
Qed.

(** * Properties *)

(** A block is read back as it was written: iterating over what the builder holds after any
    sequence of [add]s returns exactly the added entries in order, tombstones and empty keys and
    values included, and ends. *)
Theorem block_roundtrip (es : list entry) (Hok : Forall entry_ok es) :
  (drain (E := fuel_error) (S (length es)) []
     (BlockIter_new (BlockBuilder_finish (add_entries es)).1)).2 = Ok es.
Proof.
  unfold BlockBuilder_finish. cbn [fst]. rewrite add_entries_buf.
  apply (drain_block _ [] es Hok). lia.
Qed.

Lemma block_roundtrip_witness :
  let es := [([Byte.x61], Some [Byte.x01; Byte.x02], 7); ([Byte.x61], None, 6); ([], Some [], 2 ^ 64 - 1)] in
  Forall entry_ok es /\
  (drain (E := fuel_error) (S (length es)) []
     (BlockIter_new (BlockBuilder_finish (add_entries es)).1)).2 = Ok es.
Proof.
  intros es. assert (Forall entry_ok es) as Hok by (repeat constructor; vm_compute; congruence).
  split; [exact Hok | exact (block_roundtrip es Hok)].
Defined.

(** On a block whose entries are sorted by key, [search] answers with the first entry of the
    key (its value or tombstone, and its sequence number), and with [None] when the block has no
    entry for it. *)
Theorem block_search_finds_first (es : list entry) (key : bytes)
    (Hok : Forall entry_ok es) (Hs : sorted_keys es) :
  (search (E := fuel_error) key (BlockIter_new (enc_block es))).2 = Ok (lookup_entries es key).
Proof. by rewrite search_block, search_entries_sorted. Qed.

Lemma block_search_finds_first_witness :
  let es := [([Byte.x61], Some [Byte.x01], 7); ([Byte.x61], None, 6); ([Byte.x63], Some [], 9)] in
  (Forall entry_ok es /\ sorted_keys es) /\
  (search (E := fuel_error) [Byte.x61] (BlockIter_new (enc_block es))).2 = Ok (Some (Some [Byte.x01], 7)).
Proof.
  intros es. assert (Forall entry_ok es) as Hok by (repeat constructor; vm_compute; congruence).
  assert (sorted_keys es) as Hs by (repeat constructor; vm_compute; congruence).
  split; [by split | exact (block_search_finds_first es [Byte.x61] Hok Hs)].
Defined.

(** No bytes make the block reader fail: [search] ends with an answer on every block content,
    with every slice expression in bounds, and [next_entry] yields an entry exactly when the
    encoding of an entry stands at the iterator's position. *)
Theorem block_reader_total (pre rest key : bytes) :
  (exists r, (search (E := fuel_error) key (BlockIter_new rest)).2 = Ok r) /\
  (forall e, (next_entry (E := fuel_error) (mk_BlockIter (pre ++ rest) (len pre))).2 = Ok (Some e) <->
     entry_ok e /\ exists rest', rest = enc_entry e ++ rest') /\
  ((next_entry (E := fuel_error) (mk_BlockIter (pre ++ rest) (len pre))).2 = Ok None <->
     forall e rest', entry_ok e -> rest <> enc_entry e ++ rest').
Proof.
  split; [apply search_total |].
  assert (forall e r, rest = enc_entry e ++ r -> entry_ok e ->
    (next_entry (E := fuel_error) (mk_BlockIter (pre ++ rest) (len pre))).2 = Ok (Some e)) as Hfwd.
  { intros e r -> He. by rewrite next_entry_enc. }
  destruct (next_entry_cases (E := fuel_error) pre rest) as [(e & r & Hr & He & Hn) | Hn];
    rewrite Hn in *; cbn [snd] in *.
  - split; [intros e' | split; [done |]]; [split; [| intros [He' [r' Hr']]; eauto] |].
    + intros [= <-]. eauto.
    + intros Hno. by destruct (Hno e r He).
  - split; [intros e'; split; [done |] | split; [| done]].
    + intros [He' [r' Hr']]. by specialize (Hfwd _ _ Hr' He').
    + intros _ e' r' He' Hr'. by specialize (Hfwd _ _ Hr' He').
Qed.
