(* ===== verification/Footer.v ===== *)
(** * The SSTable footer (tier3_storage/src/sstable/footer.rs)

    [Footer::new], [encode] and [decode]: the round trip, what [decode]
    accepts, and which error it gives otherwise. *)

From S2P Require Import Prelude.
#[local] Open Scope Z_scope.

Definition FOOTER_SIZE : Z := 40.
Definition SSTABLE_MAGIC : Z := 0x53535441424C4531.

Record Footer := mk_Footer {
  index_offset : Z;
  index_len : Z;
  filter_offset : Z;
  filter_len : Z;
  magic : Z
}.

Definition Footer_new (index_offset index_len filter_offset filter_len : Z) : Footer :=
  mk_Footer index_offset index_len filter_offset filter_len SSTABLE_MAGIC.

(** [Footer::encode] into [out]. *)
Definition encode {E} (f : Footer) (out : bytes) : outcome E bytes :=
  if len out <? FOOTER_SIZE then Panic else
  out ← copy_from out 0 8 (to_le_bytes 8 (index_offset f));
  out ← copy_from out 8 16 (to_le_bytes 8 (index_len f));
  out ← copy_from out 16 24 (to_le_bytes 8 (filter_offset f));
  out ← copy_from out 24 32 (to_le_bytes 8 (filter_len f));
  copy_from out 32 40 (to_le_bytes 8 (magic f)).

Definition decode (buf : bytes) : outcome io_error Footer :=
  if len buf <? FOOTER_SIZE then Err UnexpectedEof else
  m ← range buf 32 40;
  let magic := from_le_bytes m in
  if negb (magic =? SSTABLE_MAGIC) then Err InvalidData else
  a ← range buf 0 8;
  b ← range buf 8 16;
  c ← range buf 16 24;
  d ← range buf 24 32;
  Ok (mk_Footer (from_le_bytes a) (from_le_bytes b) (from_le_bytes c) (from_le_bytes d) magic).

(** ** Lemmas *)

Definition footer_ok (f : Footer) : Prop :=
  is_u64 (index_offset f) /\ is_u64 (index_len f) /\ is_u64 (filter_offset f) /\
  is_u64 (filter_len f) /\ magic f = SSTABLE_MAGIC.

Definition enc_footer (f : Footer) : bytes :=
  to_le_bytes 8 (index_offset f) ++ to_le_bytes 8 (index_len f) ++
  to_le_bytes 8 (filter_offset f) ++ to_le_bytes 8 (filter_len f) ++ to_le_bytes 8 (magic f).

Lemma len_enc_footer f : len (enc_footer f) = FOOTER_SIZE.
Proof. unfold enc_footer, FOOTER_SIZE. len_lia. Qed.

(** Five eight-byte fields. *)
Lemma split_fields (b : bytes) : len b = FOOTER_SIZE ->
  exists a1 a2 a3 a4 a5, b = a1 ++ a2 ++ a3 ++ a4 ++ a5 /\
    len a1 = 8 /\ len a2 = 8 /\ len a3 = 8 /\ len a4 = 8 /\ len a5 = 8.
Proof.
  unfold FOOTER_SIZE. intros Hl.
  destruct (split_at b 8) as (a1 & r1 & -> & H1); [lia |]. rewrite len_app in Hl.
  destruct (split_at r1 8) as (a2 & r2 & -> & H2); [lia |]. rewrite len_app in Hl.
  destruct (split_at r2 8) as (a3 & r3 & -> & H3); [lia |]. rewrite len_app in Hl.
  destruct (split_at r3 8) as (a4 & a5 & -> & H4); [lia |]. rewrite len_app in Hl.
  exists a1, a2, a3, a4, a5. split_and!; done || lia.
Qed.

Lemma encode_ok {E} f (out : bytes) : FOOTER_SIZE <= len out ->
  exists b rest, out = b ++ rest /\ len b = FOOTER_SIZE /\ encode (E := E) f out = Ok (enc_footer f ++ rest).
Proof.
  intros Hl. destruct (split_at out FOOTER_SIZE) as (b & rest & -> & Hb); [unfold FOOTER_SIZE in *; lia |].
  exists b, rest. split_and!; [done | done |].
  destruct (split_fields b Hb) as (a1 & a2 & a3 & a4 & a5 & -> & H1 & H2 & H3 & H4 & H5).
  unfold encode, enc_footer. destruct (Z.ltb_spec (len ((a1 ++ a2 ++ a3 ++ a4 ++ a5) ++ rest)) FOOTER_SIZE); [lia |].
  rewrite <- !app_assoc.
  set (b1 := to_le_bytes 8 (index_offset f)). assert (len b1 = 8) by apply len_le.
  set (b2 := to_le_bytes 8 (index_len f)). assert (len b2 = 8) by apply len_le.
  set (b3 := to_le_bytes 8 (filter_offset f)). assert (len b3 = 8) by apply len_le.
  set (b4 := to_le_bytes 8 (filter_len f)). assert (len b4 = 8) by apply len_le.
  set (b5 := to_le_bytes 8 (magic f)). assert (len b5 = 8) by apply len_le.
  rewrite (copy_from_start a1) by lia. cbn [mbind outcome_bind].
  rewrite (copy_from_app b1 a2) by lia. cbn [mbind outcome_bind].
  rewrite (app_assoc b1), (copy_from_app (b1 ++ b2) a3) by len_lia. cbn [mbind outcome_bind].
  rewrite (app_assoc (b1 ++ b2)), (copy_from_app ((b1 ++ b2) ++ b3) a4) by len_lia. cbn [mbind outcome_bind].
  rewrite (app_assoc ((b1 ++ b2) ++ b3)), (copy_from_app (((b1 ++ b2) ++ b3) ++ b4) a5) by len_lia.
  by rewrite <- !app_assoc.
Qed.

(** [decode] by fields. *)
Lemma decode_fields a1 a2 a3 a4 a5 rest :
  len a1 = 8 -> len a2 = 8 -> len a3 = 8 -> len a4 = 8 -> len a5 = 8 ->
  decode (a1 ++ a2 ++ a3 ++ a4 ++ a5 ++ rest) =
  if from_le_bytes a5 =? SSTABLE_MAGIC
  then Ok (mk_Footer (from_le_bytes a1) (from_le_bytes a2) (from_le_bytes a3) (from_le_bytes a4) (from_le_bytes a5))
  else Err InvalidData.
Proof.
  intros H1 H2 H3 H4 H5. unfold decode.
  set (b := a1 ++ a2 ++ a3 ++ a4 ++ a5 ++ rest).
  destruct (Z.ltb_spec (len b) FOOTER_SIZE) as [Hl |]; [unfold b, FOOTER_SIZE in Hl; len_lia |].
  rewrite (range_at (a1 ++ a2 ++ a3 ++ a4) a5 rest b 32 40) by (unfold b; rewrite <- ?app_assoc; done || len_lia).
  cbn [mbind outcome_bind]. destruct (Z.eqb_spec (from_le_bytes a5) SSTABLE_MAGIC); [| done]. cbn [negb].
  rewrite (range_at [] a1 (a2 ++ a3 ++ a4 ++ a5 ++ rest) b 0 8) by (done || len_lia).
  cbn [mbind outcome_bind].
  rewrite (range_at a1 a2 (a3 ++ a4 ++ a5 ++ rest) b 8 16) by (done || len_lia).
  cbn [mbind outcome_bind].
  rewrite (range_at (a1 ++ a2) a3 (a4 ++ a5 ++ rest) b 16 24) by (unfold b; rewrite <- ?app_assoc; done || len_lia).
  cbn [mbind outcome_bind].
  by rewrite (range_at (a1 ++ a2 ++ a3) a4 (a5 ++ rest) b 24 32) by (unfold b; rewrite <- ?app_assoc; done || len_lia).
Qed.

Lemma decode_enc f rest : footer_ok f -> decode (enc_footer f ++ rest) = Ok f.
Proof.
  destruct f as [io il fo fl m]. intros (Ha & Hb & Hc & Hd & Hm). cbn in Hm, Ha, Hb, Hc, Hd. subst m.
  unfold enc_footer. rewrite <- !app_assoc. cbn [index_offset index_len filter_offset filter_len magic].
  rewrite decode_fields by apply len_le. by rewrite !from_to_le by done.
Qed.

(** * Properties *)

(** [decode] on any bytes: fewer than 40 are reported as an unexpected end of file, the first
    40 with another magic as invalid data, and a footer comes back exactly when the first 40 bytes
    are its encoding; there is no panic. *)
Theorem footer_decode_iff (b : bytes) :
  (decode b = Err UnexpectedEof <-> len b < FOOTER_SIZE) /\
  (forall f, decode b = Ok f <-> footer_ok f /\ exists rest, b = enc_footer f ++ rest) /\
  safe (decode b).
Proof.
  destruct (Z.ltb_spec (len b) FOOTER_SIZE) as [Hl | Hl].
  - assert (decode b = Err UnexpectedEof) as -> by (unfold decode; by rewrite (proj2 (Z.ltb_lt _ _))).
    split_and!; [done | | done]. intros f. split; [done |]. intros [_ [rest ->]].
    rewrite len_app, len_enc_footer in Hl. pose proof (len_nonneg rest). lia.
  - destruct (split_at b FOOTER_SIZE) as (h & rest & -> & Hh); [unfold FOOTER_SIZE in *; lia |].
    destruct (split_fields h Hh) as (a1 & a2 & a3 & a4 & a5 & -> & H1 & H2 & H3 & H4 & H5).
    pose proof (decode_fields a1 a2 a3 a4 a5 rest H1 H2 H3 H4 H5) as Hd. rewrite <- !app_assoc in *.
    rewrite Hd. clear Hd. split_and!; [| | by destruct (_ =? _)].
    { destruct (_ =? _); (split; [done |]); intros; unfold FOOTER_SIZE in *; len_lia. }
    intros f. split.
    + destruct (Z.eqb_spec (from_le_bytes a5) SSTABLE_MAGIC) as [Hm |]; [| done]. intros [= <-].
      split; [split_and!; by try apply from_le_u64 |]. exists rest. unfold enc_footer.
      cbn [index_offset index_len filter_offset filter_len magic].
      by rewrite <- !app_assoc, !to_from_le by done.
    + intros [Hf [rest' He]].
      rewrite <- (decode_fields a1 a2 a3 a4 a5 rest), He by done. by apply decode_enc.
Qed.

(** The footer [encode] writes into a buffer of at least 40 bytes is read back by [decode];
    [encode] panics exactly on a shorter buffer. *)
Theorem footer_roundtrip (f : Footer) (out : bytes) (Hf : footer_ok f) :
  match encode (E := unit) f out with
  | Ok out' => len out' = len out /\ decode out' = Ok f /\ sub out' 40 (len out) = sub out 40 (len out)
  | Panic => len out < FOOTER_SIZE
  | _ => False
  end.
Proof.
  destruct (Z.ltb_spec (len out) FOOTER_SIZE) as [Hl | Hl].
  - unfold encode. by rewrite (proj2 (Z.ltb_lt _ _)).
  - destruct (encode_ok (E := unit) f out Hl) as (b & rest & -> & Hb & ->).
    pose proof (len_enc_footer f) as He. unfold FOOTER_SIZE in *.
    split_and!; [len_lia | by apply decode_enc | by rewrite !sub_app_end by len_lia].
Qed.

Lemma footer_roundtrip_witness :
  footer_ok (Footer_new 4096 40 4136 32) /\
  match encode (E := unit) (Footer_new 4096 40 4136 32) (zeros 40) with
  | Ok out' => len out' = len (zeros 40) /\ decode out' = Ok (Footer_new 4096 40 4136 32) /\
      sub out' 40 (len (zeros 40)) = sub (zeros 40) 40 (len (zeros 40))
  | Panic => len (zeros 40) < FOOTER_SIZE
  | _ => False
  end.
Proof.
  assert (footer_ok (Footer_new 4096 40 4136 32)) as Hf by (repeat split; vm_compute; congruence).
  split; [exact Hf | exact (footer_roundtrip _ (zeros 40) Hf)].
Defined.
