(* ===== verification/BinarySearch.v ===== *)
(** * [slice::binary_search_by]

    What the standard library promises about [binary_search_by], as a class:
    on a slice sorted consistently with the comparator it answers [Ok] with the
    index of some match ("if there are multiple matches, then any one of the
    matches could be returned"), or [Err] with the insertion point.  The table
    reader and the level-1 lookup of the engine are verified against the class;
    the bisection below is an instance. *)

From S2P Require Import Prelude.

(** [inl i] is [Ok(i)], [inr i] is [Err(i)]. *)
Class BinarySearch := binary_search_by : forall A : Type, (A -> comparison) -> list A -> nat + nat.
Arguments binary_search_by {_ A} f l.

Definition rank (c : comparison) : nat := match c with Lt => 0 | Eq => 1 | Gt => 2 end.

Definition sorted_by {A} (f : A -> comparison) (l : list A) : Prop :=
  forall i j x y, i <= j -> l !! i = Some x -> l !! j = Some y -> rank (f x) <= rank (f y).

Definition search_post {A} (f : A -> comparison) (l : list A) (r : nat + nat) : Prop :=
  match r with
  | inl i => exists x, l !! i = Some x /\ f x = Eq
  | inr i => i <= length l /\ (forall j x, j < i -> l !! j = Some x -> f x = Lt) /\
             (forall j x, i <= j -> l !! j = Some x -> f x = Gt)
  end.

Class BinarySearchSpec (BS : BinarySearch) :=
  binary_search_spec : forall A (f : A -> comparison) (l : list A),
    sorted_by f l -> search_post f l (binary_search_by f l).

(** ** Bisection *)

(** Halve [size] while it is more than one, keeping the answer in
    [base .. base + size]. *)
Fixpoint bisect {A} (f : A -> comparison) (l : list A) (fuel size base : nat) : nat :=
  match fuel with
  | O => base
  | S fuel =>
      if size <=? 1 then base else
      let half := size / 2 in
      let mid := base + half in
      let base := match l !! mid with
                  | Some x => match f x with Gt => base | _ => mid end
                  | None => base
                  end in
      bisect f l fuel (size - half) base
  end.

Definition bisection {A} (f : A -> comparison) (l : list A) : nat + nat :=
  match l with
  | [] => inr 0
  | _ =>
      let base := bisect f l (length l) (length l) 0 in
      match l !! base with
      | Some x =>
          match f x with
          | Eq => inl base
          | Lt => inr (base + 1)
          | Gt => inr base
          end
      | None => inr base
      end
  end.

#[export] Instance rust_binary_search : BinarySearch := @bisection.

(** What the loop keeps: everything before [base] is at most a match, if
    [base] moved it is itself no [Gt], everything from [base + size] on is [Gt]. *)
Definition bisect_inv {A} (f : A -> comparison) (l : list A) (size base : nat) : Prop :=
  0 < size /\ base + size <= length l /\
  (base = 0 \/ exists x, l !! base = Some x /\ f x <> Gt) /\
  (forall j x, base + size <= j -> l !! j = Some x -> f x = Gt).

Lemma bisect_inv_ok {A} (f : A -> comparison) l fuel size base :
  sorted_by f l -> bisect_inv f l size base -> size <= S fuel ->
  bisect_inv f l 1 (bisect f l fuel size base).
Proof.
  intros Hs. revert size base. induction fuel as [|fuel IH]; intros size base Hinv Hf; cbn [bisect].
  { destruct Hinv as (H0 & ?). by replace size with 1 in * by lia. }
  destruct (Nat.leb_spec size 1) as [H1 | H1].
  { destruct Hinv as (H0 & ?). by replace size with 1 in * by lia. }
  assert (0 < size / 2 < size /\ 2 * (size / 2) <= size) as Hh.
  { split; [split; [apply Nat.div_str_pos; lia | apply Nat.div_lt; lia] | apply Nat.Div0.mul_div_le]. }
  set (half := size / 2) in *. destruct Hinv as (H0 & Hl & Hb & Hg).
  destruct (lookup_lt_is_Some_2 l (base + half)) as [y Hy]; [lia |]. rewrite Hy.
  destruct (f y) eqn:Hfy; apply IH; try lia; (split_and!; [lia | lia | |]);
    try (right; exists y; split; [done | congruence]);
    try (intros j x Hj Hx; apply (Hg j); [lia | done]); [done |].
  intros j x Hj Hx. assert (rank (f y) <= rank (f x)) as Hr by (eapply (Hs (base + half) j); [lia | done..]).
  rewrite Hfy in Hr. destruct (f x); cbn in Hr; done || lia.
Qed.

(** Positions before one that is not [Gt] are not [Gt], and so on. *)
Lemma sorted_by_Lt {A} (f : A -> comparison) l i j x y : sorted_by f l ->
  i <= j -> l !! i = Some x -> l !! j = Some y -> f y = Lt -> f x = Lt.
Proof.
  intros Hs Hij Hx Hy Hf. pose proof (Hs i j x y Hij Hx Hy) as Hr. rewrite Hf in Hr.
  destruct (f x); cbn in Hr; done || lia.
Qed.

Lemma sorted_by_Gt {A} (f : A -> comparison) l i j x y : sorted_by f l ->
  i <= j -> l !! i = Some x -> l !! j = Some y -> f x = Gt -> f y = Gt.
Proof.
  intros Hs Hij Hx Hy Hf. pose proof (Hs i j x y Hij Hx Hy) as Hr. rewrite Hf in Hr.
  destruct (f y); cbn in Hr; done || lia.
Qed.

#[export] Instance rust_binary_search_spec : BinarySearchSpec rust_binary_search.
Proof.
  intros A f l Hs. unfold binary_search_by, rust_binary_search, bisection.
  destruct l as [|x0 l0] eqn:Hl; [cbn; split; [done | split; intros; lia || done] |].
  rewrite <- Hl in *. assert (length l = S (length l0)) as Hlen by by rewrite Hl.
  destruct (bisect_inv_ok f l (length l) (length l) 0 Hs) as (_ & Hb & Hx & Hg); [| lia |].
  { split_and!; [lia | lia | by left |]. intros j x Hj Hx. apply lookup_lt_Some in Hx. lia. }
  set (base := bisect f l (length l) (length l) 0) in *.
  destruct (lookup_lt_is_Some_2 l base) as [y Hy]; [lia |]. rewrite Hy.
  destruct (f y) eqn:Hf; cbn.
  - eauto.
  - split_and!; [lia | | by apply Hg]. intros j x Hj Hjx. by apply (sorted_by_Lt f l j base x y Hs); [lia |..].
  - assert (base = 0) as Hz by (destruct Hx as [? | (z & Hz & Hfz)]; [done | congruence]).
    split_and!; [lia | lia |]. intros j x Hj Hjx. by apply (sorted_by_Gt f l base j y x Hs).
Qed.
