(* ===== verification/SSTable.v ===== *)
(** * The SSTable writer (tier3_storage/src/sstable/writer.rs)

    [SSTableWriter] over the interface of the file it writes; the layout of the
    finished table: data blocks, index, Bloom filter, footer; and that a run of
    [append]s followed by [finish] writes exactly that layout for a division of
    the entries into blocks. *)

From S2P Require Import Prelude Bloom Block Footer.
#[local] Open Scope Z_scope.

(** ** The file

    [write_all f d] is [File::write_all] on a file that holds [f], written from
    the start without seeking: the new contents, and the result.  [sync_all] is
    [File::sync_all], and [create_file] the result of [File::create]. *)
Class FileOps := {
  create_file : outcome io_error unit;
  write_all : bytes -> bytes -> bytes * outcome io_error unit;
  sync_all : bytes -> outcome io_error unit
}.

Class FileOpsSpec (F : FileOps) := {
  create_safe : safe create_file;
  write_all_Ok : forall f d f', write_all f d = (f', Ok tt) -> f' = f ++ d;
  write_all_safe : forall f d, safe (write_all f d).2;
  sync_all_safe : forall f, safe (sync_all f)
}.

(** A file system that does not fail. *)
#[export] Instance reliable_file : FileOps := {|
  create_file := Ok tt;
  write_all := fun f d => (f ++ d, Ok tt);
  sync_all := fun _ => Ok tt
|}.
#[export] Instance reliable_file_spec : FileOpsSpec reliable_file.
Proof. split; [done | by intros f d f' [= <-] | done | done]. Qed.

Record IndexEntry := mk_IndexEntry { ie_last_key : bytes; ie_offset : Z; ie_len : Z }.

Record SSTableWriter := mk_SSTableWriter {
  file : bytes;
  current_block : BlockBuilder;
  index_entries : list IndexEntry;
  bloom_builder : BloomBuilder;
  current_offset : Z
}.

(** [SSTableWriter::create] when [File::create] succeeds: the file exists and is
    empty. *)
Definition SSTableWriter_create : SSTableWriter :=
  mk_SSTableWriter [] BlockBuilder_new [] BloomBuilder_new 0.

Section writer.
  Context `{F : FileOps}.

(** [self.file.write_all(d)?]. *)
Definition write_file (d : bytes) : st SSTableWriter io_error unit := fun s =>
  let '(f, r) := write_all (file s) d in
  (mk_SSTableWriter f (current_block s) (index_entries s) (bloom_builder s) (current_offset s), r).

Definition flush_block : st SSTableWriter io_error unit :=
  s ← get_state;
  if is_empty (current_block s) then mret tt else
  let old_builder := current_block s in
  put_state (mk_SSTableWriter (file s) BlockBuilder_new (index_entries s) (bloom_builder s) (current_offset s));;
  let '(buf, last_key) := BlockBuilder_finish old_builder in
  let block_len := len buf in
  write_file buf;;
  s ← get_state;
  put_state (mk_SSTableWriter (file s) (current_block s)
         (index_entries s ++ [mk_IndexEntry last_key (current_offset s) block_len])
         (bloom_builder s) (wrap64 (current_offset s + block_len))).

Definition append (key : bytes) (value : option bytes) (seq : Z) : st SSTableWriter io_error unit :=
  s ← get_state;
  let bloom := BloomBuilder_add (bloom_builder s) key in
  let block := BlockBuilder_add (current_block s) key value seq in
  put_state (mk_SSTableWriter (file s) block (index_entries s) bloom (current_offset s));;
  if TARGET_BLOCK_SIZE <=? estimated_size block then flush_block else mret tt.

(** One turn of the index loop of [finish]. *)
Definition index_record (index_buf : bytes) (entry : IndexEntry) : bytes :=
  let k_len := wrap32 (len (ie_last_key entry)) in
  let index_buf := index_buf ++ to_le_bytes 4 k_len in
  let index_buf := index_buf ++ ie_last_key entry in
  let index_buf := index_buf ++ to_le_bytes 8 (ie_offset entry) in
  index_buf ++ to_le_bytes 8 (ie_len entry).

(** [self.current_offset += n]. *)
Definition advance (n : Z) : st SSTableWriter io_error unit :=
  s ← get_state;
  put_state (mk_SSTableWriter (file s) (current_block s) (index_entries s) (bloom_builder s)
         (wrap64 (current_offset s + n))).

Definition finish : st SSTableWriter io_error Z :=
  flush_block;;
  s ← get_state;
  let index_offset := current_offset s in
  let index_buf := foldl index_record [] (index_entries s) in
  write_file index_buf;;
  let index_len := len index_buf in
  advance index_len;;
  filter_data ← lift (build (bloom_builder s));
  s ← get_state;
  let filter_offset := current_offset s in
  let filter_len := len filter_data in
  (if 0 <? filter_len then write_file filter_data;; advance filter_len else mret tt);;
  let footer := Footer_new index_offset index_len filter_offset filter_len in
  footer_buf ← lift (encode footer (zeros FOOTER_SIZE));
  write_file footer_buf;;
  advance FOOTER_SIZE;;
  s ← get_state;
  lift (sync_all (file s));;
  mret (current_offset s).

(** The writer's clients: append entries in order, then finish. *)
Fixpoint append_all (es : list entry) : st SSTableWriter io_error unit :=
  match es with
  | [] => mret tt
  | e :: es => append (ekey e) e.1.2 e.2;; append_all es
  end.

Definition write_table (es : list entry) : st SSTableWriter io_error Z := append_all es;; finish.

End writer.

(** ** The layout *)

Definition enc_blocks (bs : list (list entry)) : bytes := concat (enc_block <$> bs).

Definition block_last_key (b : list entry) : bytes := default [] (ekey <$> last b).

(** The index entries of blocks that start at [off]. *)
Fixpoint index_of (off : Z) (bs : list (list entry)) : list IndexEntry :=
  match bs with
  | [] => []
  | b :: bs => mk_IndexEntry (block_last_key b) (wrap64 off) (len (enc_block b)) ::
               index_of (off + len (enc_block b)) bs
  end.

Definition enc_index (ies : list IndexEntry) : bytes := foldl index_record [] ies.

(** The filter of the keys of some entries. *)
Definition filter_of (es : list entry) (filt : bytes) : Prop :=
  build (E := io_error) (add_keys (ekey <$> es)) = Ok filt.

Definition table_footer (bs : list (list entry)) (filt : bytes) : Footer :=
  let data := len (enc_blocks bs) in
  let idx := len (enc_index (index_of 0 bs)) in
  Footer_new (wrap64 data) idx (wrap64 (data + idx)) (len filt).

Definition table_bytes (bs : list (list entry)) (filt : bytes) : bytes :=
  enc_blocks bs ++ enc_index (index_of 0 bs) ++ filt ++ enc_footer (table_footer bs filt).

(** A division of entries into blocks the way the writer divides them: no block
    is empty, and each but the last was closed by the entry that made it reach
    the target size. *)
Definition full_block (b : list entry) : Prop :=
  exists b' e, b = b' ++ [e] /\ len (enc_block b') < TARGET_BLOCK_SIZE <= len (enc_block b).
Definition open_block (b : list entry) : Prop := len (enc_block b) < TARGET_BLOCK_SIZE.

Definition blocks_of (es : list entry) (bs : list (list entry)) : Prop :=
  concat bs = es /\ Forall (fun b => b <> []) bs /\
  exists fs r, bs = fs ++ r /\ Forall full_block fs /\ (r = [] \/ exists b, r = [b] /\ open_block b).

(** * Lemmas *)

Lemma enc_blocks_app bs bs' : enc_blocks (bs ++ bs') = enc_blocks bs ++ enc_blocks bs'.
Proof. unfold enc_blocks. by rewrite fmap_app, concat_app. Qed.

Lemma enc_blocks_one b : enc_blocks [b] = enc_block b.
Proof. unfold enc_blocks. cbn. by rewrite app_nil_r. Qed.

Lemma index_of_app off bs bs' :
  index_of off (bs ++ bs') = index_of off bs ++ index_of (off + len (enc_blocks bs)) bs'.
Proof.
  revert off. induction bs as [|b bs IH]; intros off.
  - cbn. by rewrite Z.add_0_r.
  - cbn [index_of app]. rewrite IH. cbn [app]. do 3 f_equal.
    change (enc_blocks (b :: bs)) with (enc_block b ++ enc_blocks bs). rewrite len_app. lia.
Qed.

Lemma enc_index_cons ie ies : enc_index (ie :: ies) = index_record [] ie ++ enc_index ies.
Proof.
  unfold enc_index. cbn [foldl]. enough (forall a, foldl index_record a ies = a ++ foldl index_record [] ies) by done.
  induction ies as [|i ies IH]; intros a; cbn [foldl]; [by rewrite app_nil_r |].
  rewrite IH, (IH (index_record [] i)), app_assoc. f_equal. unfold index_record. by rewrite <- !app_assoc.
Qed.

(** ** The writer between two appends *)

Section writer_lemmas.
  Context `{FS : FileOpsSpec}.

(** [bs] are in the file, [cs] in the current block. *)
Definition writer_inv (bs : list (list entry)) (cs : list entry) (s : SSTableWriter) : Prop :=
  file s = enc_blocks bs /\ buf (current_block s) = enc_block cs /\
  (cs <> [] -> last_key (current_block s) = block_last_key cs) /\
  index_entries s = index_of 0 bs /\
  bloom_builder s = add_keys (ekey <$> (concat bs ++ cs)) /\
  current_offset s = wrap64 (len (enc_blocks bs)) /\
  Forall (fun b => b <> []) bs.

Lemma create_inv : writer_inv [] [] SSTableWriter_create.
Proof. by split_and!. Qed.

Lemma enc_block_nonempty b : b <> [] -> 0 < len (enc_block b).
Proof.
  destruct b as [|e b]; [done |]. intros _. rewrite enc_block_cons, len_app, len_enc_entry. len_facts. lia.
Qed.

(** Some operation on some file can fail. *)
Definition fails : Prop :=
  create_file <> Ok tt \/ (exists f d, (write_all f d).2 <> Ok tt) \/ exists f, sync_all f <> Ok tt.

(** A run that ends well, or with an error value when the file fails. *)
Definition run_ok {St A} (r : St * outcome io_error A) (P : A -> St -> Prop) : Prop :=
  match r with (s', Ok a) => P a s' | (_, Err _) => fails | _ => False end.

Lemma run_ok_bind {St A B} (c : st St io_error A) (f : A -> st St io_error B) s P Q :
  run_ok (c s) P -> (forall a s', P a s' -> run_ok (f a s') Q) -> run_ok ((c ≫= f) s) Q.
Proof. unfold mbind, st_bind. destruct (c s) as [s' [a | e | |]]; cbn; auto. Qed.

Lemma write_file_run d s :
  run_ok (write_file d s) (fun _ s' => s' = mk_SSTableWriter (file s ++ d) (current_block s)
    (index_entries s) (bloom_builder s) (current_offset s)).
Proof.
  unfold write_file. destruct (write_all (file s) d) as [f r] eqn:Hw.
  pose proof (write_all_safe (file s) d) as Hs. rewrite Hw in Hs.
  destruct r as [[] | e | |]; cbn; [by rewrite (write_all_Ok _ _ _ Hw) | | done..].
  right. left. exists (file s), d. by rewrite Hw.
Qed.

Lemma flush_block_run bs cs s : writer_inv bs cs s ->
  run_ok (flush_block s) (fun _ s' => writer_inv (bs ++ if decide (cs = []) then [] else [cs]) [] s').
Proof.
  intros (Hf & Hb & Hk & Hi & Hbl & Ho & Hne).
  unfold flush_block, mbind at 1, st_bind at 1, get_state. cbv beta iota.
  unfold is_empty. rewrite Hb. destruct (decide (cs = [])) as [-> | Hcs].
  { cbn. rewrite app_nil_r. by split_and!. }
  pose proof (enc_block_nonempty cs Hcs). destruct (Z.eqb_spec (len (enc_block cs)) 0); [lia |].
  unfold put_state at 1, mbind at 1, st_bind at 1. cbv beta iota. unfold BlockBuilder_finish.
  eapply run_ok_bind; [apply write_file_run |]. intros [] s' ->. unfold get_state, put_state, mbind, st_bind.
  cbn [run_ok file current_block index_entries bloom_builder current_offset].
  rewrite Hf, Hb, Hk, Hi, Ho by done. rewrite wrap64_add.
  split_and!; cbn [file current_block index_entries bloom_builder current_offset].
  - by rewrite enc_blocks_app, enc_blocks_one.
  - done.
  - done.
  - by rewrite index_of_app.
  - rewrite Hbl. rewrite concat_app. cbn. by rewrite !app_nil_r.
  - by rewrite enc_blocks_app, enc_blocks_one, len_app.
  - apply Forall_app. split; [done | by constructor].
Qed.

(** After a number of whole appends. *)
Definition appended (es : list entry) (s : SSTableWriter) : Prop :=
  exists bs cs, es = concat bs ++ cs /\ writer_inv bs cs s /\ Forall full_block bs /\ open_block cs.

Lemma add_entry_inv bs cs e s : writer_inv bs cs s ->
  writer_inv bs (cs ++ [e]) (mk_SSTableWriter (file s)
    (BlockBuilder_add (current_block s) (ekey e) e.1.2 e.2) (index_entries s)
    (BloomBuilder_add (bloom_builder s) (ekey e)) (current_offset s)).
Proof.
  intros (Hf & Hb & Hk & Hi & Hbl & Ho & Hne). change (BlockBuilder_add _ _ _ _) with (add_entry (current_block s) e).
  split_and!; cbn [file current_block index_entries bloom_builder current_offset]; try done.
  - by rewrite add_entry_buf, Hb, enc_block_app, enc_block_cons, app_nil_r.
  - intros _. unfold block_last_key. by rewrite last_snoc.
  - rewrite Hbl, (app_assoc (concat bs)), (fmap_app _ (concat bs ++ cs)). unfold add_keys. by rewrite foldl_app.
Qed.

Lemma append_run es e s : appended es s ->
  run_ok (append (ekey e) e.1.2 e.2 s) (fun _ s' => appended (es ++ [e]) s').
Proof.
  intros (bs & cs & -> & Hinv & Hfull & Hopen). pose proof (add_entry_inv bs cs e s Hinv) as Hinv'.
  unfold append, mbind, st_bind, get_state, put_state. set (s1 := mk_SSTableWriter _ _ _ _ _) in *.
  assert (estimated_size (current_block s1) = len (enc_block (cs ++ [e]))) as Hsz.
  { destruct Hinv' as (_ & Hb & _). unfold estimated_size. by rewrite Hb. }
  change (BlockBuilder_add (current_block s) (ekey e) e.1.2 e.2) with (current_block s1). rewrite Hsz.
  destruct (Z.leb_spec TARGET_BLOCK_SIZE (len (enc_block (cs ++ [e])))) as [Hfl | Hop].
  - pose proof (flush_block_run bs (cs ++ [e]) s1 Hinv') as Hr.
    destruct (flush_block s1) as [s' [[] | | |]]; cbn in *; try done.
    rewrite decide_False in Hr by (by destruct cs).
    exists (bs ++ [cs ++ [e]]), []. split_and!; [| done | | done].
    + rewrite concat_app. cbn. by rewrite !app_nil_r, <- app_assoc.
    + apply Forall_app. split; [done |]. constructor; [| done]. by exists cs, e.
  - cbn. exists bs, (cs ++ [e]). split_and!; [by rewrite app_assoc | done..].
Qed.

Lemma append_all_run es es' s : appended es s ->
  run_ok (append_all es' s) (fun _ s' => appended (es ++ es') s').
Proof.
  revert es s. induction es' as [|e es' IH]; intros es s Hs; cbn [append_all]; [by rewrite app_nil_r |].
  eapply run_ok_bind; [by apply append_run |]. intros [] s' Hs'. cbn beta.
  change (e :: es') with ([e] ++ es'). rewrite app_assoc. by apply IH.
Qed.

Lemma filter_of_exists es : exists filt, filter_of es filt /\
  (es = [] -> filt = []) /\ (es <> [] -> 0 < len filt).
Proof.
  unfold filter_of. destruct (decide (es = [])) as [-> | Hne]; [by exists [] |].
  destruct (filter_has_keys (E := io_error) (ekey <$> es)) as (d & f & Hb & Hl & _); [by destruct es |].
  exists d. split_and!; [done | done | done].
Qed.

Lemma advance_run n s : advance n s = (mk_SSTableWriter (file s) (current_block s) (index_entries s)
  (bloom_builder s) (wrap64 (current_offset s + n)), Ok tt).
Proof. done. Qed.

(** What [finish] adds to the file when it ends well. *)
Lemma finish_run bs cs s : writer_inv bs cs s ->
  let bs' := bs ++ if decide (cs = []) then [] else [cs] in
  run_ok (finish s) (fun n s' => exists filt, filter_of (concat bs') filt /\
    file s' = table_bytes bs' filt /\ n = wrap64 (len (file s'))).
Proof.
  intros Hinv bs'. unfold finish. eapply run_ok_bind; [by apply flush_block_run |].
  fold bs'. clearbody bs'. clear s bs cs Hinv. intros [] s (Hf & _ & _ & Hi & Hbl & Ho & _).
  rewrite app_nil_r in Hbl. destruct (filter_of_exists (concat bs')) as (filt & Hfilt & Hnil & Hcons).
  unfold mbind at 1, st_bind at 1, get_state at 1. cbv beta iota zeta. rewrite Hi, Ho. fold (enc_index (index_of 0 bs')).
  eapply run_ok_bind; [apply write_file_run |]. intros [] ? ->.
  unfold mbind at 1, st_bind at 1. rewrite advance_run. cbv beta iota zeta.
  cbn [file current_block index_entries bloom_builder current_offset]. rewrite Hf, Ho, Hbl, wrap64_add.
  unfold mbind at 1, st_bind at 1, lift at 1. rewrite Hfilt. cbv beta iota zeta.
  unfold mbind at 1, st_bind at 1, get_state at 1. cbv beta iota zeta.
  cbn [file current_block index_entries bloom_builder current_offset].
  set (idx := enc_index (index_of 0 bs')).
  eapply (run_ok_bind _ _ _ (fun _ s' => file s' = enc_blocks bs' ++ idx ++ filt /\
    current_offset s' = wrap64 (len (enc_blocks bs' ++ idx ++ filt)))).
  { destruct (Z.ltb_spec 0 (len filt)) as [Hl | Hl].
    - eapply run_ok_bind; [apply write_file_run |]. intros [] ? ->. rewrite advance_run. cbn [run_ok file current_offset].
      rewrite wrap64_add. split; [by rewrite app_assoc |]. rewrite !len_app. f_equal; lia.
    - cbn. assert (filt = []) as -> by (apply len_zero_nil; pose proof (len_nonneg filt); lia).
      rewrite app_nil_r. split; [done |]. by rewrite len_app. }
  intros [] s1 [Hf1 Ho1]. destruct (encode_ok (E := io_error) (table_footer bs' filt) (zeros FOOTER_SIZE))
    as (b & rest & Hz & Hb & He); [done |].
  assert (rest = []) as ->.
  { apply len_zero_nil. apply (f_equal len) in Hz. rewrite len_app, Hb, len_zeros in Hz. unfold FOOTER_SIZE in *. lia. }
  rewrite app_nil_r in He. unfold mbind at 1, st_bind at 1, lift at 1.
  change (Footer_new (wrap64 (len (enc_blocks bs'))) (len idx) (wrap64 (len (enc_blocks bs') + len idx)) (len filt))
    with (table_footer bs' filt). rewrite He. cbv beta iota zeta.
  eapply run_ok_bind; [apply write_file_run |]. intros [] ? ->.
  unfold mbind at 1, st_bind at 1. rewrite advance_run. cbv beta iota zeta.
  unfold mbind, st_bind, get_state, lift. cbv beta iota zeta. cbn [file current_offset].
  set (fin := file s1 ++ enc_footer (table_footer bs' filt)).
  pose proof (sync_all_safe fin) as Hs. destruct (sync_all fin) as [[] | | |] eqn:Hsync; try done;
    [| right; right; exists fin; by rewrite Hsync].
  cbn. exists filt. split_and!; [done | |].
  - unfold fin, table_bytes. by rewrite Hf1, <- !app_assoc.
  - unfold fin. rewrite Hf1, Ho1, wrap64_add, !(len_app (enc_blocks bs' ++ idx ++ filt)), len_enc_footer. done.
Qed.

(** A finished table of some entries. *)
Definition table_written (es : list entry) (n : Z) (s : SSTableWriter) : Prop :=
  exists bs filt, blocks_of es bs /\ filter_of es filt /\
    file s = table_bytes bs filt /\ n = wrap64 (len (file s)).

Lemma appended_finish es s : appended es s -> run_ok (finish s) (table_written es).
Proof.
  intros (bs & cs & Hes & Hinv & Hfull & Hopen). subst es.
  pose proof (finish_run bs cs s Hinv) as Hr. destruct Hinv as (_ & _ & _ & _ & _ & _ & Hne).
  set (bs' := bs ++ if decide (cs = []) then [] else [cs]) in *.
  assert (blocks_of (concat bs ++ cs) bs') as Hbl.
  { unfold bs', blocks_of. destruct (decide (cs = [])) as [-> | Hcs]; split_and!.
    - by rewrite !app_nil_r.
    - by rewrite app_nil_r.
    - exists bs, []. auto.
    - rewrite concat_app. cbn. by rewrite app_nil_r.
    - apply Forall_app. split; [done | by constructor].
    - exists bs, [cs]. split_and!; [done | done |]. right. by exists cs. }
  destruct (finish s) as [s' [n | | |]]; cbn in *; try done. destruct Hr as (filt & Hfilt & Hf & Hn).
  exists bs', filt. destruct Hbl as (Hc & ?). rewrite Hc in Hfilt. by split_and!.
Qed.


Lemma write_table_run es : run_ok (write_table es SSTableWriter_create) (table_written es).
Proof.
  unfold write_table. eapply run_ok_bind.
  { apply (append_all_run [] es). exists [], []. split_and!; done || apply create_inv. }
  intros [] s Hs. by apply appended_finish.
Qed.

End writer_lemmas.

Lemma reliable_never_fails : ~ fails (F := reliable_file).
Proof. intros [Hc | [(f & d & Hf) | (f & Hf)]]; [by apply Hc | by apply Hf..]. Qed.

Lemma write_table_reliable es : exists s n bs filt,
  write_table (F := reliable_file) es SSTableWriter_create = (s, Ok n) /\ blocks_of es bs /\
  filter_of es filt /\ file s = table_bytes bs filt /\ n = wrap64 (len (file s)).
Proof.
  pose proof (write_table_run (F := reliable_file) es) as Hr.
  destruct (write_table es SSTableWriter_create) as [s [n | e | |]]; cbn in Hr; try done.
  - destruct Hr as (bs & filt & ?). by exists s, n, bs, filt.
  - by destruct reliable_never_fails.
Qed.

(** ** The failures that a run can meet

    A run on files that fail is the run on [reliable_file] up to the first
    failure.  [fails_on t]: a write of a part of [t] behind what precedes it
    fails, or the sync of all of it; [table_fails t]: that, or the file cannot
    be created. *)

Section follows.
  Context `{FS : FileOpsSpec} {St : Type} (contents : St -> bytes).

Definition write_fails (t : bytes) : Prop :=
  exists f d, (f ++ d) `prefix_of` t /\ (write_all f d).2 <> Ok tt.

Definition fails_on (t : bytes) : Prop := write_fails t \/ sync_all t <> Ok tt.

Definition table_fails (t : bytes) : Prop := create_file <> Ok tt \/ fails_on t.

Lemma write_fails_mono t t' : t `prefix_of` t' -> write_fails t -> write_fails t'.
Proof. intros Ht (f & d & Hp & Hw). exists f, d. split; [by etrans | done]. Qed.

(** [r] is what a run from contents [f0] ends in, [rR] what it ends in on
    [reliable_file]; [P] holds of the contents when an operation failed. *)
Definition follows (P : bytes -> Prop) (f0 : bytes) {A} (r rR : St * outcome io_error A) : Prop :=
  f0 `prefix_of` contents rR.1 /\
  (r = rR \/ exists s e, r = (s, Err e) /\ P (contents rR.1)).

Lemma follows_same P f0 {A} (r : St * outcome io_error A) : f0 `prefix_of` contents r.1 -> follows P f0 r r.
Proof. split; [done | by left]. Qed.

Lemma follows_bind (P : bytes -> Prop) {A B} (c cR : st St io_error A) (g gR : A -> st St io_error B) s :
  (forall t, write_fails t -> P t) ->
  follows write_fails (contents s) (c s) (cR s) ->
  (forall a s', cR s = (s', Ok a) -> follows P (contents s') (g a s') (gR a s')) ->
  follows P (contents s) ((c ≫= g) s) ((cR ≫= gR) s).
Proof.
  intros HP [Hp Hc] Hg. unfold mbind, st_bind. destruct (cR s) as [s' r] eqn:HR. cbn [fst] in Hp, Hc.
  destruct r as [a | e | |].
  - destruct (Hg a s' eq_refl) as [Hp' Hc']. split; [by etrans |]. destruct Hc as [-> | (s1 & e & -> & Hw)]; [done |].
    right. exists s1, e. split; [done |]. by apply HP, (write_fails_mono (contents s')).
  - split; [done |]. destruct Hc as [-> | (s1 & e1 & -> & Hw)]; [by left | right; eauto].
  - split; [done |]. destruct Hc as [-> | (s1 & e1 & -> & Hw)]; [by left | right; eauto].
  - split; [done |]. destruct Hc as [-> | (s1 & e1 & -> & Hw)]; [by left | right; eauto].
Qed.

(** A step that does not touch the file. *)
Lemma follows_pure (P : bytes -> Prop) {A B} (c : st St io_error A) (g gR : A -> st St io_error B) s :
  (forall t, write_fails t -> P t) -> contents (c s).1 = contents s ->
  (forall a s', c s = (s', Ok a) -> follows P (contents s') (g a s') (gR a s')) ->
  follows P (contents s) ((c ≫= g) s) ((c ≫= gR) s).
Proof. intros HP Hc. apply follows_bind; [done |]. apply follows_same. by rewrite Hc. Qed.

(** A run that ends well, or with an error value and a failure. *)
Definition ends_ok (failure : Prop) {A} (r : St * outcome io_error A) (P : A -> St -> Prop) : Prop :=
  match r with (s', Ok a) => P a s' | (_, Err _) => failure | _ => False end.

Lemma follows_ends (F' : bytes -> Prop) f0 {A} (r rR : St * outcome io_error A) P Q :
  follows F' f0 r rR -> run_ok r P -> run_ok (F := reliable_file) rR Q -> ends_ok (F' (contents rR.1)) r P.
Proof.
  intros [_ Hf] Hr HR. destruct r as [s [a | e | |]]; cbn in Hr; try done. cbn.
  destruct Hf as [<- | (s1 & e1 & _ & Hf)]; [| done]. by destruct reliable_never_fails.
Qed.

End follows.

Section writer_follows.
  Context `{FS : FileOpsSpec}.

#[local] Abbreviation follows := (follows SSTable.file).

Lemma write_file_follows d s :
  follows write_fails (file s) (write_file d s) (write_file (F := reliable_file) d s).
Proof.
  unfold write_file at 2. cbn. split; [cbn; by apply prefix_app_r |].
  pose proof (write_file_run d s) as Hr. unfold write_file in *. destruct (write_all (file s) d) as [f r] eqn:Hw.
  destruct r as [[] | e | |]; cbn in Hr; try done.
  - left. apply write_all_Ok in Hw as ->. done.
  - right. eexists _, e. split; [done |]. exists (file s), d. split; [done |]. by rewrite Hw.
Qed.

Lemma flush_block_follows s :
  follows write_fails (file s) (flush_block s) (flush_block (F := reliable_file) s).
Proof.
  unfold flush_block. apply follows_pure; [done.. |]. intros st s' [= <- <-].
  destruct (is_empty (current_block s)); [by apply follows_same |].
  apply (follows_pure _ write_fails (put_state _)); [done.. |]. intros [] s' [= <-].
  destruct (BlockBuilder_finish _) as [b k]. apply follows_bind; [done | apply write_file_follows |].
  intros [] s' _. by apply follows_same.
Qed.

Lemma append_follows key value seq s :
  follows write_fails (file s) (append key value seq s) (append (F := reliable_file) key value seq s).
Proof.
  unfold append. apply follows_pure; [done.. |]. intros st s' [= <- <-].
  apply (follows_pure _ write_fails (put_state _)); [done.. |]. intros [] s' [= <-].
  destruct (_ <=? _); [apply flush_block_follows | by apply follows_same].
Qed.

Lemma append_all_follows es s :
  follows write_fails (file s) (append_all es s) (append_all (F := reliable_file) es s).
Proof.
  revert s. induction es as [|e es IH]; intros s; cbn [append_all]; [by apply follows_same |].
  apply follows_bind; [done | apply append_follows | intros [] s' _; apply IH].
Qed.

Lemma sync_follows s :
  follows fails_on (file s) ((lift (sync_all (file s));; mret (current_offset s)) s)
    ((lift (sync_all (FileOps := reliable_file) (file s));; mret (current_offset s)) s).
Proof.
  split; [done |]. unfold mbind, st_bind, lift. cbn [sync_all reliable_file].
  pose proof (sync_all_safe (file s)) as Hs. destruct (sync_all (file s)) as [[] | e | |] eqn:Hy; try done; [by left |].
  right. exists s, e. split; [done |]. right. cbn. by rewrite Hy.
Qed.

Lemma finish_follows s : follows fails_on (file s) (finish s) (finish (F := reliable_file) s).
Proof.
  assert (forall t, write_fails t -> fails_on t) as HP by (intros t; by left).
  unfold finish. apply follows_bind; [done | apply flush_block_follows |]. intros [] s0 _.
  apply follows_pure; [done.. |]. intros st s' [= <- <-].
  apply follows_bind; [done | apply write_file_follows |]. intros [] s1 _.
  apply follows_pure; [done.. |]. intros [] s' [= <-].
  apply (follows_pure _ _ (lift _)); [done.. |]. intros filt s' [= <- Hfilt].
  apply follows_pure; [done.. |]. intros st s' [= <- <-].
  apply follows_bind; [done | |].
  { destruct (0 <? len filt); [| by apply follows_same].
    apply follows_bind; [done | apply write_file_follows |]. intros [] s' _. by apply follows_same. }
  intros [] s2 _. apply (follows_pure _ _ (lift _)); [done.. |]. intros b s' [= <- Hb].
  apply follows_bind; [done | apply write_file_follows |]. intros [] s3 _.
  apply follows_pure; [done.. |]. intros [] s' [= <-].
  apply follows_pure; [done.. |]. intros st s' [= <- <-]. apply sync_follows.
Qed.

(** The table of some entries, as it is when no operation on its file fails. *)
Definition table_of (es : list entry) : bytes := file (write_table (F := reliable_file) es SSTableWriter_create).1.

Lemma write_table_follows es :
  follows fails_on [] (write_table es SSTableWriter_create) (write_table (F := reliable_file) es SSTableWriter_create).
Proof.
  apply (follows_bind file fails_on); [by left | apply append_all_follows |].
  intros [] s _. apply finish_follows.
Qed.

Lemma write_table_ends es :
  ends_ok (fails_on (table_of es)) (write_table es SSTableWriter_create) (table_written es).
Proof.
  apply (follows_ends file fails_on [] _ (write_table (F := reliable_file) es SSTableWriter_create) _ (table_written es));
    [apply write_table_follows | by apply write_table_run..].
Qed.

Lemma write_table_same es s n : write_table es SSTableWriter_create = (s, Ok n) -> file s = table_of es.
Proof.
  intros Hw. destruct (write_table_follows es) as [_ [Heq | (s' & e & Heq & _)]]; [| congruence].
  unfold table_of. by rewrite <- Heq, Hw.
Qed.

End writer_follows.

(** * Properties *)

(** Appending any entries in order and finishing the table never panics, reports an error only
    when one of the writes that build this very table, or its sync, fails, and otherwise leaves exactly the table of these entries in
    the file: the data blocks that hold them in order, none empty and each but the last closed when
    it reached 4096 bytes, then the index with each block's last key, offset and length, the Bloom
    filter of all keys, and the footer; the number returned is the file's size. *)
Theorem finish_writes_table `{FS : FileOpsSpec} (es : list entry) :
  match write_table es SSTableWriter_create with
  | (s, Ok n) => exists bs filt, blocks_of es bs /\ filter_of es filt /\
      file s = table_bytes bs filt /\ n = wrap64 (len (file s))
  | (_, Err _) => fails_on (table_of es)
  | _ => False
  end.
Proof.
  pose proof (write_table_ends es) as Hr. by destruct (write_table es SSTableWriter_create) as [s [n | | |]].
Qed.

Lemma finish_writes_table_witness :
  let es := [([Byte.x61], Some [Byte.x01], 7); ([Byte.x62], None, 6)] in
  match write_table (F := reliable_file) es SSTableWriter_create with
  | (s, Ok n) => exists bs filt, blocks_of es bs /\ filter_of es filt /\
      file s = table_bytes bs filt /\ n = wrap64 (len (file s))
  | (_, Err _) => fails_on (F := reliable_file) (table_of es)
  | _ => False
  end.
Proof. exact (finish_writes_table (F := reliable_file) [([Byte.x61], Some [Byte.x01], 7); ([Byte.x62], None, 6)]). Defined.
