(* ===== verification/SSTableReader.v ===== *)
(** * The SSTable reader (tier3_storage/src/sstable/reader.rs)

    [SSTableReader] over the bytes of the mapped file: [parse_index], [open],
    [get] (Bloom filter, binary search of the index, search of one block),
    [filter_slice], [get_first_key], [get_last_key].  Over a table the writer
    finished, [get] is lookup in the sorted entries.  The additions of offsets
    read from the file wrap, as they do in a release build. *)

From S2P Require Import Prelude BinarySearch Bloom Block Footer SSTable.
#[local] Open Scope Z_scope.

Record IndexRecord := mk_IndexRecord { ir_last_key : bytes; ir_offset : Z; ir_len : Z }.

Record SSTableReader := mk_SSTableReader {
  mmap : bytes;
  index : list IndexRecord;
  footer : Footer
}.

(** [std::slice::from_raw_parts(mmap_ptr.add(start), len)]: outside of the
    mapping it is undefined behaviour. *)
Definition raw_slice {E} (mmap : bytes) (start len : Z) : outcome E bytes :=
  if in_range mmap start (start + len) then Ok (sub mmap start (start + len)) else Ub.

(** The loop of [parse_index]. *)
Fixpoint parse_loop (fuel : nat) (index_slice : bytes) (curr : Z) (records : list IndexRecord)
    : outcome io_error (list IndexRecord) :=
  match fuel with
  | O => Err out_of_fuel
  | S fuel =>
      if len index_slice <? curr + 4 then Ok records else
      k ← range index_slice curr (curr + 4);
      let k_len := from_le_bytes k in
      let curr := curr + 4 in
      if len index_slice <? curr + k_len + 16 then Err InvalidData else
      last_key ← range index_slice curr (curr + k_len);
      let curr := curr + k_len in
      o ← range index_slice curr (curr + 8);
      let block_offset := from_le_bytes o in
      let curr := curr + 8 in
      l ← range index_slice curr (curr + 8);
      let block_len := from_le_bytes l in
      let curr := curr + 8 in
      parse_loop fuel index_slice curr (records ++ [mk_IndexRecord last_key block_offset block_len])
  end.

Definition parse_index (slice : bytes) (offset length : Z) : outcome io_error (list IndexRecord) :=
  if len slice <? wrap64 (offset + length) then Err UnexpectedEof else
  index_slice ← range slice offset (wrap64 (offset + length));
  parse_loop (S (List.length index_slice)) index_slice 0 [].

(** [SSTableReader::open]; opening, [stat] and [mmap] of the file are the
    argument, the bytes of the mapping. *)
Definition SSTableReader_open (file : bytes) : outcome io_error SSTableReader :=
  let file_len := len file in
  if file_len <? FOOTER_SIZE then Err InvalidData else
  tail ← range file (file_len - FOOTER_SIZE) file_len;
  footer ← decode tail;
  index ← parse_index file (index_offset footer) (index_len footer);
  Ok (mk_SSTableReader file index footer).

Definition filter_slice {E} (r : SSTableReader) : outcome E (option bytes) :=
  if filter_len (footer r) =? 0 then Ok None else
  let start := filter_offset (footer r) in
  let length := filter_len (footer r) in
  if len (mmap r) <? wrap64 (start + length) then Ok None else
  s ← raw_slice (mmap r) start length;
  Ok (Some s).

Section reader.
  Context `{BS : BinarySearch}.

(** [binary_search_by(...)] with both results taken for an index. *)
Definition target_idx (r : SSTableReader) (key : bytes) : nat :=
  match binary_search_by (fun entry => bytes_cmp (ir_last_key entry) key) (index r) with
  | inl idx => idx
  | inr idx => idx
  end.

(** The part of [get] after the filter. *)
Definition get_indexed `{Fueled E} (r : SSTableReader) (key : bytes) : outcome E (option (option bytes * Z)) :=
  if len (index r) =? 0 then Ok None else
  let target_idx := Z.of_nat (target_idx r key) in
  if len (index r) <=? target_idx then Ok None else
  entry ← Prelude.index (index r) target_idx;
  let start := ir_offset entry in
  let end_ := wrap64 (start + ir_len entry) in
  if len (mmap r) <? end_ then Ok None else
  block_slice ← raw_slice (mmap r) start (ir_len entry);
  (search key (BlockIter_new block_slice)).2.

(** [get]; [avx2] is the CPU's answer to the feature test of the filter. *)
Definition get `{Fueled E} (avx2 : bool) (r : SSTableReader) (key : bytes) : outcome E (option (option bytes * Z)) :=
  f_slice ← filter_slice r;
  match f_slice with
  | Some f_slice =>
      match BloomFilter_new f_slice with
      | Some filter =>
          c ← contains avx2 filter key;
          if negb c then Ok None else get_indexed r key
      | None => get_indexed r key
      end
  | None => get_indexed r key
  end.

End reader.

Definition get_first_key {E} (r : SSTableReader) : outcome E (option bytes) :=
  if len (index r) =? 0 then Ok None else
  entry ← Prelude.index (index r) 0;
  block_slice ← raw_slice (mmap r) (ir_offset entry) (ir_len entry);
  e ← (next_entry (BlockIter_new block_slice)).2;
  Ok (match e with Some (k, _, _) => Some k | None => None end).

Definition get_last_key (r : SSTableReader) : option bytes := ir_last_key <$> last (index r).

(** * Lemmas *)

(** ** The index is read back *)

Definition index_entry_ok (ie : IndexEntry) : Prop :=
  is_u32 (len (ie_last_key ie)) /\ is_u64 (ie_offset ie) /\ is_u64 (ie_len ie).

Definition to_record (ie : IndexEntry) : IndexRecord :=
  mk_IndexRecord (ie_last_key ie) (ie_offset ie) (ie_len ie).

Lemma len_index_record ie : len (index_record [] ie) = 20 + len (ie_last_key ie).
Proof. unfold index_record. len_lia. Qed.

(** One turn of the loop reads one record. *)
Lemma parse_loop_step fuel pre ie rest records : index_entry_ok ie ->
  parse_loop (S fuel) (pre ++ index_record [] ie ++ rest) (len pre) records =
  parse_loop fuel (pre ++ index_record [] ie ++ rest) (len (pre ++ index_record [] ie)) (records ++ [to_record ie]).
Proof.
  intros (Hk & Ho & Hl). set (d := pre ++ index_record [] ie ++ rest).
  assert (Hd : len d = len pre + 20 + len (ie_last_key ie) + len rest).
  { unfold d. rewrite !len_app, len_index_record. lia. }
  assert (He : d = pre ++ to_le_bytes 4 (len (ie_last_key ie)) ++ ie_last_key ie ++
    to_le_bytes 8 (ie_offset ie) ++ to_le_bytes 8 (ie_len ie) ++ rest).
  { unfold d, index_record. rewrite wrap32_small by done. by rewrite app_nil_l, <- !app_assoc. }
  rewrite (len_app pre), len_index_record. clearbody d. len_facts. cbn [parse_loop].
  destruct (Z.ltb_spec (len d) (len pre + 4)); [lia |].
  rewrite (range_at pre (to_le_bytes 4 (len (ie_last_key ie))) (ie_last_key ie ++
    to_le_bytes 8 (ie_offset ie) ++ to_le_bytes 8 (ie_len ie) ++ rest) d (len pre) (len pre + 4))
    by (done || len_lia). cbn [mbind outcome_bind]. rewrite from_to_le by done.
  destruct (Z.ltb_spec (len d) (len pre + 4 + len (ie_last_key ie) + 16)); [lia |].
  set (a := pre ++ to_le_bytes 4 (len (ie_last_key ie))). assert (len a = len pre + 4) by (unfold a; len_lia).
  rewrite (range_at a (ie_last_key ie) (to_le_bytes 8 (ie_offset ie) ++ to_le_bytes 8 (ie_len ie) ++ rest) d
    (len pre + 4)) by (first [lia | unfold a; by rewrite <- ?app_assoc]). cbn [mbind outcome_bind].
  rewrite (range_at (a ++ ie_last_key ie) (to_le_bytes 8 (ie_offset ie)) (to_le_bytes 8 (ie_len ie) ++ rest) d
    (len pre + 4 + len (ie_last_key ie)))
    by (first [rewrite ?len_app, ?len_le; lia | unfold a; by rewrite <- ?app_assoc]). cbn [mbind outcome_bind].
  rewrite (range_at (a ++ ie_last_key ie ++ to_le_bytes 8 (ie_offset ie)) (to_le_bytes 8 (ie_len ie)) rest d
    (len pre + 4 + len (ie_last_key ie) + 8))
    by (first [rewrite ?len_app, ?len_le; lia | unfold a; by rewrite <- ?app_assoc]). cbn [mbind outcome_bind].
  rewrite !from_to_le by done. f_equal. lia.
Qed.

Lemma parse_loop_index fuel pre ies records : Forall index_entry_ok ies -> (length ies < fuel)%nat ->
  parse_loop fuel (pre ++ enc_index ies) (len pre) records = Ok (records ++ (to_record <$> ies)).
Proof.
  revert fuel pre records. induction ies as [|ie ies IH]; intros fuel pre records Hok Hf;
    (destruct fuel as [|fuel]; [cbn in Hf; lia |]).
  - cbn [parse_loop fmap list_fmap]. rewrite !app_nil_r.
    destruct (Z.ltb_spec (len pre) (len pre + 4)); [done | lia].
  - apply Forall_cons in Hok as [Hie Hok]. rewrite enc_index_cons, parse_loop_step by done.
    rewrite app_assoc, IH by (done || (cbn in Hf; lia)). cbn. by rewrite <- app_assoc.
Qed.

Lemma enc_index_length ies : (length ies <= length (enc_index ies))%nat.
Proof.
  induction ies as [|ie ies IH]; [done |]. rewrite enc_index_cons, length_app. cbn [length].
  pose proof (len_index_record ie). len_facts. unfold len in *. lia.
Qed.

Lemma parse_index_ok l pre ies rest : l = pre ++ enc_index ies ++ rest -> Forall index_entry_ok ies ->
  is_u64 (len l) -> parse_index l (len pre) (len (enc_index ies)) = Ok (to_record <$> ies).
Proof.
  intros -> Hok Hlen. unfold parse_index. rewrite !len_app in *. len_facts.
  rewrite wrap64_small by (unfold is_u64 in *; lia).
  destruct (Z.ltb_spec (len pre + (len (enc_index ies) + len rest)) (len pre + len (enc_index ies))); [lia |].
  rewrite (range_at pre (enc_index ies) rest) by done. cbn [mbind outcome_bind].
  apply (parse_loop_index _ [] ies []); [done |]. pose proof (enc_index_length ies). lia.
Qed.

(** ** Opening a finished table *)

(** Entries and blocks whose table the format can hold. *)
Definition table_ok (bs : list (list entry)) (filt : bytes) : Prop :=
  Forall entry_ok (concat bs) /\ Forall (fun b => b <> []) bs /\ is_u64 (len (table_bytes bs filt)).

(** What a reader of a table holds. *)
Definition table_reader (bs : list (list entry)) (filt : bytes) : SSTableReader :=
  mk_SSTableReader (table_bytes bs filt) (to_record <$> index_of 0 bs) (table_footer bs filt).

Lemma block_last_key_elem b : b <> [] -> exists e, e ∈ b /\ block_last_key b = ekey e.
Proof.
  intros Hb. unfold block_last_key. destruct (last b) as [e|] eqn:Hl; [| by apply last_None in Hl].
  exists e. split; [| done]. apply last_Some in Hl as [b' ->]. apply elem_of_app. right. constructor.
Qed.

Lemma index_of_ok off bs : Forall entry_ok (concat bs) -> Forall (fun b => b <> []) bs ->
  is_u64 (len (enc_blocks bs)) -> Forall index_entry_ok (index_of off bs).
Proof.
  revert off. induction bs as [|b bs IH]; intros off Hok Hne Hlen; [done |].
  cbn [concat] in Hok. apply Forall_app in Hok as [Hb Hok]. apply Forall_cons in Hne as [Hbne Hne].
  change (enc_blocks (b :: bs)) with (enc_block b ++ enc_blocks bs) in Hlen. rewrite len_app in Hlen.
  unfold is_u64 in Hlen. pose proof (len_nonneg (enc_block b)). pose proof (len_nonneg (enc_blocks bs)).
  constructor; [| apply IH; [done | done | unfold is_u64; lia]].
  destruct (block_last_key_elem b Hbne) as (e & He & Hk). rewrite Forall_forall in Hb.
  split_and!; cbn [ie_last_key ie_offset ie_len].
  - rewrite Hk. by apply Hb.
  - apply Z.mod_pos_bound. lia.
  - unfold is_u64. lia.
Qed.

Lemma len_table bs filt : len (table_bytes bs filt) =
  len (enc_blocks bs) + len (enc_index (index_of 0 bs)) + len filt + FOOTER_SIZE.
Proof. unfold table_bytes. rewrite !len_app, len_enc_footer. lia. Qed.

Lemma table_footer_fields bs filt : is_u64 (len (table_bytes bs filt)) ->
  table_footer bs filt = Footer_new (len (enc_blocks bs)) (len (enc_index (index_of 0 bs)))
    (len (enc_blocks bs) + len (enc_index (index_of 0 bs))) (len filt) /\
  footer_ok (table_footer bs filt).
Proof.
  rewrite len_table. unfold FOOTER_SIZE. intros Hl. len_facts. unfold table_footer.
  rewrite !wrap64_small by (unfold is_u64 in *; lia). split; [done |].
  unfold footer_ok, Footer_new, is_u64 in *. cbn [index_offset index_len filter_offset filter_len magic].
  repeat split; lia.
Qed.

Lemma table_open bs filt : table_ok bs filt ->
  SSTableReader_open (table_bytes bs filt) = Ok (table_reader bs filt).
Proof.
  intros (Hok & Hne & Hl). destruct (table_footer_fields bs filt Hl) as [Hf Hfok].
  unfold SSTableReader_open. pose proof (len_table bs filt) as Hlen. unfold FOOTER_SIZE in *.
  set (pre := enc_blocks bs ++ enc_index (index_of 0 bs) ++ filt).
  assert (Ht : table_bytes bs filt = pre ++ enc_footer (table_footer bs filt)).
  { unfold table_bytes, pre. by rewrite <- !app_assoc. }
  assert (Hp : len (table_bytes bs filt) - 40 = len pre).
  { rewrite Hlen. unfold pre. rewrite !len_app. lia. }
  len_facts. destruct (Z.ltb_spec (len (table_bytes bs filt)) 40); [lia |].
  rewrite (range_at pre (enc_footer (table_footer bs filt)) []);
    [| by rewrite app_nil_r, Ht | done | rewrite len_enc_footer; unfold FOOTER_SIZE; lia].
  cbn [mbind outcome_bind]. rewrite <- (app_nil_r (enc_footer _)), decode_enc by done.
  cbn [mbind outcome_bind]. rewrite Hf at 1 2. unfold Footer_new. cbn [index_offset index_len].
  rewrite (parse_index_ok _ (enc_blocks bs) _ (filt ++ enc_footer (table_footer bs filt))); [done | done | | done].
  apply index_of_ok; [done | done |]. unfold is_u64 in *. lia.
Qed.

(** ** Blocks through the index *)

Lemma length_index_of off bs : length (index_of off bs) = length bs.
Proof. revert off. induction bs as [|b bs IH]; intros off; cbn; [done | by rewrite IH]. Qed.

(** The index entry between [bs1] and [bs2] describes [b]. *)
Lemma index_of_mid bs1 b bs2 :
  index_of 0 (bs1 ++ b :: bs2) !! length bs1 =
  Some (mk_IndexEntry (block_last_key b) (wrap64 (len (enc_blocks bs1))) (len (enc_block b))).
Proof.
  rewrite index_of_app. rewrite lookup_app_r by (rewrite length_index_of; lia).
  by rewrite length_index_of, Nat.sub_diag.
Qed.

Lemma raw_slice_at {E} (a b c l : bytes) i n : l = a ++ b ++ c -> i = len a -> n = len b ->
  raw_slice (E := E) l i n = Ok b.
Proof.
  intros -> -> ->. unfold raw_slice. rewrite in_range_true by len_lia. by rewrite sub_app.
Qed.

(** What the index and the mapping give for that entry: the block's bytes. *)
Lemma block_slice_ok {E} bs1 b bs2 filt :
  is_u64 (len (table_bytes (bs1 ++ b :: bs2) filt)) ->
  let n := len (enc_block b) in
  wrap64 (len (enc_blocks bs1)) = len (enc_blocks bs1) /\
  wrap64 (len (enc_blocks bs1) + n) = len (enc_blocks bs1) + n /\
  len (enc_blocks bs1) + n <= len (table_bytes (bs1 ++ b :: bs2) filt) /\
  raw_slice (E := E) (table_bytes (bs1 ++ b :: bs2) filt) (len (enc_blocks bs1)) n = Ok (enc_block b).
Proof.
  intros Hl n. change (b :: bs2) with ([b] ++ bs2) in *. unfold table_bytes in *.
  set (rest := enc_index _ ++ _) in *. rewrite !enc_blocks_app, enc_blocks_one in *.
  rewrite <- !app_assoc in *. rewrite !len_app in *. fold n in Hl |- *. len_facts.
  assert (0 <= n) by (unfold n; apply len_nonneg).
  split_and!; try (apply wrap64_small; unfold is_u64 in *; lia); [lia |].
  by eapply (raw_slice_at _ _ (enc_blocks bs2 ++ rest)).
Qed.

(** [get] past the filter, when the search lands on a block of the table. *)
Lemma get_indexed_block `{BS : BinarySearch} `{Fueled E} bs1 b bs2 filt key :
  table_ok (bs1 ++ b :: bs2) filt ->
  target_idx (table_reader (bs1 ++ b :: bs2) filt) key = length bs1 ->
  get_indexed (E := E) (table_reader (bs1 ++ b :: bs2) filt) key = Ok (search_entries b key).
Proof.
  intros (Hok & Hne & Hl) Ht. unfold get_indexed. rewrite Ht. cbn [SSTableReader.index table_reader mmap].
  rewrite len_fmap. assert (len (index_of 0 (bs1 ++ b :: bs2)) = len bs1 + 1 + len bs2) as Hn.
  { unfold len. rewrite length_index_of, length_app. cbn. lia. }
  rewrite Hn. len_facts. destruct (Z.eqb_spec (len bs1 + 1 + len bs2) 0); [lia |].
  destruct (Z.leb_spec (len bs1 + 1 + len bs2) (Z.of_nat (length bs1))); [unfold len in *; lia |].
  erewrite index_ok; [| lia | rewrite Nat2Z.id, list_lookup_fmap, index_of_mid; done].
  cbn [mbind outcome_bind to_record ir_offset ir_len ie_last_key ie_offset ie_len].
  destruct (block_slice_ok (E := E) bs1 b bs2 filt Hl) as (-> & -> & Hle & Hr).
  destruct (Z.ltb_spec (len (table_bytes (bs1 ++ b :: bs2) filt)) (len (enc_blocks bs1) + len (enc_block b))); [lia |].
  rewrite Hr. cbn [mbind outcome_bind]. apply search_block.
  rewrite concat_app in Hok. apply Forall_app in Hok as [_ Hok]. by apply Forall_app in Hok as [Hok _].
Qed.

Lemma get_indexed_past `{BS : BinarySearch} `{Fueled E} bs filt key :
  (length bs <= target_idx (table_reader bs filt) key)%nat ->
  get_indexed (E := E) (table_reader bs filt) key = Ok None.
Proof.
  intros Ht. unfold get_indexed. case_match; [done |]. cbn [SSTableReader.index table_reader].
  rewrite len_fmap. unfold len at 1. rewrite length_index_of.
  destruct (Z.leb_spec (Z.of_nat (length bs)) (Z.of_nat (target_idx (table_reader bs filt) key))); [done | lia].
Qed.

(** ** The filter *)

(** A key that the table's filter does not hold has no entry in it; the
    search goes on otherwise. *)
Lemma table_filter bs filt avx2 key `{BS : BinarySearch} `{Fueled E} :
  is_u64 (len (table_bytes bs filt)) -> filter_of (concat bs) filt ->
  get (E := E) avx2 (table_reader bs filt) key = get_indexed (table_reader bs filt) key \/
  (get (E := E) avx2 (table_reader bs filt) key = Ok None /\ key ∉ ekey <$> concat bs).
Proof.
  intros Hl Hfilt. destruct (table_footer_fields bs filt Hl) as [Hf _].
  unfold get, filter_slice. cbn [SSTableReader.footer table_reader mmap].
  rewrite Hf. unfold Footer_new. cbn [filter_len filter_offset].
  destruct (Z.eqb_spec (len filt) 0) as [Hz | Hnz]; [by left |].
  set (off := len (enc_blocks bs) + len (enc_index (index_of 0 bs))).
  pose proof (len_table bs filt) as Hlen. fold off in Hlen. unfold FOOTER_SIZE in Hlen.
  assert (0 <= off) by (unfold off; len_facts; lia). pose proof (len_nonneg filt).
  rewrite wrap64_small by (unfold is_u64 in *; lia).
  destruct (Z.ltb_spec (len (table_bytes bs filt)) (off + len filt)); [lia |].
  rewrite (raw_slice_at (enc_blocks bs ++ enc_index (index_of 0 bs)) filt (enc_footer (table_footer bs filt)));
    [| unfold table_bytes; by rewrite <- app_assoc | unfold off; by rewrite len_app | done].
  cbn [mbind outcome_bind]. unfold filter_of in Hfilt.
  destruct (decide (ekey <$> concat bs = [])) as [Hnil | Hne].
  { rewrite Hnil in Hfilt. injection Hfilt as <-. done. }
  destruct (filter_has_keys (E := io_error) _ Hne) as (d & f & Hb & _ & Hnew & Hc).
  rewrite Hb in Hfilt. injection Hfilt as ->. rewrite Hnew.
  destruct (Hc E avx2 key) as ([] & -> & Hin).
  - by left.
  - right. split; [done |]. intros Hk. by discriminate (Hin Hk).
Qed.

(** ** The search lands on the right block *)

Lemma rank_mono a b k : ble a b -> (rank (bytes_cmp a k) <= rank (bytes_cmp b k))%nat.
Proof.
  intros Hab. destruct (bytes_cmp a k) eqn:Ha, (bytes_cmp b k) eqn:Hb; cbn; try lia; exfalso.
  - apply bytes_cmp_eq in Ha as ->. change (blt b k) in Hb. by apply (blt_irrefl b), (blt_ble_trans _ k).
  - apply bgt_blt in Ha. apply bytes_cmp_eq in Hb as ->. by apply (blt_irrefl k), (blt_ble_trans _ a).
  - apply bgt_blt in Ha. change (blt b k) in Hb. apply (blt_irrefl a).
    eapply ble_blt_trans; [exact Hab |]. eauto with keys.
Qed.

Definition last_keys (bs : list (list entry)) : list bytes := block_last_key <$> bs.

Lemma index_last_keys off bs : ir_last_key ∘ to_record <$> index_of off bs = last_keys bs.
Proof. revert off. induction bs as [|b bs IH]; intros off; cbn; [done | by rewrite IH]. Qed.

Lemma concat_sorted_mid {R : relation bytes} bs1 b bs2 e1 e2 :
  StronglySorted R (ekey <$> concat (bs1 ++ b :: bs2)) ->
  (e1 ∈ concat bs1 -> e2 ∈ b -> R (ekey e1) (ekey e2)) /\
  (e1 ∈ b -> e2 ∈ concat bs2 -> R (ekey e1) (ekey e2)).
Proof.
  rewrite concat_app. cbn [concat]. rewrite fmap_app, StronglySorted_app, fmap_app, StronglySorted_app.
  intros (H1 & _ & H2 & _). split; intros He1 He2.
  - apply H1; [by apply list_elem_of_fmap_2 |]. apply elem_of_app. left. by apply list_elem_of_fmap_2.
  - apply H2; by apply list_elem_of_fmap_2.
Qed.

Lemma block_last_key_in bs b : Forall (fun b => b <> []) bs -> b ∈ bs ->
  exists e, e ∈ b /\ e ∈ concat bs /\ block_last_key b = ekey e.
Proof.
  intros Hne Hb. rewrite Forall_forall in Hne. destruct (block_last_key_elem b (Hne b Hb)) as (e & He & Hk).
  exists e. split_and!; [done | | done]. apply list_elem_of_In, in_concat. exists b.
  by split; apply list_elem_of_In.
Qed.

Lemma last_keys_sorted bs : Forall (fun b => b <> []) bs -> sorted_keys (concat bs) ->
  StronglySorted ble (last_keys bs).
Proof.
  induction bs as [|b bs IH]; intros Hne Hs; [constructor |]. pose proof Hs as Hs'.
  apply Forall_cons in Hne as [Hb Hne]. unfold sorted_keys in Hs. cbn [concat] in Hs. rewrite fmap_app in Hs.
  apply StronglySorted_app in Hs as (Hbb & _ & Hs). constructor; [by apply IH |].
  destruct (block_last_key_elem b Hb) as (e & He & ->). apply Forall_fmap, Forall_forall. intros b' Hb'.
  destruct (block_last_key_in bs b' Hne Hb') as (e' & _ & He' & Hk). cbn. rewrite Hk.
  apply Hbb; by apply list_elem_of_fmap_2.
Qed.

Definition key_cmp (key : bytes) (r : IndexRecord) : comparison := bytes_cmp (ir_last_key r) key.

Lemma index_sorted_by bs key : Forall (fun b => b <> []) bs -> sorted_keys (concat bs) ->
  sorted_by (key_cmp key) (to_record <$> index_of 0 bs).
Proof.
  intros Hne Hs. pose proof (last_keys_sorted bs Hne Hs) as Hl.
  rewrite <- (index_last_keys 0), list_fmap_compose in Hl.
  intros i j x y Hij Hx Hy. apply rank_mono. destruct (decide (i = j)) as [-> | Hne'].
  { by replace y with x by congruence. }
  eapply (StronglySorted_lookup _ _ i j); [exact Hl | lia | |]; by rewrite list_lookup_fmap, ?Hx, ?Hy.
Qed.

(** The index of a split of the blocks. *)
Lemma blocks_split bs i r : (to_record <$> index_of 0 bs) !! i = Some r ->
  exists bs1 b bs2, bs = bs1 ++ b :: bs2 /\ length bs1 = i /\ ir_last_key r = block_last_key b.
Proof.
  intros Hr. assert (i < length bs)%nat as Hi.
  { apply lookup_lt_Some in Hr. by rewrite length_fmap, length_index_of in Hr. }
  destruct (lookup_lt_is_Some_2 bs i Hi) as [b Hb]. apply list_elem_of_split_length in Hb as (bs1 & bs2 & -> & ->).
  exists bs1, b, bs2. split_and!; [done | done |]. rewrite list_lookup_fmap, index_of_mid in Hr.
  by injection Hr as <-.
Qed.

Lemma records_mid bs1 b bs2 : exists r,
  (to_record <$> index_of 0 (bs1 ++ b :: bs2)) !! length bs1 = Some r /\ ir_last_key r = block_last_key b.
Proof. eexists. rewrite list_lookup_fmap, index_of_mid. done. Qed.

(** Where the index search ends: at a block whose last key is the key, or at
    the first block that ends above the key, or past all blocks. *)
Lemma target_cases `{BSS : BinarySearchSpec} bs filt key :
  Forall (fun b => b <> []) bs -> sorted_keys (concat bs) ->
  let i := target_idx (table_reader bs filt) key in
  (exists bs1 b bs2, bs = bs1 ++ b :: bs2 /\ length bs1 = i /\
     (block_last_key b = key \/
      (Forall (fun b' => blt (block_last_key b') key) bs1 /\ blt key (block_last_key b)))) \/
  ((length bs <= i)%nat /\ Forall (fun b' => blt (block_last_key b') key) bs).
Proof.
  intros Hne Hs i. unfold i, target_idx. cbn [SSTableReader.index table_reader].
  change (fun entry : IndexRecord => bytes_cmp (ir_last_key entry) key) with (key_cmp key).
  pose proof (binary_search_spec _ (key_cmp key) _ (index_sorted_by bs key Hne Hs)) as Hp.
  destruct (binary_search_by (key_cmp key) (to_record <$> index_of 0 bs)) as [j | j]; cbn in Hp.
  - left. destruct Hp as (r & Hr & He). destruct (blocks_split _ _ _ Hr) as (bs1 & b & bs2 & -> & Hl & Hk).
    exists bs1, b, bs2. split_and!; [done | done |]. left. rewrite <- Hk. by apply bytes_cmp_eq.
  - destruct Hp as (Hj & Hlt & Hgt). rewrite length_fmap, length_index_of in Hj.
    assert (forall bs1 bs2, bs = bs1 ++ bs2 -> (length bs1 <= j)%nat ->
      Forall (fun b' => blt (block_last_key b') key) bs1) as Hbefore.
    { intros bs1 bs2 -> Hl. apply Forall_lookup. intros m b' Hm. pose proof (lookup_lt_Some _ _ _ Hm).
      apply list_elem_of_split_length in Hm as (c1 & c2 & -> & ->).
      destruct (records_mid c1 b' (c2 ++ bs2)) as (r & Hr & Hk). rewrite <- Hk.
      apply (Hlt (length c1) r); [lia |]. by rewrite <- app_assoc. }
    destruct (decide (j = length bs)) as [-> | Hnj].
    + right. split; [done |]. apply (Hbefore bs []); [by rewrite app_nil_r | done].
    + left. destruct (lookup_lt_is_Some_2 bs j) as [b Hb]; [lia |].
      apply list_elem_of_split_length in Hb as (bs1 & bs2 & -> & ->).
      exists bs1, b, bs2. split_and!; [done | done |]. right. split; [by eapply Hbefore |].
      destruct (records_mid bs1 b bs2) as (r & Hr & Hk). rewrite <- Hk.
      apply bgt_blt. by apply (Hgt (length bs1) r).
Qed.

(** ** Lookups over the blocks *)

Lemma lookup_entries_none es key : lookup_entries es key = None <-> key ∉ ekey <$> es.
Proof.
  induction es as [|e es IH]; [split; [intros _ H; inversion H | done] |].
  rewrite lookup_entries_cons, fmap_cons, not_elem_of_cons. case_decide; [split; [done |] |].
  - by intros [? _].
  - rewrite IH. split; [by split | by intros [_ ?]].
Qed.

Lemma lookup_entries_app es es' key : lookup_entries (es ++ es') key =
  match lookup_entries es key with Some r => Some r | None => lookup_entries es' key end.
Proof.
  induction es as [|e es IH]; [done |]. cbn [app]. rewrite !lookup_entries_cons. by case_decide.
Qed.

Lemma lookup_entries_elem (es : list entry) key r : lookup_entries es key = Some r ->
  exists e, e ∈ es /\ ekey e = key /\ eval e = r.
Proof.
  induction es as [|e es IH]; [done |]. rewrite lookup_entries_cons. case_decide as Hk.
  - intros [= <-]. exists e. split_and!; [constructor | done | done].
  - intros Hr. destruct (IH Hr) as (e' & He' & ? & ?). exists e'. split_and!; [by constructor | done | done].
Qed.

Lemma not_in_keys (es : list entry) key : (forall e, e ∈ es -> ekey e <> key) -> key ∉ ekey <$> es.
Proof. intros H (e & -> & He)%list_elem_of_fmap. by apply (H e He). Qed.

(** All keys of a block are at most its last key, and so are the keys before it. *)
Lemma block_keys_le bs1 b bs2 (e : entry) : Forall (fun b => b <> []) (bs1 ++ b :: bs2) ->
  sorted_keys (concat (bs1 ++ b :: bs2)) -> e ∈ concat (bs1 ++ [b]) -> ble (ekey e) (block_last_key b).
Proof.
  intros Hne Hs He. assert (b <> []) as Hb.
  { rewrite Forall_forall in Hne. apply Hne, elem_of_app. right. constructor. }
  unfold block_last_key. destruct (last b) as [e'|] eqn:Hl; [| by apply last_None in Hl].
  apply last_Some in Hl as [b' ->]. cbn. unfold sorted_keys in Hs.
  replace (concat (bs1 ++ (b' ++ [e']) :: bs2)) with ((concat bs1 ++ b') ++ e' :: concat bs2) in Hs
    by (rewrite concat_app; cbn; by rewrite <- !app_assoc).
  rewrite concat_app in He. cbn in He. rewrite app_nil_r, app_assoc, elem_of_app in He.
  destruct He as [He | He]; [| apply list_elem_of_singleton in He as ->; apply ble_refl].
  rewrite fmap_app in Hs. eapply (StronglySorted_app_1_elem_of _ _ _ _ _ Hs); [by apply list_elem_of_fmap_2 |].
  constructor.
Qed.

(** When the search lands on a block that ends above the key, its answer is the
    table's. *)
Lemma lookup_in_block bs1 b bs2 key : Forall (fun b => b <> []) (bs1 ++ b :: bs2) ->
  sorted_keys (concat (bs1 ++ b :: bs2)) ->
  Forall (fun b' => blt (block_last_key b') key) bs1 -> blt key (block_last_key b) ->
  lookup_entries (concat (bs1 ++ b :: bs2)) key = lookup_entries b key.
Proof.
  intros Hne Hs Hbefore Hb. rewrite concat_app. cbn [concat]. rewrite !lookup_entries_app.
  rewrite (proj2 (lookup_entries_none (concat bs1) key)).
  - destruct (lookup_entries b key) eqn:Hr; [done |]. apply lookup_entries_none, not_in_keys.
    intros e He <-. destruct (block_last_key_elem b) as (e' & He' & Hk).
    { rewrite Forall_forall in Hne. apply Hne, elem_of_app. right. constructor. }
    destruct (concat_sorted_mid bs1 b bs2 e' e Hs) as [_ Hle]. rewrite Hk in Hb.
    by apply (blt_irrefl (ekey e')), (ble_blt_trans _ (ekey e)); [apply Hle |].
  - apply not_in_keys. intros e He <-. apply list_elem_of_In, in_concat in He as (b' & Hb' & He).
    apply list_elem_of_In in Hb'. pose proof Hb' as (c1 & c2 & ->)%list_elem_of_split.
    rewrite Forall_forall in Hbefore. specialize (Hbefore b' Hb').
    apply (blt_irrefl (ekey e)). eapply ble_blt_trans; [| exact Hbefore].
    rewrite <- app_assoc in Hne, Hs. cbn [app] in Hne, Hs. eapply block_keys_le; [exact Hne | exact Hs |].
    rewrite concat_app, elem_of_app. right. cbn. rewrite app_nil_r. by apply list_elem_of_In.
Qed.

(** No block ends at or above the key. *)
Lemma lookup_past bs key : Forall (fun b => b <> []) bs -> sorted_keys (concat bs) ->
  Forall (fun b' => blt (block_last_key b') key) bs -> lookup_entries (concat bs) key = None.
Proof.
  intros Hne Hs Hlt. apply lookup_entries_none, not_in_keys. intros e He <-.
  apply list_elem_of_In, in_concat in He as (b & Hb & He). apply list_elem_of_In in Hb.
  pose proof Hb as (c1 & c2 & ->)%list_elem_of_split. rewrite Forall_forall in Hlt. specialize (Hlt b Hb).
  apply (blt_irrefl (ekey e)). eapply ble_blt_trans; [| exact Hlt].
  eapply block_keys_le; [exact Hne | exact Hs |].
  rewrite concat_app, elem_of_app. right. cbn. rewrite app_nil_r. by apply list_elem_of_In.
Qed.

Lemma sorted_block bs1 b bs2 : sorted_keys (concat (bs1 ++ b :: bs2)) -> sorted_keys b.
Proof.
  unfold sorted_keys. rewrite concat_app. cbn [concat]. rewrite fmap_app, StronglySorted_app, fmap_app, StronglySorted_app.
  by intros (_ & _ & _ & ? & _).
Qed.

(** The key is the last key of a block: the block has an entry for it. *)
Lemma last_key_lookup b : b <> [] -> exists v, lookup_entries b (block_last_key b) = Some v.
Proof.
  intros Hb. destruct (lookup_entries b (block_last_key b)) as [v|] eqn:Hl; [by exists v |].
  apply lookup_entries_none in Hl. destruct (block_last_key_elem b Hb) as (e & He & Hk).
  destruct Hl. rewrite Hk. by apply list_elem_of_fmap_2.
Qed.

Lemma lookup_strict_block bs1 b bs2 v : strictly_sorted (concat (bs1 ++ b :: bs2)) ->
  Forall (fun b => b <> []) (bs1 ++ b :: bs2) ->
  lookup_entries b (block_last_key b) = Some v ->
  lookup_entries (concat (bs1 ++ b :: bs2)) (block_last_key b) = Some v.
Proof.
  intros Hs Hne Hv. rewrite concat_app. cbn [concat]. rewrite !lookup_entries_app, Hv.
  rewrite (proj2 (lookup_entries_none (concat bs1) _)); [done |]. apply not_in_keys. intros e He Hk.
  destruct (block_last_key_elem b) as (e' & He' & Hk').
  { rewrite Forall_forall in Hne. apply Hne, elem_of_app. right. constructor. }
  destruct (concat_sorted_mid bs1 b bs2 e e' Hs) as [Hlt _]. specialize (Hlt He He').
  rewrite Hk, Hk' in Hlt. by destruct (blt_irrefl (ekey e')).
Qed.

(** [get] over a table: an answer exactly for the keys of the table, always one
    of the key's entries, and the entry when the keys are unique. *)
Lemma table_get `{BSS : BinarySearchSpec} `{Fueled E} bs filt avx2 key :
  table_ok bs filt -> filter_of (concat bs) filt -> sorted_keys (concat bs) ->
  exists res, get (E := E) avx2 (table_reader bs filt) key = Ok res /\
    (res = None <-> lookup_entries (concat bs) key = None) /\
    (forall v, res = Some v -> exists e, e ∈ concat bs /\ ekey e = key /\ eval e = v) /\
    (strictly_sorted (concat bs) -> res = lookup_entries (concat bs) key).
Proof.
  intros Hok Hfilt Hs. pose proof Hok as (_ & Hne & Hl).
  destruct (table_filter bs filt avx2 key (E := E) Hl Hfilt) as [-> | [-> Hno]].
  2:{ apply lookup_entries_none in Hno. exists None. by rewrite Hno. }
  destruct (target_cases bs filt key Hne Hs) as [(bs1 & b & bs2 & -> & Hi & Hcase) | [Hi Hpast]].
  2:{ rewrite get_indexed_past by done. exists None. by rewrite lookup_past. }
  rewrite get_indexed_block by done. pose proof (sorted_block _ _ _ Hs) as Hsb.
  rewrite search_entries_sorted by done. exists (lookup_entries b key). split; [done |].
  assert (forall v, lookup_entries b key = Some v ->
    exists e, e ∈ concat (bs1 ++ b :: bs2) /\ ekey e = key /\ eval e = v) as Hsome.
  { intros v (e & He & ? & ?)%lookup_entries_elem. exists e. split_and!; [| done | done].
    rewrite concat_app, elem_of_app. right. cbn. apply elem_of_app. by left. }
  destruct Hcase as [<- | [Hbefore Hafter]].
  - destruct (last_key_lookup b) as [v Hv].
    { rewrite Forall_forall in Hne. apply Hne, elem_of_app. right. constructor. }
    rewrite Hv in *. split_and!; [| done | intros Hss; symmetry; by apply lookup_strict_block].
    split; [done |]. intros Hnone%lookup_entries_none. destruct (Hsome v eq_refl) as (e & He & Hk & _).
    destruct Hnone. rewrite <- Hk. by apply list_elem_of_fmap_2.
  - rewrite lookup_in_block by done. by split_and!.
Qed.

Lemma table_first_last {E} bs filt : table_ok bs filt ->
  get_first_key (E := E) (table_reader bs filt) = Ok (ekey <$> head (concat bs)) /\
  get_last_key (table_reader bs filt) = ekey <$> last (concat bs).
Proof.
  intros (Hok & Hne & Hl). split.
  - unfold get_first_key. cbn [SSTableReader.index table_reader mmap]. rewrite len_fmap.
    destruct bs as [|b bs]; [done |].
    change (b :: bs) with ([] ++ b :: bs) in *. rewrite (index_ok _ 0 (to_record
      (mk_IndexEntry (block_last_key b) (wrap64 0) (len (enc_block b))))) by done.
    destruct (Z.eqb_spec (len (index_of 0 ([] ++ b :: bs))) 0) as [Hz |]; [cbn in Hz; unfold len in Hz; cbn in Hz; lia |].
    cbn [mbind outcome_bind ir_offset ir_len to_record ie_offset ie_len].
    destruct (block_slice_ok (E := E) [] b bs filt Hl) as (_ & _ & _ & Hr).
    change (wrap64 0) with (len (enc_blocks [])). rewrite Hr. cbn [mbind outcome_bind].
    apply Forall_cons in Hne as [Hb _]. destruct b as [|[[k v] q] b]; [done |].
    cbn [app concat] in Hok. apply Forall_cons in Hok as [He _].
    unfold BlockIter_new. pose proof (next_entry_block (E := E) [] (k, v, q) b He) as Hn.
    rewrite app_nil_l in Hn. change (len (enc_block [])) with 0 in Hn. by rewrite Hn.
  - unfold get_last_key. cbn [SSTableReader.index table_reader]. clear Hl Hok.
    destruct bs as [|b bs _] using rev_ind; [done |].
    rewrite index_of_app, fmap_app, concat_app. cbn. rewrite last_snoc, app_nil_r. cbn.
    apply Forall_app in Hne as [_ Hb]. apply Forall_cons in Hb as [Hb _]. unfold block_last_key.
    rewrite last_app. destruct (last b) as [e|] eqn:Hlast; [done |]. by apply last_None in Hlast.
Qed.

(** What holds of the file of a table the writer finished. *)
Lemma written_table `{FS : FileOpsSpec} es s n : write_table es SSTableWriter_create = (s, Ok n) ->
  Forall entry_ok es -> is_u64 (len (file s)) ->
  exists bs filt, concat bs = es /\ file s = table_bytes bs filt /\ table_ok bs filt /\
    filter_of (concat bs) filt /\ SSTableReader_open (file s) = Ok (table_reader bs filt).
Proof.
  intros Hw Hok Hl. pose proof (write_table_run es) as Hr. rewrite Hw in Hr. cbn in Hr.
  destruct Hr as (bs & filt & (Hc & Hne & _) & Hfilt & Hf & _). rewrite Hf in *. exists bs, filt.
  assert (table_ok bs filt) as Htok by (split_and!; [by rewrite Hc | done | done]).
  rewrite Hc. split_and!; [done | done | done | done | by apply table_open].
Qed.

(** * Properties *)

Section properties.
  Context `{FS : FileOpsSpec} `{BSS : BinarySearchSpec}.

(** C9: A table is a sorted map: after writing entries with strictly increasing keys, the file
    opens, and [get] answers for every key what the entries say, value, tombstone or absence, with
    either probe of the Bloom filter and any binary search that keeps the standard library's
    promise. *)
Theorem get_is_lookup (es : list entry) (s : SSTableWriter) (n : Z)
    (Hw : write_table es SSTableWriter_create = (s, Ok n))
    (Hok : Forall entry_ok es) (Hs : strictly_sorted es) (Hl : is_u64 (len (file s))) :
  exists r, SSTableReader_open (file s) = Ok r /\
    forall avx2 key, get (E := fuel_error) avx2 r key = Ok (lookup_entries es key).
Proof.
  destruct (written_table es s n Hw Hok Hl) as (bs & filt & <- & _ & Htok & Hfilt & Hopen).
  exists (table_reader bs filt). split; [done |]. intros avx2 key.
  destruct (table_get (E := fuel_error) bs filt avx2 key Htok Hfilt) as (res & -> & _ & _ & Hres).
  - by apply strictly_sorted_sorted.
  - by rewrite Hres.
Qed.

(** When keys repeat, as in a table flushed from a memtable that keeps every version, [get]
    still answers exactly for the keys in the table, and with one of the key's versions. *)
Theorem get_some_version (es : list entry) (s : SSTableWriter) (n : Z)
    (Hw : write_table es SSTableWriter_create = (s, Ok n))
    (Hok : Forall entry_ok es) (Hs : sorted_keys es) (Hl : is_u64 (len (file s))) :
  exists r, SSTableReader_open (file s) = Ok r /\
    forall avx2 key, exists res, get (E := fuel_error) avx2 r key = Ok res /\
      (res = None <-> key ∉ ekey <$> es) /\
      (forall v, res = Some v -> exists e, e ∈ es /\ ekey e = key /\ eval e = v).
Proof.
  destruct (written_table es s n Hw Hok Hl) as (bs & filt & <- & _ & Htok & Hfilt & Hopen).
  exists (table_reader bs filt). split; [done |]. intros avx2 key.
  destruct (table_get (E := fuel_error) bs filt avx2 key Htok Hfilt Hs) as (res & -> & Hnone & Hsome & _).
  exists res. rewrite Hnone, lookup_entries_none. by split_and!.
Qed.

(** [get_first_key] and [get_last_key] of a written table are the first and the last key
    appended to it, none for an empty table; the levels' key ranges come from here. *)
Theorem table_key_range (es : list entry) (s : SSTableWriter) (n : Z)
    (Hw : write_table es SSTableWriter_create = (s, Ok n))
    (Hok : Forall entry_ok es) (Hl : is_u64 (len (file s))) :
  exists r, SSTableReader_open (file s) = Ok r /\
    get_first_key (E := fuel_error) r = Ok (ekey <$> head es) /\ get_last_key r = ekey <$> last es.
Proof.
  destruct (written_table es s n Hw Hok Hl) as (bs & filt & <- & _ & Htok & Hfilt & Hopen).
  exists (table_reader bs filt). split; [done |]. by apply table_first_last.
Qed.

End properties.

(** A small table, with a tombstone and an empty key. *)
Definition sample_entries : list entry :=
  [([], Some [Byte.x09], 3); ([Byte.x61], Some [Byte.x01], 7); ([Byte.x62], None, 6)].
Definition sample_run : SSTableWriter * outcome io_error Z :=
  write_table (F := reliable_file) sample_entries SSTableWriter_create.

Lemma sample_ok : sample_run = (sample_run.1, Ok 145) /\ Forall entry_ok sample_entries /\
  strictly_sorted sample_entries /\ is_u64 (len (file sample_run.1)).
Proof.
  split; [by vm_compute |]. split; [repeat constructor; vm_compute; congruence |].
  split; [by repeat constructor |]. by vm_compute.
Qed.

Lemma get_is_lookup_witness :
  (sample_run = (sample_run.1, Ok 145) /\ Forall entry_ok sample_entries /\
   strictly_sorted sample_entries /\ is_u64 (len (file sample_run.1))) /\
  exists r, SSTableReader_open (file sample_run.1) = Ok r /\
    forall avx2 key, get (E := fuel_error) avx2 r key = Ok (lookup_entries sample_entries key).
Proof.
  split; [exact sample_ok |]. destruct sample_ok as (Hw & Hok & Hs & Hl).
  exact (get_is_lookup (F := reliable_file) sample_entries _ _ Hw Hok Hs Hl).
Defined.

Lemma get_some_version_witness :
  (sample_run = (sample_run.1, Ok 145) /\ Forall entry_ok sample_entries /\
   sorted_keys sample_entries /\ is_u64 (len (file sample_run.1))) /\
  exists r, SSTableReader_open (file sample_run.1) = Ok r /\
    forall avx2 key, exists res, get (E := fuel_error) avx2 r key = Ok res /\
      (res = None <-> key ∉ ekey <$> sample_entries) /\
      (forall v, res = Some v -> exists e, e ∈ sample_entries /\ ekey e = key /\ eval e = v).
Proof.
  destruct sample_ok as (Hw & Hok & Hs & Hl). apply strictly_sorted_sorted in Hs.
  split; [by split_and! |].
  exact (get_some_version (F := reliable_file) sample_entries _ _ Hw Hok Hs Hl).
Defined.

Lemma table_key_range_witness :
  (sample_run = (sample_run.1, Ok 145) /\ Forall entry_ok sample_entries /\
   is_u64 (len (file sample_run.1))) /\
  exists r, SSTableReader_open (file sample_run.1) = Ok r /\
    get_first_key (E := fuel_error) r = Ok (ekey <$> head sample_entries) /\
    get_last_key r = ekey <$> last sample_entries.
Proof.
  destruct sample_ok as (Hw & Hok & Hs & Hl). split; [by split_and! |].
  exact (table_key_range (F := reliable_file) sample_entries _ _ Hw Hok Hl).
Defined.

(** With a key whose versions fill more than one block, the version [get] returns need not be
    the newest: here the table holds a value of sequence number 2 followed by the overwritten value
    of sequence number 1, each in a block of its own, and [get] returns the older one. *)
Theorem overwritten_value_returned :
  let new := replicate 4096 Byte.x02 in
  let old := replicate 4096 Byte.x01 in
  let es := [([Byte.x61], Some new, 2); ([Byte.x61], Some old, 1)] in
  let s := (write_table (F := reliable_file) es SSTableWriter_create).1 in
  sorted_keys es /\ lookup_entries es [Byte.x61] = Some (Some new, 2) /\
  match SSTableReader_open (file s) with
  | Ok r => get (E := fuel_error) false r [Byte.x61] = Ok (Some (Some old, 1))
  | _ => False
  end.
Proof. cbv zeta. split; [by repeat constructor |]. split; by vm_compute. Qed.

(** The bounds checks on offsets read from the file add them in 64 bits: a footer whose
    index offset and length add up past 2^64 passes the check of [parse_index], and [open]
    panics instead of reporting the file as corrupt. *)
Theorem open_wrapping_footer_panics :
  let f := Footer_new (2 ^ 64 - 8) 8 0 0 in
  footer_ok f /\ SSTableReader_open (enc_footer f) = Panic.
Proof. split; [by repeat split | by vm_compute]. Qed.
