(* ===== verification/Streaming.v ===== *)
(** * The streaming table iterator (tier3_storage/src/sstable/streaming.rs)

    [StreamingSSTableIterator]: [open], [parse_index] (without the bounds check
    the reader has), [load_next_block], [next_kv]; [EntryStream], the interface
    a consumer of sorted entries relies on; and that the iterator over a table
    the writer finished is such a stream of the table's entries. *)

From S2P Require Import Prelude Bloom Block Footer SSTable SSTableReader.
#[local] Open Scope Z_scope.

(** ** The interface

    A source of entries: [yields it es] says that [it] gives the entries [es],
    one for each call of [stream_next], and then [None] for ever. *)
Class EntryStream (I : Type) := {
  stream_next : st I io_error (option entry);
  yields : I -> list entry -> Prop;
  stream_next_nil : forall it, yields it [] ->
    exists it', stream_next it = (it', Ok None) /\ yields it' [];
  stream_next_cons : forall it e es, yields it (e :: es) ->
    exists it', stream_next it = (it', Ok (Some e)) /\ yields it' es
}.

(** ** The iterator *)

Record StreamingSSTableIterator := mk_Streaming {
  mmap : bytes;
  index : list IndexRecord;
  current_index_idx : Z;
  current_block_iter : option BlockIter
}.

(** The loop of [parse_index]: no check between the length and the slices. *)
Fixpoint parse_loop (fuel : nat) (index_slice : bytes) (curr : Z) (records : list IndexRecord)
    : outcome io_error (list IndexRecord) :=
  match fuel with
  | O => Err out_of_fuel
  | S fuel =>
      if len index_slice <? curr + 4 then Ok records else
      k ← range index_slice curr (curr + 4);
      let k_len := from_le_bytes k in
      let curr := curr + 4 in
      last_key ← range index_slice curr (curr + k_len);
      let curr := curr + k_len in
      o ← range index_slice curr (curr + 8);
      let block_offset := from_le_bytes o in
      let curr := curr + 8 in
      l ← range index_slice curr (curr + 8);
      let block_len := from_le_bytes l in
      let curr := curr + 8 in
      parse_loop fuel index_slice curr (records ++ [mk_IndexRecord last_key block_offset block_len])
  end.

Definition parse_index (slice : bytes) (offset length : Z) : outcome io_error (list IndexRecord) :=
  if len slice <? wrap64 (offset + length) then Err UnexpectedEof else
  index_slice ← range slice offset (wrap64 (offset + length));
  parse_loop (S (List.length index_slice)) index_slice 0 [].

Definition load_next_block {E} : st StreamingSSTableIterator E unit :=
  s ← get_state;
  if len (index s) <=? current_index_idx s
  then put_state (mk_Streaming (mmap s) (index s) (current_index_idx s) None)
  else
    entry ← lift (Prelude.index (index s) (current_index_idx s));
    let idx := current_index_idx s + 1 in
    put_state (mk_Streaming (mmap s) (index s) idx (current_block_iter s));;
    block_slice ← lift (raw_slice (mmap s) (ir_offset entry) (ir_len entry));
    put_state (mk_Streaming (mmap s) (index s) idx (Some (BlockIter_new block_slice))).

(** [StreamingSSTableIterator::open] on the bytes of the mapped file. *)
Definition Streaming_open (file : bytes) : outcome io_error StreamingSSTableIterator :=
  let file_len := len file in
  if file_len <? FOOTER_SIZE then Err InvalidData else
  tail ← range file (file_len - FOOTER_SIZE) file_len;
  footer ← decode tail;
  index ← parse_index file (index_offset footer) (index_len footer);
  let '(iter, r) := load_next_block (mk_Streaming file index 0 None) in
  r;;
  Ok iter.

(** [b_iter.next_entry()] on the iterator's current block. *)
Definition block_next {E} : st StreamingSSTableIterator E (option entry) := fun s =>
  match current_block_iter s with
  | Some b_iter =>
      let '(b_iter, r) := next_entry b_iter in
      (mk_Streaming (mmap s) (index s) (current_index_idx s) (Some b_iter), r)
  | None => (s, Ok None)
  end.

(** The [loop] of [next_kv]. *)
Fixpoint next_loop `{Fueled E} (fuel : nat) : st StreamingSSTableIterator E (option entry) :=
  match fuel with
  | O => throw out_of_fuel
  | S fuel =>
      e ← block_next;
      match e with
      | Some (k, v, s) => mret (Some (k, v, s))
      | None =>
          s ← get_state;
          if current_index_idx s <? len (index s)
          then load_next_block;; next_loop fuel
          else mret None
      end
  end.

(** [next_kv]: each turn that does not return loads a block of the index. *)
Definition next_kv `{Fueled E} : st StreamingSSTableIterator E (option entry) := fun s =>
  next_loop (S (List.length (index s))) s.

(** * Lemmas *)

Lemma parse_loop_agrees fuel slice curr records r :
  SSTableReader.parse_loop fuel slice curr records = Ok r -> parse_loop fuel slice curr records = Ok r.
Proof.
  revert curr records. induction fuel as [|fuel IH]; intros curr records; [done |].
  cbn [SSTableReader.parse_loop parse_loop]. destruct (len slice <? curr + 4); [done |].
  rewrite !bind_Ok. intros (k & Hk & H). exists k. split; [done |].
  destruct (len slice <? curr + 4 + from_le_bytes k + 16); [done |].
  rewrite !bind_Ok in *. destruct H as (key & Hkey & H). exists key. split; [done |].
  rewrite !bind_Ok in *. destruct H as (o & Ho & H). exists o. split; [done |].
  rewrite !bind_Ok in *. destruct H as (l & Hl & H). exists l. split; [done |]. by apply IH.
Qed.

(** On an index the reader accepts, both parsers agree. *)
Lemma parse_index_agrees slice offset length r :
  SSTableReader.parse_index slice offset length = Ok r -> parse_index slice offset length = Ok r.
Proof.
  unfold SSTableReader.parse_index, parse_index. destruct (_ <? _); [done |].
  rewrite !bind_Ok. intros (s & Hs & H). exists s. split; [done |]. by apply parse_loop_agrees.
Qed.

(** The iterator inside block [b = es1 ++ es2], at [es2]. *)
Definition in_block bs1 es1 es2 bs2 filt : StreamingSSTableIterator :=
  let bs := bs1 ++ (es1 ++ es2) :: bs2 in
  mk_Streaming (table_bytes bs filt) (to_record <$> index_of 0 bs) (len bs1 + 1)
    (Some (mk_BlockIter (enc_block (es1 ++ es2)) (len (enc_block es1)))).

Definition no_blocks filt : StreamingSSTableIterator := mk_Streaming (table_bytes [] filt) [] 0 None.

Inductive streams : StreamingSSTableIterator -> list entry -> Prop :=
| streams_empty filt : streams (no_blocks filt) []
| streams_block bs1 es1 es2 bs2 filt :
    table_ok (bs1 ++ (es1 ++ es2) :: bs2) filt ->
    streams (in_block bs1 es1 es2 bs2 filt) (es2 ++ concat bs2).

Lemma len_records bs : len (to_record <$> index_of 0 bs) = len bs.
Proof. rewrite len_fmap. unfold len. by rewrite length_index_of. Qed.

(** Loading the block after [bs1]. *)
Lemma load_block {E} bs1 b bs2 filt cur : table_ok (bs1 ++ b :: bs2) filt ->
  load_next_block (E := E) (mk_Streaming (table_bytes (bs1 ++ b :: bs2) filt)
    (to_record <$> index_of 0 (bs1 ++ b :: bs2)) (len bs1) cur) =
  (in_block bs1 [] b bs2 filt, Ok tt).
Proof.
  intros (_ & _ & Hl). unfold load_next_block, mbind, st_bind, get_state, put_state, lift.
  cbn [index mmap current_index_idx current_block_iter]. rewrite len_records, len_app, len_cons. len_facts.
  destruct (Z.leb_spec (len bs1 + (1 + len bs2)) (len bs1)); [lia |].
  erewrite index_ok; [| lia | unfold len at 1; rewrite Nat2Z.id, list_lookup_fmap, index_of_mid; done].
  cbn [to_record ir_offset ir_len ie_last_key ie_offset ie_len].
  destruct (block_slice_ok (E := E) bs1 b bs2 filt Hl) as (-> & _ & _ & ->). done.
Qed.

Lemma streaming_open bs filt : table_ok bs filt ->
  exists it, Streaming_open (table_bytes bs filt) = Ok it /\ streams it (concat bs).
Proof.
  intros Hok. pose proof (table_open bs filt Hok) as Ho. unfold SSTableReader_open in Ho.
  unfold Streaming_open. destruct (_ <? _); [done |].
  apply bind_Ok in Ho as (tail & Htail & Ho). rewrite Htail. cbn [mbind outcome_bind].
  apply bind_Ok in Ho as (footer & Hf & Ho). rewrite Hf. cbn [mbind outcome_bind].
  apply bind_Ok in Ho as (idx & Hidx & Ho). rewrite (parse_index_agrees _ _ _ _ Hidx). cbn [mbind outcome_bind].
  injection Ho as -> ->. destruct bs as [|b bs].
  - eexists. split; [done |]. apply streams_empty.
  - change (b :: bs) with ([] ++ b :: bs) in *. change 0 with (len (@nil (list entry))) at 2.
    rewrite load_block by done. eexists. split; [done |]. cbn [app concat]. by apply streams_block.
Qed.

Lemma next_loop_entry `{Fueled E} fuel bs1 es1 e es2 bs2 filt :
  table_ok (bs1 ++ (es1 ++ e :: es2) :: bs2) filt ->
  next_loop (E := E) (S fuel) (in_block bs1 es1 (e :: es2) bs2 filt) =
  (in_block bs1 (es1 ++ [e]) es2 bs2 filt, Ok (Some e)).
Proof.
  intros (Hok & _). cbn [next_loop]. unfold mbind, st_bind, block_next, in_block.
  cbn [current_block_iter mmap index current_index_idx]. rewrite next_entry_block.
  - rewrite <- app_assoc. by destruct e as [[k v] q].
  - rewrite concat_app in Hok. apply Forall_app in Hok as [_ Hok]. cbn [concat] in Hok.
    apply Forall_app in Hok as [Hok _]. apply Forall_app in Hok as [_ Hok]. by apply Forall_cons in Hok as [? _].
Qed.

Lemma block_next_end {E} bs1 es1 bs2 filt :
  block_next (E := E) (in_block bs1 es1 [] bs2 filt) = (in_block bs1 es1 [] bs2 filt, Ok None).
Proof.
  unfold block_next, in_block. cbn [current_block_iter mmap index current_index_idx].
  pose proof (next_entry_block_end (E := E) (es1 ++ [])) as Hn. rewrite app_nil_r in *. by rewrite Hn.
Qed.

(** At the end of a block the loop goes to the next one, if there is one. *)
Lemma next_loop_end `{Fueled E} fuel bs1 es1 bs2 filt : table_ok (bs1 ++ (es1 ++ []) :: bs2) filt ->
  next_loop (E := E) (S fuel) (in_block bs1 es1 [] bs2 filt) =
  match bs2 with
  | [] => (in_block bs1 es1 [] bs2 filt, Ok None)
  | b :: bs2 => next_loop fuel (in_block (bs1 ++ [es1]) [] b bs2 filt)
  end.
Proof.
  intros Hok. cbn [next_loop]. rewrite (st_bind_Ok _ _ _ _ _ (block_next_end _ _ _ _)).
  unfold mbind at 1, st_bind at 1, get_state at 1.
  change (index (in_block bs1 es1 [] bs2 filt)) with (to_record <$> index_of 0 (bs1 ++ (es1 ++ []) :: bs2)).
  change (current_index_idx (in_block bs1 es1 [] bs2 filt)) with (len bs1 + 1).
  rewrite len_records, len_app, len_cons. destruct bs2 as [|b bs2].
  - rewrite len_nil. destruct (Z.ltb_spec (len bs1 + 1) (len bs1 + (1 + 0))); [lia | done].
  - rewrite len_cons. pose proof (len_nonneg bs2).
    destruct (Z.ltb_spec (len bs1 + 1) (len bs1 + (1 + (1 + len bs2)))); [| lia].
    unfold in_block at 1. rewrite app_nil_r in *. change (es1 :: b :: bs2) with ([es1] ++ b :: bs2) in *.
    rewrite app_assoc in *. replace (len bs1 + 1) with (len (bs1 ++ [es1])) by len_lia.
    unfold mbind, st_bind. by rewrite load_block.
Qed.

Lemma index_length bs1 es1 es2 bs2 filt :
  List.length (index (in_block bs1 es1 es2 bs2 filt)) = (length bs1 + 1 + length bs2)%nat.
Proof. unfold in_block. cbn [index]. rewrite length_fmap, length_index_of, length_app. cbn. lia. Qed.

(** [next_kv] hands out the entries one by one. *)
Lemma next_kv_streams `{Fueled E} it es : streams it es ->
  match es with
  | [] => exists it', next_kv (E := E) it = (it', Ok None) /\ streams it' []
  | e :: es => exists it', next_kv (E := E) it = (it', Ok (Some e)) /\ streams it' es
  end.
Proof.
  intros Hst. destruct Hst as [filt | bs1 es1 es2 bs2 filt Hok].
  { eexists. split; [done |]. apply streams_empty. }
  unfold next_kv. rewrite index_length. destruct es2 as [|e es2].
  - rewrite Nat.add_1_r, next_loop_end by done. destruct bs2 as [|b bs2].
    + eexists. split; [done |]. by apply (streams_block bs1 es1 [] [] filt).
    + rewrite app_nil_r in Hok. change (es1 :: b :: bs2) with ([es1] ++ b :: bs2) in Hok.
      rewrite app_assoc in Hok. cbn [concat app length]. pose proof Hok as (_ & Hne & _).
      apply Forall_app in Hne as [_ Hne]. apply Forall_cons in Hne as [Hb _].
      destruct b as [|e b]; [done |]. cbn [app]. rewrite Nat.add_succ_l.
      rewrite next_loop_entry by done. eexists. split; [done |].
      apply (streams_block (bs1 ++ [es1]) [e] b bs2 filt). done.
  - cbn [app]. rewrite Nat.add_1_r, next_loop_entry by done. eexists. split; [done |].
    apply streams_block. by rewrite <- app_assoc.
Qed.

#[export] Instance streaming_entry_stream : EntryStream StreamingSSTableIterator.
Proof.
  refine {| stream_next := next_kv; yields := streams |}.
  - intros it Hy. apply (next_kv_streams _ _ Hy).
  - intros it e es Hy. apply (next_kv_streams _ _ Hy).
Defined.

(** A consumer that reads a stream to its end. *)
Fixpoint collect {It} `{EntryStream It} (fuel : nat) (out : list entry) : st It io_error (list entry) :=
  match fuel with
  | O => throw out_of_fuel
  | S fuel => e ← stream_next; match e with Some e => collect fuel (out ++ [e]) | None => mret out end
  end.

Lemma collect_yields {It} `{EntryStream It} fuel out it es : yields it es -> (length es < fuel)%nat ->
  exists it', collect fuel out it = (it', Ok (out ++ es)) /\ yields it' [].
Proof.
  revert fuel out it. induction es as [|e es IH]; intros fuel out it Hy Hf;
    (destruct fuel as [|fuel]; [cbn in Hf; lia |]); cbn [collect].
  - destruct (stream_next_nil it Hy) as (it' & Hn & Hy'). rewrite (st_bind_Ok _ _ _ _ _ Hn).
    exists it'. by rewrite app_nil_r.
  - destruct (stream_next_cons it e es Hy) as (it' & Hn & Hy'). rewrite (st_bind_Ok _ _ _ _ _ Hn).
    destruct (IH fuel (out ++ [e]) it' Hy') as (it2 & Hc & ?); [cbn in Hf; lia |].
    exists it2. by rewrite Hc, <- app_assoc.
Qed.

(** * Properties *)

(** The streaming iterator over the file of a finished table hands out exactly the entries that
    were appended, in order, across the block boundaries, and then [None] on every further call. *)
Theorem streaming_yields_table `{FS : FileOpsSpec} (es : list entry) (s : SSTableWriter) (n : Z)
    (Hw : write_table es SSTableWriter_create = (s, Ok n))
    (Hok : Forall entry_ok es) (Hl : is_u64 (len (file s))) :
  exists it it', Streaming_open (file s) = Ok it /\ collect (S (length es)) [] it = (it', Ok es) /\
    forall m, (next_kv (E := io_error) (Nat.iter m (fun x => (next_kv (E := io_error) x).1) it')).2 = Ok None.
Proof.
  destruct (written_table es s n Hw Hok Hl) as (bs & filt & <- & -> & Htok & _ & _).
  destruct (streaming_open bs filt Htok) as (it & -> & Hy). exists it.
  destruct (collect_yields (H := streaming_entry_stream) (S (length (concat bs))) [] it (concat bs) Hy) as (it' & Hc & Hy'); [lia |].
  exists it'. split_and!; [done | done |]. intros m.
  assert (streams (Nat.iter m (fun x => (next_kv (E := io_error) x).1) it') []) as Hm.
  { induction m as [|m IH]; [done |]. rewrite Nat.iter_succ.
    destruct (next_kv_streams (E := io_error) _ [] IH) as (it2 & Hn & Hy2). by rewrite Hn. }
  destruct (next_kv_streams (E := io_error) _ [] Hm) as (it2 & Hn & _). by rewrite Hn.
Qed.

Lemma streaming_yields_table_witness :
  (sample_run = (sample_run.1, Ok 145) /\ Forall entry_ok sample_entries /\
   is_u64 (len (file sample_run.1))) /\
  exists it it', Streaming_open (file sample_run.1) = Ok it /\
    collect (S (length sample_entries)) [] it = (it', Ok sample_entries) /\
    forall m, (next_kv (E := io_error) (Nat.iter m (fun x => (next_kv (E := io_error) x).1) it')).2 = Ok None.
Proof.
  destruct sample_ok as (Hw & Hok & Hs & Hl). split; [by split_and! |].
  exact (streaming_yields_table (F := reliable_file) sample_entries _ _ Hw Hok Hl).
Defined.

(** The two index parsers differ on a corrupt index: one whose first record claims a key longer
    than the index is invalid data for the reader, and a panic for the iterator compaction uses. *)
Theorem streaming_corrupt_index_panics :
  let idx := to_le_bytes 4 100 ++ zeros 20 in
  let file := idx ++ enc_footer (Footer_new 0 (len idx) 0 0) in
  SSTableReader_open file = Err InvalidData /\ Streaming_open file = Panic.
Proof. split; by vm_compute. Qed.

(** Whatever index the reader parses, the iterator parses the same. *)
Theorem streaming_index_agrees (slice : bytes) (offset length : Z) (records : list IndexRecord)
    (Hr : SSTableReader.parse_index slice offset length = Ok records) :
  parse_index slice offset length = Ok records.
Proof. by apply parse_index_agrees. Qed.

Lemma streaming_index_agrees_witness :
  SSTableReader.parse_index (to_le_bytes 4 1 ++ [Byte.x61] ++ to_le_bytes 8 0 ++ to_le_bytes 8 50) 0 21 =
    Ok [mk_IndexRecord [Byte.x61] 0 50] /\
  parse_index (to_le_bytes 4 1 ++ [Byte.x61] ++ to_le_bytes 8 0 ++ to_le_bytes 8 50) 0 21 =
    Ok [mk_IndexRecord [Byte.x61] 0 50].
Proof. split; [by vm_compute | apply streaming_index_agrees; by vm_compute]. Defined.
