(* ===== verification/TableMapping.v ===== *)
(** * Opening and closing tables (sstable/reader.rs, sstable/streaming.rs)

    [open] of the reader and of the streaming iterator with their system calls, and
    their [Drop]: the descriptor and the mapping they take from the kernel, which
    SSTableReader.v and Streaming.v leave out.  The kernel's answers are parameters, and
    the calls are listed in the order they are made.

    [open_accounts]: the descriptor is always closed, and a table that opened holds one
    mapping, which its [Drop] gives back.  A table that did not parse keeps its
    mapping for ever ([bad_table_leaks]), and since [get] passes over tables that do
    not open, enough reads of one damaged table hide every stored key of the others
    ([leak_hides_tables]). *)

From S2P Require Import Prelude BinarySearch Bloom Block Footer SSTable SSTableReader Streaming.
#[local] Open Scope Z_scope.

(** ** Calls and what is held *)

Inductive file_call :=
| OpenFile (fd : Z)
| Metadata (fd : Z)
| Mmap (fd addr length : Z)
| Munmap (addr length : Z)
| CloseFile (fd : Z).

(** The descriptors and the mappings held. *)
Record held := mk_held { fds : list Z; maps : list (Z * Z) }.

Fixpoint remove_one {A} `{EqDecision A} (a : A) (l : list A) : list A :=
  match l with
  | [] => []
  | b :: l => if decide (a = b) then l else b :: remove_one a l
  end.

Definition apply_call (h : held) (c : file_call) : held :=
  match c with
  | OpenFile fd => mk_held (fd :: fds h) (maps h)
  | Metadata _ => h
  | Mmap _ addr length => mk_held (fds h) ((addr, length) :: maps h)
  | Munmap addr length => mk_held (fds h) (remove_one (addr, length) (maps h))
  | CloseFile fd => mk_held (remove_one fd (fds h)) (maps h)
  end.
Definition after (cs : list file_call) (h : held) : held := fold_left apply_call cs h.

(** ** [open] *)

(** What the kernel answers to one [open]: a descriptor, the length, an address;
    [contents] is what the mapping reads as. *)
Record file_kernel := mk_file_kernel {
  open_ret : outcome io_error Z;
  metadata_ret : outcome io_error Z;
  mmap_ret : option Z;
  errno_ret : Z;
  contents : bytes
}.

(** A mapped table: the pointer, the length, and what was read from the mapping. *)
Record mapped (A : Type) := mk_mapped { mmap_ptr : Z; mmap_len : Z; table : A }.
#[global] Arguments mk_mapped {A}.
#[global] Arguments mmap_ptr {A}.
#[global] Arguments mmap_len {A}.
#[global] Arguments table {A}.

Section open.
  (** [parse] is [open] from [from_raw_parts] on. *)
  Context {A : Type} (parse : bytes -> outcome io_error A).

(** The file is closed when the function returns or unwinds. *)
Definition open_mapped (k : file_kernel) : list file_call * outcome io_error (mapped A) :=
  match open_ret k with
  | Ok fd =>
      match metadata_ret k with
      | Ok file_len =>
          if file_len <? FOOTER_SIZE then ([OpenFile fd; Metadata fd; CloseFile fd], Err InvalidData) else
          match mmap_ret k with
          | Some p =>
              let calls := [OpenFile fd; Metadata fd; Mmap fd p file_len; CloseFile fd] in
              if p =? 0 then (calls, Panic) else
              (calls, t ← parse (contents k); Ok (mk_mapped p file_len t))
          | None => ([OpenFile fd; Metadata fd; CloseFile fd], Err (Os (errno_ret k)))
          end
      | Err e => ([OpenFile fd; Metadata fd; CloseFile fd], Err e)
      | Panic => ([OpenFile fd; Metadata fd; CloseFile fd], Panic)
      | Ub => ([OpenFile fd; Metadata fd; CloseFile fd], Ub)
      end
  | Err e => ([], Err e)
  | Panic => ([], Panic)
  | Ub => ([], Ub)
  end.

(** [Drop]. *)
Definition drop_mapped (t : mapped A) : list file_call := [Munmap (mmap_ptr t) (mmap_len t)].

(** The mapping made, if the calls got to it. *)
Definition mapping_made (k : file_kernel) : option (Z * Z) :=
  match open_ret k, metadata_ret k, mmap_ret k with
  | Ok _, Ok n, Some p => if n <? FOOTER_SIZE then None else Some (p, n)
  | _, _, _ => None
  end.

Lemma mapped_accounts (k : file_kernel) (h : held) :
  let '(calls, r) := open_mapped k in
  after calls h = mk_held (fds h) (match mapping_made k with Some m => m :: maps h | None => maps h end) /\
  (forall t, r = Ok t -> mapping_made k = Some (mmap_ptr t, mmap_len t) /\ parse (contents k) = Ok (table t) /\
    after (calls ++ drop_mapped t) h = h).
Proof.
  destruct h as [fs ms]. unfold open_mapped, mapping_made.
  destruct (open_ret k) as [fd | e | |]; [|by split..]. assert (remove_one fd (fd :: fs) = fs) as Hfd by (cbn; by rewrite decide_True).
  destruct (metadata_ret k) as [n | e | |]; [|by split; [unfold after; cbn [fold_left apply_call fds maps]; rewrite Hfd|]..].
  destruct (n <? FOOTER_SIZE); [by destruct (mmap_ret k); split; [unfold after; cbn [fold_left apply_call fds maps]; rewrite Hfd| |unfold after; cbn [fold_left apply_call fds maps]; rewrite Hfd|]|].
  destruct (mmap_ret k) as [p|]; [|by split; [unfold after; cbn [fold_left apply_call fds maps]; rewrite Hfd|]].
  destruct (p =? 0); [by split; [unfold after; cbn [fold_left apply_call fds maps]; rewrite Hfd|]|].
  split; [unfold after; cbn [fold_left apply_call fds maps]; by rewrite Hfd|]. intros t Ht.
  destruct (parse (contents k)) as [a | e | |]; try done. injection Ht as <-. split_and!; [done|done|].
  unfold after, drop_mapped. cbn [app fold_left apply_call fds maps mmap_ptr mmap_len]. rewrite Hfd. cbn. by rewrite decide_True.
Qed.

(** C36: Opening and dropping a table accounts for what it takes from the kernel. Whatever the kernel
    answers and whatever the file holds, the descriptor is closed when [open] returns or unwinds,
    and what stays is the mapping if one was made; a table that opened is that mapping, with the
    contents parsed, and dropping it gives everything back. *)
Theorem open_accounts (k : file_kernel) (h : held) :
  let '(calls, r) := open_mapped k in
  after calls h = mk_held (fds h) (match mapping_made k with Some m => m :: maps h | None => maps h end) /\
  (forall t, r = Ok t -> mapping_made k = Some (mmap_ptr t, mmap_len t) /\ parse (contents k) = Ok (table t) /\
    after (calls ++ drop_mapped t) h = h).
Proof. exact (mapped_accounts k h). Qed.

(** A table that maps but does not parse: [open] fails, and the mapping, which no value
    owns yet, is never given back. *)
Theorem bad_table_leaks (k : file_kernel) (h : held) (m : Z * Z) (Hm : mapping_made k = Some m) (Hbad : forall t, parse (contents k) <> Ok t) :
  (forall t, (open_mapped k).2 <> Ok t) /\ maps (after (open_mapped k).1 h) = m :: maps h.
Proof.
  pose proof (mapped_accounts k h) as Ha. destruct (open_mapped k) as [calls r]. destruct Ha as [Ha Hr]. split.
  - cbn [snd]. intros t ->. destruct (Hr t eq_refl) as (_ & Hp & _). by apply (Hbad (table t)).
  - cbn [fst]. by rewrite Ha, Hm.
Qed.
End open.

(** [SSTableReader::open] and [StreamingSSTableIterator::open]. *)
Definition reader_open : file_kernel -> list file_call * outcome io_error (mapped SSTableReader) := open_mapped SSTableReader_open.
Definition streaming_open : file_kernel -> list file_call * outcome io_error (mapped StreamingSSTableIterator) := open_mapped Streaming_open.

(** ** Reads of tables under a limit on mappings *)

Section reads.
  Context `{BS : BinarySearch} (avx2 : bool).
  (** The kernel's limit on the mappings of a process, and its choice of an address. *)
  Context (limit : nat) (fresh : list (Z * Z) -> Z) (Hfresh : forall ms, fresh ms <> 0).

Definition ENOMEM : Z := 12.

(** The kernel when the process has the mappings [ms], asked for a file that exists. *)
Definition kernel_at (ms : list (Z * Z)) (file : bytes) : file_kernel :=
  mk_file_kernel (Ok 3) (Ok (len file)) (if decide (length ms < limit)%nat then Some (fresh ms) else None) ENOMEM file.

(** A turn of the loop of [EngineNode::get]: [if let Ok(reader) = open(..) { reader.get(key) }],
    with the mappings before and after it. *)
Definition read_table (ms : list (Z * Z)) (file key : bytes) : list (Z * Z) * outcome fuel_error (option (option bytes * Z)) :=
  let '(calls, r) := reader_open (kernel_at ms file) in
  let h := after calls (mk_held [] ms) in
  match r with
  | Ok t => (maps (after (drop_mapped t) h), SSTableReader.get avx2 (table t) key)
  | Err _ => (maps h, Ok None)
  | Panic => (maps h, Panic)
  | Ub => (maps h, Ub)
  end.

(** The mappings after [n] reads. *)
Definition reads (n : nat) (file key : bytes) (ms : list (Z * Z)) : list (Z * Z) :=
  Nat.iter n (fun ms => (read_table ms file key).1) ms.

Lemma open_long file r : SSTableReader_open file = Ok r -> (len file <? FOOTER_SIZE) = false.
Proof. unfold SSTableReader_open. by destruct (len file <? FOOTER_SIZE). Qed.

(** A read of a table that opens answers from the table and leaves the mappings as
    they were. *)
Theorem read_balanced ms file key r (Hr : SSTableReader_open file = Ok r) :
  read_table ms file key = (ms, if decide (length ms < limit)%nat then SSTableReader.get avx2 r key else Ok None).
Proof.
  unfold read_table, reader_open, open_mapped, kernel_at. cbn [open_ret metadata_ret mmap_ret contents errno_ret].
  rewrite (open_long _ _ Hr). destruct (decide (length ms < limit)%nat); [|done].
  rewrite (proj2 (Z.eqb_neq _ _)) by apply Hfresh. rewrite Hr. cbn. by rewrite decide_True.
Qed.

(** A read of a table that does not parse takes a mapping for good. *)
Lemma read_leaks ms file key e : SSTableReader_open file = Err e -> FOOTER_SIZE <= len file ->
  read_table ms file key = ((if decide (length ms < limit)%nat then [(fresh ms, len file)] else []) ++ ms, Ok None).
Proof.
  intros He Hl. unfold read_table, reader_open, open_mapped, kernel_at. cbn [open_ret metadata_ret mmap_ret contents errno_ret].
  rewrite (proj2 (Z.ltb_ge _ _)) by done. destruct (decide (length ms < limit)%nat); [|done].
  rewrite (proj2 (Z.eqb_neq _ _)) by apply Hfresh. by rewrite He.
Qed.

Lemma reads_leak n file key e ms : SSTableReader_open file = Err e -> FOOTER_SIZE <= len file ->
  (length ms <= limit)%nat -> length (reads n file key ms) = min limit (n + length ms).
Proof.
  intros He Hl Hms. induction n as [|n IH]; [cbn; lia|]. unfold reads in *. rewrite Nat.iter_succ. rewrite (read_leaks _ file key e He Hl). cbn [fst].
  destruct (decide _) as [Hlt|Hge]; rewrite length_app, IH in *; cbn [length]; lia.
Qed.

(** Every table that does not parse takes a mapping with every read, until the process
    has no more to take; from then on no table opens, and a key that was found is not
    found any more.  [get] reports no error. *)
Theorem leak_hides_tables (bad good key key' : bytes) e r res (Hbad : SSTableReader_open bad = Err e) (Hlen : FOOTER_SIZE <= len bad)
    (Hgood : SSTableReader_open good = Ok r) (Hget : SSTableReader.get (E := fuel_error) avx2 r key = Ok (Some res)) (n : nat) :
  let ms := reads n bad key' [] in
  length ms = min limit n /\
  (read_table ms good key).2 = if decide (n < limit)%nat then Ok (Some res) else Ok None.
Proof.
  intros ms. assert (length ms = min limit n) as Hms by (unfold ms; rewrite (reads_leak _ _ _ e); cbn [length]; lia || done).
  split; [done|]. rewrite (read_balanced _ _ _ r Hgood). cbn [snd]. rewrite Hget, Hms.
  destruct (decide (n < limit)%nat), (decide (min limit n < limit)%nat); (done || lia).
Qed.
End reads.

(** Forty zero bytes, which have no magic, and a table with two keys, under a limit of
    three mappings. *)
Definition zero_table : bytes := zeros 40.

Lemma bad_table_leaks_witness :
  mapping_made (mk_file_kernel (Ok 3) (Ok 40) (Some 4096) 0 zero_table) = Some (4096, 40) /\
  maps (after (reader_open (mk_file_kernel (Ok 3) (Ok 40) (Some 4096) 0 zero_table)).1 (mk_held [] [])) = [(4096, 40)].
Proof.
  assert (mapping_made (mk_file_kernel (Ok 3) (Ok 40) (Some 4096) 0 zero_table) = Some (4096, 40)) as Hm by reflexivity.
  split; [exact Hm|]. refine (proj2 (bad_table_leaks SSTableReader_open _ (mk_held [] []) _ Hm _)). by vm_compute.
Defined.

Definition sample_file : bytes := file sample_run.1.
Definition sample_read (n : nat) : outcome fuel_error (option (option bytes * Z)) :=
  (read_table false 3 (fun _ => 4096) (reads false 3 (fun _ => 4096) n zero_table [Byte.x61] []) sample_file [Byte.x61]).2.

Definition sample_reader : SSTableReader :=
  match SSTableReader_open sample_file with Ok r => r | _ => mk_SSTableReader [] [] (Footer_new 0 0 0 0) end.

Lemma leak_hides_tables_witness : sample_read 2 = Ok (Some (Some [Byte.x01], 7)) /\ sample_read 3 = Ok None.
Proof.
  assert (SSTableReader_open zero_table = Err InvalidData) as Hbad by (vm_compute; reflexivity).
  assert (SSTableReader_open sample_file = Ok sample_reader) as Hgood by (vm_compute; reflexivity).
  assert (SSTableReader.get (E := fuel_error) false sample_reader [Byte.x61] = Ok (Some (Some [Byte.x01], 7))) as Hget by (vm_compute; reflexivity).
  pose proof (fun n => leak_hides_tables false 3 (fun _ => 4096) (fun _ => ltac:(discriminate)) zero_table sample_file [Byte.x61] [Byte.x61] _ _ _
    Hbad ltac:(discriminate) Hgood Hget n) as H.
  exact (conj (proj2 (H 2%nat)) (proj2 (H 3%nat))).
Defined.
