(* ===== verification/Merge.v ===== *)
(** * The streaming k-way merge (tier3_storage/src/compaction/merge.rs)

    [MergeElement] and its order, and [StreamingKWayMerge::merge] over the
    interfaces of its parts: a [BinaryHeap] that pops a maximum, sources of
    entries ([EntryStream]), and the table writer.  A merge of sorted sources
    writes, for every key, its newest version, and at the bottom level drops
    the keys whose newest version is a tombstone. *)

From S2P Require Import Prelude Bloom Block Footer BinarySearch SSTable SSTableReader Streaming.
#[local] Open Scope Z_scope.

(** ** [MergeElement] *)

Record MergeElement := mk_MergeElement {
  key : bytes;
  val : option bytes;
  seq : Z;
  source_idx : nat
}.

(** [PartialEq]. *)
Definition elem_eqb (a b : MergeElement) : bool := beqb (key a) (key b) && (seq a =? seq b).

(** [Ord]: the larger element has the smaller key, or the larger sequence
    number for the same key. *)
Definition elem_cmp (a b : MergeElement) : comparison :=
  match bytes_cmp (key b) (key a) with
  | Eq => Z.compare (seq a) (seq b)
  | c => c
  end.

(** ** [std::collections::BinaryHeap]

    A collection that pops a greatest element; which one of several equal ones
    is not said. *)
Class BinaryHeap := {
  heap_push : MergeElement -> list MergeElement -> list MergeElement;
  heap_pop : list MergeElement -> option (MergeElement * list MergeElement)
}.

Class BinaryHeapSpec (H : BinaryHeap) := {
  heap_push_spec : forall x h, heap_push x h ≡ₚ x :: h;
  heap_pop_none : forall h, heap_pop h = None -> h = [];
  heap_pop_some : forall h x h', heap_pop h = Some (x, h') ->
    h ≡ₚ x :: h' /\ forall y, y ∈ h -> elem_cmp y x <> Gt
}.

(** One heap: a list from which a greatest element is taken. *)
Fixpoint take_max (x : MergeElement) (h : list MergeElement) : MergeElement * list MergeElement :=
  match h with
  | [] => (x, [])
  | y :: h =>
      match elem_cmp y x with
      | Gt => let '(m, h) := take_max y h in (m, x :: h)
      | _ => let '(m, h) := take_max x h in (m, y :: h)
      end
  end.

#[export] Instance list_heap : BinaryHeap := {|
  heap_push := cons;
  heap_pop := fun h => match h with [] => None | x :: h => Some (take_max x h) end
|}.

(** ** [merge] *)

Section merge.
  Context `{F : FileOps} `{BH : BinaryHeap} {It : Type} `{ES : EntryStream It}.

Record merge_state := mk_merge_state {
  iters : list It;
  heap : list MergeElement;
  writer : SSTableWriter;
  last_emitted_key : option bytes
}.

(** [iters[src].next_kv()]. *)
Definition next_from (src : nat) : st merge_state io_error (option entry) := fun s =>
  match iters s !! src with
  | None => (s, Panic)
  | Some it =>
      let '(it, r) := stream_next it in
      (mk_merge_state (<[src := it]> (iters s)) (heap s) (writer s) (last_emitted_key s), r)
  end.

Definition push (e : entry) (src : nat) : st merge_state io_error unit := fun s =>
  let x := mk_MergeElement (ekey e) e.1.2 e.2 src in
  (mk_merge_state (iters s) (heap_push x (heap s)) (writer s) (last_emitted_key s), Ok tt).

(** [if let Some((key, val, seq)) = iters[src].next_kv() { heap.push(..) }]. *)
Definition pull (src : nat) : st merge_state io_error unit :=
  e ← next_from src;
  match e with Some e => push e src | None => mret tt end.

(** The loop that takes the first entry of every source. *)
Fixpoint fill (idxs : list nat) : st merge_state io_error unit :=
  match idxs with
  | [] => mret tt
  | idx :: idxs => pull idx;; fill idxs
  end.

Definition on_writer {A} (c : st SSTableWriter io_error A) : st merge_state io_error A := fun s =>
  let '(w, r) := c (writer s) in
  (mk_merge_state (iters s) (heap s) w (last_emitted_key s), r).

Definition set_heap (h : list MergeElement) : st merge_state io_error unit := fun s =>
  (mk_merge_state (iters s) h (writer s) (last_emitted_key s), Ok tt).

Definition set_last (k : bytes) : st merge_state io_error unit := fun s =>
  (mk_merge_state (iters s) (heap s) (writer s) (Some k), Ok tt).

(** The [while let Some(top) = heap.pop()] loop. *)
Fixpoint merge_loop (is_bottom_level : bool) (fuel : nat) : st merge_state io_error unit :=
  match fuel with
  | O => throw out_of_fuel
  | S fuel =>
      s ← get_state;
      match heap_pop (heap s) with
      | None => mret tt
      | Some (top, h) =>
          set_heap h;;
          pull (source_idx top);;
          s ← get_state;
          if decide (last_emitted_key s = Some (key top)) then merge_loop is_bottom_level fuel
          else if is_bottom_level && (match val top with None => true | Some _ => false end)
          then set_last (key top);; merge_loop is_bottom_level fuel
          else
            on_writer (append (key top) (val top) (seq top));;
            set_last (key top);;
            merge_loop is_bottom_level fuel
      end
  end.

(** What comes before the output file exists: the first entry of every source,
    and [SSTableWriter::create]. *)
Definition merge_start (its : list It) : outcome io_error merge_state :=
  let '(s, r) := fill (List.seq 0 (length its)) (mk_merge_state its [] SSTableWriter_create None) in
  r;; create_file;; Ok s.

(** The rest, with the output file open. *)
Definition merge_rest (is_bottom_level : bool) (fuel : nat) : st merge_state io_error Z :=
  merge_loop is_bottom_level fuel;;
  on_writer finish.

End merge.
Arguments merge_state : clear implicits.

(** [StreamingKWayMerge::merge] on the contents of the input files up to the
    creation of its output; no file is made when it ends before. *)
Definition merge_open `{F : FileOps} `{BH : BinaryHeap} (inputs : list bytes) :
    outcome io_error (merge_state StreamingSSTableIterator) :=
  its ← mapM Streaming_open inputs;
  merge_start its.

(** The rest of it: the writer that holds the output file's contents, and the
    result.  Every turn of the loop takes an entry, of at least sixteen bytes,
    off the inputs. *)
Definition merge_write `{F : FileOps} `{BH : BinaryHeap} (inputs : list bytes) (is_bottom_level : bool)
    (s : merge_state StreamingSSTableIterator) : SSTableWriter * outcome io_error Z :=
  let fuel := S (sum_list (length <$> inputs)) in
  let '(s, r) := merge_rest is_bottom_level fuel s in
  (writer s, r).

Definition merge `{F : FileOps} `{BH : BinaryHeap} (inputs : list bytes) (is_bottom_level : bool) :
    SSTableWriter * outcome io_error Z :=
  match merge_open inputs with
  | Ok s => merge_write inputs is_bottom_level s
  | Err e => (SSTableWriter_create, Err e)
  | Panic => (SSTableWriter_create, Panic)
  | Ub => (SSTableWriter_create, Ub)
  end.

(** ** Specification *)

(** The order in which the merge takes entries. *)
Definition before (a b : entry) : Prop := blt (ekey a) (ekey b) \/ (ekey a = ekey b /\ b.2 <= a.2).

Definition merge_sorted (es : list entry) : Prop := StronglySorted before es.

(** The first entry of every key, without the tombstones at the bottom level. *)
Fixpoint emit (bottom : bool) (prev : option bytes) (es : list entry) : list entry :=
  match es with
  | [] => []
  | e :: es =>
      if decide (prev = Some (ekey e)) then emit bottom prev es
      else if bottom && (match e.1.2 with None => true | Some _ => false end)
      then emit bottom (Some (ekey e)) es
      else e :: emit bottom (Some (ekey e)) es
  end.

(** What a merge promises for a key: its newest version among all inputs, or
    nothing when there is none or the merge drops the newest, a tombstone. *)
Definition is_newest (es : list entry) (k : bytes) (v : option bytes) (q : Z) : Prop :=
  (k, v, q) ∈ es /\ forall v' q', (k, v', q') ∈ es -> q' <= q.

Definition newest_version (bottom : bool) (es : list entry) (k : bytes) (res : option (option bytes * Z)) : Prop :=
  match res with
  | Some (v, q) => is_newest es k v q /\ (bottom = true -> v <> None)
  | None => k ∉ ekey <$> es \/ (bottom = true /\ exists q, is_newest es k None q)
  end.

(** * Lemmas *)

#[export] Instance before_preorder : PreOrder before.
Proof.
  split.
  - intros a. right. split; [done | lia].
  - intros a b c [Hab | [Hab Hq]] [Hbc | [Hbc Hq']]; unfold before.
    + left. by eapply blt_trans.
    + left. by rewrite <- Hbc.
    + left. by rewrite Hab.
    + right. split; [congruence | lia].
Qed.

Definition to_entry (x : MergeElement) : entry := (key x, val x, seq x).

Lemma elem_cmp_before x y : elem_cmp y x <> Gt <-> before (to_entry x) (to_entry y).
Proof.
  unfold elem_cmp, before, to_entry, ekey. cbn [fst snd].
  destruct (bytes_cmp (key x) (key y)) eqn:Hc.
  - apply bytes_cmp_eq in Hc. rewrite Hc. split.
    + intros Hq. right. split; [done |]. by rewrite Z.compare_gt_iff, Z.nlt_ge in Hq.
    + intros [Hlt | [_ Hq]]; [by destruct (blt_irrefl (key y)) |].
      by rewrite Z.compare_gt_iff, Z.nlt_ge.
  - split; [by left | done].
  - split; [done |]. intros [Hlt | [Heq _]].
    + unfold blt in Hlt. congruence.
    + apply bytes_cmp_eq in Heq. congruence.
Qed.

Lemma before_total x y : elem_cmp y x = Gt -> before (to_entry y) (to_entry x).
Proof.
  unfold elem_cmp, before, to_entry, ekey. cbn [fst snd].
  destruct (bytes_cmp (key x) (key y)) eqn:Hc; [| done |].
  - intros Hq%Z.compare_gt_iff. apply bytes_cmp_eq in Hc. right. split; [done | lia].
  - intros _. left. by apply bgt_blt.
Qed.

Lemma take_max_spec x h : let '(m, h') := take_max x h in
  x :: h ≡ₚ m :: h' /\ forall y, y ∈ x :: h -> before (to_entry m) (to_entry y).
Proof.
  revert x. induction h as [|y h IH]; intros x; cbn [take_max].
  { split; [done |]. intros y Hy%list_elem_of_singleton. by subst. }
  destruct (elem_cmp y x) eqn:Hc;
    (specialize (IH x) as IHx; specialize (IH y) as IHy;
     destruct (take_max x h) as [mx hx]; destruct (take_max y h) as [my hy];
     destruct IHx as [Hpx Hmx], IHy as [Hpy Hmy]).
  3: { split; [by rewrite Hpy, Permutation_swap |]. intros z [-> | Hz]%elem_of_cons; [| by apply Hmy].
       etrans; [apply (Hmy y); constructor | by apply before_total]. }
  all: split; [rewrite (Permutation_swap y x h), Hpx; apply Permutation_swap |];
    intros z [-> | [-> | Hz]%elem_of_cons]%elem_of_cons;
    [apply Hmx; constructor | | apply Hmx; by constructor];
    (etrans; [apply (Hmx x); constructor | apply elem_cmp_before; congruence]).
Qed.

#[export] Instance list_heap_spec : BinaryHeapSpec list_heap.
Proof.
  split; cbn.
  - done.
  - by intros [].
  - intros [|x h] m h'; [done |]. intros [= Hm]. pose proof (take_max_spec x h) as Hs. rewrite Hm in Hs.
    destruct Hs as [Hp Hmax]. split; [done |]. intros y Hy. by apply elem_cmp_before, Hmax.
Qed.

(** ** What [emit] keeps *)

Definition drop_tombstone (bottom : bool) (r : option (option bytes * Z)) : option (option bytes * Z) :=
  match r with
  | Some (None, q) => if bottom then None else r
  | _ => r
  end.

Lemma before_ble a b : before a b -> ble (ekey a) (ekey b).
Proof. rewrite ble_cases. by intros [? | [? _]]; [left | right]. Qed.

Lemma merge_sorted_cons e es : merge_sorted (e :: es) -> merge_sorted es /\
  forall e', e' ∈ es -> before e e'.
Proof. intros Hs. apply StronglySorted_inv in Hs as [Hs Hall]. split; [done |]. by apply Forall_forall. Qed.

(** Entries of a key that was emitted come first, and are passed over. *)
Lemma emit_prev bottom p es : merge_sorted es -> (forall e, e ∈ es -> ble p (ekey e)) ->
  forall k, lookup_entries (emit bottom (Some p) es) k =
    if decide (k = p) then None else drop_tombstone bottom (lookup_entries es k).
Proof.
  revert p. induction es as [|e es IH]; intros p Hs Hp k; [by case_decide |].
  apply merge_sorted_cons in Hs as [Hs Hall].
  assert (forall e', e' ∈ es -> ble (ekey e) (ekey e')) as Hle by (intros; by apply before_ble, Hall).
  cbn [emit]. rewrite lookup_entries_cons. case_decide as Hpe.
  - injection Hpe as ->. rewrite IH by done. case_decide as Hk; [done |]. by rewrite decide_False by done.
  - assert (blt p (ekey e)) as Hlt.
    { assert (ble p (ekey e)) as Hpl by (apply Hp; constructor). apply ble_cases in Hpl as [? | ->]; done. }
    assert (forall k, k = p -> lookup_entries es k = None /\ ekey e <> k) as Hk.
    { intros ? ->. split; [| intros Hek; rewrite Hek in Hlt; by destruct (blt_irrefl p)].
      apply lookup_entries_none, not_in_keys. intros e' He' <-. apply (blt_irrefl (ekey e)).
      eapply ble_blt_trans; [by apply Hle | done]. }
    specialize (Hk k). assert (p <> ekey e) as Hne by (intros ->; by destruct (blt_irrefl (ekey e))).
    destruct e as [[k0 v0] q0]; cbn [ekey fst snd] in *.
    destruct v0 as [v0 |], bottom; cbn [andb]; rewrite ?lookup_entries_cons, IH by done;
      cbn [ekey fst snd]; repeat case_decide; try done; try congruence;
      try (by destruct Hk as [-> _]).
Qed.

Lemma emit_in bottom prev es e : e ∈ emit bottom prev es -> e ∈ es /\ (bottom = true -> e.1.2 <> None).
Proof.
  revert prev. induction es as [|e0 es IH]; intros prev; cbn [emit]; [intros H; inversion H |].
  case_decide.
  - intros [? ?]%IH. split; [by constructor | done].
  - destruct (bottom && _) eqn:Hb.
    + intros [? ?]%IH. split; [by constructor | done].
    + intros [-> | [? ?]%IH]%elem_of_cons; (split; [by constructor |]); [| done].
      intros ->. by destruct (e0.1.2).
Qed.

Lemma emit_sorted bottom prev es : merge_sorted es ->
  (forall p, prev = Some p -> forall e, e ∈ es -> ble p (ekey e)) ->
  strictly_sorted (emit bottom prev es) /\
  (forall p, prev = Some p -> forall e, e ∈ emit bottom prev es -> blt p (ekey e)).
Proof.
  revert prev. induction es as [|e es IH]; intros prev Hs Hp.
  { split; [constructor | intros ??? H; inversion H]. }
  apply merge_sorted_cons in Hs as [Hs Hall]. cbn [emit]. case_decide as Hpe.
  - apply IH; [done |]. intros p Hpp e' He'. apply (Hp p Hpp). by constructor.
  - destruct (IH (Some (ekey e)) Hs) as [Hs' Hlt].
    { intros p [= <-] e' He'. by apply before_ble, Hall. }
    assert (forall p, prev = Some p -> blt p (ekey e)) as Hpl.
    { intros p ->. assert (ble p (ekey e)) as Hle by (apply (Hp p eq_refl); constructor).
      apply ble_cases in Hle as [? | ->]; done. }
    destruct (bottom && _).
    + split; [done |]. intros p Hpp e' He'. eapply blt_trans; [by apply Hpl |]. by apply (Hlt (ekey e)).
    + split.
      * unfold strictly_sorted. cbn [fmap list_fmap]. constructor; [done |].
        apply Forall_fmap, Forall_forall. intros e' He'. by apply (Hlt (ekey e)).
      * intros p Hpp e' [-> | He']%elem_of_cons; [by apply Hpl |].
        eapply blt_trans; [by apply Hpl |]. by apply (Hlt (ekey e)).
Qed.

Lemma emit_lookup bottom es k : merge_sorted es ->
  lookup_entries (emit bottom None es) k = drop_tombstone bottom (lookup_entries es k).
Proof.
  intros Hs. destruct es as [|e es]; [done |]. pose proof (merge_sorted_cons e es Hs) as [Hs' Hall].
  assert (forall e', e' ∈ es -> ble (ekey e) (ekey e')) as Hle by (intros; by apply before_ble, Hall).
  cbn [emit]. rewrite decide_False, lookup_entries_cons by done.
  destruct e as [[k0 [v0 |]] q0]; cbn [ekey fst snd] in *.
  - rewrite andb_false_r, lookup_entries_cons. cbn [ekey fst snd]. rewrite emit_prev by done.
    case_decide; [done |]. by rewrite decide_False by done.
  - rewrite andb_true_r. destruct bottom.
    + rewrite emit_prev by done. case_decide; [by subst; rewrite decide_True | by rewrite decide_False].
    + rewrite lookup_entries_cons. cbn [ekey fst snd]. rewrite emit_prev by done.
      case_decide; [done |]. by rewrite decide_False by done.
Qed.

(** The first entry of a key in merge order is its newest. *)
Lemma merge_sorted_newest es k v q : merge_sorted es -> lookup_entries es k = Some (v, q) ->
  is_newest es k v q.
Proof.
  induction es as [|e es IH]; [done |]. intros Hs. pose proof (merge_sorted_cons e es Hs) as [Hs' Hall].
  rewrite lookup_entries_cons. case_decide as Hk.
  - destruct e as [[k0 v0] q0]. cbn in Hk. intros Hv. cbn in Hv. injection Hv as -> ->. subst k0.
    split; [constructor |]. intros v' q' [Heq | Hin]%elem_of_cons; [inversion Heq; lia |].
    destruct (Hall _ Hin) as [Hlt | [_ Hq]]; [by destruct (blt_irrefl k) | done].
  - intros Hr. destruct (IH Hs' Hr) as [Hin Hmax]. split; [by constructor |].
    intros v' q' [<- | Hin']%elem_of_cons; [by destruct Hk | by eapply Hmax].
Qed.

Lemma emit_newest bottom es k : merge_sorted es ->
  newest_version bottom es k (lookup_entries (emit bottom None es) k).
Proof.
  intros Hs. rewrite emit_lookup by done. destruct (lookup_entries es k) as [[v q]|] eqn:Hl.
  - pose proof (merge_sorted_newest es k v q Hs Hl) as Hn. destruct v as [v|]; cbn; [done |].
    destruct bottom; cbn; [right; split; [done | by exists q] | done].
  - cbn. left. by apply lookup_entries_none.
Qed.

Lemma is_newest_perm es es' k v q : es ≡ₚ es' -> is_newest es k v q -> is_newest es' k v q.
Proof.
  intros Hp [Hin Hmax]. split; [by rewrite <- Hp |]. intros v' q' Hin'. apply (Hmax v'). by rewrite Hp.
Qed.

Lemma newest_version_perm bottom es es' k res : es ≡ₚ es' ->
  newest_version bottom es k res -> newest_version bottom es' k res.
Proof.
  intros Hp. destruct res as [[v q]|]; cbn.
  - intros [Hn ?]. split; [by eapply is_newest_perm | done].
  - intros [Hk | [? [q Hn]]]; [left; by rewrite <- Hp | right; split; [done |]].
    exists q. by eapply is_newest_perm.
Qed.

Lemma concat_insert_perm {A} (ls : list (list A)) i x l : ls !! i = Some (x :: l) ->
  concat ls ≡ₚ x :: concat (<[i := l]> ls).
Proof.
  revert i. induction ls as [|k ls IH]; intros [|i] Hi; cbn in *; [done.. | |].
  - by injection Hi as ->.
  - rewrite (IH i Hi). by rewrite Permutation_middle.
Qed.

(** ** The loop *)

Section loop.
  Context `{FS : FileOpsSpec} `{BHS : BinaryHeapSpec} {It : Type} `{ES : EntryStream It}.

Implicit Types (s : merge_state It) (rems : list (list entry)).

(** [rems] is what the sources have left; the sources of [need] have their
    next entry in the heap. *)
Record loop_inv (need : nat -> Prop) s rems : Prop := {
  inv_yields : Forall2 yields (iters s) rems;
  inv_sorted : Forall merge_sorted rems;
  inv_source : forall h, h ∈ heap s -> (source_idx h < length rems)%nat;
  inv_head : forall i e es, need i -> rems !! i = Some (e :: es) -> exists h, h ∈ heap s /\ source_idx h = i;
  inv_before : forall h es e, h ∈ heap s -> rems !! source_idx h = Some es -> e ∈ es -> before (to_entry h) e
}.

(** The entries still to be taken. *)
Definition pending s rems : list entry := (to_entry <$> heap s) ++ concat rems.

Lemma next_from_ok need s rems src es : loop_inv need s rems -> rems !! src = Some es ->
  exists its', next_from src s =
    (mk_merge_state its' (heap s) (writer s) (last_emitted_key s), Ok (head es)) /\
    Forall2 yields its' (<[src := tail es]> rems).
Proof.
  intros Hinv Hes. pose proof (inv_yields _ _ _ Hinv) as Hy. unfold next_from.
  destruct (Forall2_lookup_r _ _ _ _ _ Hy Hes) as (it & Hit & Hyi). rewrite Hit.
  destruct es as [|e es].
  - destruct (stream_next_nil it Hyi) as (it' & -> & Hyi'). eexists. split; [done |]. by apply Forall2_insert.
  - destruct (stream_next_cons it e es Hyi) as (it' & -> & Hyi'). eexists. split; [done |]. by apply Forall2_insert.
Qed.

(** Taking the next entry of a source keeps what is pending, and gives the
    source its place in the heap. *)
Lemma pull_ok need s rems src : loop_inv need s rems -> (src < length rems)%nat ->
  exists s' rems', pull src s = (s', Ok tt) /\ writer s' = writer s /\
    last_emitted_key s' = last_emitted_key s /\ length rems' = length rems /\
    loop_inv (fun i => need i \/ i = src) s' rems' /\ pending s' rems' ≡ₚ pending s rems.
Proof.
  intros Hinv Hsrc. destruct (lookup_lt_is_Some_2 rems src Hsrc) as [es Hes].
  destruct (next_from_ok need s rems src es Hinv Hes) as (its' & Hn & Hy).
  unfold pull, mbind, st_bind. rewrite Hn. destruct Hinv as [_ Hsort Hsource Hhead Hbef].
  destruct es as [|e es]; cbn [head tail hd_error] in *.
  - rewrite list_insert_id in Hy by done. eexists _, rems. split_and!; try done. split; cbn; try done.
    intros i e es [Hi | ->] Hie; [by eapply Hhead | congruence].
  - pose proof (Forall_lookup_1 _ _ _ _ Hsort Hes) as Hse. apply merge_sorted_cons in Hse as [Hse Hall].
    assert (forall h, h ∈ heap_push (mk_MergeElement (ekey e) e.1.2 e.2 src) (heap s) <->
      h = mk_MergeElement (ekey e) e.1.2 e.2 src \/ h ∈ heap s) as Hpush.
    { intros h. rewrite heap_push_spec. apply elem_of_cons. }
    eexists _, (<[src := es]> rems). split_and!; try done; [by rewrite length_insert | split; cbn |].
    + done.
    + by apply Forall_insert.
    + intros h [-> | Hh]%Hpush; rewrite length_insert; [done | by apply Hsource].
    + intros i e' es' Hi Hie. destruct (decide (i = src)) as [-> | Hne].
      * exists (mk_MergeElement (ekey e) e.1.2 e.2 src). split; [apply Hpush; by left | done].
      * destruct Hi as [Hi |]; [| done]. rewrite list_lookup_insert_ne in Hie by done.
        destruct (Hhead i e' es' Hi Hie) as (h & Hh & Hs). exists h. split; [apply Hpush; by right | done].
    + intros h es' e' [-> | Hh]%Hpush; cbn [source_idx].
      * rewrite list_lookup_insert_eq by done. intros [= <-] He'. specialize (Hall e' He').
        destruct e as [[k v] q]. exact Hall.
      * destruct (decide (source_idx h = src)) as [Heq | Hne].
        -- rewrite Heq, list_lookup_insert_eq by done. intros [= <-] He'.
           apply (Hbef h (e :: es)); [done | by rewrite Heq | by constructor].
        -- rewrite list_lookup_insert_ne by done. by apply Hbef.
    + unfold pending. cbn. rewrite heap_push_spec. cbn. rewrite (concat_insert_perm _ _ _ _ Hes).
      destruct e as [[k v] q]. cbn. apply Permutation_middle.
Qed.

Lemma fill_ok need s rems idxs : loop_inv need s rems -> Forall (fun i => i < length rems)%nat idxs ->
  exists s' rems', fill idxs s = (s', Ok tt) /\ writer s' = writer s /\
    last_emitted_key s' = last_emitted_key s /\ length rems' = length rems /\
    loop_inv (fun i => need i \/ i ∈ idxs) s' rems' /\ pending s' rems' ≡ₚ pending s rems.
Proof.
  revert need s rems. induction idxs as [|idx idxs IH]; intros need s rems Hinv Hidx; cbn [fill].
  - exists s, rems. split_and!; try done. destruct Hinv as [? ? ? Hhead ?]. split; try done.
    intros i e es [Hi | Hi]; [by apply Hhead | inversion Hi].
  - apply Forall_cons in Hidx as [Hi Hidx].
    destruct (pull_ok need s rems idx Hinv Hi) as (s1 & rems1 & Hp & Hw & Hl & Hn & Hinv1 & Hperm).
    rewrite (st_bind_Ok _ _ _ _ _ Hp).
    destruct (IH _ s1 rems1 Hinv1) as (s2 & rems2 & Hf & Hw2 & Hl2 & Hn2 & Hinv2 & Hperm2); [by rewrite Hn |].
    exists s2, rems2. split_and!; [done | congruence | congruence | congruence | | by rewrite Hperm2].
    destruct Hinv2 as [? ? ? Hhead ?]. split; try done. intros i e es Hor. apply Hhead.
    rewrite elem_of_cons in Hor. tauto.
Qed.

(** With every source represented, the popped element comes before all that is
    pending. *)
Lemma pop_ok s rems top h : loop_inv (fun _ => True) s rems -> heap_pop (heap s) = Some (top, h) ->
  let s' := mk_merge_state (iters s) h (writer s) (last_emitted_key s) in
  loop_inv (fun i => i <> source_idx top) s' rems /\ (source_idx top < length rems)%nat /\
  pending s rems ≡ₚ to_entry top :: pending s' rems /\
  forall e, e ∈ pending s' rems -> before (to_entry top) e.
Proof.
  intros [Hy Hsort Hsource Hhead Hbef] Hpop s'. destruct (heap_pop_some _ _ _ Hpop) as [Hperm Hmax].
  assert (forall x, x ∈ heap s <-> x = top \/ x ∈ h) as Hin by (intros x; rewrite Hperm; apply elem_of_cons).
  assert (forall x, x ∈ heap s -> before (to_entry top) (to_entry x)) as Htop.
  { intros x Hx. by apply elem_cmp_before, Hmax. }
  split_and!.
  - split; cbn; try done.
    + intros x Hx. apply Hsource, Hin. by right.
    + intros i e es Hi Hie. destruct (Hhead i e es I Hie) as (x & [-> | Hx]%Hin & Hs); [by destruct Hi |].
      by exists x.
    + intros x es e Hx. apply Hbef, Hin. by right.
  - apply Hsource, Hin. by left.
  - unfold pending. cbn. by rewrite Hperm.
  - unfold pending. cbn. intros e [(x & -> & Hx)%list_elem_of_fmap | He]%elem_of_app.
    + apply Htop, Hin. by right.
    + apply list_elem_of_In, in_concat in He as (es & Hes & He). apply list_elem_of_In in Hes, He.
      apply list_elem_of_lookup in Hes as [i Hi]. destruct es as [|e0 es]; [inversion He |].
      destruct (Hhead i e0 es I Hi) as (x & Hx & Hs). etrans; [by apply Htop |].
      apply (Hbef x (e0 :: es)); [done | by rewrite Hs | done].
Qed.

Lemma pop_none s rems : loop_inv (fun _ => True) s rems -> heap_pop (heap s) = None -> pending s rems = [].
Proof.
  intros [_ _ _ Hhead _] Hpop. apply heap_pop_none in Hpop. unfold pending. rewrite Hpop in *. cbn.
  assert (Forall (fun es => es = []) rems) as Hnil.
  { apply Forall_lookup. intros i es Hi. destruct es as [|e es]; [done |].
    destruct (Hhead i e es I Hi) as (x & Hx & _). inversion Hx. }
  clear Hhead. induction Hnil as [|es rems -> _ IH]; done.
Qed.

Lemma on_writer_run {A} (c : st SSTableWriter io_error A) s P :
  run_ok (c (writer s)) P ->
  run_ok (on_writer c s) (fun a s' => P a (writer s') /\ s' = mk_merge_state (iters s) (heap s) (writer s') (last_emitted_key s)).
Proof. unfold on_writer. destruct (c (writer s)) as [w [a | | |]]; cbn; auto. Qed.

Lemma loop_inv_impl (need need' : nat -> Prop) s rems :
  (forall i, need' i -> need i) -> loop_inv need s rems -> loop_inv need' s rems.
Proof. intros Hn [? ? ? Hhead ?]. split; try done. intros i e es Hi. by apply Hhead, Hn. Qed.

(** The invariant does not speak of the output. *)
Lemma loop_inv_out need s rems w l : loop_inv need s rems ->
  loop_inv need (mk_merge_state (iters s) (heap s) w l) rems.
Proof. by intros []. Qed.

(** Popping an element and refilling from its source. *)
Lemma take_ok s rems top h : loop_inv (fun _ => True) s rems -> heap_pop (heap s) = Some (top, h) ->
  exists s1 s2 rems2, set_heap h s = (s1, Ok tt) /\ pull (source_idx top) s1 = (s2, Ok tt) /\
    writer s2 = writer s /\ last_emitted_key s2 = last_emitted_key s /\
    loop_inv (fun _ => True) s2 rems2 /\ pending s rems ≡ₚ to_entry top :: pending s2 rems2 /\
    forall e, e ∈ pending s2 rems2 -> before (to_entry top) e.
Proof.
  intros Hinv Hpop. destruct (pop_ok s rems top h Hinv Hpop) as (Hinv1 & Hsrc & Hperm & Hbefore).
  destruct (pull_ok _ _ rems _ Hinv1 Hsrc) as (s2 & rems2 & Hp & Hw & Hl & _ & Hinv2 & Hperm2).
  eexists _, s2, rems2. split_and!; [done | exact Hp | done | done | | by rewrite Hperm2 |].
  - eapply loop_inv_impl, Hinv2. intros i _. destruct (decide (i = source_idx top)); auto.
  - intros e. rewrite Hperm2. apply Hbefore.
Qed.

(** The loop takes all that is pending in merge order, and writes the first
    entry of every key. *)
Definition merged bottom s rems (es : list entry) (s' : merge_state It) : Prop :=
  exists P, P ≡ₚ pending s rems /\ merge_sorted P /\
    appended (es ++ emit bottom (last_emitted_key s) P) (writer s').

Lemma merged_cons bottom s rems s2 rems2 top es es' l s' :
  pending s rems ≡ₚ to_entry top :: pending s2 rems2 ->
  (forall e, e ∈ pending s2 rems2 -> before (to_entry top) e) ->
  merged bottom (mk_merge_state (iters s2) (heap s2) (writer s2) l) rems2 es' s' ->
  (forall P, es ++ emit bottom (last_emitted_key s) (to_entry top :: P) = es' ++ emit bottom l P) ->
  merged bottom s rems es s'.
Proof.
  intros Hperm Hbefore (P & HP & Hs & Happ) Hemit.
  change (pending (mk_merge_state _ _ _ l) rems2) with (pending s2 rems2) in HP.
  exists (to_entry top :: P). split_and!; [by rewrite HP, Hperm | | by rewrite Hemit].
  constructor; [done |]. apply Forall_forall. intros e. rewrite HP. apply Hbefore.
Qed.

Lemma merge_loop_run bottom fuel s rems es : loop_inv (fun _ => True) s rems ->
  (length (pending s rems) < fuel)%nat -> appended es (writer s) ->
  run_ok (merge_loop bottom fuel s) (fun _ s' => merged bottom s rems es s').
Proof.
  revert s rems es. induction fuel as [|fuel IH]; intros s rems es Hinv Hf Happ; [lia |].
  cbn [merge_loop]. unfold mbind at 1, st_bind at 1, get_state at 1.
  destruct (heap_pop (heap s)) as [[top h]|] eqn:Hpop.
  2:{ exists []. rewrite (pop_none s rems Hinv Hpop). split_and!; [done | constructor | by rewrite app_nil_r]. }
  destruct (take_ok s rems top h Hinv Hpop) as (s1 & s2 & rems2 & Hset & Hp & Hw & Hl & Hinv2 & Hperm & Hbefore).
  rewrite (st_bind_Ok _ _ _ _ _ Hset), (st_bind_Ok _ _ _ _ _ Hp). unfold mbind at 1, st_bind at 1, get_state at 1.
  assert (forall w l es', appended es' w ->
    (forall P, es ++ emit bottom (last_emitted_key s) (to_entry top :: P) = es' ++ emit bottom l P) ->
    run_ok (merge_loop bottom fuel (mk_merge_state (iters s2) (heap s2) w l)) (fun _ s' => merged bottom s rems es s')) as Hrest.
  { intros w l es' Happ' Hemit.
    specialize (IH (mk_merge_state (iters s2) (heap s2) w l) rems2 es' (loop_inv_out _ _ _ _ _ Hinv2)).
    apply Permutation_length in Hperm as Hlen. cbn [length] in Hlen.
    destruct (merge_loop bottom fuel _) as [s3 [[] | | |]]; cbn [run_ok] in *; try (by apply IH; [unfold pending in *; cbn; lia |]).
    eapply (merged_cons bottom s rems s2 rems2); [done | done | | done]. apply IH; [unfold pending in *; cbn; lia | done]. }
  rewrite Hl. destruct (decide (last_emitted_key s = Some (key top))) as [Hlast | Hlast].
  - destruct s2 as [its2 h2 w2 l2]. cbn in *. apply (Hrest w2 l2 es); [by rewrite Hw |].
    intros P. cbn [emit]. rewrite decide_True by done. congruence.
  - destruct (bottom && _) eqn:Hdrop.
    + unfold mbind at 1, st_bind at 1, set_last. apply (Hrest (writer s2) (Some (key top)) es); [by rewrite Hw |].
      intros P. cbn [emit]. rewrite decide_False by done. cbn [to_entry fst snd]. by rewrite Hdrop.
    + eapply run_ok_bind.
      { apply on_writer_run. rewrite Hw. apply (append_run es (to_entry top) (writer s) Happ). }
      intros [] s3 [Happ3 ->]. unfold mbind, st_bind, set_last. cbn [iters heap writer].
      apply (Hrest (writer s3) (Some (key top)) (es ++ [to_entry top])); [done |].
      intros P. cbn [emit]. rewrite decide_False by done. cbn [to_entry fst snd]. by rewrite Hdrop, <- app_assoc.
Qed.
End loop.

(** ** The whole merge *)

Section whole.
  Context `{FS : FileOpsSpec} `{BHS : BinaryHeapSpec}.

Lemma merge_start_ok {It} `{ES : EntryStream It} (its : list It) ess :
  Forall2 yields its ess -> Forall merge_sorted ess ->
  exists s rems, merge_start its = (create_file;; Ok s) /\ writer s = SSTableWriter_create /\
    last_emitted_key s = None /\ loop_inv (fun _ => True) s rems /\ pending s rems ≡ₚ concat ess.
Proof.
  intros Hy Hs. set (s0 := mk_merge_state its [] SSTableWriter_create None).
  assert (loop_inv (fun _ => False) s0 ess) as Hinv.
  { split; cbn; try done; [intros h Hh; inversion Hh | intros h es e Hh; inversion Hh]. }
  apply Forall2_length in Hy as Hlen. unfold merge_start. fold s0.
  destruct (fill_ok _ s0 ess (List.seq 0 (length its)) Hinv) as (s1 & rems & Hfill & Hw & Hl & Hn & Hinv1 & Hperm).
  { rewrite Hlen. apply Forall_forall. intros i Hi%elem_of_seq. lia. }
  rewrite Hfill. change (pending s0 ess) with (concat ess) in Hperm. exists s1, rems. split_and!; try done.
  destruct Hinv1 as [? ? ? Hhead ?]. split; try done. intros i e es _ Hi.
  apply (Hhead i e es); [| done]. right. apply elem_of_seq. apply lookup_lt_Some in Hi. lia.
Qed.

Lemma merge_rest_run {It} `{ES : EntryStream It} bottom fuel (s : merge_state It) rems :
  writer s = SSTableWriter_create -> last_emitted_key s = None -> loop_inv (fun _ => True) s rems ->
  (length (pending s rems) < fuel)%nat ->
  run_ok (merge_rest bottom fuel s)
    (fun n s' => exists P, P ≡ₚ pending s rems /\ merge_sorted P /\ table_written (emit bottom None P) n (writer s')).
Proof.
  intros Hw Hl Hinv Hf. unfold merge_rest. eapply run_ok_bind.
  { apply (merge_loop_run bottom fuel s rems []); [done | lia |].
    rewrite Hw. exists [], []. split_and!; done || apply create_inv. }
  intros [] s2 (P & HP & HPs & Happ). rewrite Hl in Happ.
  pose proof (on_writer_run finish s2 _ (appended_finish _ _ Happ)) as Hr.
  destruct (on_writer finish s2) as [s3 [n | | |]]; cbn in *; try done. destruct Hr as [Ht _]. by exists P.
Qed.

(** ** What a merge can fail on *)

Section failures.
  Context {It : Type} `{ES : EntryStream It}.

#[local] Abbreviation follows := (follows (fun s : merge_state It => file (writer s))).

Lemma on_writer_follows {A} P (c cR : st SSTableWriter io_error A) (s : merge_state It) :
  SSTable.follows file P (file (writer s)) (c (writer s)) (cR (writer s)) ->
  follows P (file (writer s)) (on_writer c s) (on_writer cR s).
Proof.
  unfold on_writer. destruct (cR (writer s)) as [wR rR] eqn:HR. intros [Hp Hc]. cbn in Hp, Hc. split; [done |].
  destruct Hc as [-> | (w & e & -> & Hw)]; [by left | right; eexists _, e; split; [done | exact Hw]].
Qed.

Lemma fill_writer idxs (s : merge_state It) : writer (fill idxs s).1 = writer s.
Proof.
  revert s. induction idxs as [|i idxs IH]; intros s; [done |]. cbn [fill]. unfold mbind, st_bind.
  assert (writer (pull i s).1 = writer s) as Hp.
  { unfold pull, mbind, st_bind, next_from. destruct (iters s !! i) as [it|]; [| done].
    destruct (stream_next it) as [it' [[e|] | | |]]; done. }
  destruct (pull i s) as [s1 [[] | | |]]; cbn in Hp; [| done..]. by rewrite IH.
Qed.

Lemma merge_loop_follows bottom fuel (s : merge_state It) :
  follows write_fails (file (writer s)) (merge_loop bottom fuel s) (merge_loop (F := reliable_file) bottom fuel s).
Proof.
  revert s. induction fuel as [|fuel IH]; intros s; cbn [merge_loop]; [by apply follows_same |].
  apply (follows_pure (fun s => file (writer s)) write_fails); [done.. |]. intros st s' [= <- <-].
  destruct (heap_pop (heap s)) as [[top h]|]; [| by apply follows_same].
  apply (follows_pure (fun s => file (writer s)) write_fails); [done.. |]. intros [] s1 [= <-].
  apply (follows_pure (fun s => file (writer s)) write_fails); [done | |].
  { pose proof (fill_writer [source_idx top] (mk_merge_state (iters s) h (writer s) (last_emitted_key s))) as Hw.
    cbn [fill] in Hw. unfold mbind, st_bind in Hw. by destruct (pull _ _) as [s1 [[] | | |]]; cbn in Hw |- *; rewrite Hw. }
  intros [] s2 _. apply (follows_pure (fun s => file (writer s)) write_fails); [done.. |]. intros st s3 [= <- <-].
  destruct (decide _); [apply IH |]. destruct (_ && _).
  - apply (follows_pure (fun s => file (writer s)) write_fails); [done.. |]. intros [] s3 [= <-].
    apply (IH (mk_merge_state (iters s2) (heap s2) (writer s2) _)).
  - apply (follows_bind (fun s => file (writer s)) write_fails); [done | apply on_writer_follows, append_follows |].
    intros [] s3 _. apply (follows_pure (fun s => file (writer s)) write_fails); [done.. |]. intros [] s4 [= <-].
    apply (IH (mk_merge_state (iters s3) (heap s3) (writer s3) _)).
Qed.

Lemma merge_rest_follows bottom fuel (s : merge_state It) :
  follows fails_on (file (writer s)) (merge_rest bottom fuel s) (merge_rest (F := reliable_file) bottom fuel s).
Proof.
  apply (follows_bind (fun s => file (writer s)) fails_on); [by left | apply merge_loop_follows |].
  intros [] s' _. apply on_writer_follows, finish_follows.
Qed.

End failures.

Lemma merge_follows inputs bottom :
  follows file table_fails [] (merge inputs bottom) (merge (F := reliable_file) inputs bottom).
Proof.
  split; [apply prefix_nil |]. unfold merge, merge_open.
  destruct (mapM Streaming_open inputs) as [its | e | |]; cbn; [| by left..].
  unfold merge_start. destruct (fill _ _) as [s r] eqn:Hf.
  destruct r as [[] | e | |]; cbn; [| by left..]. pose proof create_safe as Hc.
  destruct create_file as [[] | e | |] eqn:Hcr; try done; cbn; [| right; eexists _, e; split; [done | left; by rewrite Hcr]].
  unfold merge_write. set (fuel := S (sum_list (length <$> inputs))).
  destruct (merge_rest_follows bottom fuel s) as [_ Hr].
  destruct (merge_rest (F := reliable_file) bottom fuel s) as [sR rR]. cbn [fst] in Hr.
  destruct Hr as [-> | (s1 & e & -> & Hw)]; [by left | right; eexists _, e; split; [done | by right]].
Qed.

(** A file that holds a table of these entries. *)
Definition is_table (f : bytes) (es : list entry) : Prop :=
  exists bs filt, f = table_bytes bs filt /\ concat bs = es /\ table_ok bs filt.

(** The same with the filter of its keys. *)
Definition full_table (f : bytes) (es : list entry) : Prop :=
  exists bs filt, f = table_bytes bs filt /\ concat bs = es /\ table_ok bs filt /\ filter_of es filt.

Lemma full_is_table f es : full_table f es -> is_table f es.
Proof. intros (bs & filt & ? & ? & ? & _). by exists bs, filt. Qed.

Lemma written_is_full es s n : write_table es SSTableWriter_create = (s, Ok n) ->
  Forall entry_ok es -> is_u64 (len (file s)) -> full_table (file s) es.
Proof.
  intros Hw Hok Hl. destruct (written_table es s n Hw Hok Hl) as (bs & filt & Hc & Hf & Htok & Hfilt & _).
  exists bs, filt. by rewrite <- Hc.
Qed.

Lemma written_is_table es s n : write_table es SSTableWriter_create = (s, Ok n) ->
  Forall entry_ok es -> is_u64 (len (file s)) -> is_table (file s) es.
Proof. intros Hw Hok Hl. by eapply full_is_table, written_is_full. Qed.

Lemma open_tables inputs ess : Forall2 is_table inputs ess ->
  exists its, mapM Streaming_open inputs = Ok its /\ Forall2 streams its ess.
Proof.
  induction 1 as [|f es inputs ess (bs & filt & -> & <- & Hok) _ (its & Hits & Hst)]; [by exists [] |].
  destruct (streaming_open bs filt Hok) as (it & Ho & Hy). exists (it :: its). cbn [mapM].
  rewrite Ho. cbn [mbind outcome_bind]. rewrite Hits. split; [done | by constructor].
Qed.

(** The fuel: a file has more bytes than entries. *)
Lemma enc_blocks_length bs : (length (concat bs) <= length (enc_blocks bs))%nat.
Proof.
  induction bs as [|b bs IH]; [done |]. change (enc_blocks (b :: bs)) with (enc_block b ++ enc_blocks bs).
  cbn [concat]. rewrite !length_app. pose proof (enc_block_length b). lia.
Qed.

Lemma tables_length inputs ess : Forall2 is_table inputs ess ->
  (length (concat ess) <= sum_list (length <$> inputs))%nat.
Proof.
  induction 1 as [|f es inputs ess (bs & filt & -> & <- & _) _ IH]; [done |].
  cbn [concat fmap list_fmap sum_list]. rewrite length_app.
  assert (length (enc_blocks bs) <= length (table_bytes bs filt))%nat by (unfold table_bytes; rewrite length_app; lia).
  pose proof (enc_blocks_length bs). apply Nat.add_le_mono; [unfold id; lia | exact IH].
Qed.

(** What the output of a merge promises. *)
Definition merged_table_of (bottom : bool) (es : list entry) (n : Z) (w : SSTableWriter) : Prop :=
  exists out, table_written out n w /\ strictly_sorted out /\ (forall e, e ∈ out -> e ∈ es) /\
    forall k : bytes, newest_version bottom es k (lookup_entries out k).

Lemma merge_run inputs ess bottom : Forall2 is_table inputs ess -> Forall merge_sorted ess ->
  run_ok (merge inputs bottom) (merged_table_of bottom (concat ess)).
Proof.
  intros Ht Hs. destruct (open_tables inputs ess Ht) as (its & Hits & Hy). unfold merge, merge_open. rewrite Hits.
  cbn [mbind outcome_bind].
  destruct (merge_start_ok (ES := streaming_entry_stream) its ess Hy Hs) as (s & rems & -> & Hw & Hl & Hinv & Hperm).
  pose proof create_safe as Hc. destruct create_file as [[] | e | |] eqn:Hcr; cbn [mbind outcome_bind run_ok] in *; try done;
    [| left; by rewrite Hcr].
  pose proof (merge_rest_run (ES := streaming_entry_stream) bottom (S (sum_list (length <$> inputs))) s rems Hw Hl Hinv) as Hr.
  specialize (Hr ltac:(rewrite Hperm; pose proof (tables_length inputs ess Ht); lia)).
  unfold merge_write. destruct (merge_rest bottom _ s) as [s' [n | | |]]; cbn in *; try done.
  destruct Hr as (P & HP & HPs & Hwr). rewrite Hperm in HP. exists (emit bottom None P). split_and!; [done | | |].
  - by apply emit_sorted.
  - intros e [He _]%emit_in. by rewrite <- HP.
  - intros k. eapply newest_version_perm; [exact HP |]. by apply emit_newest.
Qed.

End whole.

Section output.
  Context `{FS : FileOpsSpec} `{BHS : BinaryHeapSpec}.

(** The merged table, as it is when no operation on its file fails. *)
Definition merged_file (inputs : list bytes) (bottom : bool) : bytes :=
  file (merge (F := reliable_file) inputs bottom).1.

Lemma merge_ends inputs ess bottom : Forall2 is_table inputs ess -> Forall merge_sorted ess ->
  ends_ok (table_fails (merged_file inputs bottom)) (merge inputs bottom) (merged_table_of bottom (concat ess)).
Proof.
  intros Ht Hs. apply (follows_ends file table_fails [] _ (merge (F := reliable_file) inputs bottom) _
    (merged_table_of bottom (concat ess))); [apply merge_follows | |].
  - by apply merge_run.
  - by apply (merge_run (F := reliable_file)).
Qed.

(** The output of a merge is a table again. *)
Lemma merged_is_full inputs ess out n w : Forall2 is_table inputs ess -> (forall e, e ∈ out -> e ∈ concat ess) ->
  table_written out n w -> is_u64 (len (file w)) ->
  full_table (file w) out.
Proof.
  intros Ht Hin (bs & filt & (Hc & Hne & _) & Hfilt & Hf & _) Hl. rewrite Hf in Hl. subst out.
  exists bs, filt. split_and!; try done. split_and!; [| done | done].
  apply Forall_forall. intros e He. apply Hin in He.
  apply list_elem_of_In, in_concat in He as (es & Hes & He). apply list_elem_of_In in Hes, He.
  apply list_elem_of_lookup in Hes as [i Hi].
  destruct (Forall2_lookup_r _ _ _ _ _ Ht Hi) as (f & _ & bs' & filt' & _ & <- & Htok & _).
  by apply (proj1 (Forall_forall _ _) Htok).
Qed.

(** A merge that ended well ended with a write. *)
Lemma finish_wrote s s' n : finish s = (s', Ok n) -> exists f d, write_all f d = (file s', Ok tt).
Proof.
  unfold finish. intros Hrun.
  repeat (apply st_Ok_bind in Hrun as (? & ? & ? & Hrun)).
  repeat match goal with
  | H : mret _ _ = _ |- _ => injection H as <- <-
  | H : get_state _ = _ |- _ => injection H as <- <-
  | H : lift _ _ = _ |- _ => injection H as <- H
  | H : advance _ _ = _ |- _ => rewrite advance_run in H; injection H as <- <-
  end.
  match goal with H : write_file ?d ?x = (?y, Ok _) |- context [file ?y] =>
    unfold write_file in H; destruct (write_all (file x) d) as [f r] eqn:Hw; injection H as <- -> end.
  repeat match goal with x : unit |- _ => destruct x end. cbn. eauto.
Qed.

Lemma merge_wrote inputs b w n : merge inputs b = (w, Ok n) -> exists f d, write_all f d = (file w, Ok tt).
Proof.
  unfold merge. destruct (merge_open inputs) as [s0 | | |]; try done. unfold merge_write.
  destruct (merge_rest b _ _) as [s r] eqn:Hm. intros [= <- ->]. unfold merge_rest in Hm.
  repeat (apply st_Ok_bind in Hm as (? & ? & ? & Hm)). unfold on_writer in Hm.
  match type of Hm with context [finish ?x] => destruct (finish x) as [w0 r] eqn:Hf end.
  injection Hm as <- ->. by eapply finish_wrote.
Qed.

(** * Properties *)

(** C8: A merge of tables that are sorted by key, and within a key from the newest version to the
    oldest, never panics, fails only when its output file cannot be created, or one of the writes
    that build the merged table, or its sync, fails, and otherwise writes a table with strictly
    increasing keys, each entry one of the inputs', that gives for every key the newest version in
    any of the inputs; at the bottom level a key whose newest version is a tombstone is dropped.
    Any binary heap that pops a maximum will do. *)
Theorem merge_keeps_newest (inputs : list bytes) (ess : list (list entry)) (bottom : bool)
    (Ht : Forall2 is_table inputs ess) (Hs : Forall merge_sorted ess) :
  ends_ok (table_fails (merged_file inputs bottom)) (merge inputs bottom) (fun n w => exists out, table_written out n w /\ strictly_sorted out /\
    (forall e, e ∈ out -> e ∈ concat ess) /\
    forall k : bytes, newest_version bottom (concat ess) k (lookup_entries out k)).
Proof. by apply merge_ends. Qed.

(** Reading the merged table back: when the merge succeeds, the output file opens, and [get]
    answers for every key its newest version over all inputs, tombstones dropped at the bottom
    level. *)
Theorem merge_then_get `{BSS : BinarySearchSpec} (inputs : list bytes) (ess : list (list entry))
    (bottom : bool) (w : SSTableWriter) (n : Z)
    (Ht : Forall2 is_table inputs ess) (Hs : Forall merge_sorted ess)
    (Hm : merge inputs bottom = (w, Ok n)) (Hl : is_u64 (len (file w))) :
  exists r, SSTableReader_open (file w) = Ok r /\
    forall avx2 (k : bytes), exists res, get (E := fuel_error) avx2 r k = Ok res /\
      newest_version bottom (concat ess) k res.
Proof.
  pose proof (merge_run inputs ess bottom Ht Hs) as Hr. rewrite Hm in Hr.
  destruct Hr as (out & Hw & Hsorted & Hin & Hnew).
  destruct (merged_is_full inputs ess out n w Ht Hin Hw Hl) as (bs & filt & -> & <- & Hok & Hfilt).
  exists (table_reader bs filt). split; [by apply table_open |]. intros avx2 k.
  destruct (table_get (E := fuel_error) bs filt avx2 k Hok Hfilt) as (res & -> & _ & _ & Hres).
  { by apply strictly_sorted_sorted. }
  exists res. split; [done |]. rewrite (Hres Hsorted). apply Hnew.
Qed.

End output.

(** Two small tables: a deletion in the second is newer than a value in the
    first. *)
Definition newer_entries : list entry := [([Byte.x61], None, 9); ([Byte.x63], Some [Byte.x05], 4)].
Definition newer_run : SSTableWriter * outcome io_error Z :=
  write_table (F := reliable_file) newer_entries SSTableWriter_create.

Definition sample_inputs : list bytes := [file sample_run.1; file newer_run.1].
Lemma sample_tables :
  Forall2 is_table sample_inputs [sample_entries; newer_entries] /\
  Forall merge_sorted [sample_entries; newer_entries].
Proof.
  assert (newer_run = (newer_run.1, Ok 128)) as Hn by by vm_compute.
  destruct sample_ok as (Hw & Hok & _ & Hl).
  split.
  - constructor; [exact (written_is_table (F := reliable_file) _ _ _ Hw Hok Hl) |].
    constructor; [| constructor]. apply (written_is_table (F := reliable_file) _ _ _ Hn).
    + repeat constructor; vm_compute; congruence.
    + by vm_compute.
  - repeat constructor; by vm_compute.
Qed.

Lemma merge_keeps_newest_witness :
  (Forall2 is_table sample_inputs [sample_entries; newer_entries] /\
   Forall merge_sorted [sample_entries; newer_entries]) /\
  ends_ok (table_fails (F := reliable_file) (merged_file sample_inputs true)) (merge (F := reliable_file) sample_inputs true) (fun n w =>
    exists out, table_written out n w /\ strictly_sorted out /\
    (forall e, e ∈ out -> e ∈ concat [sample_entries; newer_entries]) /\
    forall k : bytes, newest_version true (concat [sample_entries; newer_entries]) k (lookup_entries out k)).
Proof.
  split; [exact sample_tables |]. destruct sample_tables as [Ht Hs].
  exact (merge_keeps_newest (F := reliable_file) sample_inputs _ true Ht Hs).
Defined.

Lemma merge_then_get_witness :
  (Forall2 is_table sample_inputs [sample_entries; newer_entries] /\
   Forall merge_sorted [sample_entries; newer_entries] /\
   merge (F := reliable_file) sample_inputs true =
     ((merge (F := reliable_file) sample_inputs true).1, Ok 128) /\
   is_u64 (len (file (merge (F := reliable_file) sample_inputs true).1))) /\
  exists r, SSTableReader_open (file (merge (F := reliable_file) sample_inputs true).1) = Ok r /\
    forall avx2 (k : bytes), exists res, get (E := fuel_error) avx2 r k = Ok res /\
      newest_version true (concat [sample_entries; newer_entries]) k res.
Proof.
  destruct sample_tables as [Ht Hs].
  assert (is_u64 (len (file (merge (F := reliable_file) sample_inputs true).1))) as Hl by by vm_compute.
  assert (merge (F := reliable_file) sample_inputs true =
    ((merge (F := reliable_file) sample_inputs true).1, Ok 128)) as Hm by (clear; by vm_compute).
  split; [exact (conj Ht (conj Hs (conj Hm Hl))) |].
  exact (merge_then_get (F := reliable_file) sample_inputs _ true _ _ Ht Hs Hm Hl).
Defined.
