(* ===== verification/SkipList.v ===== *)
(** * The memtable's skip list (tier3_storage/src/memtable/skiplist.rs)

    [ConcurrentSkipList] over a store of nodes: a pointer is an index into the
    store, the head is node 0.  [insert], [get], [find_position] and the iterator
    are run one call at a time, as the engine does ([put] takes [&mut self]);
    the compare-and-swap of [insert] is modelled with its comparison and its
    retry loop.  Every level is a sorted chain, level 0 holds every version of
    every key, and what [get] answers follows from the order it visits levels. *)

From S2P Require Import Prelude Block SSTableReader.
#[local] Open Scope Z_scope.

Definition MAX_HEIGHT : nat := 20.
Definition BRANCH_FACTOR : Z := 4.

(** ** The height generator: one xorshift step of the thread's state *)

Definition fast_rand_u32 (x : Z) : Z :=
  let x := Z.lxor x (wrap32 (Z.shiftl x 13)) in
  let x := Z.lxor x (Z.shiftr x 17) in
  Z.lxor x (wrap32 (Z.shiftl x 5)).

Definition RNG_SEED : Z := 0xDEADBEEF.

(** The loop of [random_height]; at most [MAX_HEIGHT] turns. *)
Fixpoint height_loop (fuel : nat) (height : nat) (rng : Z) : nat * Z :=
  match fuel with
  | O => (height, rng)
  | S fuel =>
      if (height <? MAX_HEIGHT)%nat then
        let rng := fast_rand_u32 rng in
        if rng mod BRANCH_FACTOR =? 0 then height_loop fuel (height + 1) rng else (height, rng)
      else (height, rng)
  end.

Definition random_height (rng : Z) : nat * Z := height_loop MAX_HEIGHT 1 rng.

(** ** Nodes *)

Record Node := mk_Node {
  key : bytes;
  val : option bytes;
  seq : Z;
  _height : nat;
  next : list (option nat)
}.

Definition Node_new (key : bytes) (val : option bytes) (seq : Z) (height : nat) : Node :=
  mk_Node key val seq height (replicate MAX_HEIGHT None).

(** The store: following a pointer that is no node's is undefined behaviour. *)
Definition deref {E} (h : list Node) (p : nat) : outcome E Node :=
  match h !! p with Some n => Ok n | None => Ub end.

Definition load_next {E} (n : Node) (level : nat) : outcome E (option nat) :=
  match next n !! level with Some x => Ok x | None => Panic end.

Definition load {E} (h : list Node) (p : nat) (level : nat) : outcome E (option nat) :=
  n ← deref h p; load_next n level.

Definition store {E} (h : list Node) (p : nat) (level : nat) (x : option nat) : outcome E (list Node) :=
  n ← deref h p;
  _ ← load_next n level;
  Ok (<[p := mk_Node (key n) (val n) (seq n) (_height n) (<[level := x]> (next n))]> h).

(** [compare_exchange]: the new store, or [None] when the value is another. *)
Definition compare_exchange {E} (h : list Node) (p : nat) (level : nat) (old new : option nat) :
    outcome E (option (list Node)) :=
  x ← load h p level;
  if decide (x = old) then h ← store h p level new; Ok (Some h) else Ok None.

Record ConcurrentSkipList := mk_SkipList {
  nodes : list Node;
  max_height : nat;
  approximate_size : Z
}.

Definition head_ptr : nat := 0.

Definition ConcurrentSkipList_new : ConcurrentSkipList :=
  mk_SkipList [Node_new [] None 0 MAX_HEIGHT] 1 0.

(** ** [find_position] *)

(** The inner loop: along one level while the next key is smaller. *)
Fixpoint walk `{Fueled E} (fuel : nat) (h : list Node) (level : nat) (k : bytes) (curr : nat) (nxt : option nat) :
    outcome E (nat * option nat) :=
  match fuel with
  | O => Err out_of_fuel
  | S fuel =>
      match nxt with
      | None => Ok (curr, nxt)
      | Some p =>
          next_node ← deref h p;
          if bltb (key next_node) k then
            nxt ← load_next next_node level;
            walk fuel h level k p nxt
          else Ok (curr, nxt)
      end
  end.

(** The outer loop, from [level] down; a level's chain has no more elements
    than the store. *)
Fixpoint find_levels `{Fueled E} (h : list Node) (k : bytes) (level : nat) (curr : nat)
    (preds succs : list (option nat)) : outcome E (list (option nat) * list (option nat)) :=
  match level with
  | O => Ok (preds, succs)
  | S l =>
      nxt ← load h curr l;
      r ← walk (S (length h)) h l k curr nxt;
      find_levels h k l r.1 (<[l := Some r.1]> preds) (<[l := r.2]> succs)
  end.

Definition find_position `{Fueled E} (h : list Node) (k : bytes) : outcome E (list (option nat) * list (option nat)) :=
  find_levels h k MAX_HEIGHT head_ptr (replicate MAX_HEIGHT None) (replicate MAX_HEIGHT None).

(** ** [insert] *)

(** The loop that links the node at one level. *)
Fixpoint link `{Fueled E} (fuel : nat) (k : bytes) (node_ptr level : nat) (h : list Node) : outcome E (list Node) :=
  match fuel with
  | O => Err out_of_fuel
  | S fuel =>
      r ← find_position h k;
      let '(preds, succs) := r in
      succ ← (match succs !! level with Some x => Ok x | None => Panic end);
      h ← store h node_ptr level succ;
      pred ← (match preds !! level with Some x => Ok x | None => Panic end);
      let pred := match pred with None => head_ptr | Some p => p end in
      r ← compare_exchange h pred level succ (Some node_ptr);
      match r with
      | Some h => Ok h
      | None => link fuel k node_ptr level h
      end
  end.

(** Levels [level .. height]. Alone on the list, a thread's first
    compare-and-swap succeeds. *)
Fixpoint link_levels `{Fueled E} (n : nat) (k : bytes) (node_ptr level : nat) (h : list Node) : outcome E (list Node) :=
  match n with
  | O => Ok h
  | S n => h ← link 1 k node_ptr level h; link_levels n k node_ptr (level + 1) h
  end.

(** [insert]; [rng] is the thread's generator, [weak_ok] whether the weak
    compare-and-swap on [max_height] succeeds (it may fail spuriously). *)
Definition insert `{Fueled E} (weak_ok : bool) (k : bytes) (v : option bytes) (q : Z)
    (s : ConcurrentSkipList) (rng : Z) : outcome E (ConcurrentSkipList * Z) :=
  let k_len := len k in
  let v_len := match v with Some v => len v | None => 0 end in
  let '(height, rng) := random_height rng in
  let curr_max := max_height s in
  let mh := if ((curr_max <? height)%nat && weak_ok)%bool then height else curr_max in
  let node_ptr := length (nodes s) in
  let h := nodes s ++ [Node_new k v q height] in
  h ← link 1 k node_ptr 0 h;
  h ← link_levels (height - 1) k node_ptr 1 h;
  Ok (mk_SkipList h mh (wrap64 (approximate_size s + (k_len + v_len + 24))), rng).

(** ** [get] *)

Fixpoint get_loop `{Fueled E} (fuel : nat) (h : list Node) (k : bytes) (curr level : nat) :
    outcome E (option (option bytes * Z)) :=
  match fuel with
  | O => Err out_of_fuel
  | S fuel =>
      let down := if (1 <? level)%nat then get_loop fuel h k curr (level - 1) else Ok None in
      next_ptr ← load h curr (level - 1);
      match next_ptr with
      | Some p =>
          next_node ← deref h p;
          if bltb (key next_node) k then get_loop fuel h k p level
          else if beqb (key next_node) k then Ok (Some (val next_node, seq next_node))
          else down
      | None => down
      end
  end.

(** Each level is left, or its chain followed, at most once per node. *)
Definition get `{Fueled E} (s : ConcurrentSkipList) (k : bytes) : outcome E (option (option bytes * Z)) :=
  get_loop (MAX_HEIGHT * S (length (nodes s))) (nodes s) k head_ptr (max_height s).

(** ** The iterator *)

Definition iter {E} (s : ConcurrentSkipList) : outcome E (option nat) := load (nodes s) head_ptr 0.

Definition iter_next {E} (h : list Node) : st (option nat) E (option entry) := fun curr =>
  match curr with
  | None => (curr, Ok None)
  | Some p =>
      match n ← deref h p; nxt ← load_next n 0; Ok (n, nxt) with
      | Ok (n, nxt) => (nxt, Ok (Some (key n, val n, seq n)))
      | Err e => (curr, Err e)
      | Panic => (curr, Panic)
      | Ub => (curr, Ub)
      end
  end.

(** A loop over the iterator. *)
Fixpoint iter_collect `{Fueled E} (h : list Node) (fuel : nat) (out : list entry) : st (option nat) E (list entry) :=
  match fuel with
  | O => throw out_of_fuel
  | S fuel => e ← iter_next h; match e with Some e => iter_collect h fuel (out ++ [e]) | None => mret out end
  end.

Definition iter_all `{Fueled E} (s : ConcurrentSkipList) : outcome E (list entry) :=
  first ← iter s;
  (iter_collect (nodes s) (S (length (nodes s))) [] first).2.

(** Inserting a sequence of entries, oldest first; [weak] answers for the weak
    compare-and-swap of the [n]th. *)
Fixpoint insert_all `{Fueled E} (weak : nat -> bool) (es : list entry) (s : ConcurrentSkipList) (rng : Z) :
    outcome E (ConcurrentSkipList * Z) :=
  match es with
  | [] => Ok (s, rng)
  | (k, v, q) :: es =>
      r ← insert (weak (length es)) k v q s rng;
      insert_all weak es r.1 r.2
  end.

(** * Lemmas *)

(** ** The store *)

(** What a node holds. *)
Definition ent (h : list Node) (p : nat) : entry :=
  match h !! p with Some n => (key n, val n, seq n) | None => ([], None, 0) end.

Definition upd (h : list Node) (p level : nat) (x : option nat) : list Node :=
  alter (fun n => mk_Node (key n) (val n) (seq n) (_height n) (<[level := x]> (next n))) p h.

Definition wf_store (h : list Node) : Prop := Forall (fun n => length (next n) = MAX_HEIGHT) h.

Lemma deref_ok {E} h p : (p < length h)%nat -> exists n, h !! p = Some n /\ deref (E := E) h p = Ok n.
Proof. intros [n Hn]%lookup_lt_is_Some_2. exists n. unfold deref. by rewrite Hn. Qed.

Lemma wf_lookup h p n : wf_store h -> h !! p = Some n -> length (next n) = MAX_HEIGHT.
Proof. intros Hw Hn. by apply (Forall_lookup_1 _ _ _ _ Hw Hn). Qed.

Lemma load_ok {E} h p l : wf_store h -> (p < length h)%nat -> (l < MAX_HEIGHT)%nat ->
  exists x, load (E := E) h p l = Ok x.
Proof.
  intros Hw Hp Hl. unfold load. destruct (deref_ok (E := E) h p Hp) as (n & Hn & ->). cbn [mbind outcome_bind].
  unfold load_next. rewrite <- (wf_lookup h p n Hw Hn) in Hl. apply lookup_lt_is_Some_2 in Hl as [x ->]. eauto.
Qed.

Lemma upd_lookup h p l x q : upd h p l x !! q =
  if decide (q = p) then (fun n => mk_Node (key n) (val n) (seq n) (_height n) (<[l := x]> (next n))) <$> h !! q
  else h !! q.
Proof. unfold upd. case_decide as Hq; [subst; apply list_lookup_alter_eq | by apply list_lookup_alter_ne]. Qed.

Lemma length_upd h p l x : length (upd h p l x) = length h.
Proof. apply length_alter. Qed.

Lemma ent_upd h p l x q : ent (upd h p l x) q = ent h q.
Proof. unfold ent. rewrite upd_lookup. case_decide; [by destruct (h !! q) | done]. Qed.

Lemma wf_upd h p l x : wf_store h -> wf_store (upd h p l x).
Proof.
  intros Hw. apply Forall_lookup. intros q n. rewrite upd_lookup. case_decide; [| by apply wf_lookup].
  destruct (h !! q) as [m|] eqn:Hm; [| done]. intros [= <-]. cbn. rewrite length_insert. by apply (wf_lookup h q).
Qed.

Lemma store_ok {E} h p l x : wf_store h -> (p < length h)%nat -> (l < MAX_HEIGHT)%nat ->
  store (E := E) h p l x = Ok (upd h p l x).
Proof.
  intros Hw Hp Hl. unfold store. destruct (deref_ok (E := E) h p Hp) as (n & Hn & ->). cbn [mbind outcome_bind].
  unfold load_next. rewrite <- (wf_lookup h p n Hw Hn) in Hl. apply lookup_lt_is_Some_2 in Hl as [y ->].
  cbn [mbind outcome_bind]. unfold upd. f_equal. apply list_eq. intros i. destruct (decide (i = p)) as [-> |].
  - by rewrite list_lookup_alter_eq, list_lookup_insert_eq, Hn by done.
  - by rewrite list_lookup_alter_ne, list_lookup_insert_ne by done.
Qed.

Lemma load_upd {E} h p l x q m : wf_store h -> (p < length h)%nat -> (l < MAX_HEIGHT)%nat ->
  load (E := E) (upd h p l x) q m = if decide (q = p /\ m = l) then Ok x else load h q m.
Proof.
  intros Hw Hp Hl. unfold load, deref. rewrite upd_lookup.
  destruct (decide (q = p)) as [-> |]; [| by rewrite decide_False by tauto].
  destruct (lookup_lt_is_Some_2 h p Hp) as [n Hn]. rewrite Hn. cbn [fmap option_fmap option_map mbind outcome_bind].
  unfold load_next. cbn [next]. rewrite <- (wf_lookup h p n Hw Hn) in Hl.
  destruct (decide (m = l)) as [-> |].
  - by rewrite decide_True, list_lookup_insert_eq by done.
  - rewrite decide_False by tauto. by rewrite list_lookup_insert_ne.
Qed.

(** ** Chains *)

(** The node before the rest of a chain. *)
Definition pred_of (a : list nat) : nat := default head_ptr (last a).

Definition linked (h : list Node) (l : nat) (c : list nat) : Prop :=
  forall E a d, c = a ++ d -> load (E := E) h (pred_of a) l = Ok (hd_error d).

Definition chain_ok (h : list Node) (c : list nat) : Prop :=
  NoDup (head_ptr :: c) /\ Forall (fun p => p < length h)%nat (head_ptr :: c) /\
  sorted_keys (ent h <$> c).

Lemma pred_of_snoc a p : pred_of (a ++ [p]) = p.
Proof. unfold pred_of. by rewrite last_snoc. Qed.

Lemma pred_of_lookup a d : (head_ptr :: a ++ d) !! length a = Some (pred_of a).
Proof.
  destruct a as [|p a _] using rev_ind; [done |]. rewrite pred_of_snoc, length_app, Nat.add_1_r, <- app_assoc.
  change ((a ++ [p] ++ d) !! length a = Some p). rewrite lookup_app_r by lia. by rewrite Nat.sub_diag.
Qed.

Lemma pred_of_inj c a d a' d' : NoDup (head_ptr :: c) -> c = a ++ d -> c = a' ++ d' ->
  pred_of a = pred_of a' -> a = a'.
Proof.
  intros Hnd Hc Hc' Heq. assert (length a = length a') as Hl.
  { eapply (NoDup_lookup _ _ _ (pred_of a) Hnd); [rewrite Hc | rewrite Heq, Hc']; apply pred_of_lookup. }
  rewrite Hc in Hc'. by apply app_inj_1 in Hc' as [? _].
Qed.

Lemma pred_of_in a : pred_of a = head_ptr \/ pred_of a ∈ a.
Proof.
  destruct a as [|p a _] using rev_ind; [by left | right]. rewrite pred_of_snoc. apply elem_of_app. right. constructor.
Qed.

Lemma pred_of_valid h a d : chain_ok h (a ++ d) -> (pred_of a < length h)%nat.
Proof.
  intros (_ & Hv & _). rewrite Forall_forall in Hv. apply Hv. destruct (pred_of_in a) as [-> | Hin]; [constructor |].
  constructor. apply elem_of_app. by left.
Qed.

(** The chain below and from a key. *)
Definition lo (h : list Node) (k : bytes) (c : list nat) : list nat := filter (fun p => blt (ekey (ent h p)) k) c.
Definition hi (h : list Node) (k : bytes) (c : list nat) : list nat := filter (fun p => ~ blt (ekey (ent h p)) k) c.

Lemma filter_all {A} (P : A -> Prop) `{forall x, Decision (P x)} l : Forall P l -> filter P l = l.
Proof. induction 1 as [|x l Hx Hl IH]; [done |]. by rewrite filter_cons, decide_True, IH. Qed.

Lemma filter_none {A} (P : A -> Prop) `{forall x, Decision (P x)} l : Forall (fun x => ~ P x) l -> filter P l = [].
Proof. induction 1 as [|x l Hx Hl IH]; [done |]. by rewrite filter_cons, decide_False, IH. Qed.

Lemma sorted_split h k c : sorted_keys (ent h <$> c) -> c = lo h k c ++ hi h k c.
Proof.
  unfold lo, hi, sorted_keys. induction c as [|p c IH]; [done |]. cbn [fmap list_fmap].
  intros Hs. apply StronglySorted_inv in Hs as [Hs Hall]. rewrite !filter_cons.
  destruct (decide (blt (ekey (ent h p)) k)) as [Hlt | Hge].
  - rewrite (decide_False (P := ~ _)) by tauto. cbn [app]. f_equal. by apply IH.
  - rewrite (decide_True (P := ~ _)) by done. assert (Forall (fun p => ~ blt (ekey (ent h p)) k) c) as Hno.
    { rewrite Forall_fmap, Forall_fmap in Hall. eapply Forall_impl; [exact Hall |]. cbn. intros q Hq Hlt.
      apply Hge. eapply ble_blt_trans; [exact Hq | exact Hlt]. }
    rewrite (filter_none _ c) by (eapply Forall_impl; [exact Hno |]; auto).
    by rewrite (filter_all _ c Hno).
Qed.

(** ** Searching a level *)

Lemma ent_key h p n : h !! p = Some n -> ekey (ent h p) = key n.
Proof. intros Hn. unfold ent. by rewrite Hn. Qed.

Lemma linked_next {E} h l c a d : linked h l c -> c = a ++ d ->
  load (E := E) h (pred_of a) l = Ok (hd_error d).
Proof. intros Hl. apply Hl. Qed.

(** Along a level from [pred_of a] to the first key that is not smaller. *)
Lemma walk_ok `{Fueled E} fuel h l k a b d : linked h l (a ++ b ++ d) ->
  Forall (fun p => p < length h)%nat (b ++ d) ->
  Forall (fun p => blt (ekey (ent h p)) k) b -> Forall (fun p => ~ blt (ekey (ent h p)) k) d ->
  (length b < fuel)%nat ->
  walk (E := E) fuel h l k (pred_of a) (hd_error (b ++ d)) = Ok (pred_of (a ++ b), hd_error d).
Proof.
  revert fuel a. induction b as [|p b IH]; intros fuel a Hl Hv Hb Hd Hf;
    (destruct fuel as [|fuel]; [cbn in Hf; lia |]); cbn [walk app hd_error].
  - rewrite app_nil_r. destruct d as [|p d]; [done |]. cbn [hd_error].
    apply Forall_cons in Hv as [Hp _]. destruct (deref_ok (E := E) h p Hp) as (n & Hn & ->).
    cbn [mbind outcome_bind]. apply Forall_cons in Hd as [Hd _]. rewrite (ent_key h p n Hn) in Hd.
    by destruct (bltb_spec (key n) k).
  - apply Forall_cons in Hv as [Hp Hv]. apply Forall_cons in Hb as [Hpk Hb].
    pose proof (linked_next (E := E) h l _ (a ++ [p]) (b ++ d) Hl ltac:(by rewrite <- app_assoc)) as Hnx.
    rewrite pred_of_snoc in Hnx. unfold load in Hnx.
    destruct (deref_ok (E := E) h p Hp) as (n & Hn & Hderef). rewrite Hderef in *. cbn [mbind outcome_bind] in *.
    rewrite (ent_key h p n Hn) in Hpk. destruct (bltb_spec (key n) k); [| done].
    rewrite Hnx. cbn [mbind outcome_bind]. specialize (IH fuel (a ++ [p])).
    rewrite pred_of_snoc, <- !app_assoc in IH. apply IH; try done. cbn in Hf. lia.
Qed.

(** ** The whole list *)

(** [C l] is the chain of level [l]. *)
Record rep (h : list Node) (C : nat -> list nat) : Prop := {
  rep_wf : wf_store h;
  rep_linked : forall l, (l < MAX_HEIGHT)%nat -> linked h l (C l);
  rep_chain : forall l, chain_ok h (C l);
  rep_sub : forall l p, p ∈ C (S l) -> p ∈ C l
}.

(** Where a search may stand when it enters a level. *)
Definition stands (h : list Node) (k : bytes) (c : list nat) (curr : nat) : Prop :=
  curr = head_ptr \/ (curr ∈ c /\ blt (ekey (ent h curr)) k).

Lemma stands_split h k c curr : stands h k c curr -> exists a b, lo h k c = a ++ b /\ curr = pred_of a.
Proof.
  intros [-> | [Hin Hlt]]; [by exists [], (lo h k c) |].
  assert (curr ∈ lo h k c) as Hlo by (unfold lo; by apply list_elem_of_filter).
  apply list_elem_of_split in Hlo as (a & b & ->). exists (a ++ [curr]), b.
  by rewrite <- app_assoc, pred_of_snoc.
Qed.

Lemma lo_stands h k c : stands h k c (pred_of (lo h k c)).
Proof.
  destruct (pred_of_in (lo h k c)) as [-> | Hin]; [by left | right].
  unfold lo in Hin. by apply list_elem_of_filter in Hin as [? ?].
Qed.

Lemma stands_below h C k l curr : rep h C -> stands h k (C (S l)) curr -> stands h k (C l) curr.
Proof. intros Hr [-> | [Hin Hlt]]; [by left | right]. split; [by apply (rep_sub h C Hr) | done]. Qed.

Lemma lo_length h k c : chain_ok h c -> (length (lo h k c) <= length h)%nat.
Proof.
  intros (Hnd & Hv & _). apply NoDup_cons in Hnd as [_ Hnd]. apply Forall_cons in Hv as [_ Hv].
  etrans; [apply length_filter |]. rewrite <- (length_seq (length h) 0).
  apply (submseteq_length _ _). apply NoDup_submseteq; [done |]. intros p Hp.
  apply elem_of_seq. rewrite Forall_forall in Hv. specialize (Hv p Hp). lia.
Qed.

(** One level of [find_position]. *)
Lemma search_level {E} `{Fueled E} h C k l curr : rep h C -> (l < MAX_HEIGHT)%nat -> stands h k (C l) curr ->
  exists nxt, load (E := E) h curr l = Ok nxt /\
    walk (E := E) (S (length h)) h l k curr nxt = Ok (pred_of (lo h k (C l)), hd_error (hi h k (C l))).
Proof.
  intros Hr Hl Hst. destruct (stands_split h k (C l) curr Hst) as (a & b & Hab & ->).
  pose proof (rep_linked h C Hr l Hl) as Hlink. pose proof (rep_chain h C Hr l) as Hc.
  pose proof (lo_length h k _ Hc) as Hlen. pose proof Hc as (_ & Hv & Hs).
  pose proof (sorted_split h k (C l) Hs) as Hsplit. rewrite Hab in *. rewrite Hsplit in Hlink.
  exists (hd_error (b ++ hi h k (C l))). rewrite <- app_assoc in Hlink. split; [by apply Hlink |].
  apply walk_ok; [done | | | | rewrite length_app in Hlen; lia].
  - apply Forall_cons in Hv as [_ Hv]. rewrite Hsplit, <- app_assoc in Hv. by apply Forall_app in Hv as [_ Hv].
  - assert (Forall (fun p => blt (ekey (ent h p)) k) (a ++ b)) as Hlt.
    { rewrite <- Hab. apply Forall_forall. intros p Hp. unfold lo in Hp. by apply list_elem_of_filter in Hp as [? _]. }
    by apply Forall_app in Hlt as [_ Hlt].
  - apply Forall_forall. intros p Hp. unfold hi in Hp. by apply list_elem_of_filter in Hp as [? _].
Qed.

(** [find_position] finds, on every level, the last smaller node and the one
    after it. *)
Lemma find_levels_ok `{Fueled E} h C k level curr preds succs : rep h C -> (level <= MAX_HEIGHT)%nat ->
  (forall l, level = S l -> stands h k (C l) curr) ->
  length preds = MAX_HEIGHT -> length succs = MAX_HEIGHT ->
  exists ps ss, find_levels (E := E) h k level curr preds succs = Ok (ps, ss) /\
    (forall l, (l < level)%nat -> ps !! l = Some (Some (pred_of (lo h k (C l)))) /\
      ss !! l = Some (hd_error (hi h k (C l)))) /\
    (forall l, (level <= l)%nat -> ps !! l = preds !! l /\ ss !! l = succs !! l).
Proof.
  intros Hr. revert curr preds succs. induction level as [|l IH]; intros curr preds succs Hle Hst Hp Hs.
  { exists preds, succs. split_and!; [done | intros; lia | done]. }
  cbn [find_levels]. destruct (search_level (E := E) h C k l curr Hr) as (nxt & -> & Hw); [lia | by apply Hst |].
  cbn [mbind outcome_bind]. rewrite Hw. cbn [mbind outcome_bind fst snd].
  destruct (IH (pred_of (lo h k (C l))) (<[l := Some (pred_of (lo h k (C l)))]> preds)
    (<[l := hd_error (hi h k (C l))]> succs)) as (ps & ss & Hf & Hin & Hout).
  { lia. }
  { intros m ->. apply (stands_below h C k m); [done |]. apply lo_stands. }
  { by rewrite length_insert. }
  { by rewrite length_insert. }
  exists ps, ss. split; [done |]. split.
  - intros m Hm. destruct (decide (m = l)) as [-> |]; [| apply Hin; lia].
    destruct (Hout l ltac:(lia)) as [-> ->]. rewrite !list_lookup_insert_eq by lia. done.
  - intros m Hm. destruct (Hout m ltac:(lia)) as [-> ->]. by rewrite !list_lookup_insert_ne by lia.
Qed.

Lemma find_position_ok `{Fueled E} h C k : rep h C ->
  exists ps ss, find_position (E := E) h k = Ok (ps, ss) /\
    forall l, (l < MAX_HEIGHT)%nat -> ps !! l = Some (Some (pred_of (lo h k (C l)))) /\
      ss !! l = Some (hd_error (hi h k (C l))).
Proof.
  intros Hr. destruct (find_levels_ok (E := E) h C k MAX_HEIGHT head_ptr (replicate MAX_HEIGHT None)
    (replicate MAX_HEIGHT None) Hr) as (ps & ss & Hf & Hin & _); try done; [by left |].
  by exists ps, ss.
Qed.

(** ** Linking a node *)

Definition ins (h : list Node) (k : bytes) (n : nat) (c : list nat) : list nat := lo h k c ++ n :: hi h k c.

(** The store after linking [n] between [a] and [d] on level [l]. *)
Definition link_store (h : list Node) (l : nat) (a : list nat) (n : nat) (d : list nat) : list Node :=
  upd (upd h n l (hd_error d)) (pred_of a) l (Some n).

Lemma link_store_load {E} h l a n d q m : wf_store h -> (l < MAX_HEIGHT)%nat -> (n < length h)%nat ->
  (pred_of a < length h)%nat ->
  load (E := E) (link_store h l a n d) q m =
  if decide (q = pred_of a /\ m = l) then Ok (Some n)
  else if decide (q = n /\ m = l) then Ok (hd_error d) else load h q m.
Proof.
  intros Hw Hl Hn Hp. unfold link_store.
  rewrite load_upd by (rewrite ?length_upd; auto using wf_upd). case_decide; [done |]. by rewrite load_upd.
Qed.

(** The chain of the level with the node in it. *)
Lemma linked_insert h l a n d : wf_store h -> (l < MAX_HEIGHT)%nat -> linked h l (a ++ d) ->
  chain_ok h (a ++ d) -> n ∉ head_ptr :: a ++ d -> (n < length h)%nat ->
  linked (link_store h l a n d) l (a ++ n :: d).
Proof.
  intros Hw Hl Hlink Hc Hn Hnl E x y Heq. pose proof (pred_of_valid h a d Hc) as Hp.
  pose proof Hc as (Hnd & _). rewrite link_store_load by done.
  assert (forall b, (forall q, q ∈ b -> q ∈ head_ptr :: a ++ d) -> pred_of b <> n) as Hne.
  { intros b Hb <-. apply Hn. destruct (pred_of_in b) as [-> |]; [constructor | by apply Hb]. }
  apply app_eq_inv in Heq as [(z & -> & Hz) | (z & -> & Hz)].
  - destruct z as [|q z]; cbn in Hz.
    + subst y. rewrite app_nil_r. by rewrite decide_True.
    + subst y. cbn [app hd_error]. rewrite <- app_assoc in *. rewrite decide_False.
      * rewrite decide_False; [exact (Hlink E x (q :: z ++ d) eq_refl) |]. intros [Heq _]. apply (Hne x) in Heq; [done |].
        intros q' Hq'. constructor. apply elem_of_app. by left.
      * intros [Heq _]. eapply (pred_of_inj _ x _ (x ++ q :: z) d) in Heq; [| exact Hnd | done | by rewrite <- app_assoc].
        apply (f_equal length) in Heq. rewrite length_app in Heq. cbn in Heq. lia.
  - destruct z as [|q z]; cbn in Hz; [subst y; rewrite app_nil_r; by rewrite decide_True |].
    injection Hz as <- ->. destruct z as [|q z _] using rev_ind.
    + cbn [app]. rewrite pred_of_snoc. rewrite decide_False; [by rewrite decide_True |].
      intros [Heq _]. apply (Hne a); [| done]. intros q Hq. constructor. apply elem_of_app. by left.
    + replace (a ++ n :: z ++ [q]) with ((a ++ n :: z) ++ [q]) by (by rewrite <- app_assoc).
      rewrite pred_of_snoc. pose proof (Hlink E (a ++ z ++ [q]) y ltac:(by rewrite <- !app_assoc)) as Hld.
      rewrite app_assoc, pred_of_snoc in Hld. rewrite decide_False; [rewrite decide_False; [done |] |].
      * intros [-> _]. apply Hn. constructor. apply elem_of_app. right. apply elem_of_app. left.
        apply elem_of_app. right. constructor.
      * intros [Heq _]. rewrite <- (pred_of_snoc (a ++ z) q) in Heq.
        eapply (pred_of_inj _ _ y a) in Heq; [| exact Hnd | by rewrite <- !app_assoc | done].
        apply (f_equal length) in Heq. rewrite !length_app in Heq. cbn in Heq. lia.
Qed.

Lemma linked_other h l m a n d c : wf_store h -> (l < MAX_HEIGHT)%nat -> (n < length h)%nat ->
  (pred_of a < length h)%nat -> m <> l -> linked h m c -> linked (link_store h l a n d) m c.
Proof.
  intros Hw Hl Hn Hp Hm Hlink E x y Heq. rewrite link_store_load by done.
  rewrite !decide_False by tauto. by apply Hlink.
Qed.

Lemma ent_link_store h l a n d q : ent (link_store h l a n d) q = ent h q.
Proof. unfold link_store. by rewrite !ent_upd. Qed.

Lemma length_link_store h l a n d : length (link_store h l a n d) = length h.
Proof. unfold link_store. by rewrite !length_upd. Qed.

Lemma chain_ok_ent h h' c : (forall q, ent h' q = ent h q) -> length h' = length h ->
  chain_ok h c -> chain_ok h' c.
Proof.
  intros He Hl (Hnd & Hv & Hs). split_and!; [done | by rewrite Hl |].
  unfold sorted_keys in *. rewrite (list_fmap_ext (ent h') (ent h) c); [done |]. intros i q _. apply He.
Qed.

Lemma filter_lo_in h k c p : p ∈ lo h k c <-> p ∈ c /\ blt (ekey (ent h p)) k.
Proof. unfold lo. rewrite list_elem_of_filter. tauto. Qed.
Lemma filter_hi_in h k c p : p ∈ hi h k c <-> p ∈ c /\ ~ blt (ekey (ent h p)) k.
Proof. unfold hi. rewrite list_elem_of_filter. tauto. Qed.

(** Putting an element between the smaller and the other keys keeps a list
    sorted. *)
Lemma ins_sorted h n c : sorted_keys (ent h <$> c) -> sorted_keys (ent h <$> ins h (ekey (ent h n)) n c).
Proof.
  intros Hs. pose proof (sorted_split h (ekey (ent h n)) c Hs) as Hsp. unfold sorted_keys, ins in *.
  rewrite Hsp in Hs. rewrite !fmap_app in *. cbn [fmap list_fmap].
  apply StronglySorted_app in Hs as (Hb & H1 & H2). apply StronglySorted_app_2; [| done |].
  - intros k1 k2 Hk1 [-> | Hk2]%elem_of_cons; [| by apply Hb].
    apply list_elem_of_fmap in Hk1 as (e & -> & He). apply list_elem_of_fmap in He as (p & -> & Hp).
    apply filter_lo_in in Hp as [_ Hp]. by apply blt_ble.
  - constructor; [done |]. rewrite !Forall_fmap. apply Forall_forall. intros p Hp.
    apply filter_hi_in in Hp as [_ Hp]. by apply not_blt.
Qed.

Lemma ins_chain h n c : chain_ok h c -> n ∉ head_ptr :: c -> (n < length h)%nat ->
  chain_ok h (ins h (ekey (ent h n)) n c).
Proof.
  intros (Hnd & Hv & Hs) Hn Hl. pose proof (sorted_split h (ekey (ent h n)) c Hs) as Hsp.
  assert (ins h (ekey (ent h n)) n c ≡ₚ n :: c) as Hp.
  { unfold ins. rewrite <- Permutation_middle. by rewrite <- Hsp. }
  split_and!; [| | by apply ins_sorted].
  - rewrite Hp. rewrite Permutation_swap. by constructor.
  - rewrite Hp. apply Forall_cons in Hv as [? ?]. by repeat constructor.
Qed.

Definition relink (C : nat -> list nat) (l : nat) (c : list nat) : nat -> list nat :=
  fun m => if decide (m = l) then c else C m.

(** Linking [n] on level [l] of a list that has it on the levels below. *)
Lemma link_rep h C n l : rep h C -> (l < MAX_HEIGHT)%nat -> (n < length h)%nat ->
  n ∉ head_ptr :: C l -> (forall m, l = S m -> n ∈ C m) ->
  let k := ekey (ent h n) in
  rep (link_store h l (lo h k (C l)) n (hi h k (C l))) (relink C l (ins h k n (C l))).
Proof.
  intros Hr Hl Hn Hnin Hbelow k. pose proof (rep_wf h C Hr) as Hw. pose proof (rep_chain h C Hr l) as Hc.
  pose proof Hc as (_ & _ & Hs). pose proof (sorted_split h k (C l) Hs) as Hsp.
  assert (pred_of (lo h k (C l)) < length h)%nat as Hp by (eapply pred_of_valid; rewrite <- Hsp; exact Hc).
  split.
  - unfold link_store. by repeat apply wf_upd.
  - intros m Hm. unfold relink. case_decide as Hml.
    + subst m. unfold ins. apply linked_insert; rewrite <- ?Hsp; try done. by apply rep_linked.
    + apply linked_other; try done. by apply rep_linked.
  - intros m. apply (chain_ok_ent h); [apply ent_link_store | apply length_link_store |].
    unfold relink. case_decide; [by apply ins_chain | apply (rep_chain h C Hr)].
  - intros m p. pose proof (rep_sub h C Hr m p) as Hsub. unfold relink, ins.
    assert (forall q, q ∈ lo h k (C l) ++ n :: hi h k (C l) <-> q = n \/ q ∈ C l) as Hin.
    { intros q. rewrite Hsp at 3. rewrite !elem_of_app, elem_of_cons. tauto. }
    case_decide as H1; case_decide as H2; rewrite ?Hin; [lia | | | done].
    + subst l. intros [-> | Hq]; [by apply Hbelow | by apply Hsub].
    + subst m. intros Hq. right. by apply Hsub.
Qed.

Lemma link_ok `{Fueled E} h C n l : rep h C -> (l < MAX_HEIGHT)%nat -> (n < length h)%nat ->
  n ∉ head_ptr :: C l ->
  let k := ekey (ent h n) in
  link (E := E) 1 k n l h = Ok (link_store h l (lo h k (C l)) n (hi h k (C l))).
Proof.
  intros Hr Hl Hn Hnin k. pose proof (rep_wf h C Hr) as Hw. pose proof (rep_chain h C Hr l) as Hc.
  pose proof Hc as (_ & _ & Hs). pose proof (sorted_split h k (C l) Hs) as Hsp.
  pose proof (rep_linked h C Hr l Hl) as Hlink. rewrite Hsp in Hlink.
  assert (pred_of (lo h k (C l)) < length h)%nat as Hp by (eapply pred_of_valid; rewrite <- Hsp; exact Hc).
  cbn [link]. destruct (find_position_ok (E := E) h C k Hr) as (ps & ss & -> & Hfind).
  cbn [mbind outcome_bind]. destruct (Hfind l Hl) as [-> ->]. cbn [mbind outcome_bind].
  rewrite store_ok by done. cbn [mbind outcome_bind]. unfold compare_exchange.
  rewrite load_upd by done. rewrite decide_False.
  2:{ intros [Heq _]. apply Hnin. rewrite <- Heq. destruct (pred_of_in (lo h k (C l))) as [-> | Hin]; [constructor |].
      constructor. by apply filter_lo_in in Hin as [? _]. }
  rewrite (Hlink E _ _ eq_refl). cbn [mbind outcome_bind]. rewrite decide_True by done.
  by rewrite store_ok by (rewrite ?length_upd; auto using wf_upd).
Qed.

Lemma lo_hi_ext h h' k c : (forall p, p ∈ c -> ent h' p = ent h p) -> lo h' k c = lo h k c /\ hi h' k c = hi h k c.
Proof.
  unfold lo, hi. induction c as [|p c IH]; intros He; [done |]. rewrite !filter_cons.
  destruct IH as [-> ->]; [intros; apply He; by constructor |]. by rewrite (He p) by constructor.
Qed.

Lemma ins_ext h h' k n c : (forall p, p ∈ c -> ent h' p = ent h p) -> ins h' k n c = ins h k n c.
Proof. intros He. unfold ins. by destruct (lo_hi_ext h h' k c He) as [-> ->]. Qed.

Lemma rep_ext h C C' : (forall m, C m = C' m) -> rep h C -> rep h C'.
Proof.
  intros He [Hw Hl Hc Hs]. split; [done | | |].
  - intros l. rewrite <- He. apply Hl.
  - intros l. rewrite <- He. apply Hc.
  - intros l p. rewrite <- !He. apply Hs.
Qed.

(** The levels from [level] on, bottom up. *)
Lemma link_levels_ok `{Fueled E} cnt h C n level : rep h C -> (level + cnt <= MAX_HEIGHT)%nat ->
  (n < length h)%nat -> (forall m, level = S m -> n ∈ C m) ->
  (forall m, (level <= m)%nat -> n ∉ head_ptr :: C m) ->
  let k := ekey (ent h n) in
  exists h', link_levels (E := E) cnt k n level h = Ok h' /\ length h' = length h /\
    (forall q, ent h' q = ent h q) /\
    rep h' (fun m => if decide (level <= m < level + cnt)%nat then ins h k n (C m) else C m).
Proof.
  revert h C level. induction cnt as [|cnt IH]; intros h C level Hr Hle Hn Hbelow Hnin k.
  { exists h. split_and!; [done | done | done |]. eapply rep_ext; [| exact Hr]. intros m. by rewrite decide_False by lia. }
  cbn [link_levels]. unfold k. rewrite (link_ok (E := E) h C) by (done || lia || (apply Hnin; lia)). fold k. cbn [mbind outcome_bind].
  set (h1 := link_store h level (lo h k (C level)) n (hi h k (C level))).
  assert (Hent : forall q, ent h1 q = ent h q) by apply ent_link_store.
  assert (rep h1 (relink C level (ins h k n (C level)))) as Hr1 by (apply link_rep; try done; [lia | by apply Hnin]).
  destruct (IH h1 _ (level + 1)%nat Hr1) as (h' & Hll & Hlen & He & Hr').
  - lia.
  - unfold h1. by rewrite length_link_store.
  - intros m ?. assert (m = level) as -> by lia. unfold relink. rewrite decide_True by done. unfold ins.
    apply elem_of_app. right. constructor.
  - intros m Hm. unfold relink. rewrite decide_False by lia. apply Hnin. lia.
  - rewrite (Hent n) in Hll, Hr'. fold k in Hll, Hr'. exists h'. split_and!; [done | | by intros; rewrite He |].
    + rewrite Hlen. apply length_link_store.
    + eapply rep_ext; [| exact Hr']. intros m. cbn beta. unfold relink.
      repeat case_decide; try lia; try done; subst; [by apply ins_ext | done].
Qed.

(** ** [insert] *)

Lemma height_loop_bounds fuel height rng : (1 <= height)%nat -> (height <= MAX_HEIGHT)%nat ->
  (1 <= (height_loop fuel height rng).1 <= MAX_HEIGHT)%nat.
Proof.
  revert height rng. induction fuel as [|fuel IH]; intros height rng H1 H2; cbn [height_loop]; [cbn; lia |].
  destruct (Nat.ltb_spec height MAX_HEIGHT); [| cbn; lia]. case_match; [apply IH; lia | cbn; lia].
Qed.

Lemma random_height_bounds rng : (1 <= (random_height rng).1 <= MAX_HEIGHT)%nat.
Proof. apply height_loop_bounds; unfold MAX_HEIGHT; lia. Qed.

(** A new node, not linked yet. *)
Lemma alloc_rep h C n : rep h C -> length (next n) = MAX_HEIGHT -> rep (h ++ [n]) C.
Proof.
  intros [Hw Hl Hc Hs] Hn.
  assert (forall p, (p < length h)%nat -> (h ++ [n]) !! p = h !! p) as Hlk by (intros; by rewrite lookup_app_l).
  split; [apply Forall_app; split; [done | by constructor] | | | done].
  - intros l Hlt E a d Heq. pose proof (Hl l Hlt E a d Heq) as Hld. pose proof (Hc l) as Hcl. rewrite Heq in Hcl.
    apply pred_of_valid in Hcl. unfold load, deref in *. by rewrite Hlk.
  - intros l. destruct (Hc l) as (Hnd & Hv & Hso). split_and!; [done | |].
    + eapply Forall_impl; [exact Hv |]. cbn. intros p Hp. rewrite length_app. lia.
    + unfold sorted_keys in *. rewrite (list_fmap_ext _ (ent h) (C l)); [done |]. intros i p Hp.
      unfold ent. rewrite Hlk; [done |]. apply Forall_cons in Hv as [_ Hv].
      by apply (Forall_lookup_1 _ _ _ _ Hv Hp).
Qed.

(** The entries of the list in order: level 0. *)
Definition ins_entry (e : entry) (es : list entry) : list entry :=
  filter (fun e' => blt (ekey e') (ekey e)) es ++ e :: filter (fun e' => ~ blt (ekey e') (ekey e)) es.

Definition abs (s : ConcurrentSkipList) (es : list entry) : Prop :=
  exists C, rep (nodes s) C /\ es = ent (nodes s) <$> C 0%nat /\ (1 <= max_height s <= MAX_HEIGHT)%nat.

Lemma ins_entries h n c : ent h <$> ins h (ekey (ent h n)) n c = ins_entry (ent h n) (ent h <$> c).
Proof.
  unfold ins, ins_entry, lo, hi. rewrite fmap_app, fmap_cons. f_equal; [| f_equal];
    (induction c as [|p c IH]; [done |]; rewrite fmap_cons, !filter_cons; case_decide; cbn [fmap list_fmap];
     by rewrite IH).
Qed.

Lemma new_abs : abs ConcurrentSkipList_new [].
Proof.
  exists (fun _ => []). split_and!; [| done | done | unfold MAX_HEIGHT; cbn; lia]. split.
  - by repeat constructor.
  - intros l Hl E a d Heq. symmetry in Heq. apply app_eq_nil in Heq as [-> ->].
    unfold load. change (deref (nodes ConcurrentSkipList_new) (pred_of [])) with (Ok (E := E) (Node_new [] None 0 MAX_HEIGHT)).
    cbn [mbind outcome_bind]. unfold load_next, Node_new. cbn [next]. by rewrite lookup_replicate_2.
  - intros l. split_and!; [| | constructor]; repeat constructor. intros Hin. inversion Hin.
  - intros l p Hp. inversion Hp.
Qed.

Lemma insert_abs `{Fueled E} weak_ok k v q s rng es : abs s es ->
  exists s' rng', insert (E := E) weak_ok k v q s rng = Ok (s', rng') /\ abs s' (ins_entry (k, v, q) es) /\
    approximate_size s' = wrap64 (approximate_size s + (len k + len (default [] v) + 24)).
Proof.
  intros (C & Hr & -> & Hmh). unfold insert. destruct (random_height rng) as [height rng'] eqn:Hrh.
  pose proof (random_height_bounds rng) as Hb. rewrite Hrh in Hb. cbn [fst] in Hb.
  set (node := Node_new k v q height). set (n := length (nodes s)). set (h := nodes s ++ [node]).
  assert (rep h C) as Hr1 by (apply alloc_rep; [done | reflexivity]).
  assert (n < length h)%nat as Hn by (unfold h, n; rewrite length_app; cbn; lia).
  assert (ent h n = (k, v, q)) as He.
  { unfold ent, h, n. rewrite lookup_app_r by lia. by rewrite Nat.sub_diag. }
  assert (forall m, n ∉ head_ptr :: C m) as Hnin.
  { intros m Hin. destruct (rep_chain _ _ Hr m) as (_ & Hv & _). rewrite Forall_forall in Hv.
    specialize (Hv n Hin). unfold n in Hv. lia. }
  assert (forall p, p ∈ C 0%nat -> ent h p = ent (nodes s) p) as Hold.
  { intros p Hp. destruct (rep_chain _ _ Hr 0%nat) as (_ & Hv & _). apply Forall_cons in Hv as [_ Hv].
    rewrite Forall_forall in Hv. unfold ent, h. by rewrite lookup_app_l by (by apply Hv). }
  pose proof (link_levels_ok (E := E) height h C n 0 Hr1) as Hall.
  destruct height as [|cnt]; [lia |]. cbn [link_levels] in Hall. rewrite He in Hall. cbn [ekey fst] in Hall.
  rewrite Nat.sub_succ, Nat.sub_0_r. destruct Hall as (h' & Hll & Hlen & Hent & Hr'); try done; [lia |].
  apply bind_Ok in Hll as (h1 & -> & Hll). cbn [mbind outcome_bind]. cbn [Nat.add] in Hll. rewrite Hll.
  cbn [mbind outcome_bind]. do 2 eexists. split; [done |]. cbn [approximate_size]. split; [| by destruct v].
  eexists. split; [exact Hr' |]. cbn [nodes max_height]. split.
  - rewrite decide_True by lia. rewrite (list_fmap_ext (ent h') (ent h)) by (intros; apply Hent).
    pose proof (ins_entries h n (C 0%nat)) as Hie. rewrite He in Hie. cbn [ekey fst] in Hie. rewrite Hie.
    f_equal. apply list_fmap_ext. intros i p Hp. symmetry. apply Hold. by eapply list_elem_of_lookup_2.
  - destruct (_ && _); lia.
Qed.

(** ** The iterator *)

Lemma iter_collect_ok `{Fueled E} h C fuel a d out : rep h C -> C 0%nat = a ++ d -> (length d < fuel)%nat ->
  (iter_collect (E := E) h fuel out (hd_error d)).2 = Ok (out ++ (ent h <$> d)).
Proof.
  intros Hr. revert fuel a out. induction d as [|p d IH]; intros fuel a out Hc Hf;
    (destruct fuel as [|fuel]; [cbn in Hf; lia |]); cbn [iter_collect].
  - cbn. by rewrite app_nil_r.
  - destruct (rep_chain h C Hr 0%nat) as (_ & Hv & _). apply Forall_cons in Hv as [_ Hv].
    rewrite Hc in Hv. apply Forall_app in Hv as [_ Hv]. apply Forall_cons in Hv as [Hp _].
    pose proof (rep_linked h C Hr 0%nat ltac:(unfold MAX_HEIGHT; lia) E (a ++ [p]) d) as Hl.
    rewrite pred_of_snoc, <- app_assoc in Hl. specialize (Hl Hc).
    assert (iter_next (E := E) h (Some p) = (hd_error d, Ok (Some (ent h p)))) as Hn.
    { unfold iter_next. unfold load in Hl. destruct (deref_ok (E := E) h p Hp) as (n & Hn & Hd).
      rewrite Hd in *. cbn [mbind outcome_bind] in *. rewrite Hl. cbn [mbind outcome_bind].
      unfold ent. by rewrite Hn. }
    cbn [hd_error]. rewrite (st_bind_Ok _ _ _ _ _ Hn). rewrite (IH fuel (a ++ [p])).
    + cbn. by rewrite <- app_assoc.
    + by rewrite <- app_assoc.
    + cbn in Hf. lia.
Qed.

Lemma chain_length h c : chain_ok h c -> (length c < length h)%nat.
Proof.
  intros (Hnd & Hv & _). rewrite <- (length_seq (length h) 0). change (S (length c) <= length (List.seq 0 (length h)))%nat.
  change (S (length c)) with (length (head_ptr :: c)). apply submseteq_length, NoDup_submseteq; [done |].
  intros p Hp. apply elem_of_seq. rewrite Forall_forall in Hv. specialize (Hv p Hp). lia.
Qed.

Lemma iter_all_abs `{Fueled E} s es : abs s es -> iter_all (E := E) s = Ok es.
Proof.
  intros (C & Hr & -> & _). unfold iter_all, iter.
  rewrite (rep_linked _ C Hr 0%nat ltac:(unfold MAX_HEIGHT; lia) E [] (C 0%nat) eq_refl : load _ head_ptr 0 = _).
  cbn [mbind outcome_bind]. pose proof (chain_length _ _ (rep_chain _ C Hr 0%nat)).
  by rewrite (iter_collect_ok _ C _ []) by (done || lia).
Qed.

(** ** [get] *)

(** What a level shows of a key: its first node with it. *)
Definition level_hit (h : list Node) (k : bytes) (c : list nat) : option (option bytes * Z) :=
  match hd_error (hi h k c) with
  | Some p => if decide (ekey (ent h p) = k) then Some (eval (ent h p)) else None
  | None => None
  end.

(** [get] answers from the highest level that has the key. *)
Fixpoint top_hit (h : list Node) (C : nat -> list nat) (k : bytes) (level : nat) : option (option bytes * Z) :=
  match level with
  | O => None
  | S l => match level_hit h k (C l) with Some r => Some r | None => top_hit h C k l end
  end.

Lemma stands_fuel h k c curr : chain_ok h c -> stands h k c curr ->
  exists a b, lo h k c = a ++ b /\ curr = pred_of a /\ (length b <= length h)%nat.
Proof.
  intros Hc Hst. destruct (stands_split h k c curr Hst) as (a & b & Hab & ->). exists a, b.
  split_and!; [done | done |]. pose proof (lo_length h k c Hc) as Hl. rewrite Hab, length_app in Hl. lia.
Qed.

Lemma get_loop_ok `{Fueled E} h C k fuel a b l : rep h C -> (l < MAX_HEIGHT)%nat -> lo h k (C l) = a ++ b ->
  (length b + 1 + l * S (length h) <= fuel)%nat ->
  get_loop (E := E) fuel h k (pred_of a) (S l) = Ok (top_hit h C k (S l)).
Proof.
  intros Hr. revert a b l. induction fuel as [|fuel IH]; intros a b l Hl Hab Hf; [lia |].
  cbn [get_loop]. rewrite Nat.sub_succ, Nat.sub_0_r.
  pose proof (rep_chain h C Hr l) as Hc. pose proof Hc as (_ & Hv & Hs). apply Forall_cons in Hv as [_ Hv].
  pose proof (sorted_split h k (C l) Hs) as Hsp. rewrite Hab, <- app_assoc in Hsp.
  rewrite (rep_linked h C Hr l Hl E a _ Hsp). cbn [mbind outcome_bind].
  rewrite Hsp in Hv. apply Forall_app in Hv as [_ Hv].
  destruct b as [|p b]; cbn [app hd_error] in *.
  - (* the end of the level *)
    set (down := if (1 <? S l)%nat then get_loop fuel h k (pred_of a) l else Ok None).
    assert (down = Ok (top_hit h C k l)) as Hdown.
    { unfold down. destruct l as [|l]; [done |]. cbn [Nat.ltb Nat.leb].
      rewrite app_nil_r in Hab. assert (stands h k (C l) (pred_of a)) as Hst.
      { apply (stands_below h C k l _ Hr). rewrite <- Hab. apply lo_stands. }
      destruct (stands_fuel h k (C l) _ (rep_chain h C Hr l) Hst) as (a' & b' & Hab' & -> & Hlen).
      apply (IH a' b' l); [lia | done |]. cbn in Hf. lia. }
    cbn [top_hit]. unfold level_hit.
    destruct (hd_error (hi h k (C l))) as [p|] eqn:Hhd; [| exact Hdown].
    assert (p ∈ hi h k (C l)) as Hp.
    { destruct (hi h k (C l)); [done |]. injection Hhd as ->. constructor. }
    rewrite Forall_forall in Hv. destruct (deref_ok (E := E) h p (Hv p Hp)) as (n & Hn & ->).
    cbn [mbind outcome_bind]. apply filter_hi_in in Hp as [_ Hp]. unfold ent. rewrite (ent_key h p n Hn) in Hp. rewrite Hn.
    destruct (bltb_spec (key n) k); [done |]. destruct (beqb_spec (key n) k) as [Heq | Hne].
    + by rewrite decide_True.
    + rewrite decide_False by done. exact Hdown.
  - (* a smaller key ahead *)
    apply Forall_cons in Hv as [Hp _]. destruct (deref_ok (E := E) h p Hp) as (n & Hn & ->).
    assert (p ∈ lo h k (C l)) as Hlo by (rewrite Hab; apply elem_of_app; right; constructor).
    apply filter_lo_in in Hlo as [_ Hlt]. rewrite (ent_key h p n Hn) in Hlt. cbn [mbind outcome_bind].
    destruct (bltb_spec (key n) k); [| done]. specialize (IH (a ++ [p]) b l Hl).
    rewrite pred_of_snoc, <- app_assoc in IH. apply IH; [done | cbn [length] in Hf; lia].
Qed.

Lemma hi_lookup h k c r : level_hit h k c = Some r -> exists p, p ∈ c /\ ekey (ent h p) = k /\ eval (ent h p) = r.
Proof.
  unfold level_hit. destruct (hd_error (hi h k c)) as [p|] eqn:Hhd; [| done]. case_decide as Hk; [| done].
  intros [= <-]. exists p. split_and!; [| done | done].
  destruct (hi h k c) eqn:Hh; [done |]. injection Hhd as ->.
  assert (p ∈ hi h k c) as Hin by (rewrite Hh; constructor). by apply filter_hi_in in Hin as [? _].
Qed.

(** On a sorted chain the first node that is not smaller decides. *)
Lemma level_hit_none h k c : sorted_keys (ent h <$> c) -> level_hit h k c = None -> k ∉ ekey <$> (ent h <$> c).
Proof.
  intros Hs Hnone. apply not_in_keys. intros e (p & -> & Hp)%list_elem_of_fmap Hk. unfold level_hit in Hnone.
  rewrite (sorted_split h k c Hs) in Hs. unfold sorted_keys in Hs.
  assert (p ∈ hi h k c) as Hhi by (apply filter_hi_in; rewrite Hk; split; [done | apply blt_irrefl]).
  destruct (hi h k c) as [|q hs] eqn:Hh; [inversion Hhi |]. cbn [hd_error] in Hnone.
  assert (q ∈ hi h k c) as Hq by (rewrite Hh; constructor). apply filter_hi_in in Hq as [_ Hq].
  rewrite !fmap_app in Hs. apply StronglySorted_app_1_r in Hs. cbn [fmap list_fmap] in Hs.
  apply StronglySorted_inv in Hs as [_ Hall]. case_decide as Hqk; [done |]. apply Hqk.
  apply elem_of_cons in Hhi as [-> | Hhi]; [done |]. apply ble_antisym.
  - rewrite <- Hk. rewrite Forall_forall in Hall. apply Hall. by do 2 apply list_elem_of_fmap_2.
  - by apply not_blt.
Qed.

Lemma top_hit_some h C k level r : rep h C -> top_hit h C k level = Some r ->
  exists p, p ∈ C 0%nat /\ ekey (ent h p) = k /\ eval (ent h p) = r.
Proof.
  intros Hr. induction level as [|l IH]; [done |]. cbn [top_hit].
  destruct (level_hit h k (C l)) as [r'|] eqn:Hl; [| done]. intros [= ->].
  destruct (hi_lookup h k (C l) r Hl) as (p & Hp & ? & ?). exists p. split_and!; [| done | done].
  clear Hl IH. induction l as [|l IH]; [done |]. by apply IH, (rep_sub h C Hr).
Qed.

Lemma top_hit_none h C k level : rep h C -> top_hit h C k (S level) = None ->
  k ∉ ekey <$> (ent h <$> C 0%nat).
Proof.
  intros Hr. induction level as [|l IH]; cbn [top_hit].
  - destruct (level_hit h k (C 0%nat)) eqn:Hl; [done |]. intros _.
    apply level_hit_none; [| done]. by destruct (rep_chain h C Hr 0%nat) as (_ & _ & ?).
  - destruct (level_hit h k (C (S l))); [done |]. apply IH.
Qed.

Lemma get_abs `{Fueled E} s es k : abs s es -> exists r, get (E := E) s k = Ok r /\
  (r = None <-> k ∉ ekey <$> es) /\
  (forall v, r = Some v -> exists e, e ∈ es /\ ekey e = k /\ eval e = v).
Proof.
  intros (C & Hr & -> & Hmh). unfold get. destruct (max_height s) as [|l] eqn:Hl; [lia |].
  assert (stands (nodes s) k (C l) head_ptr) as Hst by (by left).
  destruct (stands_fuel _ k _ _ (rep_chain _ C Hr l) Hst) as (a & b & Hab & Hp & Hlen).
  rewrite Hp, (get_loop_ok _ C k _ a b l Hr); [| lia | done | unfold MAX_HEIGHT in *; nia].
  eexists. split; [done |]. split; [split |].
  - apply top_hit_none, Hr.
  - intros Hno. destruct (top_hit _ C k (S l)) as [r|] eqn:Ht; [| done].
    destruct (top_hit_some _ C k _ r Hr Ht) as (p & Hin & <- & _). destruct Hno. by do 2 apply list_elem_of_fmap_2.
  - intros v Hv. destruct (top_hit_some _ C k _ v Hr Hv) as (p & Hin & ? & ?). exists (ent (nodes s) p).
    split_and!; [by apply list_elem_of_fmap_2 | done | done].
Qed.

Lemma abs_sorted s es : abs s es -> sorted_keys es.
Proof. intros (C & Hr & -> & _). by destruct (rep_chain _ C Hr 0%nat) as (_ & _ & ?). Qed.

(** ** Sequences of inserts *)

(** The list after inserting [es], oldest first. *)
Definition ordered (es : list entry) : list entry := foldl (fun acc e => ins_entry e acc) [] es.

Lemma ordered_snoc es e : ordered (es ++ [e]) = ins_entry e (ordered es).
Proof. unfold ordered. by rewrite foldl_app. Qed.

Lemma ins_entry_perm e es : ins_entry e es ≡ₚ e :: es.
Proof.
  unfold ins_entry. rewrite <- Permutation_middle. constructor.
  induction es as [|x es IH]; [done |]. rewrite !filter_cons.
  destruct (decide (blt (ekey x) (ekey e))).
  - rewrite (decide_False (P := ~ _)) by tauto. cbn. by constructor.
  - rewrite decide_True by done. rewrite <- Permutation_middle. by constructor.
Qed.

Lemma ordered_perm es : ordered es ≡ₚ es.
Proof.
  induction es as [|e es IH] using rev_ind; [done |].
  rewrite ordered_snoc, ins_entry_perm, IH. apply Permutation_cons_append.
Qed.

(** The versions of one key, the latest insert first. *)
Definition versions (k : bytes) (es : list entry) : list entry := filter (fun e => ekey e = k) es.

Lemma versions_ins k e es : versions k (ins_entry e es) =
  if decide (ekey e = k) then e :: versions k es else versions k es.
Proof.
  unfold versions, ins_entry. rewrite filter_app, filter_cons.
  assert (ekey e = k -> filter (fun x => ekey x = k) (filter (fun e' => blt (ekey e') (ekey e)) es) = []) as Hnil.
  { intros <-. apply filter_none, Forall_forall. intros x Hx. apply list_elem_of_filter in Hx as [Hx _].
    intros Heq. rewrite Heq in Hx. by destruct (blt_irrefl (ekey e)). }
  assert (filter (fun x => ekey x = k) (filter (fun e' => blt (ekey e') (ekey e)) es) ++
          filter (fun x => ekey x = k) (filter (fun e' => ~ blt (ekey e') (ekey e)) es) =
          filter (fun x => ekey x = k) es) as Happ.
  { clear Hnil. induction es as [|x es IH]; [done |].
    rewrite (filter_cons (fun e' => blt (ekey e') (ekey e))), (filter_cons (fun e' => ~ blt (ekey e') (ekey e))).
    rewrite (filter_cons (fun x => ekey x = k) x es).
    destruct (decide (blt (ekey x) (ekey e))) as [Hlt | Hge].
    - rewrite (decide_False (P := ~ _)) by tauto. rewrite filter_cons. case_decide; [cbn; by rewrite IH | done].
    - rewrite (decide_True (P := ~ _)) by done. rewrite (filter_cons _ x). case_decide as Hk; [| done].
      rewrite <- IH. enough (filter (fun x => ekey x = k) (filter (fun e' => blt (ekey e') (ekey e)) es) = []) as -> by done.
      apply filter_none, Forall_forall. intros y Hy. apply list_elem_of_filter in Hy as [Hy _].
      intros Heq. by rewrite Heq, <- Hk in Hy. }
  case_decide as Hk; [| done]. rewrite <- Happ. by rewrite Hnil.
Qed.

Lemma versions_ordered k es : versions k (ordered es) = reverse (versions k es).
Proof.
  induction es as [|e es IH] using rev_ind; [done |]. rewrite ordered_snoc, versions_ins, IH.
  unfold versions. rewrite filter_app, filter_cons, filter_nil. case_decide.
  - by rewrite reverse_snoc.
  - by rewrite app_nil_r.
Qed.

Lemma insert_all_abs `{Fueled E} weak es s rng es0 : abs s (ordered es0) ->
  exists s' rng', insert_all (E := E) weak es s rng = Ok (s', rng') /\ abs s' (ordered (es0 ++ es)).
Proof.
  revert s rng es0. induction es as [|[[k v] q] es IH]; intros s rng es0 Ha; cbn [insert_all].
  - exists s, rng. by rewrite app_nil_r.
  - destruct (insert_abs (E := E) (weak (length es)) k v q s rng _ Ha) as (s1 & rng1 & -> & Ha1 & _).
    cbn [mbind outcome_bind fst snd]. rewrite <- ordered_snoc in Ha1.
    destruct (IH s1 rng1 (es0 ++ [(k, v, q)]) Ha1) as (s2 & rng2 & -> & Ha2).
    exists s2, rng2. by rewrite <- app_assoc in Ha2.
Qed.

Lemma built_abs `{Fueled E} weak es rng : exists s rng',
  insert_all (E := E) weak es ConcurrentSkipList_new rng = Ok (s, rng') /\ abs s (ordered es).
Proof. apply (insert_all_abs weak es _ rng []), new_abs. Qed.

(** With unique keys there is one version to find. *)
Lemma unique_version es k e : NoDup (ekey <$> es) -> e ∈ es -> ekey e = k -> lookup_entries es k = Some (eval e).
Proof.
  induction es as [|x es IH]; [intros _ H; inversion H |]. cbn [fmap list_fmap].
  intros [Hx Hnd]%NoDup_cons [-> | He]%elem_of_cons Hk; rewrite lookup_entries_cons.
  - by rewrite decide_True.
  - case_decide as Hxk; [| by apply IH]. destruct Hx. rewrite Hxk, <- Hk. by apply list_elem_of_fmap_2.
Qed.

(** * Properties *)

(** The skip list keeps every write: after any sequence of inserts, for any state of the height
    generator and any spurious failures of the weak compare-and-swap, no call panics or follows a
    dangling pointer, and iterating gives all the inserted entries, sorted by key, and within a key
    from the latest insert to the first. *)
Theorem skiplist_iterates_sorted (weak : nat -> bool) (es : list entry) (rng : Z) :
  exists s rng' all, insert_all (E := fuel_error) weak es ConcurrentSkipList_new rng = Ok (s, rng') /\
    iter_all (E := fuel_error) s = Ok all /\ all ≡ₚ es /\ sorted_keys all /\
    forall k, versions k all = reverse (versions k es).
Proof.
  destruct (built_abs (E := fuel_error) weak es rng) as (s & rng' & Hi & Ha). exists s, rng', (ordered es).
  split_and!; [done | by apply iter_all_abs | apply ordered_perm | by eapply abs_sorted |].
  intros k. apply versions_ordered.
Qed.

(** [get] after any sequence of inserts ends with an answer, which is [None] exactly for the keys
    never inserted, is otherwise one of the key's entries, and is the key's entry when no key was
    inserted twice. *)
Theorem skiplist_get (weak : nat -> bool) (es : list entry) (rng : Z) :
  exists s rng', insert_all (E := fuel_error) weak es ConcurrentSkipList_new rng = Ok (s, rng') /\
    forall k, exists r, get (E := fuel_error) s k = Ok r /\ (r = None <-> k ∉ ekey <$> es) /\
      (forall v, r = Some v -> exists e, e ∈ es /\ ekey e = k /\ eval e = v) /\
      (NoDup (ekey <$> es) -> r = lookup_entries es k).
Proof.
  destruct (built_abs (E := fuel_error) weak es rng) as (s & rng' & Hi & Ha). exists s, rng'. split; [done |].
  intros k. destruct (get_abs (E := fuel_error) s _ k Ha) as (r & Hg & Hnone & Hsome).
  rewrite (ordered_perm es) in Hnone. exists r. split; [done |]. split; [done |].
  assert (forall v, r = Some v -> exists e, e ∈ es /\ ekey e = k /\ eval e = v) as Hin.
  { intros v Hv. destruct (Hsome v Hv) as (e & He & ? & ?). exists e. by rewrite (ordered_perm es) in He. }
  split; [done |]. intros Hnd. destruct r as [v|].
  - destruct (Hin v eq_refl) as (e & He & Hk & <-). symmetry. by apply unique_version.
  - symmetry. by apply lookup_entries_none, Hnone.
Qed.

(** [insert] accounts for what it stores: the approximate size grows by the lengths of key and
    value and 24, and the memtable limit is compared with the sum over all inserts, overwritten
    versions included. *)
Theorem insert_size (weak_ok : bool) (k : bytes) (v : option bytes) (q : Z) (s : ConcurrentSkipList)
    (rng : Z) (es : list entry) (Ha : abs s es) :
  exists s' rng', insert (E := fuel_error) weak_ok k v q s rng = Ok (s', rng') /\
    approximate_size s' = wrap64 (approximate_size s + (len k + len (default [] v) + 24)) /\
    abs s' (ins_entry (k, v, q) es).
Proof. destruct (insert_abs (E := fuel_error) weak_ok k v q s rng es Ha) as (s' & rng' & ? & ? & ?). eauto. Qed.

Lemma insert_size_witness :
  abs ConcurrentSkipList_new [] /\
  exists s' rng', insert (E := fuel_error) true [Byte.x61] (Some [Byte.x01]) 1 ConcurrentSkipList_new RNG_SEED = Ok (s', rng') /\
    approximate_size s' = wrap64 (approximate_size ConcurrentSkipList_new + (len [Byte.x61] + len (default [] (Some [Byte.x01])) + 24)) /\
    abs s' (ins_entry ([Byte.x61], Some [Byte.x01], 1) []).
Proof. split; [exact new_abs | exact (insert_size true _ _ _ _ _ _ new_abs)]. Defined.

(** [get] does not promise the latest write: it answers from the highest level that has the key,
    and the latest node need not be that high. With the generator's initial state, five puts of a
    key and a delete by one thread are followed by a [get] that returns the fifth value, though the
    iterator has the tombstone first. *)
Theorem deleted_key_read_back :
  let k := [Byte.x61] in
  let puts := (fun i => (k, Some [Byte.x01], i)) <$> seqZ 1 5 in
  match insert_all (E := fuel_error) (fun _ => true) (puts ++ [(k, None, 6)]) ConcurrentSkipList_new RNG_SEED with
  | Ok (s, _) => get (E := fuel_error) s k = Ok (Some (Some [Byte.x01], 5)) /\
      exists rest, iter_all (E := fuel_error) s = Ok ((k, None, 6) :: rest)
  | _ => False
  end.
Proof. vm_compute. split; [done | by eexists]. Qed.
