(* ===== verification/ConcurrentSkip.v ===== *)
(** * The skip list under concurrent calls (tier3_storage/src/memtable/skiplist.rs)

    SkipList.v runs the calls of [ConcurrentSkipList] one at a time; here threads
    interleave.  A step of a thread is one atomic operation (a load, a store, a
    compare-and-swap, the [fetch_add]) with the local computation that follows it;
    keys and values do not change after a node is allocated.  The nodes, the store
    and its operations are those of SkipList.v.

    Ghost state: the entries linked on level 0, in the order of their
    compare-and-swaps, and for every call that returned, how many entries were
    linked when it was called and when it returned ([completion]).

    [skip_safe]: in every run no call panics or follows a dangling pointer, and
    the list is at all times what the sequential list is after the inserts linked
    so far.  [skip_linearizable]: every call takes effect between its call and its
    return.  [skip_lock_free]: the calls in progress end under any scheduler.
    [skip_drop]: dropping the list frees every node once. *)

From stdpp Require Import sets.
From S2P Require Import Prelude Block SSTableReader.
From S2P Require Import SkipList.
#[local] Open Scope Z_scope.

Inductive call := Insert (e : entry) | Get (k : bytes) | Scan.

(** What a call returns, with what it was called with; [Scan] is a loop over the
    iterator. *)
Inductive result := Inserted (e : entry) | Got (k : bytes) (r : option (option bytes * Z)) | Scanned (es : list entry).

(** Where a thread is: between calls, or before the atomic operation named.
    [level] is the level [insert] is linking, [i] the level [find_position] is on,
    counted from 1 as in the code. *)
Inductive pc :=
| Idle
| InsertMax (e : entry) (height : nat)
| InsertCasMax (e : entry) (height curr_max : nat)
| InsertFind (e : entry) (height node_ptr level i curr : nat) (preds succs : list (option nat))
| InsertStore (e : entry) (height node_ptr level : nat) (preds succs : list (option nat))
| InsertCas (e : entry) (height node_ptr level : nat) (preds succs : list (option nat))
| InsertSize (e : entry)
| GetMax (k : bytes)
| GetLoad (k : bytes) (curr level : nat)
| ScanFirst
| ScanNext (curr : option nat) (out : list entry)
| Return (r : result).

(** A thread: its height generator, and the number of entries linked when its
    call began. *)
Record thread := mk_thread { rng : Z; at_pc : pc; called_at : nat }.

Record completion := mk_completion { returned : result; from : nat; upto : nat }.

Record world := mk_world {
  skip : ConcurrentSkipList;
  threads : list thread;
  called : list entry;
  linked_entries : list entry;
  completed : list completion
}.

Definition set_skip (s : ConcurrentSkipList) (w : world) : world :=
  mk_world s (threads w) (called w) (linked_entries w) (completed w).
Definition set_nodes (h : list Node) (w : world) : world :=
  set_skip (mk_SkipList h (max_height (skip w)) (approximate_size (skip w))) w.
Definition ghost_link (e : entry) (w : world) : world :=
  mk_world (skip w) (threads w) (called w) (linked_entries w ++ [e]) (completed w).

(** ** The steps *)

(** The next node of a level, dereferenced. *)
Definition peek {E} (h : list Node) (curr l : nat) : outcome E (option (nat * Node)) :=
  next ← load h curr l;
  match next with
  | None => Ok None
  | Some p => n ← deref h p; Ok (Some (p, n))
  end.

(** A turn of an insert's loop starts with a new search. *)
Definition start_find (e : entry) (height node_ptr level : nat) : pc :=
  InsertFind e height node_ptr level MAX_HEIGHT head_ptr (replicate MAX_HEIGHT None) (replicate MAX_HEIGHT None).

(** [Node::new], and on to the first search. *)
Definition alloc (e : entry) (height : nat) (w : world) : world * pc :=
  let node_ptr := length (nodes (skip w)) in
  let h := nodes (skip w) ++ [Node_new e.1.1 e.1.2 e.2 height] in
  (set_nodes h w, start_find e height node_ptr 0).

(** The end of a level of [find_position]. *)
Definition found (e : entry) (height node_ptr level i curr : nat) (next : option nat)
    (preds succs : list (option nat)) : pc :=
  let preds := <[i := Some curr]> preds in
  let succs := <[i := next]> succs in
  match i with
  | O => InsertStore e height node_ptr level preds succs
  | _ => InsertFind e height node_ptr level i curr preds succs
  end.

Definition after_link (e : entry) (height node_ptr level : nat) : pc :=
  if (S level <? height)%nat then start_find e height node_ptr (S level) else InsertSize e.

Definition node_size (e : entry) : Z :=
  len (ekey e) + match e.1.2 with Some v => len v | None => 0 end + 24.

Definition insert_step (weak_ok : bool) (c : pc) (w : world) : outcome fuel_error (world * pc) :=
  let s := skip w in
  match c with
  | InsertMax e height =>
      let curr_max := max_height s in
      Ok (if (curr_max <? height)%nat then (w, InsertCasMax e height curr_max) else alloc e height w)
  | InsertCasMax e height curr_max =>
      let mh := if ((max_height s =? curr_max)%nat && weak_ok)%bool then height else max_height s in
      Ok (alloc e height (set_skip (mk_SkipList (nodes s) mh (approximate_size s)) w))
  | InsertFind e height node_ptr level (S i) curr preds succs =>
      next ← peek (nodes s) curr i;
      Ok (w, match next with
             | Some (p, n) =>
                 if bltb (key n) (ekey e) then InsertFind e height node_ptr level (S i) p preds succs
                 else found e height node_ptr level i curr (Some p) preds succs
             | None => found e height node_ptr level i curr None preds succs
             end)
  | InsertStore e height node_ptr level preds succs =>
      succ ← (match succs !! level with Some x => Ok x | None => Panic end);
      h ← store (nodes s) node_ptr level succ;
      Ok (set_nodes h w, InsertCas e height node_ptr level preds succs)
  | InsertCas e height node_ptr level preds succs =>
      pred ← (match preds !! level with Some x => Ok x | None => Panic end);
      succ ← (match succs !! level with Some x => Ok x | None => Panic end);
      let pred := match pred with None => head_ptr | Some p => p end in
      r ← compare_exchange (nodes s) pred level succ (Some node_ptr);
      Ok match r with
         | Some h =>
             let w := set_nodes h w in
             (match level with O => ghost_link e w | _ => w end, after_link e height node_ptr level)
         | None => (w, start_find e height node_ptr level)
         end
  | InsertSize e =>
      Ok (set_skip (mk_SkipList (nodes s) (max_height s) (wrap64 (approximate_size s + node_size e))) w,
          Return (Inserted e))
  | _ => Ok (w, c)
  end.

Definition get_step (c : pc) (w : world) : outcome fuel_error (world * pc) :=
  let s := skip w in
  match c with
  | GetMax k => Ok (w, GetLoad k head_ptr (max_height s))
  | GetLoad k curr level =>
      next ← peek (nodes s) curr (level - 1);
      let down := if (1 <? level)%nat then GetLoad k curr (level - 1) else Return (Got k None) in
      Ok (w, match next with
             | Some (p, n) =>
                 if bltb (key n) k then GetLoad k p level
                 else if beqb (key n) k then Return (Got k (Some (val n, seq n)))
                 else down
             | None => down
             end)
  | _ => Ok (w, c)
  end.

Definition scan_step (c : pc) (w : world) : outcome fuel_error (world * pc) :=
  let s := skip w in
  match c with
  | ScanFirst =>
      first ← iter s;
      Ok (w, ScanNext first [])
  | ScanNext curr out =>
      let '(curr, r) := iter_next (nodes s) curr in
      e ← r;
      Ok (w, match e with Some e => ScanNext curr (out ++ [e]) | None => Return (Scanned out) end)
  | _ => Ok (w, c)
  end.

Definition pc_step (weak_ok : bool) (c : pc) (w : world) : outcome fuel_error (world * pc) :=
  match c with
  | Idle | Return _ => Ok (w, c)
  | InsertMax _ _ | InsertCasMax _ _ _ | InsertFind _ _ _ _ _ _ _ _ | InsertStore _ _ _ _ _ _
  | InsertCas _ _ _ _ _ _ | InsertSize _ => insert_step weak_ok c w
  | GetMax _ | GetLoad _ _ _ => get_step c w
  | ScanFirst | ScanNext _ _ => scan_step c w
  end.

(** A thread takes its step; a call that is done returns. *)
Definition settle (j : nat) (t : thread) (w : world) (c : pc) : world :=
  match c with
  | Return r =>
      mk_world (skip w) (<[j := mk_thread (rng t) Idle (called_at t)]> (threads w)) (called w) (linked_entries w)
        (completed w ++ [mk_completion r (called_at t) (length (linked_entries w))])
  | _ => mk_world (skip w) (<[j := mk_thread (rng t) c (called_at t)]> (threads w)) (called w) (linked_entries w) (completed w)
  end.

Definition thread_step (weak_ok : bool) (j : nat) (w : world) : outcome fuel_error world :=
  match threads w !! j with
  | None => Ok w
  | Some t => r ← pc_step weak_ok (at_pc t) w; Ok (settle j t r.1 r.2)
  end.

(** A call by an idle thread: [insert] first draws the height. *)
Definition enter (j : nat) (t : thread) (a : call) (w : world) : world :=
  let go g c := mk_world (skip w) (<[j := mk_thread g c (length (linked_entries w))]> (threads w)) in
  match a with
  | Insert e =>
      let '(height, rng) := random_height (rng t) in
      go rng (InsertMax e height) (called w ++ [e]) (linked_entries w) (completed w)
  | Get k => go (rng t) (GetMax k) (called w) (linked_entries w) (completed w)
  | Scan => go (rng t) ScanFirst (called w) (linked_entries w) (completed w)
  end.

(** The scheduler's choices: thread [j] calls, or takes its next step;
    [weak_ok] is whether a weak compare-and-swap fails spuriously. *)
Inductive action := Start (j : nat) (a : call) | Step (j : nat) (weak_ok : bool).

Definition act (a : action) (w : world) : outcome fuel_error world :=
  match a with
  | Start j a =>
      match threads w !! j with
      | Some t => match at_pc t with Idle => Ok (enter j t a w) | _ => Ok w end
      | None => Ok w
      end
  | Step j weak_ok => thread_step weak_ok j w
  end.

Definition run_actions (l : list action) (w : world) : outcome fuel_error world := for_each act l w.

(** An empty list shared by threads with these generators. *)
Definition open (rngs : list Z) : world :=
  mk_world ConcurrentSkipList_new ((fun g => mk_thread g Idle 0) <$> rngs) [] [] [].

(** ** [Drop]: along level 0, freeing every node *)

Fixpoint drop_loop `{Fueled E} (fuel : nat) (h : list Node) (curr : option nat) (freed : list nat) : outcome E (list nat) :=
  match curr with
  | None => Ok freed
  | Some p =>
      match fuel with
      | O => Err out_of_fuel
      | S fuel =>
          next ← (if bool_decide (p ∈ freed) then Ub else load h p 0);
          drop_loop fuel h next (freed ++ [p])
      end
  end.
Definition drop_list `{Fueled E} (s : ConcurrentSkipList) : outcome E (list nat) :=
  drop_loop (length (nodes s)) (nodes s) (Some head_ptr) [].

(** * Lemmas *)

(** ** The store *)

Lemma upd_same {E} h p l x : wf_store h -> (p < length h)%nat -> (l < MAX_HEIGHT)%nat ->
  load (E := E) h p l = Ok x -> upd h p l x = h.
Proof.
  intros Hw Hp Hl Hld. apply list_eq. intros q. rewrite upd_lookup. case_decide as Hq; [subst q | done].
  unfold load, deref in Hld. destruct (h !! p) as [n|] eqn:Hn; [| done]. cbn in Hld.
  unfold load_next in Hld. destruct (next n !! l) as [y|] eqn:Hy; [| done]. injection Hld as ->.
  cbn. rewrite list_insert_id by done. by destruct n.
Qed.

(** Writing to a node that is not on the level. *)
Lemma private_rep h C n l x : rep h C -> (l < MAX_HEIGHT)%nat -> (n < length h)%nat -> n ∉ head_ptr :: C l ->
  rep (upd h n l x) C.
Proof.
  intros [Hw Hl Hc Hs] Hlt Hn Hnin. split; [by apply wf_upd | | | done].
  - intros m Hm E a d Heq. rewrite load_upd by done. rewrite decide_False; [by apply (Hl m Hm) |].
    intros [Hpn ->]. apply Hnin. rewrite <- Hpn, Heq. destruct (pred_of_in a) as [-> | Hin]; [constructor |].
    constructor. apply elem_of_app. by left.
  - intros m. apply (chain_ok_ent h); [intros; apply ent_upd | apply length_upd | apply Hc].
Qed.

Lemma chain_elem_lt h C l p : rep h C -> p ∈ C l -> (p < length h)%nat.
Proof.
  intros Hr Hp. destruct (rep_chain h C Hr l) as (_ & Hv & _). apply Forall_cons in Hv as [_ Hv].
  rewrite Forall_forall in Hv. by apply Hv.
Qed.

Lemma head_lt h C : rep h C -> (head_ptr < length h)%nat.
Proof. intros Hr. destruct (rep_chain h C Hr 0%nat) as (_ & Hv & _). by apply Forall_cons in Hv as [? _]. Qed.

Lemma stands_lt h C k l p : rep h C -> stands h k (C l) p -> (p < length h)%nat.
Proof. intros Hr [-> | [Hp _]]; [by eapply head_lt | by eapply chain_elem_lt]. Qed.

Lemma stands_cut h k c p : stands h k c p -> exists a d, c = a ++ d /\ p = pred_of a.
Proof.
  intros [-> | [(a & d & ->)%list_elem_of_split _]]; [by exists [], c |]. exists (a ++ [p]), d.
  by rewrite <- app_assoc, pred_of_snoc.
Qed.

(** What [peek] sees at a place in a chain. *)
Definition seen_at (h : list Node) (d : list nat) (next : option (nat * Node)) : Prop :=
  match d with
  | [] => next = None
  | p :: _ => exists n, next = Some (p, n) /\ h !! p = Some n
  end.

Lemma peek_ok {E} h C l a d : rep h C -> (l < MAX_HEIGHT)%nat -> C l = a ++ d ->
  exists next, peek (E := E) h (pred_of a) l = Ok next /\ seen_at h d next.
Proof.
  intros Hr Hl Hc. unfold peek. rewrite (rep_linked h C Hr l Hl E a d Hc). cbn [mbind outcome_bind].
  destruct d as [|p d]; cbn [hd_error seen_at]; [by eexists |].
  assert (p < length h)%nat as Hp by (eapply (chain_elem_lt h C l); [done |]; rewrite Hc; set_solver).
  destruct (deref_ok (E := E) h p Hp) as (n & Hn & ->). cbn [mbind outcome_bind]. eauto.
Qed.

(** ** The edge an insert replaces *)

(** [p] is before the key's place on the level, and [s] is not. *)
Definition edge_ok (h : list Node) (C : nat -> list nat) (k : bytes) (l p : nat) (s : option nat) : Prop :=
  stands h k (C l) p /\ match s with None => True | Some x => (x < length h)%nat /\ ~ blt (ekey (ent h x)) k end.

Lemma edge_place {E} h C k l p s : rep h C -> (l < MAX_HEIGHT)%nat -> edge_ok h C k l p s ->
  load (E := E) h p l = Ok s -> p = pred_of (lo h k (C l)) /\ s = hd_error (hi h k (C l)).
Proof.
  intros Hr Hl [Hst Hs] Hld. destruct (stands_split h k (C l) p Hst) as (a & b & Hab & ->).
  pose proof (rep_chain h C Hr l) as (_ & _ & Hso). pose proof (sorted_split h k (C l) Hso) as Hsp.
  rewrite Hab, <- app_assoc in Hsp. rewrite (rep_linked h C Hr l Hl E a _ Hsp) in Hld. injection Hld as <-.
  destruct b as [|x b]; [rewrite Hab, app_nil_r; by split |].
  assert (x ∈ lo h k (C l)) as Hx by (rewrite Hab; apply elem_of_app; right; constructor).
  apply filter_lo_in in Hx. cbn in Hs. tauto.
Qed.

(** The compare-and-swap links the node, or finds another edge. *)
Lemma cas_edge {E} h C n l p s : rep h C -> (l < MAX_HEIGHT)%nat -> (n < length h)%nat -> n ∉ head_ptr :: C l ->
  (forall m, l = S m -> n ∈ C m) -> edge_ok h C (ekey (ent h n)) l p s -> load (E := E) h n l = Ok s ->
  (load (E := E) h p l <> Ok s /\ compare_exchange (E := E) h p l s (Some n) = Ok None) \/
  (compare_exchange (E := E) h p l s (Some n) = Ok (Some (upd h p l (Some n))) /\
   rep (upd h p l (Some n)) (relink C l (ins h (ekey (ent h n)) n (C l)))).
Proof.
  intros Hr Hl Hn Hnin Hbelow He Hld. pose proof (rep_wf h C Hr) as Hw.
  pose proof (stands_lt h C _ l p Hr (proj1 He)) as Hp. unfold compare_exchange.
  destruct (load_ok (E := E) h p l Hw Hp Hl) as [x Hx]. rewrite Hx. cbn [mbind outcome_bind].
  destruct (decide (x = s)) as [-> | Hne]; [right | left; split; [congruence | done]].
  rewrite store_ok by done. cbn [mbind outcome_bind]. split; [done |].
  destruct (edge_place h C _ l p s Hr Hl He Hx) as [-> ->].
  pose proof (link_rep h C n l Hr Hl Hn Hnin Hbelow) as Hrep. cbv zeta in Hrep. unfold link_store in Hrep.
  by rewrite (upd_same h n l _ Hw Hn Hl Hld) in Hrep.
Qed.

(** ** The invariant of a thread *)

Definition found_in (es : list entry) (k : bytes) (r : option (option bytes * Z)) : Prop :=
  match r with
  | None => k ∉ ekey <$> es
  | Some v => exists e, e ∈ es /\ ekey e = k /\ eval e = v
  end.

(** [e] was linked by one of the compare-and-swaps [f .. u). *)
Definition linked_between (L : list entry) (f u : nat) (e : entry) : Prop :=
  exists i, (f <= i < u)%nat /\ L !! i = Some e.

(** A call that began after [f] links and returned after [u] took effect between
    them: an insert is one of the links, a [get] answers from the entries of one
    moment, a scan has the entries from before it and none from after it. *)
Definition result_ok (L : list entry) (f u : nat) (r : result) : Prop :=
  match r with
  | Inserted e => linked_between L f u e
  | Got k r => exists i, (f <= i <= u)%nat /\ found_in (take i L) k r
  | Scanned es => ordered (take f L) `sublist_of` es /\ es `sublist_of` ordered (take u L)
  end.

(** A new node: linked below [level] and nowhere else. *)
Record own_ok (h : list Node) (C : nat -> list nat) (L : list entry) (f : nat) (e : entry) (height n level : nat) : Prop := {
  own_lt : (n < length h)%nat;
  own_ent : ent h n = e;
  own_level : (level < height <= MAX_HEIGHT)%nat;
  own_below m : (m < level)%nat -> n ∈ C m;
  own_above m : (level <= m)%nat -> n ∉ head_ptr :: C m;
  own_linked : (0 < level)%nat -> linked_between L f (length L) e
}.

(** What the search recorded for the level that is linked. *)
Definition recorded (h : list Node) (C : nat -> list nat) (k : bytes) (level : nat) (preds succs : list (option nat))
    (p : nat) (s : option nat) : Prop :=
  preds !! level = Some (Some p) /\ succs !! level = Some s /\ edge_ok h C k level p s.

Definition scan_ok (h : list Node) (C : nat -> list nat) (L : list entry) (f : nat) (curr : option nat) (out : list entry) : Prop :=
  exists a d, C 0%nat = a ++ d /\ curr = hd_error d /\ out `sublist_of` (ent h <$> a) /\
    ordered (take f L) `sublist_of` out ++ (ent h <$> d).

Definition pc_ok (h : list Node) (C : nat -> list nat) (L : list entry) (f : nat) (c : pc) : Prop :=
  match c with
  | Idle | GetMax _ | ScanFirst => True
  | InsertMax e height | InsertCasMax e height _ => (1 <= height <= MAX_HEIGHT)%nat
  | InsertFind e height n level i curr preds succs =>
      own_ok h C L f e height n level /\ length preds = MAX_HEIGHT /\ length succs = MAX_HEIGHT /\
      (1 <= i <= MAX_HEIGHT)%nat /\ stands h (ekey e) (C (i - 1)%nat) curr /\
      ((i <= level)%nat -> exists p s, recorded h C (ekey e) level preds succs p s)
  | InsertStore e height n level preds succs =>
      own_ok h C L f e height n level /\ exists p s, recorded h C (ekey e) level preds succs p s
  | InsertCas e height n level preds succs =>
      own_ok h C L f e height n level /\ exists p s, recorded h C (ekey e) level preds succs p s /\
        load (E := fuel_error) h n level = Ok s
  | InsertSize e => linked_between L f (length L) e
  | GetLoad k curr level => (1 <= level <= MAX_HEIGHT)%nat /\ stands h k (C (level - 1)%nat) curr
  | ScanNext curr out => scan_ok h C L f curr out
  | Return _ => False
  end.

(** A thread after its step. *)
Definition post_ok (h : list Node) (C : nat -> list nat) (L : list entry) (f : nat) (c : pc) : Prop :=
  match c with Return r => result_ok L f (length L) r | _ => pc_ok h C L f c end.

(** The node a thread is inserting, and its first level that is not linked. *)
Definition own (c : pc) : option (nat * nat) :=
  match c with
  | InsertFind _ _ n level _ _ _ _ | InsertStore _ _ n level _ _ | InsertCas _ _ n level _ _ => Some (n, level)
  | _ => None
  end.

Lemma pc_own_ok h C L f c n level : pc_ok h C L f c -> own c = Some (n, level) ->
  exists e height, own_ok h C L f e height n level.
Proof. intros Hok Ho. destruct c; try done; injection Ho as -> ->; cbn in Hok; exists e, height; tauto. Qed.

(** ** What other threads' steps change *)

(** The list evolves while a thread works on node [n]: chains grow by [n], nodes
    keep their entries, and what is not on a level is written by nobody else. *)
Record evolves (n : nat) (h h' : list Node) (C C' : nat -> list nat) (L L' : list entry) : Prop := {
  ev_len : (length h <= length h')%nat;
  ev_ent q : (q < length h)%nat -> ent h' q = ent h q;
  ev_chain l : C l `sublist_of` C' l;
  ev_new l q : q <> n -> q ∈ C' l -> q ∈ C l;
  ev_load E q l : (q < length h)%nat -> q <> n -> q ∉ head_ptr :: C l -> load (E := E) h' q l = load h q l;
  ev_linked : L `prefix_of` L'
}.

Lemma evolves_refl n h C L : evolves n h h C C L L.
Proof. by split. Qed.

Lemma take_prefix {A} (l l' : list A) n : l `prefix_of` l' -> (n <= length l)%nat -> take n l' = take n l.
Proof. intros [k ->] Hn. by rewrite take_app_le. Qed.

Lemma linked_between_mono L L' f u u' e : L `prefix_of` L' -> (u <= u')%nat ->
  linked_between L f u e -> linked_between L' f u' e.
Proof. intros Hp Hu (i & Hi & He). exists i. split; [lia |]. by eapply prefix_lookup_Some. Qed.

Lemma result_ok_mono L L' f u r : L `prefix_of` L' -> (f <= u <= length L)%nat -> result_ok L f u r -> result_ok L' f u r.
Proof.
  intros Hp Hu. destruct r; cbn.
  - by apply linked_between_mono.
  - intros (i & Hi & Hf). exists i. split; [done |]. by rewrite (take_prefix L L') by (done || lia).
  - by rewrite !(take_prefix L L') by (done || lia).
Qed.

Section stable.
  Context (n : nat) (h h' : list Node) (C C' : nat -> list nat) (L L' : list entry).
  Context (Hr : rep h C) (Hev : evolves n h h' C C' L L').

Lemma ent_stable l p : p ∈ C l -> ent h' p = ent h p.
Proof. intros Hp. eapply (ev_ent _ _ _ _ _ _ _ Hev), chain_elem_lt; done. Qed.

Lemma ents_stable l (c : list nat) : (forall p, p ∈ c -> p ∈ C l) -> ent h' <$> c = ent h <$> c.
Proof.
  intros Hc. apply list_fmap_ext. intros i p Hp. apply (ent_stable l), Hc. by eapply list_elem_of_lookup_2.
Qed.

Lemma in_stable l p : p ∈ C l -> p ∈ C' l.
Proof. intros Hp. eapply elem_of_sublist; [done | apply Hev]. Qed.

Lemma stands_stable k l p : stands h k (C l) p -> stands h' k (C' l) p.
Proof. intros [-> | [Hp Hk]]; [by left | right]. split; [by apply in_stable |]. by rewrite (ent_stable l). Qed.

Lemma recorded_stable k l preds succs p s : recorded h C k l preds succs p s -> recorded h' C' k l preds succs p s.
Proof.
  intros (? & ? & Hst & Hs). do 2 (split; [done |]). split; [by apply stands_stable |]. destruct s as [x |]; [| done].
  destruct Hs as [Hx Hk]. pose proof (ev_len _ _ _ _ _ _ _ Hev). rewrite (ev_ent _ _ _ _ _ _ _ Hev) by done. split; [lia | done].
Qed.

Lemma own_stable f e height m level : m <> n -> own_ok h C L f e height m level -> own_ok h' C' L' f e height m level.
Proof.
  intros Hm [Hlt He Hl Hb Ha Hk]. pose proof (ev_len _ _ _ _ _ _ _ Hev). split; [lia | | done | | |].
  - by rewrite (ev_ent _ _ _ _ _ _ _ Hev).
  - intros i Hi. by apply in_stable, Hb.
  - intros i Hi [Hin | Hin]%elem_of_cons; destruct (Ha i Hi); [rewrite Hin; constructor |].
    constructor. by apply (ev_new _ _ _ _ _ _ _ Hev).
  - intros H0. eapply linked_between_mono; [apply Hev | apply prefix_length, Hev | by apply Hk].
Qed.

(** An iterator keeps its place in a growing chain. *)
Lemma scan_stable f curr out : (f <= length L)%nat -> scan_ok h C L f curr out -> scan_ok h' C' L' f curr out.
Proof.
  intros Hf (a & d & Hc & -> & Ho & Hs). pose proof (ev_chain _ _ _ _ _ _ _ Hev 0%nat) as Hsub. rewrite Hc in Hsub.
  assert (forall c : list nat, c `sublist_of` C 0%nat -> ent h' <$> c = ent h <$> c) as He.
  { intros c Hcs. apply (ents_stable 0). intros p Hp. by eapply elem_of_sublist. }
  rewrite <- (He a) in Ho by (rewrite Hc; apply sublist_inserts_r; reflexivity).
  rewrite <- (He d) in Hs by (rewrite Hc; apply sublist_inserts_l; reflexivity).
  rewrite <- (take_prefix L L') in Hs by (done || apply Hev).
  destruct d as [|p d]; [exists (C' 0%nat), []; rewrite app_nil_r in Hsub | apply sublist_app_cons_l in Hsub as (a' & d' & Hc' & Ha & Hd); exists a', (p :: d')].
  - split_and!; [by rewrite app_nil_r | done | by rewrite Ho, Hsub | done].
  - split_and!; [done | done | by rewrite Ho, Ha |]. rewrite Hs. apply sublist_app; [done |]. cbn. by apply sublist_skip, fmap_sublist.
Qed.

Lemma pc_stable f c : (f <= length L)%nat -> (forall m level, own c = Some (m, level) -> m <> n) ->
  pc_ok h C L f c -> pc_ok h' C' L' f c.
Proof.
  intros Hf Hown Hok. pose proof (prefix_length _ _ (ev_linked _ _ _ _ _ _ _ Hev)) as HL.
  destruct c; cbn in *; try done; try specialize (Hown _ _ eq_refl).
  - destruct Hok as (Ho & ? & ? & ? & Hst & Hrec). split_and!; try done; try lia; [by apply own_stable | by apply stands_stable |].
    intros Hi. destruct (Hrec Hi) as (p & s & ?). exists p, s. by apply recorded_stable.
  - destruct Hok as (Ho & p & s & ?). split; [by apply own_stable |]. exists p, s. by apply recorded_stable.
  - destruct Hok as (Ho & p & s & ? & Hld). split; [by apply own_stable |]. exists p, s. split; [by apply recorded_stable |].
    rewrite (ev_load _ _ _ _ _ _ _ Hev); [done | apply Ho | done | by apply (own_above _ _ _ _ _ _ _ _ Ho)].
  - eapply linked_between_mono; [apply Hev | exact HL | done].
  - destruct Hok as [? ?]. split; [done |]. by apply stands_stable.
  - by apply scan_stable.
Qed.
End stable.

(** ** The invariant of the world *)

Definition cells (w : world) : list Node := nodes (skip w).

(** An insert's entry before it is linked, after it is linked and before it is
    counted, and the node that nothing leads to. *)
Definition pending (c : pc) : list entry :=
  match c with
  | InsertMax e _ | InsertCasMax e _ _ | InsertFind e _ _ O _ _ _ _ | InsertStore e _ _ O _ _ | InsertCas e _ _ O _ _ => [e]
  | _ => []
  end.
Definition uncounted (c : pc) : list entry :=
  match c with
  | InsertFind e _ _ (S _) _ _ _ _ | InsertStore e _ _ (S _) _ _ | InsertCas e _ _ (S _) _ _ | InsertSize e => [e]
  | _ => []
  end.
Definition fresh (c : pc) : list nat := match own c with Some (n, O) => [n] | _ => [] end.

Definition gather {A} (f : pc -> list A) (ts : list thread) : list A := concat ((fun t => f (at_pc t)) <$> ts).
Definition total (es : list entry) : Z := foldr (fun e => Z.add (node_size e)) 0 es.

Record list_ok (w : world) (C : nat -> list nat) : Prop := {
  lok_rep : rep (cells w) C;
  lok_height : (1 <= max_height (skip w) <= MAX_HEIGHT)%nat;
  lok_abs : ent (cells w) <$> C 0%nat = ordered (linked_entries w)
}.

(** [x] is the sum the size is the wrapped value of. *)
Record inv (w : world) (C : nat -> list nat) : Prop := {
  inv_list : list_ok w C;
  inv_pc j t : threads w !! j = Some t ->
    (called_at t <= length (linked_entries w))%nat /\ pc_ok (cells w) C (linked_entries w) (called_at t) (at_pc t);
  inv_own j j' t t' n l l' : threads w !! j = Some t -> threads w !! j' = Some t' ->
    own (at_pc t) = Some (n, l) -> own (at_pc t') = Some (n, l') -> j = j';
  inv_called : called w ≡ₚ gather pending (threads w) ++ linked_entries w;
  inv_size : exists x, approximate_size (skip w) = wrap64 x /\
    x + total (gather uncounted (threads w)) = total (linked_entries w);
  inv_nodes p : (0 < p < length (cells w))%nat -> p ∈ C 0%nat \/ p ∈ gather fresh (threads w);
  inv_done c : c ∈ completed w -> (from c <= upto c <= length (linked_entries w))%nat /\
    result_ok (linked_entries w) (from c) (upto c) (returned c)
}.

(** ** What is left to do

    [todo] counts the links an insert still has to make; between two links of
    anyone, [cost] bounds a thread's steps in a list of at most [N] nodes: what is
    ahead of it on its level, the levels below, and one more turn if the edge its
    search recorded is not there any more. *)

Fixpoint after (p : nat) (c : list nat) : list nat :=
  match c with
  | [] => []
  | x :: c => if decide (x = p) then c else after p c
  end.
Definition ahead (C : nat -> list nat) (l p : nat) : nat :=
  length (if decide (p = head_ptr) then C l else after p (C l)).
Definition find_cost (N : nat) (C : nat -> list nat) (i curr : nat) : nat := ahead C (i - 1) curr + 1 + (i - 1) * S N.
Definition turn (N : nat) : nat := MAX_HEIGHT * S N + 3.
Definition stale (h : list Node) (level : nat) (preds succs : list (option nat)) : bool :=
  match preds !! level, succs !! level with
  | Some (Some p), Some s => match load (E := fuel_error) h p level with Ok x => negb (bool_decide (x = s)) | _ => false end
  | _, _ => false
  end.
Definition again (N : nat) (h : list Node) (level : nat) (preds succs : list (option nat)) : nat :=
  if stale h level preds succs then turn N else 0.

Definition cost (N : nat) (h : list Node) (C : nat -> list nat) (c : pc) : nat :=
  match c with
  | Idle | Return _ => 0
  | InsertMax _ _ => turn N + 2
  | InsertCasMax _ _ _ => turn N + 1
  | InsertFind _ _ _ level i curr preds succs =>
      find_cost N C i curr + 2 + (if (i <=? level)%nat then again N h level preds succs else 0)
  | InsertStore _ _ _ level preds succs => 2 + again N h level preds succs
  | InsertCas _ _ _ level preds succs => 1 + again N h level preds succs
  | InsertSize _ => 1
  | GetMax _ => turn N
  | GetLoad _ curr level => find_cost N C level curr
  | ScanFirst => N + 3
  | ScanNext None _ => 1
  | ScanNext (Some p) _ => 2 + ahead C 0 p
  end.

Definition todo (c : pc) : nat :=
  match c with
  | InsertMax _ height | InsertCasMax _ height _ => height
  | InsertFind _ height _ level _ _ _ _ | InsertStore _ height _ level _ _ | InsertCas _ height _ level _ _ => height - level
  | _ => 0
  end.

(** The nodes a thread is going to allocate. *)
Definition unborn (c : pc) : nat := match c with InsertMax _ _ | InsertCasMax _ _ _ => 1 | _ => 0 end.

(** A step links, or brings its thread nearer to its end. *)
Definition progress (h : list Node) (C : nat -> list nat) (c : pc) (h1 : list Node) (C1 : nat -> list nat) (c1 : pc) : Prop :=
  (todo c1 < todo c)%nat \/
  (C1 = C /\ todo c1 = todo c /\ forall N, (forall l, length (C l) <= N)%nat -> (cost N h1 C c1 < cost N h C c)%nat).

Lemma after_cut a p d : p ∉ a -> after p (a ++ p :: d) = d.
Proof.
  induction a as [|x a IH]; cbn [app after]; intros Hp; [by rewrite decide_True |].
  rewrite decide_False by (intros ->; apply Hp; constructor). apply IH. intros Hin. apply Hp. by constructor.
Qed.

Lemma ahead_cut h C l a d : rep h C -> C l = a ++ d -> ahead C l (pred_of a) = length d.
Proof.
  intros Hr Hc. destruct (rep_chain h C Hr l) as (Hnd & _). rewrite Hc in Hnd. unfold ahead. rewrite Hc.
  destruct a as [|p a _] using rev_ind; [done |]. rewrite pred_of_snoc, <- app_assoc in *. cbn in *.
  apply NoDup_cons in Hnd as [Hh Hnd]. apply NoDup_app in Hnd as (_ & Hnd & _). f_equal. rewrite decide_False.
  - apply after_cut. intros Hin. apply (Hnd p Hin). constructor.
  - intros ->. apply Hh. apply elem_of_app. right. constructor.
Qed.

Lemma ahead_le C l p N : (length (C l) <= N)%nat -> (ahead C l p <= N)%nat.
Proof.
  intros HN. unfold ahead. case_decide; [done |]. etrans; [| exact HN]. induction (C l) as [|x c IH]; [done |].
  cbn in *. case_decide; [cbn; lia |]. specialize (IH ltac:(lia)). lia.
Qed.

Lemma find_cost_le N C i curr : (forall l, length (C l) <= N)%nat -> (1 <= i <= MAX_HEIGHT)%nat ->
  (find_cost N C i curr <= i * S N)%nat.
Proof. intros HN Hi. unfold find_cost. pose proof (ahead_le C (i - 1) curr N (HN _)). nia. Qed.

Lemma turn_le N i : (i <= MAX_HEIGHT)%nat -> (i * S N + 3 <= turn N)%nat.
Proof. unfold turn. nia. Qed.

Lemma start_find_cost N h C e height n level : (forall l, length (C l) <= N)%nat -> (level < MAX_HEIGHT)%nat ->
  (cost N h C (start_find e height n level) < turn N)%nat.
Proof.
  intros HN Hl. unfold start_find, cost. rewrite (proj2 (Nat.leb_gt MAX_HEIGHT level)) by done.
  assert (1 <= MAX_HEIGHT <= MAX_HEIGHT)%nat as Hm by (unfold MAX_HEIGHT; lia).
  pose proof (find_cost_le N C MAX_HEIGHT head_ptr HN Hm). unfold turn. lia.
Qed.

(** The node a step writes to: the thread's own, or the next one allocated. *)
Definition actor (w : world) (c : pc) : nat :=
  match own c with Some (n, _) => n | None => length (cells w) end.

(** A step of a thread at [c], whose call began after [f] links. *)
Record steps_to (w : world) (C : nat -> list nat) (f : nat) (c : pc) (w1 : world) (C1 : nat -> list nat) (c1 : pc) : Prop := {
  to_evolves : evolves (actor w c) (cells w) (cells w1) C C1 (linked_entries w) (linked_entries w1);
  to_list : list_ok w1 C1;
  to_post : post_ok (cells w1) C1 (linked_entries w1) f c1;
  to_own n l : own c1 = Some (n, l) -> n = actor w c;
  to_pending : pending c ++ linked_entries w ≡ₚ pending c1 ++ linked_entries w1;
  to_size x : approximate_size (skip w) = wrap64 x -> exists x1, approximate_size (skip w1) = wrap64 x1 /\
    x1 + total (uncounted c1) - total (linked_entries w1) = x + total (uncounted c) - total (linked_entries w);
  to_nodes p : (p < length (cells w1))%nat -> (p < length (cells w))%nat \/ p ∈ fresh c1;
  to_fresh p : p ∈ fresh c -> p ∈ C1 0%nat \/ p ∈ fresh c1;
  to_unborn : (unborn c1 + length (cells w1) = unborn c + length (cells w))%nat;
  to_progress : progress (cells w) C c (cells w1) C1 c1;
  to_frame : threads w1 = threads w /\ called w1 = called w /\ completed w1 = completed w
}.

(** A step that only reads. *)
Lemma reads w C f c c1 : list_ok w C -> post_ok (cells w) C (linked_entries w) f c1 ->
  (forall N, (forall l, length (C l) <= N)%nat -> (cost N (cells w) C c1 < cost N (cells w) C c)%nat) ->
  own c1 = own c -> pending c1 = pending c -> uncounted c1 = uncounted c -> todo c1 = todo c -> unborn c1 = unborn c ->
  steps_to w C f c w C c1.
Proof.
  intros Hl Hp Hcost Ho Hpe Hu Ht Hb. assert (fresh c1 = fresh c) as Hf by (unfold fresh; by rewrite Ho). split; try done.
  - intros n l Hn. unfold actor. rewrite <- Ho. by rewrite Hn.
  - by rewrite Hpe.
  - intros x Hx. exists x. by rewrite Hu.
  - intros p Hpl. by left.
  - intros p Hpf. right. by rewrite Hf.
  - by rewrite Hb.
  - by right.
Qed.

Lemma start_find_ok h C L f e height n level : own_ok h C L f e height n level ->
  pc_ok h C L f (start_find e height n level).
Proof.
  intros Ho. pose proof (own_level _ _ _ _ _ _ _ _ Ho). cbn -[MAX_HEIGHT]. rewrite !length_replicate.
  split_and!; try done; try (unfold MAX_HEIGHT; lia); [by left | lia].
Qed.

(** One node further on a level. *)
Lemma step_cost N h C i a p d : rep h C -> C i = a ++ p :: d ->
  (find_cost N C (S i) p < find_cost N C (S i) (pred_of a))%nat.
Proof.
  intros Hr Hc. unfold find_cost. cbn [Nat.sub]. rewrite Nat.sub_0_r, (ahead_cut h C i a (p :: d)) by done.
  pose proof (ahead_cut h C i (a ++ [p]) d Hr) as Ha. rewrite pred_of_snoc, <- app_assoc in Ha. rewrite Ha by done. cbn. lia.
Qed.

Lemma again_record {E} N h level i curr s preds succs : length preds = MAX_HEIGHT -> length succs = MAX_HEIGHT ->
  (i < MAX_HEIGHT)%nat -> load (E := E) h curr i = Ok s ->
  again N h level (<[i:=Some curr]> preds) (<[i:=s]> succs) =
  if decide (i = level) then 0%nat else again N h level preds succs.
Proof.
  intros Hp Hs Hi Hld. unfold again, stale. case_decide as Hil.
  - subst level. rewrite !list_lookup_insert_eq by lia. unfold load, deref, load_next in *.
    destruct (h !! curr) as [m |]; [| done]. cbn in *. destruct (next m !! i); [| done].
    injection Hld as ->. by rewrite bool_decide_true.
  - by rewrite !list_lookup_insert_ne by done.
Qed.

Lemma found_cost {E} N h C e height n level i curr s preds succs : (forall l, length (C l) <= N)%nat ->
  length preds = MAX_HEIGHT -> length succs = MAX_HEIGHT -> (i < MAX_HEIGHT)%nat -> load (E := E) h curr i = Ok s ->
  (cost N h C (found e height n level i curr s preds succs) < cost N h C (InsertFind e height n level (S i) curr preds succs))%nat.
Proof.
  intros HN Hp Hs Hi Hld. pose proof (again_record (E := E) N h level i curr s preds succs Hp Hs Hi Hld) as Ha.
  unfold found. destruct i as [|i]; cbn [cost]; rewrite Ha.
  - unfold find_cost. destruct level; cbn [decide]; [rewrite decide_True by done | rewrite decide_False by done]; cbn; lia.
  - assert (1 <= S i <= MAX_HEIGHT)%nat as Hm by lia. pose proof (find_cost_le N C (S i) curr HN Hm).
    unfold find_cost in *. cbn [Nat.sub] in *. rewrite Nat.sub_0_r in *.
    destruct (Nat.leb_spec (S i) level), (Nat.leb_spec (S (S i)) level), (decide (S i = level)); lia.
Qed.

(** A search goes along a level or ends it; in both cases it reads one edge. *)
Lemma find_ok wk w C f e height n level i curr preds succs : list_ok w C ->
  let c := InsertFind e height n level i curr preds succs in
  pc_ok (cells w) C (linked_entries w) f c ->
  exists c1, insert_step wk c w = Ok (w, c1) /\ steps_to w C f c w C c1.
Proof.
  intros Hl c (Ho & Hp & Hs & Hi & Hst & Hrec). pose proof (lok_rep _ _ Hl) as Hr.
  destruct i as [|i]; [lia |]. cbn [Nat.sub] in Hst. rewrite Nat.sub_0_r in Hst.
  assert (i < MAX_HEIGHT)%nat as Him by lia.
  destruct (stands_cut _ _ _ _ Hst) as (a & d & Hc & Hcurr).
  destruct (peek_ok (E := fuel_error) _ _ i a d Hr Him Hc) as (next & Hpeek & Hseen). rewrite <- Hcurr in Hpeek.
  unfold c, insert_step. unfold cells in Hpeek. rewrite Hpeek. cbn [mbind outcome_bind]. eexists. split; [reflexivity |].
  pose proof (rep_linked _ _ Hr i Him fuel_error a d Hc) as Hld. rewrite <- Hcurr in Hld.
  assert (forall s, edge_ok (cells w) C (ekey e) i curr s -> load (E := fuel_error) (cells w) curr i = Ok s ->
    steps_to w C f c w C (found e height n level i curr s preds succs)) as Hdown.
  { intros s He Hlds. apply reads; [done | | by intros; eapply found_cost | by destruct i..].
    assert (forall l p s', i <> l -> recorded (cells w) C (ekey e) l preds succs p s' ->
      recorded (cells w) C (ekey e) l (<[i:=Some curr]> preds) (<[i:=s]> succs) p s') as Hkeep.
    { intros l p s' Hne (? & ? & ?). split_and!; [rewrite list_lookup_insert_ne by done.. | ]; done. }
    assert ((i <= level)%nat -> exists p s', recorded (cells w) C (ekey e) level (<[i:=Some curr]> preds) (<[i:=s]> succs) p s') as Hrec'.
    { intros Hle. destruct (decide (i = level)) as [-> |].
      - exists curr, s. split_and!; [by apply list_lookup_insert_eq; lia.. | done].
      - destruct Hrec as (p & s' & Hrec); [lia |]. exists p, s'. by apply Hkeep. }
    destruct i as [|i]; cbn -[MAX_HEIGHT]; [split; [done | apply Hrec'; lia] |].
    rewrite !length_insert. split_and!; try done; try lia. rewrite Nat.sub_0_r. by apply (stands_below _ C). }
  destruct d as [|p d]; cbn in Hseen; [rewrite Hseen; by apply Hdown |]. destruct Hseen as (m & -> & Hm).
  assert (p ∈ C i) as Hpc by (rewrite Hc; apply elem_of_app; right; constructor).
  destruct (bltb_spec (key m) (ekey e)) as [Hlt | Hge]; rewrite <- (ent_key _ _ _ Hm) in *.
  - apply reads; [done | | | by destruct level..].
    + cbn -[MAX_HEIGHT]. rewrite Nat.sub_0_r. split_and!; try done; try lia. by right.
    + intros N HN. cbn [cost]. pose proof (step_cost N (cells w) C i a p d Hr Hc) as Hcost. rewrite <- Hcurr in Hcost. lia.
  - apply Hdown; [| done]. split; [done |]. split; [by eapply chain_elem_lt | done].
Qed.

Lemma chain_bottom h C l p : rep h C -> p ∈ C l -> p ∈ C 0%nat.
Proof. intros Hr. induction l as [|l IH]; [done |]. intros Hp. by apply IH, (rep_sub h C Hr). Qed.

(** At the end of a search on level 0 the key is not in the list. *)
Lemma bottom_none {E} h C k p s : rep h C -> edge_ok h C k 0 p s -> load (E := E) h p 0 = Ok s ->
  (forall x, s = Some x -> ekey (ent h x) <> k) -> k ∉ ekey <$> (ent h <$> C 0%nat).
Proof.
  intros Hr He Hld Hne. destruct (rep_chain h C Hr 0%nat) as (_ & _ & Hs).
  assert (0 < MAX_HEIGHT)%nat as H0 by (unfold MAX_HEIGHT; lia).
  destruct (edge_place h C k 0 p s Hr H0 He Hld) as [_ ->]. apply level_hit_none; [done |]. unfold level_hit.
  destruct (hd_error _) as [x |]; [| done]. by rewrite decide_False by (by apply Hne).
Qed.

Lemma found_now w C k r : list_ok w C -> found_in (ent (cells w) <$> C 0%nat) k r ->
  forall f, (f <= length (linked_entries w))%nat -> result_ok (linked_entries w) f (length (linked_entries w)) (Got k r).
Proof.
  intros Hl Hr f Hf. exists (length (linked_entries w)). split; [lia |]. rewrite firstn_all.
  rewrite (lok_abs _ _ Hl) in Hr. pose proof (ordered_perm (linked_entries w)) as Hperm.
  destruct r as [v |]; cbn in *; [destruct Hr as (e & He & ?); exists e; by rewrite Hperm in He | by rewrite Hperm in Hr].
Qed.

Lemma GetLoad_ok w C f k curr level : list_ok w C -> (f <= length (linked_entries w))%nat ->
  pc_ok (cells w) C (linked_entries w) f (GetLoad k curr level) ->
  exists c1, get_step (GetLoad k curr level) w = Ok (w, c1) /\ steps_to w C f (GetLoad k curr level) w C c1.
Proof.
  intros Hl Hf (Hi & Hst). pose proof (lok_rep _ _ Hl) as Hr. destruct level as [|i]; [lia |].
  cbn [Nat.sub] in Hst. rewrite Nat.sub_0_r in Hst. assert (i < MAX_HEIGHT)%nat as Him by lia.
  destruct (stands_cut _ _ _ _ Hst) as (a & d & Hc & Hcurr).
  destruct (peek_ok (E := fuel_error) _ _ i a d Hr Him Hc) as (next & Hpeek & Hseen). rewrite <- Hcurr in Hpeek.
  pose proof (rep_linked _ _ Hr i Him fuel_error a d Hc) as Hld. rewrite <- Hcurr in Hld.
  unfold get_step. cbn [Nat.sub]. rewrite Nat.sub_0_r. unfold cells in Hpeek. rewrite Hpeek. cbn [mbind outcome_bind].
  eexists. split; [reflexivity |].
  assert (edge_ok (cells w) C k i curr (hd_error d) -> (forall x, hd_error d = Some x -> ekey (ent (cells w) x) <> k) ->
    steps_to w C f (GetLoad k curr (S i)) w C
      (if (1 <? S i)%nat then GetLoad k curr i else Return (Got k None))) as Hdown.
  { intros He Hne. destruct (Nat.ltb_spec 1 (S i)) as [H1 | H1]; (apply reads; [done | | | done..]).
    - cbn -[MAX_HEIGHT]. destruct i as [|i]; [lia |]. cbn [Nat.sub]. rewrite Nat.sub_0_r. split; [lia |]. by apply (stands_below _ C).
    - intros N HN. pose proof (find_cost_le N C i curr HN ltac:(lia)). cbn [cost]. unfold find_cost in *. cbn [Nat.sub]. lia.
    - assert (i = 0)%nat as -> by lia. eapply (found_now _ C k None); [done | | done]. by eapply bottom_none.
    - intros N HN. cbn [cost]. unfold find_cost. lia. }
  destruct d as [|p d]; cbn in Hseen; [rewrite Hseen; by apply Hdown |]. destruct Hseen as (m & -> & Hm).
  assert (p ∈ C i) as Hpc by (rewrite Hc; apply elem_of_app; right; constructor).
  destruct (bltb_spec (key m) k) as [Hlt | Hge]; [| destruct (beqb_spec (key m) k) as [Heq | Hne]].
  - apply reads; [done | | | done..].
    + cbn -[MAX_HEIGHT]. rewrite Nat.sub_0_r. split; [lia |]. right. by rewrite (ent_key _ _ _ Hm).
    + intros N HN. rewrite Hcurr. by eapply step_cost.
  - apply reads; [done | | intros N HN; cbn [cost]; unfold find_cost; lia | done..].
    eapply (found_now _ C k (Some _)); [done | | done].
    exists (ent (cells w) p). split; [by apply list_elem_of_fmap_2, (chain_bottom (cells w) C i) |].
    rewrite (ent_key _ _ _ Hm). split; [done |]. unfold ent. by rewrite Hm.
  - apply Hdown; rewrite <- (ent_key _ _ _ Hm) in *.
    + split; [done |]. split; [by eapply chain_elem_lt | done].
    + by intros x [= <-].
Qed.

(** The ordered list grows with its entries. *)
Lemma ordered_sorted es : sorted_keys (ordered es).
Proof. destruct (built_abs (E := fuel_error) (fun _ => true) es 0) as (s & rng' & _ & Ha). by eapply abs_sorted. Qed.

Lemma ins_entry_sublist e es : sorted_keys es -> es `sublist_of` ins_entry e es.
Proof.
  intros Hs. unfold ins_entry. etrans; [| apply sublist_app; [reflexivity | by apply sublist_cons]].
  induction es as [|x es IH]; [done |]. unfold sorted_keys in Hs. rewrite fmap_cons in Hs.
  apply StronglySorted_inv in Hs as [Hs Hall].
  rewrite !filter_cons. destruct (decide (blt (ekey x) (ekey e))) as [Hlt | Hge].
  - rewrite (decide_False (P := ~ _)) by tauto. cbn. by apply sublist_skip, IH.
  - rewrite (decide_True (P := ~ _)) by done.
    rewrite (filter_none _ es), (filter_all (fun e' => ~ _) es); [done | |];
      (apply Forall_forall; intros y Hy Hlt; apply Hge; eapply ble_blt_trans; [| exact Hlt];
       rewrite Forall_fmap, Forall_forall in Hall; by apply Hall).
Qed.

Lemma ordered_prefix es es' : es `prefix_of` es' -> ordered es `sublist_of` ordered es'.
Proof.
  intros [k ->]. induction k as [|e k IH] using rev_ind; [by rewrite app_nil_r |].
  rewrite IH, app_assoc, ordered_snoc. apply ins_entry_sublist, ordered_sorted.
Qed.

Lemma scan_cost N h C a p d out out' : rep h C -> C 0%nat = a ++ p :: d ->
  (cost N h C (ScanNext (hd_error d) out') < cost N h C (ScanNext (Some p) out))%nat.
Proof.
  intros Hr Hc. cbn [cost]. pose proof (ahead_cut h C 0 (a ++ [p]) d Hr) as Ha. rewrite pred_of_snoc, <- app_assoc in Ha.
  rewrite Ha by done. destruct d as [|q d]; cbn; [lia |].
  pose proof (ahead_cut h C 0 (a ++ [p; q]) d Hr) as Hq. replace (a ++ [p; q]) with ((a ++ [p]) ++ [q]) in Hq by (by rewrite <- app_assoc).
  rewrite pred_of_snoc, <- !app_assoc in Hq. rewrite Hq by done. lia.
Qed.

(** A turn of a loop over the iterator. *)
Lemma scan_step_ok w C f c : list_ok w C ->
  pc_ok (cells w) C (linked_entries w) f c -> match c with ScanFirst | ScanNext _ _ => True | _ => False end ->
  exists c1, scan_step c w = Ok (w, c1) /\ steps_to w C f c w C c1.
Proof.
  intros Hl Hok Hc. pose proof (lok_rep _ _ Hl) as Hr. assert (0 < MAX_HEIGHT)%nat as H0 by (unfold MAX_HEIGHT; lia).
  pose proof (rep_linked _ _ Hr 0%nat H0 fuel_error) as Hld. destruct c as [| | | | | | | | | |curr out|]; try done.
  - unfold scan_step, iter. change head_ptr with (pred_of []). unfold cells in Hld. rewrite (Hld [] (C 0%nat)) by done.
    eexists. split; [reflexivity |]. apply reads; [done | | | done..].
    + exists [], (C 0%nat). split_and!; [done.. |]. rewrite (lok_abs _ _ Hl). apply ordered_prefix, prefix_take.
    + intros N HN. specialize (HN 0%nat). cbn [cost]. destruct (hd_error (C 0%nat)) as [p |]; [| lia].
      pose proof (ahead_le C 0 p N HN). lia.
  - destruct Hok as (a & d & Hcut & -> & Ho & Hs). cbn [scan_step]. destruct d as [|p d]; cbn [hd_error iter_next].
    + eexists. split; [reflexivity |]. apply reads; [done | | cbn; lia | done..]. cbn. rewrite app_nil_r in Hcut, Hs.
      rewrite firstn_all. by rewrite <- (lok_abs _ _ Hl), Hcut.
    + specialize (Hld (a ++ [p]) d). rewrite pred_of_snoc, <- app_assoc in Hld. specialize (Hld Hcut).
      unfold load, cells in Hld. assert (p < length (cells w))%nat as Hp.
      { eapply (chain_elem_lt _ C 0); [done |]. rewrite Hcut. apply elem_of_app. right. constructor. }
      destruct (deref_ok (E := fuel_error) _ _ Hp) as (n & Hn & Hd). unfold cells in Hd. rewrite Hd in *. cbn [mbind outcome_bind] in *.
      rewrite Hld. cbn [mbind outcome_bind]. eexists. split; [reflexivity |].
      apply reads; [done | | intros N _; by eapply scan_cost | done..].
      exists (a ++ [p]), d. assert (ent (cells w) p = (key n, val n, seq n)) as He by (unfold ent; by rewrite Hn).
      rewrite <- He. split_and!; [by rewrite <- app_assoc | done | | by rewrite <- app_assoc].
      rewrite fmap_app. by apply sublist_app.
Qed.

(** An edge between nodes of a level depends on the chain only. *)
Lemma again_same N h h' C level preds succs k p s : rep h C -> rep h' C -> (level < MAX_HEIGHT)%nat ->
  recorded h C k level preds succs p s -> again N h' level preds succs = again N h level preds succs.
Proof.
  intros Hr Hr' Hl (Hp & Hs & Hst & _). unfold again, stale. rewrite Hp, Hs.
  destruct (stands_cut _ _ _ _ Hst) as (a & d & Hc & ->). 
  by rewrite (rep_linked h C Hr level Hl fuel_error a d Hc), (rep_linked h' C Hr' level Hl fuel_error a d Hc).
Qed.

Lemma load_app {E} h m q l : (q < length h)%nat -> load (E := E) (h ++ [m]) q l = load h q l.
Proof. intros Hq. unfold load, deref. by rewrite lookup_app_l. Qed.

Lemma ent_app h m q : (q < length h)%nat -> ent (h ++ [m]) q = ent h q.
Proof. intros Hq. unfold ent. by rewrite lookup_app_l. Qed.

(** Allocation: a node that nothing leads to. *)
Lemma alloc_ok w C f c e height mh : list_ok w C -> (1 <= height <= MAX_HEIGHT)%nat -> (1 <= mh <= MAX_HEIGHT)%nat ->
  own c = None -> pending c = [e] -> uncounted c = [] -> todo c = height -> unborn c = 1%nat ->
  (forall N h, turn N + 1 <= cost N h C c)%nat ->
  let r := alloc e height (set_skip (mk_SkipList (nodes (skip w)) mh (approximate_size (skip w))) w) in
  steps_to w C f c r.1 C r.2.
Proof.
  intros Hl Hh Hmh Ho Hpe Hu Ht Hb Hcost r. pose proof (lok_rep _ _ Hl) as Hr. set (m := Node_new e.1.1 e.1.2 e.2 height).
  assert (Hev : evolves (length (cells w)) (cells w) (cells w ++ [m]) C C (linked_entries w) (linked_entries w)).
  { split; [rewrite length_app; lia | intros; by apply ent_app | done | done | intros; by apply load_app | done]. }
  assert (Hact : actor w c = length (cells w)) by (unfold actor; by rewrite Ho).
  split; [by rewrite Hact | | | | by rewrite Hpe | | | | | | done].
  - split; [by apply alloc_rep | done |]. change (ent (cells w ++ [m]) <$> C 0%nat = ordered (linked_entries w)). rewrite <- (lok_abs _ _ Hl). by apply (ents_stable _ _ _ _ _ _ _ Hr Hev 0).
  - apply start_find_ok. split; cbn -[MAX_HEIGHT]; [rewrite length_app; cbn; unfold cells; lia | | lia | lia | | lia].
    + unfold ent. rewrite lookup_app_r, Nat.sub_diag by done. by destruct e as [[k v] q].
    + intros l _ [Hq | Hq]%elem_of_cons; [pose proof (head_lt _ _ Hr) as Hq' | pose proof (chain_elem_lt _ C _ _ Hr Hq) as Hq'];
        unfold cells in Hq'; lia.
  - intros n l [= <- <-]. by rewrite Hact.
  - intros x Hx. exists x. by rewrite Hu.
  - intros p Hp. cbn in Hp. rewrite length_app in Hp. cbn in Hp. unfold cells.
    destruct (decide (p = length (nodes (skip w)))) as [-> |]; [right; by apply elem_of_cons; left | left; lia].
  - unfold fresh. rewrite Ho. intros p []%elem_of_nil.
  - rewrite Hb. unfold cells. cbn. rewrite length_app. cbn. lia.
  - right. split; [done |]. split; [rewrite Ht; cbn; lia |]. intros N HN. specialize (Hcost N (cells w)).
    eapply Nat.lt_le_trans; [| exact Hcost]. rewrite Nat.add_1_r. apply Nat.lt_lt_succ_r, start_find_cost; [done |].
    unfold MAX_HEIGHT. lia.
Qed.

(** The store to the private node. *)
Lemma InsertStore_ok wk w C f e height n level preds succs : list_ok w C ->
  let c := InsertStore e height n level preds succs in
  pc_ok (cells w) C (linked_entries w) f c ->
  exists w1 c1, insert_step wk c w = Ok (w1, c1) /\ steps_to w C f c w1 C c1.
Proof.
  intros Hl c (Ho & p & s & Hp & Hs & He). pose proof (lok_rep _ _ Hl) as Hr. pose proof (rep_wf _ _ Hr) as Hw.
  pose proof (own_lt _ _ _ _ _ _ _ _ Ho) as Hn. pose proof (own_above _ _ _ _ _ _ _ _ Ho level) as Hnin.
  assert (level < MAX_HEIGHT)%nat as Hlv by (pose proof (own_level _ _ _ _ _ _ _ _ Ho); lia).
  specialize (Hnin ltac:(done)). unfold c, insert_step. rewrite Hs. cbn [mbind outcome_bind].
  rewrite store_ok by done. cbn [mbind outcome_bind]. do 2 eexists. split; [reflexivity |].
  assert (Hev : evolves n (cells w) (upd (cells w) n level s) C C (linked_entries w) (linked_entries w)).
  { split; [by rewrite length_upd | intros; apply ent_upd | done | done | | done].
    intros E q l Hq Hne _. rewrite load_upd by done. by rewrite decide_False by tauto. }
  split; [done | | | by intros ? ? [= -> ->] | by destruct level | | | | | | done].
  - split; [by apply private_rep | apply Hl |]. change (ent (upd (cells w) n level s) <$> C 0%nat = ordered (linked_entries w)). rewrite <- (lok_abs _ _ Hl). by apply (ents_stable _ _ _ _ _ _ _ Hr Hev 0).
  - cbn. split; [| exists p, s; split].
    + destruct Ho. split; try done; unfold cells; cbn; [by rewrite length_upd | by rewrite ent_upd].
    + by apply (recorded_stable _ _ _ _ _ _ _ Hr Hev).
    + unfold cells. cbn. rewrite load_upd by done. by rewrite decide_True.
  - intros x Hx. exists x. by destruct level.
  - intros q. unfold cells. cbn. rewrite length_upd. by left.
  - intros q. right. done.
  - unfold cells. cbn. by rewrite length_upd.
  - right. split; [done |]. split; [done |]. intros N HN. cbn [cost]. apply Nat.add_lt_le_mono; [lia |].
    rewrite <- (again_same N (cells w) _ C level preds succs (ekey e) p s Hr (private_rep _ C n level s Hr Hlv Hn Hnin) Hlv);
      [done | by split_and!].
Qed.

(** ** The compare-and-swap *)

Lemma elem_of_ins h k n c q : sorted_keys (ent h <$> c) -> q ∈ ins h k n c <-> q = n \/ q ∈ c.
Proof. intros Hs. unfold ins. rewrite (sorted_split h k c Hs) at 3. rewrite !elem_of_app, elem_of_cons. tauto. Qed.

Lemma ins_sublist h k n c : sorted_keys (ent h <$> c) -> c `sublist_of` ins h k n c.
Proof.
  intros Hs. unfold ins. rewrite (sorted_split h k c Hs) at 1. apply sublist_app; [reflexivity | by apply sublist_cons].
Qed.

Lemma link_evolves h C k n l p L L' : rep h C -> (l < MAX_HEIGHT)%nat -> stands h k (C l) p -> L `prefix_of` L' ->
  evolves n h (upd h p l (Some n)) C (relink C l (ins h k n (C l))) L L'.
Proof.
  intros Hr Hl Hst HL. destruct (rep_chain h C Hr l) as (_ & _ & Hs). split; [by rewrite length_upd | | | | | done].
  - intros q _. apply ent_upd.
  - intros m. unfold relink. case_decide; [subst; by apply ins_sublist | done].
  - intros m q Hq. unfold relink. case_decide; [subst; rewrite elem_of_ins by done; tauto | done].
  - intros E q m Hq _ Hnin. pose proof (rep_wf h C Hr) as Hw. pose proof (stands_lt h C k l p Hr Hst) as Hp.
    rewrite load_upd by done. rewrite decide_False; [done |]. intros [-> ->]. apply Hnin.
    destruct Hst as [-> | [Hin _]]; by constructor.
Qed.

(** The entries after a link on [level]. *)
Definition linked_after (level : nat) (e : entry) (L : list entry) : list entry :=
  match level with O => L ++ [e] | _ => L end.

Lemma linked_after_between level e L f : (f <= length L)%nat -> ((0 < level)%nat -> linked_between L f (length L) e) ->
  linked_between (linked_after level e L) f (length (linked_after level e L)) e.
Proof.
  intros Hf Hl. destruct level as [|level]; cbn; [| by apply Hl; lia]. exists (length L).
  rewrite length_app, list_lookup_middle by done. cbn. split; [lia | done].
Qed.

Lemma own_after h C L f e height n level p : rep h C -> stands h (ekey e) (C level) p -> (f <= length L)%nat ->
  own_ok h C L f e height n level -> (S level < height)%nat ->
  own_ok (upd h p level (Some n)) (relink C level (ins h (ekey e) n (C level))) (linked_after level e L) f e height n (S level).
Proof.
  intros Hr Hst Hf [Hlt He Hl Hb Ha Hk] Hh. destruct (rep_chain h C Hr level) as (_ & _ & Hs).
  split; [by rewrite length_upd | by rewrite ent_upd | lia | | | intros _; by apply linked_after_between].
  - intros m Hm. unfold relink. case_decide; [subst; apply elem_of_ins; [done | by left] | apply Hb; lia].
  - intros m Hm. unfold relink. rewrite decide_False by lia. apply Ha. lia.
Qed.

(** The world after a link. *)
Definition link_world (e : entry) (level : nat) (h : list Node) (w : world) : world :=
  match level with O => ghost_link e (set_nodes h w) | _ => set_nodes h w end.

Lemma link_world_eq e level h w : link_world e level h w =
  mk_world (mk_SkipList h (max_height (skip w)) (approximate_size (skip w))) (threads w) (called w)
    (linked_after level e (linked_entries w)) (completed w).
Proof. by destruct level. Qed.

Lemma link_abs w C e n level p : list_ok w C -> ent (cells w) n = e ->
  ent (upd (cells w) p level (Some n)) <$> relink C level (ins (cells w) (ekey e) n (C level)) 0%nat =
  ordered (linked_after level e (linked_entries w)).
Proof.
  intros Hl <-. rewrite (list_fmap_ext _ (ent (cells w))) by (intros; apply ent_upd). unfold relink.
  destruct level as [|level]; cbn [linked_after]; [| by rewrite decide_False, (lok_abs _ _ Hl)].
  by rewrite decide_True, ins_entries, (lok_abs _ _ Hl), ordered_snoc.
Qed.

Lemma total_app es es' : total (es ++ es') = total es + total es'.
Proof.
  induction es as [|e es IH]; [done |].
  change (node_size e + total (es ++ es') = node_size e + total es + total es'). rewrite IH. lia.
Qed.

Lemma link_steps w C f e height n level p preds succs : list_ok w C -> (f <= length (linked_entries w))%nat ->
  own_ok (cells w) C (linked_entries w) f e height n level -> stands (cells w) (ekey e) (C level) p ->
  let C1 := relink C level (ins (cells w) (ekey e) n (C level)) in
  let h1 := upd (cells w) p level (Some n) in
  rep h1 C1 ->
  steps_to w C f (InsertCas e height n level preds succs) (link_world e level h1 w) C1 (after_link e height n level).
Proof.
  intros Hl Hf Ho Hst C1 h1 Hr1. pose proof (lok_rep _ _ Hl) as Hr.
  assert (level < MAX_HEIGHT)%nat as Hlv by (pose proof (own_level _ _ _ _ _ _ _ _ Ho); lia).
  destruct (rep_chain _ _ Hr level) as (_ & _ & Hs). rewrite link_world_eq. unfold after_link.
  split; cbn [cells skip nodes approximate_size max_height threads called linked_entries completed].
  - apply link_evolves; [done.. | destruct level; [by eexists | done]].
  - split; [done | apply Hl | by apply link_abs, (own_ent _ _ _ _ _ _ _ _ Ho)].
  - destruct (Nat.ltb_spec (S level) height) as [Hlt | _].
    + apply start_find_ok. by apply own_after.
    + apply linked_after_between; [done | by apply (own_linked _ _ _ _ _ _ _ _ Ho)].
  - intros m l. by destruct (_ <? _)%nat; intros [= <- <-].
  - destruct level; destruct (_ <? _)%nat; cbn; [apply Permutation_cons_append.. | done | done].
  - intros x Hx. exists x. split; [done |]. destruct level; destruct (_ <? _)%nat; cbn [linked_after];
      rewrite ?total_app; cbn; lia.
  - intros q. unfold h1. rewrite length_upd. by left.
  - intros q Hq. left. unfold C1, fresh in *. cbn in Hq. destruct level; [| by apply elem_of_nil in Hq].
    apply list_elem_of_singleton in Hq as ->. unfold relink. rewrite decide_True by done. apply elem_of_ins; [done | by left].
  - unfold h1. rewrite length_upd. by destruct (_ <? _)%nat.
  - left. pose proof (own_level _ _ _ _ _ _ _ _ Ho). destruct (_ <? _)%nat; cbn [todo start_find]; lia.
  - done.
Qed.

Lemma InsertCas_ok wk w C f e height n level preds succs : list_ok w C -> (f <= length (linked_entries w))%nat ->
  let c := InsertCas e height n level preds succs in
  pc_ok (cells w) C (linked_entries w) f c ->
  exists w1 C1 c1, insert_step wk c w = Ok (w1, c1) /\ steps_to w C f c w1 C1 c1.
Proof.
  intros Hl Hf c (Ho & p & s & (Hp & Hs & He) & Hld). pose proof (lok_rep _ _ Hl) as Hr.
  pose proof (own_lt _ _ _ _ _ _ _ _ Ho) as Hn. pose proof (own_ent _ _ _ _ _ _ _ _ Ho) as Hent.
  assert (level < MAX_HEIGHT)%nat as Hlv by (pose proof (own_level _ _ _ _ _ _ _ _ Ho); lia).
  pose proof (cas_edge (E := fuel_error) (cells w) C n level p s Hr Hlv Hn (own_above _ _ _ _ _ _ _ _ Ho level ltac:(done))) as Hcas.
  rewrite Hent in Hcas. specialize (Hcas ltac:(intros m ->; apply (own_below _ _ _ _ _ _ _ _ Ho); lia) He Hld).
  unfold c, insert_step. rewrite Hs, Hp. cbn [mbind outcome_bind]. unfold cells in Hcas.
  destruct Hcas as [[Hstale ->] | [-> Hrep]]; cbn [mbind outcome_bind]; do 3 eexists; (split; [reflexivity |]).
  - apply reads; [done | by apply start_find_ok | | by destruct level..]. intros N HN.
    cbn [cost]. unfold again. replace (stale (cells w) level preds succs) with true.
    + pose proof (start_find_cost N (cells w) C e height n level HN Hlv). lia.
    + symmetry. unfold stale. rewrite Hp, Hs.
      destruct (load_ok (E := fuel_error) _ _ _ (rep_wf _ _ Hr) (stands_lt _ _ _ _ _ Hr (proj1 He)) Hlv) as [x Hx].
      unfold cells in *. rewrite Hx in *. by rewrite bool_decide_false by congruence.
  - by apply (link_steps w C f e height n level p preds succs Hl Hf Ho (proj1 He)).
Qed.

(** ** One step of one thread *)

Lemma InsertSize_ok wk w C f e : list_ok w C -> pc_ok (cells w) C (linked_entries w) f (InsertSize e) ->
  exists w1 c1, insert_step wk (InsertSize e) w = Ok (w1, c1) /\ steps_to w C f (InsertSize e) w1 C c1.
Proof.
  intros Hl Hok. do 2 eexists. split; [reflexivity |]. destruct Hl as [Hr Hmh Ha].
  split; cbn [cells set_skip skip nodes approximate_size max_height threads called linked_entries completed]; try done.
  - intros x ->. exists (x + node_size e). unfold wrap64. rewrite Z.add_mod_idemp_l by done. split; [done |]. cbn. lia.
  - intros p Hp. by left.
  - intros p []%elem_of_nil.
  - right. split; [done |]. split; [done |]. intros N _. cbn. lia.
Qed.

Lemma pc_step_ok wk w C f c : list_ok w C -> (f <= length (linked_entries w))%nat ->
  pc_ok (cells w) C (linked_entries w) f c -> c <> Idle ->
  exists w1 C1 c1, pc_step wk c w = Ok (w1, c1) /\ steps_to w C f c w1 C1 c1.
Proof.
  intros Hl Hf Hok Hc. pose proof (lok_height _ _ Hl) as Hmh. destruct c; try done; cbn [pc_step].
  - cbn [insert_step]. destruct (_ <? _)%nat; do 3 eexists; (split; [reflexivity |]);
      [apply reads; try done; intros; cbn [cost]; lia |].
    pose proof (alloc_ok w C f (InsertMax e height) e height (max_height (skip w)) Hl Hok Hmh) as Ha.
    destruct w as [[] ? ? ? ?]. apply Ha; try done. intros. cbn [cost]. lia.
  - cbn [insert_step]. do 3 eexists. split; [reflexivity |].
    apply (alloc_ok w C f (InsertCasMax e height curr_max) e height); try done. by destruct (_ && _).
  - destruct (find_ok wk w C f e height node_ptr level i curr preds succs Hl Hok) as (c1 & ? & ?). by exists w, C, c1.
  - destruct (InsertStore_ok wk w C f e height node_ptr level preds succs Hl Hok) as (w1 & c1 & ? & ?). by exists w1, C, c1.
  - by apply InsertCas_ok.
  - destruct (InsertSize_ok wk w C f e Hl Hok) as (w1 & c1 & ? & ?). by exists w1, C, c1.
  - cbn [get_step]. do 3 eexists. split; [reflexivity |].
    apply reads; [done | split; [done | by left] | | done..]. intros N HN. cbn [cost].
    pose proof (find_cost_le N C _ head_ptr HN Hmh). pose proof (turn_le N (max_height (skip w))). lia.
  - destruct (GetLoad_ok w C f k curr level Hl Hf Hok) as (c1 & ? & ?). by exists w, C, c1.
  - destruct (scan_step_ok w C f ScanFirst Hl Hok I) as (c1 & ? & ?). by exists w, C, c1.
  - destruct (scan_step_ok w C f (ScanNext curr out) Hl Hok I) as (c1 & ? & ?). by exists w, C, c1.
Qed.

(** ** The invariant over runs *)

Definition rest (c : pc) : pc := match c with Return _ => Idle | _ => c end.

Lemma settle_eq j t w c : settle j t w c =
  mk_world (skip w) (<[j := mk_thread (rng t) (rest c) (called_at t)]> (threads w)) (called w) (linked_entries w)
    (completed w ++ match c with Return r => [mk_completion r (called_at t) (length (linked_entries w))] | _ => [] end).
Proof. destruct c; cbn; by rewrite ?app_nil_r. Qed.

Lemma gather_insert {A} (f : pc -> list A) ts j t t' : ts !! j = Some t ->
  gather f (<[j := t']> ts) ++ f (at_pc t) ≡ₚ gather f ts ++ f (at_pc t').
Proof.
  intros Hj. apply list_elem_of_split_length in Hj as (l1 & l2 & -> & ->). rewrite insert_app_r_alt, Nat.sub_diag by done.
  unfold gather. cbn. rewrite !fmap_app, !fmap_cons, !concat_app. cbn. solve_Permutation.
Qed.

Lemma total_perm es es' : es ≡ₚ es' -> total es = total es'.
Proof. unfold total. induction 1; cbn [foldr]; lia. Qed.

Lemma total_gather ts j t t' : ts !! j = Some t ->
  total (gather uncounted (<[j := t']> ts)) + total (uncounted (at_pc t)) =
  total (gather uncounted ts) + total (uncounted (at_pc t')).
Proof. intros Hj. rewrite <- !total_app. by apply total_perm, gather_insert. Qed.

Lemma elem_of_gather {A} (f : pc -> list A) ts x : x ∈ gather f ts <-> exists j t, ts !! j = Some t /\ x ∈ f (at_pc t).
Proof.
  unfold gather. rewrite list_elem_of_In, in_concat. setoid_rewrite <- list_elem_of_In. split.
  - intros (l & (t & -> & [j Hj]%list_elem_of_lookup)%list_elem_of_fmap & Hx). by exists j, t.
  - intros (j & t & Hj & Hx). exists (f (at_pc t)). split; [| done]. apply list_elem_of_fmap. exists t. split; [done |].
    by eapply list_elem_of_lookup_2.
Qed.

Section settle.
  Context (w : world) (C : nat -> list nat) (j : nat) (t : thread) (w1 : world) (C1 : nat -> list nat) (c1 : pc).
  Context (Hinv : inv w C) (Hj : threads w !! j = Some t) (Hst : steps_to w C (called_at t) (at_pc t) w1 C1 c1).

Lemma other_own j' t' m l : j' <> j -> threads w !! j' = Some t' -> own (at_pc t') = Some (m, l) -> m <> actor w (at_pc t).
Proof.
  intros Hne Hj' Ho Hm. unfold actor in Hm. destruct (own (at_pc t)) as [[n l'] |] eqn:Hown.
  - subst m. apply Hne. by eapply (inv_own _ _ Hinv).
  - destruct (inv_pc _ _ Hinv _ _ Hj') as [_ Hok]. destruct (pc_own_ok _ _ _ _ _ _ _ Hok Ho) as (e & height & Hoo).
    pose proof (own_lt _ _ _ _ _ _ _ _ Hoo). lia.
Qed.

Lemma links_grow : (length (linked_entries w) <= length (linked_entries w1))%nat.
Proof. apply prefix_length, (to_evolves _ _ _ _ _ _ _ Hst). Qed.

Lemma settle_pc j' t' : threads (settle j t w1 c1) !! j' = Some t' ->
  (called_at t' <= length (linked_entries w1))%nat /\ pc_ok (cells w1) C1 (linked_entries w1) (called_at t') (at_pc t').
Proof.
  rewrite settle_eq. cbn [threads]. destruct (to_frame _ _ _ _ _ _ _ Hst) as (-> & _ & _). pose proof links_grow.
  destruct (decide (j' = j)) as [-> | Hne].
  - rewrite list_lookup_insert_eq by (by eapply lookup_lt_Some). intros [= <-]. cbn.
    destruct (inv_pc _ _ Hinv _ _ Hj) as [Hc _]. split; [lia |].
    pose proof (to_post _ _ _ _ _ _ _ Hst) as Hp. by destruct c1.
  - rewrite list_lookup_insert_ne by done. intros Hj'. destruct (inv_pc _ _ Hinv _ _ Hj') as [Hc Hok]. split; [lia |].
    eapply (pc_stable (actor w (at_pc t)) _ _ _ _ _ _ (lok_rep _ _ (inv_list _ _ Hinv)) (to_evolves _ _ _ _ _ _ _ Hst)); [done | | done].
    intros m l Ho. by eapply other_own.
Qed.

Lemma settle_own j1 j2 t1 t2 n l1 l2 : threads (settle j t w1 c1) !! j1 = Some t1 -> threads (settle j t w1 c1) !! j2 = Some t2 ->
  own (at_pc t1) = Some (n, l1) -> own (at_pc t2) = Some (n, l2) -> j1 = j2.
Proof.
  rewrite settle_eq. cbn [threads]. destruct (to_frame _ _ _ _ _ _ _ Hst) as (-> & _ & _).
  assert (forall m l, own (rest c1) = Some (m, l) -> m = actor w (at_pc t)) as Hnew.
  { intros m l Ho. eapply (to_own _ _ _ _ _ _ _ Hst). by destruct c1. }
  assert (j < length (threads w))%nat as Hlt by (by eapply lookup_lt_Some).
  destruct (decide (j1 = j)) as [-> | H1], (decide (j2 = j)) as [-> | H2]; try done;
    rewrite ?list_lookup_insert_eq, ?list_lookup_insert_ne by done.
  - intros [= <-] Ht2 Ho1%Hnew Ho2. by destruct (other_own j2 t2 n l2 H2 Ht2 Ho2).
  - intros Ht1 [= <-] Ho1 Ho2%Hnew. by destruct (other_own j1 t1 n l1 H1 Ht1 Ho1).
  - apply (inv_own _ _ Hinv).
Qed.

Lemma settle_called : called w1 ≡ₚ gather pending (threads (settle j t w1 c1)) ++ linked_entries w1.
Proof.
  rewrite settle_eq. cbn [threads]. destruct (to_frame _ _ _ _ _ _ _ Hst) as (-> & -> & _). rewrite (inv_called _ _ Hinv).
  pose proof (gather_insert pending (threads w) j t (mk_thread (rng t) (rest c1) (called_at t)) Hj) as Hg. cbn [at_pc] in Hg.
  pose proof (to_pending _ _ _ _ _ _ _ Hst) as Hp. replace (pending (rest c1)) with (pending c1) in Hg by (by destruct c1).
  apply (Permutation_app_inv_l (pending c1)).
  rewrite app_assoc, (Permutation_app_comm (pending c1)), <- Hg, <- app_assoc, Hp. solve_Permutation.
Qed.

Lemma settle_size : exists x, approximate_size (skip w1) = wrap64 x /\
  x + total (gather uncounted (threads (settle j t w1 c1))) = total (linked_entries w1).
Proof.
  rewrite settle_eq. cbn [threads]. destruct (to_frame _ _ _ _ _ _ _ Hst) as (-> & _ & _).
  destruct (inv_size _ _ Hinv) as (x & Hx & Hsum). destruct (to_size _ _ _ _ _ _ _ Hst x Hx) as (x1 & Hx1 & Hs).
  exists x1. split; [done |]. pose proof (total_gather (threads w) j t (mk_thread (rng t) (rest c1) (called_at t)) Hj) as Hg.
  cbn [at_pc] in Hg. replace (uncounted (rest c1)) with (uncounted c1) in Hg by (by destruct c1). lia.
Qed.

Lemma settle_nodes p : (0 < p < length (cells w1))%nat ->
  p ∈ C1 0%nat \/ p ∈ gather fresh (threads (settle j t w1 c1)).
Proof.
  intros [H0 Hp]. rewrite settle_eq. cbn [threads]. destruct (to_frame _ _ _ _ _ _ _ Hst) as (-> & _ & _).
  assert (p ∈ fresh c1 -> p ∈ gather fresh (<[j:=mk_thread (rng t) (rest c1) (called_at t)]> (threads w))) as Hnew.
  { intros Hf. apply elem_of_gather. exists j. eexists. rewrite list_lookup_insert_eq by (by eapply lookup_lt_Some).
    split; [done |]. by destruct c1. }
  destruct (to_nodes _ _ _ _ _ _ _ Hst p Hp) as [Hold | Hf]; [| by auto].
  destruct (inv_nodes _ _ Hinv p) as [Hc | (j' & t' & Hj' & Hf)%elem_of_gather]; [done | |].
  - left. by eapply in_stable; [apply (to_evolves _ _ _ _ _ _ _ Hst) |].
  - destruct (decide (j' = j)) as [-> | Hne].
    + assert (t' = t) as -> by congruence. destruct (to_fresh _ _ _ _ _ _ _ Hst p Hf); auto.
    + right. apply elem_of_gather. exists j', t'. by rewrite list_lookup_insert_ne.
Qed.

Lemma settle_done c : c ∈ completed (settle j t w1 c1) -> (from c <= upto c <= length (linked_entries w1))%nat /\
  result_ok (linked_entries w1) (from c) (upto c) (returned c).
Proof.
  rewrite settle_eq. cbn [completed]. destruct (to_frame _ _ _ _ _ _ _ Hst) as (_ & _ & ->). pose proof links_grow.
  intros [Hc | Hc]%elem_of_app.
  - destruct (inv_done _ _ Hinv c Hc) as [? ?]. split; [lia |]. eapply result_ok_mono; [apply (to_evolves _ _ _ _ _ _ _ Hst) | | done]. lia.
  - pose proof (to_post _ _ _ _ _ _ _ Hst) as Hp. destruct (inv_pc _ _ Hinv _ _ Hj) as [? _].
    destruct c1; try by apply elem_of_nil in Hc. apply list_elem_of_singleton in Hc as ->. cbn. split; [lia | done].
Qed.

Lemma settle_inv : inv (settle j t w1 c1) C1.
Proof.
  pose proof settle_pc as Hpc. pose proof settle_own as Hown. pose proof settle_called as Hca. pose proof settle_size as Hs.
  pose proof settle_nodes as Hn. pose proof settle_done as Hd. pose proof (to_list _ _ _ _ _ _ _ Hst) as [].
  rewrite settle_eq in *. by split.
Qed.
End settle.

Lemma enter_eq j t a w : exists g c,
  enter j t a w = mk_world (skip w) (<[j := mk_thread g c (length (linked_entries w))]> (threads w))
    (called w ++ pending c) (linked_entries w) (completed w) /\
  own c = None /\ uncounted c = [] /\ forall h C L f, pc_ok h C L f c.
Proof.
  destruct a as [e | k |]; cbn [enter].
  - destruct (random_height (rng t)) as [height g] eqn:Hh. exists g, (InsertMax e height). split_and!; [done.. |].
    intros h C L f. cbn -[MAX_HEIGHT]. pose proof (random_height_bounds (rng t)) as Hb. by rewrite Hh in Hb.
  - exists (rng t), (GetMax k). cbn [pending]. by rewrite app_nil_r.
  - exists (rng t), ScanFirst. cbn [pending]. by rewrite app_nil_r.
Qed.

Lemma enter_inv w C j t a : inv w C -> threads w !! j = Some t -> at_pc t = Idle -> inv (enter j t a w) C.
Proof.
  intros [Hl Hpc Hown Hca Hs Hn Hd] Hj Hidle. destruct (enter_eq j t a w) as (g & c & -> & Ho & Hu & Hok).
  set (t1 := mk_thread g c (length (linked_entries w))). assert (j < length (threads w))%nat as Hlt by (by eapply lookup_lt_Some).
  assert (forall j' t', <[j:=t1]> (threads w) !! j' = Some t' -> t' = t1 \/ threads w !! j' = Some t') as Hcase.
  { intros j' t'. destruct (decide (j' = j)) as [-> | Hne]; [rewrite list_lookup_insert_eq by done; intros [= <-]; by left |].
    rewrite list_lookup_insert_ne by done. by right. }
  split; cbn [cells skip threads called linked_entries completed]; [by destruct Hl; split | | | | | | done].
  - intros j' t' [-> | Ht']%Hcase; [split; [done | apply Hok] | by apply (Hpc j')].
  - intros j1 j2 t1' t2' n l1 l2 [-> | H1]%Hcase [-> | H2]%Hcase; cbn; rewrite ?Ho; try done. by eapply Hown.
  - pose proof (gather_insert pending (threads w) j t t1 Hj) as Hg. rewrite Hidle in Hg. cbn in Hg. rewrite app_nil_r in Hg.
    rewrite Hg, Hca. solve_Permutation.
  - destruct Hs as (x & ? & ?). exists x. split; [done |]. pose proof (total_gather (threads w) j t t1 Hj) as Hg.
    rewrite Hidle in Hg. cbn [at_pc t1] in Hg. rewrite Hu in Hg. cbn in Hg. cbn in *. lia.
  - intros p Hp. destruct (Hn p Hp) as [| (j' & t' & Hj' & Hf)%elem_of_gather]; [by left | right].
    apply elem_of_gather. exists j', t'. rewrite list_lookup_insert_ne; [done |]. intros <-.
    assert (t' = t) as -> by congruence. rewrite Hidle in Hf. by apply elem_of_nil in Hf.
Qed.

(** ** Runs *)

Lemma at_pc_idle t : at_pc t = Idle \/ at_pc t <> Idle.
Proof. destruct (at_pc t); [by left | by right..]. Qed.

Lemma act_inv a w C : inv w C -> exists w' C', act a w = Ok w' /\ inv w' C' /\ linked_entries w `prefix_of` linked_entries w'.
Proof.
  intros Hinv. destruct a as [j a | j wk]; cbn [act]; unfold thread_step; (destruct (threads w !! j) as [t |] eqn:Hj; [| by exists w, C]).
  - destruct (at_pc t) eqn:Ht; try by exists w, C. do 2 eexists. split; [reflexivity |].
    split; [by apply (enter_inv w C) |]. by destruct (enter_eq j t a w) as (g & c & -> & _).
  - destruct (at_pc_idle t) as [Hi | Hne].
    + exists w, C. rewrite Hi. cbn [pc_step mbind outcome_bind fst snd]. rewrite settle_eq. cbn [rest].
      rewrite app_nil_r, <- Hi. split_and!; [| done | done]. f_equal. destruct w. cbn. f_equal.
      rewrite list_insert_id; [done |]. by destruct t.
    + destruct (inv_pc _ _ Hinv _ _ Hj) as [Hf Hok].
      destruct (pc_step_ok wk w C _ _ (inv_list _ _ Hinv) Hf Hok Hne) as (w1 & C1 & c1 & -> & Hst).
      exists (settle j t w1 c1), C1. split_and!; [done | by eapply settle_inv |]. rewrite settle_eq. apply Hst.
Qed.

Lemma open_inv rngs : inv (open rngs) (fun _ => []).
Proof.
  destruct (new_abs) as (C & Hr & He & Hmh).
  assert (forall A (f : pc -> list A), f Idle = [] -> gather f (threads (open rngs)) = []) as Hnil.
  { intros A f Hf. unfold gather, open. cbn. induction rngs as [|g gs IH]; [done |]. cbn. by rewrite Hf, IH. }
  assert (forall j t, threads (open rngs) !! j = Some t -> at_pc t = Idle /\ called_at t = 0%nat) as Hidle.
  { intros j t. unfold open. cbn. rewrite list_lookup_fmap. intros (g & _ & ->)%fmap_Some. done. }
  split.
  - split; [| done | done]. eapply rep_ext; [| exact Hr]. intros m. cbn.
    destruct (C 0%nat) eqn:H0; [| done]. assert (forall p, p ∉ C m) as Hm.
    { intros p Hp%(chain_bottom _ _ _ _ Hr). rewrite H0 in Hp. by apply elem_of_nil in Hp. }
    destruct (C m) as [|p c]; [done |]. destruct (Hm p). constructor.
  - intros j t [-> ->]%Hidle. cbn. split; [lia | done].
  - intros j j' t t' n l l' [-> _]%Hidle _ [=].
  - rewrite Hnil by done. done.
  - exists 0. rewrite Hnil by done. done.
  - intros p Hp. cbn in Hp. lia.
  - intros c []%elem_of_nil.
Qed.

Lemma run_inv l : forall w C, inv w C ->
  exists w' C', run_actions l w = Ok w' /\ inv w' C' /\ linked_entries w `prefix_of` linked_entries w'.
Proof.
  induction l as [|a l IH]; intros w C Hinv; [by exists w, C |].
  destruct (act_inv a w C Hinv) as (w1 & C1 & Ha & Hinv1 & Hp1). destruct (IH w1 C1 Hinv1) as (w2 & C2 & Hr & Hinv2 & Hp2).
  exists w2, C2. unfold run_actions in *. cbn [for_each]. rewrite Ha. cbn [mbind outcome_bind].
  split_and!; [done | done |]. by etrans.
Qed.

(** ** The work left *)

Definition tally (f : pc -> nat) (ts : list thread) : nat := sum_list_with (fun t => f (at_pc t)) ts.

(** The nodes there will be once the calls in progress have allocated theirs. *)
Definition room (w : world) : nat := length (cells w) + tally unborn (threads w).

Definition work (N : nat) (h : list Node) (C : nat -> list nat) (ts : list thread) : nat :=
  tally todo ts * S (length ts * (2 * turn N)) + tally (cost N h C) ts.

Lemma tally_insert f ts j t t' : ts !! j = Some t ->
  (tally f (<[j := t']> ts) + f (at_pc t) = tally f ts + f (at_pc t'))%nat.
Proof.
  intros Hj. apply list_elem_of_split_length in Hj as (l1 & l2 & -> & ->). rewrite insert_app_r_alt, Nat.sub_diag by done.
  unfold tally. cbn. rewrite !sum_list_with_app. cbn. lia.
Qed.

Lemma tally_ext f g ts : (forall j t, ts !! j = Some t -> f (at_pc t) = g (at_pc t)) -> tally f ts = tally g ts.
Proof.
  unfold tally. induction ts as [|t ts IH]; intros H; [done |]. cbn. rewrite (H 0%nat t eq_refl). f_equal.
  apply IH. intros j t' Hj. by apply (H (S j)).
Qed.

Lemma tally_le f ts b : (forall j t, ts !! j = Some t -> (f (at_pc t) <= b)%nat) -> (tally f ts <= length ts * b)%nat.
Proof.
  unfold tally. induction ts as [|t ts IH]; intros H; [done |]. cbn. pose proof (H 0%nat t eq_refl).
  specialize (IH (fun j t' Hj => H (S j) t' Hj)). lia.
Qed.

Lemma cost_same N h h' C L f c : rep h C -> rep h' C -> pc_ok h C L f c -> cost N h' C c = cost N h C c.
Proof.
  intros Hr Hr' Hok. destruct c; try done; cbn [cost].
  - destruct Hok as (Ho & _ & _ & _ & _ & Hrec). destruct (Nat.leb_spec i level) as [Hle | _]; [| done].
    destruct (Hrec Hle) as (p & s & Hps). pose proof (own_level _ _ _ _ _ _ _ _ Ho).
    rewrite (again_same N h h' C level preds succs (ekey e) p s Hr Hr'); [done | lia | done].
  - destruct Hok as (Ho & p & s & Hps). pose proof (own_level _ _ _ _ _ _ _ _ Ho).
    rewrite (again_same N h h' C level preds succs (ekey e) p s Hr Hr'); [done | lia | done].
  - destruct Hok as (Ho & p & s & Hps & _). pose proof (own_level _ _ _ _ _ _ _ _ Ho).
    rewrite (again_same N h h' C level preds succs (ekey e) p s Hr Hr'); [done | lia | done].
Qed.

Lemma cost_le N h C L f c : (forall l, length (C l) <= N)%nat -> pc_ok h C L f c -> (cost N h C c <= 2 * turn N)%nat.
Proof.
  intros HN Hok. assert (turn N >= N + 3)%nat as Ht by (unfold turn, MAX_HEIGHT; lia).
  assert (forall level preds succs, again N h level preds succs <= turn N)%nat as Ha by (intros; unfold again; case_match; lia).
  destruct c; cbn [cost pc_ok] in *; try specialize (Ha level preds succs); try lia.
  - destruct Hok as (_ & _ & _ & Hi & _). pose proof (find_cost_le N C i curr HN Hi). pose proof (turn_le N i (proj2 Hi)).
    case_match; lia.
  - destruct Hok as [Hi _]. pose proof (find_cost_le N C level curr HN Hi). pose proof (turn_le N level (proj2 Hi)). lia.
  - destruct curr as [p |]; [| lia]. pose proof (ahead_le C 0 p N (HN 0%nat)). lia.
Qed.

Lemma room_chain w C N l : inv w C -> (room w <= N)%nat -> (length (C l) <= N)%nat.
Proof.
  intros Hinv Hroom. pose proof (chain_length _ _ (rep_chain _ _ (lok_rep _ _ (inv_list _ _ Hinv)) l)). unfold room in *. lia.
Qed.

Lemma settle_room w C j t w1 C1 c1 : threads w !! j = Some t -> steps_to w C (called_at t) (at_pc t) w1 C1 c1 ->
  room (settle j t w1 c1) = room w.
Proof.
  intros Hj Hst. rewrite settle_eq. unfold room. cbn [threads]. change (cells (mk_world (skip w1) _ _ _ _)) with (cells w1).
  destruct (to_frame _ _ _ _ _ _ _ Hst) as (-> & _ & _). pose proof (to_unborn _ _ _ _ _ _ _ Hst) as Hu.
  pose proof (tally_insert unborn (threads w) j t (mk_thread (rng t) (rest c1) (called_at t)) Hj) as Ht. cbn [at_pc] in Ht.
  replace (unborn (rest c1)) with (unborn c1) in Ht by (by destruct c1). lia.
Qed.

Lemma settle_work w C j t w1 C1 c1 N : inv w C -> threads w !! j = Some t ->
  steps_to w C (called_at t) (at_pc t) w1 C1 c1 -> (room w <= N)%nat ->
  (work N (cells w1) C1 (threads (settle j t w1 c1)) < work N (cells w) C (threads w))%nat.
Proof.
  intros Hinv Hj Hst HN. pose proof (settle_inv w C j t w1 C1 c1 Hinv Hj Hst) as Hinv1.
  pose proof (settle_room _ _ _ _ _ _ _ Hj Hst) as Hroom. rewrite settle_eq in *. cbn [threads] in *.
  destruct (to_frame _ _ _ _ _ _ _ Hst) as (Hth & _ & _). rewrite Hth in *.
  set (t1 := mk_thread (rng t) (rest c1) (called_at t)) in *.
  pose proof (tally_insert todo (threads w) j t t1 Hj) as Htodo. cbn [at_pc t1] in Htodo.
  assert (Hrt : todo (rest c1) = todo c1) by (by destruct c1). rewrite Hrt in Htodo.
  assert (forall l, length (C l) <= N)%nat as HC by (intros; by eapply room_chain).
  assert (forall l, length (C1 l) <= N)%nat as HC1 by (intros; eapply room_chain; [exact Hinv1 |]; by rewrite Hroom).
  unfold work. rewrite length_insert. set (b := (2 * turn N)%nat).
  destruct (to_progress _ _ _ _ _ _ _ Hst) as [Hlt | (-> & Heq & Hcost)].
  - assert (tally (cost N (cells w1) C1) (<[j:=t1]> (threads w)) <= length (threads w) * b)%nat as Hle.
    { rewrite <- (length_insert (threads w) j t1). apply tally_le. intros j' t' Ht'.
      eapply cost_le; [done | by apply (inv_pc _ _ Hinv1 j')]. }
    nia.
  - assert (tally (cost N (cells w1) C) (threads w) = tally (cost N (cells w) C) (threads w)) as Hsame.
    { apply tally_ext. intros j' t' Ht'. eapply cost_same; [apply (inv_list _ _ Hinv) | apply (to_list _ _ _ _ _ _ _ Hst) |].
      by apply (inv_pc _ _ Hinv j'). }
    pose proof (tally_insert (cost N (cells w1) C) (threads w) j t t1 Hj) as Ht. cbn [at_pc t1] in Ht.
    assert (Hrc : cost N (cells w1) C (rest c1) = cost N (cells w1) C c1) by (by destruct c1). rewrite Hrc in Ht.
    rewrite (cost_same N (cells w) (cells w1) C (linked_entries w) (called_at t)) in Ht;
      [| apply (inv_list _ _ Hinv) | apply (to_list _ _ _ _ _ _ _ Hst) | by apply (inv_pc _ _ Hinv j)].
    specialize (Hcost N HC). assert (tally todo (<[j:=t1]> (threads w)) = tally todo (threads w)) as -> by lia. lia.
Qed.

(** A thread in a call. *)
Definition busy (w : world) (j : nat) : bool :=
  match threads w !! j with Some t => match at_pc t with Idle => false | _ => true end | None => false end.

Lemma busy_step w C j wk : inv w C -> busy w j = true -> exists w' C',
  thread_step wk j w = Ok w' /\ inv w' C' /\ room w' = room w /\
  forall N, (room w <= N)%nat -> (work N (cells w') C' (threads w') < work N (cells w) C (threads w))%nat.
Proof.
  intros Hinv Hb. unfold busy, thread_step in *. destruct (threads w !! j) as [t |] eqn:Hj; [| done].
  assert (at_pc t <> Idle) as Hne by (by destruct (at_pc t)). destruct (inv_pc _ _ Hinv _ _ Hj) as [Hf Hok].
  destruct (pc_step_ok wk w C _ _ (inv_list _ _ Hinv) Hf Hok Hne) as (w1 & C1 & c1 & -> & Hst).
  exists (settle j t w1 c1), C1. split_and!; [done | by eapply settle_inv | by eapply settle_room |].
  intros N HN. pose proof (settle_work _ _ _ _ _ _ _ _ Hinv Hj Hst HN) as Hw. rewrite settle_eq in *. done.
Qed.

(** A schedule of threads that are in a call, each with the answer of its weak
    compare-and-swap, if that is its step. *)
Fixpoint scheduled (l : list (nat * bool)) (w : world) : bool :=
  match l with
  | [] => true
  | (j, wk) :: l => busy w j && match thread_step wk j w with Ok w => scheduled l w | _ => true end
  end.

Definition quiet (w : world) : bool := forallb (fun t => match at_pc t with Idle => true | _ => false end) (threads w).

Definition work_bound (w : world) : nat :=
  let per_link := (length (threads w) * (2 * turn (room w)))%nat in
  (tally todo (threads w) * S per_link + per_link)%nat.

Lemma work_le w C : inv w C -> (work (room w) (cells w) C (threads w) <= work_bound w)%nat.
Proof.
  intros Hinv. unfold work, work_bound. apply Nat.add_le_mono_l. apply tally_le. intros j t Hj.
  eapply cost_le; [by intros; eapply room_chain | by apply (inv_pc _ _ Hinv j)].
Qed.

Lemma scheduled_length N l : forall w C, inv w C -> (room w <= N)%nat -> scheduled l w = true ->
  (length l <= work N (cells w) C (threads w))%nat.
Proof.
  induction l as [|[j wk] l IH]; intros w C Hinv HN Hs; cbn [length]; [lia |]. cbn [scheduled] in Hs.
  apply andb_true_iff in Hs as [Hb Hs]. destruct (busy_step w C j wk Hinv Hb) as (w' & C' & Hst & Hinv' & Hroom & Hw).
  rewrite Hst in Hs. specialize (IH w' C' Hinv' ltac:(lia) Hs). specialize (Hw N HN). lia.
Qed.

Lemma not_quiet w : quiet w = false -> exists j, busy w j = true.
Proof.
  unfold quiet, busy. induction (threads w) as [|t ts IH]; [done |]. cbn [forallb].
  destruct (at_pc t) eqn:Ht; cbn [andb]; intros H; try (exists 0%nat; cbn; by rewrite Ht).
  destruct (IH H) as [j Hj]. by exists (S j).
Qed.

Lemma can_finish n : forall w C, inv w C -> (work (room w) (cells w) C (threads w) <= n)%nat ->
  exists l w', scheduled l w = true /\ run_actions ((fun s => Step s.1 s.2) <$> l) w = Ok w' /\ quiet w' = true.
Proof.
  induction n as [n IH] using lt_wf_ind. intros w C Hinv Hn. destruct (quiet w) eqn:Hq; [by exists [], w |].
  destruct (not_quiet w Hq) as [j Hb]. destruct (busy_step w C j true Hinv Hb) as (w1 & C1 & Hst & Hinv1 & Hroom & Hw).
  specialize (Hw (room w) ltac:(done)). destruct (IH (work (room w1) (cells w1) C1 (threads w1)) ltac:(rewrite Hroom; lia) w1 C1 Hinv1 ltac:(done)) as (l & w' & Hs & Hr & Hq').
  exists ((j, true) :: l), w'. split_and!; [| | done].
  - cbn [scheduled]. by rewrite Hb, Hst.
  - unfold run_actions in *. rewrite fmap_cons. cbn [for_each act fst snd]. rewrite Hst. exact Hr.
Qed.

Lemma quiet_gather {A} (f : pc -> list A) w : f Idle = [] -> quiet w = true -> gather f (threads w) = [].
Proof.
  intros Hf. unfold quiet, gather. induction (threads w) as [|t ts IH]; [done |]. cbn [forallb].
  intros [Ht Hq]%andb_true_iff. cbn. destruct (at_pc t); try done. by rewrite Hf, IH.
Qed.

Lemma run_open_inv rngs l w : run_actions l (open rngs) = Ok w -> exists C, inv w C.
Proof.
  intros Hr. destruct (run_inv l _ _ (open_inv rngs)) as (w' & C & Hr' & Hinv & _). exists C. congruence.
Qed.

(** ** [Drop] *)

Lemma drop_loop_ok `{Fueled E} h C fuel a d : rep h C -> C 0%nat = a ++ d -> (length d <= fuel)%nat ->
  drop_loop (E := E) fuel h (hd_error d) (head_ptr :: a) = Ok (head_ptr :: C 0%nat).
Proof.
  intros Hr. revert fuel a. induction d as [|p d IH]; intros fuel a Hc Hf.
  - rewrite app_nil_r in Hc. rewrite Hc. by destruct fuel.
  - destruct fuel as [|fuel]; [cbn in Hf; lia |]. cbn [hd_error drop_loop].
    destruct (rep_chain h C Hr 0%nat) as (Hnd & _). rewrite Hc in Hnd. change (head_ptr :: a ++ p :: d) with ((head_ptr :: a) ++ p :: d) in Hnd.
    apply NoDup_app in Hnd as (_ & Hnd & _). rewrite bool_decide_false by (intros Hin; apply (Hnd p Hin); constructor).
    assert (0 < MAX_HEIGHT)%nat as H0 by (unfold MAX_HEIGHT; lia).
    pose proof (rep_linked h C Hr 0%nat H0 E (a ++ [p]) d) as Hld. rewrite pred_of_snoc, <- app_assoc in Hld.
    rewrite Hld by done. cbn [mbind outcome_bind]. apply (IH fuel (a ++ [p])); [by rewrite <- app_assoc | cbn in Hf; lia].
Qed.

Lemma drop_list_ok `{Fueled E} s C : rep (nodes s) C -> drop_list (E := E) s = Ok (head_ptr :: C 0%nat).
Proof.
  intros Hr. pose proof (chain_length _ _ (rep_chain _ C Hr 0%nat)) as Hlen. unfold drop_list.
  destruct (length (nodes s)) as [|fuel] eqn:Hl; [lia |]. cbn [drop_loop]. rewrite bool_decide_false by (intros []%elem_of_nil).
  assert (0 < MAX_HEIGHT)%nat as H0 by (unfold MAX_HEIGHT; lia).
  rewrite (rep_linked _ C Hr 0%nat H0 E [] (C 0%nat) eq_refl : load _ head_ptr 0 = _). cbn [mbind outcome_bind app].
  apply (drop_loop_ok _ C fuel [] (C 0%nat) Hr); [done | lia].
Qed.

(** * Properties *)

(** C18: Concurrent inserts: in any interleaving of any calls by any number of threads, with any
    generator states and any spurious failures of the weak compare-and-swap, no call panics or
    follows a dangling pointer; at every moment the list is the sequential list of the inserts
    linked so far, in the order of their compare-and-swaps; every insert that was called is linked
    once or still pending, and when no call is in progress all are linked and counted in the
    approximate size. *)
Theorem skip_safe (rngs : list Z) (l : list action) : exists w, run_actions l (open rngs) = Ok w /\
  abs (skip w) (ordered (linked_entries w)) /\
  called w ≡ₚ gather pending (threads w) ++ linked_entries w /\
  (quiet w = true -> called w ≡ₚ linked_entries w /\ approximate_size (skip w) = wrap64 (total (called w))).
Proof.
  destruct (run_inv l _ _ (open_inv rngs)) as (w & C & Hr & Hinv & _). exists w. split; [done |].
  pose proof (inv_list _ _ Hinv) as [Hrep Hmh Habs]. pose proof (inv_called _ _ Hinv) as Hca. split_and!; [by exists C | done |].
  intros Hq. rewrite (quiet_gather pending w) in Hca by done. split; [done |].
  destruct (inv_size _ _ Hinv) as (x & -> & Hx). rewrite (quiet_gather uncounted w) in Hx by done.
  rewrite (total_perm _ _ Hca). f_equal. change (x + 0 = total (linked_entries w)) in Hx.
  change ([] ++ linked_entries w) with (linked_entries w). lia.
Qed.

(** C17: Every call takes effect at one moment between its call and its return: an insert links its
    entry then, a [get] answers [None] only if no entry of the key was linked at that moment and
    otherwise with one that was, and an iteration yields, in order, every entry linked before it
    began and none that was linked after it ended.  So a [get] called after an insert of its key
    returned finds an entry. *)
Theorem skip_linearizable (rngs : list Z) (l : list action) (w : world) (Hrun : run_actions l (open rngs) = Ok w) :
  (forall c, c ∈ completed w -> (from c <= upto c <= length (linked_entries w))%nat /\
    result_ok (linked_entries w) (from c) (upto c) (returned c)) /\
  (forall c c' e, c ∈ completed w -> c' ∈ completed w -> returned c = Inserted e ->
    returned c' = Got (ekey e) None -> ~ (upto c <= from c')%nat).
Proof.
  destruct (run_open_inv rngs l w Hrun) as [C Hinv]. pose proof (inv_done _ _ Hinv) as Hd. split; [done |].
  intros c c' e Hc Hc' He Hg Hle. destruct (Hd c Hc) as [_ Hi]. destruct (Hd c' Hc') as [_ Hn]. rewrite He in Hi. rewrite Hg in Hn.
  destruct Hi as (i & Hi & Hie), Hn as (m & Hm & Hnone). apply Hnone. apply list_elem_of_fmap. exists e. split; [done |].
  apply (list_elem_of_lookup_2 _ i). by rewrite lookup_take_lt by lia.
Qed.

(** C24: The list is lock-free: from any state of any run, threads that are in a call, scheduled in any
    way, take a bounded number of steps until no call is in progress; the bound counts the links to
    make and, per link, one search and one retry of every thread. *)
Theorem skip_lock_free (rngs : list Z) (l : list action) (w : world) (Hrun : run_actions l (open rngs) = Ok w) :
  (forall steps, scheduled steps w = true -> (length steps <= work_bound w)%nat) /\
  exists steps w', scheduled steps w = true /\ run_actions ((fun s => Step s.1 s.2) <$> steps) w = Ok w' /\ quiet w' = true.
Proof.
  destruct (run_open_inv rngs l w Hrun) as [C Hinv]. split.
  - intros steps Hs. etrans; [by apply (scheduled_length (room w) _ w C) | by apply work_le].
  - by apply (can_finish _ w C Hinv (le_n _)).
Qed.

(** Dropping the list when no call is in progress frees every node that was allocated, each once. *)
Theorem skip_drop (rngs : list Z) (l : list action) (w : world) (Hrun : run_actions l (open rngs) = Ok w)
    (Hq : quiet w = true) :
  exists freed, drop_list (E := fuel_error) (skip w) = Ok freed /\ freed ≡ₚ List.seq 0 (length (nodes (skip w))).
Proof.
  destruct (run_open_inv rngs l w Hrun) as [C Hinv]. pose proof (lok_rep _ _ (inv_list _ _ Hinv)) as Hr.
  exists (head_ptr :: C 0%nat). split; [by apply drop_list_ok |]. destruct (rep_chain _ _ Hr 0%nat) as (Hnd & Hv & _).
  apply NoDup_Permutation; [done | apply NoDup_ListNoDup, seq_NoDup |]. intros p. rewrite elem_of_seq. split.
  - rewrite Forall_forall in Hv. intros Hp%Hv. unfold cells in Hp. lia.
  - intros [_ Hp]. destruct p as [|p]; [by constructor |]. destruct (inv_nodes _ _ Hinv (S p)) as [| Hf]; [unfold cells; lia | by constructor |].
    rewrite (quiet_gather fresh w) in Hf by done. by apply elem_of_nil in Hf.
Qed.

(** ** Examples *)

(** Two threads insert at the same place, in lockstep: the second
    compare-and-swap fails, and its thread searches again. *)
Definition key_a : entry := ([Byte.x61], Some [Byte.x01], 1).
Definition key_b : entry := ([Byte.x62], Some [Byte.x02], 2).
Definition both (n : nat) : list action := concat (replicate n [Step 0 true; Step 1 false]).
Definition world_of (r : outcome fuel_error world) : world := match r with Ok w => w | _ => open [] end.
Definition contended : list action := [Start 0 (Insert key_a); Start 1 (Insert key_b)] ++ both 23.
Definition contended_end : world := world_of (run_actions contended (open [RNG_SEED; 7])).
(** Then the retry, and a [get] and an iteration after it. *)
Definition settled : list action := contended ++ both 25 ++ [Start 0 (Get (ekey key_b)); Start 1 Scan] ++ both 5.
Definition settled_end : world := world_of (run_actions settled (open [RNG_SEED; 7])).

Example contended_retries : linked_entries contended_end = [key_a] /\ quiet contended_end = false /\
  linked_entries settled_end = [key_a; key_b] /\ quiet settled_end = true.
Proof. split_and!; vm_compute; reflexivity. Qed.

Lemma skip_safe_witness : exists w, run_actions settled (open [RNG_SEED; 7]) = Ok w /\
  abs (skip w) (ordered (linked_entries w)) /\
  called w ≡ₚ gather pending (threads w) ++ linked_entries w /\
  (quiet w = true -> called w ≡ₚ linked_entries w /\ approximate_size (skip w) = wrap64 (total (called w))).
Proof. exact (skip_safe [RNG_SEED; 7] settled). Defined.

Lemma skip_linearizable_witness :
  returned <$> completed settled_end =
    [Inserted key_a; Inserted key_b; Got (ekey key_b) (Some (eval key_b)); Scanned [key_a; key_b]] /\
  forall c, c ∈ completed settled_end -> (from c <= upto c <= length (linked_entries settled_end))%nat /\
    result_ok (linked_entries settled_end) (from c) (upto c) (returned c).
Proof.
  split; [vm_compute; reflexivity |].
  refine (proj1 (skip_linearizable [RNG_SEED; 7] settled settled_end _)). vm_compute. reflexivity.
Defined.

Lemma skip_lock_free_witness : busy contended_end 1 = true /\
  exists steps w', scheduled steps contended_end = true /\
    run_actions ((fun s => Step s.1 s.2) <$> steps) contended_end = Ok w' /\ quiet w' = true.
Proof.
  split; [vm_compute; reflexivity |].
  refine (proj2 (skip_lock_free [RNG_SEED; 7] contended contended_end _)). vm_compute. reflexivity.
Defined.

Lemma skip_drop_witness : length (nodes (skip settled_end)) = 3%nat /\
  exists freed, drop_list (E := fuel_error) (skip settled_end) = Ok freed /\
    freed ≡ₚ List.seq 0 (length (nodes (skip settled_end))).
Proof.
  split; [vm_compute; reflexivity |].
  refine (skip_drop [RNG_SEED; 7] settled settled_end _ _); vm_compute; reflexivity.
Defined.
