(* ===== verification/Compaction.v ===== *)
(** * Levelled compaction (tier3_storage/src/compaction/manager.rs)

    [LeveledCompactor] over a store of files: [add_l0_table] and
    [maybe_schedule_compaction], with the merge of Merge.v.  The invariant of the
    levels (tables hold what their metadata says, level 1 is sorted and its key
    ranges are disjoint) is preserved, and compaction keeps the newest version
    of every key. *)

From Stdlib Require Import Ascii.
From stdpp Require Import gmap strings.
From S2P Require Import Prelude Paths BinarySearch Bloom Block Footer SSTable SSTableReader Streaming Merge.
#[local] Open Scope Z_scope.

Definition L0_TRIGGER_COUNT : Z := 4.

(** A file a write can make has a size of 64 bits. *)
Class BoundedFile (F : FileOps) :=
  write_all_bound : forall f d f', write_all f d = (f', Ok tt) -> is_u64 (len f').

(** A file system that fails only on a file that would be too large. *)
#[export] Instance bounded_file : FileOps := {|
  create_file := Ok tt;
  write_all := fun f d => if len (f ++ d) <? 2 ^ 64 then (f ++ d, Ok tt) else (f, Err (Os 27));
  sync_all := fun _ => Ok tt
|}.
#[export] Instance bounded_file_spec : FileOpsSpec bounded_file.
Proof.
  split; [done | | | done]; intros f d; cbn; [intros f' |]; destruct (_ <? _); [by intros [= <-] | done | done | done].
Qed.
#[export] Instance bounded_file_bound : BoundedFile bounded_file.
Proof.
  intros f d f'. cbn. destruct (Z.ltb_spec (len (f ++ d)) (2 ^ 64)); [| done]. intros [= <-].
  pose proof (len_nonneg (f ++ d)). unfold is_u64. lia.
Qed.

(** It fails on no table that is shorter. *)
Lemma bounded_never_fails t : is_u64 (len t) -> ~ table_fails (F := bounded_file) t.
Proof.
  intros Ht [Hc | [(f & d & [k ->] & Hw) | Hs]]; [by apply Hc | | by apply Hs]. apply Hw.
  cbn. rewrite len_app in Ht. pose proof (len_nonneg k). unfold is_u64 in Ht.
  by destruct (Z.ltb_spec (len (f ++ d)) (2 ^ 64)); [| lia].
Qed.

Section compaction.
  Context `{F : FileOps} `{BH : BinaryHeap}.

Record TableMetadata := mk_TableMetadata {
  id : Z;
  path_of : path;
  smallest_key : bytes;
  largest_key : bytes
}.

Record LeveledCompactor := mk_LeveledCompactor {
  db_dir : string;
  l0 : list TableMetadata;
  l1 : list TableMetadata;
  next_sst_id : Z
}.

Definition LeveledCompactor_new (dir : string) (next_sst_id : Z) : LeveledCompactor :=
  mk_LeveledCompactor dir [] [] next_sst_id.

(** [self.db_dir.join(format!("{:06}_L1.sst", out_id))]. *)
Definition l1_path (dir : string) (out_id : Z) : path := mk_path dir (show_06 out_id ++ "_L1.sst")%string.

Definition add_l0_table (c : LeveledCompactor) (p : path) (smallest_key largest_key : bytes) : LeveledCompactor :=
  let id := next_sst_id c in
  mk_LeveledCompactor (db_dir c) (l0 c ++ [mk_TableMetadata id p smallest_key largest_key]) (l1 c) (wrap64 (id + 1)).

(** The compactor and the files of the database. *)
Record world := mk_world { files : gmap path bytes; compactor : LeveledCompactor }.

(** The loop over level 0 that computes the key range. *)
Definition range_step (r : option bytes * option bytes) (m : TableMetadata) : option bytes * option bytes :=
  (Some (match r.1 with
         | Some k => if bltb k (smallest_key m) then k else smallest_key m
         | None => smallest_key m
         end),
   Some (match r.2 with
         | Some k => if bltb (largest_key m) k then k else largest_key m
         | None => largest_key m
         end)).

(** [m.largest_key < min_k || m.smallest_key > max_k]. *)
Definition outside (min_k max_k : bytes) (m : TableMetadata) : bool :=
  bltb (largest_key m) min_k || bltb max_k (smallest_key m).

(** The loop that splits level 1: the tables that stay, and those to merge. *)
Fixpoint split_l1 (min_k max_k : bytes) (ms : list TableMetadata) : list TableMetadata * list TableMetadata :=
  match ms with
  | [] => ([], [])
  | m :: ms =>
      let '(remaining, overlapping) := split_l1 min_k max_k ms in
      if outside min_k max_k m then (m :: remaining, overlapping) else (remaining, m :: overlapping)
  end.

(** Opening the merge's inputs. *)
Definition read_file (fs : gmap path bytes) (p : path) : outcome io_error bytes :=
  match fs !! p with Some f => Ok f | None => Err NotFound end.

(** [a.smallest_key.cmp(&b.smallest_key)] is not [Greater]. *)
Definition smallest_le (a b : TableMetadata) : Prop := ble (smallest_key a) (smallest_key b).
#[export] Instance smallest_le_dec : RelDecision smallest_le.
Proof. intros a b. unfold smallest_le. apply _. Defined.

(** [.expect(..)]. *)
Definition expect {E A} (r : outcome io_error A) : outcome E A :=
  match r with Ok a => Ok a | Err _ => Panic | Panic => Panic | Ub => Ub end.

Definition set_l1 (ms : list TableMetadata) : st world io_error unit := fun w =>
  let c := compactor w in (mk_world (files w) (mk_LeveledCompactor (db_dir c) (l0 c) ms (next_sst_id c)), Ok tt).
Definition clear_l0 : st world io_error unit := fun w =>
  let c := compactor w in (mk_world (files w) (mk_LeveledCompactor (db_dir c) [] (l1 c) (next_sst_id c)), Ok tt).
(** [next_sst_id.fetch_add(1)]. *)
Definition fetch_sst_id : st world io_error Z := fun w =>
  let c := compactor w in
  (mk_world (files w) (mk_LeveledCompactor (db_dir c) (l0 c) (l1 c) (wrap64 (next_sst_id c + 1))), Ok (next_sst_id c)).
Definition write_path (p : path) (f : bytes) : st world io_error unit := fun w =>
  (mk_world (<[p := f]> (files w)) (compactor w), Ok tt).
Definition remove_files (ps : list path) : st world io_error unit := fun w =>
  (mk_world (foldl (fun fs p => delete p fs) (files w) ps) (compactor w), Ok tt).

(** [StreamingKWayMerge::merge(&inputs, &out_path, true)] on the files; the
    output file is there from its creation on. *)
Definition merge_files (inputs : list path) (out_path : path) : st world io_error Z :=
  w ← get_state;
  fs ← lift (mapM (read_file (files w)) inputs);
  s ← lift (merge_open fs);
  let '(writer, r) := merge_write fs true s in
  write_path out_path (file writer);;
  lift r.

Definition maybe_schedule_compaction : st world io_error (option unit) :=
  w ← get_state;
  let c := compactor w in
  if len (l0 c) <? L0_TRIGGER_COUNT then mret None else
  let l0_files := path_of <$> l0 c in
  match foldl range_step (None, None) (l0 c) with
  | (Some min_k, Some max_k) =>
      let '(remaining_l1, overlapping) := split_l1 min_k max_k (l1 c) in
      set_l1 [];;
      let merge_inputs := l0_files ++ (path_of <$> overlapping) in
      out_id ← fetch_sst_id;
      let out_path := l1_path (db_dir c) out_id in
      (fun w => let '(w, r) := merge_files merge_inputs out_path w in (w, expect r));;
      w ← get_state;
      out ← lift (expect (read_file (files w) out_path));
      reader ← lift (expect (SSTableReader_open out));
      smallest ← lift (get_first_key reader);
      let smallest := default [] smallest in
      let largest := default [] (get_last_key reader) in
      let remaining_l1 := remaining_l1 ++ [mk_TableMetadata out_id out_path smallest largest] in
      set_l1 (merge_sort smallest_le remaining_l1);;
      remove_files merge_inputs;;
      clear_l0;;
      mret (Some tt)
  | _ => lift Panic
  end.

End compaction.

(** ** The invariant *)

Section invariant.
  Context `{FS : FileOpsSpec} `{!BoundedFile F} `{BHS : BinaryHeapSpec}.

Implicit Types (w : world) (t : TableMetadata * list entry) (ts t0s t1s : list (TableMetadata * list entry)).

(** The table of [t.1] holds the entries [t.2]. *)
Definition holds (fs : gmap path bytes) t : Prop :=
  (exists f, fs !! path_of t.1 = Some f /\ full_table f t.2) /\
  smallest_key t.1 = default [] (ekey <$> hd_error t.2) /\
  largest_key t.1 = default [] (ekey <$> last t.2).

(** Every key of [a] is smaller than every key of [b]. *)
Definition apart (a b : list entry) : Prop := forall x y, x ∈ a -> y ∈ b -> blt (ekey x) (ekey y).

Definition l0_ok t : Prop := merge_sorted t.2 /\ t.2 <> [].
Definition l1_ok t : Prop := strictly_sorted t.2 /\ forall e, e ∈ t.2 -> e.1.2 <> None.

Definition paths_of (ts : list (TableMetadata * list entry)) : list path := (fun t => path_of t.1) <$> ts.

(** [t0s] and [t1s] are the tables of the two levels with what they hold. *)
Record levels_ok w (t0s t1s : list (TableMetadata * list entry)) : Prop := {
  lv_l0 : l0 (compactor w) = t0s.*1;
  lv_l1 : l1 (compactor w) = t1s.*1;
  lv_holds : Forall (holds (files w)) (t0s ++ t1s);
  lv_l0_ok : Forall l0_ok t0s;
  lv_l1_ok : Forall l1_ok t1s;
  lv_apart : StronglySorted (fun a b => apart a.2 b.2) t1s;
  lv_smallest : StronglySorted smallest_le t1s.*1;
  lv_paths : NoDup (paths_of (t0s ++ t1s));
  lv_fresh : forall i, is_u64 i -> next_sst_id (compactor w) <= i -> l1_path (db_dir (compactor w)) i ∉ paths_of (t0s ++ t1s)
}.

(** Output tables have names of their own. *)
Lemma l1_path_inj dir i j : is_u64 i -> is_u64 j -> l1_path dir i = l1_path dir j -> i = j.
Proof.
  intros Hi Hj [= Hs]. apply (string_app_inj_l "_L1.sst") in Hs. by apply show_06_inj.
Qed.

Lemma l1_path_other dir c s : digit c = None -> forall dir' i, l1_path dir' i <> mk_path dir (String c s).
Proof.
  intros Hc dir' i. destruct (show_06_first i) as (c' & s' & Hs & Hd). unfold l1_path. rewrite Hs. intros [= _ -> _]. done.
Qed.

(** All the entries of some tables. *)
Definition entries (ts : list (TableMetadata * list entry)) : list entry := concat ts.*2.

(** ** Key ranges *)

Lemma merge_sorted_sorted es : merge_sorted es -> sorted_keys es.
Proof.
  unfold sorted_keys. induction 1 as [|x l Hs IH Hall]; [constructor |]. cbn. constructor; [done |].
  apply Forall_fmap. eapply Forall_impl; [exact Hall |]. intros e. apply before_ble.
Qed.

Lemma sorted_range es e : sorted_keys es -> e ∈ es ->
  ble (default [] (ekey <$> hd_error es)) (ekey e) /\ ble (ekey e) (default [] (ekey <$> last es)).
Proof.
  unfold sorted_keys. intros Hs He. split.
  - destruct es as [|x es]; [inversion He |]. cbn in *. apply StronglySorted_inv in Hs as [_ Hall].
    apply elem_of_cons in He as [-> | He]; [apply ble_refl |]. rewrite Forall_fmap, Forall_forall in Hall. by apply Hall.
  - destruct es as [|x es _] using rev_ind; [inversion He |]. rewrite last_snoc. cbn.
    apply elem_of_app in He as [He | ->%list_elem_of_singleton]; [| apply ble_refl].
    rewrite fmap_app in Hs. eapply (StronglySorted_app_1_elem_of _ _ _ _ _ Hs); [by apply list_elem_of_fmap_2 |].
    constructor.
Qed.

Lemma table_range fs t e : holds fs t -> sorted_keys t.2 -> e ∈ t.2 ->
  ble (smallest_key t.1) (ekey e) /\ ble (ekey e) (largest_key t.1).
Proof. intros (_ & -> & ->) Hs He. by apply sorted_range. Qed.

(** The range of level 0 covers its tables. *)
Lemma range_steps ms lo hi : exists lo' hi', foldl range_step (Some lo, Some hi) ms = (Some lo', Some hi') /\
  ble lo' lo /\ ble hi hi' /\
  forall m : TableMetadata, m ∈ ms -> ble lo' (smallest_key m) /\ ble (largest_key m) hi'.
Proof.
  revert lo hi. induction ms as [|m ms IH]; intros lo hi; cbn [foldl].
  { exists lo, hi. split_and!; [done | apply ble_refl.. |]. intros m Hm. inversion Hm. }
  unfold range_step at 2. cbn [fst snd].
  destruct (IH (if bltb lo (smallest_key m) then lo else smallest_key m)
    (if bltb (largest_key m) hi then hi else largest_key m)) as (lo' & hi' & Hf & Hl & Hh & Hms).
  exists lo', hi'. split; [done |].
  assert (ble lo' lo /\ ble lo' (smallest_key m)) as [Hlo Hlom].
  { destruct (bltb_spec lo (smallest_key m)) as [Hb | Hb%not_blt]; eauto with keys. }
  assert (ble hi hi' /\ ble (largest_key m) hi') as [Hhi Hhim].
  { destruct (bltb_spec (largest_key m) hi) as [Hb | Hb%not_blt]; eauto with keys. }
  split_and!; [done | done |]. intros m' [-> | Hm']%elem_of_cons; [done | by apply Hms].
Qed.

Lemma range_all m ms : exists lo hi, foldl range_step (None, None) (m :: ms) = (Some lo, Some hi) /\
  forall m' : TableMetadata, m' ∈ m :: ms -> ble lo (smallest_key m') /\ ble (largest_key m') hi.
Proof.
  cbn [foldl]. unfold range_step at 2. cbn [fst snd].
  destruct (range_steps ms (smallest_key m) (largest_key m)) as (lo & hi & Hf & Hl & Hh & Hms).
  exists lo, hi. split; [done |]. intros m' [-> | Hm']%elem_of_cons; [done | by apply Hms].
Qed.

Definition stays (lo hi : bytes) t : Prop := outside lo hi t.1 = true.
#[export] Instance stays_dec lo hi t : Decision (stays lo hi t).
Proof. unfold stays. apply _. Defined.

Lemma split_l1_filter lo hi ts : split_l1 lo hi ts.*1 =
  ((filter (stays lo hi) ts).*1, (filter (fun t => ~ stays lo hi t) ts).*1).
Proof.
  induction ts as [|t ts IH]; [done |]. cbn [fmap list_fmap split_l1] in *. rewrite IH, !filter_cons.
  destruct (decide (stays lo hi t)) as [Hs | Hs].
  - rewrite (decide_False (P := ~ _)) by auto. by rewrite (Hs : outside lo hi t.1 = true).
  - rewrite (decide_True (P := ~ _)) by auto. by rewrite (not_true_is_false _ Hs).
Qed.

Lemma stays_spec lo hi t : stays lo hi t <-> blt (largest_key t.1) lo \/ blt hi (smallest_key t.1).
Proof.
  unfold stays, outside. rewrite orb_true_iff.
  by destruct (bltb_spec (largest_key t.1) lo), (bltb_spec hi (smallest_key t.1)); intuition.
Qed.


(** ** Tables that do not share keys *)

Definition disjoint_tables (a b : TableMetadata * list entry) : Prop := apart a.2 b.2 \/ apart b.2 a.2.

Lemma sym_sorted_perm {A} (R : relation A) (l k : list A) : (forall x y, R x y -> R y x) ->
  l ≡ₚ k -> StronglySorted R l -> StronglySorted R k.
Proof.
  intros Hsym. induction 1 as [| x l k Hp IH | x y l | l k m Hp1 IH1 Hp2 IH2]; intros Hs; [done | | | auto].
  - apply StronglySorted_inv in Hs as [Hs Hall]. constructor; [auto |]. by rewrite <- Hp.
  - apply StronglySorted_inv in Hs as [Hs Hy]. apply StronglySorted_inv in Hs as [Hs Hx].
    apply Forall_cons in Hy as [Hyx Hy]. constructor; [by constructor |]. constructor; [by apply Hsym | done].
Qed.

(** Sorted by their smallest keys, tables without common keys are apart. *)
Lemma disjoint_sorted_apart fs ts : Forall (holds fs) ts -> Forall (fun t => sorted_keys t.2) ts ->
  StronglySorted disjoint_tables ts -> StronglySorted smallest_le ts.*1 ->
  StronglySorted (fun a b => apart a.2 b.2) ts.
Proof.
  intros Hh Hk Hd Hs. induction ts as [|t ts IH]; [constructor |]. cbn [fmap list_fmap] in Hs.
  apply StronglySorted_inv in Hs as [Hs Hle]. apply StronglySorted_inv in Hd as [Hd Hdis].
  apply Forall_cons in Hh as [Ht Hh]. apply Forall_cons in Hk as [Htk Hk]. constructor; [by apply IH |].
  apply Forall_forall. intros u Hu. rewrite Forall_fmap in Hle. rewrite Forall_forall in Hle, Hdis, Hh, Hk.
  destruct (Hdis u Hu) as [| Hut]; [done |]. intros x y Hx Hy. exfalso.
  specialize (Hle u Hu). unfold smallest_le in Hle. cbn in Hle.
  (* the first entry of [u] is not above the first entry of [t] *)
  destruct t as [mt [|x0 et]]; [inversion Hx |]. destruct u as [mu [|y0 eu]]; [inversion Hy |].
  destruct Ht as (_ & Hst & _). destruct (Hh _ Hu) as (_ & Hsu & _). cbn in *.
  rewrite Hst, Hsu in Hle. specialize (Hut y0 x0 ltac:(constructor) ltac:(constructor)).
  by destruct (not_blt (ekey y0) (ekey x0)) as [_ Hn]; destruct (Hn Hle Hut).
Qed.

Lemma apart_disjoint ts : StronglySorted (fun a b => apart a.2 b.2) ts -> StronglySorted disjoint_tables ts.
Proof.
  induction 1 as [|t ts Hs IH Hall]; constructor; [done |]. eapply Forall_impl; [exact Hall |]. intros u. by left.
Qed.

Lemma filter_perm (P : TableMetadata * list entry -> Prop) `{forall x, Decision (P x)} ts :
  ts ≡ₚ filter P ts ++ filter (fun t => ~ P t) ts.
Proof. symmetry. apply filter_app_complement. Qed.

(** Different tables of a level do not share keys. *)
Lemma disjoint_elem ts a b : StronglySorted disjoint_tables ts -> a ∈ ts -> b ∈ ts -> a = b \/ disjoint_tables a b.
Proof.
  induction 1 as [|t ts Hs IH Hall]; intros Ha Hb; [inversion Ha |]. rewrite Forall_forall in Hall.
  apply elem_of_cons in Ha as [-> | Ha]; apply elem_of_cons in Hb as [-> | Hb].
  - by left.
  - right. by apply Hall.
  - right. destruct (Hall a Ha); [by right | by left].
  - by apply IH.
Qed.

(** A level whose tables are sorted and apart is one sorted list. *)
Lemma level_strictly_sorted ts : Forall l1_ok ts -> StronglySorted (fun a b => apart a.2 b.2) ts ->
  strictly_sorted (entries ts).
Proof.
  intros Hok. induction 1 as [|t ts Hs IH Hall]; [constructor |]. apply Forall_cons in Hok as [[Ht _] Hok].
  unfold strictly_sorted, entries in *. cbn [fmap list_fmap concat]. rewrite fmap_app.
  apply StronglySorted_app_2; [| done | by apply IH]. intros k1 k2 Hk1 Hk2.
  apply list_elem_of_fmap in Hk1 as (x & -> & Hx). apply list_elem_of_fmap in Hk2 as (y & -> & Hy).
  apply list_elem_of_In, in_concat in Hy as (es & Hes & Hy). apply list_elem_of_In in Hes, Hy.
  apply list_elem_of_fmap in Hes as (u & -> & Hu). rewrite Forall_forall in Hall. by apply (Hall u Hu).
Qed.

Lemma entries_elem ts e : e ∈ entries ts <-> exists t, t ∈ ts /\ e ∈ t.2.
Proof.
  unfold entries. rewrite list_elem_of_In, in_concat. split.
  - intros (es & Hes & He). apply list_elem_of_In in Hes, He. apply list_elem_of_fmap in Hes as (t & -> & Ht). eauto.
  - intros (t & Ht & He). exists t.2. split; apply list_elem_of_In; [by apply list_elem_of_fmap_2 | done].
Qed.

Lemma entries_perm ts ts' : ts ≡ₚ ts' -> entries ts ≡ₚ entries ts'.
Proof. intros Hp. unfold entries. by rewrite Hp. Qed.

Lemma entries_app ts ts' : entries (ts ++ ts') = entries ts ++ entries ts'.
Proof. unfold entries. by rewrite fmap_app, concat_app. Qed.

(** ** What stays is apart from what is merged *)

Lemma l1_sorted t : l1_ok t -> sorted_keys t.2.
Proof. intros [Hs _]. by apply strictly_sorted_sorted. Qed.
Lemma l0_sorted t : l0_ok t -> sorted_keys t.2.
Proof. intros [Hs _]. by apply merge_sorted_sorted. Qed.

Lemma apart_sub a b a' b' : (forall e, e ∈ a' -> e ∈ a) -> (forall e, e ∈ b' -> e ∈ b) -> apart a b -> apart a' b'.
Proof. intros Ha Hb Hab x y Hx Hy. apply Hab; auto. Qed.

Lemma apart_keys a b x y : apart a b \/ apart b a -> x ∈ a -> y ∈ b -> ekey x <> ekey y.
Proof.
  intros [Hab | Hab] Hx Hy Heq; [specialize (Hab x y Hx Hy) | specialize (Hab y x Hy Hx)];
    rewrite Heq in Hab; by destruct (blt_irrefl (ekey y)).
Qed.

(** A level-1 table that stays lies on one side of all that is merged. *)
Lemma merged_apart w t0s t1s lo hi r : levels_ok w t0s t1s ->
  (forall t, t ∈ t0s -> ble lo (smallest_key t.1) /\ ble (largest_key t.1) hi) ->
  r ∈ t1s -> stays lo hi r ->
  let merged := entries (t0s ++ filter (fun t => ~ stays lo hi t) t1s) in
  apart r.2 merged \/ apart merged r.2.
Proof.
  intros Hlv Hrange Hr Hst merged. destruct Hlv as [_ _ Hholds Hl0 Hl1 Hapart _ _ _].
  apply Forall_app in Hholds as [Hh0 Hh1]. rewrite Forall_forall in Hh0, Hh1, Hl0, Hl1.
  assert (forall e, e ∈ r.2 -> ble (smallest_key r.1) (ekey e) /\ ble (ekey e) (largest_key r.1)) as Hre.
  { intros e. apply (table_range (files w)); [by apply Hh1 | by apply l1_sorted, Hl1]. }
  assert (forall e, e ∈ merged -> (exists t, t ∈ t0s /\ e ∈ t.2 /\ ble lo (ekey e) /\ ble (ekey e) hi) \/
    exists o, o ∈ t1s /\ ~ stays lo hi o /\ e ∈ o.2 /\ ble (smallest_key o.1) (ekey e) /\ ble (ekey e) (largest_key o.1)) as Hm.
  { intros e (t & Ht & He)%entries_elem. apply elem_of_app in Ht as [Ht | Ht].
    - left. exists t. destruct (table_range (files w) t e (Hh0 t Ht) (l0_sorted t (Hl0 t Ht)) He) as [H1 H2].
      destruct (Hrange t Ht) as [H3 H4]. split_and!; [done | done | |]; by etrans.
    - apply list_elem_of_filter in Ht as [Hns Ht]. right. exists t.
      destruct (table_range (files w) t e (Hh1 t Ht) (l1_sorted t (Hl1 t Ht)) He). by split_and!. }
  pose proof (apart_disjoint _ Hapart) as Hdis. apply stays_spec in Hst as [Hst | Hst].
  - left. intros x y Hx Hy. destruct (Hre x Hx) as [_ Hxl].
    destruct (Hm y Hy) as [(t & _ & _ & Hlo & _) | (o & Ho & Hns & Hyo & _ & Hyl)].
    + eapply ble_blt_trans; [exact Hxl |]. eapply blt_ble_trans; [exact Hst | exact Hlo].
    + destruct (disjoint_elem t1s r o Hdis Hr Ho) as [<- | [Ha | Ha]].
      * destruct Hns. apply stays_spec. by left.
      * by apply Ha.
      * exfalso. apply Hns, stays_spec. left.
        destruct (Hh1 o Ho) as (_ & _ & ->). destruct (last o.2) as [z|] eqn:Hz.
        -- cbn. apply last_Some in Hz as [o' Ho']. eapply blt_trans; [apply (Ha z x); [| done] |].
           ++ rewrite Ho'. apply elem_of_app. right. constructor.
           ++ by eapply ble_blt_trans.
        -- apply last_None in Hz. rewrite Hz in Hyo. inversion Hyo.
  - right. intros y x Hy Hx. destruct (Hre x Hx) as [Hxs _].
    destruct (Hm y Hy) as [(t & _ & _ & _ & Hhi) | (o & Ho & Hns & Hyo & Hys & _)].
    + eapply ble_blt_trans; [exact Hhi |]. eapply blt_ble_trans; [exact Hst | exact Hxs].
    + destruct (disjoint_elem t1s r o Hdis Hr Ho) as [<- | [Ha | Ha]].
      * destruct Hns. apply stays_spec. by right.
      * exfalso. apply Hns, stays_spec. right.
        destruct (Hh1 o Ho) as (_ & -> & _). destruct o.2 as [|z o2] eqn:Hz; [inversion Hyo |]. cbn.
        eapply blt_trans; [exact Hst |]. eapply ble_blt_trans; [exact Hxs |]. apply (Ha x z Hx). constructor.
      * by apply Ha.
Qed.

(** ** The newest versions survive *)

Lemma strict_lookup es e : strictly_sorted es -> e ∈ es -> lookup_entries es (ekey e) = Some (eval e).
Proof.
  intros Hs He. induction es as [|x es IH]; [inversion He |]. unfold strictly_sorted in Hs. cbn in Hs.
  apply StronglySorted_inv in Hs as [Hs Hall]. rewrite lookup_entries_cons.
  apply elem_of_cons in He as [-> | He]; [by rewrite decide_True |].
  rewrite decide_False; [by apply IH |]. intros Heq. rewrite Forall_fmap, Forall_forall in Hall.
  specialize (Hall e He). cbn in Hall. rewrite Heq in Hall. by destruct (blt_irrefl (ekey e)).
Qed.

Lemma newest_extra b (es extra : list entry) k r : k ∉ ekey <$> extra -> newest_version b es k r -> newest_version b (es ++ extra) k r.
Proof.
  intros Hk. assert (forall v q, is_newest es k v q -> is_newest (es ++ extra) k v q) as Hn.
  { intros v q [Hin Hmax]. split; [apply elem_of_app; by left |]. intros v' q' [Hin' | Hin']%elem_of_app; [by eapply Hmax |].
    destruct Hk. by apply (list_elem_of_fmap_2 ekey _ _ Hin'). }
  destruct r as [[v q]|]; cbn.
  - intros [? ?]. auto.
  - intros [Hno | [? [q Hq]]]; [left | right; eauto]. rewrite fmap_app, elem_of_app. tauto.
Qed.

Lemma lookup_none_sub (es es' : list entry) k : (forall e, e ∈ es -> ekey e = k -> e ∈ es') -> k ∉ ekey <$> es' -> lookup_entries es k = None.
Proof.
  intros Hsub Hk. apply lookup_entries_none, not_in_keys. intros e He Heq. apply Hk. rewrite <- Heq.
  apply list_elem_of_fmap_2. by apply Hsub.
Qed.

(** [stay] and [out] are apart; together they are the new level 1. *)
Lemma merged_newest (merged stay out new : list entry) k :
  (forall x y, x ∈ stay -> y ∈ merged -> ekey x <> ekey y) -> strictly_sorted new -> new ≡ₚ stay ++ out ->
  (forall e, e ∈ out -> e ∈ merged) -> (forall e, e ∈ stay -> e.1.2 <> None) ->
  newest_version true merged k (lookup_entries out k) ->
  newest_version true (merged ++ stay) k (lookup_entries new k).
Proof.
  intros Hsep Hs Hp Hsub Hlive Hnew.
  assert (forall e, e ∈ new <-> e ∈ stay \/ e ∈ out) as Hin by (intros e; rewrite Hp; apply elem_of_app).
  destruct (decide (k ∈ ekey <$> merged)) as [Hk | Hk].
  - (* a key that was merged *)
    assert (k ∉ ekey <$> stay) as Hks.
    { apply list_elem_of_fmap in Hk as (y & -> & Hy). apply not_in_keys. intros x Hx. by apply Hsep. }
    apply newest_extra; [done |]. enough (lookup_entries new k = lookup_entries out k) as -> by done.
    destruct (lookup_entries out k) as [v|] eqn:Hl.
    + apply lookup_entries_elem in Hl as (e & He & <- & <-). apply strict_lookup; [done |]. apply Hin. by right.
    + apply (lookup_none_sub new out); [| by apply lookup_entries_none].
      intros e [He | He]%Hin Heq; [| done]. destruct Hks. rewrite <- Heq. by apply list_elem_of_fmap_2.
  - (* a key outside *)
    destruct (lookup_entries new k) as [[v q]|] eqn:Hl; cbn.
    + apply lookup_entries_elem in Hl as ([[k' v'] q'] & He & Hk' & Hv). cbn in Hk', Hv. injection Hv as -> ->. subst k'.
      apply Hin in He as [He | He]; [| destruct Hk; apply (list_elem_of_fmap_2 ekey _ (k, v, q)); by apply Hsub].
      split; [split |].
      * apply elem_of_app. by right.
      * intros v'' q'' [Hm | Hst]%elem_of_app; [destruct Hk; by apply (list_elem_of_fmap_2 ekey _ (k, v'', q'')) |].
        pose proof (strict_lookup new (k, v'', q'') Hs) as H1. pose proof (strict_lookup new (k, v, q) Hs) as H2.
        rewrite !Hin in H1, H2. specialize (H1 (or_introl Hst)). specialize (H2 (or_introl He)).
        cbn in H1, H2. rewrite H1 in H2. injection H2 as -> ->. lia.
      * intros _. by apply (Hlive (k, v, q)).
    + left. rewrite fmap_app, elem_of_app. intros [? | Hst]; [done |].
      apply lookup_entries_none in Hl. apply Hl. apply list_elem_of_fmap in Hst as (e & -> & He).
      apply list_elem_of_fmap_2, Hin. by left.
Qed.

(** ** The merge on files *)

Lemma strict_merge_sorted es : strictly_sorted es -> merge_sorted es.
Proof.
  unfold strictly_sorted, merge_sorted. induction es as [|e es IH]; [constructor |]. cbn.
  intros Hs. apply StronglySorted_inv in Hs as [Hs Hall]. constructor; [by apply IH |].
  rewrite Forall_fmap in Hall. eapply Forall_impl; [exact Hall |]. intros x Hx. by left.
Qed.

Lemma read_files fs ts : Forall (holds fs) ts ->
  exists fls, mapM (read_file fs) (paths_of ts) = Ok fls /\ Forall2 is_table fls ts.*2.
Proof.
  induction 1 as [|t ts ((f & Hf & Ht) & _) _ (fls & Hm & Hall)]; [by exists [] |].
  exists (f :: fls). unfold paths_of in *. cbn [fmap list_fmap mapM].
  assert (read_file fs (path_of t.1) = Ok f) as -> by (unfold read_file; by rewrite Hf).
  cbn [mbind outcome_bind]. rewrite Hm. split; [done | constructor; [by apply full_is_table | done]].
Qed.

(** The files that a compaction merges: level 0 and what overlaps it. *)
Definition merge_inputs (c : LeveledCompactor) : list path :=
  match foldl range_step (None, None) (l0 c) with
  | (Some min_k, Some max_k) => (path_of <$> l0 c) ++ (path_of <$> (split_l1 min_k max_k (l1 c)).2)
  | _ => []
  end.

(** The table that the merge of these files builds. *)
Definition merged_table (fs : gmap path bytes) (inputs : list path) (f : bytes) : Prop :=
  exists fls, mapM (read_file fs) inputs = Ok fls /\ f = merged_file fls true.

Lemma merge_files_run w ts out_path : Forall (holds (files w)) ts -> Forall merge_sorted ts.*2 ->
  match merge_files (paths_of ts) out_path w with
  | (w', Ok _) => compactor w' = compactor w /\ exists f out, files w' = <[out_path := f]> (files w) /\
      full_table f out /\ l1_ok (mk_TableMetadata 0 out_path [] [], out) /\
      (forall e, e ∈ out -> e ∈ entries ts) /\
      forall k, newest_version true (entries ts) k (lookup_entries out k)
  | (_, Err _) => exists f, merged_table (files w) (paths_of ts) f /\ table_fails f
  | _ => False
  end.
Proof.
  intros Hh Hs. destruct (read_files _ _ Hh) as (fls & Hm & Ht).
  unfold merge_files, mbind, st_bind, get_state, lift. rewrite Hm.
  assert (table_fails (merged_file fls true) ->
    exists f, merged_table (files w) (paths_of ts) f /\ table_fails f) as Hfail.
  { intros Hf. exists (merged_file fls true). split; [by exists fls | done]. }
  pose proof (merge_ends fls ts.*2 true Ht Hs) as Hr. destruct (merge fls true) as [s r] eqn:Hmerge.
  pose proof Hmerge as Hmerge'. unfold merge in Hmerge'.
  destruct (merge_open fls) as [s0 | | |]; cbv beta iota; [rewrite Hmerge' | injection Hmerge' as <- <-; cbn in Hr; by try apply Hfail..].
  unfold write_path. cbv beta iota. destruct r as [n | | |]; cbn in Hr; try done; [| by apply Hfail].
  destruct Hr as (out & Hw & Hsorted & Hin & Hnew). split; [done |]. exists (file s), out.
  destruct (merge_wrote _ _ _ _ Hmerge) as (f & d & Hwr). apply write_all_bound in Hwr.
  split; [done |]. split; [by eapply merged_is_full |]. split; [| done]. split; [done |].
  intros [[k v] q] He. cbn. pose proof (strict_lookup out _ Hsorted He) as Hl. specialize (Hnew k).
  cbn in Hl. rewrite Hl in Hnew. by apply Hnew.
Qed.

(** ** Sorting the metadata *)

Lemma sort_tables ts : exists ts', merge_sort smallest_le ts.*1 = ts'.*1 /\ ts' ≡ₚ ts /\
  StronglySorted smallest_le ts'.*1.
Proof.
  assert (Transitive smallest_le) by (intros a b c; apply ble_trans).
  assert (Total smallest_le).
  { intros a b. unfold smallest_le. destruct (blt_trichotomy (smallest_key a) (smallest_key b)) as [? | [-> | ?]];
      [left | left | right]; eauto with keys. }
  destruct (Permutation_map_inv fst ts (merge_sort_Permutation smallest_le ts.*1)) as (ts' & Heq & Hp).
  exists ts'. split; [done |]. split; [done |]. change (ts'.*1) with (map fst ts'). rewrite <- Heq.
  by apply StronglySorted_merge_sort.
Qed.

(** Removing files that no table uses. *)
Lemma foldl_delete_lookup (ps : list path) (fs : gmap path bytes) p : p ∉ ps ->
  foldl (fun fs p => delete p fs) fs ps !! p = fs !! p.
Proof.
  revert fs. induction ps as [|x ps IH]; intros fs Hp; [done |]. apply not_elem_of_cons in Hp as [Hx Hp].
  cbn. rewrite IH by done. by rewrite lookup_delete_ne.
Qed.

Lemma holds_files fs fs' t : fs' !! path_of t.1 = fs !! path_of t.1 -> holds fs t -> holds fs' t.
Proof. intros He ((f & Hf & Ht) & Hs & Hl). split_and!; [exists f; by rewrite He | done | done]. Qed.

(** The key range read back from the table just written. *)
Lemma output_range f out : is_table f out -> exists r, SSTableReader_open f = Ok r /\
  (forall E, get_first_key (E := E) r = Ok (ekey <$> hd_error out)) /\ get_last_key r = ekey <$> last out.
Proof.
  intros (bs & filt & -> & <- & Hok). exists (table_reader bs filt). split; [by apply table_open |].
  split; [intros E; by apply table_first_last | by apply (table_first_last (E := unit))].
Qed.

(** ** The new levels *)

(** The table of a merge does not share keys with the tables that stay. *)
Lemma stay_disjoint w t0s t1s lo hi o : levels_ok w t0s t1s ->
  (forall t, t ∈ t0s -> ble lo (smallest_key t.1) /\ ble (largest_key t.1) hi) ->
  (forall e, e ∈ o.2 -> e ∈ entries (t0s ++ filter (fun t => ~ stays lo hi t) t1s)) ->
  StronglySorted disjoint_tables (filter (stays lo hi) t1s ++ [o]).
Proof.
  intros Hlv Hrange Hsub. apply StronglySorted_app_2; [| by apply sorted_filter, apart_disjoint, (lv_apart w t0s) |].
  - intros r u Hr ->%list_elem_of_singleton. apply list_elem_of_filter in Hr as [Hst Hr].
    destruct (merged_apart w t0s t1s lo hi r Hlv Hrange Hr Hst) as [Ha | Ha]; [left | right];
      by eapply apart_sub; [| | exact Ha].
  - repeat constructor.
Qed.

Lemma filter_paths_nodup (P : TableMetadata * list entry -> Prop) `{forall x, Decision (P x)} ts :
  NoDup (paths_of ts) -> NoDup (paths_of (filter P ts)).
Proof.
  unfold paths_of. induction ts as [|t ts IH]; [done |]. cbn [fmap list_fmap]. intros [Ht Hnd]%NoDup_cons.
  rewrite filter_cons. case_decide; [| by apply IH]. cbn [fmap list_fmap]. constructor; [| by apply IH].
  intros (u & Hu & Hin)%list_elem_of_fmap. apply Ht. rewrite Hu. apply list_elem_of_filter in Hin as [_ Hin].
  by apply (list_elem_of_fmap_2 (fun t => path_of t.1)).
Qed.

Lemma paths_in ts t : t ∈ ts -> path_of t.1 ∈ paths_of ts.
Proof. apply (list_elem_of_fmap_2 (fun t => path_of t.1)). Qed.

(** [t1s] with the tables that do not stay replaced by [o], which holds what was
    merged out of them and of level 0. *)
Lemma new_levels w w' t0s t1s lo hi o : levels_ok w t0s t1s ->
  (forall t, t ∈ t0s -> ble lo (smallest_key t.1) /\ ble (largest_key t.1) hi) ->
  let merged := t0s ++ filter (fun t => ~ stays lo hi t) t1s in
  let stay := filter (stays lo hi) t1s in
  0 <= next_sst_id (compactor w) < 2 ^ 64 - 1 ->
  holds (files w') o -> l1_ok o -> (forall e, e ∈ o.2 -> e ∈ entries merged) ->
  path_of o.1 = l1_path (db_dir (compactor w)) (next_sst_id (compactor w)) ->
  (forall p, p ∈ paths_of stay -> files w' !! p = files w !! p) ->
  compactor w' = mk_LeveledCompactor (db_dir (compactor w)) [] (merge_sort smallest_le ((stay ++ [o]).*1)) (wrap64 (next_sst_id (compactor w) + 1)) ->
  exists t1s', levels_ok w' [] t1s' /\ t1s' ≡ₚ stay ++ [o].
Proof.
  intros Hlv Hrange merged stay Hid Ho Hook Hosub Hpath Hfiles Hc.
  destruct (sort_tables (stay ++ [o])) as (t1s' & Hsort & Hperm & Hsorted).
  assert (forall r, r ∈ stay -> r ∈ t1s /\ stays lo hi r) as Hstay.
  { intros r Hr. apply list_elem_of_filter in Hr as [? ?]. done. }
  rewrite Hsort in Hc. exists t1s'. pose proof (stay_disjoint w t0s t1s lo hi o Hlv Hrange Hosub) as Hdis.
  destruct Hlv as [_ _ Hholds _ Hl1k Hapart _ Hpaths Hfresh].
  assert (forall P, (forall r, r ∈ stay -> P r) -> P o -> Forall P t1s') as Hall.
  { intros P HPr HPo. rewrite Hperm. apply Forall_app. split; [by apply Forall_forall | by constructor]. }
  assert (forall i, is_u64 i -> next_sst_id (compactor w) <= i -> l1_path (db_dir (compactor w)) i ∉ paths_of stay) as Hfr.
  { intros i Hu Hi (r & Hr & Hin)%list_elem_of_fmap. apply (Hfresh i Hu Hi). rewrite Hr. apply paths_in, elem_of_app. right. by apply Hstay. }
  rewrite Forall_forall in Hholds, Hl1k.
  assert (Forall (holds (files w')) t1s') as Hh'.
  { apply Hall; [| done]. intros r Hr. apply (holds_files (files w)); [by apply Hfiles, paths_in |].
    apply Hholds, elem_of_app. right. by apply Hstay. }
  assert (Forall l1_ok t1s') as Hok' by (apply Hall; [intros r Hr; by apply Hl1k, Hstay | done]).
  assert (StronglySorted (fun a b => apart a.2 b.2) t1s') as Hap'.
  { apply (disjoint_sorted_apart (files w')); [done | | | done].
    - eapply Forall_impl; [exact Hok' |]. intros t. apply l1_sorted.
    - eapply sym_sorted_perm; [| symmetry; exact Hperm | exact Hdis]. intros x y [?|?]; [by right | by left]. }
  split; [| done]. split; rewrite ?Hc; cbn [db_dir l0 l1 next_sst_id app]; try done.
  - unfold paths_of in *. rewrite Hperm, fmap_app. cbn. apply NoDup_app. split_and!.
    + apply filter_paths_nodup. rewrite fmap_app in Hpaths. by apply NoDup_app in Hpaths as (_ & _ & ?).
    + intros p Hp ->%list_elem_of_singleton. rewrite Hpath in Hp. apply (Hfr (next_sst_id (compactor w))); [unfold is_u64; lia | done | done].
    + constructor; [intros Hin; inversion Hin | constructor].
  - intros i Hu Hi. rewrite wrap64_small in Hi by (unfold is_u64; lia). unfold paths_of. rewrite Hperm, fmap_app, elem_of_app.
    intros [Hin | Hin]; [by apply (Hfr i ltac:(done) ltac:(lia)) |]. cbn in Hin. apply list_elem_of_singleton in Hin.
    rewrite Hpath in Hin. apply l1_path_inj in Hin; [lia | done | unfold is_u64; lia].
Qed.

Lemma new_levels_newest w w' t0s t1s t1s' lo hi o : levels_ok w t0s t1s -> levels_ok w' [] t1s' ->
  (forall t, t ∈ t0s -> ble lo (smallest_key t.1) /\ ble (largest_key t.1) hi) ->
  let merged := t0s ++ filter (fun t => ~ stays lo hi t) t1s in
  let stay := filter (stays lo hi) t1s in
  t1s' ≡ₚ stay ++ [o] -> (forall e, e ∈ o.2 -> e ∈ entries merged) ->
  (forall k, newest_version true (entries merged) k (lookup_entries o.2 k)) ->
  forall k, newest_version true (entries (t0s ++ t1s)) k (lookup_entries (entries t1s') k).
Proof.
  intros Hlv Hlv' Hrange merged stay Hperm Hosub Hnew k.
  assert (forall r, r ∈ stay -> r ∈ t1s /\ stays lo hi r) as Hstay.
  { intros r Hr. by apply list_elem_of_filter in Hr as [? ?]. }
  apply (newest_version_perm _ (entries merged ++ entries stay)).
  { rewrite <- entries_app. apply entries_perm. unfold merged, stay. rewrite <- app_assoc.
    apply Permutation_app; [done |]. rewrite Permutation_app_comm. symmetry. apply filter_perm. }
  apply (merged_newest _ _ o.2); try done.
  - intros x y (r & Hr & Hx)%entries_elem Hy. destruct (Hstay r Hr) as [Hr1 Hrs].
    eapply apart_keys; [exact (merged_apart w t0s t1s lo hi r Hlv Hrange Hr1 Hrs) | exact Hx | exact Hy].
  - apply level_strictly_sorted; [apply (lv_l1_ok w' [] _ Hlv') | apply (lv_apart w' [] _ Hlv')].
  - rewrite (entries_perm _ _ Hperm), entries_app. unfold entries at 3. cbn. by rewrite app_nil_r.
  - intros e (r & Hr & He)%entries_elem. pose proof (lv_l1_ok w t0s _ Hlv) as Hl1. rewrite Forall_forall in Hl1.
    by apply (Hl1 r (proj1 (Hstay r Hr))).
Qed.

(** ** [maybe_schedule_compaction] *)

Lemma input_paths ts ts' : (path_of <$> ts.*1) ++ (path_of <$> ts'.*1) = paths_of (ts ++ ts').
Proof. unfold paths_of. by rewrite fmap_app, <- !list_fmap_compose. Qed.

(** What is merged, and where the files of what is not merged are. *)
Lemma merged_ok w t0s t1s lo hi : levels_ok w t0s t1s ->
  let merged := t0s ++ filter (fun t => ~ stays lo hi t) t1s in
  Forall (holds (files w)) merged /\ Forall merge_sorted merged.*2.
Proof.
  intros [_ _ Hh Hl0 Hl1 _ _ _ _] merged. apply Forall_app in Hh as [Hh0 Hh1]. split.
  - apply Forall_app. split; [done |]. apply Forall_forall. intros t Ht.
    apply list_elem_of_filter in Ht as [_ Ht]. rewrite Forall_forall in Hh1. by apply Hh1.
  - apply Forall_fmap, Forall_app. split; [eapply Forall_impl; [exact Hl0 |]; by intros t [? _] |].
    apply Forall_forall. intros t Ht. apply list_elem_of_filter in Ht as [_ Ht].
    rewrite Forall_forall in Hl1. by apply strict_merge_sorted, Hl1.
Qed.

Lemma not_merged lo hi t0s t1s p : p ∉ paths_of (t0s ++ t1s) ->
  p ∉ paths_of (t0s ++ filter (fun t => ~ stays lo hi t) t1s).
Proof.
  intros Hp (t & -> & Ht)%list_elem_of_fmap. apply Hp, paths_in. apply elem_of_app in Ht as [Ht | Ht];
    apply elem_of_app; [by left | right]. by apply list_elem_of_filter in Ht as [_ ?].
Qed.

Lemma stay_path lo hi t0s t1s p : p ∈ paths_of (filter (stays lo hi) t1s) -> p ∈ paths_of (t0s ++ t1s).
Proof.
  intros (t & -> & Ht)%list_elem_of_fmap. apply paths_in, elem_of_app. right. by apply list_elem_of_filter in Ht as [_ ?].
Qed.

Lemma paths_inj ts a b : NoDup (paths_of ts) -> a ∈ ts -> b ∈ ts -> path_of a.1 = path_of b.1 -> a = b.
Proof.
  unfold paths_of. induction ts as [|t ts IH]; [intros _ Hin; inversion Hin |]. cbn [fmap list_fmap].
  intros [Ht Hnd]%NoDup_cons [-> | Ha]%elem_of_cons [-> | Hb]%elem_of_cons Heq; [done | | | by apply IH].
  - destruct Ht. rewrite Heq. by apply (list_elem_of_fmap_2 (fun t => path_of t.1)).
  - destruct Ht. rewrite <- Heq. by apply (list_elem_of_fmap_2 (fun t => path_of t.1)).
Qed.

Lemma stay_not_merged w lo hi t0s t1s p : levels_ok w t0s t1s -> p ∈ paths_of (filter (stays lo hi) t1s) ->
  p ∉ paths_of (t0s ++ filter (fun t => ~ stays lo hi t) t1s).
Proof.
  intros Hlv (t & -> & Ht)%list_elem_of_fmap (u & Hu & Hin)%list_elem_of_fmap.
  apply list_elem_of_filter in Ht as [Hst Ht]. pose proof (lv_paths w t0s t1s Hlv) as Hnd.
  apply elem_of_app in Hin as [Hin | Hin].
  - unfold paths_of in Hnd. rewrite fmap_app in Hnd. apply NoDup_app in Hnd as (_ & Hnd & _).
    apply (Hnd (path_of u.1)); [by apply paths_in | rewrite <- Hu; by apply paths_in].
  - apply list_elem_of_filter in Hin as [Hns Hin].
    assert (t = u) as -> by (eapply (paths_inj _ _ _ Hnd); [apply elem_of_app; by right.. | done]). done.
Qed.

(** What a call leaves: the same world below the trigger; else levels in order
    with an empty level 0 and the newest version of every key, in tables that
    were in level 1 or at the one new path; a panic only when the table that
    this very compaction merges cannot be written. *)
Definition compaction_post w t0s t1s (r : world * outcome io_error (option unit)) : Prop :=
  match r with
  | (w', Ok None) => w' = w /\ len t0s < L0_TRIGGER_COUNT
  | (w', Ok (Some _)) => L0_TRIGGER_COUNT <= len t0s /\ exists t1s', levels_ok w' [] t1s' /\
      db_dir (compactor w') = db_dir (compactor w) /\ next_sst_id (compactor w') = next_sst_id (compactor w) + 1 /\
      (forall p, p ∈ paths_of t1s' -> p ∈ paths_of t1s \/ p = l1_path (db_dir (compactor w)) (next_sst_id (compactor w))) /\
      forall k, newest_version true (entries (t0s ++ t1s)) k (lookup_entries (entries t1s') k)
  | (_, Panic) => L0_TRIGGER_COUNT <= len t0s /\
      exists f, merged_table (files w) (merge_inputs (compactor w)) f /\ table_fails f
  | _ => False
  end.

Lemma compaction_run w t0s t1s : levels_ok w t0s t1s -> 0 <= next_sst_id (compactor w) < 2 ^ 64 - 1 ->
  compaction_post w t0s t1s (maybe_schedule_compaction w).
Proof.
  intros Hlv Hid. unfold maybe_schedule_compaction. unfold mbind at 1, st_bind at 1, get_state at 1.
  rewrite (lv_l0 w t0s t1s Hlv), (lv_l1 w t0s t1s Hlv), len_fmap.
  destruct (Z.ltb_spec (len t0s) L0_TRIGGER_COUNT) as [Hlt | Hge]; [done |].
  destruct t0s as [|t ts]; [by unfold len, L0_TRIGGER_COUNT in Hge; cbn in Hge; lia |].
  destruct (range_all t.1 ts.*1) as (lo & hi & Hf & Hrange).
  change (foldl range_step (None, None) (t :: ts).*1) with (foldl range_step (None, None) (t.1 :: ts.*1)).
  rewrite Hf, split_l1_filter, input_paths.
  set (t0s := t :: ts) in *. set (stay := filter (stays lo hi) t1s).
  set (merged := t0s ++ filter (fun t => ~ stays lo hi t) t1s).
  assert (forall u, u ∈ t0s -> ble lo (smallest_key u.1) /\ ble (largest_key u.1) hi) as Hr0.
  { intros u Hu. apply (Hrange u.1). by apply (list_elem_of_fmap_2 fst _ u Hu). }
  unfold mbind, st_bind, get_state, lift, set_l1, fetch_sst_id, remove_files, clear_l0. cbn [compactor files db_dir l0 l1 next_sst_id].
  set (out_path := l1_path (db_dir (compactor w)) (next_sst_id (compactor w))).
  set (w2 := mk_world (files w) (mk_LeveledCompactor (db_dir (compactor w)) (l0 (compactor w)) [] (wrap64 (next_sst_id (compactor w) + 1)))).
  destruct (merged_ok w t0s t1s lo hi Hlv) as [Hh Hms].
  pose proof (merge_files_run w2 merged out_path Hh Hms) as Hm.
  destruct (merge_files (paths_of merged) out_path w2) as [w3 [n | | |]]; try done; cycle 1.
  { split; [done |]. destruct Hm as (t' & Ht' & Hfail). exists t'. split; [| done]. unfold merge_inputs.
    rewrite (lv_l0 w t0s t1s Hlv), (lv_l1 w t0s t1s Hlv). unfold t0s at 1.
    change (foldl range_step (None, None) (t :: ts).*1) with (foldl range_step (None, None) (t.1 :: ts.*1)).
    rewrite Hf, split_l1_filter. cbn [snd]. by rewrite input_paths. }
  destruct Hm as (Hc3 & f & out & Hf3 & Htab & Hook & Hosub & Hnew). cbn [expect].
  unfold read_file. rewrite Hf3, lookup_insert_eq. cbn [expect].
  destruct (output_range f out (full_is_table f out Htab)) as (r & -> & Hfirst & Hlast). cbn [expect]. rewrite Hfirst, Hlast, Hc3.
  set (o := (mk_TableMetadata (next_sst_id (compactor w)) out_path (default [] (ekey <$> hd_error out))
    (default [] (ekey <$> last out)), out)).
  change (stay.*1 ++ [_]) with (stay.*1 ++ [o].*1). rewrite <- (fmap_app fst stay [o]). cbn [compactor w2 next_sst_id].
  set (w' := mk_world _ _). change (compaction_post w t0s t1s (w', Ok (Some tt))).
  assert (out_path ∉ paths_of (t0s ++ t1s)) as Hfresh by (apply (lv_fresh w t0s t1s Hlv); unfold is_u64; lia).
  assert (forall p, p ∉ paths_of merged -> p <> out_path -> files w' !! p = files w !! p) as Hkeep.
  { intros p Hp Hne. unfold w', w2. cbn [files]. rewrite foldl_delete_lookup by done. by rewrite lookup_insert_ne by done. }
  assert (holds (files w') o) as Ho.
  { split_and!; [| done | done]. exists f. split; [| done]. unfold w', w2. cbn [files].
    rewrite foldl_delete_lookup by (by apply not_merged).
    apply lookup_insert_eq. }
  destruct (new_levels w w' t0s t1s lo hi o Hlv Hr0 Hid Ho Hook Hosub) as (t1s' & Hlv' & Hperm); [done | | done |].
  { intros p Hp. apply Hkeep; [by eapply stay_not_merged | intros ->; by apply Hfresh, (stay_path lo hi)]. }
  split; [done |]. exists t1s'. split; [done |]. split; [done |]. split; [apply wrap64_small; unfold is_u64; lia |].
  split; [| by apply (new_levels_newest w w' t0s t1s t1s' lo hi o)].
  intros p (u & -> & Hu)%list_elem_of_fmap. rewrite Hperm in Hu. apply elem_of_app in Hu as [Hu | ->%list_elem_of_singleton].
  - left. apply list_elem_of_filter in Hu as [_ Hu]. by apply paths_in.
  - by right.
Qed.

(** ** A table joins level 0 *)

Lemma empty_levels fs dir i : levels_ok (mk_world fs (LeveledCompactor_new dir i)) [] [].
Proof. split; try done; try constructor. intros j _ _ Hin. inversion Hin. Qed.

Lemma add_l0_levels w t0s t1s p f es : levels_ok w t0s t1s -> full_table f es -> merge_sorted es -> es <> [] ->
  p ∉ paths_of (t0s ++ t1s) -> (forall i, l1_path (db_dir (compactor w)) i <> p) ->
  0 <= next_sst_id (compactor w) < 2 ^ 64 - 1 ->
  let lo := default [] (ekey <$> hd_error es) in
  let hi := default [] (ekey <$> last es) in
  levels_ok (mk_world (<[p := f]> (files w)) (add_l0_table (compactor w) p lo hi))
    (t0s ++ [(mk_TableMetadata (next_sst_id (compactor w)) p lo hi, es)]) t1s.
Proof.
  intros [Hl0 Hl1 Hholds Hl0k Hl1k Hapart Hsm Hpaths Hfresh] Ht Hs Hne Hp Hl1p Hid lo hi.
  set (t := (mk_TableMetadata (next_sst_id (compactor w)) p lo hi, es)).
  assert ((t0s ++ [t]) ++ t1s ≡ₚ t :: t0s ++ t1s) as Hperm.
  { rewrite <- app_assoc. symmetry. apply Permutation_middle. }
  split; cbn [compactor files add_l0_table db_dir l0 l1 next_sst_id]; try done.
  - by rewrite Hl0, fmap_app.
  - rewrite Hperm. constructor.
    + split_and!; [| done | done]. exists f. split; [apply lookup_insert_eq | done].
    + apply Forall_forall. intros u Hu. rewrite Forall_forall in Hholds. apply (holds_files (files w)); [| by apply Hholds].
      rewrite lookup_insert_ne; [done |]. intros ->. by apply Hp, paths_in.
  - apply Forall_app. split; [done |]. by constructor.
  - unfold paths_of in *. rewrite Hperm. cbn. by constructor.
  - intros i Hu Hi. rewrite wrap64_small in Hi by (unfold is_u64; lia). unfold paths_of. rewrite Hperm. cbn.
    apply not_elem_of_cons. split; [apply Hl1p | apply Hfresh; [done | lia]].
Qed.

(** * Properties *)

(** C5: Compaction keeps the newest version of every key. From levels whose tables hold what their
    metadata says, with level 1 sorted and its key ranges disjoint, [maybe_schedule_compaction]
    does nothing below four level-0 tables, and otherwise empties level 0 and leaves a level 1
    with the same invariant, in which every key has the newest of its versions in both levels
    before, keys whose newest version is a tombstone being gone. It panics only when the table that it
    merges, the one this very state determines, cannot be written: its file is not created, or one
    of its writes or its sync fails. *)
Theorem compaction_keeps_newest (w : world) (t0s t1s : list (TableMetadata * list entry))
    (Hlv : levels_ok w t0s t1s) (Hid : 0 <= next_sst_id (compactor w) < 2 ^ 64 - 1) :
  compaction_post w t0s t1s (maybe_schedule_compaction w).
Proof. exact (compaction_run w t0s t1s Hlv Hid). Qed.

(** [add_l0_table] keeps the levels' invariant when it is given a table sorted by key and, within
    a key, from the newest version to the oldest, with its first and last key, at a path no table
    has. *)
Theorem add_l0_keeps_levels (w : world) (t0s t1s : list (TableMetadata * list entry))
    (p : path) (f : bytes) (es : list entry)
    (Hlv : levels_ok w t0s t1s) (Ht : full_table f es) (Hs : merge_sorted es) (Hne : es <> [])
    (Hp : p ∉ paths_of (t0s ++ t1s)) (Hl1 : forall i, l1_path (db_dir (compactor w)) i <> p)
    (Hid : 0 <= next_sst_id (compactor w) < 2 ^ 64 - 1) :
  let lo := default [] (ekey <$> hd_error es) in
  let hi := default [] (ekey <$> last es) in
  levels_ok (mk_world (<[p := f]> (files w)) (add_l0_table (compactor w) p lo hi))
    (t0s ++ [(mk_TableMetadata (next_sst_id (compactor w)) p lo hi, es)]) t1s.
Proof. by apply add_l0_levels. Qed.

End invariant.

(** Four flushes of a small table, at paths of their own. *)
Definition sample_path (i : Z) : path := mk_path "db" ("active.sst." ++ show_u64 i)%string.

Definition flushed : SSTableWriter * outcome io_error Z :=
  write_table (F := bounded_file) newer_entries SSTableWriter_create.

Definition flush_to (i : Z) (w : world) : world :=
  mk_world (<[sample_path i := file flushed.1]> (files w)) (add_l0_table (compactor w) (sample_path i) [Byte.x61] [Byte.x63]).

Definition sample_world : world :=
  flush_to 4 (flush_to 3 (flush_to 2 (flush_to 1 (mk_world ∅ (LeveledCompactor_new "db" 1))))).

Definition sample_table (i : Z) : TableMetadata * list entry :=
  (mk_TableMetadata i (sample_path i) [Byte.x61] [Byte.x63], newer_entries).

Lemma flushed_table : full_table (file flushed.1) newer_entries.
Proof.
  assert (flushed = (flushed.1, Ok 128)) as Hn by by vm_compute.
  apply (written_is_full (F := bounded_file) _ _ _ Hn).
  - repeat constructor; vm_compute; congruence.
  - clear. by vm_compute.
Qed.

Lemma sample_order : merge_sorted newer_entries /\ newer_entries <> [].
Proof. split; [repeat constructor; by vm_compute | done]. Qed.

Lemma sample_path_other i dir j : l1_path dir j <> sample_path i.
Proof. by apply (l1_path_other "db" "a"%char). Qed.

Lemma flush_levels i w t0s : levels_ok w t0s [] -> sample_path i ∉ paths_of (t0s ++ []) ->
  next_sst_id (compactor w) = i -> 0 <= i < 2 ^ 64 - 1 ->
  levels_ok (flush_to i w) (t0s ++ [sample_table i]) [].
Proof.
  intros Hlv Hp Hi Hid. destruct sample_order as [Hs Hne].
  pose proof (add_l0_levels w t0s [] (sample_path i) _ _ Hlv flushed_table Hs Hne Hp (sample_path_other i _)) as Ha.
  rewrite Hi in Ha. exact (Ha Hid).
Qed.

Lemma sample_levels : levels_ok sample_world (sample_table <$> [1; 2; 3; 4]) [].
Proof.
  change (sample_table <$> [1; 2; 3; 4]) with
    (((([] ++ [sample_table 1]) ++ [sample_table 2]) ++ [sample_table 3]) ++ [sample_table 4]).
  unfold sample_world. repeat apply flush_levels; try done; try apply empty_levels; cbn;
    rewrite ?not_elem_of_cons; split_and?; try done; intros Hin; inversion Hin.
Qed.

Lemma compaction_keeps_newest_witness :
  (levels_ok sample_world (sample_table <$> [1; 2; 3; 4]) [] /\
   0 <= next_sst_id (compactor sample_world) < 2 ^ 64 - 1) /\
  compaction_post (F := bounded_file) sample_world (sample_table <$> [1; 2; 3; 4]) []
    (maybe_schedule_compaction (F := bounded_file) sample_world).
Proof.
  assert (0 <= next_sst_id (compactor sample_world) < 2 ^ 64 - 1) as Hid by by vm_compute.
  split; [exact (conj sample_levels Hid) |].
  exact (compaction_keeps_newest (F := bounded_file) _ _ _ sample_levels Hid).
Defined.

Lemma add_l0_keeps_levels_witness :
  (levels_ok (mk_world ∅ (LeveledCompactor_new "db" 1)) [] [] /\
   full_table (file flushed.1) newer_entries /\ merge_sorted newer_entries /\ newer_entries <> []) /\
  levels_ok
    (mk_world (<[sample_path 1 := file flushed.1]> ∅) (add_l0_table (LeveledCompactor_new "db" 1) (sample_path 1) [Byte.x61] [Byte.x63]))
    ([] ++ [sample_table 1]) [].
Proof.
  destruct sample_order as [Hs Hne]. pose proof (empty_levels ∅ "db" 1) as He.
  split; [exact (conj He (conj flushed_table (conj Hs Hne))) |].
  refine (add_l0_keeps_levels (mk_world ∅ (LeveledCompactor_new "db" 1)) [] [] (sample_path 1) _ _ He flushed_table Hs Hne _ _ _).
  - intros Hin. inversion Hin.
  - exact (sample_path_other 1 _).
  - vm_compute. split; congruence.
Defined.
