(* ===== verification/MemTable.v ===== *)
(** * The memtable manager (tier3_storage/src/memtable/manager.rs)

    [MemTableManager]: [write] (WAL first, then the skip list), [get] over the
    active and the immutable memtable, [maybe_freeze] with its WAL rotation, and
    [clear_immutable].  A write that succeeded is found until its memtable is
    cleared. *)

From stdpp Require Import gmap strings.
From S2P Require Import Prelude Paths WalRecord WalWriter Block SSTableReader Merge SkipList.
#[local] Open Scope Z_scope.

Definition MEMTABLE_LIMIT : Z := 64 * 1024 * 1024.

(** The record [write] appends to the log: a tag, the key's length, key and
    value. *)
Definition wal_payload (key : bytes) (value : option bytes) : bytes :=
  let payload := [match value with Some _ => Byte.x01 | None => Byte.x00 end] in
  let payload := payload ++ to_le_bytes 4 (wrap32 (len key)) in
  let payload := payload ++ key in
  match value with Some v => payload ++ v | None => payload end.

(** [old_mem.iter().map(|(_, _, s)| s).max().unwrap_or(0)]. *)
Definition max_seq (es : list entry) : Z :=
  match es with
  | [] => 0
  | e :: es => foldl (fun m e => if m <=? e.2 then e.2 else m) e.2 es
  end.

(** [self.wal_path.with_extension(format!("wal.{}", ..))]. *)
Definition rotated (p : path) (seq : Z) : path := with_extension p ("wal." ++ show_u64 seq)%string.

(** Errors of a write; the skip list's fuel is not one of the code's. *)
Inductive write_error := Wal (e : WalError) | WriteFuel.
#[export] Instance write_error_fueled : Fueled write_error := WriteFuel.

Section manager.
  (** The system calls of the WAL writer. *)
  Context (crc32 : bytes -> Z) (pwrite : bytes -> bytes -> Z -> bytes * Z).
  Context (fsync : bytes -> Z) (ftruncate : bytes -> Z -> bytes * Z).

Record FlushTask := mk_FlushTask { memtable : ConcurrentSkipList; task_wal_path : path }.

(** [files] are the files of the directory that no writer has open, [rng] is
    the state of the calling thread's generator; the channel is the list of the
    tasks sent, with whether its receiver is alive. *)
Record MemTableManager := mk_MemTableManager {
  active_mem : ConcurrentSkipList;
  imm_mem : option ConcurrentSkipList;
  wal : WalWriter;
  wal_path : path;
  flush_tx : list FlushTask;
  receiver_alive : bool;
  is_flushing : bool;
  wal_files : gmap path bytes;
  rng : Z
}.

Definition MemTableManager_new (p : path) (files : gmap path bytes) (seed : Z) : MemTableManager :=
  mk_MemTableManager ConcurrentSkipList_new None (WalWriter_open (default [] (files !! p))) p [] true false
    (delete p files) seed.

(** [maybe_freeze]. *)
Definition maybe_freeze : st MemTableManager write_error unit := fun s =>
  match imm_mem s with
  | Some _ => (s, Ok tt)
  | None =>
      (* self.wal.sync().ok() changes nothing the manager can see *)
      let old_mem := active_mem s in
      match iter_all (E := write_error) old_mem with
      | Ok es =>
          let next_wal_path := rotated (wal_path s) (max_seq es) in
          let old_wal_path := wal_path s in
          let new_wal := WalWriter_open (default [] (wal_files s !! next_wal_path)) in
          let '(old_wal, _) := truncate_to_logical_end ftruncate (wal s) in
          let files := <[old_wal_path := file old_wal]> (delete next_wal_path (wal_files s)) in
          let s' := mk_MemTableManager ConcurrentSkipList_new (Some old_mem) new_wal next_wal_path
                      (flush_tx s) (receiver_alive s) true files (rng s) in
          if receiver_alive s
          then (mk_MemTableManager (active_mem s') (imm_mem s') (wal s') (wal_path s')
                  (flush_tx s ++ [mk_FlushTask old_mem old_wal_path]) true true files (rng s), Ok tt)
          else (s', Panic)
      | Err e => (s, Err e)
      | Panic => (s, Panic)
      | Ub => (s, Ub)
      end
  end.

(** [self.wal.append(&payload)?]. *)
Definition wal_append (payload : bytes) : st MemTableManager write_error unit := fun s =>
  let '(w, r) := append crc32 pwrite payload (wal s) in
  (mk_MemTableManager (active_mem s) (imm_mem s) w (wal_path s) (flush_tx s) (receiver_alive s)
     (is_flushing s) (wal_files s) (rng s),
   match r with Ok _ => Ok tt | Err e => Err (Wal e) | Panic => Panic | Ub => Ub end).

Definition mem_insert (weak_ok : bool) (key : bytes) (value : option bytes) (seq : Z) : st MemTableManager write_error unit := fun s =>
  match insert weak_ok key value seq (active_mem s) (rng s) with
  | Ok (mem, rng) =>
      (mk_MemTableManager mem (imm_mem s) (wal s) (wal_path s) (flush_tx s) (receiver_alive s)
         (is_flushing s) (wal_files s) rng, Ok tt)
  | Err e => (s, Err e)
  | Panic => (s, Panic)
  | Ub => (s, Ub)
  end.

Definition write (weak_ok : bool) (key : bytes) (value : option bytes) (seq : Z) : st MemTableManager write_error unit :=
  wal_append (wal_payload key value);;
  mem_insert weak_ok key value seq;;
  s ← get_state;
  if MEMTABLE_LIMIT <=? approximate_size (active_mem s) then maybe_freeze else mret tt.

Definition get (s : MemTableManager) (key : bytes) : outcome write_error (option (option bytes * Z)) :=
  r ← SkipList.get (active_mem s) key;
  match r with
  | Some res => Ok (Some res)
  | None =>
      match imm_mem s with
      | Some imm => SkipList.get imm key
      | None => Ok None
      end
  end.

Definition clear_immutable (completed_wal : path) (s : MemTableManager) : MemTableManager :=
  match imm_mem s with
  | Some _ =>
      mk_MemTableManager (active_mem s) None (wal s) (wal_path s) (flush_tx s) (receiver_alive s)
        false (delete completed_wal (wal_files s)) (rng s)
  | None => s
  end.

End manager.

(** ** The invariant: what each memtable holds *)

Definition holds_mem (m : option ConcurrentSkipList) (es : option (list entry)) : Prop :=
  match m, es with
  | None, None => True
  | Some m, Some es => abs m (ordered es)
  | _, _ => False
  end.

(** The active memtable holds [active], in the order of the inserts, and the
    immutable one [imm]. *)
Record mem_ok (s : MemTableManager) (active : list entry) (imm : option (list entry)) : Prop := {
  mo_active : abs (active_mem s) (ordered active);
  mo_imm : holds_mem (imm_mem s) imm;
  mo_wal : writer_wf (wal s)
}.

(** All the entries, oldest first. *)
Definition mem_entries (active : list entry) (imm : option (list entry)) : list entry := default [] imm ++ active.

(** The log file is not near [2^64] bytes. *)
Definition wal_room (s : MemTableManager) : Prop := is_u64 (sector_offset (wal s) + STAGING_SIZE).

Lemma new_mem_ok p files seed : mem_ok (MemTableManager_new p files seed) [] None.
Proof. split; [exact new_abs | done | apply open_writer_wf]. Qed.

(** An answer is [None] exactly for keys without an entry, and otherwise one of
    the key's versions. *)
Definition some_version (es : list entry) (key : bytes) (r : option (option bytes * Z)) : Prop :=
  (r = None <-> key ∉ ekey <$> es) /\ (forall v, r = Some v -> exists e, e ∈ es /\ ekey e = key /\ eval e = v).

Lemma get_ordered `{Fueled E} m (es : list entry) key : abs m (ordered es) ->
  exists r, SkipList.get (E := E) m key = Ok r /\ some_version es key r.
Proof.
  intros Ha. destruct (get_abs (E := E) m _ key Ha) as (r & -> & Hnone & Hsome). exists r. split; [done |].
  rewrite (ordered_perm es) in Hnone. split; [done |]. intros v Hv.
  destruct (Hsome v Hv) as (e & He & ?). exists e. by rewrite (ordered_perm es) in He.
Qed.

(** An answer found in the newer entries stands; else the older ones decide. *)
Lemma some_version_app (old new : list entry) key v : some_version new key (Some v) -> some_version (old ++ new) key (Some v).
Proof.
  intros [_ Hs]. destruct (Hs v eq_refl) as (e & He & Hk & Hv). split.
  - split; [done |]. intros []. rewrite fmap_app, elem_of_app. right. rewrite <- Hk. by apply list_elem_of_fmap_2.
  - intros v' [= <-]. exists e. rewrite elem_of_app. auto.
Qed.

Lemma some_version_older (old new : list entry) key r :
  some_version new key None -> some_version old key r -> some_version (old ++ new) key r.
Proof.
  intros [Hno _] [Hn Hs]. split.
  - rewrite fmap_app, elem_of_app, Hn. tauto.
  - intros v Hv. destruct (Hs v Hv) as (e & He & ?). exists e. rewrite elem_of_app. auto.
Qed.

Lemma get_mem_ok s active imm key : mem_ok s active imm ->
  exists r, get s key = Ok r /\ some_version (mem_entries active imm) key r.
Proof.
  intros [Ha Hi _]. unfold get, mem_entries.
  destruct (get_ordered (E := write_error) _ active key Ha) as (r & -> & Hr). cbn [mbind outcome_bind].
  destruct r as [v|]; [eexists; split; [done | by apply some_version_app] |].
  destruct (imm_mem s) as [m|], imm as [es|]; try done; cbn [default].
  - destruct (get_ordered (E := write_error) _ es key Hi) as (r & -> & Hr'). eexists. split; [done |].
    by apply some_version_older.
  - eexists. by split.
Qed.

(** ** The parts of a write *)

Section lemmas.
  Context (crc32 : bytes -> Z) (pwrite : bytes -> bytes -> Z -> bytes * Z).
  Context (ftruncate : bytes -> Z -> bytes * Z).

(** The log: a failure is the log's, and nothing else changes. *)
Lemma wal_append_ok p s active imm : mem_ok s active imm -> wal_room s ->
  exists w r, wal_append crc32 pwrite p s = (mk_MemTableManager (active_mem s) (imm_mem s) w (wal_path s) (flush_tx s)
    (receiver_alive s) (is_flushing s) (wal_files s) (rng s), r) /\ writer_wf w /\
    (r = Ok tt \/ exists e, r = Err (Wal e)).
Proof.
  intros [_ _ Hw] Hroom. unfold wal_append. pose proof (append_safe crc32 pwrite (wal s) p Hw Hroom) as Hs.
  destruct (append crc32 pwrite p (wal s)) as [w r]. destruct Hs as (Hsafe & Hwf & _).
  destruct r as [n | e | |]; try done; eexists _, _; (split; [done |]); split; eauto.
Qed.

Lemma mem_insert_ok weak_ok k v q s active imm : mem_ok s active imm ->
  exists s', mem_insert weak_ok k v q s = (s', Ok tt) /\ mem_ok s' (active ++ [(k, v, q)]) imm /\
    receiver_alive s' = receiver_alive s /\ flush_tx s' = flush_tx s /\ imm_mem s' = imm_mem s.
Proof.
  intros [Ha Hi Hw]. unfold mem_insert.
  destruct (insert_abs (E := write_error) weak_ok k v q (active_mem s) (rng s) _ Ha) as (m & rng' & -> & Hm & _).
  eexists. split; [done |]. split; [| done]. split; [by rewrite ordered_snoc | done | done].
Qed.

Lemma max_seq_spec es e : e ∈ es -> e.2 <= max_seq es /\ exists e', e' ∈ es /\ e'.2 = max_seq es.
Proof.
  intros He. destruct es as [|x es]; [inversion He |]. cbn [max_seq].
  assert (forall es m, m <= foldl (fun m (e : entry) => if m <=? e.2 then e.2 else m) m es /\
    (forall e : entry, e ∈ es -> e.2 <= foldl (fun m (e : entry) => if m <=? e.2 then e.2 else m) m es) /\
    (foldl (fun m (e : entry) => if m <=? e.2 then e.2 else m) m es = m \/
     exists e' : entry, e' ∈ es /\ e'.2 = foldl (fun m (e : entry) => if m <=? e.2 then e.2 else m) m es)) as Hf.
  { clear. induction es as [|y es IH]; intros m; cbn [foldl].
    { split_and!; [lia | intros e He; inversion He | by left]. }
    destruct (IH (if m <=? y.2 then y.2 else m)) as (Hle & Hall & Hor).
    destruct (Z.leb_spec m y.2).
    - split_and!; [lia | intros e [-> | He]%elem_of_cons; [done | by apply Hall] |].
      right. destruct Hor as [Heq | (e' & He' & Heq)]; [exists y | exists e']; split; rewrite ?elem_of_cons; auto.
    - split_and!; [lia | intros e [-> | He]%elem_of_cons; [lia | by apply Hall] |].
      destruct Hor as [Heq | (e' & He' & Heq)]; [by left | right; exists e'; rewrite elem_of_cons; auto]. }
  destruct (Hf es x.2) as (Hle & Hall & Hor). split.
  - apply elem_of_cons in He as [-> | He]; [done | by apply Hall].
  - destruct Hor as [Heq | (e' & He' & Heq)]; [exists x | exists e']; rewrite elem_of_cons; auto.
Qed.

(** [maybe_freeze] with no immutable memtable: the active one becomes it, and
    its task is sent with the path of the log that covers it. *)
Definition frozen (s s' : MemTableManager) (active : list entry) : Prop :=
  mem_ok s' [] (Some active) /\ is_flushing s' = true /\
  (exists t, flush_tx s' = flush_tx s ++ [t] /\ abs (memtable t) (ordered active) /\ task_wal_path t = wal_path s) /\
  wal_path s' = rotated (wal_path s) (max_seq (ordered active)) /\
  wal s' = WalWriter_open (default [] (wal_files s !! wal_path s')) /\
  wal_files s' !! wal_path s = Some (file (truncate_to_logical_end ftruncate (wal s)).1).

Lemma freeze_ok s active imm : mem_ok s active imm -> receiver_alive s = true ->
  exists s', maybe_freeze ftruncate s = (s', Ok tt) /\
    match imm with Some _ => s' = s | None => frozen s s' active end.
Proof.
  intros [Ha Hi Hw] Hrx. unfold maybe_freeze. destruct (imm_mem s) as [m|], imm as [es|]; try done; [by eexists |].
  rewrite (iter_all_abs (E := write_error) _ _ Ha). unfold frozen.
  destruct (truncate_to_logical_end ftruncate (wal s)) as [old_wal r]. rewrite Hrx.
  eexists. split; [done |]. cbn [active_mem imm_mem wal wal_path flush_tx is_flushing wal_files fst].
  split; [split; [exact new_abs | exact Ha | apply open_writer_wf] |]. split; [reflexivity |].
  split; [eexists; split; [reflexivity | split; [exact Ha | reflexivity]] |].
  split; [reflexivity |]. split; [reflexivity |]. apply lookup_insert_eq.
Qed.

(** ** A write *)

Definition written_post (s : MemTableManager) (active : list entry) (imm : option (list entry)) (e : entry)
    (r : MemTableManager * outcome write_error unit) : Prop :=
  match r with
  | (s', Ok tt) => exists active' imm', mem_ok s' active' imm' /\
      mem_entries active' imm' = mem_entries active imm ++ [e] /\
      (imm' = imm \/ (imm = None /\ imm' = Some (active ++ [e]) /\ active' = []))
  | (s', Err (Wal _)) => mem_ok s' active imm
  | _ => False
  end.

Lemma write_ok weak_ok k v q s active imm : mem_ok s active imm -> wal_room s -> receiver_alive s = true ->
  written_post s active imm (k, v, q) (write crc32 pwrite ftruncate weak_ok k v q s).
Proof.
  intros Hok Hroom Hrx. unfold write.
  destruct (wal_append_ok (wal_payload k v) s active imm Hok Hroom) as (w & r & Hap & Hwf & Hr).
  unfold mbind at 1, st_bind at 1. rewrite Hap. set (s1 := mk_MemTableManager _ _ _ _ _ _ _ _ _).
  destruct Hok as [Ha Hi _]. assert (mem_ok s1 active imm) as Hok1 by done.
  destruct Hr as [-> | [e ->]]; [| done].
  destruct (mem_insert_ok weak_ok k v q s1 active imm Hok1) as (s2 & Hins & Hok2 & Hrx2 & _).
  rewrite (st_bind_Ok _ _ _ _ _ Hins). unfold mbind, st_bind, get_state.
  assert (mem_entries (active ++ [(k, v, q)]) imm = mem_entries active imm ++ [(k, v, q)]) as Hent.
  { unfold mem_entries. by rewrite app_assoc. }
  destruct (MEMTABLE_LIMIT <=? approximate_size (active_mem s2)).
  - destruct (freeze_ok s2 _ imm Hok2 ltac:(by rewrite Hrx2)) as (s3 & -> & Hf). destruct imm as [es|].
    + subst s3. exists (active ++ [(k, v, q)]), (Some es). auto.
    + destruct Hf as [Hok3 _]. exists [], (Some (active ++ [(k, v, q)])). split; [done |]. split; [| auto].
      unfold mem_entries. cbn [default]. by rewrite app_nil_r.
  - exists (active ++ [(k, v, q)]), imm. auto.
Qed.

End lemmas.

(** ** Sequences of writes *)

Section runs.
  Context (crc32 : bytes -> Z) (pwrite : bytes -> bytes -> Z -> bytes * Z).
  Context (ftruncate : bytes -> Z -> bytes * Z).

(** Writes one after the other, each with the result of its weak
    compare-and-swap; the state after them, the accepted entries and how the
    last one ended. A rejected write does not stop the next. *)
Fixpoint run_writes (ws : list (bool * entry)) (s : MemTableManager) : MemTableManager * list entry * bool :=
  match ws with
  | [] => (s, [], true)
  | (weak_ok, e) :: ws =>
      match write crc32 pwrite ftruncate weak_ok (ekey e) e.1.2 e.2 s with
      | (s', Ok tt) => let '(s', acc, ok) := run_writes ws s' in (s', e :: acc, ok)
      | (s', Err _) => run_writes ws s'
      | (s', _) => (s', [], false)
      end
  end.

(** A write leaves the receiver alone and moves the log by at most one buffer. *)
Lemma maybe_freeze_frame s : receiver_alive (maybe_freeze ftruncate s).1 = receiver_alive s /\
  sector_offset (wal (maybe_freeze ftruncate s).1) <= Z.max 0 (sector_offset (wal s)).
Proof.
  unfold maybe_freeze. destruct (imm_mem s); [split; [done | cbn; lia] |].
  destruct (iter_all _); [| split; [done | cbn; lia]..].
  destruct (truncate_to_logical_end ftruncate (wal s)) as [w r].
  destruct (receiver_alive s) eqn:Hr; cbn [fst receiver_alive wal WalWriter_open sector_offset]; split; try done; lia.
Qed.

Lemma write_frame weak_ok k v q s : writer_wf (wal s) -> wal_room s ->
  let s' := (write crc32 pwrite ftruncate weak_ok k v q s).1 in
  receiver_alive s' = receiver_alive s /\ sector_offset (wal s') <= sector_offset (wal s) + STAGING_SIZE.
Proof.
  intros Hwf Hroom. pose proof (append_advance crc32 pwrite (wal s) (wal_payload k v) Hwf Hroom) as Hadv.
  destruct Hwf as [[Hs _] _ _]. unfold write, wal_append, mem_insert, mbind, st_bind, get_state.
  destruct (append crc32 pwrite (wal_payload k v) (wal s)) as [w r]. cbn [fst] in Hadv.
  destruct r; cbn [fst receiver_alive wal active_mem rng]; try done.
  destruct (insert _ _ _ _ _ _) as [[m g] | | |]; cbn [fst receiver_alive wal]; try done.
  destruct (_ <=? _); [| done]. match goal with |- context [maybe_freeze _ ?x] => pose proof (maybe_freeze_frame x) as [Hr Hw] end.
  split; [done |]. cbn [wal] in Hw. unfold STAGING_SIZE in *. lia.
Qed.

Lemma run_writes_ok ws s active imm : mem_ok s active imm -> receiver_alive s = true ->
  is_u64 (sector_offset (wal s) + Z.of_nat (S (length ws)) * STAGING_SIZE) ->
  exists s' acc active' imm', run_writes ws s = (s', acc, true) /\ sublist acc (ws.*2) /\
    mem_ok s' active' imm' /\ mem_entries active' imm' = mem_entries active imm ++ acc.
Proof.
  revert s active imm. induction ws as [|[weak_ok [[k v] q]] ws IH]; intros s active imm Hok Hrx Hu; cbn [run_writes].
  { exists s, [], active, imm. rewrite app_nil_r. by split_and!. }
  assert (0 <= sector_offset (wal s)) as Hs0 by apply (mo_wal _ _ _ Hok).
  assert (wal_room s) as Hroom by (unfold wal_room, is_u64, STAGING_SIZE in *; lia).
  pose proof (write_ok crc32 pwrite ftruncate weak_ok k v q s active imm Hok Hroom Hrx) as Hw.
  destruct (write_frame weak_ok k v q s (mo_wal _ _ _ Hok) Hroom) as [Hrx' Hadv].
  cbn [ekey fst snd]. destruct (write _ _ _ _ _ _ _ s) as [s1 [[] | [e|] | |]]; cbn [written_post] in Hw; try done;
    cbn [fst] in Hrx', Hadv.
  - destruct Hw as (active1 & imm1 & Hok1 & Hent1 & _).
    assert (0 <= sector_offset (wal s1)) as Hs1 by apply (mo_wal _ _ _ Hok1).
    destruct (IH s1 active1 imm1 Hok1) as (s' & acc & active' & imm' & -> & Hsub & Hok' & Hent'); [congruence | |].
    { unfold is_u64, STAGING_SIZE in *. cbn [length] in Hu. lia. }
    exists s', ((k, v, q) :: acc), active', imm'. split_and!; [done | by constructor | done |].
    by rewrite Hent', Hent1, <- app_assoc.
  - assert (0 <= sector_offset (wal s1)) as Hs1 by apply (mo_wal _ _ _ Hw).
    destruct (IH s1 active imm Hw) as (s' & acc & active' & imm' & -> & Hsub & Hok' & Hent'); [congruence | |].
    { unfold is_u64, STAGING_SIZE in *. cbn [length] in Hu. lia. }
    exists s', acc, active', imm'. split_and!; [done | by constructor | done | done].
Qed.

End runs.

(** ** The order of a frozen memtable *)

Lemma before_trans a b c : before a b -> before b c -> before a c.
Proof.
  unfold before. intros [Hab | [Hab ?]] [Hbc | [Hbc ?]].
  - left. by eapply blt_trans.
  - left. by rewrite <- Hbc.
  - left. by rewrite Hab.
  - right. split; [congruence | lia].
Qed.

(** Inserts with growing sequence numbers leave the newest version of a key
    first. *)
Lemma ins_merge_sorted e es : merge_sorted es -> (forall e', e' ∈ es -> e'.2 <= e.2) -> merge_sorted (ins_entry e es).
Proof.
  unfold merge_sorted, ins_entry. intros Hs Hq.
  assert (forall x, x ∈ filter (fun e' => ~ blt (ekey e') (ekey e)) es -> before e x) as Hafter.
  { intros x [Hx Hin]%list_elem_of_filter. specialize (Hq x Hin). unfold before.
    destruct (blt_trichotomy (ekey x) (ekey e)) as [? | [-> | ?]]; [done | right; by split | by left]. }
  apply StronglySorted_app_2.
  - intros x y [Hx _]%list_elem_of_filter [-> | Hy]%elem_of_cons; [by left |].
    apply (before_trans x e y); [by left | by apply Hafter].
  - by apply sorted_filter.
  - constructor; [by apply sorted_filter | by apply Forall_forall].
Qed.

Lemma ordered_merge_sorted es : StronglySorted (fun a b : entry => a.2 <= b.2) es -> merge_sorted (ordered es).
Proof.
  induction es as [|e es IH] using rev_ind; [constructor |]. intros Hs. rewrite ordered_snoc.
  apply ins_merge_sorted; [by apply IH, (StronglySorted_app_1_l _ _ _ Hs) |].
  intros x Hx. rewrite (ordered_perm es) in Hx. apply (StronglySorted_app_1_elem_of _ _ _ _ _ Hs Hx). by constructor.
Qed.

(** * Properties *)

(** No accepted write is lost by the memtables. From a new manager, any sequence of up to 2^40
    puts and deletes, with any results of the system calls of the log, runs without a panic; the
    writes whose log record failed are rejected and leave no trace; and [get] then answers, [None]
    exactly for the keys no accepted write had, and otherwise with one of the key's accepted
    versions, whether or not a freeze moved entries to the immutable memtable. *)
Theorem memtable_finds_writes (crc32 : bytes -> Z) (pwrite : bytes -> bytes -> Z -> bytes * Z)
    (ftruncate : bytes -> Z -> bytes * Z) (p : path) (files : gmap path bytes) (seed : Z)
    (ws : list (bool * entry)) (Hn : Z.of_nat (length ws) < 2 ^ 40) :
  exists s acc, run_writes crc32 pwrite ftruncate ws (MemTableManager_new p files seed) = (s, acc, true) /\
    sublist acc ws.*2 /\ forall key, exists r, get s key = Ok r /\ some_version acc key r.
Proof.
  destruct (run_writes_ok crc32 pwrite ftruncate ws _ [] None (new_mem_ok p files seed)) as
    (s & acc & active & imm & -> & Hsub & Hok & Hent); [done | |].
  { change (sector_offset (wal (MemTableManager_new p files seed))) with 0. unfold is_u64, STAGING_SIZE. lia. }
  exists s, acc. split_and!; [done | done |]. intros key. cbn in Hent. rewrite <- Hent. by apply get_mem_ok.
Qed.

Lemma memtable_finds_writes_witness :
  let ws := [(true, ([Byte.x61], Some [Byte.x01], 1)); (false, ([Byte.x61], None, 2))] in
  Z.of_nat (length ws) < 2 ^ 40 /\
  exists s acc, run_writes byte_sum pwrite_all (fun f n => (take (Z.to_nat n) f, 0)) ws
      (MemTableManager_new (mk_path "db" "active.wal") ∅ RNG_SEED) = (s, acc, true) /\
    sublist acc ws.*2 /\ forall key, exists r, get s key = Ok r /\ some_version acc key r.
Proof. split; [done |]. by apply memtable_finds_writes. Defined.

(** A freeze happens at most once until [clear_immutable]: with an immutable memtable in place
    [maybe_freeze] changes nothing; otherwise it ends well, the active memtable becomes the
    immutable one and is sent with the path of its log in exactly one task, the log on disk under
    that path being the truncated old one, and writes go on in an empty memtable and a log named by
    the greatest sequence number frozen. *)
Theorem freeze_hands_over (ftruncate : bytes -> Z -> bytes * Z) (s : MemTableManager) (active : list entry)
    (imm : option (list entry)) (Hok : mem_ok s active imm) (Hrx : receiver_alive s = true) :
  exists s', maybe_freeze ftruncate s = (s', Ok tt) /\
    match imm with Some _ => s' = s | None => frozen ftruncate s s' active end.
Proof. by apply freeze_ok. Qed.

Lemma freeze_hands_over_witness :
  let s := MemTableManager_new (mk_path "db" "active.wal") ∅ RNG_SEED in
  (mem_ok s [] None /\ receiver_alive s = true) /\
  exists s', maybe_freeze (fun f n => (take (Z.to_nat n) f, 0)) s = (s', Ok tt) /\
    frozen (fun f n => (take (Z.to_nat n) f, 0)) s s' [].
Proof.
  intros s. pose proof (new_mem_ok (mk_path "db" "active.wal") ∅ RNG_SEED) as Hok.
  split; [exact (conj Hok eq_refl) |]. exact (freeze_hands_over _ s [] None Hok eq_refl).
Defined.

(** A memtable filled in the order of the sequence numbers is handed over in merge order: when
    the active memtable of a manager was, a freeze sends a task whose memtable's iterator gives
    exactly its entries, sorted by key and, within a key, from the newest version to the oldest,
    which is what the merge of Merge.v and the levels of Compaction.v need of a table. *)
Theorem flush_in_merge_order (ftruncate : bytes -> Z -> bytes * Z) (s : MemTableManager) (active : list entry)
    (Hok : mem_ok s active None) (Hrx : receiver_alive s = true)
    (Hq : StronglySorted (fun a b : entry => a.2 <= b.2) active) :
  exists s' t all, maybe_freeze ftruncate s = (s', Ok tt) /\ flush_tx s' = flush_tx s ++ [t] /\
    iter_all (E := fuel_error) (memtable t) = Ok all /\ all ≡ₚ active /\ merge_sorted all.
Proof.
  destruct (freeze_ok ftruncate s active None Hok Hrx) as (s' & Hf & _ & _ & (t & Ht & Ha & _) & _).
  exists s', t, (ordered active).
  split_and!; [done | done | by apply iter_all_abs | apply ordered_perm | by apply ordered_merge_sorted].
Qed.

(** A manager whose memtable has two versions of a key. *)
Definition filled_entries : list entry := [([Byte.x62], Some [Byte.x01], 1); ([Byte.x61], None, 2); ([Byte.x62], None, 3)].

Definition filled_mem : ConcurrentSkipList :=
  match insert_all (E := fuel_error) (fun _ => true) filled_entries ConcurrentSkipList_new RNG_SEED with
  | Ok (s, _) => s
  | _ => ConcurrentSkipList_new
  end.

Definition filled : MemTableManager :=
  mk_MemTableManager filled_mem None (WalWriter_open []) (mk_path "db" "active.wal") [] true false ∅ RNG_SEED.

Lemma filled_ok : mem_ok filled filled_entries None.
Proof.
  split; [| done | apply open_writer_wf]. cbn [active_mem filled]. unfold filled_mem.
  destruct (built_abs (E := fuel_error) (fun _ => true) filled_entries RNG_SEED) as (s & g & -> & Ha). exact Ha.
Qed.

Lemma flush_in_merge_order_witness :
  (mem_ok filled filled_entries None /\ StronglySorted (fun a b : entry => a.2 <= b.2) filled_entries) /\
  exists s' t all, maybe_freeze (fun f n => (take (Z.to_nat n) f, 0)) filled = (s', Ok tt) /\
    flush_tx s' = flush_tx filled ++ [t] /\
    iter_all (E := fuel_error) (memtable t) = Ok all /\ all ≡ₚ filled_entries /\ merge_sorted all.
Proof.
  assert (StronglySorted (fun a b : entry => a.2 <= b.2) filled_entries) as Hs by (repeat constructor; cbn; lia).
  split; [exact (conj filled_ok Hs) | exact (flush_in_merge_order _ filled filled_entries filled_ok eq_refl Hs)].
Defined.
