(* ===== verification/Queue.v ===== *)
(** * The bounded MPMC queue (tier2_concurrency/src/queue.rs)

    [MPMCQueue]: a ring of slots with sequence numbers, [push] and [pop] by any
    number of threads.  Every atomic operation is one step of a thread, and a
    run is any interleaving of the threads' steps, under sequential consistency.
    The queue refines a first-in first-out list: each [push] and [pop] takes
    effect at its successful compare-and-swap, every slot is written before it is
    read and read once, and no two threads use a slot's value at a time. *)

From S2P Require Import Prelude.
#[local] Open Scope Z_scope.

Section queue.
  Context {T : Type}.

(** [value] is [None] while the slot is uninitialised or its value moved out. *)
Record Slot := mk_Slot { sequence : Z; value : option T }.

Record MPMCQueue := mk_MPMCQueue {
  buffer_mask : Z;
  buffer : list Slot;
  tail : Z;
  head : Z
}.

Definition MPMCQueue_new (capacity : Z) : outcome fuel_error MPMCQueue :=
  if negb ((2 <=? capacity) && is_power_of_two capacity) then Panic else
  Ok (mk_MPMCQueue (capacity - 1) ((fun i => mk_Slot i None) <$> seqZ 0 capacity) 0 0).

(** [x as isize] and the difference of two of them. *)
Definition as_isize (x : Z) : Z := if x <? 2 ^ 63 then x else x - 2 ^ 64.
Definition isize_sub (a b : Z) : Z := as_isize (wrap64 (as_isize a - as_isize b)).

(** Where a thread is: between calls, or before the atomic operation named, with
    its local variables. *)
Inductive pc :=
| Idle
| PushLoad (data : T)
| PushSeq (data : T) (tail : Z)
| PushCas (data : T) (tail : Z)
| PushWrite (data : T) (tail : Z)
| PushStore (tail : Z)
| PopLoad
| PopSeq (head : Z)
| PopCas (head : Z)
| PopRead (head : Z)
| PopStore (head : Z) (data : T).

(** What happens at a step, seen from outside: calls, effects, returns. *)
Inductive event :=
| CallPush (data : T)
| Enqueue
| ReturnPush
| ReturnFull (data : T)
| CallPop
| Dequeue
| ReturnPop (data : T)
| ReturnEmpty.

Definition slot_idx (q : MPMCQueue) (pos : Z) : Z := Z.land pos (buffer_mask q).

Definition set_slot (q : MPMCQueue) (pos : Z) (s : Slot) : MPMCQueue :=
  mk_MPMCQueue (buffer_mask q) (<[Z.to_nat (slot_idx q pos) := s]> (buffer q)) (tail q) (head q).

(** One step of [push]; [weak_ok] is false when the weak compare-and-swap fails
    spuriously. *)
Definition push_step (weak_ok : bool) (q : MPMCQueue) (l : pc) : outcome fuel_error (MPMCQueue * pc * option event) :=
  match l with
  | PushLoad data => Ok (q, PushSeq data (tail q), None)
  | PushSeq data t =>
      slot ← index (buffer q) (slot_idx q t);
      let diff := isize_sub (sequence slot) t in
      if diff =? 0 then Ok (q, PushCas data t, None)
      else if diff <? 0 then Ok (q, Idle, Some (ReturnFull data))
      else Ok (q, PushLoad data, None)
  | PushCas data t =>
      if (tail q =? t) && weak_ok
      then Ok (mk_MPMCQueue (buffer_mask q) (buffer q) (wrap64 (t + 1)) (head q), PushWrite data t, Some Enqueue)
      else Ok (q, PushSeq data (tail q), None)
  | PushWrite data t =>
      slot ← index (buffer q) (slot_idx q t);
      Ok (set_slot q t (mk_Slot (sequence slot) (Some data)), PushStore t, None)
  | PushStore t =>
      slot ← index (buffer q) (slot_idx q t);
      Ok (set_slot q t (mk_Slot (wrap64 (t + 1)) (value slot)), Idle, Some ReturnPush)
  | _ => Ok (q, l, None)
  end.

(** One step of [pop]; reading an uninitialised slot is undefined behaviour. *)
Definition pop_step (weak_ok : bool) (q : MPMCQueue) (l : pc) : outcome fuel_error (MPMCQueue * pc * option event) :=
  match l with
  | PopLoad => Ok (q, PopSeq (head q), None)
  | PopSeq h =>
      slot ← index (buffer q) (slot_idx q h);
      let diff := isize_sub (sequence slot) (wrap64 (h + 1)) in
      if diff =? 0 then Ok (q, PopCas h, None)
      else if diff <? 0 then Ok (q, Idle, Some ReturnEmpty)
      else Ok (q, PopLoad, None)
  | PopCas h =>
      if (head q =? h) && weak_ok
      then Ok (mk_MPMCQueue (buffer_mask q) (buffer q) (tail q) (wrap64 (h + 1)), PopRead h, Some Dequeue)
      else Ok (q, PopSeq (head q), None)
  | PopRead h =>
      slot ← index (buffer q) (slot_idx q h);
      match value slot with
      | Some data => Ok (set_slot q h (mk_Slot (sequence slot) None), PopStore h data, None)
      | None => Ub
      end
  | PopStore h data =>
      slot ← index (buffer q) (slot_idx q h);
      Ok (set_slot q h (mk_Slot (wrap64 (h + wrap64 (buffer_mask q + 1))) (value slot)), Idle, Some (ReturnPop data))
  | _ => Ok (q, l, None)
  end.

(** ** Threads *)

Record system := mk_system { queue : MPMCQueue; threads : list pc }.

(** The scheduler's choices: a thread calls, or takes its next step. *)
Inductive action :=
| StartPush (i : nat) (data : T)
| StartPop (i : nat)
| Step (i : nat) (weak_ok : bool).

Definition thread_step (weak_ok : bool) (q : MPMCQueue) (l : pc) : outcome fuel_error (MPMCQueue * pc * option event) :=
  match l with
  | Idle => Ok (q, Idle, None)
  | PushLoad _ | PushSeq _ _ | PushCas _ _ | PushWrite _ _ | PushStore _ => push_step weak_ok q l
  | PopLoad | PopSeq _ | PopCas _ | PopRead _ | PopStore _ _ => pop_step weak_ok q l
  end.

(** A call that no other thread disturbs, with at most [fuel] steps. *)
Fixpoint call (fuel : nat) (q : MPMCQueue) (l : pc) : outcome fuel_error (MPMCQueue * event) :=
  match fuel with
  | O => Err OutOfFuel
  | S fuel =>
      r ← thread_step true q l;
      match r with
      | (q, Idle, Some ev) => Ok (q, ev)
      | (q, l, _) => call fuel q l
      end
  end.

Definition act (a : action) (s : system) : outcome fuel_error (system * list (nat * event)) :=
  match a with
  | StartPush i data =>
      match threads s !! i with
      | Some Idle => Ok (mk_system (queue s) (<[i := PushLoad data]> (threads s)), [(i, CallPush data)])
      | _ => Ok (s, [])
      end
  | StartPop i =>
      match threads s !! i with
      | Some Idle => Ok (mk_system (queue s) (<[i := PopLoad]> (threads s)), [(i, CallPop)])
      | _ => Ok (s, [])
      end
  | Step i weak_ok =>
      match threads s !! i with
      | Some l =>
          r ← thread_step weak_ok (queue s) l;
          let '(q, l, ev) := r in
          Ok (mk_system q (<[i := l]> (threads s)), match ev with Some ev => [(i, ev)] | None => [] end)
      | None => Ok (s, [])
      end
  end.

Fixpoint run (acts : list action) (s : system) : outcome fuel_error (system * list (nat * event)) :=
  match acts with
  | [] => Ok (s, [])
  | a :: acts =>
      r ← act a s;
      let '(s, tr) := r in
      r ← run acts s;
      Ok (r.1, tr ++ r.2)
  end.

(** ** The abstract queue *)

(** What a thread's call has done so far. *)
Inductive status :=
| NoCall
| Pushing (data : T)
| Enqueued
| Popping
| Dequeued (data : T).

Record spec := mk_spec { fifo : list T; calls : list status }.

(** A [push] may give up when the queue is full, or a [pop] is still clearing
    its slot; a [pop] when it is empty, or a [push] is still filling its slot. *)
Definition may_be_full (capacity : Z) (s : spec) : Prop :=
  len (fifo s) = capacity \/ exists i data, calls s !! i = Some (Dequeued data).
Definition may_be_empty (s : spec) : Prop :=
  fifo s = [] \/ exists i, calls s !! i = Some Enqueued.

Inductive spec_step (capacity : Z) : spec -> nat * event -> spec -> Prop :=
| spec_call_push q cs i data : cs !! i = Some NoCall ->
    spec_step capacity (mk_spec q cs) (i, CallPush data) (mk_spec q (<[i := Pushing data]> cs))
| spec_enqueue q cs i data : cs !! i = Some (Pushing data) -> len q < capacity ->
    spec_step capacity (mk_spec q cs) (i, Enqueue) (mk_spec (q ++ [data]) (<[i := Enqueued]> cs))
| spec_return_push q cs i : cs !! i = Some Enqueued ->
    spec_step capacity (mk_spec q cs) (i, ReturnPush) (mk_spec q (<[i := NoCall]> cs))
| spec_return_full q cs i data : cs !! i = Some (Pushing data) -> may_be_full capacity (mk_spec q cs) ->
    spec_step capacity (mk_spec q cs) (i, ReturnFull data) (mk_spec q (<[i := NoCall]> cs))
| spec_call_pop q cs i : cs !! i = Some NoCall ->
    spec_step capacity (mk_spec q cs) (i, CallPop) (mk_spec q (<[i := Popping]> cs))
| spec_dequeue q cs i data : cs !! i = Some Popping ->
    spec_step capacity (mk_spec (data :: q) cs) (i, Dequeue) (mk_spec q (<[i := Dequeued data]> cs))
| spec_return_pop q cs i data : cs !! i = Some (Dequeued data) ->
    spec_step capacity (mk_spec q cs) (i, ReturnPop data) (mk_spec q (<[i := NoCall]> cs))
| spec_return_empty q cs i : cs !! i = Some Popping -> may_be_empty (mk_spec q cs) ->
    spec_step capacity (mk_spec q cs) (i, ReturnEmpty) (mk_spec q (<[i := NoCall]> cs)).

Inductive spec_run (capacity : Z) : spec -> list (nat * event) -> spec -> Prop :=
| spec_nil s : spec_run capacity s [] s
| spec_cons s1 ev s2 tr s3 : spec_step capacity s1 ev s2 -> spec_run capacity s2 tr s3 ->
    spec_run capacity s1 (ev :: tr) s3.

End queue.

(** * The invariant *)

Section invariant.
  Context {T : Type} (k : Z) (Hk : 1 <= k <= 61).

Definition cap : Z := 2 ^ k.

Lemma cap_bounds : 2 <= cap <= 2 ^ 61.
Proof.
  unfold cap. split; [change 2 with (2 ^ 1) at 1 | ]; apply Z.pow_le_mono_r; lia.
Qed.

Implicit Types (q : MPMCQueue (T := T)) (hist : list T) (thr : list (pc (T := T))).

(** The slot of a position. *)
Definition slot_at q (t : Z) : option Slot := buffer q !! Z.to_nat (t mod cap).
Definition seq_at q (t s : Z) : Prop := exists v, slot_at q t = Some (mk_Slot s v).

(** A thread's claim on a position: it fills it, or empties it. *)
Definition filling (l : pc (T := T)) (t : Z) : Prop := (exists v, l = PushWrite v t) \/ l = PushStore t.
Definition emptying (l : pc (T := T)) (t : Z) : Prop := l = PopRead t \/ exists v, l = PopStore t v.
Definition owns (l : pc (T := T)) (t : Z) : Prop := filling l t \/ emptying l t.

(** The life of a slot, for its current position [t]: free; claimed by a push;
    full; claimed by a pop. *)
Inductive phase hist (tl hd : Z) thr (t s : Z) (v : option T) : Prop :=
| phase_free : s = t -> tl <= t -> t - cap < hd -> phase hist tl hd thr t s v
| phase_filling j l : s = t -> hd <= t < tl -> thr !! j = Some l -> filling l t -> phase hist tl hd thr t s v
| phase_full a : s = t + 1 -> hd <= t < tl -> hist !! Z.to_nat t = Some a -> v = Some a -> phase hist tl hd thr t s v
| phase_emptying j l : s = t + 1 -> 0 <= t < hd -> thr !! j = Some l -> emptying l t -> phase hist tl hd thr t s v.

Definition slot_inv hist q thr (i : Z) : Prop :=
  exists t s v, t mod cap = i /\ 0 <= t /\ tail q <= t + cap /\ t < tail q + cap /\
    slot_at q t = Some (mk_Slot s v) /\ phase hist (tail q) (head q) thr t s v.

(** What a thread knows of its local variables. *)
Definition local_inv hist q (l : pc (T := T)) : Prop :=
  match l with
  | Idle | PushLoad _ | PopLoad => True
  | PushSeq _ t => 0 <= t <= tail q
  | PushCas _ t => 0 <= t <= tail q /\ (t = tail q -> seq_at q t t)
  | PushWrite v t => head q <= t < tail q /\ seq_at q t t /\ hist !! Z.to_nat t = Some v
  | PushStore t => head q <= t < tail q /\ exists a, hist !! Z.to_nat t = Some a /\ slot_at q t = Some (mk_Slot t (Some a))
  | PopSeq h => 0 <= h <= head q
  | PopCas h => 0 <= h <= head q /\ (h = head q -> seq_at q h (h + 1))
  | PopRead h => 0 <= h < head q /\ exists a, hist !! Z.to_nat h = Some a /\ slot_at q h = Some (mk_Slot (h + 1) (Some a))
  | PopStore h a => 0 <= h < head q /\ seq_at q h (h + 1) /\ hist !! Z.to_nat h = Some a
  end.

Record inv hist (s : system (T := T)) : Prop := {
  inv_mask : buffer_mask (queue s) = cap - 1;
  inv_buffer : len (buffer (queue s)) = cap;
  inv_bounds : 0 <= head (queue s) <= tail (queue s);
  inv_size : tail (queue s) - head (queue s) <= cap;
  inv_hist : len hist = tail (queue s);
  inv_slots : forall i, 0 <= i < cap -> slot_inv hist (queue s) (threads s) i;
  inv_local : forall j l, threads s !! j = Some l -> local_inv hist (queue s) l;
  inv_owner : forall i j l m t, threads s !! i = Some l -> threads s !! j = Some m -> owns l t -> owns m t -> i = j
}.

(** ** Slots *)

Lemma slot_idx_mod q t : buffer_mask q = cap - 1 -> slot_idx q t = t mod cap.
Proof.
  intros Hm. unfold slot_idx, cap in *. rewrite Hm. replace (2 ^ k - 1) with (Z.ones k) by (rewrite Z.ones_equiv; lia).
  apply Z.land_ones. lia.
Qed.

Lemma mod_range t : 0 <= t mod cap < cap.
Proof. apply Z.mod_pos_bound. pose proof cap_bounds. lia. Qed.

(** Positions of one slot are a multiple of the capacity apart. *)
Lemma mod_apart t u : t mod cap = u mod cap -> t = u \/ t + cap <= u \/ u + cap <= t.
Proof.
  intros Hm. pose proof cap_bounds. pose proof (Z.div_mod t cap ltac:(lia)). pose proof (Z.div_mod u cap ltac:(lia)).
  assert (t / cap = u / cap \/ t / cap + 1 <= u / cap \/ u / cap + 1 <= t / cap) as [Hq | [Hq | Hq]] by lia; [left | right; left | right; right]; nia.
Qed.

Lemma same_slot q t u s s' : t mod cap = u mod cap -> seq_at q t s -> seq_at q u s' -> s = s'.
Proof. unfold seq_at, slot_at. intros -> (v & Hv) (v' & Hv'). congruence. Qed.

Lemma set_slot_same q t s : buffer_mask q = cap - 1 -> len (buffer q) = cap -> slot_at (set_slot q t s) t = Some s.
Proof.
  intros Hm Hl. unfold slot_at, set_slot. cbn [buffer]. rewrite (slot_idx_mod q t Hm). apply list_lookup_insert_eq.
  pose proof (mod_range t). unfold len in Hl. lia.
Qed.

Lemma set_slot_at q t s u : buffer_mask q = cap - 1 -> len (buffer q) = cap -> u mod cap = t mod cap -> slot_at (set_slot q t s) u = Some s.
Proof. intros Hm Hl Hu. unfold slot_at. rewrite Hu. by apply set_slot_same. Qed.

Lemma set_slot_other q t s u : buffer_mask q = cap - 1 -> u mod cap <> t mod cap -> slot_at (set_slot q t s) u = slot_at q u.
Proof.
  intros Hm Hu. unfold slot_at, set_slot. cbn [buffer]. rewrite (slot_idx_mod q t Hm). apply list_lookup_insert_ne.
  pose proof (mod_range t). pose proof (mod_range u). lia.
Qed.

(** The slot of a position, as the code reads it. *)
Lemma read_slot {E} q t s v : buffer_mask q = cap - 1 -> slot_at q t = Some (mk_Slot s v) ->
  index (E := E) (buffer q) (slot_idx q t) = Ok (mk_Slot s v).
Proof.
  intros Hm Hs. rewrite (slot_idx_mod q t Hm). unfold index. pose proof (mod_range t).
  rewrite (proj2 (Z.leb_le _ _)) by lia. unfold slot_at in Hs. by rewrite Hs.
Qed.

(** The sequence number of a slot in the invariant is its position or one more. *)
Lemma phase_seq hist tl hd thr t s v : phase hist tl hd thr t s v -> s = t \/ s = t + 1.
Proof. intros []; auto. Qed.

(** The invariant of the slot of a position. *)
Lemma slot_of hist s t : inv hist s -> exists u n v, u mod cap = t mod cap /\ 0 <= u /\
  tail (queue s) <= u + cap /\ u < tail (queue s) + cap /\
  slot_at (queue s) t = Some (mk_Slot n v) /\ phase hist (tail (queue s)) (head (queue s)) (threads s) u n v.
Proof.
  intros Hinv. destruct (inv_slots _ _ Hinv (t mod cap) (mod_range t)) as (u & n & v & Hu & H0 & H1 & H2 & Hs & Hp).
  exists u, n, v. split_and!; try done. unfold slot_at in *. by rewrite <- Hu.
Qed.

(** A slot whose number is known is in the phase of that position. *)
Lemma slot_at_position hist s t n : inv hist s -> seq_at (queue s) t n -> n = t \/ n = t + 1 -> 0 <= t ->
  exists v, slot_at (queue s) t = Some (mk_Slot n v) /\ tail (queue s) <= t + cap /\ t < tail (queue s) + cap /\
    phase hist (tail (queue s)) (head (queue s)) (threads s) t n v.
Proof.
  intros Hinv (v & Hv) Hn H0. destruct (slot_of hist s t Hinv) as (u & n' & v' & Hu & Hu0 & H1 & H2 & Hs & Hp).
  rewrite Hv in Hs. injection Hs as <- <-. exists v. pose proof (phase_seq _ _ _ _ _ _ _ Hp) as Hn'. pose proof cap_bounds.
  destruct (mod_apart u t Hu) as [-> | Hap]; [by split_and! | lia].
Qed.

(** ** Steps that touch no slot *)

Definition no_claim (l : pc (T := T)) : Prop := forall t, ~ owns l t.

Lemma filling_claims l t : filling l t -> ~ no_claim l.
Proof. intros Hf Hn. by apply (Hn t); left. Qed.
Lemma emptying_claims l t : emptying l t -> ~ no_claim l.
Proof. intros Hf Hn. by apply (Hn t); right. Qed.

(** A thread with a claim in a phase is another one. *)
Lemma phase_threads hist tl hd thr i l l' t s v : thr !! i = Some l -> no_claim l ->
  phase hist tl hd thr t s v -> phase hist tl hd (<[i := l']> thr) t s v.
Proof.
  intros Hi Hn [? ? ? | j m ? ? Hj Hm | a | j m ? ? Hj Hm].
  - by apply phase_free.
  - eapply (phase_filling _ _ _ _ _ _ _ j m); try done. rewrite list_lookup_insert_ne; [done |]. intros <-.
    rewrite Hi in Hj. injection Hj as ->. by apply filling_claims in Hm.
  - by eapply phase_full.
  - eapply (phase_emptying _ _ _ _ _ _ _ j m); try done. rewrite list_lookup_insert_ne; [done |]. intros <-.
    rewrite Hi in Hj. injection Hj as ->. by apply emptying_claims in Hm.
Qed.

Lemma insert_cases i (l l' : pc (T := T)) thr j m : <[i := l']> thr !! j = Some m -> thr !! i = Some l ->
  (j = i /\ m = l') \/ (j <> i /\ thr !! j = Some m).
Proof.
  intros Hj Hi. destruct (decide (j = i)) as [-> | Hne].
  - left. apply list_lookup_insert_Some in Hj as [(_ & <- & _) | (? & _)]; done.
  - right. by rewrite list_lookup_insert_ne in Hj.
Qed.

Lemma inv_quiet hist q thr i l l' : inv hist (mk_system q thr) -> thr !! i = Some l -> no_claim l -> no_claim l' ->
  local_inv hist q l' -> inv hist (mk_system q (<[i := l']> thr)).
Proof.
  intros [Hm Hb Hbd Hsz Hh Hs Hl Ho] Hi Hn Hn' Hl'. split; cbn [queue threads] in *; try done.
  - intros c Hc. destruct (Hs c Hc) as (t & n & v & ? & ? & ? & ? & ? & Hp). exists t, n, v. split_and!; try done.
    by eapply phase_threads.
  - intros j m Hj. destruct (insert_cases _ _ _ _ _ _ Hj Hi) as [[-> ->] | [_ Hj']]; [done | by eapply Hl].
  - intros a b m m' t Ha Hb' Hom Hom'.
    destruct (insert_cases _ _ _ _ _ _ Ha Hi) as [[-> ->] | [_ Ha']]; [by destruct (Hn' t) |].
    destruct (insert_cases _ _ _ _ _ _ Hb' Hi) as [[-> ->] | [_ Hb'']]; [by destruct (Hn' t) |].
    by eapply Ho.
Qed.

(** ** Steps that change a claimed slot *)

(** What a claim says of the slot's number. *)
Definition claimed q (t s : Z) : Prop :=
  seq_at q t s /\ 0 <= t < tail q /\ ((s = t /\ head q <= t) \/ (s = t + 1 /\ t < head q)).

Lemma owner_claimed hist q l t : local_inv hist q l -> 0 <= head q <= tail q -> owns l t -> exists s, claimed q t s.
Proof.
  intros Hl Hb [[[v ->] | ->] | [-> | [v ->]]]; cbn [local_inv] in Hl.
  - destruct Hl as (? & ? & _). exists t. split_and!; [done | lia | lia | left; split; [done | lia]].
  - destruct Hl as (? & a & _ & Hs). exists t. split_and!; [by eexists | lia | lia | left; split; [done | lia]].
  - destruct Hl as (? & a & _ & Hs). exists (t + 1). split_and!; [by eexists | lia | lia | right; split; [done | lia]].
  - destruct Hl as (? & ? & _). exists (t + 1). split_and!; [done | lia | lia | right; split; [done | lia]].
Qed.

Lemma claimed_inj q t u s s' : claimed q t s -> claimed q u s' -> t mod cap = u mod cap -> t = u.
Proof.
  intros (Ht & _ & Hs) (Hu & _ & Hs') Hm. pose proof (same_slot q t u s s' Hm Ht Hu). pose proof cap_bounds.
  destruct (mod_apart t u Hm) as [| ?]; [done | lia].
Qed.

(** The other threads do not look at a claimed slot. *)
Lemma others_keep hist q thr i l t s x j m : buffer_mask q = cap - 1 -> 0 <= head q <= tail q ->
  (forall j l, thr !! j = Some l -> local_inv hist q l) ->
  (forall i j l m t, thr !! i = Some l -> thr !! j = Some m -> owns l t -> owns m t -> i = j) ->
  thr !! i = Some l -> owns l t -> claimed q t s -> thr !! j = Some m -> j <> i ->
  local_inv hist (set_slot q t x) m.
Proof.
  intros Hm Hb Hloc Hown Hi Ho Hcl Hj Hne. pose proof (Hloc j m Hj) as Hl.
  assert (forall u, owns m u -> u mod cap <> t mod cap) as Hdiff.
  { intros u Hu Hmod. destruct (owner_claimed hist q m u Hl Hb Hu) as [s' Hcl'].
    assert (u = t) as -> by (by eapply claimed_inj). apply Hne. by eapply Hown. }
  pose proof cap_bounds. destruct Hcl as (Hseq & Ht & Hs).
  assert (forall u n, u mod cap <> t mod cap -> seq_at q u n -> seq_at (set_slot q t x) u n) as Hkeep.
  { intros u n Hu (v & Hv). exists v. by rewrite set_slot_other. }
  destruct m as [| |? u|v u|v u|u| |u|u|u|u v]; cbn [local_inv tail head set_slot] in *; try done.
  - destruct Hl as [? Hu]. split; [done |]. intros Heq. apply Hkeep; [| by apply Hu]. intros Hmod.
    specialize (Hu Heq). pose proof (same_slot q u t u s Hmod Hu Hseq) as Hsu.
    destruct (mod_apart u t Hmod); lia.
  - destruct Hl as (? & ? & ?). split_and!; try done; [lia | lia |]. apply Hkeep; [| done]. apply Hdiff. left. left. by eexists.
  - destruct Hl as (? & a & ? & ?). split; [done |]. exists a. split; [done |]. rewrite set_slot_other; [done | done |].
    apply Hdiff. left. by right.
  - destruct Hl as [? Hu]. split; [done |]. intros Heq. apply Hkeep; [| by apply Hu]. intros Hmod.
    specialize (Hu Heq). pose proof (same_slot q u t _ s Hmod Hu Hseq) as Hsu.
    destruct (mod_apart u t Hmod); lia.
  - destruct Hl as (? & a & ? & ?). split; [done |]. exists a. split; [done |]. rewrite set_slot_other; [done | done |].
    apply Hdiff. right. by left.
  - destruct Hl as (? & ? & ?). split_and!; try done; [lia | lia |]. apply Hkeep; [| done]. apply Hdiff. right. right. by eexists.
Qed.

Lemma owns_unique l t u : owns l t -> owns l u -> t = u.
Proof.
  intros [[[v ->] | ->] | [-> | [v ->]]] [[[w Hw] | Hw] | [Hw | [w Hw]]]; congruence.
Qed.

Lemma inv_slot_update hist q thr i l l' t s x : inv hist (mk_system q thr) -> thr !! i = Some l -> owns l t ->
  claimed q t s -> (forall u, owns l' u -> u = t) -> local_inv hist (set_slot q t x) l' ->
  slot_inv hist (set_slot q t x) (<[i := l']> thr) (t mod cap) ->
  inv hist (mk_system (set_slot q t x) (<[i := l']> thr)).
Proof.
  intros [Hm Hb Hbd Hsz Hh Hs Hl Ho] Hi Hol Hcl Hol' Hl' Hslot. cbn [queue threads] in *.
  split; cbn [queue threads]; try done.
  - unfold set_slot. cbn [buffer]. unfold len. by rewrite length_insert.
  - intros c Hc. destruct (decide (c = t mod cap)) as [-> | Hne]; [done |].
    destruct (Hs c Hc) as (u & n & v & Hu & ? & ? & ? & Hat & Hp). exists u, n, v. split_and!; try done.
    { rewrite set_slot_other; [done | done | by rewrite Hu]. }
    assert (forall m, thr !! i = Some m -> owns m u -> False) as Hno.
    { intros m Hi' Hom. rewrite Hi in Hi'. injection Hi' as <-. apply Hne. rewrite <- Hu. f_equal. by eapply owns_unique. }
    destruct Hp as [? ? ? | j m ? ? Hj Hmf | a | j m ? ? Hj Hmf].
    + by apply phase_free.
    + eapply (phase_filling _ _ _ _ _ _ _ j m); try done. rewrite list_lookup_insert_ne; [done |]. intros <-.
      eapply Hno; [exact Hj | by left].
    + by eapply phase_full.
    + eapply (phase_emptying _ _ _ _ _ _ _ j m); try done. rewrite list_lookup_insert_ne; [done |]. intros <-.
      eapply Hno; [exact Hj | by right].
  - intros j m Hj. destruct (insert_cases _ _ _ _ _ _ Hj Hi) as [[-> ->] | [Hne Hj']]; [done |].
    by eapply (others_keep hist q thr i l t s x j m).
  - intros a b m m' u Ha Hb' Hom Hom'.
    destruct (insert_cases _ _ _ _ _ _ Ha Hi) as [[-> ->] | [Hai Ha']];
      destruct (insert_cases _ _ _ _ _ _ Hb' Hi) as [[-> ->] | [Hbi Hb'']]; [done | | | by eapply Ho].
    + apply Hol' in Hom as ->. symmetry. by eapply (Ho b i).
    + apply Hol' in Hom' as ->. by eapply (Ho a i).
Qed.

(** The four steps on a claimed slot. *)
Ltac claim_step Hinv Hi t n :=
  let Hl := fresh "Hl" in
  pose proof (inv_local _ _ Hinv _ _ Hi) as Hl; cbn [local_inv queue] in Hl;
  pose proof (inv_mask _ _ Hinv) as Hmask; pose proof (inv_buffer _ _ Hinv) as Hlen;
  pose proof (inv_bounds _ _ Hinv) as Hbds; cbn [queue] in Hmask, Hlen, Hbds.

Lemma inv_write hist q thr i v t : inv hist (mk_system q thr) -> thr !! i = Some (PushWrite v t) ->
  exists w, slot_at q t = Some (mk_Slot t w) /\
    inv hist (mk_system (set_slot q t (mk_Slot t (Some v))) (<[i := PushStore t]> thr)).
Proof.
  intros Hinv Hi. claim_step Hinv Hi t t. destruct Hl as (Hht & Hseq & Hhist).
  destruct (slot_at_position hist _ t t Hinv Hseq) as (w & Hw & Hlo & Hhi & _); [by left | lia |]. exists w. split; [done |].
  eapply (inv_slot_update hist q thr i _ _ t t); [done | done | left; left; by eexists | | | |].
  - split_and!; [done | lia | lia | left; split; [done | lia]].
  - intros u [[[? ?] | [= <-]] | [? | [? ?]]]; done.
  - cbn [local_inv]. split; [done |]. exists v. split; [done |]. by apply set_slot_same.
  - exists t, t, (Some v). split_and!; try done; [lia | by apply set_slot_same |].
    eapply (phase_filling _ _ _ _ _ _ _ i (PushStore t)); [done | done | | by right].
    apply list_lookup_insert_eq. by eapply lookup_lt_Some.
Qed.

Lemma inv_publish hist q thr i t : inv hist (mk_system q thr) -> thr !! i = Some (PushStore t) ->
  exists a, hist !! Z.to_nat t = Some a /\ slot_at q t = Some (mk_Slot t (Some a)) /\ 0 <= t < tail q /\
    inv hist (mk_system (set_slot q t (mk_Slot (t + 1) (Some a))) (<[i := Idle]> thr)).
Proof.
  intros Hinv Hi. claim_step Hinv Hi t t. destruct Hl as (Hht & a & Hhist & Hat).
  destruct (slot_at_position hist _ t t Hinv ltac:(by eexists)) as (w & Hw & Hlo & Hhi & _); [by left | lia |].
  exists a. split_and!; [done | done | lia | lia |].
  eapply (inv_slot_update hist q thr i _ _ t t); [done | done | left; by right | | | done |].
  - split_and!; [by eexists | lia | lia | left; split; [done | lia]].
  - intros u [[[? ?] | ?] | [? | [? ?]]]; done.
  - exists t, (t + 1), (Some a). split_and!; try done; [lia | by apply set_slot_same |].
    by eapply phase_full.
Qed.

Lemma inv_read hist q thr i h : inv hist (mk_system q thr) -> thr !! i = Some (PopRead h) ->
  exists a, hist !! Z.to_nat h = Some a /\ slot_at q h = Some (mk_Slot (h + 1) (Some a)) /\
    inv hist (mk_system (set_slot q h (mk_Slot (h + 1) None)) (<[i := PopStore h a]> thr)).
Proof.
  intros Hinv Hi. claim_step Hinv Hi h (h + 1). destruct Hl as (Hht & a & Hhist & Hat).
  destruct (slot_at_position hist _ h (h + 1) Hinv ltac:(by eexists)) as (w & Hw & Hlo & Hhi & _); [by right | lia |].
  exists a. split_and!; [done | done |].
  eapply (inv_slot_update hist q thr i _ _ h (h + 1)); [done | done | right; by left | | | |].
  - split_and!; [by eexists | lia | lia | right; split; [done | lia]].
  - intros u [[[? ?] | ?] | [? | [? [= <- _]]]]; done.
  - cbn [local_inv]. split_and!; [lia | cbn; lia | | done]. exists None. by apply set_slot_same.
  - exists h, (h + 1), None. split_and!; try done; [lia | by apply set_slot_same |].
    eapply (phase_emptying _ _ _ _ _ _ _ i (PopStore h a)); [done | cbn; lia | | right; by eexists].
    apply list_lookup_insert_eq. by eapply lookup_lt_Some.
Qed.

Lemma inv_release hist q thr i h a : inv hist (mk_system q thr) -> thr !! i = Some (PopStore h a) ->
  exists w, slot_at q h = Some (mk_Slot (h + 1) w) /\ 0 <= h < tail q /\
    inv hist (mk_system (set_slot q h (mk_Slot (h + cap) w)) (<[i := Idle]> thr)).
Proof.
  intros Hinv Hi. claim_step Hinv Hi h (h + 1). destruct Hl as (Hht & Hseq & Hhist).
  destruct (slot_at_position hist _ h (h + 1) Hinv Hseq) as (w & Hw & Hlo & Hhi & _); [by right | lia |].
  pose proof cap_bounds. exists w. split_and!; [done | lia | lia |].
  eapply (inv_slot_update hist q thr i _ _ h (h + 1)); [done | done | right; right; by eexists | | | done |].
  - split_and!; [done | lia | lia | right; split; [done | lia]].
  - intros u [[[? ?] | ?] | [? | [? ?]]]; done.
  - assert ((h + cap) mod cap = h mod cap) as Hmod.
    { rewrite <- (Z.mul_1_l cap) at 1. apply Z.mod_add. lia. }
    exists (h + cap), (h + cap), w. cbn [tail head set_slot]. split_and!; [done | lia | cbn in Hlo; lia | lia | |].
    + by apply set_slot_at.
    + apply phase_free; [done | cbn in Hlo; lia | lia].
Qed.

(** ** The compare-and-swaps *)

Definition with_tail q (t : Z) : MPMCQueue (T := T) := mk_MPMCQueue (buffer_mask q) (buffer q) t (head q).
Definition with_head q (h : Z) : MPMCQueue (T := T) := mk_MPMCQueue (buffer_mask q) (buffer q) (tail q) h.

Lemma lookup_push hist v t a : hist !! t = Some a -> (hist ++ [v]) !! t = Some a.
Proof. intros Ht. rewrite lookup_app_l; [done |]. by eapply lookup_lt_Some. Qed.

Lemma phase_push hist tl hd thr t s w v : phase hist tl hd thr t s w -> t <> tl -> phase (hist ++ [v]) (tl + 1) hd thr t s w.
Proof.
  intros [? ? ? | j l ? ? ? ? | a ? ? Ha ? | j l ? ? ? ?] Ht.
  - apply phase_free; [done | lia | done].
  - by eapply (phase_filling _ _ _ _ _ _ _ j l); [done | lia | |].
  - eapply phase_full; [done | lia | by apply lookup_push | done].
  - by eapply (phase_emptying _ _ _ _ _ _ _ j l).
Qed.

Lemma local_push hist q v m : local_inv hist q m -> local_inv (hist ++ [v]) (with_tail q (tail q + 1)) m.
Proof.
  destruct m as [| |? u|w u|w u|u| |u|u|u|u w]; cbn [local_inv with_tail tail head]; intros Hl; try done.
  - lia.
  - split; [lia |]. lia.
  - destruct Hl as (? & ? & ?). split_and!; [lia | lia | done | by apply lookup_push].
  - destruct Hl as (? & a & ? & ?). split; [lia |]. exists a. split; [by apply lookup_push | done].
  - destruct Hl as (? & a & ? & ?). split; [lia |]. exists a. split; [by apply lookup_push | done].
  - destruct Hl as (? & ? & ?). split_and!; [lia | lia | done | by apply lookup_push].
Qed.

(** A claim on a position nobody claims keeps every position with one owner. *)
Lemma fresh_claim thr i l l' t : (forall i j l m t, thr !! i = Some l -> thr !! j = Some m -> owns l t -> owns m t -> i = j) ->
  thr !! i = Some l -> owns l' t -> (forall j m, thr !! j = Some m -> ~ owns m t) ->
  forall a b m m' u, <[i := l']> thr !! a = Some m -> <[i := l']> thr !! b = Some m' -> owns m u -> owns m' u -> a = b.
Proof.
  intros Ho Hi Hl' Hnone a b m m' u Ha Hb Hom Hom'.
  destruct (insert_cases _ _ _ _ _ _ Ha Hi) as [[-> ->] | [_ Ha']];
    destruct (insert_cases _ _ _ _ _ _ Hb Hi) as [[-> ->] | [_ Hb']]; [done | | | by eapply Ho].
  - pose proof (owns_unique _ _ _ Hom Hl') as ->. by destruct (Hnone b m').
  - pose proof (owns_unique _ _ _ Hom' Hl') as ->. by destruct (Hnone a m).
Qed.

(** The invariant's slots when thread [i] takes the claim on [t]. *)
Lemma inv_enqueue hist q thr i v : inv hist (mk_system q thr) -> thr !! i = Some (PushCas v (tail q)) ->
  tail q - head q < cap /\
  inv (hist ++ [v]) (mk_system (with_tail q (tail q + 1)) (<[i := PushWrite v (tail q)]> thr)).
Proof.
  intros Hinv Hi. pose proof (inv_local _ _ Hinv _ _ Hi) as Hl. cbn [local_inv queue] in Hl.
  destruct Hl as [Ht Hseq]. specialize (Hseq eq_refl).
  destruct (slot_at_position hist _ _ _ Hinv Hseq) as (w & Hw & _ & _ & Hp); [by left | lia |]. cbn [queue threads] in *.
  destruct Hinv as [Hm Hb Hbd Hsz Hh Hs Hloc Ho]. cbn [queue threads] in *. pose proof cap_bounds.
  assert (tail q - head q < cap) as Hfree by (destruct Hp; lia). split; [done |].
  assert (no_claim (PushCas v (tail q))) as Hno by (intros u [[[? ?] | ?] | [? | [? ?]]]; done).
  assert (hist !! Z.to_nat (tail q) = None) as Hend by (apply lookup_ge_None; unfold len in Hh; lia).
  split; cbn [queue threads with_tail tail head buffer buffer_mask]; try done; [lia | lia | rewrite len_app; change (len [v]) with 1; lia | | |].
  - intros c Hc. destruct (Hs c Hc) as (u & n & x & Hu & ? & ? & ? & Hat & Hpu).
    destruct (decide (u = tail q)) as [-> | Hne].
    + exists (tail q), (tail q), w. cbn [tail head with_tail with_head]. split_and!; [done | lia | lia | lia | done |].
      eapply (phase_filling _ _ _ _ _ _ _ i (PushWrite v (tail q))); [done | lia | | left; by eexists].
      apply list_lookup_insert_eq. by eapply lookup_lt_Some.
    + assert (u + cap <> tail q) as Hne'.
      { intros Heq. assert (seq_at q u (tail q)) as (y & Hy).
        { exists w. unfold slot_at in *. rewrite <- Hw. do 2 f_equal. rewrite <- Heq. symmetry.
          rewrite <- (Z.mul_1_l cap) at 1. apply Z.mod_add. lia. }
        rewrite Hat in Hy. injection Hy as -> _. apply phase_seq in Hpu. lia. }
      exists u, n, x. cbn [tail head with_tail with_head]. split_and!; [done | lia | lia | lia | done |].
      eapply phase_threads; [done | done |]. by apply phase_push.
  - intros j m Hj. destruct (insert_cases _ _ _ _ _ _ Hj Hi) as [[-> ->] | [Hne Hj']].
    + cbn [local_inv tail head with_tail with_head]. split_and!; [lia | lia | by exists w |].
      rewrite lookup_app_r by (unfold len in Hh; lia). unfold len in Hh.
      replace (Z.to_nat (tail q) - length hist)%nat with 0%nat by lia. done.
    + by apply local_push, (Hloc j).
  - apply (fresh_claim thr i (PushCas v (tail q)) _ (tail q) Ho Hi); [left; left; by eexists |]. intros c l Hc Hol.
    destruct (owner_claimed hist q l (tail q) (Hloc c l Hc) Hbd Hol) as (? & _ & ? & _). lia.
Qed.

Lemma inv_dequeue hist q thr i : inv hist (mk_system q thr) -> thr !! i = Some (PopCas (head q)) ->
  exists a, hist !! Z.to_nat (head q) = Some a /\
    inv hist (mk_system (with_head q (head q + 1)) (<[i := PopRead (head q)]> thr)).
Proof.
  intros Hinv Hi. pose proof (inv_local _ _ Hinv _ _ Hi) as Hl. cbn [local_inv queue] in Hl.
  destruct Hl as [Ht Hseq]. specialize (Hseq eq_refl).
  destruct (slot_at_position hist _ _ _ Hinv Hseq) as (w & Hw & Hlo & Hhi & Hp); [by right | lia |]. cbn [queue threads] in *.
  destruct Hinv as [Hm Hb Hbd Hsz Hh Hs Hloc Ho]. cbn [queue threads] in *. pose proof cap_bounds.
  assert (exists a, hist !! Z.to_nat (head q) = Some a /\ w = Some a /\ head q < tail q) as (a & Ha & -> & Hlt).
  { destruct Hp as [? | ? ? ? | a ? ? ? ? | ? ? ? ?]; [lia | lia | exists a; by split_and!; [| | lia] | lia]. }
  exists a. split; [done |].
  assert (no_claim (PopCas (head q))) as Hno by (intros u [[[? ?] | ?] | [? | [? ?]]]; done).
  assert (forall u n, seq_at q u n -> n = u -> u <> head q) as Hdiff.
  { intros u n Hun -> ->. destruct Hun as (x & Hx). rewrite Hw in Hx. injection Hx as Hx _. lia. }
  split; cbn [queue threads with_head tail head buffer buffer_mask]; try done; [lia | lia | | |].
  - intros c Hc. destruct (Hs c Hc) as (u & n & x & Hu & ? & ? & ? & Hat & Hpu).
    exists u, n, x. cbn [tail head with_tail with_head]. split_and!; try done.
    destruct (decide (u = head q)) as [-> | Hne].
    + assert (slot_at q (head q) = Some (mk_Slot n x)) as Hat' by done. rewrite Hw in Hat'. injection Hat' as <- <-.
      eapply (phase_emptying _ _ _ _ _ _ _ i (PopRead (head q))); [done | lia | | by left].
      apply list_lookup_insert_eq. by eapply lookup_lt_Some.
    + eapply phase_threads; [done | done |]. destruct Hpu as [? ? ? | j l ? ? ? ? | b ? ? Hb' ? | j l ? ? ? ?].
      * apply phase_free; [done | done | lia].
      * by eapply (phase_filling _ _ _ _ _ _ _ j l); [done | lia | |].
      * eapply phase_full; [done | lia | done | done].
      * by eapply (phase_emptying _ _ _ _ _ _ _ j l); [done | lia | |].
  - intros j m Hj. destruct (insert_cases _ _ _ _ _ _ Hj Hi) as [[-> ->] | [Hne Hj']].
    + cbn [local_inv tail head with_tail with_head]. split; [lia |]. by exists a.
    + specialize (Hloc j m Hj'). destruct m as [| |? u|y u|y u|u| |u|u|u|u y]; cbn [local_inv tail head with_tail with_head] in *; try done.
      * destruct Hloc as (? & Hu & ?). split_and!; try done; [| lia]. pose proof (Hdiff u u Hu eq_refl). lia.
      * destruct Hloc as (? & b & ? & Hu). split; [| by exists b]. pose proof (Hdiff u u ltac:(by eexists) eq_refl). lia.
      * lia.
      * split; [lia |]. lia.
      * destruct Hloc as (? & ?). split; [lia | done].
      * destruct Hloc as (? & ?). split; [lia | done].
  - apply (fresh_claim thr i (PopCas (head q)) _ (head q) Ho Hi); [right; by left |]. intros c l Hc Hol.
    destruct (owner_claimed hist q l (head q) (Hloc c l Hc) Hbd Hol) as (n & Hn & _ & [[-> _] | [_ ?]]); [| lia].
    by apply (Hdiff (head q) (head q)).
Qed.

(** ** The refinement *)

Definition status_of hist (l : pc (T := T)) : status (T := T) :=
  match l with
  | Idle => NoCall
  | PushLoad v | PushSeq v _ | PushCas v _ => Pushing v
  | PushWrite _ _ | PushStore _ => Enqueued
  | PopLoad | PopSeq _ | PopCas _ => Popping
  | PopRead h => match hist !! Z.to_nat h with Some a => Dequeued a | None => Popping end
  | PopStore _ a => Dequeued a
  end.

(** The abstract queue of a state: what was enqueued and not dequeued. *)
Definition abs hist (s : system (T := T)) : spec (T := T) :=
  mk_spec (drop (Z.to_nat (head (queue s))) hist) (status_of hist <$> threads s).

(** A step that changes one thread's status, or none. *)
Lemma abs_thread hist q q' thr i l' : head q' = head q ->
  abs hist (mk_system q' (<[i := l']> thr)) =
  mk_spec (fifo (abs hist (mk_system q thr))) (<[i := status_of hist l']> (calls (abs hist (mk_system q thr)))).
Proof. intros Hh. unfold abs. cbn [queue threads fifo calls]. by rewrite Hh, list_fmap_insert. Qed.

Lemma abs_status hist s i l : threads s !! i = Some l -> calls (abs hist s) !! i = Some (status_of hist l).
Proof. intros Hi. unfold abs. cbn [calls]. by rewrite list_lookup_fmap, Hi. Qed.

Lemma abs_same hist q q' thr i l l' : thr !! i = Some l -> head q' = head q -> status_of hist l' = status_of hist l ->
  abs hist (mk_system q' (<[i := l']> thr)) = abs hist (mk_system q thr).
Proof.
  intros Hi Hh Hs. rewrite (abs_thread _ q) by done. rewrite Hs, list_insert_id; [done |]. by apply (abs_status hist (mk_system q thr)).
Qed.

Lemma len_fifo hist s : inv hist s -> len (fifo (abs hist s)) = tail (queue s) - head (queue s).
Proof.
  intros Hinv. pose proof (inv_hist _ _ Hinv). pose proof (inv_bounds _ _ Hinv). unfold abs, len in *. cbn [fifo].
  rewrite length_drop. lia.
Qed.

Lemma isize_sub_small a b : 0 <= a < 2 ^ 63 -> 0 <= b < 2 ^ 63 -> isize_sub a b = a - b.
Proof.
  intros Ha Hb. unfold isize_sub, as_isize, wrap64. rewrite (proj2 (Z.ltb_lt a (2 ^ 63))), (proj2 (Z.ltb_lt b (2 ^ 63))) by lia.
  destruct (Z.le_gt_cases b a).
  - rewrite Z.mod_small by lia. rewrite (proj2 (Z.ltb_lt _ _)) by lia. done.
  - assert ((a - b) mod 2 ^ 64 = a - b + 2 ^ 64) as -> by (symmetry; apply (Z.mod_unique_pos _ _ (-1)); lia).
    rewrite (proj2 (Z.ltb_ge _ _)) by lia. lia.
Qed.

(** The difference a thread computes. *)
Lemma read_diff hist s t d : inv hist s -> tail (queue s) < 2 ^ 62 -> 0 <= t <= tail (queue s) -> 0 <= d <= 1 ->
  exists u n x, index (E := fuel_error) (buffer (queue s)) (slot_idx (queue s) t) = Ok (mk_Slot n x) /\
    slot_at (queue s) t = Some (mk_Slot n x) /\ isize_sub n (wrap64 (t + d)) = n - (t + d) /\
    u mod cap = t mod cap /\ tail (queue s) <= u + cap /\ u < tail (queue s) + cap /\
    phase hist (tail (queue s)) (head (queue s)) (threads s) u n x.
Proof.
  intros Hinv Hb Ht Hd. destruct (slot_of hist s t Hinv) as (u & n & x & Hu & Hu0 & H1 & H2 & Hs & Hp).
  pose proof (inv_mask _ _ Hinv) as Hm. pose proof cap_bounds. pose proof (phase_seq _ _ _ _ _ _ _ Hp).
  exists u, n, x. split_and!; try done; [by eapply read_slot |].
  rewrite wrap64_small by (unfold is_u64; lia). apply isize_sub_small; lia.
Qed.

(** A push that finds its slot behind: the queue is full, or a pop has not
    cleared the slot. *)
Lemma full_cause hist s t u n x : inv hist s -> 0 <= t <= tail (queue s) -> u mod cap = t mod cap ->
  tail (queue s) <= u + cap -> phase hist (tail (queue s)) (head (queue s)) (threads s) u n x -> n < t ->
  may_be_full cap (abs hist s).
Proof.
  intros Hinv Ht Hu Hlo Hp Hn. pose proof (phase_seq _ _ _ _ _ _ _ Hp) as Hns. pose proof cap_bounds.
  assert (t = tail (queue s) /\ u = t - cap) as [-> ->] by (destruct (mod_apart u t Hu) as [-> | ?]; lia).
  pose proof (inv_size _ _ Hinv). unfold may_be_full. rewrite (len_fifo hist s Hinv).
  destruct Hp as [? ? ? | j l ? ? ? ? | a ? ? ? ? | j l ? ? Hj Hl]; [lia | left; lia | left; lia |].
  right. exists j. pose proof (inv_local _ _ Hinv j l Hj) as Hloc. destruct Hl as [-> | [a ->]].
  - destruct Hloc as (_ & a & Ha & _). exists a. rewrite (abs_status hist s j _ Hj). cbn [status_of]. by rewrite Ha.
  - exists a. by rewrite (abs_status hist s j _ Hj).
Qed.

Lemma empty_cause hist s h u n x : inv hist s -> 0 <= h <= head (queue s) -> u mod cap = h mod cap ->
  tail (queue s) <= u + cap -> phase hist (tail (queue s)) (head (queue s)) (threads s) u n x -> n < h + 1 ->
  may_be_empty (abs hist s).
Proof.
  intros Hinv Hh Hu Hlo Hp Hn. pose proof (phase_seq _ _ _ _ _ _ _ Hp) as Hns. pose proof cap_bounds.
  pose proof (inv_bounds _ _ Hinv). pose proof (inv_hist _ _ Hinv) as Hhist.
  assert (head (queue s) = tail (queue s) -> fifo (abs hist s) = []) as Hempty.
  { intros Heq. unfold abs. cbn [fifo]. apply drop_ge. unfold len in Hhist. lia. }
  destruct (mod_apart u h Hu) as [-> | [Hap | Hap]]; [| left; apply Hempty; lia | lia].
  destruct Hp as [? ? ? | j l ? ? Hj Hl | a ? ? ? ? | j l ? ? ? ?]; [left; apply Hempty; lia | | lia | lia].
  right. exists j. rewrite (abs_status hist s j l Hj). by destruct Hl as [[v ->] | ->].
Qed.

(** ** Steps refine *)

(** What a step of thread [i] leaves: the invariant, and a step of the abstract
    queue, or none. *)
Definition step_post hist q thr (i : nat) (r : outcome fuel_error (MPMCQueue (T := T) * pc (T := T) * option (event (T := T)))) : Prop :=
  exists q' l' ev hist', r = Ok (q', l', ev) /\ inv hist' (mk_system q' (<[i := l']> thr)) /\
    spec_run cap (abs hist (mk_system q thr)) (match ev with Some ev => [(i, ev)] | None => [] end)
      (abs hist' (mk_system q' (<[i := l']> thr))) /\
    tail q' <= tail q + 1.

Lemma spec_one c (s s' : spec (T := T)) ev : spec_step c s ev s' -> spec_run c s [ev] s'.
Proof. intros Hs. eapply spec_cons; [exact Hs | constructor]. Qed.

(** A step that only moves the thread on. *)
Lemma post_silent hist q thr i l l' : inv hist (mk_system q thr) -> thr !! i = Some l -> no_claim l -> no_claim l' ->
  local_inv hist q l' -> status_of hist l' = status_of hist l -> step_post hist q thr i (Ok (q, l', None)).
Proof.
  intros Hinv Hi Hn Hn' Hl Hs. exists q, l', None, hist. split_and!; [done | by eapply inv_quiet | | lia].
  rewrite (abs_same hist q q thr i l l') by done. constructor.
Qed.

(** A step that ends the call without an effect on the queue. *)
Lemma post_event hist q q' thr i l l' ev : inv hist (mk_system q' (<[i := l']> thr)) -> thr !! i = Some l ->
  head q' = head q -> tail q' = tail q ->
  spec_step cap (abs hist (mk_system q thr)) (i, ev)
    (mk_spec (fifo (abs hist (mk_system q thr))) (<[i := status_of hist l']> (calls (abs hist (mk_system q thr))))) ->
  step_post hist q thr i (Ok (q', l', Some ev)).
Proof.
  intros Hinv Hi Hh Ht Hs. exists q', l', (Some ev), hist. split_and!; [done | done | | lia].
  apply spec_one. by rewrite (abs_thread hist q q').
Qed.

(** A step on a claimed slot within a call. *)
Lemma post_slot hist q q' thr i l l' : inv hist (mk_system q' (<[i := l']> thr)) -> thr !! i = Some l ->
  head q' = head q -> tail q' = tail q -> status_of hist l' = status_of hist l ->
  step_post hist q thr i (Ok (q', l', None)).
Proof.
  intros Hinv Hi Hh Ht Hs. exists q', l', None, hist. split_and!; [done | done | | lia].
  rewrite (abs_same hist q q' thr i l l') by done. constructor.
Qed.

Ltac no_claim := intros ? [[[? ?] | ?] | [? | [? ?]]]; congruence.

(** Appending to the history changes no status. *)
Lemma status_push hist q thr v : inv hist (mk_system q thr) -> status_of (hist ++ [v]) <$> thr = status_of hist <$> thr.
Proof.
  intros Hinv. apply list_fmap_ext. intros j m Hj. pose proof (inv_local _ _ Hinv j m Hj) as Hl.
  destruct m; cbn [status_of]; try done. destruct Hl as (_ & a & Ha & _). by rewrite (lookup_push hist v _ a Ha), Ha.
Qed.

Lemma push_step_ok hist q thr i l weak_ok : inv hist (mk_system q thr) -> tail q < 2 ^ 62 -> thr !! i = Some l ->
  (exists v, status_of hist l = Pushing v) \/ status_of hist l = Enqueued ->
  step_post hist q thr i (push_step weak_ok q l).
Proof.
  intros Hinv Hb Hi Hst. pose proof (inv_local _ _ Hinv _ _ Hi) as Hl. pose proof (inv_mask _ _ Hinv) as Hm.
  pose proof (inv_bounds _ _ Hinv) as Hbd. pose proof (abs_status hist (mk_system q thr) i l Hi) as Hcall. cbn [queue] in *.
  destruct l as [|v|v t|v t|v t|t| |h|h|h|h a];
    try (destruct Hst as [[w Hst] | Hst]; cbn [status_of] in Hst; try destruct (hist !! Z.to_nat h); done);
    cbn [push_step status_of] in *.
  - eapply post_silent; try done; [no_claim | no_claim | cbn; lia].
  - destruct (read_diff hist _ t 0 Hinv Hb Hl) as (u & n & x & Hidx & Hat & Hd & Hu & Hlo & Hhi & Hp); [lia |]. cbn [queue threads] in *.
    rewrite Hidx. cbn [mbind outcome_bind sequence]. cbn [local_inv] in Hl. rewrite Z.add_0_r, wrap64_small in Hd by (unfold is_u64; lia). rewrite Hd.
    destruct (Z.eqb_spec (n - t) 0) as [Hz |]; [| destruct (Z.ltb_spec (n - t) 0)].
    + eapply post_silent; try done; [no_claim | no_claim |]. cbn [local_inv]. split; [done |]. intros _. exists x. rewrite Hat. do 2 f_equal. lia.
    + eapply post_event; try done; [eapply inv_quiet; try done; no_claim |]. apply spec_return_full; [done |].
      eapply (full_cause hist _ t u n x Hinv); try done. lia.
    + eapply post_silent; try done; no_claim.
  - destruct (Z.eqb_spec (tail q) t) as [<- |]; [destruct weak_ok |]; cbn [andb].
    2,3: eapply post_silent; try done; [no_claim | no_claim | cbn; lia].
    destruct (inv_enqueue hist q thr i v Hinv Hi) as [Hfree Hinv'].
    exists (with_tail q (tail q + 1)), (PushWrite v (tail q)), (Some Enqueue), (hist ++ [v]). split_and!; [| done | | cbn; lia].
    { rewrite wrap64_small by (unfold is_u64; lia). done. }
    apply spec_one. pose proof (len_fifo hist _ Hinv) as Hlen. cbn [queue] in Hlen.
    assert (abs (hist ++ [v]) (mk_system (with_tail q (tail q + 1)) (<[i := PushWrite v (tail q)]> thr)) =
      mk_spec (fifo (abs hist (mk_system q thr)) ++ [v]) (<[i := Enqueued]> (calls (abs hist (mk_system q thr))))) as ->.
    { unfold abs. cbn [queue threads fifo calls with_tail head]. rewrite list_fmap_insert, (status_push hist q thr v Hinv).
      f_equal. pose proof (inv_hist _ _ Hinv). unfold len in *. apply drop_app_le. cbn in *. lia. }
    apply spec_enqueue; [done | lia].
  - destruct (inv_write hist q thr i v t Hinv Hi) as (w & Hw & Hinv'). rewrite (read_slot q t t w Hm Hw).
    by eapply post_slot.
  - destruct (inv_publish hist q thr i t Hinv Hi) as (a & Ha & Hw & Hr & Hinv'). rewrite (read_slot q t t _ Hm Hw).
    cbn [mbind outcome_bind value]. rewrite wrap64_small by (unfold is_u64; lia).
    eapply post_event; try done. by apply spec_return_push.
Qed.

Lemma pop_step_ok hist q thr i l weak_ok : inv hist (mk_system q thr) -> tail q < 2 ^ 62 -> thr !! i = Some l ->
  status_of hist l = Popping \/ (exists v, status_of hist l = Dequeued v) ->
  step_post hist q thr i (pop_step weak_ok q l).
Proof.
  intros Hinv Hb Hi Hst. pose proof (inv_local _ _ Hinv _ _ Hi) as Hl. pose proof (inv_mask _ _ Hinv) as Hm.
  pose proof (inv_bounds _ _ Hinv) as Hbd. pose proof (abs_status hist (mk_system q thr) i l Hi) as Hcall. cbn [queue] in *.
  destruct l as [|v|v t|v t|v t|t| |h|h|h|h a]; try (by destruct Hst as [Hst | [w Hst]]); cbn [pop_step] in *.
  - eapply post_silent; try done; [no_claim | no_claim | cbn; lia].
  - assert (0 <= h <= tail q) as Hh by (cbn [local_inv] in Hl; lia).
    destruct (read_diff hist _ h 1 Hinv Hb Hh) as (u & n & x & Hidx & Hat & Hd & Hu & Hlo & Hhi & Hp); [lia |]. cbn [queue threads] in *.
    rewrite Hidx. cbn [mbind outcome_bind sequence]. rewrite Hd.
    destruct (Z.eqb_spec (n - (h + 1)) 0) as [Hz |]; [| destruct (Z.ltb_spec (n - (h + 1)) 0)].
    + eapply post_silent; try done; [no_claim | no_claim |]. cbn [local_inv]. split; [done |]. intros _. exists x. rewrite Hat. do 2 f_equal. lia.
    + eapply post_event; try done; [eapply inv_quiet; try done; no_claim |]. apply spec_return_empty; [done |].
      eapply (empty_cause hist _ h u n x Hinv); try done. lia.
    + eapply post_silent; try done; no_claim.
  - destruct (Z.eqb_spec (head q) h) as [<- |]; [destruct weak_ok |]; cbn [andb].
    2,3: eapply post_silent; try done; [no_claim | no_claim | cbn; lia].
    destruct (inv_dequeue hist q thr i Hinv Hi) as (a & Ha & Hinv').
    exists (with_head q (head q + 1)), (PopRead (head q)), (Some Dequeue), hist. split_and!; [| done | | cbn; lia].
    { rewrite wrap64_small by (unfold is_u64; lia). done. }
    apply spec_one.
    assert (fifo (abs hist (mk_system q thr)) = a :: drop (Z.to_nat (head q + 1)) hist) as Hf.
    { unfold abs. cbn [queue fifo]. rewrite (drop_S _ _ _ Ha). do 2 f_equal. lia. }
    assert (abs hist (mk_system (with_head q (head q + 1)) (<[i := PopRead (head q)]> thr)) =
      mk_spec (drop (Z.to_nat (head q + 1)) hist) (<[i := Dequeued a]> (calls (abs hist (mk_system q thr))))) as ->.
    { unfold abs. cbn [queue threads fifo calls with_head head]. rewrite list_fmap_insert. cbn [status_of]. by rewrite Ha. }
    destruct (abs hist (mk_system q thr)) as [f cs]. cbn [fifo calls] in *. subst f. by apply spec_dequeue.
  - destruct (inv_read hist q thr i h Hinv Hi) as (a & Ha & Hw & Hinv'). rewrite (read_slot q h _ _ Hm Hw).
    cbn [mbind outcome_bind value sequence]. eapply post_slot; try done. cbn [status_of]. by rewrite Ha.
  - destruct (inv_release hist q thr i h a Hinv Hi) as (w & Hw & Hr & Hinv'). rewrite (read_slot q h _ _ Hm Hw).
    cbn [mbind outcome_bind value]. pose proof cap_bounds. rewrite Hm.
    replace (wrap64 (h + wrap64 (cap - 1 + 1))) with (h + cap)
      by (rewrite Z.sub_add, !wrap64_small; [done | unfold is_u64; lia.. | rewrite ?wrap64_small; unfold is_u64; lia]).
    eapply post_event; try done. by apply spec_return_pop.
Qed.

Lemma thread_step_ok hist q thr i l weak_ok : inv hist (mk_system q thr) -> tail q < 2 ^ 62 -> thr !! i = Some l ->
  step_post hist q thr i (thread_step weak_ok q l).
Proof.
  intros Hinv Hb Hi. pose proof (inv_local _ _ Hinv _ _ Hi) as Hl. cbn [queue] in Hl.
  destruct l as [|v|v t|v t|v t|t| |h|h|h|h a]; cbn [thread_step].
  - eapply post_silent; try done; no_claim.
  - apply push_step_ok; try done. left. by eexists.
  - apply push_step_ok; try done. left. by eexists.
  - apply push_step_ok; try done. left. by eexists.
  - apply push_step_ok; try done. by right.
  - apply push_step_ok; try done. by right.
  - apply pop_step_ok; try done. by left.
  - apply pop_step_ok; try done. by left.
  - apply pop_step_ok; try done. by left.
  - apply pop_step_ok; try done. right. destruct Hl as (_ & a & Ha & _). exists a. cbn [status_of]. by rewrite Ha.
  - apply pop_step_ok; try done. right. by eexists.
Qed.

Lemma act_ok a hist s : inv hist s -> tail (queue s) < 2 ^ 62 ->
  exists s' tr hist', act a s = Ok (s', tr) /\ inv hist' s' /\ spec_run cap (abs hist s) tr (abs hist' s') /\
    tail (queue s') <= tail (queue s) + 1.
Proof.
  destruct s as [q thr]. cbn [queue]. intros Hinv Hb.
  assert (exists s' tr hist', Ok (E := fuel_error) (mk_system q thr, []) = Ok (s', tr) /\ inv hist' s' /\
    spec_run cap (abs hist (mk_system q thr)) tr (abs hist' s') /\ tail (queue s') <= tail q + 1) as Hsame.
  { exists (mk_system q thr), [], hist. split_and!; [done | done | constructor | cbn; lia]. }
  assert (forall i l' ev, thr !! i = Some Idle -> no_claim l' -> local_inv hist q l' ->
    spec_step cap (abs hist (mk_system q thr)) (i, ev)
      (mk_spec (fifo (abs hist (mk_system q thr))) (<[i := status_of hist l']> (calls (abs hist (mk_system q thr))))) ->
    exists s' tr hist', Ok (E := fuel_error) (mk_system q (<[i := l']> thr), [(i, ev)]) = Ok (s', tr) /\ inv hist' s' /\
      spec_run cap (abs hist (mk_system q thr)) tr (abs hist' s') /\ tail (queue s') <= tail q + 1) as Hcall.
  { intros i l' ev Hi Hn Hl Hs. exists (mk_system q (<[i := l']> thr)), [(i, ev)], hist. split_and!; [done | | | cbn; lia].
    - eapply inv_quiet; try done. no_claim.
    - apply spec_one. by rewrite (abs_thread hist q q). }
  destruct a as [i v | i | i weak_ok]; cbn [act threads queue].
  - destruct (thr !! i) as [[]|] eqn:Hi; try done. apply Hcall; try done; [no_claim |].
    apply spec_call_push. exact (abs_status hist (mk_system q thr) i _ Hi).
  - destruct (thr !! i) as [[]|] eqn:Hi; try done. apply Hcall; try done; [no_claim |].
    apply spec_call_pop. exact (abs_status hist (mk_system q thr) i _ Hi).
  - destruct (thr !! i) as [l|] eqn:Hi; [| done].
    destruct (thread_step_ok hist q thr i l weak_ok Hinv Hb Hi) as (q' & l' & ev & hist' & -> & Hinv' & Hrun & Ht).
    cbn [mbind outcome_bind]. by eexists _, _, hist'.
Qed.

Lemma spec_run_app c (s1 s2 s3 : spec (T := T)) tr1 tr2 : spec_run c s1 tr1 s2 -> spec_run c s2 tr2 s3 -> spec_run c s1 (tr1 ++ tr2) s3.
Proof. induction 1 as [|s1 ev s2 tr s3' Hs Hr IH]; [done |]. intros H2. cbn. eapply spec_cons; eauto. Qed.

Lemma run_ok acts hist s : inv hist s -> tail (queue s) + Z.of_nat (length acts) < 2 ^ 62 ->
  exists s' tr hist', run acts s = Ok (s', tr) /\ inv hist' s' /\ spec_run cap (abs hist s) tr (abs hist' s') /\
    tail (queue s') <= tail (queue s) + Z.of_nat (length acts).
Proof.
  revert hist s. induction acts as [|a acts IH]; intros hist s Hinv Hb; cbn [run].
  { exists s, [], hist. split_and!; [done | done | constructor | cbn; lia]. }
  cbn [length] in Hb. destruct (act_ok a hist s Hinv ltac:(lia)) as (s1 & tr1 & hist1 & -> & Hinv1 & Hrun1 & Ht1).
  cbn [mbind outcome_bind]. destruct (IH hist1 s1 Hinv1 ltac:(lia)) as (s2 & tr2 & hist2 & -> & Hinv2 & Hrun2 & Ht2).
  cbn [mbind outcome_bind fst snd]. eexists s2, _, hist2. split_and!; [done | done | by eapply spec_run_app |]. cbn [length]. lia.
Qed.

(** ** A new queue *)

Definition new_queue : MPMCQueue (T := T) := mk_MPMCQueue (cap - 1) ((fun i => mk_Slot i None) <$> seqZ 0 cap) 0 0.

Lemma new_ok : MPMCQueue_new (T := T) cap = Ok new_queue.
Proof.
  pose proof cap_bounds. unfold MPMCQueue_new. rewrite (proj2 (Z.leb_le 2 cap)) by lia.
  unfold is_power_of_two. rewrite (proj2 (Z.ltb_lt 0 cap)) by lia. unfold cap. rewrite Z.log2_pow2, Z.eqb_refl by lia. done.
Qed.

Lemma new_inv n : inv [] (mk_system new_queue (replicate n Idle)).
Proof.
  pose proof cap_bounds. split; cbn [queue threads new_queue buffer_mask buffer tail head]; try done; try lia.
  - rewrite len_fmap. unfold len. rewrite length_seqZ. lia.
  - intros i Hi. exists i, i, None. cbn [tail head new_queue]. split_and!; try lia; [by apply Z.mod_small | | by apply phase_free; [| lia | lia]].
    unfold slot_at. cbn [buffer new_queue]. rewrite list_lookup_fmap, Z.mod_small by done.
    rewrite lookup_seqZ_lt by lia. cbn. do 2 f_equal. lia.
  - intros j l Hj. by apply lookup_replicate in Hj as [-> _].
  - intros i j l m t Hi. apply lookup_replicate in Hi as [-> _]. intros _ [[[? ?] | ?] | [? | [? ?]]]; done.
Qed.

Lemma new_queue_abs n : abs [] (mk_system new_queue (replicate n Idle)) = mk_spec [] (replicate n NoCall).
Proof. unfold abs. cbn [queue threads new_queue head]. f_equal. by rewrite fmap_replicate. Qed.

(** ** A call without contention *)

(** The queue holds [es], and no call is under way. *)
Definition holds q (es : list T) : Prop := exists hist, inv hist (mk_system q [Idle]) /\ drop (Z.to_nat (head q)) hist = es.

Lemma len_holds hist q : inv hist (mk_system q [Idle]) -> len (drop (Z.to_nat (head q)) hist) = tail q - head q.
Proof. apply (len_fifo hist (mk_system q [Idle])). Qed.

(** Without claims a slot is free or full. *)
Lemma rest_phase hist q u n x : inv hist (mk_system q [Idle]) -> phase hist (tail q) (head q) [Idle] u n x ->
  (n = u /\ tail q <= u /\ u - cap < head q) \/ (n = u + 1 /\ head q <= u < tail q).
Proof.
  intros Hinv [? ? ? | [|j] l ? ? Hj Hl | a ? ? ? ? | [|j] l ? ? Hj Hl]; try done; [by left | | by right |];
    injection Hj as <-; [by destruct Hl as [[? ?] |] | by destruct Hl as [| [? ?]]].
Qed.

Lemma push_call hist q v : inv hist (mk_system q [Idle]) -> tail q < 2 ^ 62 ->
  (tail q - head q < cap -> exists q', call 5 q (PushLoad v) = Ok (q', ReturnPush) /\ head q' = head q /\ tail q' = tail q + 1 /\
     inv (hist ++ [v]) (mk_system q' [Idle])) /\
  (tail q - head q = cap -> call 5 q (PushLoad v) = Ok (q, ReturnFull v)).
Proof.
  intros Hinv Hb. pose proof (inv_bounds _ _ Hinv) as Hbd. pose proof (inv_mask _ _ Hinv) as Hm. cbn [queue] in *. pose proof cap_bounds.
  destruct (read_diff hist _ (tail q) 0 Hinv) as (u & n & x & Hidx & Hat & Hd & Hu & Hlo & Hhi & Hp); [done | cbn; lia | lia |].
  cbn [queue threads] in *. rewrite Z.add_0_r, wrap64_small in Hd by (unfold is_u64; lia).
  destruct (rest_phase hist q u n x Hinv Hp) as [[-> [Hge Hfree]] | [-> Hlt]];
    destruct (mod_apart u (tail q) Hu) as [-> | [? | ?]]; try lia; split; intros Hsz; try lia.
  - assert (inv hist (mk_system q [PushCas v (tail q)])) as Hinv1.
    { apply (inv_quiet hist q [Idle] 0 Idle); try done; [no_claim | no_claim |]. split; [lia |]. intros _. by exists x. }
    destruct (inv_enqueue hist q _ 0 v Hinv1 eq_refl) as [_ Hinv2]. cbn [list_insert insert] in Hinv2.
    destruct (inv_write _ _ _ 0 _ _ Hinv2 eq_refl) as (w & Hw & Hinv3). cbn [list_insert insert] in Hinv3.
    destruct (inv_publish _ _ _ 0 _ Hinv3 eq_refl) as (a & _ & Hw' & _ & Hinv4). cbn [list_insert insert] in Hinv4.
    eexists. split; [| split; [| split; [| exact Hinv4]]]; [| done | done].
    cbn [call thread_step push_step mbind outcome_bind]. rewrite Hidx. cbn [mbind outcome_bind sequence]. rewrite Hd, Z.sub_diag.
    cbn [Z.eqb call thread_step push_step mbind outcome_bind]. rewrite Z.eqb_refl. cbn [andb mbind outcome_bind].
    cbn [call thread_step push_step]. rewrite wrap64_small by (unfold is_u64; lia). fold (with_tail q (tail q + 1)).
    rewrite (read_slot _ (tail q) _ w (Hm : buffer_mask (with_tail q (tail q + 1)) = cap - 1) Hw). cbn [mbind outcome_bind sequence].
    cbn [call thread_step push_step]. rewrite (read_slot _ (tail q) _ _ (inv_mask _ _ Hinv3) Hw'). cbn [mbind outcome_bind value].
    by rewrite wrap64_small by (unfold is_u64; lia).
  - cbn [call thread_step push_step mbind outcome_bind]. rewrite Hidx. cbn [mbind outcome_bind sequence]. rewrite Hd.
    rewrite (proj2 (Z.eqb_neq _ _)), (proj2 (Z.ltb_lt _ 0)) by lia. done.
Qed.

Lemma pop_call hist q : inv hist (mk_system q [Idle]) -> tail q < 2 ^ 62 ->
  (head q < tail q -> exists q' v, call 5 q PopLoad = Ok (q', ReturnPop v) /\ hist !! Z.to_nat (head q) = Some v /\
     head q' = head q + 1 /\ tail q' = tail q /\ inv hist (mk_system q' [Idle])) /\
  (head q = tail q -> call 5 q PopLoad = Ok (q, ReturnEmpty)).
Proof.
  intros Hinv Hb. pose proof (inv_bounds _ _ Hinv) as Hbd. pose proof (inv_size _ _ Hinv) as Hsz.
  pose proof (inv_mask _ _ Hinv) as Hm. cbn [queue] in *. pose proof cap_bounds.
  destruct (read_diff hist _ (head q) 1 Hinv) as (u & n & x & Hidx & Hat & Hd & Hu & Hlo & Hhi & Hp); [done | cbn; lia | lia |].
  cbn [queue threads] in *.
  destruct (rest_phase hist q u n x Hinv Hp) as [[-> [Hge Hfree]] | [-> Hlt]];
    destruct (mod_apart u (head q) Hu) as [-> | [? | ?]]; try lia; split; intros Hne; try lia.
  - cbn [call thread_step pop_step mbind outcome_bind]. rewrite Hidx. cbn [mbind outcome_bind sequence]. rewrite Hd.
    rewrite (proj2 (Z.eqb_neq _ _)), (proj2 (Z.ltb_lt _ 0)) by lia. done.
  - assert (inv hist (mk_system q [PopCas (head q)])) as Hinv1.
    { apply (inv_quiet hist q [Idle] 0 Idle); try done; [no_claim | no_claim |]. split; [lia |]. intros _. by exists x. }
    destruct (inv_dequeue hist q _ 0 Hinv1 eq_refl) as (v & Hv & Hinv2). cbn [list_insert insert] in Hinv2.
    destruct (inv_read _ _ _ 0 _ Hinv2 eq_refl) as (w & Hv' & Hw & Hinv3). cbn [list_insert insert] in Hinv3.
    rewrite Hv in Hv'. injection Hv' as <-.
    destruct (inv_release _ _ _ 0 _ _ Hinv3 eq_refl) as (y & Hy & _ & Hinv4). cbn [list_insert insert] in Hinv4.
    eexists _, v. split; [| split; [exact Hv | split; [| split; [| exact Hinv4]]]]; [| done | done].
    cbn [call thread_step pop_step mbind outcome_bind]. rewrite Hidx. cbn [mbind outcome_bind sequence]. rewrite Hd, Z.sub_diag.
    cbn [Z.eqb call thread_step pop_step mbind outcome_bind]. rewrite Z.eqb_refl. cbn [andb mbind outcome_bind].
    cbn [call thread_step pop_step]. rewrite wrap64_small by (unfold is_u64; lia). fold (with_head q (head q + 1)).
    rewrite (read_slot _ (head q) _ _ (Hm : buffer_mask (with_head q (head q + 1)) = cap - 1) Hw). cbn [mbind outcome_bind value sequence].
    cbn [call thread_step pop_step]. rewrite (read_slot _ (head q) _ _ (inv_mask _ _ Hinv3) Hy). cbn [mbind outcome_bind value].
    rewrite (Hm : buffer_mask (set_slot (with_head q (head q + 1)) (head q) (mk_Slot (head q + 1) None)) = cap - 1).
    replace (wrap64 (head q + wrap64 (cap - 1 + 1))) with (head q + cap); [done |].
    rewrite Z.sub_add, !wrap64_small; [done | unfold is_u64; lia.. | rewrite ?wrap64_small; unfold is_u64; lia].
Qed.

Lemma call_push_holds q es v : holds q es -> tail q < 2 ^ 62 ->
  if len es <? cap
  then exists q', call 5 q (PushLoad v) = Ok (q', ReturnPush) /\ holds q' (es ++ [v]) /\ tail q' = tail q + 1
  else call 5 q (PushLoad v) = Ok (q, ReturnFull v).
Proof.
  intros (hist & Hinv & <-) Hb. rewrite (len_holds hist q Hinv). destruct (push_call hist q v Hinv Hb) as [Hok Hfull].
  pose proof (inv_size _ _ Hinv) as Hsz. pose proof (inv_bounds _ _ Hinv) as Hbd. pose proof (inv_hist _ _ Hinv) as Hh. cbn [queue] in *.
  destruct (Z.ltb_spec (tail q - head q) cap); [| apply Hfull; lia].
  destruct (Hok ltac:(lia)) as (q' & Hc & Hhd & Htl & Hinv'). exists q'. split_and!; [done | | done].
  exists (hist ++ [v]). split; [done |]. rewrite Hhd. apply drop_app_le. unfold len in Hh. lia.
Qed.

Lemma call_pop_holds q es : holds q es -> tail q < 2 ^ 62 ->
  match es with
  | v :: es => exists q', call 5 q PopLoad = Ok (q', ReturnPop v) /\ holds q' es /\ tail q' = tail q
  | [] => call 5 q PopLoad = Ok (q, ReturnEmpty)
  end.
Proof.
  intros (hist & Hinv & Hes) Hb. pose proof (len_holds hist q Hinv) as Hlen. rewrite Hes in Hlen.
  pose proof (inv_bounds _ _ Hinv) as Hbd. cbn [queue] in *. destruct (pop_call hist q Hinv Hb) as [Hok Hempty].
  destruct es as [|v es]; [apply Hempty; cbn in Hlen; unfold len in Hlen; cbn in Hlen; lia |].
  destruct Hok as (q' & w & Hc & Hw & Hhd & Htl & Hinv'); [unfold len in Hlen; cbn in Hlen; lia |].
  rewrite (drop_S _ _ _ Hw) in Hes. injection Hes as -> Hes. exists q'. split_and!; [done | | done].
  exists hist. split; [done |]. rewrite Hhd, <- Hes. f_equal. lia.
Qed.

End invariant.

(** * Properties *)

(** C4: The queue is a bounded first-in first-out queue for any number of threads. For a capacity that
    is a power of two, every interleaving of fewer than 2^62 steps of the threads, with any
    spurious failures of the weak compare-and-swaps, runs without a panic and without reading an
    uninitialised slot; and its calls, successful compare-and-swaps and returns are a run of the
    abstract queue, where a push appends and a pop removes the front in one step between call and
    return, and at most [capacity] elements are queued. [Full] is only returned when the queue is
    full or a pop has yet to clear a slot, [Empty] when it is empty or a push has yet to fill one. *)
Theorem queue_refines_fifo (T : Type) (k : Z) (n : nat) (acts : list (action (T := T)))
    (Hk : 1 <= k <= 61) (Hn : Z.of_nat (length acts) < 2 ^ 62) :
  exists q s tr sp, MPMCQueue_new (2 ^ k) = Ok q /\ run acts (mk_system q (replicate n Idle)) = Ok (s, tr) /\
    spec_run (2 ^ k) (mk_spec [] (replicate n NoCall)) tr sp /\ len (fifo sp) <= 2 ^ k.
Proof.
  destruct (run_ok k Hk acts [] (mk_system (new_queue k) (replicate n Idle)) (new_inv k Hk n)) as (s & tr & hist & Hr & Hinv & Hsp & _); [cbn; lia |].
  rewrite new_queue_abs in Hsp. exists (new_queue k), s, tr, (abs hist s). split_and!; [by apply new_ok | done | done |].
  rewrite (len_fifo k hist s Hinv). apply (inv_size _ _ _ Hinv).
Qed.

(** The position whose slot's value a thread is about to access. *)
Definition accesses {T} (l : pc (T := T)) : option Z :=
  match l with PushWrite _ t => Some t | PopRead h => Some h | _ => None end.

(** C25: The plain memory accesses of the queue do not race: in every state the threads can reach, two
    threads that are about to write or read a slot's value are at different slots, a slot about
    to be read holds a value. *)
Theorem queue_race_free (T : Type) (k : Z) (n : nat) (acts : list (action (T := T)))
    (Hk : 1 <= k <= 61) (Hn : Z.of_nat (length acts) < 2 ^ 62) :
  exists q s tr, MPMCQueue_new (2 ^ k) = Ok q /\ run acts (mk_system q (replicate n Idle)) = Ok (s, tr) /\
    (forall i j l m t u, i <> j -> threads s !! i = Some l -> threads s !! j = Some m ->
      accesses l = Some t -> accesses m = Some u -> slot_idx (queue s) t <> slot_idx (queue s) u) /\
    (forall i h, threads s !! i = Some (PopRead h) ->
      exists n a, buffer (queue s) !! Z.to_nat (slot_idx (queue s) h) = Some (mk_Slot n (Some a))).
Proof.
  destruct (run_ok k Hk acts [] (mk_system (new_queue k) (replicate n Idle)) (new_inv k Hk n)) as (s & tr & hist & Hr & Hinv & _ & _); [cbn; lia |].
  exists (new_queue k), s, tr. split_and!; [by apply new_ok | done | |].
  - intros i j l m t u Hij Hi Hj Hl Hm. pose proof (inv_mask _ _ _ Hinv) as Hmask. rewrite !(slot_idx_mod k Hk) by done.
    intros Hmod. apply Hij. assert (owns l t) as Hol by (destruct l; try done; injection Hl as <-; [left; left; by eexists | right; by left]).
    assert (owns m u) as Hom by (destruct m; try done; injection Hm as <-; [left; left; by eexists | right; by left]).
    destruct (owner_claimed k hist _ l t (inv_local _ _ _ Hinv i l Hi) (inv_bounds _ _ _ Hinv) Hol) as [n1 Hc1].
    destruct (owner_claimed k hist _ m u (inv_local _ _ _ Hinv j m Hj) (inv_bounds _ _ _ Hinv) Hom) as [n2 Hc2].
    assert (t = u) as -> by (by eapply claimed_inj). by eapply (inv_owner _ _ _ Hinv).
  - intros i h Hi. destruct (inv_local _ _ _ Hinv i _ Hi) as (_ & a & _ & Ha). exists (h + 1), a.
    rewrite (slot_idx_mod k Hk) by apply (inv_mask _ _ _ Hinv). exact Ha.
Qed.

(** Without contention [push] and [pop] are the list operations, and they end: on a queue that
    holds [es], [push] appends within five steps and returns [Ok] when there are fewer than
    [capacity] elements, and else returns the value with [Full] and changes nothing; [pop] removes
    and returns the front, or returns [Empty] and changes nothing. *)
Theorem queue_uncontended (T : Type) (k : Z) (q : MPMCQueue (T := T)) (es : list T) (v : T)
    (Hk : 1 <= k <= 61) (Hq : holds k q es) (Hb : tail q < 2 ^ 62) :
  (if len es <? 2 ^ k
   then exists q', call 5 q (PushLoad v) = Ok (q', ReturnPush) /\ holds k q' (es ++ [v]) /\ tail q' = tail q + 1
   else call 5 q (PushLoad v) = Ok (q, ReturnFull v)) /\
  match es with
  | w :: es => exists q', call 5 q PopLoad = Ok (q', ReturnPop w) /\ holds k q' es /\ tail q' = tail q
  | [] => call 5 q PopLoad = Ok (q, ReturnEmpty)
  end.
Proof. split; [by apply call_push_holds | by apply call_pop_holds]. Qed.

Lemma new_holds (T : Type) k : 1 <= k <= 61 -> holds (T := T) k (new_queue k) [].
Proof. intros Hk. exists []. split; [by apply (new_inv k Hk 1) | done]. Qed.

(** ** Witnesses *)

(** Two threads, a queue of two: thread 0 pushes three times while thread 1 pops
    in between. *)
Definition sample_acts : list (action (T := Z)) :=
  [StartPush 0 7; StartPop 1; Step 0 true; Step 1 true; Step 0 true; Step 1 true; Step 0 false; Step 0 true; Step 0 true;
   Step 0 true; StartPop 1; Step 1 true; Step 0 true; Step 0 true; Step 1 true; Step 1 true; Step 1 true; Step 1 true].

Example sample_trace :
  (q ← MPMCQueue_new 2; r ← run sample_acts (mk_system q [Idle; Idle]); mret r.2) = Ok [(0%nat, CallPush 7); (1%nat, CallPop); (1%nat, ReturnEmpty); (0%nat, Enqueue); (1%nat, CallPop);
            (0%nat, ReturnPush); (1%nat, Dequeue); (1%nat, ReturnPop 7)].
Proof. vm_compute. reflexivity. Qed.

Lemma queue_refines_fifo_witness :
  (1 <= 1 <= 61 /\ Z.of_nat (length sample_acts) < 2 ^ 62) /\
  exists q s tr sp, MPMCQueue_new (2 ^ 1) = Ok q /\ run sample_acts (mk_system q (replicate 2 Idle)) = Ok (s, tr) /\
    spec_run (2 ^ 1) (mk_spec [] (replicate 2 NoCall)) tr sp /\ len (fifo sp) <= 2 ^ 1.
Proof.
  assert (1 <= 1 <= 61) as Hk by lia. assert (Z.of_nat (length sample_acts) < 2 ^ 62) as Hn by done.
  split; [exact (conj Hk Hn) | exact (queue_refines_fifo Z 1 2 sample_acts Hk Hn)].
Defined.

Lemma queue_race_free_witness :
  (1 <= 1 <= 61 /\ Z.of_nat (length sample_acts) < 2 ^ 62) /\
  exists q s tr, MPMCQueue_new (2 ^ 1) = Ok q /\ run sample_acts (mk_system q (replicate 2 Idle)) = Ok (s, tr) /\
    (forall i j l m t u, i <> j -> threads s !! i = Some l -> threads s !! j = Some m ->
      accesses l = Some t -> accesses m = Some u -> slot_idx (queue s) t <> slot_idx (queue s) u) /\
    (forall i h, threads s !! i = Some (PopRead h) ->
      exists n a, buffer (queue s) !! Z.to_nat (slot_idx (queue s) h) = Some (mk_Slot n (Some a))).
Proof.
  assert (1 <= 1 <= 61) as Hk by lia. assert (Z.of_nat (length sample_acts) < 2 ^ 62) as Hn by done.
  split; [exact (conj Hk Hn) | exact (queue_race_free Z 1 2 sample_acts Hk Hn)].
Defined.

Lemma queue_uncontended_witness :
  (1 <= 1 <= 61 /\ holds (T := Z) 1 (new_queue 1) [] /\ tail (new_queue (T := Z) 1) < 2 ^ 62) /\
  (exists q', call 5 (new_queue 1) (PushLoad 7) = Ok (q', ReturnPush) /\ holds 1 q' [7] /\ tail q' = 0 + 1) /\
  call 5 (new_queue 1) (PopLoad (T := Z)) = Ok (new_queue 1, ReturnEmpty).
Proof.
  assert (1 <= 1 <= 61) as Hk by lia. pose proof (new_holds Z 1 Hk) as Hq.
  assert (tail (new_queue (T := Z) 1) < 2 ^ 62) as Hb by done.
  split; [exact (conj Hk (conj Hq Hb)) | exact (queue_uncontended Z 1 (new_queue 1) [] 7 Hk Hq Hb)].
Defined.
