(* ===== verification/UnpaddedQueue.v ===== *)
(** * The queue without padding, and the end of a queue (tier2_concurrency/src/queue.rs)

    [UnpaddedMPMCQueue] repeats [MPMCQueue] with its two counters on one cache
    line.  Its operations are translated again, and [unpadded_is_padded] shows that
    every interleaving does what it does on the padded queue, step by step, so what
    Queue.v proves holds of both.

    [Drop] of either queue pops until [pop] fails.  [queue_conserves]: when the
    queue is dropped between calls, every value that was ever pushed has been handed
    back by a full [push], popped once, or is dropped now, in order. *)

From S2P Require Import Prelude.
From S2P Require Import Queue.
#[local] Open Scope Z_scope.

Section unpadded.
  Context {T : Type}.

Record UnpaddedMPMCQueue := mk_UnpaddedMPMCQueue {
  u_buffer_mask : Z;
  u_buffer : list (Slot (T := T));
  u_tail : Z;
  u_head : Z
}.

Definition UnpaddedMPMCQueue_new (capacity : Z) : outcome fuel_error UnpaddedMPMCQueue :=
  if negb ((2 <=? capacity) && is_power_of_two capacity) then Panic else
  Ok (mk_UnpaddedMPMCQueue (capacity - 1) ((fun i => mk_Slot i None) <$> seqZ 0 capacity) 0 0).

Definition u_slot_idx (q : UnpaddedMPMCQueue) (pos : Z) : Z := Z.land pos (u_buffer_mask q).

Definition u_set_slot (q : UnpaddedMPMCQueue) (pos : Z) (s : Slot) : UnpaddedMPMCQueue :=
  mk_UnpaddedMPMCQueue (u_buffer_mask q) (<[Z.to_nat (u_slot_idx q pos) := s]> (u_buffer q)) (u_tail q) (u_head q).

(** One step of [push]. *)
Definition u_push_step (weak_ok : bool) (q : UnpaddedMPMCQueue) (l : pc (T := T)) :
    outcome fuel_error (UnpaddedMPMCQueue * pc (T := T) * option (event (T := T))) :=
  match l with
  | PushLoad data => Ok (q, PushSeq data (u_tail q), None)
  | PushSeq data t =>
      slot ← index (u_buffer q) (u_slot_idx q t);
      let diff := isize_sub (sequence slot) t in
      if diff =? 0 then Ok (q, PushCas data t, None)
      else if diff <? 0 then Ok (q, Idle, Some (ReturnFull data))
      else Ok (q, PushLoad data, None)
  | PushCas data t =>
      if (u_tail q =? t) && weak_ok
      then Ok (mk_UnpaddedMPMCQueue (u_buffer_mask q) (u_buffer q) (wrap64 (t + 1)) (u_head q), PushWrite data t, Some Enqueue)
      else Ok (q, PushSeq data (u_tail q), None)
  | PushWrite data t =>
      slot ← index (u_buffer q) (u_slot_idx q t);
      Ok (u_set_slot q t (mk_Slot (sequence slot) (Some data)), PushStore t, None)
  | PushStore t =>
      slot ← index (u_buffer q) (u_slot_idx q t);
      Ok (u_set_slot q t (mk_Slot (wrap64 (t + 1)) (Queue.value slot)), Idle, Some ReturnPush)
  | _ => Ok (q, l, None)
  end.

(** One step of [pop]. *)
Definition u_pop_step (weak_ok : bool) (q : UnpaddedMPMCQueue) (l : pc (T := T)) :
    outcome fuel_error (UnpaddedMPMCQueue * pc (T := T) * option (event (T := T))) :=
  match l with
  | PopLoad => Ok (q, PopSeq (u_head q), None)
  | PopSeq h =>
      slot ← index (u_buffer q) (u_slot_idx q h);
      let diff := isize_sub (sequence slot) (wrap64 (h + 1)) in
      if diff =? 0 then Ok (q, PopCas h, None)
      else if diff <? 0 then Ok (q, Idle, Some ReturnEmpty)
      else Ok (q, PopLoad, None)
  | PopCas h =>
      if (u_head q =? h) && weak_ok
      then Ok (mk_UnpaddedMPMCQueue (u_buffer_mask q) (u_buffer q) (u_tail q) (wrap64 (h + 1)), PopRead h, Some Dequeue)
      else Ok (q, PopSeq (u_head q), None)
  | PopRead h =>
      slot ← index (u_buffer q) (u_slot_idx q h);
      match Queue.value slot with
      | Some data => Ok (u_set_slot q h (mk_Slot (sequence slot) None), PopStore h data, None)
      | None => Ub
      end
  | PopStore h data =>
      slot ← index (u_buffer q) (u_slot_idx q h);
      Ok (u_set_slot q h (mk_Slot (wrap64 (h + wrap64 (u_buffer_mask q + 1))) (Queue.value slot)), Idle, Some (ReturnPop data))
  | _ => Ok (q, l, None)
  end.

Record u_system := mk_u_system { u_queue : UnpaddedMPMCQueue; u_threads : list (pc (T := T)) }.

Definition u_thread_step (weak_ok : bool) (q : UnpaddedMPMCQueue) (l : pc (T := T)) :
    outcome fuel_error (UnpaddedMPMCQueue * pc (T := T) * option (event (T := T))) :=
  match l with
  | Idle => Ok (q, Idle, None)
  | PushLoad _ | PushSeq _ _ | PushCas _ _ | PushWrite _ _ | PushStore _ => u_push_step weak_ok q l
  | PopLoad | PopSeq _ | PopCas _ | PopRead _ | PopStore _ _ => u_pop_step weak_ok q l
  end.

Definition u_act (a : action (T := T)) (s : u_system) : outcome fuel_error (u_system * list (nat * event (T := T))) :=
  match a with
  | StartPush i data =>
      match u_threads s !! i with
      | Some Idle => Ok (mk_u_system (u_queue s) (<[i := PushLoad data]> (u_threads s)), [(i, CallPush data)])
      | _ => Ok (s, [])
      end
  | StartPop i =>
      match u_threads s !! i with
      | Some Idle => Ok (mk_u_system (u_queue s) (<[i := PopLoad]> (u_threads s)), [(i, CallPop)])
      | _ => Ok (s, [])
      end
  | Step i weak_ok =>
      match u_threads s !! i with
      | Some l =>
          r ← u_thread_step weak_ok (u_queue s) l;
          let '(q, l, ev) := r in
          Ok (mk_u_system q (<[i := l]> (u_threads s)), match ev with Some ev => [(i, ev)] | None => [] end)
      | None => Ok (s, [])
      end
  end.

Fixpoint u_run (acts : list (action (T := T))) (s : u_system) : outcome fuel_error (u_system * list (nat * event (T := T))) :=
  match acts with
  | [] => Ok (s, [])
  | a :: acts =>
      r ← u_act a s;
      let '(s, tr) := r in
      r ← u_run acts s;
      Ok (r.1, tr ++ r.2)
  end.

(** A call that no other thread disturbs. *)
Fixpoint u_call (fuel : nat) (q : UnpaddedMPMCQueue) (l : pc (T := T)) : outcome fuel_error (UnpaddedMPMCQueue * event (T := T)) :=
  match fuel with
  | O => Err OutOfFuel
  | S fuel =>
      r ← u_thread_step true q l;
      match r with
      | (q, Idle, Some ev) => Ok (q, ev)
      | (q, l, _) => u_call fuel q l
      end
  end.

(** ** [Drop]: [while self.pop().is_ok() {}]; the values dropped, in order. A call
    that nothing disturbs takes at most five steps. *)

Fixpoint drop_queue_loop (fuel : nat) (q : MPMCQueue (T := T)) (dropped : list T) : outcome fuel_error (list T) :=
  match fuel with
  | O => Err OutOfFuel
  | S fuel =>
      r ← call 5 q PopLoad;
      match r.2 with
      | ReturnPop data => drop_queue_loop fuel r.1 (dropped ++ [data])
      | _ => Ok dropped
      end
  end.
Definition drop_queue (q : MPMCQueue) : outcome fuel_error (list T) := drop_queue_loop (S (length (buffer q))) q [].

Fixpoint u_drop_queue_loop (fuel : nat) (q : UnpaddedMPMCQueue) (dropped : list T) : outcome fuel_error (list T) :=
  match fuel with
  | O => Err OutOfFuel
  | S fuel =>
      r ← u_call 5 q PopLoad;
      match r.2 with
      | ReturnPop data => u_drop_queue_loop fuel r.1 (dropped ++ [data])
      | _ => Ok dropped
      end
  end.
Definition u_drop_queue (q : UnpaddedMPMCQueue) : outcome fuel_error (list T) := u_drop_queue_loop (S (length (u_buffer q))) q [].

(** ** The two queues *)

(** The padded queue with the same counters and slots. *)
Definition padded (q : UnpaddedMPMCQueue) : MPMCQueue (T := T) := mk_MPMCQueue (u_buffer_mask q) (u_buffer q) (u_tail q) (u_head q).
Definition padded_system (s : u_system) : system (T := T) := mk_system (padded (u_queue s)) (u_threads s).

Definition map_ok {A B} (f : A -> B) (o : outcome fuel_error A) : outcome fuel_error B := a ← o; Ok (f a).

Lemma map_ok_bind {A B C} (f : B -> C) (o : outcome fuel_error A) (g : A -> outcome fuel_error B) :
  map_ok f (a ← o; g a) = (a ← o; map_ok f (g a)).
Proof. by destruct o. Qed.

Lemma padded_new c : map_ok padded (UnpaddedMPMCQueue_new c) = MPMCQueue_new c.
Proof. unfold UnpaddedMPMCQueue_new, MPMCQueue_new. by destruct (negb _). Qed.

Lemma padded_step weak_ok q l : map_ok (fun r => (padded r.1.1, r.1.2, r.2)) (u_thread_step weak_ok q l) = thread_step weak_ok (padded q) l.
Proof.
  unfold map_ok. destruct l; cbn [u_thread_step thread_step u_push_step push_step u_pop_step pop_step]; try done.
  all: change (buffer (padded q)) with (u_buffer q).
  all: change (slot_idx (padded q)) with (u_slot_idx q).
  all: try (destruct (index (u_buffer q) _) as [[seq v]| | |]; cbn; [| done..]).
  all: cbn; by repeat case_match.
Qed.

Lemma padded_act a s : map_ok (fun r => (padded_system r.1, r.2)) (u_act a s) = act a (padded_system s).
Proof.
  destruct a as [i v | i | i weak_ok]; cbn [u_act act padded_system threads queue].
  - by destruct (u_threads s !! i) as [[]|].
  - by destruct (u_threads s !! i) as [[]|].
  - destruct (u_threads s !! i) as [l|]; [| done]. rewrite <- padded_step.
    by destruct (u_thread_step weak_ok (u_queue s) l) as [[[q l'] ev]| | |].
Qed.

Lemma padded_run acts : forall s, map_ok (fun r => (padded_system r.1, r.2)) (u_run acts s) = run acts (padded_system s).
Proof.
  induction acts as [|a acts IH]; intros s; cbn [u_run run]; [done |].
  rewrite <- padded_act. destruct (u_act a s) as [[s' tr]| | |]; try done. cbn [map_ok mbind outcome_bind fst snd].
  rewrite <- IH. by destruct (u_run acts s').
Qed.

Lemma padded_call fuel : forall q l, map_ok (fun r => (padded r.1, r.2)) (u_call fuel q l) = call fuel (padded q) l.
Proof.
  induction fuel as [|fuel IH]; intros q l; cbn [u_call call]; [done |]. rewrite <- padded_step.
  destruct (u_thread_step true q l) as [[[q' l'] ev]| | |]; try done. cbn. rewrite <- IH. by destruct l', ev.
Qed.

Lemma padded_drop_loop fuel : forall q dropped, u_drop_queue_loop fuel q dropped = drop_queue_loop fuel (padded q) dropped.
Proof.
  induction fuel as [|fuel IH]; intros q dropped; [done |]. cbn [u_drop_queue_loop drop_queue_loop].
  rewrite <- padded_call. destruct (u_call 5 q PopLoad) as [[q' ev]| | |]; try done. cbn. by destruct ev.
Qed.

Lemma padded_drop q : u_drop_queue q = drop_queue (padded q).
Proof. apply padded_drop_loop. Qed.

(** ** The values in flight *)

(** What a call holds of the queue's values, and the values of a trace: those given
    to the queue, and those it gave back. *)
Definition in_hand (c : status (T := T)) : list T :=
  match c with Pushing v | Dequeued v => [v] | NoCall | Enqueued | Popping => [] end.
Definition given (e : event (T := T)) : list T := match e with CallPush v => [v] | _ => [] end.
Definition given_back (e : event (T := T)) : list T := match e with ReturnFull v | ReturnPop v => [v] | _ => [] end.
Definition on_events (f : event (T := T) -> list T) (tr : list (nat * event)) : list T := tr ≫= (fun e => f e.2).

Definition content (s : spec (T := T)) : list T := fifo s ++ (calls s ≫= in_hand).

Lemma calls_insert (cs : list (status (T := T))) i c c' : cs !! i = Some c -> exists rest,
  cs ≫= in_hand ≡ₚ in_hand c ++ rest /\ <[i := c']> cs ≫= in_hand ≡ₚ in_hand c' ++ rest.
Proof.
  intros Hi. exists ((take i cs ≫= in_hand) ++ (drop (S i) cs ≫= in_hand)).
  rewrite insert_take_drop by (by eapply lookup_lt_Some). rewrite <- (take_drop_middle cs i c Hi) at 1.
  rewrite !bind_app, !bind_cons. split; apply Permutation_app_swap_app.
Qed.

(** A step neither loses nor invents a value. *)
Lemma spec_step_content c s e s' : spec_step c s e s' -> given e.2 ++ content s ≡ₚ given_back e.2 ++ content s'.
Proof.
  unfold content. intros [q cs i v Hi | q cs i v Hi | q cs i Hi | q cs i v Hi | q cs i Hi | q cs i v Hi | q cs i v Hi | q cs i Hi];
    cbn [fifo calls snd given given_back].
  all: match goal with Hi : ?cs !! ?i = Some _ |- context [<[?i := ?c']> ?cs] =>
    destruct (calls_insert cs i _ c' Hi) as (rest & -> & ->) end; cbn [in_hand app]; try done.
  - apply Permutation_middle.
  - by rewrite <- app_assoc.
  - symmetry. apply Permutation_middle.
  - apply Permutation_middle.
  - symmetry. apply Permutation_middle.
Qed.

Lemma spec_run_content c s tr s' : spec_run c s tr s' ->
  on_events given tr ++ content s ≡ₚ on_events given_back tr ++ content s'.
Proof.
  induction 1 as [|s1 e s2 tr s3 Hs Hr IH]; [done |]. unfold on_events in *. rewrite !bind_cons, <- !app_assoc, <- IH.
  rewrite Permutation_app_swap_app, (spec_step_content _ _ _ _ Hs). apply Permutation_app_swap_app.
Qed.

Lemma no_calls {A} (f : A -> status (T := T)) l : Forall (fun a => in_hand (f a) = []) l -> (f <$> l) ≫= in_hand = [].
Proof. induction 1 as [|a l Ha Hl IH]; [done |]. cbn. by rewrite Ha. Qed.

(** ** The end of a queue *)

Section drops.
  Context (k : Z) (Hk : 1 <= k <= 61).

(** Between calls the claims of other threads do not matter. *)
Lemma idle_queue_holds hist s : inv (T := T) k hist s -> Forall (fun l => l = Idle) (threads s) ->
  holds k (queue s) (fifo (abs hist s)).
Proof.
  intros Hinv Hidle. exists hist. split; [| done]. destruct s as [q thr]. cbn [queue threads] in *.
  assert (forall j l t, thr !! j = Some l -> owns l t -> False) as Hno.
  { intros j l t Hj Ho. pose proof (proj1 (Forall_lookup _ _) Hidle j l Hj) as ->. by destruct Ho as [[[? ?] |] | [| [? ?]]]. }
  destruct Hinv as [Hm Hb Hbd Hsz Hh Hs Hl Ho]. split; try done; cbn [queue threads] in *.
  - intros i Hi. destruct (Hs i Hi) as (t & n & v & H1 & H2 & H3 & H4 & H5 & Hp). exists t, n, v. split_and!; try done.
    destruct Hp as [? ? ? | j l ? ? Hj Hf | a | j l ? ? Hj Hf];
      [by apply phase_free | exfalso; by eapply Hno; [| left] | by eapply phase_full | exfalso; by eapply Hno; [| right]].
  - intros [|j] l Hj; [by injection Hj as <- | done].
  - intros [|i] [|j] l m t Hi Hj; by try done.
Qed.

Lemma drop_holds es : forall fuel q dropped, holds k q es -> tail q < 2 ^ 62 -> (length es < fuel)%nat ->
  drop_queue_loop fuel q dropped = Ok (dropped ++ es).
Proof.
  induction es as [|v es IH]; intros [|fuel] q dropped Hq Hb Hf; cbn [length] in Hf; try lia; cbn [drop_queue_loop].
  - rewrite (call_pop_holds k Hk q [] Hq Hb). cbn. by rewrite app_nil_r.
  - destruct (call_pop_holds k Hk q _ Hq Hb) as (q' & -> & Hq' & Ht). cbn [mbind outcome_bind fst snd].
    rewrite IH by (done || lia). by rewrite <- app_assoc.
Qed.

Lemma drop_queue_holds q es : holds k q es -> tail q < 2 ^ 62 -> drop_queue q = Ok es.
Proof.
  intros Hq Hb. unfold drop_queue. apply (drop_holds es); [done | done |]. destruct Hq as (hist & Hinv & <-).
  pose proof (len_holds k hist q Hinv) as Hl. pose proof (inv_size _ _ _ Hinv) as Hsz. pose proof (inv_buffer _ _ _ Hinv) as Hbuf.
  cbn [queue] in *. unfold len in *. lia.
Qed.

End drops.

End unpadded.

(** * Properties *)

(** The queue without padding is the padded queue. For every capacity, number of threads and
    interleaving of their steps, [new], the calls and the drop that follows have the same outcome on
    both: the same panic, or the same events, the same slots and counters, and the same values
    dropped. *)
Theorem unpadded_is_padded (T : Type) (capacity : Z) (n : nat) (acts : list (action (T := T))) :
  map_ok (fun r => (padded_system r.1.1, r.1.2, r.2))
    (q ← UnpaddedMPMCQueue_new capacity; r ← u_run acts (mk_u_system q (replicate n Idle));
     d ← u_drop_queue (u_queue r.1); Ok (r, d)) =
  (q ← MPMCQueue_new capacity; r ← run acts (mk_system q (replicate n Idle)); d ← drop_queue (queue r.1); Ok (r, d)).
Proof.
  rewrite <- padded_new. destruct (UnpaddedMPMCQueue_new capacity) as [q| | |]; try done. cbn [map_ok mbind outcome_bind].
  change (mk_system (padded q) (replicate n Idle)) with (padded_system (mk_u_system q (replicate n (Idle (T := T))))).
  rewrite <- padded_run. destruct (u_run _ _) as [[s tr]| | |]; try done. cbn [map_ok mbind outcome_bind fst snd queue padded_system].
  rewrite <- padded_drop. by destruct (u_drop_queue _).
Qed.

(** C26: No value is lost or duplicated over the life of a queue, whatever the interleaving. When the
    queue is dropped with no call under way, the values ever given to [push] are exactly those that
    a full [push] or a [pop] gave back and those the drop releases, each as often as it was pushed;
    the drop ends, and releases the queued values in first-in first-out order. *)
Theorem queue_conserves (T : Type) (k : Z) (n : nat) (acts : list (action (T := T)))
    (Hk : 1 <= k <= 61) (Hn : Z.of_nat (length acts) < 2 ^ 62) :
  exists q s tr sp, MPMCQueue_new (2 ^ k) = Ok q /\ run acts (mk_system q (replicate n Idle)) = Ok (s, tr) /\
    spec_run (2 ^ k) (mk_spec [] (replicate n NoCall)) tr sp /\
    (Forall (fun l => l = Idle) (threads s) ->
      drop_queue (queue s) = Ok (fifo sp) /\ on_events given tr ≡ₚ on_events given_back tr ++ fifo sp).
Proof.
  destruct (run_ok k Hk acts [] (mk_system (new_queue k) (replicate n Idle)) (new_inv k Hk n)) as (s & tr & hist & Hr & Hinv & Hsp & Ht); [cbn; lia |].
  rewrite new_queue_abs in Hsp. exists (new_queue k), s, tr, (abs hist s). split_and!; [by apply new_ok | done | done |].
  intros Hidle. split; [apply (drop_queue_holds k Hk); [by apply idle_queue_holds | cbn in Ht; lia] |].
  pose proof (spec_run_content _ _ _ _ Hsp) as Hc. unfold content in Hc. cbn [fifo calls app] in Hc.
  assert (replicate n NoCall = status_of (T := T) [] <$> replicate n Idle) as Hno by (by rewrite fmap_replicate).
  rewrite Hno, no_calls, app_nil_r in Hc by (by apply Forall_replicate).
  unfold abs in Hc at 2. cbn [calls] in Hc. rewrite no_calls, app_nil_r in Hc by (apply (Forall_impl _ _ _ Hidle); by intros ? ->). done.
Qed.

(** ** Witnesses *)

(** Thread 0 pushes 7 and 8 and has 9 refused; thread 1 pops 7. *)
Definition life_acts : list (action (T := Z)) :=
  concat ((fun v => StartPush 0 v :: replicate 5 (Step 0 true)) <$> [7; 8; 9]) ++ StartPop 1 :: replicate 5 (Step 1 true).

Example life_trace :
  (q ← MPMCQueue_new 2; r ← run life_acts (mk_system q [Idle; Idle]); d ← drop_queue (queue r.1);
   mret (on_events given r.2, on_events given_back r.2, d)) = Ok ([7; 8; 9], [9; 7], [8]).
Proof. vm_compute. reflexivity. Qed.

Lemma queue_conserves_witness :
  (1 <= 1 <= 61 /\ Z.of_nat (length life_acts) < 2 ^ 62) /\
  exists q s tr sp, MPMCQueue_new (2 ^ 1) = Ok q /\ run life_acts (mk_system q (replicate 2 Idle)) = Ok (s, tr) /\
    spec_run (2 ^ 1) (mk_spec [] (replicate 2 NoCall)) tr sp /\
    (Forall (fun l => l = Idle) (threads s) ->
      drop_queue (queue s) = Ok (fifo sp) /\ on_events given tr ≡ₚ on_events given_back tr ++ fifo sp).
Proof.
  assert (1 <= 1 <= 61) as Hk by lia. assert (Z.of_nat (length life_acts) < 2 ^ 62) as Hn by done.
  split; [exact (conj Hk Hn) | exact (queue_conserves Z 1 2 life_acts Hk Hn)].
Defined.
