(* ===== verification/Ebr.v ===== *)
(** * Epoch-based reclamation (tier2_concurrency/src/ebr.rs)

    [Collector] with its registry of threads and the global epoch, guards, and
    each thread's three bags of retired objects.  A run is a sequence of whole
    calls by any number of threads; [torn] takes [flush] apart into its scan, its
    store and its reclamation.

    [system] records for every retired object the guards that were held when it
    was retired and still are.  [ebr_safe]: while callers keep the contract
    [allowed] no object is freed with such a guard held, and no call panics.  The
    proof counts the epochs ([ghost], [inv]): a guard is at most one epoch old, and
    the bag that is reclaimed holds objects at least two epochs old.
    [ebr_conserves] and [ebr_flushes_all]: no object is lost, freed twice, or kept
    for ever.  [ebr_frees_early]: outside the contract, each way once. *)

From S2P Require Import Prelude.
#[local] Open Scope Z_scope.

Definition UNPINNED : Z := u64_max.
Definition MAX_THREADS : nat := 128.
Definition BAG_CAPACITY : Z := 64.

(** A retired object: its address; running its destructor is freeing it. *)
Abbreviation object := Z (only parsing).

(** [Bag]: the items up to [len]. *)
Definition Bag : Type := list object.
Definition is_full (b : Bag) : bool := len b =? BAG_CAPACITY.
Definition Bag_push (b : Bag) (p : object) : option Bag := if is_full b then None else Some (b ++ [p]).

Record ThreadState := mk_ThreadState { epoch : Z; active : Z }.
Record Collector := mk_Collector { global_epoch : Z; registry : list ThreadState }.

Definition Collector_new : Collector := mk_Collector 0 (replicate MAX_THREADS (mk_ThreadState UNPINNED 0)).

(** The first index whose [active] is 0. *)
Fixpoint first_free (i : nat) (ts : list ThreadState) : option nat :=
  match ts with
  | [] => None
  | t :: ts => if active t =? 0 then Some i else first_free (S i) ts
  end.

Definition set_thread (i : nat) (t : ThreadState) (c : Collector) : Collector :=
  mk_Collector (global_epoch c) (<[i := t]> (registry c)).

Definition register (c : Collector) : outcome fuel_error (Collector * nat) :=
  match first_free 0 (registry c) with
  | Some i =>
      t ← index (registry c) (Z.of_nat i);
      Ok (set_thread i (mk_ThreadState (epoch t) 1) c, i)
  | None => Panic
  end.

Definition unregister (i : nat) (c : Collector) : outcome fuel_error Collector :=
  if (i <? MAX_THREADS)%nat then Ok (set_thread i (mk_ThreadState UNPINNED 0) c) else Panic.

Definition pin (i : nat) (c : Collector) : outcome fuel_error Collector :=
  state ← index (registry c) (Z.of_nat i);
  Ok (set_thread i (mk_ThreadState (global_epoch c) (active state)) c).

(** [Guard::drop]. *)
Definition unpin (i : nat) (c : Collector) : outcome fuel_error Collector :=
  state ← index (registry c) (Z.of_nat i);
  Ok (set_thread i (mk_ThreadState UNPINNED (active state)) c).

(** The scan of [try_advance]: the epoch to store, or [None] for [false]. *)
Definition behind (current_global : Z) (t : ThreadState) : bool :=
  negb (active t =? 0) && (negb (epoch t =? UNPINNED) && negb (epoch t =? current_global)).
Definition advance_scan (c : Collector) : option Z :=
  let current_global := global_epoch c in
  if existsb (behind current_global) (registry c) then None else Some ((current_global + 1) mod 3).

Definition store_epoch (e : Z) (c : Collector) : Collector := mk_Collector e (registry c).

Definition try_advance (c : Collector) : Collector * bool :=
  match advance_scan c with
  | Some e => (store_epoch e c, true)
  | None => (c, false)
  end.

(** [ThreadLocalLocal]. *)
Record Local := mk_Local { thread_index : nat; bags : list Bag }.

Definition Local_new (c : Collector) : outcome fuel_error (Collector * Local) :=
  r ← register c;
  Ok (r.1, mk_Local r.2 [[]; []; []]).

(** [self.bags[i].reclaim_all()]: the objects freed, in order. *)
Definition reclaim_all (i : Z) (l : Local) : outcome fuel_error (Local * list object) :=
  b ← index (bags l) i;
  Ok (mk_Local (thread_index l) (<[Z.to_nat i := []]> (bags l)), b).

(** What follows a successful [try_advance] in [defer] and [flush]. *)
Definition reclaim_after (c : Collector) (l : Local) : outcome fuel_error (Local * list object) :=
  let new_global := global_epoch c in
  let reclaim_idx := (new_global + 1) mod 3 in
  reclaim_all reclaim_idx l.

(** [defer]: the collector and the bags after it, and the objects freed. *)
Definition defer (p : object) (c : Collector) (l : Local) : outcome fuel_error (Collector * Local * list object) :=
  bag ← index (bags l) (global_epoch c);
  match Bag_push bag p with
  | Some bag => Ok (c, mk_Local (thread_index l) (<[Z.to_nat (global_epoch c) := bag]> (bags l)), [])
  | None =>
      let '(c, ok) := try_advance c in
      r ← (if ok then reclaim_after c l else Ok (l, []));
      let '(l, freed) := r in
      bag ← index (bags l) (global_epoch c);
      match Bag_push bag p with
      | Some bag => Ok (c, mk_Local (thread_index l) (<[Z.to_nat (global_epoch c) := bag]> (bags l)), freed)
      | None => Ok (c, l, freed ++ [p])
      end
  end.

Definition flush (c : Collector) (l : Local) : outcome fuel_error (Collector * Local * list object) :=
  let '(c, ok) := try_advance c in
  if ok then r ← reclaim_after c l; Ok (c, r.1, r.2) else Ok (c, l, []).

(** [destroy]; [Drop] is the same without [unregister]. *)
Definition destroy (c : Collector) (l : Local) : outcome fuel_error (Collector * list object) :=
  let freed := concat (bags l) in
  c ← unregister (thread_index l) c;
  Ok (c, freed).

(** ** Runs *)

(** The threads' bags, thread [i] at registry index [i]; the objects freed so
    far; and, for the specification, for every retired object the threads whose
    guards were held when it was retired and are still held. *)
Record system := mk_system {
  collector : Collector;
  locals : list Local;
  freed : list object;
  waiting : list (object * list nat)
}.

Inductive call := Pin (i : nat) | Unpin (i : nat) | Defer (i : nat) (p : object) | Flush (i : nat) | Exit (i : nat).

Definition pinned (c : Collector) (i : nat) : bool :=
  match registry c !! i with Some t => negb (epoch t =? UNPINNED) | None => false end.

Definition held (c : Collector) : list nat := filter (fun i => pinned c i = true) (List.seq 0 (length (registry c))).

Definition release (i : nat) (w : list (object * list nat)) : list (object * list nat) :=
  (fun x => (x.1, filter (fun j => j <> i) x.2)) <$> w.

Definition set_local (i : nat) (l : Local) (f : list object) (c : Collector) (s : system) : system :=
  mk_system c (<[i := l]> (locals s)) (freed s ++ f) (waiting s).

Definition retire (p : object) (gs : list nat) (s : system) : system :=
  mk_system (collector s) (locals s) (freed s) (waiting s ++ [(p, gs)]).

Definition exec (a : call) (s : system) : outcome fuel_error system :=
  match a with
  | Pin i =>
      c ← pin i (collector s);
      Ok (mk_system c (locals s) (freed s) (waiting s))
  | Unpin i =>
      c ← unpin i (collector s);
      Ok (mk_system c (locals s) (freed s) (release i (waiting s)))
  | Defer i p =>
      l ← index (locals s) (Z.of_nat i);
      r ← defer p (collector s) l;
      let '(c, l, f) := r in
      Ok (retire p (held (collector s)) (set_local i l f c s))
  | Flush i =>
      l ← index (locals s) (Z.of_nat i);
      r ← flush (collector s) l;
      let '(c, l, f) := r in
      Ok (set_local i l f c s)
  | Exit i =>
      l ← index (locals s) (Z.of_nat i);
      r ← destroy (collector s) l;
      let '(c, f) := r in
      Ok (set_local i (mk_Local (thread_index l) [[]; []; []]) f c s)
  end.

(** [n] threads register, each with its own bags. *)
Fixpoint register_threads (n : nat) (s : system) : outcome fuel_error system :=
  match n with
  | O => Ok s
  | S n =>
      r ← Local_new (collector s);
      register_threads n (mk_system r.1 (locals s ++ [r.2]) (freed s) (waiting s))
  end.

Definition start (n : nat) : outcome fuel_error system :=
  register_threads n (mk_system Collector_new [] [] []).

Fixpoint run (calls : list call) (s : system) : outcome fuel_error system :=
  match calls with
  | [] => Ok s
  | a :: calls => s ← exec a s; run calls s
  end.

(** There is room for a retired object: in the bag of the epoch, or in the bag of
    the next one when [try_advance] would succeed. *)
Definition has_room (c : Collector) (l : Local) : bool :=
  let room e := match bags l !! Z.to_nat e with Some b => negb (is_full b) | None => false end in
  room (global_epoch c) || match advance_scan c with Some e => room e | None => false end.

(** The callers' side of the contract: guards are not nested, an object is
    retired once, with room for it, and no thread exits. *)
Definition allowed (a : call) (s : system) : Prop :=
  match a with
  | Pin i => (i < length (locals s))%nat /\ pinned (collector s) i = false
  | Unpin i => pinned (collector s) i = true
  | Defer i p => (p ∉ (waiting s).*1) /\ match locals s !! i with Some l => has_room (collector s) l = true | None => False end
  | Flush i => (i < length (locals s))%nat
  | Exit _ => False
  end.

Inductive reachable (n : nat) : system -> Prop :=
| reachable_start s : start n = Ok s -> reachable n s
| reachable_step s a s' : reachable n s -> allowed a s -> exec a s = Ok s' -> reachable n s'.

(** ** Every retired object is in a bag or was freed, once *)

Definition items (s : system) : list object := concat ((fun l => concat (bags l)) <$> locals s).

Definition retired (calls : list call) : list object :=
  omap (fun a => match a with Defer _ p => Some p | _ => None end) calls.

Lemma Bag_push_Some b p b' : Bag_push b p = Some b' -> b' = b ++ [p].
Proof. unfold Bag_push. case_match; congruence. Qed.

Lemma reclaim_conserves c l l' f : reclaim_after c l = Ok (l', f) -> concat (bags l') ++ f ≡ₚ concat (bags l).
Proof.
  intros (b & Hb%index_Ok & [= <- <-])%bind_Ok. cbn. rewrite (concat_insert _ _ [] _ Hb). by rewrite app_nil_r.
Qed.

Lemma defer_conserves p c l c' l' f : defer p c l = Ok (c', l', f) -> concat (bags l') ++ f ≡ₚ concat (bags l) ++ [p].
Proof.
  unfold defer. intros (b & Hb%index_Ok & H)%bind_Ok. destruct (Bag_push b p) as [b1|] eqn:Hp.
  - injection H as <- <- <-. cbn. apply Bag_push_Some in Hp as ->. rewrite app_nil_r.
    apply (Permutation_app_inv_r b). rewrite (concat_insert _ _ _ _ Hb). solve_Permutation.
  - destruct (try_advance c) as [c1 ok]. apply bind_Ok in H as ([l1 f1] & Hr & H).
    assert (concat (bags l1) ++ f1 ≡ₚ concat (bags l)) as <-.
    { destruct ok; [by eapply reclaim_conserves|]. injection Hr as <- <-. by rewrite app_nil_r. }
    apply bind_Ok in H as (b2 & Hb2%index_Ok & H). destruct (Bag_push b2 p) as [b3|] eqn:Hp2.
    + injection H as <- <- <-. cbn. apply Bag_push_Some in Hp2 as ->.
      apply (Permutation_app_inv_r b2). transitivity ((concat (<[Z.to_nat (global_epoch c1):=b2 ++ [p]]> (bags l1)) ++ b2) ++ f1).
      { solve_Permutation. } rewrite (concat_insert _ _ _ _ Hb2). solve_Permutation.
    + injection H as <- <- <-. solve_Permutation.
Qed.

Lemma flush_conserves c l c' l' f : flush c l = Ok (c', l', f) -> concat (bags l') ++ f ≡ₚ concat (bags l).
Proof.
  unfold flush. destruct (try_advance c) as [c1 [|]].
  - intros ([l1 f1] & Hr & [= <- <- <-])%bind_Ok. by eapply reclaim_conserves.
  - intros [= <- <- <-]. by rewrite app_nil_r.
Qed.

Lemma set_local_items i l l' f c s : locals s !! i = Some l -> concat (bags l') ++ f ≡ₚ concat (bags l) ->
  freed (set_local i l' f c s) ++ items (set_local i l' f c s) ≡ₚ freed s ++ items s.
Proof.
  intros Hl Hf. unfold items. cbn. rewrite list_fmap_insert. rewrite <- (assoc_L (++)). f_equiv.
  apply (Permutation_app_inv_r (concat (bags l))). rewrite <- (assoc_L (++)).
  rewrite (concat_insert _ _ _ (concat (bags l))) by (by rewrite list_lookup_fmap, Hl).
  rewrite <- Hf. solve_Permutation.
Qed.

Lemma exec_conserves a s s' : exec a s = Ok s' -> freed s' ++ items s' ≡ₚ freed s ++ items s ++ retired [a].
Proof.
  destruct a as [i|i|i p|i|i]; cbn [exec].
  - intros (c & _ & [= <-])%bind_Ok. cbn. by rewrite app_nil_r.
  - intros (c & _ & [= <-])%bind_Ok. cbn. by rewrite app_nil_r.
  - intros (l & Hl%index_Ok & ([[c l'] f] & Hd%defer_conserves & [= <-])%bind_Ok)%bind_Ok.
    rewrite Nat2Z.id in Hl. unfold items. cbn. rewrite list_fmap_insert.
    apply (Permutation_app_inv_r (concat (bags l))). rewrite <- !(assoc_L (++)).
    rewrite (concat_insert _ _ _ (concat (bags l))) by (by rewrite list_lookup_fmap, Hl).
    transitivity (freed s ++ concat ((fun l => concat (bags l)) <$> locals s) ++ (concat (bags l') ++ f)).
    { solve_Permutation. } rewrite Hd. solve_Permutation.
  - intros (l & Hl%index_Ok & ([[c l'] f] & Hd%flush_conserves & [= <-])%bind_Ok)%bind_Ok.
    rewrite Nat2Z.id in Hl. rewrite (set_local_items _ _ _ _ _ _ Hl Hd). cbn. by rewrite app_nil_r.
  - intros (l & Hl%index_Ok & ([c f] & (c' & _ & [= <- <-])%bind_Ok & [= <-])%bind_Ok)%bind_Ok.
    rewrite Nat2Z.id in Hl. rewrite (set_local_items _ _ _ _ _ _ Hl) by done. cbn. by rewrite app_nil_r.
Qed.

Lemma run_conserves calls s s' : run calls s = Ok s' -> freed s' ++ items s' ≡ₚ freed s ++ items s ++ retired calls.
Proof.
  revert s. induction calls as [|a calls IH]; cbn [run]; intros s.
  - intros [= <-]. cbn. by rewrite app_nil_r.
  - intros (s1 & H1%exec_conserves & H2%IH)%bind_Ok. rewrite H2.
    change (retired (a :: calls)) with (retired ([a] ++ calls)). unfold retired at 2. rewrite omap_app.
    rewrite (assoc_L (++)), H1. unfold retired. by rewrite <- !(assoc_L (++)).
Qed.

Lemma register_threads_items n s s' : register_threads n s = Ok s' ->
  freed s' = freed s /\ waiting s' = waiting s /\ items s' ≡ₚ items s.
Proof.
  revert s. induction n as [|n IH]; cbn [register_threads]; intros s; [by intros [= <-]|].
  intros ([c l] & H1 & H2)%bind_Ok. apply IH in H2 as (-> & -> & ->). split_and!; [done..|].
  apply bind_Ok in H1 as (r & _ & [= <- <-]). unfold items. cbn. rewrite fmap_app. cbn.
  rewrite concat_app. cbn. by rewrite app_nil_r.
Qed.

(** Nothing is lost and nothing is freed twice: after any calls of any number
    of threads, the freed objects and those in the bags are together exactly the
    retired ones, each as often as it was retired. *)
Theorem ebr_conserves n calls s0 s : start n = Ok s0 -> run calls s0 = Ok s ->
  freed s ++ items s ≡ₚ retired calls /\ (NoDup (retired calls) -> NoDup (freed s)).
Proof.
  intros Hs Hr. apply register_threads_items in Hs as (Hf & _ & Hi).
  pose proof (run_conserves _ _ _ Hr) as H. rewrite Hf, Hi in H. cbn in H. split; [done|].
  rewrite <- H. by intros [? _]%NoDup_app.
Qed.

Definition value {E A} (d : A) (c : outcome E A) : A := match c with Ok a => a | _ => d end.
Definition empty_system : system := mk_system Collector_new [] [] [].
Definition example_calls : list call := [Pin 0; Defer 1 7; Flush 1; Defer 1 8; Unpin 0; Flush 1; Exit 0].
Definition example_end : system := value empty_system (run example_calls (value empty_system (start 2))).

Lemma ebr_conserves_witness :
  freed example_end = [7] /\ freed example_end ++ items example_end ≡ₚ retired example_calls.
Proof.
  split; [vm_compute; reflexivity|].
  apply (ebr_conserves 2 example_calls (value empty_system (start 2)) example_end); by vm_compute.
Defined.

(** ** The epochs, counted *)

(** The real count of epochs behind [global_epoch], and the counts at which each
    held guard was pinned and each object retired. *)
Record ghost := mk_ghost { now : Z; pinned_at : nat -> Z; retired_at : object -> Z }.

Definition thread_ok (g : ghost) (n i : nat) (t : ThreadState) : Prop :=
  ((i < n)%nat -> active t = 1) /\
  (epoch t = UNPINNED \/ (i < n)%nat /\ epoch t = pinned_at g i mod 3 /\ now g - 1 <= pinned_at g i <= now g).

Record inv (g : ghost) (s : system) : Prop := {
  inv_now : global_epoch (collector s) = now g mod 3;
  inv_threads : (length (locals s) <= MAX_THREADS)%nat;
  inv_registry : length (registry (collector s)) = MAX_THREADS;
  inv_thread i t : registry (collector s) !! i = Some t -> thread_ok g (length (locals s)) i t;
  inv_local i l : locals s !! i = Some l -> thread_index l = i /\ length (bags l) = 3%nat;
  inv_bag i l k b p : locals s !! i = Some l -> bags l !! k = Some b -> p ∈ b ->
    p ∈ (waiting s).*1 /\ retired_at g p mod 3 = Z.of_nat k /\ retired_at g p <= now g;
  inv_waiting p gs j : (p, gs) ∈ waiting s -> j ∈ gs -> pinned (collector s) j = true /\ pinned_at g j <= retired_at g p;
  inv_freed p : p ∈ freed s -> p ∈ ((waiting s).*1);
  inv_distinct : NoDup ((waiting s).*1);
  inv_safe p gs : (p, gs) ∈ waiting s -> p ∈ freed s -> gs = []
}.

Lemma mod3_range x : 0 <= x mod 3 < 3.
Proof. apply Z.mod_pos_bound. lia. Qed.

Lemma epoch_pinned x : x mod 3 <> UNPINNED.
Proof. pose proof (mod3_range x). change UNPINNED with 18446744073709551615. lia. Qed.

Lemma pinned_ok g s j : inv g s -> pinned (collector s) j = true ->
  (j < length (locals s))%nat /\ now g - 1 <= pinned_at g j <= now g.
Proof.
  intros Hi Hp. unfold pinned in Hp. destruct (registry _ !! j) as [t|] eqn:Ht; [|done].
  destruct (inv_thread _ _ Hi _ _ Ht) as [_ [He|(? & _ & ?)]]; [|done]. rewrite He, Z.eqb_refl in Hp. done.
Qed.

Lemma registered g s i : inv g s -> (i < length (locals s))%nat -> exists t, registry (collector s) !! i = Some t.
Proof.
  intros Hi Hlt. apply lookup_lt_is_Some. rewrite (inv_registry _ _ Hi). pose proof (inv_threads _ _ Hi). lia.
Qed.

(** When the scan finds nobody behind, every guard is of the current epoch. *)
Lemma scan_pinned g s e : inv g s -> advance_scan (collector s) = Some e ->
  e = (now g + 1) mod 3 /\ forall j, pinned (collector s) j = true -> pinned_at g j = now g.
Proof.
  intros Hi. unfold advance_scan. case_match eqn:Hex; [done|]. intros [= <-]. rewrite (inv_now _ _ Hi).
  split; [by rewrite Z.add_mod_idemp_l by lia|]. intros j Hp. pose proof (pinned_ok _ _ _ Hi Hp) as [Hj ?].
  unfold pinned in Hp. destruct (registry _ !! j) as [t|] eqn:Ht; [|done].
  destruct (inv_thread _ _ Hi _ _ Ht) as [Ha [He|(_ & He & _)]]; [by rewrite He, Z.eqb_refl in Hp|].
  assert (behind (global_epoch (collector s)) t = false) as Hb.
  { destruct (behind _ t) eqn:Hb; [|done]. enough (existsb (behind (global_epoch (collector s))) (registry (collector s)) = true) by congruence.
    apply existsb_exists. exists t. split; [|done]. apply list_elem_of_In. by eapply list_elem_of_lookup_2. }
  unfold behind in Hb. rewrite (Ha Hj), (inv_now _ _ Hi), He in Hb. rewrite He in Hp. rewrite Hp in Hb. cbn in Hb.
  apply negb_false_iff, Z.eqb_eq in Hb. destruct (decide (pinned_at g j = now g)) as [|Hn]; [done|].
  assert (pinned_at g j = now g - 1) as Hpn by lia. rewrite Hpn in Hb.
  clear -Hb. exfalso. Z.to_euclidean_division_equations. lia.
Qed.

Definition tick (g : ghost) : ghost := mk_ghost (now g + 1) (pinned_at g) (retired_at g).

Definition with_collector (c : Collector) (s : system) : system := mk_system c (locals s) (freed s) (waiting s).

Lemma advance_inv g s e : inv g s -> advance_scan (collector s) = Some e ->
  inv (tick g) (with_collector (store_epoch e (collector s)) s).
Proof.
  intros Hi He. destruct (scan_pinned _ _ _ Hi He) as [-> Hp].
  split; cbn; try apply Hi; [done| |].
  - intros i t Ht. destruct (inv_thread _ _ Hi _ _ Ht) as [Ha Hq]. split; [done|].
    destruct (decide (epoch t = UNPINNED)) as [|Hne]; [by left|right]. destruct Hq as [|(? & ? & ?)]; [done|].
    split_and!; cbn; [done..| |]; enough (pinned_at g i = now g) by lia; apply Hp; unfold pinned; rewrite Ht;
      by apply negb_true_iff, Z.eqb_neq.
  - intros i l k b p Hl Hb Hin. destruct (inv_bag _ _ Hi _ _ _ _ _ Hl Hb Hin) as (? & ? & ?). split_and!; [done..|cbn; lia].
Qed.

(** The bag after the current one holds objects retired at least two epochs ago:
    no guard is older than one epoch. *)
Lemma reclaim_inv g s i l l' f : inv g s -> locals s !! i = Some l -> reclaim_after (collector s) l = Ok (l', f) ->
  inv g (set_local i l' f (collector s) s).
Proof.
  intros Hi Hl (b & Hb%index_Ok & [= <- <-])%bind_Ok. rewrite (inv_now _ _ Hi) in *.
  pose proof (mod3_range (now g mod 3 + 1)) as Hr. destruct (inv_local _ _ Hi _ _ Hl) as [Hti Hlen].
  split; cbn; try apply Hi.
  - rewrite length_insert. apply Hi.
  - rewrite length_insert. apply Hi.
  - intros j l2 [(-> & <- & _)|[_ H]]%list_lookup_insert_Some; [|by apply Hi]. cbn. by rewrite length_insert.
  - intros j l2 k b2 p [(-> & <- & _)|[_ H]]%list_lookup_insert_Some Hb2 Hp; [|by eapply Hi]. cbn in Hb2.
    apply list_lookup_insert_Some in Hb2 as [(<- & <- & _)|[_ Hb2]]; [by apply elem_of_nil in Hp|]. by eapply (inv_bag _ _ Hi).
  - intros p [Hf|Hf]%elem_of_app; [by apply Hi|]. by eapply (inv_bag _ _ Hi).
  - intros p gs Hw [Hf|Hf]%elem_of_app; [by eapply inv_safe|]. destruct gs as [|j gs]; [done|].
    destruct (inv_waiting _ _ Hi _ _ j Hw) as [Hpin Hle]; [left|]. destruct (pinned_ok _ _ _ Hi Hpin) as [_ ?].
    destruct (inv_bag _ _ Hi _ _ _ _ _ Hl Hb Hf) as (_ & Hm & Hn). rewrite Z2Nat.id in Hm by lia. exfalso.
    clear -Hm Hn Hle H. Z.to_euclidean_division_equations. lia.
Qed.

(** Retiring [p] into the bag of the current epoch. *)
Definition retire_now (p : object) (g : ghost) : ghost :=
  mk_ghost (now g) (pinned_at g) (fun q => if decide (q = p) then now g else retired_at g q).

Lemma held_pinned c j : j ∈ held c -> pinned c j = true.
Proof. unfold held. by intros [H _]%list_elem_of_filter. Qed.

Lemma elem_fst_app {B} (w : list (object * B)) x q : q ∈ ((w ++ [x]).*1) <-> q ∈ w.*1 \/ q = x.1.
Proof. rewrite fmap_app, elem_of_app. cbn. by rewrite list_elem_of_singleton. Qed.

Lemma push_inv g s i l b p : inv g s -> locals s !! i = Some l -> p ∉ ((waiting s).*1) ->
  bags l !! Z.to_nat (global_epoch (collector s)) = Some b ->
  inv (retire_now p g) (retire p (held (collector s))
    (set_local i (mk_Local (thread_index l) (<[Z.to_nat (global_epoch (collector s)) := b ++ [p]]> (bags l))) [] (collector s) s)).
Proof.
  intros Hi Hl Hnew Hb. rewrite (inv_now _ _ Hi) in *. pose proof (mod3_range (now g)) as Hr.
  destruct (inv_local _ _ Hi _ _ Hl) as [Hti Hlen].
  assert (forall q k, q ∈ (waiting s).*1 -> retired_at g q mod 3 = Z.of_nat k -> retired_at g q <= now g ->
    q ∈ ((waiting s ++ [(p, held (collector s))]).*1) /\ retired_at (retire_now p g) q mod 3 = Z.of_nat k /\
    retired_at (retire_now p g) q <= now g) as Hold.
  { intros q k Hq Hm Hn. cbn. rewrite decide_False by (by intros ->). rewrite elem_fst_app. auto. }
  split; cbn; try apply Hi.
  - rewrite length_insert. apply Hi.
  - rewrite length_insert. apply Hi.
  - intros j l2 [(-> & <- & _)|[_ H]]%list_lookup_insert_Some; [|by apply Hi]. cbn. by rewrite length_insert.
  - intros j l2 k b2 q [(-> & <- & _)|[_ H]]%list_lookup_insert_Some Hb2 Hq; cbn in Hb2.
    2:{ destruct (inv_bag _ _ Hi _ _ _ _ _ H Hb2 Hq) as (? & ? & ?). by apply Hold. }
    apply list_lookup_insert_Some in Hb2 as [(<- & <- & _)|[_ Hb2]].
    2:{ destruct (inv_bag _ _ Hi _ _ _ _ _ Hl Hb2 Hq) as (? & ? & ?). by apply Hold. }
    apply elem_of_app in Hq as [Hq|Hq]; [destruct (inv_bag _ _ Hi _ _ _ _ _ Hl Hb Hq) as (? & ? & ?); by apply Hold|].
    apply list_elem_of_singleton in Hq as ->. rewrite decide_True by done. rewrite elem_fst_app, Z2Nat.id by lia. auto with lia.
  - intros q gs j [Hq|Hq]%elem_of_app Hj.
    + rewrite decide_False; [by eapply Hi|]. intros ->. apply Hnew. apply list_elem_of_fmap. by eexists (_, _).
    + apply list_elem_of_singleton in Hq as [= -> ->]. rewrite decide_True by done. apply held_pinned in Hj as Hp.
      split; [done|]. by apply (pinned_ok _ _ _ Hi) in Hp as [_ [_ ?]].
  - intros q Hq. rewrite app_nil_r in Hq. apply (inv_freed _ _ Hi) in Hq. rewrite elem_fst_app. auto.
  - rewrite fmap_app. apply NoDup_app. split_and!; [apply Hi| |apply NoDup_singleton].
    intros q Hq ->%list_elem_of_singleton. done.
  - intros q gs [Hq|Hq]%elem_of_app Hf; rewrite app_nil_r in Hf; [by eapply inv_safe|].
    apply list_elem_of_singleton in Hq as [= -> ->]. by apply (inv_freed _ _ Hi) in Hf.
Qed.

(** A thread's registry slot changes, and nothing else. *)
Lemma set_epoch_inv g g' s i t w : inv g s -> registry (collector s) !! i = Some t ->
  now g' = now g -> retired_at g' = retired_at g ->
  (forall j, j <> i -> pinned_at g' j = pinned_at g j) ->
  forall t', thread_ok g' (length (locals s)) i t' ->
  w.*1 = (waiting s).*1 ->
  (forall p gs, (p, gs) ∈ w -> exists gs', (p, gs') ∈ waiting s /\ (gs' = [] -> gs = []) /\ forall j, j ∈ gs -> j ∈ gs' /\ j <> i) ->
  inv g' (mk_system (set_thread i t' (collector s)) (locals s) (freed s) w).
Proof.
  intros Hi Ht Hn Hr Hpa t' Ht' Hw1 Hw. split; cbn; try apply Hi.
  - rewrite Hn. apply Hi.
  - rewrite length_insert. apply Hi.
  - intros j u [(-> & <- & _)|[Hne H]]%list_lookup_insert_Some; [done|]. apply (inv_thread _ _ Hi) in H.
    destruct H as [Ha H]. split; [done|]. by rewrite Hpa, Hn by done.
  - rewrite Hw1, Hr, Hn. apply Hi.
  - intros p gs j Hp Hj. destruct (Hw _ _ Hp) as (gs' & Hp' & _ & Hsub). destruct (Hsub _ Hj) as [Hj' Hne].
    rewrite Hpa, Hr by done. unfold pinned. cbn. rewrite list_lookup_insert_ne by done. by eapply (inv_waiting _ _ Hi).
  - rewrite Hw1. apply Hi.
  - rewrite Hw1. apply Hi.
  - intros p gs Hp Hf. destruct (Hw _ _ Hp) as (gs' & Hp' & Hnil & _). apply Hnil. by eapply (inv_safe _ _ Hi).
Qed.

Lemma index_registry {E} c i t : registry c !! i = Some t -> index (E := E) (registry c) (Z.of_nat i) = Ok t.
Proof. intros H. apply index_ok; [lia|]. by rewrite Nat2Z.id. Qed.

Lemma pin_inv g s i : inv g s -> allowed (Pin i) s -> exists g' s', exec (Pin i) s = Ok s' /\ inv g' s'.
Proof.
  intros Hi [Hlt Hp]. destruct (registered _ _ _ Hi Hlt) as [t Ht].
  exists (mk_ghost (now g) (fun j => if decide (j = i) then now g else pinned_at g j) (retired_at g)).
  eexists. split; [cbn; unfold pin; by rewrite (index_registry _ _ _ Ht)|].
  destruct (inv_thread _ _ Hi _ _ Ht) as [Ha _].
  eapply set_epoch_inv; [exact Hi|exact Ht|done..| | |done|].
  - intros j Hj. cbn. by rewrite decide_False.
  - split; [done|]. right. cbn. rewrite decide_True by done. rewrite (inv_now _ _ Hi). split_and!; [done..|lia|lia].
  - intros p gs Hin. exists gs. split_and!; [done..|]. intros j Hj. split; [done|]. intros ->.
    destruct (inv_waiting _ _ Hi _ _ _ Hin Hj). congruence.
Qed.

Lemma unpin_inv g s i : inv g s -> allowed (Unpin i) s -> exists g' s', exec (Unpin i) s = Ok s' /\ inv g' s'.
Proof.
  intros Hi Hp. destruct (pinned_ok _ _ _ Hi Hp) as [Hlt _]. destruct (registered _ _ _ Hi Hlt) as [t Ht].
  exists g. eexists. split; [cbn; unfold unpin; by rewrite (index_registry _ _ _ Ht)|].
  destruct (inv_thread _ _ Hi _ _ Ht) as [Ha _].
  eapply set_epoch_inv; [exact Hi|exact Ht|done..| | |].
  - split; [done|by left].
  - unfold release. by rewrite <- list_fmap_compose.
  - intros p gs ([q gs'] & [= -> ->] & Hin)%list_elem_of_fmap. exists gs'. split_and!; [done|by intros ->|].
    intros j [? ?]%list_elem_of_filter. done.
Qed.

Lemma index_local {E} (s : system) i l : locals s !! i = Some l -> index (E := E) (locals s) (Z.of_nat i) = Ok l.
Proof. intros H. apply index_ok; [lia|]. by rewrite Nat2Z.id. Qed.

Lemma reclaim_ok g s i l : inv g s -> locals s !! i = Some l -> exists l' f, reclaim_after (collector s) l = Ok (l', f) /\
  inv g (set_local i l' f (collector s) s).
Proof.
  intros Hi Hl. destruct (inv_local _ _ Hi _ _ Hl) as [_ Hlen].
  pose proof (mod3_range (global_epoch (collector s) + 1)) as Hr.
  destruct (lookup_lt_is_Some_2 (bags l) (Z.to_nat ((global_epoch (collector s) + 1) mod 3))) as [b Hb]; [lia|].
  assert (reclaim_after (collector s) l = Ok (mk_Local (thread_index l) (<[Z.to_nat ((global_epoch (collector s) + 1) mod 3) := []]> (bags l)), b)) as H.
  { unfold reclaim_after, reclaim_all. by rewrite (index_ok _ _ b) by (done || lia). }
  eexists _, _. split; [exact H|by eapply reclaim_inv].
Qed.

Lemma flush_inv g s i : inv g s -> allowed (Flush i) s -> exists g' s', exec (Flush i) s = Ok s' /\ inv g' s'.
Proof.
  intros Hi Hlt. destruct (lookup_lt_is_Some_2 _ _ Hlt) as [l Hl]. cbn. rewrite (index_local _ _ _ Hl). cbn.
  unfold flush, try_advance. destruct (advance_scan (collector s)) as [e|] eqn:He; cbn.
  - apply (advance_inv _ _ _ Hi) in He. destruct (reclaim_ok _ _ _ _ He Hl) as (l' & f & Hr & Hi').
    cbn in Hr. rewrite Hr. cbn. by eexists _, _.
  - eexists g, _. split; [done|]. unfold set_local. rewrite list_insert_id, app_nil_r by done. by destruct s.
Qed.

Lemma is_full_push b p : is_full b = false -> Bag_push b p = Some (b ++ [p]).
Proof. unfold Bag_push. by intros ->. Qed.

Lemma defer_inv g s i p : inv g s -> allowed (Defer i p) s -> exists g' s', exec (Defer i p) s = Ok s' /\ inv g' s'.
Proof.
  intros Hi [Hnew Hroom]. destruct (locals s !! i) as [l|] eqn:Hl; [|done]. cbn. rewrite (index_local _ _ _ Hl). cbn.
  destruct (inv_local _ _ Hi _ _ Hl) as [_ Hlen]. pose proof (mod3_range (now g)) as Hr.
  destruct (lookup_lt_is_Some_2 (bags l) (Z.to_nat (global_epoch (collector s)))) as [b Hb]; [rewrite (inv_now _ _ Hi); lia|].
  unfold defer. rewrite (index_ok _ _ b) by (done || rewrite (inv_now _ _ Hi); lia). cbn.
  unfold has_room in Hroom. rewrite Hb in Hroom. unfold Bag_push at 1. destruct (is_full b) eqn:Hfull; cbn in Hroom.
  2:{ eexists _, _. split; [done|]. by apply push_inv. }
  unfold try_advance. destruct (advance_scan (collector s)) as [e|] eqn:He; [|done].
  pose proof (scan_pinned _ _ _ Hi He) as [Hee _]. pose proof (mod3_range (now g + 1)) as Hr'.
  apply (advance_inv _ _ _ Hi) in He. destruct (reclaim_ok _ _ _ _ He Hl) as (l' & f & Hre & Hi').
  cbn in Hre. rewrite Hre. cbn. apply bind_Ok in Hre as (b1 & _ & [= <- <-]). cbn.
  destruct (bags l !! Z.to_nat e) as [b2|] eqn:Hb2; [|done]. apply negb_true_iff in Hroom.
  set (l' := mk_Local _ _) in *. assert (bags l' !! Z.to_nat e = Some b2) as Hb2'.
  { cbn. rewrite list_lookup_insert_ne; [done|]. clear -Hee. subst e. Z.to_euclidean_division_equations. lia. }
  cbn in Hb2'. rewrite (index_ok _ _ b2) by (done || lia). cbn. rewrite is_full_push by done.
  eexists _, _. split; [done|]. eapply (push_inv _ _ i l' b2 p) in Hi'; [|by apply list_lookup_insert_eq; eapply lookup_lt_Some|done..].
  cbn in Hi'. unfold retire, set_local in *. cbn in *. rewrite list_insert_insert_eq, app_nil_r in Hi'. exact Hi'.
Qed.

Lemma exec_inv g s a : inv g s -> allowed a s -> exists g' s', exec a s = Ok s' /\ inv g' s'.
Proof.
  destruct a; [apply pin_inv|apply unpin_inv|apply defer_inv|apply flush_inv|done].
Qed.

(** ** Registration *)

Definition fresh_registry (k : nat) : list ThreadState :=
  replicate k (mk_ThreadState UNPINNED 1) ++ replicate (MAX_THREADS - k) (mk_ThreadState UNPINNED 0).
Definition fresh_local (i : nat) : Local := mk_Local i [[]; []; []].
Definition fresh_system (k : nat) : system :=
  mk_system (mk_Collector 0 (fresh_registry k)) (fresh_local <$> List.seq 0 k) [] [].

Lemma first_free_skip i k ts : first_free i (replicate k (mk_ThreadState UNPINNED 1) ++ ts) = first_free (i + k) ts.
Proof.
  revert i. induction k as [|k IH]; intros i; cbn [replicate app first_free]; [by rewrite Nat.add_0_r|].
  cbn [active]. rewrite IH. f_equal. lia.
Qed.

Lemma Local_new_fresh k : (k < MAX_THREADS)%nat ->
  Local_new (collector (fresh_system k)) = Ok (collector (fresh_system (S k)), fresh_local k).
Proof.
  intros Hk. unfold Local_new, register, fresh_system, fresh_registry. cbn [collector registry].
  rewrite first_free_skip. replace (MAX_THREADS - k)%nat with (S (MAX_THREADS - S k)) by lia. cbn [replicate first_free active].
  replace (0 =? 0) with true by done. cbn [Nat.add].
  rewrite (index_ok _ _ (mk_ThreadState UNPINNED 0)); [|lia|]; rewrite ?Nat2Z.id.
  2:{ rewrite lookup_app_r, length_replicate, Nat.sub_diag by (rewrite length_replicate; lia). done. }
  cbn. unfold set_thread, fresh_local. cbn. do 4 f_equal.
  rewrite insert_app_r_alt, length_replicate, Nat.sub_diag by (rewrite length_replicate; lia). cbn.
  rewrite app_comm_cons, replicate_cons_app, <- (assoc_L (++)). done.
Qed.

Lemma start_fresh n : (n <= MAX_THREADS)%nat -> start n = Ok (fresh_system n).
Proof.
  intros Hn. unfold start. change (mk_system Collector_new [] [] []) with (fresh_system 0).
  enough (forall k, (k + n <= MAX_THREADS)%nat -> register_threads n (fresh_system k) = Ok (fresh_system (k + n))) by (by apply (H 0%nat)).
  clear Hn. induction n as [|n IH]; intros k Hk; cbn [register_threads]; [by rewrite Nat.add_0_r|].
  rewrite Local_new_fresh by lia. cbn. rewrite <- Nat.add_succ_comm, <- IH by lia. f_equal.
  unfold fresh_system. by rewrite seq_S, fmap_app.
Qed.

(** A thread more than [MAX_THREADS] finds no free index and panics. *)
Lemma start_full : start (S MAX_THREADS) = Panic.
Proof. vm_compute. reflexivity. Qed.

Lemma start_threads n s : start n = Ok s -> (n <= MAX_THREADS)%nat /\ s = fresh_system n.
Proof.
  intros H. destruct (decide (n <= MAX_THREADS)%nat) as [Hn|Hn].
  { rewrite start_fresh in H by done. by injection H as <-. }
  exfalso. revert H. unfold start. change (mk_system Collector_new [] [] []) with (fresh_system 0).
  assert (forall m k s, register_threads (m + k) s = (s ← register_threads m s; register_threads k s)) as Hsplit.
  { induction m as [|m IH]; intros k s1; [done|]. cbn. destruct (Local_new (collector s1)); cbn; [apply IH|done..]. }
  replace n with (S MAX_THREADS + (n - S MAX_THREADS))%nat by lia. rewrite Hsplit.
  change (register_threads (S MAX_THREADS) (fresh_system 0)) with (start (S MAX_THREADS)). by rewrite start_full.
Qed.

Lemma fresh_inv n : (n <= MAX_THREADS)%nat -> inv (mk_ghost 0 (fun _ => 0) (fun _ => 0)) (fresh_system n).
Proof.
  intros Hn. unfold fresh_system. split; cbn; rewrite ?length_fmap, ?length_seq; try done;
    try (intros; exfalso; match goal with H : _ ∈ [] |- _ => by apply elem_of_nil in H end).
  - unfold fresh_registry. rewrite length_app, !length_replicate. lia.
  - intros i t [H|[Hlt H]]%lookup_app_Some; apply lookup_replicate in H as [-> ?]; (split; [|by left]); cbn; [done|].
    rewrite length_replicate in Hlt. lia.
  - intros i l (j & -> & [-> _]%lookup_seq)%list_lookup_fmap_Some. done.
  - intros i l k b p (j & -> & _)%list_lookup_fmap_Some Hb. cbn in Hb. intros Hp. exfalso.
    destruct k as [|[|[|k]]]; cbn in Hb; try done; injection Hb as <-; by apply elem_of_nil in Hp.
  - constructor.
Qed.

Lemma reachable_inv n s : reachable n s -> exists g, inv g s.
Proof.
  induction 1 as [s Hs|s a s' _ [g Hi] Ha He]; [|destruct (exec_inv _ _ _ Hi Ha) as (g' & s'' & He' & Hi'); exists g'; congruence].
  apply start_threads in Hs as [Hn ->]. eexists. by apply fresh_inv.
Qed.

(** Safety: in every state that callers keeping the contract [allowed] can
    reach, an object was freed only after every guard that was held when it was
    retired had been dropped; and every further call that keeps the contract
    succeeds. *)
Theorem ebr_safe n s : reachable n s ->
  (forall p gs, (p, gs) ∈ waiting s -> p ∈ freed s -> gs = []) /\
  (forall a, allowed a s -> exists s', exec a s = Ok s').
Proof.
  intros [g Hi]%reachable_inv. split; [exact (inv_safe _ _ Hi)|].
  intros a Ha. destruct (exec_inv _ _ _ Hi Ha) as (_ & s' & Hs & _). by exists s'.
Qed.

(** Runs that keep the contract, computed. *)
Definition allowedb (a : call) (s : system) : bool :=
  match a with
  | Pin i => (i <? length (locals s))%nat && negb (pinned (collector s) i)
  | Unpin i => pinned (collector s) i
  | Defer i p => bool_decide (p ∉ ((waiting s).*1)) && match locals s !! i with Some l => has_room (collector s) l | None => false end
  | Flush i => (i <? length (locals s))%nat
  | Exit _ => false
  end.

Lemma allowedb_allowed a s : allowedb a s = true -> allowed a s.
Proof.
  destruct a; cbn; [intros [H%Nat.ltb_lt Hp%negb_true_iff]%andb_true_iff|..]; try done; [|by intros Hlt%Nat.ltb_lt].
  intros [Hn%bool_decide_eq_true Hroom]%andb_true_iff. split; [done|]. by case_match.
Qed.

Fixpoint run_allowed (calls : list call) (s : system) : bool :=
  match calls with
  | [] => true
  | a :: calls => allowedb a s && match exec a s with Ok s => run_allowed calls s | _ => false end
  end.

Lemma run_reachable n calls s s' : reachable n s -> run_allowed calls s = true -> run calls s = Ok s' -> reachable n s'.
Proof.
  revert s. induction calls as [|a calls IH]; cbn; intros s Hs; [by intros _ [= <-]|].
  intros [Ha%allowedb_allowed H]%andb_true_iff. destruct (exec a s) as [s1| | |] eqn:He; [|done..].
  intros Hr. eapply (IH s1); [|done..]. by eapply reachable_step.
Qed.

Definition guarded_calls : list call :=
  [Pin 0; Defer 1 7; Unpin 0; Flush 1; Pin 0; Defer 1 8; Flush 1; Flush 1; Flush 1].
Definition guarded_end : system := value empty_system (run guarded_calls (value empty_system (start 2))).

Lemma ebr_safe_witness :
  freed guarded_end = [7] /\ waiting guarded_end = [(7, []); (8, [0%nat])] /\
  exists s', exec (Unpin 0) guarded_end = Ok s'.
Proof.
  split_and!; [vm_compute; reflexivity..|].
  apply (ebr_safe 2 guarded_end).
  - eapply (run_reachable 2 guarded_calls (value empty_system (start 2))); [|vm_compute; reflexivity..].
    apply reachable_start. vm_compute. reflexivity.
  - vm_compute. reflexivity.
Defined.

(** ** Retired objects are freed in the end *)

Lemma idle_scan c : (forall j, pinned c j = false) -> advance_scan c = Some ((global_epoch c + 1) mod 3).
Proof.
  intros Hp. unfold advance_scan. case_match eqn:Hex; [|done]. exfalso.
  apply existsb_exists in Hex as (t & [i Hi]%list_elem_of_In%list_elem_of_lookup & Hb).
  specialize (Hp i). unfold pinned in Hp. rewrite Hi in Hp. unfold behind in Hb.
  destruct (epoch t =? UNPINNED); cbn in *; [|done]. by destruct (negb (active t =? 0)).
Qed.

Lemma flush_idle i l s k b : locals s !! i = Some l -> (forall j, pinned (collector s) j = false) ->
  k = Z.to_nat ((global_epoch (collector s) + 2) mod 3) -> bags l !! k = Some b ->
  exists s' l', exec (Flush i) s = Ok s' /\ locals s' !! i = Some l' /\ bags l' = <[k := []]> (bags l) /\
    freed s' = freed s ++ b /\ (forall j, pinned (collector s') j = false) /\
    global_epoch (collector s') = (global_epoch (collector s) + 1) mod 3.
Proof.
  intros Hl Hp -> Hb. cbn. rewrite (index_local _ _ _ Hl). cbn. unfold flush, try_advance. rewrite (idle_scan _ Hp).
  unfold reclaim_after, reclaim_all. cbn. rewrite Z.add_mod_idemp_l, <- Z.add_assoc by lia. change (1 + 1) with 2.
  rewrite (index_ok _ _ b); [|apply Z.mod_pos_bound; lia|done].
  eexists _, _. split; [done|]. cbn. rewrite list_lookup_insert_eq by (by eapply lookup_lt_Some). done.
Qed.

Lemma run_cons a calls s s1 : exec a s = Ok s1 -> run (a :: calls) s = run calls s1.
Proof. cbn [run]. by intros ->. Qed.

Ltac one_flush He Hbags k b :=
  match goal with Hl : locals ?s !! ?i = Some ?l, Hp : forall j, pinned (collector ?s) j = false |- _ =>
    let s' := fresh "s" in let l' := fresh "l" in let E := fresh "E" in let F := fresh "F" in
    destruct (flush_idle i l s k b) as (s' & l' & E & ? & Hbags' & F & ? & He');
      [exact Hl|exact Hp|by rewrite He|by rewrite Hbags|];
    rewrite (run_cons _ _ _ _ E), He, Hbags in *; cbn in Hbags'; clear Hl Hp E Hbags He;
    rename Hbags' into Hbags; rename He' into He
  end.
Ltac all_flushed Hbags :=
  eexists _, _; split_and!; [reflexivity|eassumption|exact Hbags|];
  repeat match goal with F : freed ?s = _ |- context [freed ?s] => rewrite F end; cbn; solve_Permutation.

(** C31: No leak: once no guard is held, three calls of [flush] by a thread free
    everything it has retired. *)
Theorem ebr_flushes_all n s i l : reachable n s -> locals s !! i = Some l -> (forall j, pinned (collector s) j = false) ->
  exists s' l', run [Flush i; Flush i; Flush i] s = Ok s' /\
    locals s' !! i = Some l' /\ bags l' = [[]; []; []] /\ freed s' ≡ₚ freed s ++ concat (bags l).
Proof.
  intros [g Hi]%reachable_inv Hl Hp. destruct (inv_local _ _ Hi _ _ Hl) as [_ Hlen].
  destruct (bags l) as [|b0 [|b1 [|b2 [|]]]] eqn:Hbags; try done. clear Hlen.
  pose proof (mod3_range (now g)) as Hr. rewrite <- (inv_now _ _ Hi) in Hr. clear Hi.
  assert (global_epoch (collector s) = 0 \/ global_epoch (collector s) = 1 \/ global_epoch (collector s) = 2) as [He|[He|He]] by lia;
    clear Hr.
  - one_flush He Hbags 2%nat b2. one_flush He Hbags 0%nat b0. one_flush He Hbags 1%nat b1. all_flushed Hbags.
  - one_flush He Hbags 0%nat b0. one_flush He Hbags 1%nat b1. one_flush He Hbags 2%nat b2. all_flushed Hbags.
  - one_flush He Hbags 1%nat b1. one_flush He Hbags 2%nat b2. one_flush He Hbags 0%nat b0. all_flushed Hbags.
Qed.

Definition idle_calls : list call := [Pin 0; Defer 1 7; Flush 1; Defer 1 8; Flush 1; Unpin 0].
Definition idle_end : system := value empty_system (run idle_calls (value empty_system (start 2))).

Lemma ebr_flushes_all_witness :
  freed idle_end = [] /\
  exists s' l', run [Flush 1; Flush 1; Flush 1] idle_end = Ok s' /\
    locals s' !! 1%nat = Some l' /\ bags l' = [[]; []; []] /\ freed s' ≡ₚ freed idle_end ++ [7; 8].
Proof.
  split; [vm_compute; reflexivity|].
  apply (ebr_flushes_all 2 idle_end 1 (mk_Local 1 [[7]; [8]; []])).
  - eapply (run_reachable 2 idle_calls (value empty_system (start 2))); [|vm_compute; reflexivity..].
    apply reachable_start. vm_compute. reflexivity.
  - vm_compute. reflexivity.
  - intros j. destruct (decide (j < MAX_THREADS)%nat) as [Hj|Hj].
    + assert (forallb (fun j => negb (pinned (collector idle_end) j)) (List.seq 0 MAX_THREADS) = true) as H by (vm_compute; reflexivity).
      apply negb_true_iff. eapply forallb_forall in H; [exact H|]. apply in_seq. lia.
    + unfold pinned. rewrite lookup_ge_None_2; [done|]. replace (length _) with MAX_THREADS by (vm_compute; reflexivity). lia.
Defined.

(** ** Outside the contract *)

(** [flush] in its three accesses of the global epoch: the scan, the store, and
    the load and reclamation after it.  A thread's phase is where its flush is. *)
Inductive phase := Idle | Scanned (e : Z) | Stored.
Inductive step := Whole (a : call) | Scan (i : nat) | Store (i : nat) | Reclaim (i : nat).
Record torn := mk_torn { sys : system; phases : list phase }.

Definition exec_step (x : step) (t : torn) : outcome fuel_error torn :=
  match x with
  | Whole a => s ← exec a (sys t); Ok (mk_torn s (phases t))
  | Scan i =>
      Ok (mk_torn (sys t) match advance_scan (collector (sys t)) with
                          | Some e => <[i := Scanned e]> (phases t)
                          | None => phases t
                          end)
  | Store i =>
      match phases t !! i with
      | Some (Scanned e) => Ok (mk_torn (with_collector (store_epoch e (collector (sys t))) (sys t)) (<[i := Stored]> (phases t)))
      | _ => Ok t
      end
  | Reclaim i =>
      match phases t !! i with
      | Some Stored =>
          l ← index (locals (sys t)) (Z.of_nat i);
          r ← reclaim_after (collector (sys t)) l;
          Ok (mk_torn (set_local i r.1 r.2 (collector (sys t)) (sys t)) (<[i := Idle]> (phases t)))
      | _ => Ok t
      end
  end.

Fixpoint run_steps (xs : list step) (t : torn) : outcome fuel_error torn :=
  match xs with
  | [] => Ok t
  | x :: xs => t ← exec_step x t; run_steps xs t
  end.

(** With nothing in between, the three steps are [flush]. *)
Lemma untorn_flush i t l : phases t !! i = Some Idle -> locals (sys t) !! i = Some l ->
  run_steps [Scan i; Store i; Reclaim i] t = (s ← exec (Flush i) (sys t); Ok (mk_torn s (phases t))).
Proof.
  intros Hph Hl. pose proof (lookup_lt_Some _ _ _ Hph) as Hlt. cbn. rewrite (index_local _ _ _ Hl). cbn.
  unfold flush, try_advance. destruct (advance_scan (collector (sys t))) as [e|]; cbn.
  - rewrite list_lookup_insert_eq by done. cbn. rewrite list_lookup_insert_eq by (by rewrite length_insert). cbn.
    rewrite (index_local _ _ _ Hl). cbn. destruct (reclaim_after _ l); cbn; [|done..].
    rewrite !list_insert_insert_eq, list_insert_id by done. done.
  - rewrite Hph. cbn. rewrite Hph. unfold set_local. rewrite list_insert_id, app_nil_r by done.
    by destruct t as [[]].
Qed.

(** An object is freed while a guard that was held when it was retired still is. *)
Definition freed_early (s : system) (p : object) (i : nat) : Prop := p ∈ freed s /\ exists gs, (p, gs) ∈ waiting s /\ i ∈ gs.

Definition freed_earlyb (p : object) (i : nat) (s : system) : bool :=
  bool_decide (p ∈ freed s) && existsb (fun x => (x.1 =? p) && bool_decide (i ∈ x.2)) (waiting s).

Lemma freed_earlyb_spec p i s : freed_earlyb p i s = true -> freed_early s p i.
Proof.
  intros [H1%bool_decide_eq_true ([q gs] & Hin & [Hq%Z.eqb_eq Hi%bool_decide_eq_true]%andb_true_iff)%existsb_exists]%andb_true_iff.
  split; [done|]. exists gs. cbn in *. subst. split; [|done]. by apply list_elem_of_In.
Qed.

Definition overflow_calls : list call := [Pin 0; Flush 1] ++ ((fun k => Defer 1 (Z.of_nat k)) <$> List.seq 1 65).
Definition exit_calls : list call := [Pin 0; Defer 1 7; Exit 1].
Definition nested_calls : list call := [Pin 0; Defer 1 7; Flush 1; Pin 0; Flush 1].
Definition torn_steps : list step :=
  [Scan 0; Scan 1; Whole (Flush 2); Whole (Pin 3); Whole (Flush 2); Whole (Defer 2 7);
   Store 0; Scan 2; Store 2; Store 1; Reclaim 2].

(** Each condition of the contract is needed: a reader's object is freed under
    its guard when the 65th object goes into a full bag while the reader is one
    epoch behind, when the thread that retired it exits, when the reader pins
    twice, and when two threads have scanned for the same advance and store it
    around a third thread's flush. *)
Theorem ebr_frees_early :
  (exists s0 s, start 2 = Ok s0 /\ run overflow_calls s0 = Ok s /\ freed_early s 65 0) /\
  (exists s0 s, start 2 = Ok s0 /\ run exit_calls s0 = Ok s /\ freed_early s 7 0) /\
  (exists s0 s, start 2 = Ok s0 /\ run nested_calls s0 = Ok s /\ freed_early s 7 0) /\
  (exists s0 t, start 4 = Ok s0 /\ run_steps torn_steps (mk_torn s0 (replicate 4 Idle)) = Ok t /\ freed_early (sys t) 7 3).
Proof.
  split_and!; eexists _, _; (split; [vm_compute; reflexivity|]); (split; [vm_compute; reflexivity|]);
    apply freed_earlyb_spec; vm_compute; reflexivity.
Qed.
