(* ===== verification/ConcurrentEbr.v ===== *)
(** * Epoch-based reclamation, one atomic operation at a time
    (tier2_concurrency/src/ebr.rs)

    [Ebr] runs whole calls one after another.  Here any number of threads are in
    the middle of their calls and take turns at every load, store and
    compare-exchange: [step] is one thread's next atomic operation, with the
    thread-local work that follows it up to the next one.  The atomics are taken
    as sequentially consistent.

    [atomic_safe]: no object is freed under a guard that was held when it was
    retired, in every interleaving in which no load of the global epoch is
    overtaken by two changes of it before the store that depends on it
    ([timely]).  [stale_pin_frees_early]: that condition is needed of [pin],
    which does not look at the global epoch again after its store.
    [call_alone]: a call whose operations nothing interleaves with is the call of
    [Ebr].  ConcurrentMap.v, whose threads make these calls, is proved against
    [enter_good], [good_step], [fire_step] and [pin_alone]. *)

From S2P Require Import Prelude Ebr.
#[local] Open Scope Z_scope.

(** ** Threads and their steps *)

(** What runs [try_advance]. *)
Inductive caller := Flushing | Deferring (p : object).

(** The atomic operation a thread is about to do. *)
Inductive point :=
| Outside
| Register_cas (i : nat)
| Idle
| Pin_load
| Pin_store (global : Z)
| Drop_store
| Defer_load (p : object)
| Advance_load (k : caller)
| Scan_active (k : caller) (current_global : Z) (i : nat)
| Scan_epoch (k : caller) (current_global : Z) (i : nat)
| Advance_store (k : caller) (current_global : Z)
| Reclaim_load (k : caller)
| Retry_load (p : object)
| Destroy_bags
| Lose_bags
| Unregister_epoch
| Unregister_active.

(** A thread: its [ThreadLocalLocal], the number of guards it holds, and where
    it is; [Outside] and [Register_cas] have no [ThreadLocalLocal] yet. *)
Record thread := mk_thread { local : Local; guards : nat; at_ : point }.
Definition unattached : thread := mk_thread (mk_Local 0 []) 0 Outside.

Definition goto (x : point) (t : thread) : thread := mk_thread (local t) (guards t) x.
Definition with_bags (bs : list Bag) (t : thread) : thread :=
  mk_thread (mk_Local (thread_index (local t)) bs) (guards t) (at_ t).

(** The loop of [try_advance] after index [i], and what follows [try_advance]
    when it is [false]. *)
Definition scan_next (k : caller) (current_global : Z) (i : nat) : point :=
  if (S i <? MAX_THREADS)%nat then Scan_active k current_global (S i) else Advance_store k current_global.
Definition not_advanced (k : caller) : point :=
  match k with Flushing => Idle | Deferring p => Retry_load p end.

(** [Drop for Bag] and [Drop for ThreadLocalLocal]: the bags are reclaimed, then
    dropped, empty, with the rest of the value; the slot stays registered. *)
Definition Bag_drop (b : Bag) : Bag * list object := ([], b).
Definition Local_drop (l : Local) : list object :=
  concat (bags l) ++ concat ((fun b => (Bag_drop (Bag_drop b).1).2) <$> bags l).

(** One atomic operation of a thread, by where it is: the shared state after it,
    the thread, and the objects freed. *)
Definition step (c : Collector) (t : thread) : outcome fuel_error (Collector * thread * list object) :=
  let i := thread_index (local t) in
  match at_ t with
  | Outside | Idle => Ok (c, t, [])
  | Register_cas j =>
      if (j <? MAX_THREADS)%nat then
        state ← index (registry c) (Z.of_nat j);
        if active state =? 0
        then Ok (set_thread j (mk_ThreadState (epoch state) 1) c, mk_thread (fresh_local j) 0 Idle, [])
        else Ok (c, goto (Register_cas (S j)) t, [])
      else Panic
  | Pin_load => Ok (c, goto (Pin_store (global_epoch c)) t, [])
  | Pin_store global =>
      state ← index (registry c) (Z.of_nat i);
      Ok (set_thread i (mk_ThreadState global (active state)) c, mk_thread (local t) (S (guards t)) Idle, [])
  | Drop_store =>
      state ← index (registry c) (Z.of_nat i);
      Ok (set_thread i (mk_ThreadState UNPINNED (active state)) c, mk_thread (local t) (pred (guards t)) Idle, [])
  | Defer_load p =>
      bag ← index (bags (local t)) (global_epoch c);
      match Bag_push bag p with
      | Some bag => Ok (c, goto Idle (with_bags (<[Z.to_nat (global_epoch c) := bag]> (bags (local t))) t), [])
      | None => Ok (c, goto (Advance_load (Deferring p)) t, [])
      end
  | Advance_load k => Ok (c, goto (Scan_active k (global_epoch c) 0) t, [])
  | Scan_active k cg j =>
      state ← index (registry c) (Z.of_nat j);
      Ok (c, goto (if active state =? 0 then scan_next k cg j else Scan_epoch k cg j) t, [])
  | Scan_epoch k cg j =>
      state ← index (registry c) (Z.of_nat j);
      Ok (c, goto (if negb (epoch state =? UNPINNED) && negb (epoch state =? cg) then not_advanced k else scan_next k cg j) t, [])
  | Advance_store k cg => Ok (store_epoch ((cg + 1) mod 3) c, goto (Reclaim_load k) t, [])
  | Reclaim_load k =>
      r ← reclaim_after c (local t);
      Ok (c, goto (not_advanced k) (mk_thread r.1 (guards t) (at_ t)), r.2)
  | Retry_load p =>
      bag ← index (bags (local t)) (global_epoch c);
      match Bag_push bag p with
      | Some bag => Ok (c, goto Idle (with_bags (<[Z.to_nat (global_epoch c) := bag]> (bags (local t))) t), [])
      | None => Ok (c, goto Idle t, [p])
      end
  | Destroy_bags => Ok (c, goto Unregister_epoch (with_bags [[]; []; []] t), concat (bags (local t)))
  | Lose_bags => Ok (c, unattached, Local_drop (local t))
  | Unregister_epoch =>
      if (i <? MAX_THREADS)%nat then
        state ← index (registry c) (Z.of_nat i);
        Ok (set_thread i (mk_ThreadState UNPINNED (active state)) c, goto Unregister_active t, [])
      else Panic
  | Unregister_active =>
      state ← index (registry c) (Z.of_nat i);
      Ok (set_thread i (mk_ThreadState (epoch state) 0) c, unattached, [])
  end.

(** The calls a client makes ([LoseOp] drops the value without [destroy]), and the first operation of each; a thread begins a
    call when it is in none. *)
Inductive op := New | PinOp | DropOp | DeferOp (p : object) | FlushOp | DestroyOp | LoseOp.

Definition entry (a : op) : point :=
  match a with
  | New => Register_cas 0
  | PinOp => Pin_load
  | DropOp => Drop_store
  | DeferOp p => Defer_load p
  | FlushOp => Advance_load Flushing
  | DestroyOp => Destroy_bags
  | LoseOp => Lose_bags
  end.

Definition ready (a : op) (t : thread) : bool :=
  match a, at_ t with
  | New, Outside => true
  | New, _ => false
  | _, Idle => true
  | _, _ => false
  end.

(** ** The machine

    The collector, the threads and what has been freed.  For the specification
    only: [due], for every retired object the threads that held a guard when it
    was retired and still hold it; [changes], how often the global epoch has
    changed; [seen], for each thread the [changes] at the last load of the global
    epoch by its [pin] or [try_advance]. *)
Record machine := mk_machine {
  shared : Collector;
  threads : list thread;
  gone : list object;
  due : list (object * list nat);
  changes : Z;
  seen : nat -> Z
}.

Definition holds (ts : list thread) (i : nat) : bool :=
  match ts !! i with Some t => negb (guards t =? 0)%nat | None => false end.
Definition holders (ts : list thread) : list nat := filter (fun i => holds ts i = true) (List.seq 0 (length ts)).

Definition account (i : nat) (x : point) (ts ts' : list thread) (w : list (object * list nat)) : list (object * list nat) :=
  match x with
  | Defer_load p => w ++ [(p, holders ts)]
  | Drop_store => if holds ts' i then w else release i w
  | _ => w
  end.

Definition look (i : nat) (x : point) (now : Z) (f : nat -> Z) : nat -> Z :=
  match x with
  | Pin_load | Advance_load _ => fun j => if decide (j = i) then now else f j
  | _ => f
  end.

Inductive event := Begin (i : nat) (a : op) | Step (i : nat).

Definition fire (e : event) (s : machine) : outcome fuel_error machine :=
  match e with
  | Begin i a =>
      t ← index (threads s) (Z.of_nat i);
      Ok (if ready a t then mk_machine (shared s) (<[i := goto (entry a) t]> (threads s)) (gone s) (due s) (changes s) (seen s) else s)
  | Step i =>
      t ← index (threads s) (Z.of_nat i);
      r ← step (shared s) t;
      let '(c, t', f) := r in
      let ts := <[i := t']> (threads s) in
      Ok (mk_machine c ts (gone s ++ f) (account i (at_ t) (threads s) ts (due s))
            (if global_epoch c =? global_epoch (shared s) then changes s else changes s + 1)
            (look i (at_ t) (changes s) (seen s)))
  end.

Definition initial (n : nat) : machine := mk_machine Collector_new (replicate n unattached) [] [] 0 (fun _ => 0).

Fixpoint fire_all (es : list event) (s : machine) : outcome fuel_error machine :=
  match es with
  | [] => Ok s
  | e :: es => s ← fire e s; fire_all es s
  end.

(** ** The contract *)

(** Not more than one change of the global epoch since this thread loaded it. *)
Definition recent (i : nat) (s : machine) : Prop := changes s <= seen s i + 1.

Definition room_now (c : Collector) (t : thread) : Prop :=
  match bags (local t) !! Z.to_nat (global_epoch c) with Some b => is_full b = false | None => True end.

(** What callers promise: guards are not nested, a thread leaves without guards
    and with empty bags.  What the schedule must be: [recent] at the two stores;
    a free index for a thread that registers; an object is retired once, with
    room in the bag of the retry. *)
Definition timely (e : event) (s : machine) : Prop :=
  match e with
  | Begin i a =>
      exists t, threads s !! i = Some t /\ ready a t = true /\
      match a with
      | New | DeferOp _ | FlushOp => True
      | PinOp => guards t = 0%nat
      | DropOp => guards t = 1%nat
      | DestroyOp | LoseOp => guards t = 0%nat /\ concat (bags (local t)) = []
      end
  | Step i =>
      exists t, threads s !! i = Some t /\
      match at_ t with
      | Register_cas j => (j < MAX_THREADS)%nat
      | Pin_store _ | Advance_store _ _ => recent i s
      | Defer_load p => p ∉ (due s).*1
      | Retry_load p => room_now (shared s) t
      | _ => True
      end
  end.

Inductive timely_run (n : nat) : machine -> Prop :=
| timely_start : timely_run n (initial n)
| timely_step s e s' : timely_run n s -> timely e s -> fire e s = Ok s' -> timely_run n s'.

(** ** Registered threads have a slot each *)

Definition in_registry (x : point) : bool := match x with Outside | Register_cas _ => false | _ => true end.
Definition registered (t : thread) : bool := in_registry (at_ t).

Record slots (c : Collector) (ts : list thread) : Prop := {
  sl_length : length (registry c) = MAX_THREADS;
  sl_active i t : ts !! i = Some t -> registered t = true ->
    exists st, registry c !! thread_index (local t) = Some st /\ active st = 1;
  sl_distinct i j t u : ts !! i = Some t -> ts !! j = Some u -> registered t = true -> registered u = true ->
    thread_index (local t) = thread_index (local u) -> i = j;
  sl_bags i t : ts !! i = Some t -> registered t = true -> length (bags (local t)) = 3%nat
}.

(** Each slot is as active as it was. *)
Definition same_active (c c' : Collector) : Prop := active <$> registry c' = active <$> registry c.

Lemma same_active_set c i e st : registry c !! i = Some st -> same_active c (set_thread i (mk_ThreadState e (active st)) c).
Proof.
  intros Hi. unfold same_active. cbn. rewrite list_fmap_insert. cbn. apply list_insert_id. by rewrite list_lookup_fmap, Hi.
Qed.

Lemma same_active_lookup c c' k st : same_active c c' -> registry c !! k = Some st ->
  exists st', registry c' !! k = Some st' /\ active st' = active st.
Proof.
  intros Hs Hk. assert ((active <$> registry c') !! k = Some (active st)) as H by (by rewrite Hs, list_lookup_fmap, Hk).
  rewrite list_lookup_fmap in H. destruct (registry c' !! k) as [st'|]; [|done]. injection H as H. by exists st'.
Qed.

(** A thread changes what it does or its bags; its slot may change its epoch. *)
Lemma slots_same c c' ts i t t' : slots c ts -> ts !! i = Some t -> same_active c c' ->
  registered t' = registered t -> (registered t = true -> thread_index (local t') = thread_index (local t) /\ length (bags (local t')) = 3%nat) ->
  slots c' (<[i := t']> ts).
Proof.
  intros Hs Ht Hc Hr Hl. assert (forall j u, <[i := t']> ts !! j = Some u -> registered u = true ->
    exists u0, ts !! j = Some u0 /\ registered u0 = true /\ thread_index (local u) = thread_index (local u0) /\ length (bags (local u)) = 3%nat) as Hold.
  { intros j u [(<- & <- & _)|[_ Hj]]%list_lookup_insert_Some Hu.
    - rewrite Hr in Hu. destruct (Hl Hu). by exists t.
    - exists u. split_and!; [done..|]. by eapply sl_bags. }
  split.
  - rewrite <- (length_fmap active), Hc, length_fmap. by apply Hs.
  - intros j u Hj Hu. destruct (Hold _ _ Hj Hu) as (u0 & Hj0 & Hu0 & -> & _).
    destruct (sl_active _ _ Hs _ _ Hj0 Hu0) as (st & Hst & Ha). destruct (same_active_lookup _ _ _ _ Hc Hst) as (st' & ? & ?).
    exists st'. split; [done|congruence].
  - intros j k u v Hj Hk Hu Hv He. destruct (Hold _ _ Hj Hu) as (u0 & Hj0 & Hu0 & Hiu & _).
    destruct (Hold _ _ Hk Hv) as (v0 & Hk0 & Hv0 & Hiv & _). eapply (sl_distinct _ _ Hs); [done..|congruence].
  - intros j u Hj Hu. by destruct (Hold _ _ Hj Hu) as (_ & _ & _ & _ & ?).
Qed.

(** A compare-exchange that succeeds takes a slot nobody has. *)
Lemma slots_register c ts i t j st x : slots c ts -> ts !! i = Some t -> registered t = false ->
  registry c !! j = Some st -> active st = 0 ->
  slots (set_thread j (mk_ThreadState (epoch st) 1) c) (<[i := mk_thread (fresh_local j) 0 x]> ts).
Proof.
  intros Hs Ht Hr Hj Ha. assert (forall k u, ts !! k = Some u -> registered u = true -> thread_index (local u) <> j) as Hfree.
  { intros k u Hk Hu <-. destruct (sl_active _ _ Hs _ _ Hk Hu) as (st' & Hst & Ha'). congruence. }
  split.
  - cbn. rewrite length_insert. by apply Hs.
  - intros k u [(<- & <- & _)|[Hne Hk]]%list_lookup_insert_Some Hu; cbn.
    + rewrite list_lookup_insert_eq by (by eapply lookup_lt_Some). by eexists.
    + rewrite list_lookup_insert_ne by (by apply not_eq_sym, (Hfree k)). by eapply sl_active.
  - intros k l u v [(<- & <- & _)|[Hne Hk]]%list_lookup_insert_Some [(<- & <- & _)|[Hne' Hl]]%list_lookup_insert_Some Hu Hv He; cbn in He.
    + done.
    + by destruct (Hfree _ _ Hl Hv).
    + by destruct (Hfree _ _ Hk Hu).
    + by eapply (sl_distinct _ _ Hs).
  - intros k u [(<- & <- & _)|[Hne Hk]]%list_lookup_insert_Some Hu; [done|by eapply sl_bags].
Qed.

Lemma slots_unregister c ts i t st e : slots c ts -> ts !! i = Some t -> registered t = true ->
  slots (set_thread (thread_index (local t)) (mk_ThreadState e st) c) (<[i := unattached]> ts).
Proof.
  intros Hs Ht Hr. assert (forall j u, <[i := unattached]> ts !! j = Some u -> registered u = true -> j <> i /\ ts !! j = Some u) as Hold.
  { by intros j u [(<- & <- & _)|[Hne Hj]]%list_lookup_insert_Some Hu. }
  split.
  - cbn. rewrite length_insert. by apply Hs.
  - intros j u Hj Hu. destruct (Hold _ _ Hj Hu) as [Hne Hj0]. cbn. rewrite list_lookup_insert_ne; [by eapply sl_active|].
    intros He. apply Hne. symmetry. by eapply (sl_distinct _ _ Hs).
  - intros j k u v Hj Hk Hu Hv He. destruct (Hold _ _ Hj Hu) as [_ Hj0]. destruct (Hold _ _ Hk Hv) as [_ Hk0].
    by eapply (sl_distinct _ _ Hs).
  - intros j u Hj Hu. destruct (Hold _ _ Hj Hu) as [_ Hj0]. by eapply sl_bags.
Qed.

Lemma slots_leave c ts i : slots c ts -> slots c (<[i := unattached]> ts).
Proof.
  intros Hs. assert (forall j u, <[i := unattached]> ts !! j = Some u -> registered u = true -> ts !! j = Some u) as Hold.
  { by intros j u [(<- & <- & _)|[Hne Hj]]%list_lookup_insert_Some Hu. }
  split; [apply Hs| | |]; intros.
  - eapply sl_active; eauto.
  - eapply (sl_distinct _ _ Hs); eauto.
  - eapply sl_bags; eauto.
Qed.

Lemma index_Ok_nat {E A} (l : list A) i x : index (E := E) l (Z.of_nat i) = Ok x -> l !! i = Some x.
Proof. intros H%index_Ok. by rewrite Nat2Z.id in H. Qed.

Lemma in_registry_not_advanced k : in_registry (not_advanced k) = true.
Proof. by destruct k. Qed.
Lemma in_registry_scan_next k cg j : in_registry (scan_next k cg j) = true.
Proof. unfold scan_next. by destruct (S j <? MAX_THREADS)%nat. Qed.

(** Take a computation that succeeded apart, its conditions included. *)
Ltac ok_inv := repeat match goal with
  | H : _ ≫= _ = Ok _ |- _ => apply bind_Ok in H; destruct H as (? & ? & H); cbn beta in H
  | H : index _ (Z.of_nat _) = Ok _ |- _ => apply index_Ok_nat in H
  | H : Ok _ = Ok _ |- _ => injection H as <- <- <-
  | H : Panic = Ok _ |- _ => discriminate H
  | H : (if ?b then _ else _) = Ok _ |- _ => destruct b eqn:?
  | H : match Bag_push ?b ?p with _ => _ end = Ok _ |- _ => destruct (Bag_push b p) eqn:?
  end.

Lemma reclaim_length c l l' f : reclaim_after c l = Ok (l', f) -> thread_index l' = thread_index l /\ length (bags l') = length (bags l).
Proof. intros (b & _ & [= <- <-])%bind_Ok. cbn. by rewrite length_insert. Qed.

Lemma step_slots c ts i t c' t' f : slots c ts -> ts !! i = Some t -> step c t = Ok (c', t', f) -> slots c' (<[i := t']> ts).
Proof.
  intros Hs Ht Hstep. pose proof (sl_bags _ _ Hs _ _ Ht) as Hb. unfold registered in Hb.
  destruct (at_ t) eqn:Hat; unfold step in Hstep; rewrite Hat in *; cbn beta iota zeta in *; ok_inv;
    try (eapply slots_same; [done|done|done || by apply same_active_set| |]; unfold registered; rewrite Hat; cbn;
      rewrite ?in_registry_not_advanced, ?in_registry_scan_next, ?length_insert; auto; fail).
  - eapply slots_register; [done..| |done|by apply Z.eqb_eq]. unfold registered. by rewrite Hat.
  - eapply slots_same; [done..| |]; unfold registered; rewrite Hat; cbn; [|auto].
    destruct (active x =? 0); [apply in_registry_scan_next|done].
  - eapply slots_same; [done..| |]; unfold registered; rewrite Hat; cbn; [|auto].
    destruct (negb _ && negb _); [apply in_registry_not_advanced|apply in_registry_scan_next].
  - destruct x as [l f]. apply reclaim_length in H as [Hi Hl].
    eapply slots_same; [done..| |]; unfold registered; rewrite Hat; cbn; [apply in_registry_not_advanced|].
    intros _. by rewrite Hi, Hl, Hb.
  - by apply slots_leave.
  - eapply slots_unregister; [done..|]. unfold registered. by rewrite Hat.
Qed.

Lemma fire_slots e s s' : slots (shared s) (threads s) -> fire e s = Ok s' -> slots (shared s') (threads s').
Proof.
  intros Hs. destruct e as [i a|i]; cbn [fire].
  - intros (t & Ht%index_Ok_nat & [= <-])%bind_Ok. destruct (ready a t) eqn:Hr; [|done]. cbn.
    assert (registered (goto (entry a) t) = registered t) as Hg.
    { unfold registered, ready in *. cbn. destruct a, (at_ t); done. }
    eapply slots_same; [done..|]. intros Hreg. cbn. split; [done|]. by eapply sl_bags.
  - intros (t & Ht%index_Ok_nat & ([[c t'] f] & Hst & [= <-])%bind_Ok)%bind_Ok. by eapply step_slots.
Qed.

Lemma initial_slots n : slots (shared (initial n)) (threads (initial n)).
Proof.
  assert (forall i t, replicate n unattached !! i = Some t -> registered t = false) as Hn.
  { by intros i t [-> _]%lookup_replicate. }
  split; cbn; [done|intros i t H%Hn ?; congruence|intros i j t u H%Hn _ ?; congruence|intros i t H%Hn ?; congruence].
Qed.

Lemma fire_all_ind (P : machine -> Prop) es s s' : (forall e s s', P s -> fire e s = Ok s' -> P s') ->
  P s -> fire_all es s = Ok s' -> P s'.
Proof.
  intros Hstep. revert s. induction es as [|e es IH]; cbn; intros s Hs; [by intros [= <-]|].
  intros (s1 & H1 & H2)%bind_Ok. eapply IH; [|done]. by eapply Hstep.
Qed.

(** [register] gives every thread a slot of its own, whatever is interleaved
    with it and whatever the callers do. *)
Theorem registered_distinct n es s i j t u : fire_all es (initial n) = Ok s ->
  threads s !! i = Some t -> threads s !! j = Some u -> i <> j -> registered t = true -> registered u = true ->
  thread_index (local t) <> thread_index (local u).
Proof.
  intros Hr Ht Hu Hij Hrt Hru He. apply Hij.
  eapply (fire_all_ind (fun s => slots (shared s) (threads s))) in Hr; [|intros; by eapply fire_slots|apply initial_slots].
  by eapply (sl_distinct _ _ Hr).
Qed.

(** ** Every retired object is in a bag, on its way into one, or freed, once *)

(** The object a thread's [defer] still has in its hands. *)
Definition in_hand (x : point) : list object :=
  match x with
  | Advance_load (Deferring p) | Scan_active (Deferring p) _ _ | Scan_epoch (Deferring p) _ _
  | Advance_store (Deferring p) _ | Reclaim_load (Deferring p) | Retry_load p => [p]
  | _ => []
  end.
Definition kept (t : thread) : list object := in_hand (at_ t) ++ concat (bags (local t)).
Definition all_kept (ts : list thread) : list object := concat (kept <$> ts).

Lemma in_hand_not_advanced k : in_hand (not_advanced k) = match k with Flushing => [] | Deferring p => [p] end.
Proof. by destruct k. Qed.
Lemma in_hand_scan_next k cg j : in_hand (scan_next k cg j) = match k with Flushing => [] | Deferring p => [p] end.
Proof. unfold scan_next. by destruct (S j <? MAX_THREADS)%nat, k. Qed.

Definition retiring (x : point) : list object := match x with Defer_load p => [p] | _ => [] end.

(** Bags are empty before a thread registers and once it unregisters. *)
Definition has_bags (x : point) : bool :=
  match x with Outside | Register_cas _ | Unregister_epoch | Unregister_active => false | _ => true end.
Definition bagless (t : thread) : Prop := has_bags (at_ t) = false -> concat (bags (local t)) = [].

Lemma has_bags_not_advanced k : has_bags (not_advanced k) = true.
Proof. by destruct k. Qed.
Lemma has_bags_scan_next k cg j : has_bags (scan_next k cg j) = true.
Proof. unfold scan_next. by destruct (S j <? MAX_THREADS)%nat. Qed.

Lemma push_kept b p b1 k (bs : list Bag) : bs !! k = Some b -> Bag_push b p = Some b1 -> concat (<[k := b1]> bs) ≡ₚ concat bs ++ [p].
Proof.
  intros Hb ->%Bag_push_Some. apply (Permutation_app_inv_r b). rewrite (concat_insert _ _ _ _ Hb). solve_Permutation.
Qed.

(** The second drop of a bag finds it empty. *)
Lemma Local_drop_bags l : Local_drop l = concat (bags l).
Proof. unfold Local_drop. rewrite <- (app_nil_r (concat (bags l))) at 2. f_equal. by induction (bags l). Qed.

Lemma step_keeps c t c' t' f : bagless t -> step c t = Ok (c', t', f) -> bagless t' /\ f ++ kept t' ≡ₚ kept t ++ retiring (at_ t).
Proof.
  intros Hb Hstep. unfold bagless, kept in *.
  destruct (at_ t) eqn:Hat; unfold step in Hstep; rewrite Hat in *; cbn beta iota zeta in *; ok_inv; rewrite ?Hat; cbn;
    rewrite ?has_bags_not_advanced, ?has_bags_scan_next, ?in_hand_not_advanced, ?in_hand_scan_next, ?app_nil_r; try done.
  all: try (by rewrite Hb by done).
  - split; [done|]. apply index_Ok in H. by eapply push_kept.
  - split; [done|]. solve_Permutation.
  - destruct (active x =? 0); rewrite ?has_bags_scan_next, ?in_hand_scan_next; split; (done || by destruct k).
  - destruct (negb _ && negb _); rewrite ?has_bags_scan_next, ?in_hand_scan_next, ?has_bags_not_advanced, ?in_hand_not_advanced;
      split; (done || by destruct k).
  - split; [done|]. destruct x as [l f]. apply reclaim_conserves in H. cbn. rewrite <- H. solve_Permutation.
  - split; [done|]. rewrite (push_kept _ _ _ _ _ (index_Ok _ _ _ H) Heqo). solve_Permutation.
  - split; [done|]. by rewrite Local_drop_bags.
Qed.

(** The objects retired so far, in order, are the keys of [due]. *)
Lemma release_keys i w : (release i w).*1 = w.*1.
Proof. unfold release. by rewrite <- list_fmap_compose. Qed.

Lemma account_keys i x ts ts' w : (account i x ts ts' w).*1 = w.*1 ++ retiring x.
Proof.
  destruct x; cbn; rewrite ?app_nil_r; try done; [|by rewrite fmap_app].
  destruct (holds ts' i); [done|apply release_keys].
Qed.

Definition conserved (s : machine) : Prop :=
  Forall bagless (threads s) /\ gone s ++ all_kept (threads s) ≡ₚ (due s).*1.

Lemma all_kept_insert ts i t t' : ts !! i = Some t -> all_kept (<[i := t']> ts) ++ kept t ≡ₚ all_kept ts ++ kept t'.
Proof.
  intros Ht. unfold all_kept. rewrite list_fmap_insert. apply concat_insert. by rewrite list_lookup_fmap, Ht.
Qed.

Lemma kept_insert ts i t t' (g f w r : list object) : ts !! i = Some t -> g ++ all_kept ts ≡ₚ w ->
  f ++ kept t' ≡ₚ kept t ++ r -> (g ++ f) ++ all_kept (<[i := t']> ts) ≡ₚ w ++ r.
Proof.
  intros Ht <- Hk. apply (Permutation_app_inv_r (kept t)). rewrite <- !(assoc_L (++)), (all_kept_insert _ _ _ _ Ht).
  rewrite (comm (++) r (kept t)), <- Hk. solve_Permutation.
Qed.

Lemma begin_keeps a t : ready a t = true -> bagless t -> bagless (goto (entry a) t) /\ kept (goto (entry a) t) = kept t.
Proof. unfold ready, bagless, kept. intros Hr Hb. destruct a, (at_ t); done. Qed.

Lemma fire_conserved e s s' : conserved s -> fire e s = Ok s' -> conserved s'.
Proof.
  intros [Hb Hk]. destruct e as [i a|i]; cbn [fire].
  - intros (t & Ht%index_Ok_nat & [= <-])%bind_Ok. destruct (ready a t) eqn:Hr; [|done].
    assert (bagless t) as Hbt by (by eapply Forall_lookup_1). destruct (begin_keeps _ _ Hr Hbt) as [Hb' Hk'].
    split; [by apply Forall_insert|]. rewrite <- (app_nil_r (_.*1)), <- (app_nil_r (gone _)).
    eapply kept_insert; [done..|]. by rewrite Hk', app_nil_r.
  - intros (t & Ht%index_Ok_nat & ([[c t'] f] & Hst & [= <-])%bind_Ok)%bind_Ok.
    assert (bagless t) as Hbt by (by eapply Forall_lookup_1). destruct (step_keeps _ _ _ _ _ Hbt Hst) as [Hb' Hk'].
    split; [by apply Forall_insert|]. cbn [gone threads due]. rewrite account_keys. by eapply kept_insert.
Qed.

(** C29: Nothing is lost and nothing is freed twice, in every interleaving and
    whatever the callers do: what was freed, what is in the bags and what a
    [defer] has in hand are together exactly the retired objects. *)
Theorem atomic_conserves n es s : fire_all es (initial n) = Ok s ->
  gone s ++ all_kept (threads s) ≡ₚ (due s).*1 /\ (NoDup (due s).*1 -> NoDup (gone s)).
Proof.
  intros Hr. assert (conserved s) as [_ Hk].
  { eapply fire_all_ind; [exact fire_conserved| |exact Hr]. split.
    - apply Forall_replicate. by intros _.
    - cbn. unfold all_kept. clear Hr. induction n as [|n IH]; [done|exact IH]. }
  split; [done|]. rewrite <- Hk. by intros [? _]%NoDup_app.
Qed.

(** ** Safety *)

(** For each thread's guard, the number of changes of the global epoch when the
    epoch it stored was loaded, and when it was stored. *)
Record marks := mk_marks { taken : nat -> Z; began : nat -> Z }.

Definition guards_ok (t : thread) : Prop :=
  match at_ t with
  | Outside | Register_cas _ | Pin_load | Pin_store _ | Destroy_bags | Lose_bags | Unregister_epoch | Unregister_active => guards t = 0%nat
  | Drop_store => guards t = 1%nat
  | _ => (guards t <= 1)%nat
  end.

(** A guard's epoch was loaded at most one change before it was stored, and that
    was at most one change ago. *)
Definition holder_ok (g : marks) (c : Collector) (now : Z) (i : nat) (t : thread) : Prop :=
  guards t <> 0%nat -> exists st, registry c !! thread_index (local t) = Some st /\ active st = 1 /\
    epoch st = taken g i mod 3 /\ began g i - 1 <= taken g i <= began g i /\ began g i <= now <= began g i + 1.

(** A scan that is up to date has been past the guards of the current epoch only. *)
Definition passed (g : marks) (now : Z) (ts : list thread) (seen : Z) (j : nat) : Prop :=
  seen = now -> forall u h, ts !! u = Some h -> guards h <> 0%nat -> (thread_index (local h) < j)%nat -> began g u = now.

Definition point_ok (g : marks) (now : Z) (ts : list thread) (seen : Z) (x : point) : Prop :=
  match x with
  | Pin_store e => e = seen mod 3 /\ seen <= now
  | Scan_active _ cg j | Scan_epoch _ cg j => (j < MAX_THREADS)%nat /\ cg = seen mod 3 /\ seen <= now /\ passed g now ts seen j
  | Advance_store _ cg => cg = seen mod 3 /\ seen <= now /\ passed g now ts seen MAX_THREADS
  | _ => True
  end.

(** An object in bag [k]: retired in an epoch [k mod 3], after every guard that
    keeps it was taken. *)
Definition item_ok (g : marks) (now : Z) (w : list (object * list nat)) (k : nat) (p : object) : Prop :=
  p ∈ w.*1 /\ exists r, r mod 3 = Z.of_nat k /\ r <= now /\ forall gs j, (p, gs) ∈ w -> j ∈ gs -> began g j <= r.

(** About to free every bag. *)
Definition leaving (x : point) : bool := match x with Destroy_bags | Lose_bags => true | _ => false end.

(** What holds of a thread wherever it is. *)
Record thread_ok (g : marks) (now : Z) (ts : list thread) (w : list (object * list nat)) (seen : Z) (t : thread) : Prop := {
  t_guards : guards_ok t;
  t_point : point_ok g now ts seen (at_ t);
  t_hand p : p ∈ in_hand (at_ t) -> p ∈ w.*1;
  t_empty : leaving (at_ t) = true -> concat (bags (local t)) = [];
  t_bag k b p : bags (local t) !! k = Some b -> p ∈ b -> item_ok g now w k p
}.

Record inv (g : marks) (s : machine) : Prop := {
  i_now : global_epoch (shared s) = changes s mod 3;
  i_slots : slots (shared s) (threads s);
  i_holder i t : threads s !! i = Some t -> holder_ok g (shared s) (changes s) i t;
  i_thread i t : threads s !! i = Some t -> thread_ok g (changes s) (threads s) (due s) (seen s i) t;
  i_due p gs j : (p, gs) ∈ due s -> j ∈ gs -> holds (threads s) j = true;
  i_gone p : p ∈ gone s -> p ∈ (due s).*1;
  i_safe p gs : (p, gs) ∈ due s -> p ∈ gone s -> gs = []
}.

Lemma holds_spec ts i : holds ts i = true <-> exists t, ts !! i = Some t /\ guards t <> 0%nat.
Proof.
  unfold holds. destruct (ts !! i) as [t|]; [|by split; [|intros (? & ? & _)]].
  rewrite negb_true_iff, Nat.eqb_neq. split; [by exists t|by intros (u & [= <-] & ?)].
Qed.

Lemma holders_spec ts i : i ∈ holders ts <-> holds ts i = true.
Proof.
  unfold holders. rewrite list_elem_of_filter, elem_of_seq. split; [by intros [? _]|]. intros H. split; [done|].
  apply holds_spec in H as (t & Ht%lookup_lt_Some & _). lia.
Qed.

Lemma guards_registered t : guards_ok t -> guards t <> 0%nat -> registered t = true.
Proof. unfold guards_ok, registered. by destruct (at_ t). Qed.

(** Every guard was held before, in the same slot, or is of the current epoch. *)
Definition moved (g g' : marks) (now : Z) (ts ts' : list thread) : Prop :=
  forall u h, ts' !! u = Some h -> guards h <> 0%nat -> began g' u = now \/
    exists h0, ts !! u = Some h0 /\ guards h0 <> 0%nat /\ thread_index (local h) = thread_index (local h0) /\ began g' u = began g u.

(** Guards that objects wait for are still held. *)
Definition kept_due (g g' : marks) (ts' : list thread) (w : list (object * list nat)) : Prop :=
  forall p gs j, (p, gs) ∈ w -> j ∈ gs -> holds ts' j = true /\ began g' j = began g j.

Lemma passed_moved g g' now ts ts' sn j : moved g g' now ts ts' -> passed g now ts sn j -> passed g' now ts' sn j.
Proof.
  intros Hm Hp Hs u h Hu Hh Hj. destruct (Hm _ _ Hu Hh) as [|(h0 & H0 & ? & He & ->)]; [done|].
  eapply Hp; [done..|]. by rewrite <- He.
Qed.

Lemma thread_ok_moved g g' now ts ts' w sn t : moved g g' now ts ts' -> kept_due g g' ts' w ->
  thread_ok g now ts w sn t -> thread_ok g' now ts' w sn t.
Proof.
  intros Hm Hk [Hg Hp Hh He Hb]. split; [done| |done|done|].
  - destruct (at_ t); cbn in *; try done; destruct_and?; split_and!; try done; by eapply passed_moved.
  - intros k b p Hl Hin. destruct (Hb _ _ _ Hl Hin) as (Hw & r & Hr & Hn & Hle). split; [done|]. exists r. split_and!; [done..|].
    intros gs j Hgs Hj. destruct (Hk _ _ _ Hgs Hj) as [_ ->]. by eapply Hle.
Qed.

(** One thread moves: from [t] to [t'], maybe changing slots that no other guard
    is in, and maybe freeing objects that wait for nobody. *)
Lemma inv_thread g g' s c' i t' f seen' : inv g s -> (i < length (threads s))%nat ->
  let ts' := <[i := t']> (threads s) in
  global_epoch c' = global_epoch (shared s) -> slots c' ts' ->
  (forall u h, ts' !! u = Some h -> holder_ok g' c' (changes s) u h) ->
  moved g g' (changes s) (threads s) ts' -> kept_due g g' ts' (due s) ->
  (forall u, u <> i -> seen' u = seen s u) ->
  thread_ok g (changes s) (threads s) (due s) (seen' i) t' ->
  (forall p, p ∈ f -> p ∈ (due s).*1 /\ forall gs, (p, gs) ∈ due s -> gs = []) ->
  inv g' (mk_machine c' ts' (gone s ++ f) (due s) (changes s) seen').
Proof.
  intros Hi Hlt ts' Hc Hs Hh Hm Hk Hseen Ht Hf. split; cbn.
  - rewrite Hc. by apply Hi.
  - done.
  - done.
  - intros u h [(<- & <- & _)|[Hne Hu]]%list_lookup_insert_Some; eapply thread_ok_moved; [done..| |done|done|].
    + done.
    + rewrite Hseen by done. by apply Hi.
  - intros p gs j Hp Hj. by destruct (Hk _ _ _ Hp Hj).
  - intros p [Hp|Hp]%elem_of_app; [by apply Hi|by apply Hf].
  - intros p gs Hw [Hp|Hp]%elem_of_app; [by eapply i_safe|]. by destruct (Hf _ Hp) as [_ H]; apply H.
Qed.

Lemma kept_due_same g s : inv g s -> kept_due g g (threads s) (due s).
Proof. intros Hi p gs j Hp Hj. split; [by eapply i_due|done]. Qed.

(** As long as it keeps its guard and no slot changes. *)
Lemma inv_still g s i t t' f seen' : inv g s -> threads s !! i = Some t ->
  guards t' = guards t -> (guards t <> 0%nat -> thread_index (local t') = thread_index (local t)) ->
  slots (shared s) (<[i := t']> (threads s)) ->
  (forall u, u <> i -> seen' u = seen s u) ->
  thread_ok g (changes s) (threads s) (due s) (seen' i) t' ->
  (forall p, p ∈ f -> p ∈ (due s).*1 /\ forall gs, (p, gs) ∈ due s -> gs = []) ->
  inv g (mk_machine (shared s) (<[i := t']> (threads s)) (gone s ++ f) (due s) (changes s) seen').
Proof.
  intros Hi Ht Hg Hx Hs Hseen Hok Hf. pose proof (lookup_lt_Some _ _ _ Ht) as Hlt.
  apply (inv_thread g); try done.
  - intros u h [(<- & <- & _)|[Hne Hu]]%list_lookup_insert_Some; [|by apply Hi].
    intros Hn. rewrite Hg in Hn. rewrite (Hx Hn). by apply (i_holder _ _ Hi).
  - intros u h [(<- & <- & _)|[Hne Hu]]%list_lookup_insert_Some Hn; right; [|by exists h].
    rewrite Hg in Hn. exists t. auto.
  - intros p gs j Hp Hj. split; [|done]. apply (i_due _ _ Hi _ _ _ Hp) in Hj as (h & Hu & Hn)%holds_spec.
    apply holds_spec. destruct (decide (i = j)) as [<-|Hne].
    + exists t'. rewrite list_lookup_insert_eq by done. split; [done|]. rewrite Hg. congruence.
    + exists h. by rewrite list_lookup_insert_ne.
Qed.

Lemma now_range g s : inv g s -> 0 <= global_epoch (shared s) < 3.
Proof. intros Hi. rewrite (i_now _ _ Hi). apply mod3_range. Qed.

(** ** Each event keeps the invariant *)

Definition good (s : machine) : Prop := exists g, inv g s.

Lemma good_begin s i a : good s -> timely (Begin i a) s -> exists s', fire (Begin i a) s = Ok s' /\ good s'.
Proof.
  intros [g Hi] (t & Ht & Hr & Ha). eexists. split; [cbn; rewrite (index_ok _ _ t) by (lia || by rewrite Nat2Z.id); cbn; by rewrite Hr|].
  exists g. rewrite <- (app_nil_r (gone s)). destruct (i_thread _ _ Hi _ _ Ht) as [Hg Hp Hh He Hb].
  assert (in_registry (entry a) = registered t) as Hreg by (unfold ready, registered in *; by destruct a, (at_ t)).
  assert (guards t <= 1)%nat as Hg1 by (unfold ready, guards_ok in *; destruct a, (at_ t); done || lia).
  apply (inv_still g s i t); try done; [| |intros p Hf; by apply elem_of_nil in Hf].
  - eapply slots_same; [apply (i_slots _ _ Hi)|done..|]. intros Hrt. split; [done|]. by apply (sl_bags _ _ (i_slots _ _ Hi) i t).
  - split; [| | | |done].
    + unfold guards_ok in *. destruct a; cbn in *; try done; [by destruct (at_ t)|by destruct Ha..].
    + by destruct a.
    + intros p Hp'. by destruct a; cbn in Hp'; apply elem_of_nil in Hp'.
    + destruct a; cbn in *; try done; by destruct Ha.
Qed.

Lemma good_fire s i t c' t' f : threads s !! i = Some t -> step (shared s) t = Ok (c', t', f) ->
  global_epoch c' = global_epoch (shared s) ->
  good (mk_machine c' (<[i := t']> (threads s)) (gone s ++ f) (account i (at_ t) (threads s) (<[i := t']> (threads s)) (due s))
    (changes s) (look i (at_ t) (changes s) (seen s))) ->
  exists s', fire (Step i) s = Ok s' /\ good s'.
Proof.
  intros Ht Hst Hc Hg. eexists. split; [|exact Hg]. cbn. rewrite (index_ok _ _ t) by (lia || by rewrite Nat2Z.id).
  cbn. rewrite Hst. cbn. by rewrite Hc, Z.eqb_refl.
Qed.

Lemma look_other i x now f u : u <> i -> look i x now f u = f u.
Proof. intros Hu. destruct x; cbn; by rewrite ?decide_False. Qed.

(** The step of a thread that reads the shared state, moves on, and may change
    its bags. *)
Lemma step_quiet s i t t' f : good s -> threads s !! i = Some t -> step (shared s) t = Ok (shared s, t', f) ->
  account i (at_ t) (threads s) (<[i := t']> (threads s)) (due s) = due s ->
  guards t' = guards t -> (guards t <> 0%nat -> thread_index (local t') = thread_index (local t)) ->
  (forall g, inv g s -> thread_ok g (changes s) (threads s) (due s) (look i (at_ t) (changes s) (seen s) i) t') ->
  (forall g p, inv g s -> p ∈ f -> p ∈ (due s).*1 /\ forall gs, (p, gs) ∈ due s -> gs = []) ->
  exists s', fire (Step i) s = Ok s' /\ good s'.
Proof.
  intros [g Hi] Ht Hst Hac Hg Hx Hok Hf. eapply good_fire; [done..|]. exists g. rewrite Hac.
  eapply inv_still; try done; [|intros u Hu; by apply look_other|by apply Hok|intros p; by apply (Hf g)].
  eapply step_slots; [|done..]. by apply Hi.
Qed.

(** It only moves on. *)
Lemma step_goto s i t x : good s -> threads s !! i = Some t -> step (shared s) t = Ok (shared s, goto x t, []) ->
  retiring (at_ t) = [] -> at_ t <> Drop_store -> (guards_ok t -> guards_ok (goto x t)) -> leaving x = false ->
  (forall p, p ∈ in_hand x -> p ∈ in_hand (at_ t)) ->
  (forall g, inv g s -> thread_ok g (changes s) (threads s) (due s) (seen s i) t ->
     point_ok g (changes s) (threads s) (look i (at_ t) (changes s) (seen s) i) x) ->
  exists s', fire (Step i) s = Ok s' /\ good s'.
Proof.
  intros Hs Ht Hst Hr Hd Hg Hx Hh Hp. eapply step_quiet; [exact Hs|exact Ht|exact Hst| |done..| |].
  - by destruct (at_ t).
  - intros g Hi. pose proof (i_thread _ _ Hi _ _ Ht) as Hok. split; [apply Hg, Hok|by apply Hp| | |by apply Hok].
    + intros p Hp'%Hh. by eapply t_hand.
    + intros Hx'. cbn in Hx'. congruence.
  - intros g p _ H. by apply elem_of_nil in H.
Qed.

Lemma slot_state s i t : good s -> threads s !! i = Some t -> registered t = true ->
  exists st, registry (shared s) !! thread_index (local t) = Some st /\ active st = 1 /\ (thread_index (local t) < MAX_THREADS)%nat.
Proof.
  intros [g Hi] Ht Hr. destruct (sl_active _ _ (i_slots _ _ Hi) _ _ Ht Hr) as (st & Hst & Ha). exists st.
  split_and!; [done..|]. rewrite <- (sl_length _ _ (i_slots _ _ Hi)). by eapply lookup_lt_Some.
Qed.

Lemma slot_lookup s j : good s -> (j < MAX_THREADS)%nat -> exists st, registry (shared s) !! j = Some st.
Proof. intros [g Hi] Hj. apply lookup_lt_is_Some. by rewrite (sl_length _ _ (i_slots _ _ Hi)). Qed.

(** The scan goes past index [j]: the guard in that slot, if there is one, is of
    the epoch the scan was begun in. *)
Lemma scan_next_ok g s i k cg j : inv g s -> (j < MAX_THREADS)%nat -> cg = seen s i mod 3 -> seen s i <= changes s ->
  passed g (changes s) (threads s) (seen s i) j ->
  (seen s i = changes s -> forall u h, threads s !! u = Some h -> guards h <> 0%nat -> thread_index (local h) = j -> began g u = changes s) ->
  point_ok g (changes s) (threads s) (seen s i) (scan_next k cg j).
Proof.
  intros Hi Hj Hcg Hle Hp Hnew. assert (passed g (changes s) (threads s) (seen s i) (S j)) as Hp'.
  { intros Hs u h Hu Hh Hlt. destruct (decide (thread_index (local h) = j)); [by eapply Hnew|]. eapply Hp; [done..|lia]. }
  unfold scan_next. destruct (Nat.ltb_spec (S j) MAX_THREADS); cbn; [done|]. split_and!; [done..|].
  by replace MAX_THREADS with (S j) by lia.
Qed.

Lemma guards_ok_scan_next k cg j t : (guards t <= 1)%nat -> guards_ok (goto (scan_next k cg j) t).
Proof. intros H. unfold scan_next. destruct (S j <? MAX_THREADS)%nat; exact H. Qed.

Lemma guards_ok_not_advanced k t : (guards t <= 1)%nat -> guards_ok (goto (not_advanced k) t).
Proof. by destruct k. Qed.

Lemma scan_next_stays k cg j : leaving (scan_next k cg j) = false.
Proof. unfold scan_next. by destruct (S j <? MAX_THREADS)%nat. Qed.

Lemma good_scan_active s i t k cg j : good s -> threads s !! i = Some t -> at_ t = Scan_active k cg j ->
  exists s', fire (Step i) s = Ok s' /\ good s'.
Proof.
  intros Hs Ht Hat. assert (j < MAX_THREADS)%nat as Hj.
  { destruct Hs as [g Hi]. pose proof (t_point _ _ _ _ _ _ (i_thread _ _ Hi _ _ Ht)) as H. rewrite Hat in H. apply H. }
  destruct (slot_lookup _ _ Hs Hj) as [st Hst].
  eapply (step_goto s i t (if active st =? 0 then scan_next k cg j else Scan_epoch k cg j)); try done; rewrite ?Hat; try done.
  - unfold step. rewrite Hat. cbn. by rewrite (index_registry _ _ _ Hst).
  - unfold guards_ok at 1. rewrite Hat. intros Hg. destruct (active st =? 0); [by apply guards_ok_scan_next|done].
  - destruct (active st =? 0); [apply scan_next_stays|done].
  - intros p. destruct (active st =? 0); [|done]. rewrite in_hand_scan_next. by destruct k.
  - intros g Hi Hok. apply t_point in Hok. rewrite Hat in Hok. cbn [look]. destruct Hok as (_ & Hcg & Hle & Hp).
    destruct (Z.eqb_spec (active st) 0) as [Ha|Ha]; [|done]. apply scan_next_ok; try done. intros _ u h Hu Hh He. exfalso.
    destruct (i_holder _ _ Hi _ _ Hu Hh) as (st' & Hst' & Ha' & _). rewrite He in Hst'. congruence.
Qed.

Lemma good_scan_epoch s i t k cg j : good s -> threads s !! i = Some t -> at_ t = Scan_epoch k cg j ->
  exists s', fire (Step i) s = Ok s' /\ good s'.
Proof.
  intros Hs Ht Hat. assert (j < MAX_THREADS)%nat as Hj.
  { destruct Hs as [g Hi]. pose proof (t_point _ _ _ _ _ _ (i_thread _ _ Hi _ _ Ht)) as H. rewrite Hat in H. apply H. }
  destruct (slot_lookup _ _ Hs Hj) as [st Hst].
  eapply (step_goto s i t (if negb (epoch st =? UNPINNED) && negb (epoch st =? cg) then not_advanced k else scan_next k cg j));
    try done; rewrite ?Hat; try done.
  - unfold step. rewrite Hat. cbn. by rewrite (index_registry _ _ _ Hst).
  - unfold guards_ok at 1. rewrite Hat. intros Hg. destruct (_ && _); [by apply guards_ok_not_advanced|by apply guards_ok_scan_next].
  - destruct (_ && _); [by destruct k|apply scan_next_stays].
  - intros p. destruct (_ && _); rewrite ?in_hand_not_advanced, ?in_hand_scan_next; by destruct k.
  - intros g Hi Hok. apply t_point in Hok. rewrite Hat in Hok. cbn [look]. destruct Hok as (_ & Hcg & Hle & Hp).
    destruct (_ && _) eqn:Hb; [by destruct k|]. apply scan_next_ok; try done. intros Hnow u h Hu Hh He.
    destruct (i_holder _ _ Hi _ _ Hu Hh) as (st' & Hst' & _ & Hep & Htk & Hbg). rewrite He in Hst'. assert (st' = st) as -> by congruence.
    apply andb_false_iff in Hb as [Hb|Hb]; apply negb_false_iff, Z.eqb_eq in Hb; rewrite Hep in Hb.
    + by apply epoch_pinned in Hb.
    + rewrite Hcg, Hnow in Hb. clear -Hb Htk Hbg. Z.to_euclidean_division_equations. lia.
Qed.

Lemma good_pin_load s i t : good s -> threads s !! i = Some t -> at_ t = Pin_load -> exists s', fire (Step i) s = Ok s' /\ good s'.
Proof.
  intros Hs Ht Hat. eapply (step_goto s i t (Pin_store _)); try done; rewrite ?Hat; try done.
  - unfold step. by rewrite Hat.
  - unfold guards_ok. by rewrite Hat.
  - intros g Hi _. cbn. rewrite decide_True by done. split; [apply Hi|done].
Qed.

Lemma good_advance_load s i t k : good s -> threads s !! i = Some t -> at_ t = Advance_load k ->
  exists s', fire (Step i) s = Ok s' /\ good s'.
Proof.
  intros Hs Ht Hat. eapply (step_goto s i t (Scan_active k _ 0)); try done; rewrite ?Hat; try done.
  - unfold step. by rewrite Hat.
  - unfold guards_ok. by rewrite Hat.
  - intros g Hi _. cbn. rewrite decide_True by done. split_and!; [unfold MAX_THREADS; lia|apply Hi|done|].
    intros _ u h _ _ Hlt. lia.
Qed.

(** A guard is taken or dropped, or the slot of a thread without one changes. *)
Lemma holders_other g g' s c' i t' : inv g s -> (forall u, u <> i -> taken g' u = taken g u /\ began g' u = began g u) ->
  (forall u h, u <> i -> threads s !! u = Some h -> registered h = true ->
     registry c' !! thread_index (local h) = registry (shared s) !! thread_index (local h)) ->
  holder_ok g' c' (changes s) i t' ->
  forall u h, <[i := t']> (threads s) !! u = Some h -> holder_ok g' c' (changes s) u h.
Proof.
  intros Hi Hg Hr Hok u h [(<- & <- & _)|[Hne Hu]]%list_lookup_insert_Some; [done|]. intros Hn.
  destruct (Hg u (not_eq_sym Hne)) as [Htk Hbg]. unfold holder_ok in *. rewrite (Hr u), Htk, Hbg; [|done..|].
  - by apply (i_holder _ _ Hi).
  - apply guards_registered; [|done]. by apply (i_thread _ _ Hi _ _ Hu).
Qed.

Lemma other_slot g s i t u h : inv g s -> threads s !! i = Some t -> registered t = true ->
  u <> i -> threads s !! u = Some h -> registered h = true -> thread_index (local t) <> thread_index (local h).
Proof. intros Hi Ht Hr Hne Hu Hh He. apply Hne. symmetry. by eapply (sl_distinct _ _ (i_slots _ _ Hi)). Qed.

(** A thread without a guard, before and after. *)
Lemma inv_unheld g s c' i t t' seen' : inv g s -> threads s !! i = Some t -> guards t = 0%nat -> guards t' = 0%nat ->
  global_epoch c' = global_epoch (shared s) -> slots c' (<[i := t']> (threads s)) ->
  (forall u h, u <> i -> threads s !! u = Some h -> registered h = true ->
     registry c' !! thread_index (local h) = registry (shared s) !! thread_index (local h)) ->
  (forall u, u <> i -> seen' u = seen s u) ->
  thread_ok g (changes s) (threads s) (due s) (seen' i) t' ->
  inv g (mk_machine c' (<[i := t']> (threads s)) (gone s ++ []) (due s) (changes s) seen').
Proof.
  intros Hi Ht H0 H0' Hc Hs Hr Hseen Hok. pose proof (lookup_lt_Some _ _ _ Ht) as Hlt.
  apply (inv_thread g); try done.
  - eapply holders_other; [done..|]. by intros Hn.
  - intros u h [(<- & <- & _)|[Hne Hu]]%list_lookup_insert_Some Hn; [done|]. right. by exists h.
  - intros p gs j Hp Hj. split; [|done]. apply (i_due _ _ Hi _ _ _ Hp) in Hj as (h & Hu & Hn)%holds_spec.
    apply holds_spec. exists h. rewrite list_lookup_insert_ne; [done|]. intros ->. congruence.
  - intros p H. by apply elem_of_nil in H.
Qed.

Lemma good_unheld s i t t' k st : good s -> threads s !! i = Some t ->
  step (shared s) t = Ok (set_thread k st (shared s), t', []) ->
  match at_ t with Register_cas _ | Unregister_epoch | Unregister_active => True | _ => False end ->
  guards t' = 0%nat -> match at_ t' with Idle | Outside | Unregister_active => True | _ => False end ->
  (forall n b p, bags (local t') !! n = Some b -> p ∈ b -> bags (local t) !! n = Some b) ->
  (forall g u h, inv g s -> u <> i -> threads s !! u = Some h -> registered h = true -> k <> thread_index (local h)) ->
  exists s', fire (Step i) s = Ok s' /\ good s'.
Proof.
  intros [g Hi] Ht Hst Hat Hg' Hat' Hb Hk. eapply good_fire; [done..|]. exists g. pose proof (i_thread _ _ Hi _ _ Ht) as Hok.
  replace (account _ _ _ _ _) with (due s) by (by destruct (at_ t)). eapply inv_unheld; [done..| |done|done| | | |].
  - pose proof (t_guards _ _ _ _ _ _ Hok) as H. unfold guards_ok in H. by destruct (at_ t).
  - eapply step_slots; [|done..]. by apply Hi.
  - intros u h Hne Hu Hh. cbn. rewrite list_lookup_insert_ne; [done|]. by eapply Hk.
  - intros u Hu. by apply look_other.
  - split; unfold guards_ok; destruct (at_ t'); try done; try lia; try (intros p Hp; by apply elem_of_nil in Hp);
      intros n b p Hn Hp; (eapply t_bag; [done|by eapply Hb|done]).
Qed.

Lemma good_register s i t j : good s -> threads s !! i = Some t -> at_ t = Register_cas j -> (j < MAX_THREADS)%nat ->
  exists s', fire (Step i) s = Ok s' /\ good s'.
Proof.
  intros Hs Ht Hat Hj. destruct (slot_lookup _ _ Hs Hj) as [st Hst]. destruct (Z.eqb_spec (active st) 0) as [Ha|Ha].
  - assert (step (shared s) t = Ok (set_thread j (mk_ThreadState (epoch st) 1) (shared s), mk_thread (fresh_local j) 0 Idle, [])) as Hst'.
    { unfold step. rewrite Hat, (proj2 (Nat.ltb_lt _ _) Hj), (index_registry _ _ _ Hst). cbn. by rewrite Ha. }
    eapply good_unheld; [done..|by rewrite Hat|done|done| |].
    + intros [|[|[|n]]] b p Hb Hp; cbn in Hb; try done; injection Hb as <-; by apply elem_of_nil in Hp.
    + intros g u h Hi Hne Hu Hh ->. destruct (sl_active _ _ (i_slots _ _ Hi) _ _ Hu Hh) as (st2 & Hst2 & Ha2). congruence.
  - eapply (step_goto s i t (Register_cas (S j))); try done; rewrite ?Hat; try done.
    + unfold step. rewrite Hat, (proj2 (Nat.ltb_lt _ _) Hj), (index_registry _ _ _ Hst). cbn. by rewrite (proj2 (Z.eqb_neq _ _) Ha).
    + unfold guards_ok. by rewrite Hat.
Qed.

Lemma good_unregister s i t : good s -> threads s !! i = Some t -> at_ t = Unregister_epoch \/ at_ t = Unregister_active ->
  exists s', fire (Step i) s = Ok s' /\ good s'.
Proof.
  intros Hs Ht Hat. assert (registered t = true) as Hreg by (unfold registered; by destruct Hat as [-> | ->]).
  destruct (slot_state _ _ _ Hs Ht Hreg) as (st & Hst & _ & Hlt). assert (guards t = 0%nat) as H0.
  { destruct Hs as [g Hi]. pose proof (t_guards _ _ _ _ _ _ (i_thread _ _ Hi _ _ Ht)) as H. unfold guards_ok in H. by destruct Hat as [E|E]; rewrite E in H. }
  destruct Hat as [Hat|Hat]; eapply good_unheld; try exact Hs; try exact Ht;
    try (unfold step; rewrite Hat, ?(proj2 (Nat.ltb_lt _ _) Hlt), (index_registry _ _ _ Hst); reflexivity); rewrite ?Hat; try done.
  all: intros g u h Hi Hne Hu Hh; by eapply other_slot.
Qed.

(** ** Taking and dropping a guard *)

Lemma good_pin_store s i t e : good s -> threads s !! i = Some t -> at_ t = Pin_store e -> recent i s ->
  exists s', fire (Step i) s = Ok s' /\ good s'.
Proof.
  intros Hs Ht Hat Hrec. assert (registered t = true) as Hreg by (unfold registered; by rewrite Hat).
  destruct (slot_state _ _ _ Hs Ht Hreg) as (st & Hst & Ha & _). set (st' := mk_ThreadState e (active st)).
  assert (step (shared s) t = Ok (set_thread (thread_index (local t)) st' (shared s), mk_thread (local t) (S (guards t)) Idle, [])) as Hst'.
  { unfold step. by rewrite Hat, (index_registry _ _ _ Hst). }
  destruct Hs as [g Hi]. pose proof (i_thread _ _ Hi _ _ Ht) as Hok. pose proof (t_point _ _ _ _ _ _ Hok) as Hp.
  pose proof (t_guards _ _ _ _ _ _ Hok) as Hg. unfold guards_ok in Hg. rewrite Hat in Hp, Hg. destruct Hp as [He Hle].
  assert (forall p gs, (p, gs) ∈ due s -> i ∉ gs) as Hno.
  { intros p gs Hw Hin. apply (i_due _ _ Hi _ _ _ Hw) in Hin as (h & Hh & Hn)%holds_spec. congruence. }
  eapply good_fire; [done..|]. rewrite Hat. cbn [account look].
  exists (mk_marks (fun u => if decide (u = i) then seen s i else taken g u) (fun u => if decide (u = i) then changes s else began g u)).
  eapply inv_thread; [exact Hi|by eapply lookup_lt_Some|done|..].
  - eapply step_slots; [|done..]. by apply Hi.
  - eapply (holders_other g); [done|by intros u Hu; cbn; rewrite !decide_False by done|..].
    + intros u h Hne Hu Hh. cbn. rewrite list_lookup_insert_ne; [done|]. by eapply other_slot.
    + intros _. exists st'. cbn. rewrite !decide_True, list_lookup_insert_eq by (done || by eapply lookup_lt_Some).
      unfold recent in Hrec. split_and!; try done; lia.
  - intros u h [(<- & <- & _)|[Hne Hu]]%list_lookup_insert_Some Hn; cbn; [left; by rewrite decide_True|right].
    exists h. by rewrite decide_False.
  - intros p gs j Hw Hj. cbn. assert (j <> i) as Hne by (intros ->; by eapply Hno). rewrite decide_False by done. split; [|done].
    apply (i_due _ _ Hi _ _ _ Hw) in Hj as (h & Hh & Hn)%holds_spec. apply holds_spec. exists h. by rewrite list_lookup_insert_ne.
  - done.
  - split; [unfold guards_ok; cbn; lia|done| |done|by apply Hok]. intros p H. by apply elem_of_nil in H.
  - intros p H. by apply elem_of_nil in H.
Qed.

(** What waited for thread [i] only waits no longer. *)
Lemma inv_released g s i : inv g s -> inv g (mk_machine (shared s) (threads s) (gone s) (release i (due s)) (changes s) (seen s)).
Proof.
  intros Hi. assert (forall p gs, (p, gs) ∈ release i (due s) -> exists gs0, (p, gs0) ∈ due s /\ gs = filter (fun j => j <> i) gs0) as Hold.
  { intros p gs ([q gs0] & [= -> ->] & Hin)%list_elem_of_fmap. by exists gs0. }
  split; cbn; rewrite ?release_keys; try apply Hi.
  - intros j t Ht. destruct (i_thread _ _ Hi _ _ Ht) as [Hg Hp Hh He Hb]. split; rewrite ?release_keys; try done.
    intros k b p Hl Hin. destruct (Hb _ _ _ Hl Hin) as (Hw & r & Hr & Hn & Hle). split; [by rewrite release_keys|].
    exists r. split_and!; [done..|]. intros gs u (gs0 & Hw0 & ->)%Hold [_ Hu]%list_elem_of_filter. by eapply Hle.
  - intros p gs j (gs0 & Hw0 & ->)%Hold [_ Hj]%list_elem_of_filter. by eapply i_due.
  - intros p gs (gs0 & Hw0 & ->)%Hold Hp. by rewrite (i_safe _ _ Hi _ _ Hw0 Hp).
Qed.

Lemma good_drop_store s i t : good s -> threads s !! i = Some t -> at_ t = Drop_store -> exists s', fire (Step i) s = Ok s' /\ good s'.
Proof.
  intros Hs Ht Hat. assert (registered t = true) as Hreg by (unfold registered; by rewrite Hat).
  destruct (slot_state _ _ _ Hs Ht Hreg) as (st & Hst & Ha & _). set (st' := mk_ThreadState UNPINNED (active st)).
  assert (step (shared s) t = Ok (set_thread (thread_index (local t)) st' (shared s), mk_thread (local t) (pred (guards t)) Idle, [])) as Hst'.
  { unfold step. by rewrite Hat, (index_registry _ _ _ Hst). }
  destruct Hs as [g Hi]. pose proof (t_guards _ _ _ _ _ _ (i_thread _ _ Hi _ _ Ht)) as Hg. unfold guards_ok in Hg. rewrite Hat in Hg.
  eapply good_fire; [done..|]. rewrite Hat, Hg. cbn [account look pred].
  replace (holds (<[i := mk_thread (local t) 0 Idle]> (threads s)) i) with false by (unfold holds; by rewrite list_lookup_insert_eq by (by eapply lookup_lt_Some)).
  exists g. apply (inv_released _ _ i) in Hi.
  set (s1 := mk_machine (shared s) (threads s) (gone s) (release i (due s)) (changes s) (seen s)) in Hi.
  pose proof (i_thread _ _ Hi _ _ Ht) as Hok.
  eapply (inv_thread g g s1); [exact Hi|by eapply lookup_lt_Some|done|..].
  - eapply step_slots; [apply (i_slots _ _ Hi)|done|]. by rewrite Hg in Hst'.
  - eapply (holders_other g g s1); [exact Hi|done| |by intros Hn].
    intros u h Hne Hu Hh. cbn. rewrite list_lookup_insert_ne; [done|]. by eapply (other_slot g s1 i).
  - intros u h [(<- & <- & _)|[Hne Hu]]%list_lookup_insert_Some Hn; [done|right]. by exists h.
  - intros p gs j Hw Hj. split; [|done]. apply (i_due _ _ Hi _ _ _ Hw) in Hj as Hh. apply holds_spec in Hh as (h & Hh & Hn).
    apply list_elem_of_fmap in Hw as ([q gs0] & [= -> ->] & _). apply list_elem_of_filter in Hj as [Hne _].
    apply holds_spec. exists h. by rewrite list_lookup_insert_ne.
  - done.
  - split; [unfold guards_ok; cbn; lia|done| |done|by apply Hok]. intros p H. by apply elem_of_nil in H.
  - intros p H. by apply elem_of_nil in H.
Qed.

(** ** Retiring and freeing *)

(** [p] is retired: it waits for the guards held now. *)
Lemma inv_retire g s p : inv g s -> p ∉ (due s).*1 ->
  inv g (mk_machine (shared s) (threads s) (gone s) (due s ++ [(p, holders (threads s))]) (changes s) (seen s)).
Proof.
  intros Hi Hnew. assert (forall q gs, (q, gs) ∈ due s ++ [(p, holders (threads s))] ->
    (q, gs) ∈ due s \/ q = p /\ gs = holders (threads s)) as Hold.
  { intros q gs [Hq|[= -> ->]%list_elem_of_singleton]%elem_of_app; auto. }
  split; cbn; try apply Hi.
  - intros j t Ht. destruct (i_thread _ _ Hi _ _ Ht) as [Hg Hp Hh He Hb]. split; try done.
    + intros q Hq. apply elem_fst_app. left. by apply Hh.
    + intros k b q Hl Hin. destruct (Hb _ _ _ Hl Hin) as (Hw & r & Hr & Hn & Hle). split; [apply elem_fst_app; by left|].
      exists r. split_and!; [done..|]. intros gs u [Hq|[-> _]]%Hold Hu; [by eapply Hle|done].
  - intros q gs j [Hq|[-> ->]]%Hold Hj; [by eapply i_due|by apply holders_spec].
  - intros q Hq. apply elem_fst_app. left. by apply Hi.
  - intros q gs [Hq|[-> _]]%Hold Hf; [by eapply i_safe|]. by apply (i_gone _ _ Hi) in Hf.
Qed.

(** A retired object may go into the bag of the current epoch. *)
Lemma item_now g s p : inv g s -> p ∈ (due s).*1 -> item_ok g (changes s) (due s) (Z.to_nat (global_epoch (shared s))) p.
Proof.
  intros Hi Hp. split; [done|]. exists (changes s). pose proof (now_range _ _ Hi). rewrite Z2Nat.id, (i_now _ _ Hi) by lia.
  split_and!; [done..|]. intros gs j Hw Hj. apply (i_due _ _ Hi _ _ _ Hw) in Hj as (h & Hh & Hn)%holds_spec.
  destruct (i_holder _ _ Hi _ _ Hh Hn) as (_ & _ & _ & _ & _ & ? & _). done.
Qed.

Lemma bag_now g s i t : inv g s -> threads s !! i = Some t -> registered t = true ->
  exists b, bags (local t) !! Z.to_nat (global_epoch (shared s)) = Some b.
Proof.
  intros Hi Ht Hr. apply lookup_lt_is_Some. rewrite (sl_bags _ _ (i_slots _ _ Hi) _ _ Ht Hr). pose proof (now_range _ _ Hi). lia.
Qed.

Lemma push_ok g s i t b p sn : inv g s -> thread_ok g (changes s) (threads s) (due s) (seen s i) t -> (guards t <= 1)%nat ->
  bags (local t) !! Z.to_nat (global_epoch (shared s)) = Some b -> p ∈ (due s).*1 ->
  thread_ok g (changes s) (threads s) (due s) sn
    (goto Idle (with_bags (<[Z.to_nat (global_epoch (shared s)) := b ++ [p]]> (bags (local t))) t)).
Proof.
  intros Hi Hok Hg Hb Hp. split; [done|done| |done|].
  - intros q Hq. by apply elem_of_nil in Hq.
  - cbn. intros k b' q [(<- & <- & _)|[_ Hk]]%list_lookup_insert_Some Hq; [|by eapply t_bag].
    apply elem_of_app in Hq as [Hq|Hq%list_elem_of_singleton]; [by eapply t_bag|subst q; by apply item_now].
Qed.

Lemma good_defer_load s i t p : good s -> threads s !! i = Some t -> at_ t = Defer_load p -> p ∉ (due s).*1 ->
  exists s', fire (Step i) s = Ok s' /\ good s'.
Proof.
  intros [g Hi] Ht Hat Hnew. assert (registered t = true) as Hreg by (unfold registered; by rewrite Hat).
  destruct (bag_now _ _ _ _ Hi Ht Hreg) as [b Hb]. pose proof (now_range _ _ Hi) as Hr.
  pose proof (t_guards _ _ _ _ _ _ (i_thread _ _ Hi _ _ Ht)) as Hg. unfold guards_ok in Hg. rewrite Hat in Hg.
  pose proof (i_slots _ _ Hi) as Hsl. apply (inv_retire _ _ p) in Hi; [|done].
  set (s1 := mk_machine _ _ _ _ _ _) in Hi. pose proof (i_thread _ _ Hi _ _ Ht) as Hok.
  assert (p ∈ (due s1).*1) as Hp by (apply elem_fst_app; by right).
  assert (exists t', step (shared s) t = Ok (shared s, t', []) /\ guards t' = guards t /\ thread_index (local t') = thread_index (local t) /\
    thread_ok g (changes s1) (threads s1) (due s1) (seen s1 i) t') as (t' & Hst & Hg' & Hx & Hok').
  { unfold step. rewrite Hat, (index_ok _ _ b) by (done || lia). cbn. destruct (is_full b) eqn:Hf.
    - unfold Bag_push. rewrite Hf. eexists. split_and!; [done..|]. split; try done; [|apply Hok].
      intros q Hq. cbn in Hq. apply list_elem_of_singleton in Hq as ->. done.
    - rewrite is_full_push by done. eexists. split_and!; [done..|]. by eapply (push_ok g s1). }
  eapply good_fire; [done..|]. rewrite Hat. exists g. cbn [account look].
  apply (inv_still g s1 i t t' [] (seen s)); try done.
  - eapply step_slots; done.
  - intros q H. by apply elem_of_nil in H.
Qed.

Lemma good_retry_load s i t p : good s -> threads s !! i = Some t -> at_ t = Retry_load p -> room_now (shared s) t ->
  exists s', fire (Step i) s = Ok s' /\ good s'.
Proof.
  intros Hs Ht Hat Hroom. assert (registered t = true) as Hreg by (unfold registered; by rewrite Hat).
  assert (exists b, bags (local t) !! Z.to_nat (global_epoch (shared s)) = Some b /\ 0 <= global_epoch (shared s) < 3) as (b & Hb & Hr).
  { destruct Hs as [g Hi]. destruct (bag_now _ _ _ _ Hi Ht Hreg) as [b Hb]. exists b. split; [done|by eapply now_range]. }
  unfold room_now in Hroom. rewrite Hb in Hroom. eapply step_quiet; [exact Hs|exact Ht| |by rewrite Hat|..].
  - unfold step. rewrite Hat, (index_ok _ _ b) by (done || lia). cbn. by rewrite is_full_push.
  - done.
  - done.
  - intros g Hi. rewrite Hat. pose proof (i_thread _ _ Hi _ _ Ht) as Hok. eapply push_ok; [done|done| |done|].
    + pose proof (t_guards _ _ _ _ _ _ Hok) as Hg. unfold guards_ok in Hg. by rewrite Hat in Hg.
    + eapply t_hand; [done|]. rewrite Hat. by apply list_elem_of_singleton.
  - intros g q _ H. by apply elem_of_nil in H.
Qed.

(** The bag after the current one holds objects no guard keeps any more: they
    were retired at least two changes ago, and no guard is older than one. *)
Lemma good_reclaim_load s i t k : good s -> threads s !! i = Some t -> at_ t = Reclaim_load k -> exists s', fire (Step i) s = Ok s' /\ good s'.
Proof.
  intros Hs Ht Hat. assert (registered t = true) as Hreg by (unfold registered; by rewrite Hat).
  set (n := Z.to_nat ((global_epoch (shared s) + 1) mod 3)). pose proof (mod3_range (global_epoch (shared s) + 1)) as Hr.
  assert (exists b, bags (local t) !! n = Some b) as [b Hb].
  { destruct Hs as [g Hi]. apply lookup_lt_is_Some. rewrite (sl_bags _ _ (i_slots _ _ Hi) _ _ Ht Hreg). lia. }
  eapply (step_quiet s i t (goto (not_advanced k) (with_bags (<[n := []]> (bags (local t))) t)) b); [exact Hs|exact Ht| |by rewrite Hat|done|done|..].
  - unfold step. rewrite Hat. unfold reclaim_after, reclaim_all. rewrite (index_ok _ _ b) by (done || lia). done.
  - intros g Hi. rewrite Hat. pose proof (i_thread _ _ Hi _ _ Ht) as Hok. pose proof (t_hand _ _ _ _ _ _ Hok) as Hh. rewrite Hat in Hh.
    split; [| by destruct k| |by destruct k|].
    + apply guards_ok_not_advanced. pose proof (t_guards _ _ _ _ _ _ Hok) as Hg. unfold guards_ok in Hg. by rewrite Hat in Hg.
    + intros p Hp. apply Hh. by destruct k.
    + cbn. intros m b' p [(<- & <- & _)|[_ Hk]]%list_lookup_insert_Some Hp; [by apply elem_of_nil in Hp|by eapply t_bag].
  - intros g p Hi Hp. destruct (t_bag _ _ _ _ _ _ (i_thread _ _ Hi _ _ Ht) _ _ _ Hb Hp) as (Hw & r & Hm & Hn & Hle).
    split; [done|]. intros [|j gs] Hin; [done|]. exfalso.
    assert (j ∈ j :: gs) as Hj by left. specialize (Hle _ _ Hin Hj). apply (i_due _ _ Hi _ _ _ Hin) in Hj as (h & Hh & Hnz)%holds_spec.
    destruct (i_holder _ _ Hi _ _ Hh Hnz) as (_ & _ & _ & _ & _ & _ & Hb'). subst n. rewrite Z2Nat.id in Hm by lia.
    rewrite (i_now _ _ Hi) in Hm. clear -Hm Hn Hle Hb'. Z.to_euclidean_division_equations. lia.
Qed.

Lemma good_destroy s i t : good s -> threads s !! i = Some t -> at_ t = Destroy_bags -> exists s', fire (Step i) s = Ok s' /\ good s'.
Proof.
  intros Hs Ht Hat. eapply step_quiet; [exact Hs|exact Ht|by unfold step; rewrite Hat|by rewrite Hat|done|done|..].
  - intros g Hi. rewrite Hat. pose proof (i_thread _ _ Hi _ _ Ht) as Hok. split; [|done| |done|].
    + pose proof (t_guards _ _ _ _ _ _ Hok) as Hg. unfold guards_ok in *. by rewrite Hat in Hg.
    + intros p Hp. by apply elem_of_nil in Hp.
    + intros [|[|[|n]]] b p Hb Hp; cbn in Hb; try done; injection Hb as <-; by apply elem_of_nil in Hp.
  - intros g p Hi Hp. rewrite (t_empty _ _ _ _ _ _ (i_thread _ _ Hi _ _ Ht)) in Hp by (by rewrite Hat). by apply elem_of_nil in Hp.
Qed.

Lemma good_lose s i t : good s -> threads s !! i = Some t -> at_ t = Lose_bags -> exists s', fire (Step i) s = Ok s' /\ good s'.
Proof.
  intros Hs Ht Hat. assert (guards t = 0%nat) as H0.
  { destruct Hs as [g Hi]. pose proof (t_guards _ _ _ _ _ _ (i_thread _ _ Hi _ _ Ht)) as H. unfold guards_ok in H. by rewrite Hat in H. }
  eapply step_quiet; [exact Hs|exact Ht|by unfold step; rewrite Hat|by rewrite Hat|by rewrite H0|done|..].
  - intros g Hi. split; try done. intros p Hp. by apply elem_of_nil in Hp.
  - intros g p Hi Hp. rewrite Local_drop_bags, (t_empty _ _ _ _ _ _ (i_thread _ _ Hi _ _ Ht)) in Hp by (by rewrite Hat).
    by apply elem_of_nil in Hp.
Qed.

(** ** Advancing the global epoch *)

Lemma inv_advance g s : inv g s -> (forall u h, threads s !! u = Some h -> guards h <> 0%nat -> began g u = changes s) ->
  inv g (mk_machine (store_epoch ((changes s + 1) mod 3) (shared s)) (threads s) (gone s) (due s) (changes s + 1) (seen s)).
Proof.
  intros Hi Hall. split; cbn; try apply Hi; [done|..].
  - destruct (i_slots _ _ Hi) as [H1 H2 H3 H4]. by split.
  - intros u h Hu Hh. destruct (i_holder _ _ Hi _ _ Hu Hh) as (st & Hst & Ha & He & Htk & Hb).
    exists st. specialize (Hall _ _ Hu Hh). split_and!; [done..|lia|lia|lia|lia].
  - intros u h Hu. destruct (i_thread _ _ Hi _ _ Hu) as [Hg Hp Hh He Hb]. split; try done.
    + assert (forall j, seen s u <= changes s -> passed g (changes s + 1) (threads s) (seen s u) j) as Hold by (intros j ? ?; lia).
      destruct (at_ h); cbn in *; try done; destruct_and?; split_and!; try done; try lia; by apply Hold.
    + intros k b p Hk Hp'. destruct (Hb _ _ _ Hk Hp') as (Hw & r & Hr & Hn & Hle). split; [done|]. exists r. split_and!; [done|lia|done].
Qed.

Lemma good_advance_store s i t k cg : good s -> threads s !! i = Some t -> at_ t = Advance_store k cg -> recent i s ->
  exists s', fire (Step i) s = Ok s' /\ good s'.
Proof.
  intros [g Hi] Ht Hat Hrec. pose proof (i_thread _ _ Hi _ _ Ht) as Hok. pose proof (t_point _ _ _ _ _ _ Hok) as Hp.
  pose proof (t_guards _ _ _ _ _ _ Hok) as Hg. unfold guards_ok in Hg. rewrite Hat in Hp, Hg. destruct Hp as (Hcg & Hle & Hpass).
  assert (registered t = true) as Hreg by (unfold registered; by rewrite Hat).
  assert (step (shared s) t = Ok (store_epoch ((cg + 1) mod 3) (shared s), goto (Reclaim_load k) t, [])) as Hst by (unfold step; by rewrite Hat).
  assert (forall g now w sn, thread_ok g now (threads s) w sn t -> thread_ok g now (threads s) w sn (goto (Reclaim_load k) t)) as Hgo.
  { intros g' now w sn [? ? Hh ? Hb]. rewrite Hat in Hh. by split. }
  rewrite Hcg, Z.add_mod_idemp_l in Hst by lia. unfold recent in Hrec. destruct (decide (seen s i = changes s)) as [Hs|Hs].
  - eexists. split.
    { cbn. rewrite (index_ok _ _ t) by (lia || by rewrite Nat2Z.id). cbn. rewrite Hst. cbn. reflexivity. }
    rewrite Hs, Hat, (i_now _ _ Hi), (proj2 (Z.eqb_neq _ _)) by (clear; Z.to_euclidean_division_equations; lia).
    exists g. apply inv_advance in Hi as Hi1.
    + pose proof (i_slots _ _ Hi1) as Hsl. eapply inv_still in Hi1; [exact Hi1|exact Ht|done|done| |done|apply Hgo; by apply Hi1|].
      * eapply slots_same; [exact Hsl|done..| |]; unfold registered; rewrite Hat; [done|].
        intros _. split; [done|]. by apply (sl_bags _ _ Hsl i t).
      * intros p H. by apply elem_of_nil in H.
    + intros u h Hu Hh. eapply Hpass; [done..|]. rewrite <- (sl_length _ _ (i_slots _ _ Hi)).
      destruct (i_holder _ _ Hi _ _ Hu Hh) as (st & Hl%lookup_lt_Some & _). done.
  - replace (seen s i + 1) with (changes s) in Hst by lia. rewrite <- (i_now _ _ Hi) in Hst.
    assert (store_epoch (global_epoch (shared s)) (shared s) = shared s) as Hsame by (by destruct (shared s)).
    rewrite Hsame in Hst. eapply step_quiet; [by exists g|done|exact Hst|by rewrite Hat|done|done|..].
    + intros g' Hi'. rewrite Hat. apply Hgo. by apply Hi'.
    + intros g' p _ H. by apply elem_of_nil in H.
Qed.

Lemma good_step s i : good s -> timely (Step i) s -> exists s', fire (Step i) s = Ok s' /\ good s'.
Proof.
  intros Hs (t & Ht & Hc). destruct (at_ t) eqn:Hat; cbn in Hc.
  all: try (eapply step_quiet; [exact Hs|exact Ht|by unfold step; rewrite Hat|by rewrite Hat|done|done| |];
    [intros g Hi; rewrite Hat; by apply Hi|by intros g p _ H%elem_of_nil]; fail).
  - by eapply good_register.
  - by eapply good_pin_load.
  - by eapply good_pin_store.
  - by eapply good_drop_store.
  - by eapply good_defer_load.
  - by eapply good_advance_load.
  - by eapply good_scan_active.
  - by eapply good_scan_epoch.
  - by eapply good_advance_store.
  - by eapply good_reclaim_load.
  - by eapply good_retry_load.
  - by eapply good_destroy.
  - by eapply good_lose.
  - eapply (good_unregister s i t); auto.
  - eapply (good_unregister s i t); auto.
Qed.

Lemma initial_good n : good (initial n).
Proof.
  exists (mk_marks (fun _ => 0) (fun _ => 0)). split; cbn; try (intros; exfalso; match goal with H : _ ∈ [] |- _ => by apply elem_of_nil in H end).
  - done.
  - apply initial_slots.
  - by intros i t [-> _]%lookup_replicate Hn.
  - intros i t [-> _]%lookup_replicate. split; cbn; try done.
Qed.

Lemma timely_good n s : timely_run n s -> good s.
Proof.
  induction 1 as [|s e s' _ IH Ht Hf]; [apply initial_good|].
  destruct e as [i a|i]; [destruct (good_begin _ _ _ IH Ht) as (s2 & ? & ?)|destruct (good_step _ _ IH Ht) as (s2 & ? & ?)]; congruence.
Qed.

(** C21: Safety in every interleaving of the atomic operations that keeps the
    contract [timely]: an object is freed only after every guard that was held
    when it was retired has been dropped; and every event that keeps the contract
    goes through. *)
Theorem atomic_safe n s : timely_run n s ->
  (forall p gs, (p, gs) ∈ due s -> p ∈ gone s -> gs = []) /\
  (forall e, timely e s -> exists s', fire e s = Ok s').
Proof.
  intros Hg%timely_good. split.
  - destruct Hg as [g Hi]. exact (i_safe _ _ Hi).
  - intros [i a|i] Ht; [destruct (good_begin _ _ _ Hg Ht) as (s' & ? & _)|destruct (good_step _ _ Hg Ht) as (s' & ? & _)]; by exists s'.
Qed.

(** ** A call that nothing interleaves with *)

Fixpoint run_alone (n : nat) (c : Collector) (t : thread) : outcome fuel_error (Collector * thread * list object) :=
  match n with
  | O => Ok (c, t, [])
  | S n =>
      r ← step c t;
      let '(c, t, f) := r in
      r ← run_alone n c t;
      let '(c, t, f') := r in
      Ok (c, t, f ++ f')
  end.

(** The calls of [Ebr], on the same state. *)
Definition whole (a : op) (c : Collector) (t : thread) : outcome fuel_error (Collector * thread * list object) :=
  let l := local t in
  match a with
  | New => r ← Local_new c; Ok (r.1, mk_thread r.2 0 Idle, [])
  | PinOp => c ← pin (thread_index l) c; Ok (c, mk_thread l (S (guards t)) Idle, [])
  | DropOp => c ← unpin (thread_index l) c; Ok (c, mk_thread l (pred (guards t)) Idle, [])
  | DeferOp p => r ← defer p c l; let '(c, l, f) := r in Ok (c, mk_thread l (guards t) Idle, f)
  | FlushOp => r ← flush c l; let '(c, l, f) := r in Ok (c, mk_thread l (guards t) Idle, f)
  | DestroyOp => r ← destroy c l; let '(c, f) := r in Ok (c, unattached, f)
  | LoseOp => Ok (c, unattached, Local_drop l)
  end.

(** At most two operations for each slot, and five around them. *)
Definition call_steps : nat := 2 * MAX_THREADS + 5.

Lemma run_alone_add n m c t : run_alone (n + m) c t =
  (r ← run_alone n c t; let '(c, t, f) := r in r ← run_alone m c t; let '(c, t, f') := r in Ok (c, t, f ++ f')).
Proof.
  revert c t. induction n as [|n IH]; intros c t; cbn.
  - by destruct (run_alone m c t) as [[[? ?] ?]| | |].
  - destruct (step c t) as [[[c1 t1] f1]| | |]; [|done..]. cbn. rewrite IH.
    destruct (run_alone n c1 t1) as [[[c2 t2] f2]| | |]; [|done..]. cbn.
    destruct (run_alone m c2 t2) as [[[c3 t3] f3]| | |]; [|done..]. cbn. by rewrite (assoc_L (++)).
Qed.

Lemma run_alone_then n m c t c1 t1 f1 c2 t2 f2 : run_alone n c t = Ok (c1, t1, f1) -> run_alone m c1 t1 = Ok (c2, t2, f2) ->
  run_alone (n + m) c t = Ok (c2, t2, f1 ++ f2).
Proof. intros H1 H2. rewrite run_alone_add, H1. cbn. by rewrite H2. Qed.

Lemma run_alone_step n c t c1 t1 f1 c2 t2 f2 : step c t = Ok (c1, t1, f1) -> run_alone n c1 t1 = Ok (c2, t2, f2) ->
  run_alone (S n) c t = Ok (c2, t2, f1 ++ f2).
Proof. intros H1 H2. cbn. rewrite H1. cbn. by rewrite H2. Qed.

(** A thread between calls stays there. *)
Definition at_rest (t : thread) : bool := match at_ t with Idle | Outside => true | _ => false end.

Lemma run_alone_rest n c t : at_rest t = true -> run_alone n c t = Ok (c, t, []).
Proof.
  unfold at_rest. intros H. induction n as [|n IH]; [done|]. cbn. unfold step. destruct (at_ t); try done; cbn; by rewrite IH.
Qed.

Lemma run_alone_enough n m c t c' t' f : run_alone n c t = Ok (c', t', f) -> at_rest t' = true -> (n <= m)%nat ->
  run_alone m c t = Ok (c', t', f).
Proof.
  intros H Hr Hle. replace m with (n + (m - n))%nat by lia. rewrite <- (app_nil_r f).
  eapply run_alone_then; [done|by apply run_alone_rest].
Qed.

Lemma drop_slot {A} (l : list A) j x : l !! j = Some x -> drop j l = x :: drop (S j) l.
Proof. intros H. by rewrite (drop_S _ x). Qed.

(** The loop of [try_advance] is the scan of [Ebr]. *)
Lemma scan_slot k cg c t j st : registry c !! j = Some st ->
  exists n, (n <= 2)%nat /\ run_alone n c (goto (Scan_active k cg j) t) =
    Ok (c, goto (if behind cg st then not_advanced k else scan_next k cg j) t, []).
Proof.
  intros Hst. unfold behind. destruct (Z.eqb_spec (active st) 0) as [Ha|Ha]; cbn [negb andb].
  - exists 1%nat. split; [lia|]. cbn. rewrite (index_registry _ _ _ Hst). cbn. by rewrite Ha.
  - exists 2%nat. split; [lia|]. cbn. rewrite !(index_registry _ _ _ Hst). cbn. rewrite (proj2 (Z.eqb_neq _ _) Ha). cbn.
    by rewrite !(index_registry _ _ _ Hst).
Qed.

Lemma scan_alone k cg c t d j : length (registry c) = MAX_THREADS -> (j + S d = MAX_THREADS)%nat ->
  exists n, (n <= 2 * S d)%nat /\ run_alone n c (goto (Scan_active k cg j) t) =
    Ok (c, goto (if existsb (behind cg) (drop j (registry c)) then not_advanced k else Advance_store k cg) t, []).
Proof.
  intros Hlen. revert j. induction d as [|d IH]; intros j Hj;
    (destruct (lookup_lt_is_Some_2 (registry c) j) as [st Hst]; [lia|]);
    destruct (scan_slot k cg c t j st Hst) as (n & Hn & Hrun); rewrite (drop_slot _ _ _ Hst); cbn [existsb];
    (destruct (behind cg st); cbn [orb]; [exists n; split; [lia|done]|]); unfold scan_next in Hrun.
  - rewrite (proj2 (Nat.ltb_ge _ _)) in Hrun by lia. rewrite drop_ge by lia. exists n. split; [lia|done].
  - rewrite (proj2 (Nat.ltb_lt _ _)) in Hrun by lia. destruct (IH (S j)) as (m & Hm & Hrun'); [lia|].
    exists (n + m)%nat. split; [lia|]. eapply (run_alone_then _ _ _ _ _ _ [] _ _ []); [done|exact Hrun'].
Qed.

(** [try_advance] and the reclamation after it. *)
Lemma advance_alone k c t : length (registry c) = MAX_THREADS -> exists n, (n <= 2 * MAX_THREADS + 3)%nat /\
  forall l f, (if (try_advance c).2 then reclaim_after (try_advance c).1 (local t) else Ok (local t, [])) = Ok (l, f) ->
  run_alone n c (goto (Advance_load k) t) = Ok ((try_advance c).1, mk_thread l (guards t) (not_advanced k), f).
Proof.
  intros Hlen. destruct (scan_alone k (global_epoch c) c t 127 0 Hlen) as (n & Hn & Hrun); [done|]. rewrite drop_0 in Hrun.
  unfold try_advance, advance_scan. destruct (existsb _ _).
  - exists (S n). split; [unfold MAX_THREADS in *; lia|]. intros l f [= <- <-]. by eapply (run_alone_step _ _ _ _ _ []).
  - exists (S (n + 2)). split; [unfold MAX_THREADS in *; lia|]. intros l f Hr. cbn [fst snd] in Hr.
    eapply (run_alone_step _ _ _ _ _ []); [done|]. eapply (run_alone_then _ _ _ _ _ _ []); [exact Hrun|].
    cbn. cbn in Hr. rewrite Hr. cbn. by rewrite app_nil_r.
Qed.

Lemma register_alone c t d j c' i : length (registry c) = MAX_THREADS -> (j + d = MAX_THREADS)%nat ->
  first_free j (drop j (registry c)) = Some i -> (st ← index (registry c) (Z.of_nat i); Ok (set_thread i (mk_ThreadState (epoch st) 1) c)) = Ok (E := fuel_error) c' ->
  exists n, (n <= d)%nat /\ run_alone n c (goto (Register_cas j) t) = Ok (c', mk_thread (fresh_local i) 0 Idle, []).
Proof.
  intros Hlen. revert j. induction d as [|d IH]; intros j Hj Hf Hc.
  { by rewrite drop_ge in Hf by lia. }
  destruct (lookup_lt_is_Some_2 (registry c) j) as [st Hst]; [lia|]. rewrite (drop_slot _ _ _ Hst) in Hf. cbn [first_free] in Hf.
  assert (step c (goto (Register_cas j) t) = if active st =? 0 then
    Ok (set_thread j (mk_ThreadState (epoch st) 1) c, mk_thread (fresh_local j) 0 Idle, []) else Ok (c, goto (Register_cas (S j)) t, [])) as Hs.
  { unfold step. cbn [goto at_]. rewrite (proj2 (Nat.ltb_lt _ _)) by lia. by rewrite (index_registry _ _ _ Hst). }
  destruct (active st =? 0) eqn:Ha.
  - injection Hf as ->. rewrite (index_registry _ _ _ Hst) in Hc. injection Hc as <-.
    exists 1%nat. split; [lia|]. by eapply (run_alone_step _ _ _ _ _ []).
  - destruct (IH (S j)) as (n & Hn & Hrun); [lia|done..|]. exists (S n). split; [lia|]. by eapply (run_alone_step _ _ _ _ _ []).
Qed.

Lemma flush_alone c t c' l f : length (registry c) = MAX_THREADS -> flush c (local t) = Ok (c', l, f) ->
  exists n, (n <= call_steps)%nat /\ run_alone n c (goto (Advance_load Flushing) t) = Ok (c', mk_thread l (guards t) Idle, f).
Proof.
  intros Hlen H. destruct (advance_alone Flushing c t Hlen) as (n & Hn & Hrun). exists n. split; [unfold call_steps; lia|].
  unfold flush in H. destruct (try_advance c) as [c1 ok]. cbn [fst snd] in Hrun.
  destruct ok; [apply bind_Ok in H as ([l1 f1] & Hr & [= -> -> ->])|injection H as -> <- <-]; by apply Hrun.
Qed.

Lemma defer_alone p c t c' l f : length (registry c) = MAX_THREADS -> defer p c (local t) = Ok (c', l, f) ->
  exists n, (n <= call_steps)%nat /\ run_alone n c (goto (Defer_load p) t) = Ok (c', mk_thread l (guards t) Idle, f).
Proof.
  intros Hlen (b & Hb & H)%bind_Ok. destruct (Bag_push b p) as [b1|] eqn:Hpush.
  { injection H as <- <- <-. exists 1%nat. split; [unfold call_steps; lia|]. eapply (run_alone_step _ _ _ _ _ []); [|done].
    unfold step. cbn. rewrite Hb. cbn. by rewrite Hpush. }
  destruct (advance_alone (Deferring p) c t Hlen) as (n & Hn & Hrun). destruct (try_advance c) as [c1 ok]. cbn [fst snd] in Hrun.
  apply bind_Ok in H as ([l1 f1] & Hr & H). specialize (Hrun _ _ Hr). apply bind_Ok in H as (b2 & Hb2 & H).
  exists (S (n + 1)). split; [unfold call_steps; lia|]. eapply (run_alone_step _ _ _ _ _ []).
  { unfold step. cbn. rewrite Hb. cbn. by rewrite Hpush. }
  destruct (Bag_push b2 p) as [b3|] eqn:Hpush2; injection H as <- <- <-.
  - rewrite <- (app_nil_r f1). eapply run_alone_then; [exact Hrun|]. cbn. rewrite Hb2. cbn. by rewrite Hpush2.
  - eapply run_alone_then; [exact Hrun|]. cbn. rewrite Hb2. cbn. by rewrite Hpush2.
Qed.

Lemma destroy_alone c t c' f : length (registry c) = MAX_THREADS -> destroy c (local t) = Ok (c', f) ->
  run_alone 3 c (goto Destroy_bags t) = Ok (c', unattached, f).
Proof.
  intros Hlen (c1 & Hu & [= <- <-])%bind_Ok. unfold unregister in Hu. destruct (Nat.ltb_spec (thread_index (local t)) MAX_THREADS) as [Hlt|]; [|done].
  injection Hu as <-. rewrite <- Hlen in Hlt. destruct (lookup_lt_is_Some_2 _ _ Hlt) as [st Hst]. rewrite Hlen in Hlt.
  rewrite <- (app_nil_r (concat _)). eapply (run_alone_step 2); [done|]. eapply (run_alone_step 1 _ _ _ _ []).
  - unfold step. cbn [at_ goto with_bags local thread_index]. by rewrite (proj2 (Nat.ltb_lt _ _) Hlt), (index_registry _ _ _ Hst).
  - eapply (run_alone_step 0 _ _ _ _ []); [|done]. unfold step. cbn [at_ goto with_bags local thread_index]. rewrite (index_registry _ _ (mk_ThreadState UNPINNED (active st))).
    + cbn. unfold set_thread. cbn. by rewrite list_insert_insert_eq.
    + apply list_lookup_insert_eq. by rewrite Hlen.
Qed.

Lemma whole_alone a c t c' t' f : length (registry c) = MAX_THREADS -> whole a c t = Ok (c', t', f) ->
  exists n, (n <= call_steps)%nat /\ run_alone n c (goto (entry a) t) = Ok (c', t', f).
Proof.
  intros Hlen H. destruct a as [| | |p| | |]; cbn [whole entry] in *.
  7: { injection H as <- <- <-. exists 1%nat. split; [unfold call_steps; lia|]. cbn. by rewrite app_nil_r. }
  all: apply bind_Ok in H as (r & Hr & H).
  - apply bind_Ok in Hr as ([c1 i] & Hr & [= <-]). injection H as <- <- <-. unfold register in Hr.
    destruct (first_free 0 (registry c)) as [j|] eqn:Hf; [|done]. apply bind_Ok in Hr as (st & Hst & [= <- <-]).
    destruct (register_alone c t MAX_THREADS 0 (set_thread j (mk_ThreadState (epoch st) 1) c) j) as (n & Hn & Hrun);
      [done|done|done|by rewrite Hst|]. exists n. split; [unfold call_steps; lia|done].
  - apply bind_Ok in Hr as (st & Hst & [= <-]). injection H as <- <- <-. exists 2%nat. split; [unfold call_steps; lia|].
    cbn. rewrite Hst. done.
  - apply bind_Ok in Hr as (st & Hst & [= <-]). injection H as <- <- <-. exists 1%nat. split; [unfold call_steps; lia|].
    cbn. rewrite Hst. done.
  - destruct r as [[c1 l] f1]. injection H as <- <- <-. by apply defer_alone.
  - destruct r as [[c1 l] f1]. injection H as <- <- <-. by apply flush_alone.
  - destruct r as [c1 f1]. injection H as <- <- <-. exists 3%nat. split; [unfold call_steps; lia|]. by apply destroy_alone.
Qed.

Lemma whole_rest a c t c' t' f : whole a c t = Ok (c', t', f) -> at_rest t' = true.
Proof.
  destruct a; cbn; try (intros (r & _ & H)%bind_Ok; repeat case_match; by injection H as _ <- _). by intros [= _ <- _].
Qed.

Lemma fire_alone n i s t c' t' f : threads s !! i = Some t -> run_alone n (shared s) t = Ok (c', t', f) ->
  exists s', fire_all (replicate n (Step i)) s = Ok s' /\
    shared s' = c' /\ threads s' = <[i := t']> (threads s) /\ gone s' = gone s ++ f.
Proof.
  revert s t f. induction n as [|n IH]; intros s t f Ht H; cbn in H.
  { injection H as <- <- <-. exists s. rewrite list_insert_id, app_nil_r by done. done. }
  apply bind_Ok in H as ([[c1 t1] f1] & Hst & ([[c2 t2] f2] & Hr & [= <- <- <-])%bind_Ok).
  cbn. rewrite (index_ok _ _ t) by (lia || by rewrite Nat2Z.id). cbn. rewrite Hst. cbn.
  set (s1 := mk_machine _ _ _ _ _ _). destruct (IH s1 t1 f2) as (s' & Hf & Hsh & Hth & Hg); [|done|].
  - apply list_lookup_insert_eq. by eapply lookup_lt_Some.
  - exists s'. cbn in Hth, Hg. by rewrite list_insert_insert_eq in Hth; rewrite <- (assoc_L (++)) in Hg.
Qed.

(** C30: A call whose operations nothing interleaves with is the whole call of [Ebr]:
    it ends, within [call_steps] operations, in the state that call gives, and
    frees what that call frees. *)
Theorem call_alone s i a t c' t' f : length (registry (shared s)) = MAX_THREADS -> threads s !! i = Some t -> ready a t = true ->
  whole a (shared s) t = Ok (c', t', f) ->
  exists s', fire_all (Begin i a :: replicate call_steps (Step i)) s = Ok s' /\
    shared s' = c' /\ threads s' = <[i := t']> (threads s) /\ gone s' = gone s ++ f.
Proof.
  intros Hlen Ht Hr H. destruct (whole_alone _ _ _ _ _ _ Hlen H) as (n & Hn & Hrun). apply whole_rest in H.
  apply (run_alone_enough _ call_steps) in Hrun; [|done..]. cbn [fire_all fire]. rewrite (index_ok _ _ t) by (lia || by rewrite Nat2Z.id).
  cbn [mbind outcome_bind]. rewrite Hr. set (s1 := mk_machine _ _ _ _ _ _).
  destruct (fire_alone call_steps i s1 (goto (entry a) t) c' t' f) as (s' & Hf & Hsh & Hth & Hg); [|done|].
  - apply list_lookup_insert_eq. by eapply lookup_lt_Some.
  - exists s'. cbn [threads s1] in Hth. by rewrite list_insert_insert_eq in Hth.
Qed.

(** ** What a client sees

    A client holds a [ThreadLocalLocal] and is between the calls of its thread, or
    inside one of them. *)

Lemma good_gone s p : good s -> p ∈ gone s -> p ∈ (due s).*1.
Proof. intros [g Hi]. by apply Hi. Qed.

Lemma good_safe s p gs : good s -> (p, gs) ∈ due s -> p ∈ gone s -> gs = [].
Proof. intros [g Hi]. by apply (i_safe _ _ Hi). Qed.

Definition resting (i : nat) (s : machine) : bool :=
  match threads s !! i with Some t => at_rest t | None => true end.
Definition may_begin (i : nat) (a : op) (s : machine) : bool :=
  match threads s !! i with Some t => ready a t | None => false end.

(** The start of a call, up to its first atomic operation. *)
Definition enter_call (i : nat) (a : op) (s : machine) : outcome fuel_error machine :=
  s ← fire (Begin i a) s; fire (Step i) s.

(** The points of the calls that take no guard, drop none and retire nothing. *)
Definition quiet_caller (k : caller) : bool := match k with Flushing => true | Deferring _ => false end.
Definition quiet_point (x : point) : bool :=
  match x with
  | Pin_load | Pin_store _ | Drop_store | Defer_load _ | Retry_load _ => false
  | Advance_load k | Scan_active k _ _ | Scan_epoch k _ _ | Advance_store k _ | Reclaim_load k => quiet_caller k
  | _ => true
  end.

(** Where a step takes a thread, and the number of its guards. *)
Definition step_to (t t' : thread) : Prop :=
  match at_ t with
  | Pin_load => (exists e, at_ t' = Pin_store e) /\ guards t' = guards t
  | Pin_store _ => at_ t' = Idle /\ guards t' = S (guards t)
  | Drop_store => at_ t' = Idle /\ guards t' = pred (guards t)
  | x => if quiet_point x then quiet_point (at_ t') = true /\ (guards t = 0%nat -> guards t' = 0%nat)
         else (at_ t' = Idle \/ in_hand (at_ t') <> []) /\ guards t' = guards t
  end.

Lemma quiet_scan_next k cg j : quiet_point (scan_next k cg j) = quiet_caller k.
Proof. unfold scan_next. by destruct (S j <? MAX_THREADS)%nat. Qed.
Lemma quiet_not_advanced k : quiet_point (not_advanced k) = quiet_caller k.
Proof. by destruct k. Qed.

Lemma step_step_to c t c' t' f : step c t = Ok (c', t', f) -> step_to t t'.
Proof.
  intros Hst. unfold step_to. destruct (at_ t) as [| | | | | | |k|k cg j|k cg j|k cg|k| | | | |] eqn:Hat;
    unfold step in Hst; rewrite Hat in *; cbn beta iota zeta in *; ok_inv; cbn; rewrite ?Hat; auto.
  - split; [by eexists|done].
  - destruct k; cbn; auto.
  - destruct (active x =? 0); rewrite ?quiet_scan_next, ?in_hand_scan_next; destruct k; cbn; auto.
  - destruct (negb _ && negb _); rewrite ?quiet_scan_next, ?in_hand_scan_next; destruct k; cbn; auto.
  - destruct k; cbn; auto.
  - destruct k; cbn; auto.
Qed.

Lemma fire_step s i t s' : threads s !! i = Some t -> fire (Step i) s = Ok s' ->
  exists t', threads s' = <[i := t']> (threads s) /\ step_to t t' /\
    due s' = account i (at_ t) (threads s) (threads s') (due s).
Proof.
  intros Ht. cbn. rewrite (index_ok _ _ t) by (lia || by rewrite Nat2Z.id). cbn.
  intros ([[c' t'] f] & Hst & [= <-])%bind_Ok. exists t'. split_and!; [done|by eapply step_step_to|done].
Qed.

Lemma holds_goto ts i t x : ts !! i = Some t -> forall j, holds (<[i := goto x t]> ts) j = holds ts j.
Proof.
  intros Ht j. unfold holds. destruct (decide (i = j)) as [<-|Hne]; [|by rewrite list_lookup_insert_ne].
  by rewrite list_lookup_insert_eq, Ht by (by eapply lookup_lt_Some).
Qed.

Lemma holders_goto ts i t x : ts !! i = Some t -> holders (<[i := goto x t]> ts) = holders ts.
Proof. intros Ht. unfold holders. rewrite length_insert. apply list_filter_iff. intros j. by rewrite holds_goto. Qed.

(** A call that keeps the contract begins. *)
Lemma enter_good s i a t : good s -> timely (Begin i a) s -> threads s !! i = Some t ->
  match a with DeferOp p => p ∉ (due s).*1 | _ => True end ->
  exists s' t', enter_call i a s = Ok s' /\ good s' /\ threads s' = <[i := t']> (threads s) /\
    step_to (goto (entry a) t) t' /\ due s' = account i (entry a) (threads s) (threads s') (due s).
Proof.
  intros Hs Hb Ht Ha. destruct (good_begin _ _ _ Hs Hb) as (s1 & H1 & Hs1). unfold enter_call. rewrite H1. cbn [mbind outcome_bind].
  destruct Hb as (t0 & Ht0 & Hr & _). assert (t0 = t) as -> by congruence.
  assert (s1 = mk_machine (shared s) (<[i := goto (entry a) t]> (threads s)) (gone s) (due s) (changes s) (seen s)) as ->.
  { cbn in H1. rewrite (index_ok _ _ t) in H1 by (lia || by rewrite Nat2Z.id). cbn in H1. rewrite Hr in H1. congruence. }
  set (s1 := mk_machine _ _ _ _ _ _) in *.
  assert (threads s1 !! i = Some (goto (entry a) t)) as Ht1 by (cbn; apply list_lookup_insert_eq; by eapply lookup_lt_Some).
  destruct (good_step s1 i Hs1) as (s' & H' & Hs').
  { exists (goto (entry a) t). split; [exact Ht1|]. destruct a; cbn; try done. unfold MAX_THREADS. lia. }
  destruct (fire_step _ _ _ _ Ht1 H') as (t' & Hth & Hto & Hd). exists s', t'.
  cbn in Hth. rewrite list_insert_insert_eq in Hth. split_and!; try done.
  rewrite Hd. cbn [at_ goto threads due s1]. destruct a; cbn; try done. by rewrite holders_goto.
Qed.

(** The bag of the current epoch is not full. *)
Definition bag_free (i : nat) (s : machine) : bool :=
  match threads s !! i with
  | Some t => match bags (local t) !! Z.to_nat (global_epoch (shared s)) with Some b => negb (is_full b) | None => false end
  | None => false
  end.

(** Then an object is retired in one operation. *)
Lemma defer_free i p s s' : may_begin i (DeferOp p) s = true -> bag_free i s = true -> enter_call i (DeferOp p) s = Ok s' ->
  resting i s' = true.
Proof.
  unfold may_begin, bag_free, enter_call, resting. destruct (threads s !! i) as [t|] eqn:Ht; [|done]. intros Hr Hb.
  cbn [fire]. rewrite (index_ok _ _ t) by (lia || by rewrite Nat2Z.id). cbn [mbind outcome_bind]. rewrite Hr. cbn.
  rewrite (index_ok _ _ (goto (Defer_load p) t)) by (lia || by rewrite Nat2Z.id, list_lookup_insert_eq by (by eapply lookup_lt_Some)).
  unfold step. cbn. intros ([[c' t'] f] & (b & Hi & H)%bind_Ok & [= <-])%bind_Ok. apply index_Ok in Hi. rewrite Hi in Hb.
  rewrite is_full_push in H by (by apply negb_true_iff). injection H as <- <- <-. cbn.
  rewrite list_insert_insert_eq, list_lookup_insert_eq by (by eapply lookup_lt_Some). done.
Qed.

(** A [pin] that nothing interleaves with. *)
Lemma pin_alone s i t : good s -> threads s !! i = Some t -> at_ t = Idle -> guards t = 0%nat ->
  exists s1 s2, enter_call i PinOp s = Ok s1 /\ resting i s1 = false /\ timely (Step i) s1 /\
    fire (Step i) s1 = Ok s2 /\ resting i s2 = true /\ bag_free i s2 = bag_free i s.
Proof.
  intros Hs Ht Hat Hg. pose proof (lookup_lt_Some _ _ _ Ht) as Hlt. assert (registered t = true) as Hr by (unfold registered; by rewrite Hat).
  destruct (slot_state _ _ _ Hs Ht Hr) as (st & Hst & _ & _). unfold enter_call. cbn [fire].
  rewrite (index_ok _ _ t) by (lia || by rewrite Nat2Z.id). cbn [mbind outcome_bind]. assert (ready PinOp t = true) as -> by (unfold ready; by rewrite Hat). cbn [threads shared].
  rewrite (index_ok _ _ (goto Pin_load t)) by (lia || by rewrite Nat2Z.id, list_lookup_insert_eq).
  cbn. rewrite Z.eqb_refl, list_insert_insert_eq. set (t1 := goto (Pin_store _) _).
  do 2 eexists. split; [reflexivity|]. unfold resting, timely, recent, bag_free. cbn [threads shared changes seen].
  rewrite !list_lookup_insert_eq by done. split; [done|]. split.
  { exists t1. split; [done|]. cbn. rewrite decide_True by done. lia. }
  rewrite (index_ok _ _ t1) by (lia || by rewrite Nat2Z.id, list_lookup_insert_eq). unfold step. cbn [mbind outcome_bind at_ t1 goto local].
  rewrite (index_registry _ _ _ Hst). split; [reflexivity|]. cbn. rewrite list_lookup_insert_eq, Ht by (by rewrite length_insert). done.
Qed.

(** ** Runs, computed *)

Definition timelyb (e : event) (s : machine) : bool :=
  match e with
  | Begin i a =>
      match threads s !! i with
      | Some t => ready a t && match a with
          | New | DeferOp _ | FlushOp => true
          | PinOp => (guards t =? 0)%nat
          | DropOp => (guards t =? 1)%nat
          | DestroyOp | LoseOp => (guards t =? 0)%nat && match concat (bags (local t)) with [] => true | _ => false end
          end
      | None => false
      end
  | Step i =>
      match threads s !! i with
      | Some t =>
          match at_ t with
          | Register_cas j => (j <? MAX_THREADS)%nat
          | Pin_store _ | Advance_store _ _ => changes s <=? seen s i + 1
          | Defer_load p => bool_decide (p ∉ (due s).*1)
          | Retry_load _ => match bags (local t) !! Z.to_nat (global_epoch (shared s)) with Some b => negb (is_full b) | None => true end
          | _ => true
          end
      | None => false
      end
  end.

Lemma timelyb_timely e s : timelyb e s = true -> timely e s.
Proof.
  destruct e as [i a|i]; cbn; destruct (threads s !! i) as [t|] eqn:Ht; try done; intros H; exists t; (split; [done|]).
  - apply andb_true_iff in H as [Hr H]. split; [done|]. destruct a; try done; try (by apply Nat.eqb_eq);
      (apply andb_true_iff in H as [H0%Nat.eqb_eq H]; split; [done|]; by destruct (concat _)).
  - destruct (at_ t); try done; [by apply Nat.ltb_lt|by apply Z.leb_le|by apply bool_decide_eq_true in H|by apply Z.leb_le|].
    unfold room_now. destruct (bags (local t) !! _); [by apply negb_true_iff|done].
Qed.

(** Run the events as long as the contract holds; the number of the first event
    that breaks it, if there is one. *)
Fixpoint run_timely (es : list event) (s : machine) : outcome fuel_error (machine * bool) :=
  match es with
  | [] => Ok (s, true)
  | e :: es => if timelyb e s then s ← fire e s; run_timely es s else Ok (s, false)
  end.

Lemma run_timely_ok n es s s' : timely_run n s -> run_timely es s = Ok (s', true) -> timely_run n s'.
Proof.
  revert s. induction es as [|e es IH]; intros s Hs H; cbn in H; [by injection H as <-|].
  destruct (timelyb e s) eqn:He; [|done]. apply bind_Ok in H as (s1 & Hf & H). eapply IH; [|exact H].
  eapply timely_step; [done|by apply timelyb_timely|done].
Qed.

Definition steps (n i : nat) : list event := replicate n (Step i).
Definition whole_call (i : nat) (a : op) : list event := Begin i a :: steps call_steps i.
Definition empty_machine : machine := initial 0.

(** Three threads, all registering at once.  Thread 1 is in the middle of a scan
    when thread 0 pins, with an epoch that thread 2 has meanwhile left behind;
    7 is retired under that guard, and freed once it is dropped. *)
Definition busy_events : list event :=
  [Begin 0 New; Begin 1 New; Begin 2 New; Step 2; Step 0; Step 1; Step 1; Step 0; Step 0] ++
  [Begin 0 PinOp; Step 0] ++ Begin 1 FlushOp :: steps 50 1 ++ whole_call 2 FlushOp ++
  [Step 0; Begin 2 (DeferOp 7); Step 2] ++ steps 250 1 ++ whole_call 2 FlushOp ++
  whole_call 0 DropOp ++ whole_call 2 FlushOp ++ whole_call 2 FlushOp.
Definition busy_end : machine := (value (empty_machine, false) (run_timely busy_events (initial 3))).1.

Lemma atomic_safe_witness :
  gone busy_end = [7] /\ due busy_end = [(7, [])] /\ changes busy_end = 3 /\ exists s', fire (Begin 0 PinOp) busy_end = Ok s'.
Proof.
  split_and!; [vm_compute; reflexivity..|].
  apply (atomic_safe 3 busy_end); [|apply timelyb_timely; vm_compute; reflexivity].
  apply (run_timely_ok 3 busy_events (initial 3)); [apply timely_start|vm_compute; reflexivity].
Defined.

(** A flush, alone, on a state with a guard held and an object in a bag. *)
Definition calm_events : list event :=
  whole_call 0 New ++ whole_call 1 New ++ whole_call 1 (DeferOp 7) ++ whole_call 1 FlushOp ++ whole_call 0 PinOp.
Definition calm : machine := value empty_machine (fire_all calm_events (initial 2)).
Definition calm_thread : thread := mk_thread (mk_Local 1 [[7]; []; []]) 0 Idle.

Lemma call_alone_witness :
  exists s', fire_all (Begin 1 FlushOp :: replicate call_steps (Step 1)) calm = Ok s' /\
    shared s' = store_epoch 2 (shared calm) /\
    threads s' = <[1%nat := mk_thread (mk_Local 1 [[]; []; []]) 0 Idle]> (threads calm) /\ gone s' = gone calm ++ [7].
Proof. apply (call_alone calm 1 FlushOp calm_thread); vm_compute; reflexivity. Defined.

(** ** Outside the contract *)

Definition freed_under (s : machine) (p : object) (i : nat) : Prop := p ∈ gone s /\ exists gs, (p, gs) ∈ due s /\ i ∈ gs.

Definition freed_underb (p : object) (i : nat) (s : machine) : bool :=
  bool_decide (p ∈ gone s) && existsb (fun x => (x.1 =? p) && bool_decide (i ∈ x.2)) (due s).

Lemma freed_underb_spec p i s : freed_underb p i s = true -> freed_under s p i.
Proof.
  intros [H1%bool_decide_eq_true ([q gs] & Hin & [Hq%Z.eqb_eq Hi%bool_decide_eq_true]%andb_true_iff)%existsb_exists]%andb_true_iff.
  split; [done|]. exists gs. cbn in *. subst. split; [|done]. by apply list_elem_of_In.
Qed.

(** The number of events that break the contract. *)
Fixpoint untimely (es : list event) (s : machine) : nat :=
  match es with
  | [] => 0
  | e :: es => (if timelyb e s then 0 else 1) + match fire e s with Ok s => untimely es s | _ => 0 end
  end.

Definition all_registered (n : nat) : list event := concat ((fun i => whole_call i New) <$> List.seq 0 n).

(** Thread 0 loads the epoch for its pin; thread 1 flushes twice and is past
    thread 0's slot in a third flush when thread 0 stores that epoch. *)
Definition stale_pin_events : list event :=
  all_registered 3 ++ [Begin 0 PinOp; Step 0] ++ whole_call 1 FlushOp ++ whole_call 1 FlushOp ++
  Begin 1 FlushOp :: steps 10 1 ++ [Step 0] ++ whole_call 2 (DeferOp 7) ++ steps call_steps 1 ++ whole_call 2 FlushOp.

(** Thread 1's flush has scanned with the epoch 0 when two others advance to 2
    and, past a reader of the epoch 2, to 0; its store of 1 makes thread 3 free
    the bag of the epoch 2. *)
Definition stale_store_events : list event :=
  all_registered 4 ++ Begin 1 FlushOp :: steps 133 1 ++ whole_call 2 FlushOp ++ whole_call 2 FlushOp ++
  whole_call 0 PinOp ++ whole_call 3 (DeferOp 7) ++ Begin 3 FlushOp :: steps 134 3 ++ [Step 1; Step 3].

(** [recent] is needed at both stores: with it broken once, and nothing else, an
    object is freed under a guard that was held when it was retired. *)
Theorem stale_frees_early :
  (exists s, fire_all stale_pin_events (initial 3) = Ok s /\ untimely stale_pin_events (initial 3) = 1%nat /\ freed_under s 7 0) /\
  (exists s, fire_all stale_store_events (initial 4) = Ok s /\ untimely stale_store_events (initial 4) = 1%nat /\ freed_under s 7 0).
Proof.
  split; eexists; (split; [vm_compute; reflexivity|]); (split; [vm_compute; reflexivity|]); apply freed_underb_spec; vm_compute; reflexivity.
Qed.

Lemma atomic_conserves_witness : gone busy_end ++ all_kept (threads busy_end) ≡ₚ [7] /\ NoDup (gone busy_end).
Proof.
  destruct (atomic_conserves 3 busy_events busy_end) as [H1 H2]; [vm_compute; reflexivity|].
  assert ((due busy_end).*1 = [7]) as Hd by (vm_compute; reflexivity). rewrite Hd in H1, H2.
  split; [exact H1|]. apply H2. apply NoDup_singleton.
Defined.
