(* ===== verification/ConcurrentMap.v ===== *)
(** * The concurrent hash map (tier2_concurrency/src/map.rs)

    [ConcurrentHashMap]: an open-addressing table of pointers to entries, probed
    linearly, whose removed and replaced entries are retired to the collector.
    Every atomic operation and every access to an entry is one step of a thread
    ([get_step], [insert_step], [remove_step]), and so is every atomic operation of
    the calls of the collector, which are those of ConcurrentEbr.v; a run is any
    interleaving, under sequential consistency.  An entry's address is the number
    of its allocation, so an address is not used again; under a guard the
    allocator could not reuse it either.

    [map_memory_safe], over any interleaving that keeps the collector's contract
    ([may_act]): no thread follows a pointer to a freed entry, and every entry is
    owned in one place.  The proof is against what a client sees of ConcurrentEbr.v
    ([enter_good], [good_step], [fire_step]).
    [map_refines_gmap], for calls no other thread disturbs: the table is a finite
    map.  Its proof has two halves: [alone_get], [alone_insert] and [alone_remove]
    reduce the steps of a call to [search] on the list of cells, and [entries] says
    which map a list of cells holds.  [map_insert_anomalies]: what does not hold. *)

From S2P Require Import Prelude.
From S2P Require Import Ebr ConcurrentEbr.
From stdpp Require Import gmap.
#[local] Open Scope Z_scope.

Section map.
  (** The keys' hash, as [DefaultHasher] computes it. *)
  Context {K V : Type} `{EqDecision K} (hash64 : K -> Z).

(** An [AtomicPtr<Entry>]: null, [TOMBSTONE], or the address of an entry. *)
Inductive slot := Null | Tombstone | At (p : Z).

#[export] Instance slot_eq_dec : EqDecision slot.
Proof. solve_decision. Defined.

Record ConcurrentHashMap := mk_ConcurrentHashMap { capacity : Z; mask : Z; table : list slot }.

Definition ConcurrentHashMap_new (capacity : Z) : outcome fuel_error ConcurrentHashMap :=
  if is_power_of_two capacity
  then Ok (mk_ConcurrentHashMap capacity (capacity - 1) (replicate (Z.to_nat capacity) Null))
  else Panic.

Definition hash (m : ConcurrentHashMap) (key : K) : Z := Z.land (hash64 key) (mask m).
Definition next (m : ConcurrentHashMap) (idx : Z) : Z := Z.land (idx + 1) (mask m).

(** What the calls return; [get] with the closure that returns the value. *)
Inductive result := Got (v : option V) | Inserted (ok : bool) | Removed (v : option V).

(** A call, and where a thread is: between calls, or before the step named, with
    the index, the number of iterations left and the pointers it holds. *)
Inductive call := Get (key : K) | Insert (key : K) (value : V) | Remove (key : K).

Inductive pc :=
| Idle (last : option result)
| Enter (a : call)
| GetLoad (key : K) (idx : Z) (n : nat)
| GetRead (key : K) (idx : Z) (n : nat) (ptr : Z)
| InsertLoad (new_entry : Z) (idx : Z) (n : nat)
| InsertRead (new_entry : Z) (idx : Z) (n : nat) (curr : Z)
| InsertCas (new_entry : Z) (idx : Z) (n : nat) (curr : slot)
| InsertDefer (curr : Z)
| RemoveLoad (key : K) (idx : Z) (n : nat)
| RemoveRead (key : K) (idx : Z) (n : nat) (curr : Z)
| RemoveCas (key : K) (idx : Z) (n : nat) (curr : Z)
| RemoveTake (curr : Z)
| RemoveDefer (curr : Z) (val : V)
| Leave (r : result).

(** The map, every entry ever boxed (its address is its number), the boxes
    dropped by a failed [insert], the collector with the threads' calls of it
    (ConcurrentEbr.v; thread [i] is the same thread there), and the threads. *)
Record world := mk_world {
  map : ConcurrentHashMap;
  heap : list (K * V);
  dropped : list Z;
  ebr : machine;
  threads : list pc
}.

(** [&*ptr]: undefined once the entry is freed. *)
Definition read (w : world) (p : Z) : outcome fuel_error (K * V) :=
  if bool_decide (p ∈ gone (ebr w)) || bool_decide (p ∈ dropped w) then Ub
  else match heap w !! Z.to_nat p with Some e => Ok e | None => Ub end.

Definition goto (i : nat) (c : pc) (w : world) : world :=
  mk_world (map w) (heap w) (dropped w) (ebr w) (<[i := c]> (threads w)).
Definition set_ebr (s : machine) (w : world) : world := mk_world (map w) (heap w) (dropped w) s (threads w).
Definition set_slot (idx : Z) (x : slot) (w : world) : world :=
  mk_world (mk_ConcurrentHashMap (capacity (map w)) (mask (map w)) (<[Z.to_nat idx := x]> (table (map w))))
    (heap w) (dropped w) (ebr w) (threads w).
Definition drop_box (p : Z) (w : world) : world := mk_world (map w) (heap w) (dropped w ++ [p]) (ebr w) (threads w).
Definition alloc (e : K * V) (w : world) : world := mk_world (map w) (heap w ++ [e]) (dropped w) (ebr w) (threads w).

(** [slot.compare_exchange(curr, new)]. *)
Definition compare_exchange (idx : Z) (curr new : slot) (w : world) : outcome fuel_error (option world) :=
  x ← index (table (map w)) idx;
  Ok (if decide (x = curr) then Some (set_slot idx new w) else None).

(** A thread calls, if it has a [ThreadLocalLocal]: the first operation of [pin]. *)
Definition start_call (i : nat) (a : call) (w : world) : outcome fuel_error world :=
  if may_begin i PinOp (ebr w)
  then s ← enter_call i PinOp (ebr w); Ok (goto i (Enter a) (set_ebr s w))
  else Ok w.

(** After [pin]: the hash, and the new entry's box. *)
Definition enter (i : nat) (a : call) (w : world) : world :=
  let n := Z.to_nat (capacity (map w)) in
  match a with
  | Get key => goto i (GetLoad key (hash (map w) key) n) w
  | Insert key value => goto i (InsertLoad (len (heap w)) (hash (map w) key) n) (alloc (key, value) w)
  | Remove key => goto i (RemoveLoad key (hash (map w) key) n) w
  end.

Definition get_step (i : nat) (c : pc) (w : world) : outcome fuel_error world :=
  match c with
  | GetLoad key idx O => Ok (goto i (Leave (Got None)) w)
  | GetLoad key idx (S n) =>
      ptr ← index (table (map w)) idx;
      Ok match ptr with
         | Null => goto i (Leave (Got None)) w
         | Tombstone => goto i (GetLoad key (next (map w) idx) n) w
         | At ptr => goto i (GetRead key idx n ptr) w
         end
  | GetRead key idx n ptr =>
      entry ← read w ptr;
      Ok (if decide (entry.1 = key) then goto i (Leave (Got (Some entry.2))) w
          else goto i (GetLoad key (next (map w) idx) n) w)
  | _ => Ok w
  end.

Definition insert_step (i : nat) (c : pc) (w : world) : outcome fuel_error world :=
  match c with
  | InsertLoad new_entry idx O => Ok (goto i (Leave (Inserted false)) (drop_box new_entry w))
  | InsertLoad new_entry idx (S n) =>
      curr ← index (table (map w)) idx;
      Ok match curr with
         | At p => goto i (InsertRead new_entry idx n p) w
         | _ => goto i (InsertCas new_entry idx n curr) w
         end
  | InsertRead new_entry idx n curr =>
      entry ← read w curr;
      new ← read w new_entry;
      Ok (if decide (entry.1 = new.1) then goto i (InsertCas new_entry idx n (At curr)) w
          else goto i (InsertLoad new_entry (next (map w) idx) n) w)
  | InsertCas new_entry idx n curr =>
      r ← compare_exchange idx curr (At new_entry) w;
      Ok match r with
         | Some w => goto i (match curr with At p => InsertDefer p | _ => Leave (Inserted true) end) w
         | None => goto i (InsertLoad new_entry idx n) w
         end
  | InsertDefer curr =>
      s ← enter_call i (DeferOp curr) (ebr w);
      Ok (goto i (Leave (Inserted true)) (set_ebr s w))
  | _ => Ok w
  end.

Definition remove_step (i : nat) (c : pc) (w : world) : outcome fuel_error world :=
  match c with
  | RemoveLoad key idx O => Ok (goto i (Leave (Removed None)) w)
  | RemoveLoad key idx (S n) =>
      curr ← index (table (map w)) idx;
      Ok match curr with
         | Null => goto i (Leave (Removed None)) w
         | Tombstone => goto i (RemoveLoad key (next (map w) idx) n) w
         | At p => goto i (RemoveRead key idx n p) w
         end
  | RemoveRead key idx n curr =>
      entry ← read w curr;
      Ok (if decide (entry.1 = key) then goto i (RemoveCas key idx n curr) w
          else goto i (RemoveLoad key (next (map w) idx) n) w)
  | RemoveCas key idx n curr =>
      r ← compare_exchange idx (At curr) Tombstone w;
      Ok match r with
         | Some w => goto i (RemoveTake curr) w
         | None => goto i (RemoveLoad key idx n) w
         end
  | RemoveTake curr =>
      entry ← read w curr;
      Ok (goto i (RemoveDefer curr entry.2) w)
  | RemoveDefer curr val =>
      s ← enter_call i (DeferOp curr) (ebr w);
      Ok (goto i (Leave (Removed (Some val))) (set_ebr s w))
  | _ => Ok w
  end.

(** The next step of thread [i]: inside a call of the collector, that call's next
    atomic operation; leaving a call drops its guard. *)
Definition thread_step (i : nat) (w : world) : outcome fuel_error world :=
  match threads w !! i with
  | None => Ok w
  | Some c =>
      if resting i (ebr w) then
        match c with
        | Idle _ => Ok w
        | Enter a => Ok (enter i a w)
        | GetLoad _ _ _ | GetRead _ _ _ _ => get_step i c w
        | InsertLoad _ _ _ | InsertRead _ _ _ _ | InsertCas _ _ _ _ | InsertDefer _ => insert_step i c w
        | RemoveLoad _ _ _ | RemoveRead _ _ _ _ | RemoveCas _ _ _ _ | RemoveTake _ | RemoveDefer _ _ => remove_step i c w
        | Leave r =>
            s ← enter_call i DropOp (ebr w);
            Ok (goto i (Idle (Some r)) (set_ebr s w))
        end
      else s ← fire (ConcurrentEbr.Step i) (ebr w); Ok (set_ebr s w)
  end.

(** What a thread calls of the collector between the map's calls: it makes its
    [ThreadLocalLocal], flushes it, destroys it or drops it. *)
Definition between_calls (a : op) : bool :=
  match a with PinOp | DropOp | DeferOp _ => false | _ => true end.

(** The scheduler's choices: a thread calls, takes its next step, or calls the
    collector. *)
Inductive action := Start (i : nat) (a : call) | Step (i : nat) | Collect (i : nat) (a : op).

Definition act (a : action) (w : world) : outcome fuel_error world :=
  match a with
  | Start i c => match threads w !! i with Some (Idle _) => start_call i c w | _ => Ok w end
  | Step i => thread_step i w
  | Collect i a =>
      match threads w !! i with
      | Some (Idle _) =>
          if between_calls a && may_begin i a (ebr w)
          then s ← enter_call i a (ebr w); Ok (set_ebr s w)
          else Ok w
      | _ => Ok w
      end
  end.

(** A map shared by [n] threads that have yet to register with its collector. *)
Definition open (capacity : Z) (n : nat) : outcome fuel_error world :=
  m ← ConcurrentHashMap_new capacity;
  Ok (mk_world m [] [] (initial n) (replicate n (Idle None))).

(** [Drop]: the entries still in the table are freed. *)
Definition slot_ptr (x : slot) : list Z := match x with At p => [p] | _ => [] end.
Definition drop_map (m : ConcurrentHashMap) : list Z := concat (slot_ptr <$> table m).

Fixpoint run_actions (l : list action) (w : world) : outcome fuel_error world :=
  match l with
  | [] => Ok w
  | a :: l => w ← act a w; run_actions l w
  end.

(** A call that no other thread disturbs: its result, within [fuel] steps. *)
Fixpoint finish (fuel : nat) (i : nat) (w : world) : outcome fuel_error (world * result) :=
  match fuel with
  | O => Err OutOfFuel
  | S fuel =>
      w ← thread_step i w;
      match threads w !! i with
      | Some (Idle (Some r)) => Ok (w, r)
      | _ => finish fuel i w
      end
  end.
Definition alone (i : nat) (a : call) (w : world) : outcome fuel_error (world * result) :=
  w ← start_call i a w;
  finish (call_steps + 6 + 2 * Z.to_nat (capacity (map w))) i w.

(** ** Ownership of entries *)

(** An entry's address is in the table, in a thread that has taken it out of the
    table, in a thread that has not put it in yet, dropped, or retired. *)
Definition transit (c : pc) : list Z :=
  match c with InsertDefer p | RemoveTake p | RemoveDefer p _ => [p] | _ => [] end.
Definition private (c : pc) : list Z :=
  match c with InsertLoad p _ _ | InsertRead p _ _ _ | InsertCas p _ _ _ => [p] | _ => [] end.
Definition in_table (tb : list slot) : list Z := concat (slot_ptr <$> tb).
Definition in_transit (ths : list pc) : list Z := concat (transit <$> ths).
Definition in_private (ths : list pc) : list Z := concat (private <$> ths).
Definition retired_ptrs (w : world) : list Z := (due (ebr w)).*1.
Definition owned (w : world) : list Z :=
  in_table (table (map w)) ++ in_transit (threads w) ++ in_private (threads w) ++ dropped w ++ retired_ptrs w.

(** The addresses a thread has read from the table and may follow. *)
Definition holds (c : pc) : list Z :=
  match c with
  | GetRead _ _ _ p | InsertRead _ _ _ p | RemoveRead _ _ _ p | RemoveCas _ _ _ p | InsertCas _ _ _ (At p) => [p]
  | _ => []
  end.
Definition protected (w : world) (i : nat) (p : Z) : Prop :=
  p ∈ in_table (table (map w)) \/ p ∈ in_transit (threads w) \/ exists gs, (p, gs) ∈ due (ebr w) /\ i ∈ gs.

Definition idle (c : pc) : bool := match c with Idle _ => true | _ => false end.
Definition idx_ok (cap : Z) (c : pc) : Prop :=
  match c with
  | GetLoad _ idx _ | GetRead _ idx _ _ | InsertLoad _ idx _ | InsertRead _ idx _ _ | InsertCas _ idx _ _
  | RemoveLoad _ idx _ | RemoveRead _ idx _ _ | RemoveCas _ idx _ _ => 0 <= idx < cap
  | _ => True
  end.

(** What a thread is doing in the collector, and the guards it holds: one from
    the end of [pin] to the start of the guard's drop. *)
Definition phase (c : pc) (t : thread) : Prop :=
  match c with
  | Idle _ => guards t = 0%nat /\ quiet_point (at_ t) = true
  | Enter _ => ((exists e, at_ t = Pin_store e) /\ guards t = 0%nat) \/ (at_ t = ConcurrentEbr.Idle /\ guards t = 1%nat)
  | Leave _ => (at_ t = ConcurrentEbr.Idle \/ in_hand (at_ t) <> []) /\ guards t = 1%nat
  | _ => at_ t = ConcurrentEbr.Idle /\ guards t = 1%nat
  end.

Definition map_ok (m : ConcurrentHashMap) : Prop :=
  is_power_of_two (capacity m) = true /\ mask m = capacity m - 1 /\ len (table m) = capacity m.

Record wf (w : world) : Prop := {
  wf_ebr : good (ebr w);
  wf_map : map_ok (map w);
  wf_phase i c : threads w !! i = Some c -> exists t, ConcurrentEbr.threads (ebr w) !! i = Some t /\ phase c t;
  wf_owned : owned w ≡ₚ seqZ 0 (len (heap w));
  wf_holds i c p : threads w !! i = Some c -> p ∈ holds c -> protected w i p;
  wf_idx i c : threads w !! i = Some c -> idx_ok (capacity (map w)) c
}.

Lemma elem_of_concat_fmap {A} (f : A -> list Z) (l : list A) p :
  p ∈ concat (f <$> l) <-> exists i x, l !! i = Some x /\ p ∈ f x.
Proof.
  rewrite list_elem_of_In, in_concat. setoid_rewrite <- list_elem_of_In. split.
  - intros (k & (x & -> & [i Hi]%list_elem_of_lookup)%list_elem_of_fmap & Hp). by exists i, x.
  - intros (i & x & Hx & Hp). exists (f x). split; [|done]. apply list_elem_of_fmap. exists x.
    split; [done|]. by eapply list_elem_of_lookup_2.
Qed.

Lemma map_ok_mod m x : map_ok m -> Z.land x (mask m) = x mod capacity m.
Proof.
  intros ([H1%Z.ltb_lt H2%Z.eqb_eq]%andb_true_iff & -> & _). rewrite <- H2 at 1.
  rewrite Z.sub_1_r, <- Z.ones_equiv, Z.land_ones by apply Z.log2_nonneg. by rewrite H2.
Qed.

Lemma map_ok_pos m : map_ok m -> 0 < capacity m.
Proof. intros ([H1%Z.ltb_lt H2%Z.eqb_eq]%andb_true_iff & _). done. Qed.

Lemma next_ok m idx : map_ok m -> 0 <= next m idx < capacity m.
Proof. intros Hm. unfold next. rewrite map_ok_mod by done. apply Z.mod_pos_bound. by apply map_ok_pos. Qed.

Lemma hash_ok m k : map_ok m -> 0 <= hash m k < capacity m.
Proof. intros Hm. unfold hash. rewrite map_ok_mod by done. apply Z.mod_pos_bound. by apply map_ok_pos. Qed.

Lemma owned_nodup w : wf w -> NoDup (owned w).
Proof. intros Hw. rewrite (wf_owned _ Hw). apply NoDup_seqZ. Qed.

Lemma owned_range w p : wf w -> p ∈ owned w -> 0 <= p < len (heap w).
Proof. intros Hw Hp. rewrite (wf_owned _ Hw) in Hp. apply elem_of_seqZ in Hp. lia. Qed.

(** What a thread may follow is not freed. *)
Lemma protected_ok w i p : wf w -> protected w i p \/ p ∈ in_private (threads w) ->
  p ∈ owned w /\ (p ∉ gone (ebr w)) /\ (p ∉ dropped w).
Proof.
  intros Hw Hp. pose proof (owned_nodup _ Hw) as Hnd. unfold owned in *.
  apply NoDup_app in Hnd as (_ & Ht & Hnd). apply NoDup_app in Hnd as (_ & Htr & Hnd).
  apply NoDup_app in Hnd as (_ & Hpr & Hnd). apply NoDup_app in Hnd as (_ & Hdr & _).
  rewrite !elem_of_app.
  assert (p ∈ gone (ebr w) -> p ∈ retired_ptrs w) as Hf by (apply good_gone, Hw).
  destruct Hp as [[H|[H|(gs & H & Hi)]]|H].
  - specialize (Ht _ H). rewrite !elem_of_app in Ht. naive_solver.
  - specialize (Htr _ H). rewrite !elem_of_app in Htr. naive_solver.
  - assert (p ∈ retired_ptrs w) as Hr by (apply list_elem_of_fmap; by exists (p, gs)).
    split_and!; [auto| |by intros ?%Hdr]. intros Hfr. pose proof (good_safe _ _ _ (wf_ebr _ Hw) H Hfr) as ->.
    by apply elem_of_nil in Hi.
  - specialize (Hpr _ H). rewrite !elem_of_app in Hpr. naive_solver.
Qed.

Lemma read_ok w i p : wf w -> protected w i p \/ p ∈ in_private (threads w) -> exists e, read w p = Ok e.
Proof.
  intros Hw Hp. destruct (protected_ok _ _ _ Hw Hp) as (Ho & Hf & Hd). apply owned_range in Ho; [|done].
  unfold read. rewrite !bool_decide_eq_false_2 by done. cbn.
  destruct (lookup_lt_is_Some_2 (heap w) (Z.to_nat p)) as [e ->]; [unfold len in Ho; lia|by exists e].
Qed.

(** ** Steps that move a pointer *)

(** Thread [i] goes on to [c'], the table's slot [idx] to [x'], and [d] is dropped. *)
Definition move (i : nat) (c' : pc) (idx : nat) (x' : slot) (d : list Z) (w : world) : world :=
  mk_world (mk_ConcurrentHashMap (capacity (map w)) (mask (map w)) (<[idx := x']> (table (map w))))
    (heap w) (dropped w ++ d) (ebr w) (<[i := c']> (threads w)).

Lemma concat_fmap_insert {A} (f : A -> list Z) (l : list A) i x x' : l !! i = Some x ->
  concat (f <$> <[i := x']> l) ++ f x ≡ₚ concat (f <$> l) ++ f x'.
Proof. intros Hi. rewrite list_fmap_insert. apply concat_insert. by rewrite list_lookup_fmap, Hi. Qed.

Lemma owned_move w i c c' idx x x' d : threads w !! i = Some c -> table (map w) !! idx = Some x ->
  slot_ptr x' ++ transit c' ++ private c' ++ d ≡ₚ slot_ptr x ++ transit c ++ private c ->
  owned (move i c' idx x' d w) ≡ₚ owned w.
Proof.
  intros Hc Hx Hp. unfold owned, in_table, in_transit, in_private, retired_ptrs, move. cbn.
  apply (Permutation_app_inv_r (slot_ptr x ++ transit c ++ private c)). rewrite <- Hp at 2.
  pose proof (concat_fmap_insert slot_ptr _ _ _ x' Hx) as H1.
  pose proof (concat_fmap_insert transit _ _ _ c' Hc) as H2.
  pose proof (concat_fmap_insert private _ _ _ c' Hc) as H3.
  set (A := concat (slot_ptr <$> _)) in H1 |- *. set (B := concat (transit <$> _)) in H2 |- *.
  set (C := concat (private <$> _)) in H3 |- *. clearbody A B C.
  transitivity ((A ++ slot_ptr x) ++ (B ++ transit c) ++ (C ++ private c) ++ (dropped w ++ d) ++ (due (ebr w)).*1).
  { solve_Permutation. } rewrite H1, H2, H3. solve_Permutation.
Qed.

Lemma elem_concat_insert {A} (f : A -> list Z) (l : list A) i x x' p : l !! i = Some x ->
  p ∈ concat (f <$> l) -> p ∈ concat (f <$> <[i := x']> l) \/ p ∈ f x.
Proof.
  intros Hi (j & y & Hj & Hp)%elem_of_concat_fmap. destruct (decide (j = i)) as [->|Hne].
  - right. by simplify_eq.
  - left. apply elem_of_concat_fmap. exists j, y. by rewrite list_lookup_insert_ne.
Qed.

Lemma elem_concat_new {A} (f : A -> list Z) (l : list A) i x x' p : l !! i = Some x ->
  p ∈ f x' -> p ∈ concat (f <$> <[i := x']> l).
Proof.
  intros Hi Hp. apply elem_of_concat_fmap. exists i, x'. split; [|done].
  apply list_lookup_insert_eq. by eapply lookup_lt_Some.
Qed.

Lemma protected_move w i c c' idx x x' d j p : threads w !! i = Some c -> table (map w) !! idx = Some x ->
  (forall p, p ∈ slot_ptr x ++ transit c -> p ∈ slot_ptr x' ++ transit c') ->
  protected w j p -> protected (move i c' idx x' d w) j p.
Proof.
  intros Hc Hx Hkeep Hp. unfold protected, in_table, in_transit, move in *. cbn.
  assert (p ∈ slot_ptr x ++ transit c ->
    p ∈ concat (slot_ptr <$> <[idx := x']> (table (map w))) \/ p ∈ concat (transit <$> <[i := c']> (threads w))) as Hmoved.
  { intros [H|H]%Hkeep%elem_of_app; [left|right]; by eapply elem_concat_new. }
  rewrite elem_of_app in Hmoved. destruct Hp as [Hp|[Hp|Hp]]; [| |by auto].
  - destruct (elem_concat_insert _ _ _ _ x' _ Hx Hp); [by auto|]. destruct Hmoved; auto.
  - destruct (elem_concat_insert _ _ _ _ c' _ Hc Hp); [by auto|]. destruct Hmoved; auto.
Qed.

Lemma move_wf w i c c' idx x x' d : wf w -> threads w !! i = Some c -> table (map w) !! idx = Some x ->
  (forall t, phase c t -> phase c' t) ->
  slot_ptr x' ++ transit c' ++ private c' ++ d ≡ₚ slot_ptr x ++ transit c ++ private c ->
  (forall p, p ∈ slot_ptr x ++ transit c -> p ∈ slot_ptr x' ++ transit c') ->
  (forall p, p ∈ holds c' -> protected w i p) -> idx_ok (capacity (map w)) c' ->
  wf (move i c' idx x' d w).
Proof.
  intros Hw Hc Hx Hid Hperm Hkeep Hholds Hidx. split.
  - apply Hw.
  - destruct (wf_map _ Hw) as (? & ? & Hl). split_and!; [done..|]. cbn. rewrite <- Hl. unfold len. by rewrite length_insert.
  - cbn. intros j cj [(-> & <- & _)|[_ Hj]]%list_lookup_insert_Some; [|by apply Hw].
    destruct (wf_phase _ Hw _ _ Hc) as (t & Ht & Hp). exists t. auto.
  - rewrite (owned_move _ _ _ _ _ _ _ _ Hc Hx Hperm). apply Hw.
  - cbn. intros j cj p [(-> & <- & _)|[_ Hj]]%list_lookup_insert_Some Hp; eapply protected_move; try done; [by apply Hholds|].
    by eapply (wf_holds _ Hw).
  - cbn. intros j cj [(-> & <- & _)|[_ Hj]]%list_lookup_insert_Some; [done|]. by eapply (wf_idx _ Hw).
Qed.

(** A step that leaves the table alone and moves no pointer. *)
Lemma goto_wf w i c c' : wf w -> threads w !! i = Some c -> (forall t, phase c t -> phase c' t) ->
  transit c' = transit c -> private c' = private c ->
  (forall p, p ∈ holds c' -> protected w i p) -> idx_ok (capacity (map w)) c' -> wf (goto i c' w).
Proof.
  intros Hw Hc Hid Ht Hp Hh Hidx. destruct (wf_map _ Hw) as (_ & _ & Hl). pose proof (map_ok_pos _ (wf_map _ Hw)).
  destruct (lookup_lt_is_Some_2 (table (map w)) 0) as [x Hx]; [unfold len in Hl; lia|].
  replace (goto i c' w) with (move i c' 0 x [] w).
  - eapply move_wf; try done; by rewrite Ht, ?Hp, ?app_nil_r.
  - unfold move, goto. rewrite app_nil_r, list_insert_id by done. by destruct w as [[]].
Qed.

(** ** Steps that call the collector *)

Definition extend (es : list (K * V)) (w : world) : world :=
  mk_world (map w) (heap w ++ es) (dropped w) (ebr w) (threads w).

(** A thread that holds pointers has a guard. *)
Lemma holds_guard w j c p : wf w -> threads w !! j = Some c -> p ∈ holds c -> ConcurrentEbr.holds (ConcurrentEbr.threads (ebr w)) j = true.
Proof.
  intros Hw Hc Hp. destruct (wf_phase _ Hw _ _ Hc) as (t & Ht & Hph). apply holds_spec. exists t. split; [done|].
  destruct c; cbn in Hp; try (by apply elem_of_nil in Hp); destruct Hph as [_ ->]; done.
Qed.

(** Thread [i] goes from [c] to [c'] with a step of the collector that leaves it
    in [s'], and boxes [es]. *)
Lemma switch_wf w i c c' t' s' es : wf w -> threads w !! i = Some c -> good s' ->
  ConcurrentEbr.threads s' = <[i := t']> (ConcurrentEbr.threads (ebr w)) -> phase c' t' ->
  transit c' ++ private c' ++ (due s').*1 ≡ₚ transit c ++ private c ++ retired_ptrs w ++ seqZ (len (heap w)) (len es) ->
  (forall j p gs, j <> i -> (p, gs) ∈ due (ebr w) -> j ∈ gs -> exists gs', (p, gs') ∈ due s' /\ j ∈ gs') ->
  (forall j p, ConcurrentEbr.holds (ConcurrentEbr.threads (ebr w)) j = true -> p ∈ transit c ->
     p ∈ transit c' \/ exists gs', (p, gs') ∈ due s' /\ j ∈ gs') ->
  holds c' = [] -> idx_ok (capacity (map w)) c' ->
  wf (goto i c' (set_ebr s' (extend es w))).
Proof.
  intros Hw Hc Hs Hth Hph Hown Hwait Htr Hh Hidx. split; cbn.
  - done.
  - apply Hw.
  - intros j cj [(-> & <- & _)|[Hne Hj]]%list_lookup_insert_Some; rewrite Hth.
    + exists t'. rewrite list_lookup_insert_eq; [done|]. destruct (wf_phase _ Hw _ _ Hc) as (t & Ht & _). by eapply lookup_lt_Some.
    + rewrite list_lookup_insert_ne by done. by apply Hw.
  - rewrite len_app, seqZ_app, <- (wf_owned _ Hw), Z.add_0_l by apply len_nonneg.
    unfold owned, in_table, in_transit, in_private, retired_ptrs in *. cbn.
    pose proof (concat_fmap_insert transit _ _ _ c' Hc) as H2.
    pose proof (concat_fmap_insert private _ _ _ c' Hc) as H3.
    set (B := concat (transit <$> _)) in H2 |- *. set (C := concat (private <$> _)) in H3 |- *. clearbody B C.
    apply (Permutation_app_inv_r (transit c ++ private c)).
    transitivity (concat (slot_ptr <$> table (map w)) ++ (B ++ transit c) ++ (C ++ private c) ++ dropped w ++ (due s').*1).
    { solve_Permutation. } rewrite H2, H3.
    transitivity (concat (slot_ptr <$> table (map w)) ++ concat (transit <$> threads w) ++ concat (private <$> threads w) ++ dropped w ++
      (transit c' ++ private c' ++ (due s').*1)); [solve_Permutation|]. rewrite Hown. solve_Permutation.
  - intros j cj p [(-> & <- & _)|[Hne Hj]]%list_lookup_insert_Some Hp; [by rewrite Hh in Hp; apply elem_of_nil in Hp|].
    pose proof (holds_guard _ _ _ _ Hw Hj Hp) as Hpj.
    destruct (wf_holds _ Hw _ _ _ Hj Hp) as [H|[H|(gs & H & Hin)]].
    + by left.
    + right. unfold in_transit in *. cbn. destruct (elem_concat_insert _ _ _ _ c' _ Hc H) as [H'|H']; [by left|].
      destruct (Htr _ _ Hpj H') as [H''|H'']; [left; by eapply elem_concat_new|by right].
    + right. right. by eapply Hwait.
  - intros j cj [(-> & <- & _)|[_ Hj]]%list_lookup_insert_Some; [done|]. by eapply (wf_idx _ Hw).
Qed.

Lemma extend_nil w : extend [] w = w.
Proof. unfold extend. rewrite app_nil_r. by destruct w. Qed.

(** A step of the collector that retires nothing and drops no guard. *)
Lemma switch_same w i c c' t' s' : wf w -> threads w !! i = Some c -> good s' ->
  ConcurrentEbr.threads s' = <[i := t']> (ConcurrentEbr.threads (ebr w)) -> phase c' t' -> due s' = due (ebr w) ->
  transit c' = transit c -> private c' = private c -> holds c' = [] -> idx_ok (capacity (map w)) c' ->
  wf (goto i c' (set_ebr s' w)).
Proof.
  intros Hw Hc Hs Hth Hph Hd Ht Hp Hh Hidx. rewrite <- (extend_nil w). eapply switch_wf; try done.
  - rewrite Hd, Ht, Hp. cbn. unfold retired_ptrs. by rewrite app_nil_r.
  - rewrite Hd. eauto.
  - rewrite Ht. auto.
Qed.

Definition step_post (r : outcome fuel_error world) : Prop := exists w', r = Ok w' /\ wf w'.

Lemma start_wf w i r a : wf w -> threads w !! i = Some (Idle r) -> step_post (start_call i a w).
Proof.
  intros Hw Hc. destruct (wf_phase _ Hw _ _ Hc) as (t & Ht & Hg & _). unfold start_call, may_begin. rewrite Ht.
  destruct (ready PinOp t) eqn:Hr; [|by exists w].
  destruct (enter_good (ebr w) i PinOp t) as (s & t' & -> & Hs & Hth & Hto & Hd); [apply Hw|by exists t|done..|].
  eexists. split; [done|]. destruct Hto as [Hat Hg']. eapply switch_same; try done. left. cbn in Hg'. by rewrite Hg'.
Qed.

Lemma leave_wf w i r : wf w -> threads w !! i = Some (Leave r) -> resting i (ebr w) = true -> step_post (thread_step i w).
Proof.
  intros Hw Hc Hrest. destruct (wf_phase _ Hw _ _ Hc) as (t & Ht & Hat & Hg). unfold thread_step. rewrite Hc, Hrest.
  unfold resting in Hrest. rewrite Ht in Hrest. assert (at_ t = ConcurrentEbr.Idle) as Hid.
  { destruct Hat as [|Hh]; [done|]. unfold at_rest in Hrest. by destruct (at_ t). }
  destruct (enter_good (ebr w) i DropOp t) as (s & t' & -> & Hs & Hth & Hto & Hd); [apply Hw| |done..|].
  { exists t. split_and!; [done| |done]. unfold ready. by rewrite Hid. }
  eexists. split; [done|]. destruct Hto as [Hat' Hg']. cbn in Hg'. rewrite Hg in Hg'. cbn [account entry] in Hd.
  assert (ConcurrentEbr.holds (ConcurrentEbr.threads s) i = false) as Hno.
  { unfold ConcurrentEbr.holds. rewrite Hth, list_lookup_insert_eq by (by eapply lookup_lt_Some). by rewrite Hg'. }
  rewrite Hno in Hd. rewrite <- (extend_nil w). eapply switch_wf; try done.
  - split; [done|by rewrite Hat'].
  - rewrite Hd, release_keys. cbn. by rewrite app_nil_r.
  - intros j p gs Hne Hin Hj. rewrite Hd. exists (filter (fun j => j <> i) gs). split.
    + apply list_elem_of_fmap. by exists (p, gs).
    + by apply list_elem_of_filter.
  - cbn. by intros j p _ ?%elem_of_nil.
Qed.

Lemma transit_new w i c p : wf w -> threads w !! i = Some c -> p ∈ transit c -> p ∉ retired_ptrs w.
Proof.
  intros Hw Hc Hp. pose proof (owned_nodup _ Hw) as Hnd. unfold owned in Hnd.
  apply NoDup_app in Hnd as (_ & _ & Hnd). apply NoDup_app in Hnd as (_ & Hnd & _).
  assert (p ∈ in_transit (threads w)) as Hin by (apply elem_of_concat_fmap; by exists i, c).
  specialize (Hnd _ Hin). rewrite !elem_of_app in Hnd. naive_solver.
Qed.

(** The retiring step of [insert] and [remove]. *)
Lemma defer_wf w i c p r : wf w -> threads w !! i = Some c -> c = InsertDefer p \/ (exists v, c = RemoveDefer p v) ->
  exists s, may_begin i (DeferOp p) (ebr w) = true /\ enter_call i (DeferOp p) (ebr w) = Ok s /\ wf (goto i (Leave r) (set_ebr s w)).
Proof.
  intros Hw Hc Hcp. assert (transit c = [p] /\ private c = [] /\ forall t, phase c t -> at_ t = ConcurrentEbr.Idle /\ guards t = 1%nat) as (Ht & Hp & Hph)
    by (destruct Hcp as [->|[v ->]]; cbn; auto).
  destruct (wf_phase _ Hw _ _ Hc) as (t & Hti & [Hat Hg]%Hph). assert (ready (DeferOp p) t = true) as Hr by (unfold ready; by rewrite Hat).
  assert (p ∉ retired_ptrs w) as Hnew by (eapply transit_new; [done..|rewrite Ht; by left]).
  destruct (enter_good (ebr w) i (DeferOp p) t) as (s & t' & He & Hs & Hth & Hto & Hd); [apply Hw|by exists t|done..|].
  exists s. split; [unfold may_begin; by rewrite Hti|]. split; [exact He|]. rewrite <- (extend_nil w). eapply switch_wf; try done.
  - destruct Hto as [Hat' Hg']. split; [done|]. by rewrite Hg'.
  - rewrite Hd, Ht, Hp. cbn. rewrite fmap_app. cbn. unfold retired_ptrs. solve_Permutation.
  - intros j q gs _ Hin Hj. exists gs. rewrite Hd. cbn. rewrite elem_of_app. auto.
  - rewrite Ht. intros j q Hj ->%list_elem_of_singleton. right. exists (holders (ConcurrentEbr.threads (ebr w))).
    rewrite Hd. cbn. by rewrite elem_of_app, list_elem_of_singleton, holders_spec; auto.
Qed.

(** Inside a call of the collector. *)
Lemma account_same i x ts ts' d : x <> Drop_store -> retiring x = [] -> account i x ts ts' d = d.
Proof. by destruct x. Qed.

(** The next operation of a call: the thread stays in its phase. *)
Lemma inside_phase c t t' : phase c t -> at_rest t = false -> step_to t t' ->
  phase c t' /\ at_ t <> Drop_store /\ retiring (at_ t) = [] /\ holds c = [].
Proof.
  intros Hp Hr Hto.
  assert ((exists r, c = Idle r) \/ (exists a, c = Enter a) \/ (exists r, c = Leave r) \/ at_ t = ConcurrentEbr.Idle) as Hcase.
  { destruct c; cbn in Hp; eauto; destruct Hp; auto. }
  unfold at_rest in Hr. destruct Hcase as [[r ->]|[[a ->]|[[r ->]|Hat]]]; [| | |by rewrite Hat in Hr]; cbn in *.
  - destruct Hp as [Hg Hq]. unfold step_to in Hto. destruct (at_ t) eqn:Hat; try done; cbn in *; rewrite ?Hq in Hto; destruct Hto; split_and!; auto.
  - destruct Hp as [[[e Hat] Hg]|[Hat _]]; [|by rewrite Hat in Hr]. unfold step_to in Hto. rewrite Hat in *. destruct Hto as [Hat' Hg'].
    split_and!; try done. right. by rewrite Hg', Hg.
  - destruct Hp as [[Hat|Hh] Hg]; [by rewrite Hat in Hr|]. unfold step_to in Hto. destruct (at_ t) eqn:Hat; try done; cbn in *;
      try (destruct k; try done); destruct Hto as [Hat' Hg']; split_and!; try done; congruence.
Qed.

(** What the schedule must see to (ConcurrentEbr.v): inside a call of the collector
    the thread's next operation keeps its contract; a thread gives up its
    [ThreadLocalLocal] with empty bags. *)
Definition may_act (a : action) (w : world) : Prop :=
  match a with
  | Start _ _ => True
  | Step i => resting i (ebr w) = false -> timely (ConcurrentEbr.Step i) (ebr w)
  | Collect i a =>
      match a with
      | DestroyOp | LoseOp => forall t, ConcurrentEbr.threads (ebr w) !! i = Some t -> concat (bags (local t)) = []
      | _ => True
      end
  end.

Lemma inside_wf w i c : wf w -> threads w !! i = Some c -> resting i (ebr w) = false -> may_act (Step i) w ->
  step_post (thread_step i w).
Proof.
  intros Hw Hc Hrest Hmay. destruct (good_step _ _ (wf_ebr _ Hw) (Hmay Hrest)) as (s' & Hs & Hg).
  unfold thread_step. rewrite Hc, Hrest, Hs. eexists. split; [done|].
  destruct (wf_phase _ Hw _ _ Hc) as (t & Ht & Hp). destruct (fire_step _ _ _ _ Ht Hs) as (t' & Hth & Hto & Hd).
  unfold resting in Hrest. rewrite Ht in Hrest. destruct (inside_phase _ _ _ Hp Hrest Hto) as (Hp' & Hnd & Hnr & Hh).
  rewrite account_same in Hd by done.
  replace (set_ebr s' w) with (goto i c (set_ebr s' w)) by (unfold goto, set_ebr; cbn; by rewrite list_insert_id).
  eapply switch_same; try done. by eapply (wf_idx _ Hw).
Qed.

Lemma collect_wf w i a : wf w -> may_act (Collect i a) w -> step_post (act (Collect i a) w).
Proof.
  intros Hw Hmay. cbn [act]. destruct (threads w !! i) as [c|] eqn:Hc; [|by exists w].
  destruct c as [r| | | | | | | | | | | | |]; try (by exists w).
  destruct (between_calls a && _) eqn:Hb; [|by exists w]. apply andb_true_iff in Hb as [Hb Hr].
  destruct (wf_phase _ Hw _ _ Hc) as (t & Ht & Hg & Hq). unfold may_begin in Hr. rewrite Ht in Hr.
  destruct (enter_good (ebr w) i a t) as (s & t' & -> & Hs & Hth & Hto & Hd); [apply Hw| |done|by destruct a|].
  { exists t. split_and!; [done..|]. destruct a; try done; (split; [done|]); by apply Hmay. }
  eexists. split; [done|].
  replace (set_ebr s w) with (goto i (Idle r) (set_ebr s w)) by (unfold goto, set_ebr; cbn; by rewrite list_insert_id).
  eapply switch_same; try done; [|rewrite Hd; by destruct a].
  unfold step_to in Hto. cbn in Hto. by destruct a; try done; destruct Hto as [? ?]; split; auto.
Qed.

(** ** Every step is safe *)

Lemma slot_at w idx : wf w -> 0 <= idx < capacity (map w) ->
  exists x, table (map w) !! Z.to_nat idx = Some x /\ index (E := fuel_error) (table (map w)) idx = Ok x.
Proof.
  intros Hw Hi. destruct (wf_map _ Hw) as (_ & _ & Hl).
  destruct (lookup_lt_is_Some_2 (table (map w)) (Z.to_nat idx)) as [x Hx]; [unfold len in Hl; lia|].
  exists x. split; [done|]. by apply index_ok; [lia|].
Qed.

Lemma in_table_at w idx p : table (map w) !! idx = Some (At p) -> p ∈ in_table (table (map w)).
Proof. intros Hx. apply elem_of_concat_fmap. exists idx, (At p). split; [done|by left]. Qed.

Lemma goto_set_slot i c idx x w : goto i c (set_slot idx x w) = move i c (Z.to_nat idx) x [] w.
Proof. unfold move, goto, set_slot. cbn. by rewrite app_nil_r. Qed.

Lemma goto_drop_box w i c p x : table (map w) !! 0%nat = Some x -> goto i c (drop_box p w) = move i c 0 x [p] w.
Proof. intros Hx. unfold move, goto, drop_box. rewrite (list_insert_id (table (map w))) by done. by destruct w as [[]]. Qed.

(** Between calls of the collector every place has the same phase. *)
Ltac same_phase := cbn; tauto.
Ltac no_holds := cbn; by intros ? ?%elem_of_nil.
Ltac holds_from_table Hx :=
  cbn; let q := fresh in intros q ->%list_elem_of_singleton; left; by eapply in_table_at.
Ltac go Hw Hc := eexists; split; [reflexivity|]; eapply goto_wf; [exact Hw|exact Hc|same_phase|reflexivity..| |].
Ltac go_on Hw Hc := go Hw Hc; [no_holds|cbn; first [done|by apply next_ok, Hw|by apply (wf_idx _ Hw _ _ Hc)]].

Lemma get_step_wf w i c : wf w -> threads w !! i = Some c ->
  match c with GetLoad _ _ _ | GetRead _ _ _ _ => True | _ => False end -> step_post (get_step i c w).
Proof.
  intros Hw Hc Hk. pose proof (wf_idx _ Hw _ _ Hc) as Hidx. pose proof (fun p => wf_holds _ Hw _ _ p Hc) as Hh.
  destruct c as [| |key idx [|n]|key idx n p| | | | | | | | | |]; try done; cbn -[enter_call] in *.
  - go_on Hw Hc.
  - destruct (slot_at _ _ Hw Hidx) as (x & Hx & ->). cbn. destruct x as [| |p]; [go_on Hw Hc..|].
    go Hw Hc; [|done]. holds_from_table Hx.
  - destruct (read_ok w i p Hw) as [e ->]; [left; apply Hh; by left|]. cbn. case_decide; go_on Hw Hc.
Qed.

Lemma protected_private w i c p : threads w !! i = Some c -> private c = [p] -> p ∈ in_private (threads w).
Proof. intros Hc Hp. apply elem_of_concat_fmap. exists i, c. rewrite Hp. split; [done|by left]. Qed.

Lemma cas_wf w i c c' idx x : wf w -> threads w !! i = Some c -> table (map w) !! Z.to_nat idx = Some x ->
  forall new, (forall t, phase c t -> phase c' t) -> holds c' = [] -> idx_ok (capacity (map w)) c' ->
  slot_ptr new ++ transit c' ++ private c' ≡ₚ slot_ptr x ++ transit c ++ private c ->
  (forall p, p ∈ slot_ptr x ++ transit c -> p ∈ slot_ptr new ++ transit c') ->
  wf (goto i c' (set_slot idx new w)).
Proof.
  intros Hw Hc Hx new Hph Hh Hidx Hp Hk. rewrite goto_set_slot. eapply move_wf; try done.
  - by rewrite app_nil_r.
  - rewrite Hh. by intros p ?%elem_of_nil.
Qed.

Lemma insert_step_wf w i c : wf w -> threads w !! i = Some c ->
  match c with InsertLoad _ _ _ | InsertRead _ _ _ _ | InsertCas _ _ _ _ | InsertDefer _ => True | _ => False end ->
  step_post (insert_step i c w).
Proof.
  intros Hw Hc Hk. pose proof (wf_idx _ Hw _ _ Hc) as Hidx. pose proof (fun p => wf_holds _ Hw _ _ p Hc) as Hh.
  destruct c as [| | | |new idx [|n]|new idx n p|new idx n curr|p| | | | | |]; try done; cbn -[enter_call] in *.
  - destruct (slot_at w 0 Hw) as (x & Hx & _). { pose proof (map_ok_pos _ (wf_map _ Hw)). lia. }
    eexists. split; [done|]. rewrite (goto_drop_box _ _ _ _ _ Hx). eapply move_wf; try done. same_phase.
  - destruct (slot_at _ _ Hw Hidx) as (x & Hx & ->). cbn. destruct x as [| |p]; [go_on Hw Hc..|].
    go Hw Hc; [|done]. holds_from_table Hx.
  - destruct (read_ok w i p Hw) as [e ->]; [left; apply Hh; by left|].
    destruct (read_ok w i new Hw) as [e' ->]; [right; by eapply protected_private|]. cbn.
    case_decide; [|go_on Hw Hc]. go Hw Hc; [|done]. cbn. intros q ->%list_elem_of_singleton. apply Hh. by left.
  - destruct (slot_at _ _ Hw Hidx) as (x & Hx & Hix). unfold compare_exchange. rewrite Hix. cbn. case_decide as Heq.
    + subst x. eexists. split; [done|]. destruct curr as [| |p]; (eapply cas_wf; [exact Hw|exact Hc|exact Hx|same_phase|done..| |]); cbn; try done.
      * by intros p ?%elem_of_nil.
      * by intros p ?%elem_of_nil.
      * apply Permutation_swap.
      * intros q ->%list_elem_of_singleton. right. by left.
    + go_on Hw Hc.
  - destruct (defer_wf _ _ _ p (Inserted true) Hw Hc) as (s & _ & -> & Hs); [by left|]. eexists. by split.
Qed.

Lemma remove_step_wf w i c : wf w -> threads w !! i = Some c ->
  match c with RemoveLoad _ _ _ | RemoveRead _ _ _ _ | RemoveCas _ _ _ _ | RemoveTake _ | RemoveDefer _ _ => True | _ => False end ->
  step_post (remove_step i c w).
Proof.
  intros Hw Hc Hk. pose proof (wf_idx _ Hw _ _ Hc) as Hidx. pose proof (fun p => wf_holds _ Hw _ _ p Hc) as Hh.
  destruct c as [| | | | | | | |key idx [|n]|key idx n p|key idx n p|p|p val|]; try done; cbn -[enter_call] in *.
  - go_on Hw Hc.
  - destruct (slot_at _ _ Hw Hidx) as (x & Hx & ->). cbn. destruct x as [| |p]; [go_on Hw Hc..|].
    go Hw Hc; [|done]. holds_from_table Hx.
  - destruct (read_ok w i p Hw) as [e ->]; [left; apply Hh; by left|]. cbn. case_decide; [|go_on Hw Hc].
    go Hw Hc; [|done]. cbn. intros q ->%list_elem_of_singleton. apply Hh. by left.
  - destruct (slot_at _ _ Hw Hidx) as (x & Hx & Hix). unfold compare_exchange. rewrite Hix. cbn. case_decide as Heq.
    + subst x. eexists. split; [done|]. eapply cas_wf; [exact Hw|exact Hc|exact Hx|same_phase|done..].
    + go_on Hw Hc.
  - destruct (read_ok w i p Hw) as [e ->]; [left; right; left; apply elem_of_concat_fmap; exists i, (RemoveTake p); split; [done|by left]|].
    go_on Hw Hc.
  - destruct (defer_wf _ _ _ p (Removed (Some val)) Hw Hc) as (s & _ & -> & Hs); [right; by exists val|]. eexists. by split.
Qed.

Lemma enter_wf w i a : wf w -> threads w !! i = Some (Enter a) -> resting i (ebr w) = true -> wf (enter i a w).
Proof.
  intros Hw Hc Hrest. destruct (wf_phase _ Hw _ _ Hc) as (t & Ht & Hp). unfold resting in Hrest. rewrite Ht in Hrest.
  assert (at_ t = ConcurrentEbr.Idle /\ guards t = 1%nat) as Hg.
  { destruct Hp as [[[e Hat] _]|Hp]; [|done]. unfold at_rest in Hrest. by rewrite Hat in Hrest. }
  assert (forall c' es, phase c' t -> holds c' = [] -> transit c' = [] -> private c' = seqZ (len (heap w)) (len es) ->
    idx_ok (capacity (map w)) c' -> wf (goto i c' (set_ebr (ebr w) (extend es w)))) as Hgo.
  { intros c' es Hph Hho Htr Hpr Hidx. eapply switch_wf; try done; [apply Hw|by rewrite list_insert_id| |eauto|].
    - rewrite Htr, Hpr. cbn. unfold retired_ptrs. solve_Permutation.
    - cbn. by intros j p _ ?%elem_of_nil. }
  destruct a as [k|k v|k]; cbn [enter].
  - specialize (Hgo (GetLoad k (hash (map w) k) (Z.to_nat (capacity (map w)))) []). rewrite extend_nil in Hgo.
    destruct w. apply Hgo; try done. apply hash_ok, Hw.
  - destruct w. apply (Hgo _ [(k, v)]); try done. apply hash_ok, Hw.
  - specialize (Hgo (RemoveLoad k (hash (map w) k) (Z.to_nat (capacity (map w)))) []). rewrite extend_nil in Hgo.
    destruct w. apply Hgo; try done. apply hash_ok, Hw.
Qed.

Lemma thread_step_wf w i c : wf w -> threads w !! i = Some c -> may_act (Step i) w -> step_post (thread_step i w).
Proof.
  intros Hw Hc Hmay. destruct (resting i (ebr w)) eqn:Hrest; [|by eapply inside_wf].
  destruct c eqn:Hcc.
  14: by eapply leave_wf.
  all: unfold thread_step; rewrite Hc, Hrest.
  - by exists w.
  - eexists. split; [done|]. by apply enter_wf.
  - by apply get_step_wf.
  - by apply get_step_wf.
  - by apply insert_step_wf.
  - by apply insert_step_wf.
  - by apply insert_step_wf.
  - by apply insert_step_wf.
  - by apply remove_step_wf.
  - by apply remove_step_wf.
  - by apply remove_step_wf.
  - by apply remove_step_wf.
  - by apply remove_step_wf.
Qed.

(** ** Runs *)

Inductive reachable_world (cap : Z) (n : nat) : world -> Prop :=
| reachable_open w : open cap n = Ok w -> reachable_world cap n w
| reachable_act w a w' : reachable_world cap n w -> may_act a w -> act a w = Ok w' -> reachable_world cap n w'.

Lemma act_wf w a : wf w -> may_act a w -> step_post (act a w).
Proof.
  intros Hw Ha. destruct a as [i a|i|i a]; [cbn [act]..|].
  - destruct (threads w !! i) as [[]|] eqn:Hc; try (by exists w). by eapply start_wf.
  - destruct (threads w !! i) as [c|] eqn:Hc; [by eapply thread_step_wf|].
    unfold thread_step. rewrite Hc. by exists w.
  - by apply collect_wf.
Qed.

Lemma concat_nil_fmap {A} (f : A -> list Z) (x : A) n : f x = [] -> concat (f <$> replicate n x) = [].
Proof. intros Hx. induction n as [|n IH]; cbn; [done|]. rewrite Hx. exact IH. Qed.

Lemma open_wf cap n w : open cap n = Ok w -> wf w.
Proof.
  unfold open, ConcurrentHashMap_new. destruct (is_power_of_two cap) eqn:Hcap; [|done]. cbn.
  intros [= <-].
  assert (0 < cap) as Hpos by (by apply andb_true_iff in Hcap as [?%Z.ltb_lt _]).
  split; cbn; try done.
  - apply initial_good.
  - split_and!; [done..|]. cbn. unfold len. rewrite length_replicate. lia.
  - intros i c [-> Hi]%lookup_replicate. exists unattached. by rewrite lookup_replicate.
  - unfold owned, in_table, in_transit, in_private, retired_ptrs. cbn.
    by rewrite !concat_nil_fmap.
  - intros i c p [-> _]%lookup_replicate ?%elem_of_nil. done.
  - by intros i c [-> _]%lookup_replicate.
Qed.

Lemma reachable_wf cap n w : reachable_world cap n w -> wf w.
Proof.
  induction 1 as [w Hw|w a w' _ IH Ha Hact]; [by eapply open_wf|].
  destruct (act_wf _ _ IH Ha) as (w2 & Hw2 & Hwf). congruence.
Qed.

Lemma idle_ptrs (ths : list pc) : (forall i c, ths !! i = Some c -> idle c = true) -> in_transit ths = [] /\ in_private ths = [].
Proof.
  induction ths as [|c ths IH]; intros Hi; [done|]. pose proof (Hi 0%nat c eq_refl) as Hc.
  destruct IH as [Ht Hp]; [intros i c' H; by apply (Hi (S i))|]. unfold in_transit, in_private in *. cbn.
  rewrite Ht, Hp. by destruct c.
Qed.

(** Runs that keep the contract, computed. *)
Definition may_actb (a : action) (w : world) : bool :=
  match a with
  | Start _ _ => true
  | Step i => resting i (ebr w) || timelyb (ConcurrentEbr.Step i) (ebr w)
  | Collect i a =>
      match a with
      | DestroyOp | LoseOp =>
          match ConcurrentEbr.threads (ebr w) !! i with
          | Some t => match concat (bags (local t)) with [] => true | _ => false end
          | None => true
          end
      | _ => true
      end
  end.

Lemma may_actb_may a w : may_actb a w = true -> may_act a w.
Proof.
  destruct a as [i c|i|i a]; cbn [may_actb may_act]; [done| |].
  - intros Hb Hr. rewrite Hr in Hb. by apply timelyb_timely.
  - destruct a; try done; intros Hb t Ht; rewrite Ht in Hb; by destruct (concat _).
Qed.

Fixpoint run_may (l : list action) (w : world) : bool :=
  match l with
  | [] => true
  | a :: l => may_actb a w && match act a w with Ok w => run_may l w | _ => false end
  end.

Lemma run_may_reachable cap n l w w' : reachable_world cap n w -> run_may l w = true -> run_actions l w = Ok w' -> reachable_world cap n w'.
Proof.
  revert w. induction l as [|a l IH]; cbn; intros w Hw; [by intros _ [= <-]|].
  intros [Ha H]%andb_true_iff. destruct (act a w) as [w1| | |] eqn:He; [|done..]. intros Hr.
  apply (IH w1); [|done..]. eapply reachable_act; [exact Hw|by apply may_actb_may|exact He].
Qed.

(** C20: No use after free: in every interleaving of the threads' atomic
    operations, those of the collector's calls included, that keeps the
    collector's contract ([may_act], which asks what [timely] asks in
    ConcurrentEbr.v: no load of the global epoch by [pin] or [try_advance] is
    overtaken by two changes of it before the store that depends on it, the retry
    of a [defer] finds room, a thread that registers finds a slot, bags are empty
    when they are given up), in every reachable state every next action that keeps
    it succeeds (a thread follows only pointers whose entries are not freed, the
    probes stay in the table); every entry ever boxed is in exactly one place: the
    table, one thread's hands, dropped by a failed insert, or retired; so between
    calls, dropping the map frees exactly the entries that were not dropped or
    retired. *)
Theorem map_memory_safe cap n w : reachable_world cap n w ->
  (forall a, may_act a w -> exists w', act a w = Ok w') /\ owned w ≡ₚ seqZ 0 (len (heap w)) /\
  ((forall i c, threads w !! i = Some c -> idle c = true) ->
    drop_map (map w) ++ dropped w ++ retired_ptrs w ≡ₚ seqZ 0 (len (heap w))).
Proof.
  intros Hw%reachable_wf. split_and!; [|apply Hw|].
  - intros a Ha. destruct (act_wf _ _ Hw Ha) as (w' & ? & _). by exists w'.
  - intros [Ht Hp]%idle_ptrs. rewrite <- (wf_owned _ Hw). unfold owned. by rewrite Ht, Hp.
Qed.

(** ** The table as a list of cells *)

Inductive cell := Free | Grave | Full (key : K) (value : V).

Definition cell_of (h : list (K * V)) (x : slot) : cell :=
  match x with
  | Null => Free
  | Tombstone => Grave
  | At p => match h !! Z.to_nat p with Some (k, v) => Full k v | None => Free end
  end.
Definition view (w : world) : list cell := cell_of (heap w) <$> table (map w).

(** Where the probes from [idx], at most [n], stop: at a free cell, at the key, and
    for [insert] ([reuse]) at a removed one. *)
Fixpoint search (reuse : bool) (m : ConcurrentHashMap) (key : K) (idx : Z) (n : nat) (cells : list cell) : option Z :=
  match n with
  | O => None
  | S n =>
      match cells !! Z.to_nat idx with
      | Some (Full k v) => if decide (k = key) then Some idx else search reuse m key (next m idx) n cells
      | Some Grave => if reuse then Some idx else search reuse m key (next m idx) n cells
      | Some Free => Some idx
      | None => None
      end
  end.

Definition search_key (reuse : bool) (w : world) (key : K) : option Z :=
  search reuse (map w) key (hash (map w) key) (Z.to_nat (capacity (map w))) (view w).
Definition value_at (cells : list cell) (idx : Z) : option V :=
  match cells !! Z.to_nat idx with Some (Full _ v) => Some v | _ => None end.
(** The value of a key, and the cell in which it is found. *)
Definition lookup_key (w : world) (key : K) : option V := search_key false w key ≫= value_at (view w).

(** ** Calls that no other thread disturbs *)

(** [n] steps of thread [i], none of them the last of its call. *)
Fixpoint leads (i n : nat) (w w' : world) : Prop :=
  match n with
  | O => w = w'
  | S n => exists c w1, thread_step i w = Ok w1 /\ threads w1 !! i = Some c /\ idle c = false /\ leads i n w1 w'
  end.

Lemma leads_finish i n w w' fuel : leads i n w w' -> finish (n + fuel) i w = finish fuel i w'.
Proof.
  revert w. induction n as [|n IH]; cbn; intros w; [by intros ->|].
  intros (c & w1 & -> & Hc & Hid & Hl). cbn. rewrite Hc. destruct c; try done; by apply IH.
Qed.

Lemma leads_trans i n n' w1 w2 w3 : leads i n w1 w2 -> leads i n' w2 w3 -> leads i (n + n') w1 w3.
Proof.
  revert w1. induction n as [|n IH]; cbn; intros w1; [by intros ->|].
  intros (c & w & H1 & H2 & H3 & H4) H. exists c, w. split_and!; try done. by apply IH.
Qed.

Lemma leads_one i w c w1 : thread_step i w = Ok w1 -> threads w1 !! i = Some c -> idle c = false -> leads i 1 w w1.
Proof. intros ???. by exists c, w1. Qed.

Lemma goto_goto i c c' w : goto i c (goto i c' w) = goto i c w.
Proof. unfold goto. cbn. by rewrite list_insert_insert_eq. Qed.

Lemma goto_thread i c w : (i < length (threads w))%nat -> threads (goto i c w) !! i = Some c.
Proof. intros Hi. cbn. by apply list_lookup_insert_eq. Qed.

Lemma read_heap w p e : read w p = Ok e -> heap w !! Z.to_nat p = Some e.
Proof. unfold read. case_match; [done|]. case_match; congruence. Qed.

Lemma read_goto i c w p : read (goto i c w) p = read w p.
Proof. done. Qed.

Lemma view_at w idx x : table (map w) !! Z.to_nat idx = Some x -> view w !! Z.to_nat idx = Some (cell_of (heap w) x).
Proof. intros Hx. unfold view. by rewrite list_lookup_fmap, Hx. Qed.

Lemma step_wf i w c w1 : wf w -> threads w !! i = Some c -> resting i (ebr w) = true -> thread_step i w = Ok w1 -> wf w1.
Proof.
  intros Hw Hc Hr H1. destruct (thread_step_wf _ _ _ Hw Hc) as (w2 & H2 & Hw2); [|congruence]. cbn. congruence.
Qed.

(** One step in a loop: it can be read off the state, and keeps it well formed. *)
Lemma loop_step i w c c' : (i < length (threads w))%nat -> wf (goto i c w) -> resting i (ebr w) = true ->
  thread_step i (goto i c w) = Ok (goto i c' w) -> idle c' = false ->
  leads i 1 (goto i c w) (goto i c' w) /\ wf (goto i c' w).
Proof.
  intros Hi Hw Hr Hs Hid. split; [eapply leads_one; [done|by apply goto_thread|done]|].
  eapply step_wf; [exact Hw|by apply goto_thread|done..].
Qed.

Lemma map_goto i c w : map (goto i c w) = map w.
Proof. done. Qed.

(** Reads off the next step of thread [i]. *)
Ltac stepping :=
  unfold thread_step; rewrite goto_thread by done;
  match goal with |- context [if resting ?i (ebr ?x) then _ else _] => replace (resting i (ebr x)) with true by (symmetry; assumption) end;
  cbn -[goto enter_call]; rewrite ?map_goto, ?read_goto.

(** The loop the three calls share: from [load] a thread reads a slot, from [rd]
    the entry there; it stops at [stop] or [hit], or with no iterations left. *)
Lemma probe_loop i key w (reuse : bool) (load : Z -> nat -> pc) (rd : Z -> nat -> Z -> pc) (stop : Z -> nat -> slot -> pc)
    (hit : Z -> nat -> Z -> K * V -> pc) :
  (i < length (threads w))%nat -> resting i (ebr w) = true ->
  (forall idx n, idle (load idx n) = false /\ (idx_ok (capacity (map w)) (load idx n) -> 0 <= idx < capacity (map w))) ->
  (forall idx n p, idle (rd idx n p) = false /\ holds (rd idx n p) = [p]) ->
  (forall idx n x, idle (stop idx n x) = false) -> (forall idx n p e, idle (hit idx n p e) = false) ->
  (forall idx n x, index (E := fuel_error) (table (map w)) idx = Ok x -> thread_step i (goto i (load idx (S n)) w) =
    Ok (goto i match x with
               | Null => stop idx n Null
               | Tombstone => if reuse then stop idx n Tombstone else load (next (map w) idx) n
               | At p => rd idx n p
               end w)) ->
  (forall idx n p e, read w p = Ok e -> thread_step i (goto i (rd idx n p) w) =
    Ok (goto i (if decide (e.1 = key) then hit idx n p e else load (next (map w) idx) n) w)) ->
  forall n idx, wf (goto i (load idx n) w) ->
  exists m c, (m <= 2 * n)%nat /\ leads i m (goto i (load idx n) w) (goto i c w) /\ wf (goto i c w) /\
    match search reuse (map w) key idx n (view w) with
    | None => exists idx, c = load idx O
    | Some j => exists n' x, table (map w) !! Z.to_nat j = Some x /\ 0 <= j < capacity (map w) /\
        match x with
        | At p => exists e, heap w !! Z.to_nat p = Some e /\ e.1 = key /\ c = hit j n' p e
        | _ => c = stop j n' x
        end
    end.
Proof.
  intros Hi Hroom Hload Hrd Hstop Hhit Hl Hr. induction n as [|n IH]; intros idx Hw.
  { exists 0%nat, (load idx O). split_and!; [lia|done|done|]. by exists idx. }
  pose proof (wf_idx _ Hw i _ (goto_thread _ _ _ Hi)) as Hidx. rewrite map_goto in Hidx. apply Hload in Hidx.
  destruct (slot_at _ idx Hw Hidx) as (x & Hx & Hix). rewrite map_goto in Hx, Hix.
  destruct (Hload idx (S n)) as (Hid & _). cbn [search]. rewrite (view_at _ _ _ Hx).
  assert (forall idx', wf (goto i (load idx' n) w) -> forall k c0, leads i k c0 (goto i (load idx' n) w) -> (k <= 2)%nat ->
    exists m c, (m <= 2 * S n)%nat /\ leads i m c0 (goto i c w) /\ wf (goto i c w) /\
    match search reuse (map w) key idx' n (view w) with
    | None => exists idx, c = load idx O
    | Some j => exists n' x, table (map w) !! Z.to_nat j = Some x /\ 0 <= j < capacity (map w) /\
        match x with
        | At p => exists e, heap w !! Z.to_nat p = Some e /\ e.1 = key /\ c = hit j n' p e
        | _ => c = stop j n' x
        end
    end) as Hgo.
  { intros idx' Hw' k c0 Hk Hk2. destruct (IH _ Hw') as (m & c & Hm & Hm' & Hc). exists (k + m)%nat, c.
    split_and!; [lia|by eapply leads_trans|apply Hc..]. }
  specialize (Hl idx n x Hix). destruct x as [| |p]; cbn [cell_of].
  - destruct (loop_step _ _ _ _ Hi Hw Hroom Hl) as [H1 H2]; [done|]. exists 1%nat, (stop idx n Null). split_and!; [lia|done..|].
    by exists n, Null.
  - destruct reuse.
    + destruct (loop_step _ _ _ _ Hi Hw Hroom Hl) as [H1 H2]; [done|]. exists 1%nat, (stop idx n Tombstone). split_and!; [lia|done..|].
      by exists n, Tombstone.
    + destruct (loop_step _ _ _ _ Hi Hw Hroom Hl) as [H1 H2]; [apply Hload|]. apply (Hgo _ H2 1%nat _ H1). lia.
  - destruct (Hrd idx n p) as (Hid2 & Hh). destruct (loop_step _ _ _ _ Hi Hw Hroom Hl Hid2) as [H1 H2].
    destruct (read_ok _ i p H2) as [e He].
    { left. eapply (wf_holds _ H2); [by apply goto_thread|rewrite Hh; by left]. }
    rewrite read_goto in He. specialize (Hr idx n p e He). apply read_heap in He. rewrite He. destruct e as [k v]. cbn [fst] in Hr.
    case_decide as Hk; (destruct (loop_step _ _ _ _ Hi H2 Hroom Hr) as [H3 H4]; [first [apply Hhit|apply Hload]|]).
    + exists 2%nat, (hit idx n p (k, v)). split_and!; [lia|by eapply (leads_trans _ 1 1)|done|].
      exists n, (At p). split; [done|split; [done|]]. by exists (k, v).
    + apply (Hgo _ H4 2%nat); [by eapply (leads_trans _ 1 1)|lia].
Qed.

Lemma goto_set_ebr i c c' s w : goto i c' (set_ebr s (goto i c w)) = goto i c' (set_ebr s w).
Proof. unfold goto, set_ebr. cbn. by rewrite list_insert_insert_eq. Qed.

Lemma leads_step i m w0 w c c' : (i < length (threads w))%nat -> leads i m w0 (goto i c w) -> wf (goto i c w) ->
  resting i (ebr w) = true -> thread_step i (goto i c w) = Ok (goto i c' w) -> idle c' = false ->
  leads i (m + 1) w0 (goto i c' w) /\ wf (goto i c' w).
Proof.
  intros Hi Hl Hw Hr Hs Hid. destruct (loop_step _ _ _ _ Hi Hw Hr Hs Hid) as [H1 H2].
  split; [by eapply leads_trans|done].
Qed.

(** [alone] in terms of steps: the call enters, its steps lead to [Leave r]. *)
Lemma finish_leave i w r : (i < length (threads w))%nat -> wf (goto i (Leave r) w) -> resting i (ebr w) = true -> forall fuel,
  exists s', finish (S fuel) i (goto i (Leave r) w) = Ok (goto i (Idle (Some r)) (set_ebr s' w), r) /\
    wf (goto i (Idle (Some r)) (set_ebr s' w)).
Proof.
  intros Hi Hw Hrest fuel. destruct (leave_wf _ _ _ Hw (goto_thread _ _ _ Hi) Hrest) as (w' & Hst & Hw').
  cbn [finish]. rewrite Hst. revert Hst. stepping.
  intros (s' & Hs & [= <-])%bind_Ok. exists s'. cbn [mbind outcome_bind].
  rewrite goto_set_ebr in *. by rewrite goto_thread by done.
Qed.

(** What a call of thread [i] leaves when no other thread disturbs it. *)
Definition call_post (i : nat) (w : world) (r : result) (cells : list cell) (o : outcome fuel_error (world * result)) : Prop :=
  exists w', o = Ok (w', r) /\ wf w' /\ view w' = cells /\ threads w' = <[i := Idle (Some r)]> (threads w) /\
    capacity (map w') = capacity (map w) /\ mask (map w') = mask (map w).

Lemma leave_post i w0 w m r fuel w1 : (i < length (threads w))%nat -> threads w = threads w0 ->
  capacity (map w) = capacity (map w0) -> mask (map w) = mask (map w0) ->
  leads i m w1 (goto i (Leave r) w) -> wf (goto i (Leave r) w) -> resting i (ebr w) = true -> (m < fuel)%nat ->
  call_post i w0 r (view w) (finish fuel i w1).
Proof.
  intros Hi Ht Hcap Hm Hl Hw Hr Hf. destruct (finish_leave _ _ _ Hi Hw Hr (fuel - m - 1)) as (s' & Hfin & Hw').
  exists (goto i (Idle (Some r)) (set_ebr s' w)). split.
  - replace fuel with (m + S (fuel - m - 1))%nat by lia. rewrite (leads_finish _ _ _ _ _ Hl). exact Hfin.
  - split; [exact Hw'|]. split; [done|]. cbn. by rewrite Ht, Hcap, Hm.
Qed.

(** After [pin] the thread is at the first probe; the table is as before. *)
Lemma enter_alone i w r a : wf w -> threads w !! i = Some (Idle r) -> may_begin i PinOp (ebr w) = true ->
  exists w0 s es c, start_call i a w = Ok w0 /\ leads i 2 w0 (goto i c (set_ebr s (extend es w))) /\
    wf (goto i c (set_ebr s (extend es w))) /\ capacity (map w0) = capacity (map w) /\
    view (set_ebr s (extend es w)) = view w /\ resting i s = true /\ bag_free i s = bag_free i (ebr w) /\
    let n := Z.to_nat (capacity (map w)) in
    match a with
    | Get k => es = [] /\ c = GetLoad k (hash (map w) k) n
    | Insert k v => es = [(k, v)] /\ c = InsertLoad (len (heap w)) (hash (map w) k) n
    | Remove k => es = [] /\ c = RemoveLoad k (hash (map w) k) n
    end.
Proof.
  intros Hw Hc Hb. destruct (start_wf w i r a Hw Hc) as (w0 & H0 & Hw0). pose proof (lookup_lt_Some _ _ _ Hc) as Hi.
  destruct (wf_phase _ Hw _ _ Hc) as (t & Ht & Hg & _). pose proof H0 as H0'. unfold start_call in H0'. rewrite Hb in H0'.
  unfold may_begin in Hb. rewrite Ht in Hb. assert (at_ t = ConcurrentEbr.Idle) as Hat by (unfold ready in Hb; by destruct (at_ t)).
  destruct (pin_alone (ebr w) i t (wf_ebr _ Hw) Ht Hat Hg) as (s1 & s & H1 & Hr1 & Htm & H2 & Hr2 & Hbag).
  rewrite H1 in H0'. injection H0' as <-. set (w0 := goto i (Enter a) (set_ebr s1 w)) in *.
  assert (threads w0 !! i = Some (Enter a)) as Hc0 by (by apply goto_thread).
  assert (thread_step i w0 = Ok (goto i (Enter a) (set_ebr s w))) as Hs1.
  { unfold thread_step. rewrite Hc0. change (ebr w0) with s1. by rewrite Hr1, H2. }
  destruct (inside_wf w0 i (Enter a) Hw0 Hc0 Hr1 (fun _ => Htm)) as (w1 & Hs1' & Hw1). rewrite Hs1 in Hs1'. injection Hs1' as <-.
  set (w1 := goto i (Enter a) (set_ebr s w)) in *. assert (threads w1 !! i = Some (Enter a)) as Hc1 by (by apply goto_thread).
  pose proof (enter_wf w1 i a Hw1 Hc1 Hr2) as Hw2. assert (thread_step i w1 = Ok (enter i a w1)) as Hs2.
  { unfold thread_step. rewrite Hc1. change (ebr w1) with s. by rewrite Hr2. }
  assert (exists es c, enter i a w1 = goto i c (set_ebr s (extend es w)) /\ idle c = false /\
    match a with
    | Get k => es = [] /\ c = GetLoad k (hash (map w) k) (Z.to_nat (capacity (map w)))
    | Insert k v => es = [(k, v)] /\ c = InsertLoad (len (heap w)) (hash (map w) k) (Z.to_nat (capacity (map w)))
    | Remove k => es = [] /\ c = RemoveLoad k (hash (map w) k) (Z.to_nat (capacity (map w)))
    end) as (es & c & He & Hid & Hca).
  { unfold goto, set_ebr, extend. destruct a; do 2 eexists; (split; [|split; [|by split]]); try done; cbn;
      rewrite ?app_nil_r; unfold goto, alloc; cbn; by rewrite list_insert_insert_eq. }
  exists w0, s, es, c. rewrite He in Hw2, Hs2. split_and!; try done.
  - exists (Enter a), w1. split_and!; try done. exists c, (goto i c (set_ebr s (extend es w))). split_and!; try done. by apply goto_thread.
  - unfold view. cbn. apply list_fmap_ext. intros j x Hx. destruct x as [| |p]; try done. cbn.
    rewrite lookup_app_l; [done|]. pose proof (owned_range w p Hw) as Hr. unfold len in Hr.
    assert (p ∈ owned w) as Hp by (unfold owned; rewrite elem_of_app; left; by eapply in_table_at). specialize (Hr Hp). lia.
Qed.

Lemma alone_get i w r key : wf w -> threads w !! i = Some (Idle r) -> may_begin i PinOp (ebr w) = true ->
  call_post i w (Got (lookup_key w key)) (view w) (alone i (Get key) w).
Proof.
  intros Hw Hc Hb. destruct (enter_alone i w r (Get key) Hw Hc Hb) as (w0 & s & es & c & He & Hl0 & Hw1 & Hcap & Hv & Hrest & Hbag & -> & ->).
  unfold alone. rewrite He. cbn [mbind outcome_bind]. rewrite Hcap. rewrite extend_nil in *. pose proof (lookup_lt_Some _ _ _ Hc) as Hi.
  edestruct (probe_loop i key (set_ebr s w) false (GetLoad key) (GetRead key) (fun _ _ _ => Leave (Got None))
    (fun _ _ _ e => Leave (Got (Some e.2)))) as (m & c & Hm & Hl & Hw2 & Hend); try done.
  { intros idx n x Hx. stepping. rewrite Hx. cbn -[goto]. destruct x; by rewrite goto_goto. }
  { intros idx n p e Hx. stepping. rewrite Hx. cbn -[goto]. case_decide; by rewrite goto_goto. }
  rewrite Hv in Hend. cbn [map set_ebr] in Hend.
  assert (exists m', (m' <= m + 1)%nat /\ leads i m' (goto i (GetLoad key (hash (map w) key) (Z.to_nat (capacity (map w)))) (set_ebr s w))
    (goto i (Leave (Got (lookup_key w key))) (set_ebr s w)) /\ wf (goto i (Leave (Got (lookup_key w key))) (set_ebr s w)))
    as (m' & Hm' & Hl' & Hw').
  { unfold lookup_key, search_key. destruct (search _ _ _ _ _ _) as [j|]; cbn [mbind option_bind].
    - exists m. split; [lia|]. destruct Hend as (n' & x & Hx & _ & Hend). unfold value_at.
      rewrite (view_at _ _ _ Hx). destruct x as [| |p]; [by subst c..|]. destruct Hend as ([k v] & Hk & _ & ->).
      change (heap w !! Z.to_nat p = Some (k, v)) in Hk. cbn [cell_of]. by rewrite Hk.
    - destruct Hend as [idx ->]. exists (m + 1)%nat. split; [lia|]. eapply leads_step; try done. stepping. by rewrite goto_goto. }
  rewrite <- Hv. apply (leave_post i w (set_ebr s w) (2 + m')); try done; [by eapply leads_trans|lia].
Qed.

(** A step that changes more than the thread's place. *)
Lemma state_step i m w0 w c c' w' : (i < length (threads w))%nat -> length (threads w') = length (threads w) ->
  leads i m w0 (goto i c w) -> wf (goto i c w) -> resting i (ebr w) = true ->
  thread_step i (goto i c w) = Ok (goto i c' w') -> idle c' = false ->
  leads i (m + 1) w0 (goto i c' w') /\ wf (goto i c' w').
Proof.
  intros Hi Hlen Hl Hw Hr Hs Hid. split.
  - eapply leads_trans; [exact Hl|]. eapply leads_one; [exact Hs|apply goto_thread; by rewrite Hlen|done].
  - eapply step_wf; [exact Hw|by apply goto_thread|done..].
Qed.

Lemma retire_step i m w0 w c p r : (i < length (threads w))%nat -> leads i m w0 (goto i c w) -> wf (goto i c w) ->
  resting i (ebr w) = true -> bag_free i (ebr w) = true ->
  (c = InsertDefer p /\ r = Inserted true) \/ (exists v, c = RemoveDefer p v /\ r = Removed (Some v)) ->
  exists s', leads i (m + 1) w0 (goto i (Leave r) (set_ebr s' w)) /\ wf (goto i (Leave r) (set_ebr s' w)) /\ resting i s' = true.
Proof.
  intros Hi Hl Hw Hrest Hroom Hc.
  destruct (defer_wf _ i c p r Hw) as (s' & Hmb & Hs & Hw'); [by apply goto_thread|destruct Hc as [[-> _]|(v & -> & _)]; eauto|].
  pose proof (defer_free _ _ _ _ Hmb Hroom Hs) as Hrest'.
  exists s'. split; [|by rewrite goto_set_ebr in Hw'].
  apply (state_step i m w0 w c (Leave r) (set_ebr s' w)); try done.
  change (ebr (goto i c w)) with (ebr w) in *.
  destruct Hc as [[-> ->]|(? & -> & ->)]; stepping; change (ebr (goto i ?c w)) with (ebr w) in *; rewrite Hs; cbn -[goto]; by rewrite goto_set_ebr.
Qed.

Lemma view_set_slot idx x w : view (set_slot idx x w) = <[Z.to_nat idx := cell_of (heap w) x]> (view w).
Proof. unfold view. cbn. by rewrite list_fmap_insert. Qed.

Lemma value_at_ptr w j p k v : table (map w) !! Z.to_nat j = Some (At p) -> heap w !! Z.to_nat p = Some (k, v) -> value_at (view w) j = Some v.
Proof. intros Hx Hk. unfold value_at. rewrite (view_at _ _ _ Hx). cbn. by rewrite Hk. Qed.

Lemma cas_hit w j (x new : slot) : table (map w) !! Z.to_nat j = Some x -> 0 <= j -> compare_exchange j x new w = Ok (Some (set_slot j new w)).
Proof. intros Hx Hj. unfold compare_exchange. rewrite (index_ok _ _ x) by done. cbn. by rewrite decide_True. Qed.

Lemma compare_exchange_goto i c j x new w : compare_exchange j x new (goto i c w) =
  match compare_exchange j x new w with Ok r => Ok (goto i c <$> r) | Err e => Err e | Panic => Panic | Ub => Ub end.
Proof. unfold compare_exchange. cbn. destruct (index (table (map w)) j) as [y| | |]; [|done..]. cbn. by case_decide. Qed.

Lemma alone_remove i w r key : wf w -> threads w !! i = Some (Idle r) -> may_begin i PinOp (ebr w) = true ->
  lookup_key w key = None \/ bag_free i (ebr w) = true ->
  call_post i w (Removed (lookup_key w key))
    match search_key false w key with
    | Some j => match value_at (view w) j with Some _ => <[Z.to_nat j := Grave]> (view w) | None => view w end
    | None => view w
    end (alone i (Remove key) w).
Proof.
  intros Hw Hc Hb Hfree. destruct (enter_alone i w r (Remove key) Hw Hc Hb) as (w0 & s & es & c & He & Hl0 & Hw1 & Hcap & Hv & Hrest & Hbag & -> & ->).
  unfold alone. rewrite He. cbn [mbind outcome_bind]. rewrite Hcap. rewrite extend_nil in *. pose proof (lookup_lt_Some _ _ _ Hc) as Hi.
  edestruct (probe_loop i key (set_ebr s w) false (RemoveLoad key) (RemoveRead key) (fun _ _ _ => Leave (Removed None))
    (fun idx n p _ => RemoveCas key idx n p)) as (m & c & Hm & Hl & Hw2 & Hend); try done.
  { intros idx n x Hx. stepping. rewrite Hx. cbn -[goto]. destruct x; by rewrite goto_goto. }
  { intros idx n p e Hx. stepping. rewrite Hx. cbn -[goto]. case_decide; by rewrite goto_goto. }
  change (view (set_ebr s w)) with (view w) in *. cbn [map set_ebr heap] in Hend. unfold lookup_key, search_key in *.
  destruct (search _ _ _ _ _ _) as [j|]; cbn [mbind option_bind].
  2:{ destruct Hend as [idx ->]. destruct (leads_step i m _ (set_ebr s w) (RemoveLoad key idx 0) (Leave (Removed None)) Hi Hl Hw2) as [H1 H2];
        [done|stepping; by rewrite goto_goto|done|].
      apply (leave_post i w (set_ebr s w) (2 + (m + 1))); try done; [by eapply leads_trans|lia]. }
  destruct Hend as (n' & x & Hx & Hj & Hend). destruct x as [| |p].
  1, 2: subst c; unfold value_at; rewrite (view_at w j _ Hx); cbn [cell_of];
    apply (leave_post i w (set_ebr s w) (2 + m)); try done; [by eapply leads_trans|lia].
  destruct Hend as ([k v] & Hk & <- & ->). rewrite (value_at_ptr w j p k v Hx Hk). cbn [fst] in *.
  assert (bag_free i s = true) as Hroom.
  { rewrite Hbag. destruct Hfree as [Hn|Hn]; [|done]. cbn [mbind option_bind] in Hn. by rewrite (value_at_ptr w j p k v Hx Hk) in Hn. }
  set (w1 := set_ebr s w) in *. set (w2 := set_slot j Tombstone w1).
  assert (length (threads w2) = length (threads w1)) as Hlen by done.
  destruct (state_step i m _ w1 _ (RemoveTake p) w2 Hi Hlen Hl Hw2) as [H1 H2]; [done| |done|].
  { stepping. rewrite compare_exchange_goto, (cas_hit w1 j (At p)) by (done || lia). cbn -[goto]. f_equal.
    by rewrite goto_goto. }
  assert (exists e, read w2 p = Ok e) as [e He2].
  { apply (read_ok (goto i (RemoveTake p) w2) i p H2). left. right. left. apply elem_of_concat_fmap. exists i, (RemoveTake p).
    split; [by apply goto_thread|by left]. }
  assert (e = (k, v)) as -> by (apply read_heap in He2; change (heap w2) with (heap w) in He2; congruence).
  destruct (leads_step i (m + 1) _ w2 _ (RemoveDefer p v) Hi H1 H2) as [H3 H4]; [done| |done|].
  { stepping. rewrite He2. cbn -[goto]. by rewrite goto_goto. }
  destruct (retire_step i (m + 1 + 1) _ w2 _ p (Removed (Some v)) Hi H3 H4) as (s' & H5 & H6 & H7); [done..|right; by exists v|].
  replace (<[Z.to_nat j := Grave]> (view w)) with (view (set_ebr s' w2)) by (apply (view_set_slot j Tombstone w1)).
  eapply (leave_post i w (set_ebr s' w2)); [exact Hi|done..|eapply leads_trans; [exact Hl0|exact H5]|exact H6|exact H7|lia].
Qed.

Lemma alone_insert i w r key value : wf w -> threads w !! i = Some (Idle r) -> may_begin i PinOp (ebr w) = true ->
  (forall j v, search_key true w key = Some j -> view w !! Z.to_nat j = Some (Full key v) -> bag_free i (ebr w) = true) ->
  call_post i w (Inserted match search_key true w key with Some _ => true | None => false end)
    match search_key true w key with
    | Some j => <[Z.to_nat j := Full key value]> (view w)
    | None => view w
    end (alone i (Insert key value) w).
Proof.
  intros Hw Hc Hb Hfree. destruct (enter_alone i w r (Insert key value) Hw Hc Hb) as (w0 & s & es & c & He & Hl0 & Hw1 & Hcap & Hv & Hrest & Hbag & -> & ->).
  unfold alone. rewrite He. cbn [mbind outcome_bind]. rewrite Hcap. pose proof (lookup_lt_Some _ _ _ Hc) as Hi.
  set (new := len (heap w)) in *. set (w1 := set_ebr s (extend [(key, value)] w)) in *.
  assert (heap w1 !! Z.to_nat new = Some (key, value)) as Hnew.
  { cbn. unfold new, len. rewrite Nat2Z.id, lookup_app_r, Nat.sub_diag by done. done. }
  assert (exists e, read w1 new = Ok e) as [e Hread].
  { apply (read_ok (goto i (InsertLoad new (hash (map w) key) (Z.to_nat (capacity (map w)))) w1) i new Hw1). right.
    eapply protected_private; [by apply goto_thread|done]. }
  assert (e = (key, value)) as -> by (apply read_heap in Hread; congruence).
  edestruct (probe_loop i key w1 true (InsertLoad new) (InsertRead new) (InsertCas new)
    (fun idx n p _ => InsertCas new idx n (At p))) as (m & c & Hm & Hl & Hw2 & Hend); try done.
  { intros idx n x Hx. stepping. rewrite Hx. cbn -[goto]. destruct x; by rewrite goto_goto. }
  { intros idx n p e Hx. stepping. rewrite Hx, Hread. cbn -[goto]. case_decide; by rewrite goto_goto. }
  rewrite Hv in Hend. change (map w1) with (map w) in Hend. unfold search_key in *.
  destruct (search _ _ _ _ _ _) as [j|].
  2:{ destruct Hend as [idx ->]. assert (length (threads (drop_box new w1)) = length (threads w1)) as Hlen by done.
      destruct (state_step i m _ w1 (InsertLoad new idx 0) (Leave (Inserted false)) (drop_box new w1) Hi Hlen Hl Hw2) as [H1 H2];
        [done|stepping|done|].
      { unfold goto, drop_box. cbn. by rewrite list_insert_insert_eq. }
      rewrite <- Hv. change (view w1) with (view (drop_box new w1)).
      apply (leave_post i w (drop_box new w1) (2 + (m + 1))); try done; [by eapply leads_trans|lia]. }
  destruct Hend as (n' & x & Hx & Hj & Hend). set (w2 := set_slot j (At new) w1).
  assert (length (threads w2) = length (threads w1)) as Hlen by done.
  assert (view w2 = <[Z.to_nat j := Full key value]> (view w)) as Hview.
  { unfold w2. rewrite view_set_slot, Hv. unfold cell_of. by rewrite Hnew. }
  assert (c = InsertCas new j n' x) as -> by (destruct x; [done..|by destruct Hend as (e & _ & _ & ->)]).
  assert (thread_step i (goto i (InsertCas new j n' x) w1) =
    Ok (goto i match x with At p => InsertDefer p | _ => Leave (Inserted true) end w2)) as Hcas.
  { stepping. rewrite compare_exchange_goto, (cas_hit w1 j x) by (done || lia). cbn -[goto]. by rewrite goto_goto. }
  rewrite <- Hview.
  destruct (state_step i m _ w1 _ match x with At p => InsertDefer p | _ => Leave (Inserted true) end w2 Hi Hlen Hl Hw2)
    as [H1 H2]; [done|exact Hcas|by destruct x|].
  destruct x as [| |p].
  1, 2: apply (leave_post i w w2 (2 + (m + 1))); try done; [by eapply leads_trans|lia].
  assert (bag_free i s = true) as Hroom.
  { rewrite Hbag. destruct Hend as ([k v] & Hk & <- & _). eapply (Hfree j v eq_refl). rewrite <- Hv.
    rewrite (view_at w1 j (At p)) by done. unfold cell_of. by rewrite Hk. }
  destruct (retire_step i (m + 1) _ w2 _ p (Inserted true) Hi H1 H2) as (s' & H5 & H6 & H7); [done..|by left|].
  change (view w2) with (view (set_ebr s' w2)).
  eapply (leave_post i w (set_ebr s' w2)); [exact Hi|done..|eapply leads_trans; [exact Hl0|exact H5]|exact H6|exact H7|lia].
Qed.

(** ** The table as a finite map *)

Definition pass_cell (reuse : bool) (key : K) (cells : list cell) (idx : Z) : Prop :=
  match cells !! Z.to_nat idx with
  | Some (Full k _) => k <> key
  | Some Grave => reuse = false
  | _ => False
  end.
Definition stop_cell (reuse : bool) (key : K) (cells : list cell) (idx : Z) : Prop :=
  match cells !! Z.to_nat idx with
  | Some (Full k _) => k = key
  | Some Grave => reuse = true
  | Some Free => True
  | None => False
  end.

(** The probe after [j] others from [idx]. *)
Definition probe (m : ConcurrentHashMap) (idx : Z) (j : nat) : Z := (idx + Z.of_nat j) mod capacity m.

Lemma probe_range m idx j : map_ok m -> 0 <= probe m idx j < capacity m.
Proof. intros Hm. apply Z.mod_pos_bound. by apply map_ok_pos. Qed.

Lemma probe_0 m idx : 0 <= idx < capacity m -> probe m idx 0 = idx.
Proof. intros Hi. unfold probe. rewrite Z.add_0_r. by apply Z.mod_small. Qed.

Lemma probe_next m idx j : map_ok m -> probe m (next m idx) j = probe m idx (S j).
Proof.
  intros Hm. unfold probe, next. rewrite map_ok_mod by done. pose proof (map_ok_pos _ Hm).
  rewrite Z.add_mod_idemp_l by lia. f_equal. lia.
Qed.

Lemma search_Some reuse m key cells n idx r : map_ok m -> 0 <= idx < capacity m ->
  search reuse m key idx n cells = Some r <->
  exists j, (j < n)%nat /\ r = probe m idx j /\ stop_cell reuse key cells r /\
    forall j', (j' < j)%nat -> pass_cell reuse key cells (probe m idx j').
Proof.
  intros Hm. revert idx. induction n as [|n IH]; intros idx Hi; cbn [search]; [split; [done|by intros (? & ? & _); lia]|].
  assert (pass_cell reuse key cells idx -> search reuse m key (next m idx) n cells = Some r <->
    exists j, (j < S n)%nat /\ r = probe m idx j /\ stop_cell reuse key cells r /\
      forall j', (j' < j)%nat -> pass_cell reuse key cells (probe m idx j')) as Hpass.
  { intros Hp. rewrite (IH (next m idx)) by (by apply next_ok). split.
    - intros (j & Hj & -> & Hs & Hb). exists (S j). rewrite probe_next in * by done. split_and!; [lia|done..|].
      intros [|j'] Hj'; [by rewrite probe_0|]. rewrite <- probe_next by done. apply Hb. lia.
    - intros ([|j] & Hj & -> & Hs & Hb).
      + exfalso. rewrite probe_0 in Hs by done. unfold pass_cell, stop_cell in *.
        destruct (cells !! Z.to_nat idx) as [[]|]; destruct reuse; done.
      + exists j. rewrite probe_next by done. split_and!; [lia|done..|]. intros j' Hj'. rewrite probe_next by done. apply Hb. lia. }
  assert (stop_cell reuse key cells idx -> Some idx = Some r <->
    exists j, (j < S n)%nat /\ r = probe m idx j /\ stop_cell reuse key cells r /\
      forall j', (j' < j)%nat -> pass_cell reuse key cells (probe m idx j')) as Hstop.
  { intros Hs. split.
    - intros [= <-]. exists 0%nat. rewrite probe_0 by done. split_and!; [lia|done..|lia].
    - intros ([|j] & Hj & -> & _ & Hb); [by rewrite probe_0|]. exfalso. specialize (Hb 0%nat ltac:(lia)). rewrite probe_0 in Hb by done.
      unfold pass_cell, stop_cell in *. destruct (cells !! Z.to_nat idx) as [[]|]; destruct reuse; done. }
  unfold pass_cell at 1 in Hpass. unfold stop_cell at 1 in Hstop.
  destruct (cells !! Z.to_nat idx) as [[| |k v]|] eqn:Hc.
  - by apply Hstop.
  - destruct reuse; [by apply Hstop|by apply Hpass].
  - case_decide; [by apply Hstop|by apply Hpass].
  - split; [done|]. intros ([|j] & _ & -> & Hs & Hb).
    + rewrite probe_0 in Hs by done. unfold stop_cell in Hs. by rewrite Hc in Hs.
    + specialize (Hb 0%nat ltac:(lia)). rewrite probe_0 in Hb by done. unfold pass_cell in Hb. by rewrite Hc in Hb.
Qed.

Lemma search_None reuse m key cells n idx j : map_ok m -> 0 <= idx < capacity m -> length cells = Z.to_nat (capacity m) ->
  search reuse m key idx n cells = None -> (j < n)%nat -> pass_cell reuse key cells (probe m idx j).
Proof.
  intros Hm Hi Hlen. revert idx j Hi. induction n as [|n IH]; intros idx j Hi Hs Hj; [lia|].
  assert (pass_cell reuse key cells idx /\ search reuse m key (next m idx) n cells = None) as [Hp Hn].
  { cbn [search] in Hs. unfold pass_cell. destruct (lookup_lt_is_Some_2 cells (Z.to_nat idx)) as [x Hx]; [lia|]. rewrite Hx in *.
    destruct x; [done|by destruct reuse|by case_decide]. }
  destruct j as [|j]; [by rewrite probe_0|]. rewrite <- probe_next by done. apply IH; [by apply next_ok|done|lia].
Qed.

Section represents.
  Context `{!Countable K}.

(** Every entry is the one found under its key (so no key is there twice), and the
    entries are those of [M]. *)
Definition entries (m : ConcurrentHashMap) (cells : list cell) (M : gmap K V) : Prop :=
  (forall idx k v, 0 <= idx -> cells !! Z.to_nat idx = Some (Full k v) ->
    search false m k (hash m k) (Z.to_nat (capacity m)) cells = Some idx) /\
  (forall k v, M !! k = Some v <-> exists idx, 0 <= idx /\ cells !! Z.to_nat idx = Some (Full k v)).

Lemma entries_lookup m cells M key : map_ok m -> entries m cells M ->
  search false m key (hash m key) (Z.to_nat (capacity m)) cells ≫= value_at cells = M !! key.
Proof.
  intros Hm [Hf HM]. destruct (M !! key) as [v|] eqn:HMk.
  - apply HM in HMk as (idx & Hi & Hc). rewrite (Hf _ _ _ Hi Hc). cbn. unfold value_at. by rewrite Hc.
  - destruct (search _ _ _ _ _ _) as [r|] eqn:Hs; [|done]. cbn.
    apply search_Some in Hs as (j & _ & -> & Hst & _); [|done|by apply hash_ok]. unfold stop_cell, value_at in *.
    destruct (cells !! Z.to_nat _) as [[| |k v]|] eqn:Hc; try done. subst k. exfalso.
    assert (M !! key = Some v) as H; [|congruence]. apply HM. eexists. split; [|exact Hc]. by apply probe_range.
Qed.

(** Putting in cell [r] something another key's probes pass leaves the other key
    where it was. *)
Lemma search_insert m k idx n cells r x i : map_ok m -> 0 <= idx < capacity m -> length cells = Z.to_nat (capacity m) ->
  search false m k idx n cells = Some i -> r <> i -> 0 <= r ->
  match x with Full k' _ => k' <> k | Grave => True | Free => False end ->
  search false m k idx n (<[Z.to_nat r := x]> cells) = Some i.
Proof.
  intros Hm Hi Hlen (j & Hj & -> & Hs & Hb)%search_Some Hr Hr0 Hx; [|done..]. apply search_Some; [done..|].
  exists j. pose proof (probe_range m idx j Hm).
  split_and!; [done..| |].
  - unfold stop_cell. rewrite list_lookup_insert_ne by lia. exact Hs.
  - intros j' Hj'. specialize (Hb j' Hj'). unfold pass_cell in *.
    destruct (decide (Z.to_nat r = Z.to_nat (probe m idx j'))) as [He|He].
    + rewrite He, list_lookup_insert_eq; [by destruct x|]. destruct (cells !! Z.to_nat (probe m idx j')) eqn:Hc; [|done].
      by eapply lookup_lt_Some.
    + by rewrite list_lookup_insert_ne.
Qed.

Lemma search_range reuse m key idx n cells r : map_ok m -> 0 <= idx < capacity m ->
  search reuse m key idx n cells = Some r -> 0 <= r < capacity m.
Proof.
  intros Hm Hi (j & _ & -> & _)%search_Some; [|done..]. by apply probe_range.
Qed.

(** Where a key's probes stop, it is found once it is put there. *)
Lemma search_put reuse m key idx n cells r v : map_ok m -> 0 <= idx < capacity m -> length cells = Z.to_nat (capacity m) ->
  search reuse m key idx n cells = Some r -> search false m key idx n (<[Z.to_nat r := Full key v]> cells) = Some r.
Proof.
  intros Hm Hi Hlen Hs. pose proof (search_range _ _ _ _ _ _ _ Hm Hi Hs) as Hr. apply search_Some in Hs as (j & Hj & -> & Hs & Hb); [|done..].
  apply search_Some; [done..|]. exists j. split_and!; [done..| |].
  - unfold stop_cell. rewrite list_lookup_insert_eq by lia. done.
  - intros j' Hj'. specialize (Hb j' Hj'). unfold pass_cell, stop_cell in *.
    destruct (decide (Z.to_nat (probe m idx j) = Z.to_nat (probe m idx j'))) as [He|He].
    + exfalso. rewrite He in Hs. destruct (cells !! Z.to_nat (probe m idx j')) as [[]|]; destruct reuse; done.
    + rewrite list_lookup_insert_ne by done. by destruct (cells !! Z.to_nat (probe m idx j')) as [[]|]; destruct reuse.
Qed.

(** When [insert] does not stop at a removed entry, [get] stops there too. *)
Lemma search_reuse m key idx n cells r : map_ok m -> 0 <= idx < capacity m ->
  search true m key idx n cells = Some r -> cells !! Z.to_nat r <> Some Grave -> search false m key idx n cells = Some r.
Proof.
  intros Hm Hi (j & Hj & -> & Hs & Hb)%search_Some Hg; [|done..]. apply search_Some; [done..|]. exists j.
  unfold pass_cell, stop_cell in *. split_and!; [done..|by destruct (cells !! _) as [[]|]|].
  intros j' Hj'. specialize (Hb j' Hj'). by destruct (cells !! Z.to_nat (probe m idx j')) as [[]|].
Qed.

Lemma lookup_put (cells : list cell) r idx x y : 0 <= r -> 0 <= idx -> <[Z.to_nat r := x]> cells !! Z.to_nat idx = Some y ->
  (idx = r /\ y = x) \/ (idx <> r /\ cells !! Z.to_nat idx = Some y).
Proof.
  intros Hr Hi [(He & <- & _)|[Hne H]]%list_lookup_insert_Some; [left; split; [lia|done]|right; split; [by intros ->|done]].
Qed.

Lemma entries_insert m cells M key value r : map_ok m -> length cells = Z.to_nat (capacity m) -> entries m cells M ->
  search true m key (hash m key) (Z.to_nat (capacity m)) cells = Some r ->
  M !! key = None \/ cells !! Z.to_nat r <> Some Grave ->
  entries m (<[Z.to_nat r := Full key value]> cells) (<[key := value]> M).
Proof.
  intros Hm Hlen [Hf HM] Hs Hg. pose proof (hash_ok m key Hm) as Hh.
  pose proof (search_range _ _ _ _ _ _ _ Hm Hh Hs) as Hr.
  assert (forall idx v, 0 <= idx -> cells !! Z.to_nat idx = Some (Full key v) -> idx = r) as Huniq.
  { intros idx v Hi Hc. destruct Hg as [Hg|Hg].
    - assert (M !! key = Some v) as H; [apply HM; by exists idx|congruence].
    - pose proof (search_reuse _ _ _ _ _ _ Hm Hh Hs Hg). specialize (Hf _ _ _ Hi Hc). congruence. }
  assert (forall k v, cells !! Z.to_nat r = Some (Full k v) -> k = key) as Hold.
  { intros k v Hc. apply search_Some in Hs as (j & _ & -> & Hst & _); [|done..]. unfold stop_cell in Hst. by rewrite Hc in Hst. }
  split.
  - intros idx k v Hi [[-> [= -> ->]]|[Hne Hc]]%lookup_put; [by eapply search_put| |lia|done].
    eapply search_insert; [done|by apply hash_ok|done|by apply Hf with v| |lia|].
    + by intros ->.
    + intros ->. by apply Hne, (Huniq idx v).
  - intros k v. destruct (decide (k = key)) as [->|Hk].
    + rewrite lookup_insert_eq. split.
      * intros [= ->]. exists r. rewrite list_lookup_insert_eq by lia. split; [lia|done].
      * intros (idx & Hi & [[_ [= ->]]|[Hne Hc]]%lookup_put); [done| |lia|done]. by apply Huniq in Hc.
    + rewrite lookup_insert_ne by done. rewrite HM. split; intros (idx & Hi & Hc); exists idx; (split; [done|]).
      * rewrite list_lookup_insert_ne; [done|]. intros He. rewrite <- He in Hc. by apply Hold in Hc.
      * apply lookup_put in Hc as [[_ [= -> _]]|[_ Hc]]; [done|done|lia|done].
Qed.

Lemma entries_remove m cells M key r v : map_ok m -> length cells = Z.to_nat (capacity m) -> entries m cells M ->
  0 <= r -> cells !! Z.to_nat r = Some (Full key v) ->
  entries m (<[Z.to_nat r := Grave]> cells) (delete key M).
Proof.
  intros Hm Hlen [Hf HM] Hr Hc. pose proof (Hf _ _ _ Hr Hc) as Hs. split.
  - intros idx k v' Hi [[_ [=]]|[Hne Hc']]%lookup_put; [|done..].
    eapply search_insert; [done|by apply hash_ok|done|by apply Hf with v'|by intros ->|done..].
  - intros k v'. rewrite lookup_delete_Some, HM. split.
    + intros (Hk & idx & Hi & Hc'). exists idx. split; [done|]. rewrite list_lookup_insert_ne; [done|].
      intros He. rewrite He in Hc. congruence.
    + intros (idx & Hi & [[_ [=]]|[Hne Hc']]%lookup_put); [|done..]. split; [|by exists idx].
      intros <-. specialize (Hf _ _ _ Hi Hc'). congruence.
Qed.

Lemma entries_mask m m' cells M : mask m' = mask m -> capacity m' = capacity m -> entries m cells M -> entries m' cells M.
Proof.
  intros Hma Hca. assert (forall b k n idx, search b m' k idx n cells = search b m k idx n cells) as Hs.
  { intros b k n. induction n as [|n IH]; intros idx; [done|]. cbn. unfold next. rewrite Hma. by rewrite IH. }
  unfold entries, hash. rewrite Hma, Hca. by setoid_rewrite Hs.
Qed.

(** The state between calls: the map holds [M]. *)
Definition represents (w : world) (M : gmap K V) : Prop := wf w /\ entries (map w) (view w) M.

Lemma view_length w : wf w -> length (view w) = Z.to_nat (capacity (map w)).
Proof. intros Hw. unfold view. rewrite length_fmap. destruct (wf_map _ Hw) as (_ & _ & Hl). unfold len in Hl. lia. Qed.

Definition ends_in (o : outcome fuel_error (world * result)) (r : result) (M : gmap K V) : Prop :=
  exists w', o = Ok (w', r) /\ represents w' M.

Lemma ends_in_post i w r cells o M : call_post i w r cells o -> entries (map w) cells M -> ends_in o r M.
Proof.
  intros (w' & -> & Hw' & Hv & _ & Hcap & Hmask) He. exists w'. split; [done|]. split; [done|]. rewrite Hv. by eapply entries_mask.
Qed.

Lemma lookup_cell m cells key n r v : map_ok m -> search false m key (hash m key) n cells = Some r -> value_at cells r = Some v ->
  0 <= r /\ cells !! Z.to_nat r = Some (Full key v).
Proof.
  intros Hm Hs Hv. pose proof (search_range _ _ _ _ _ _ _ Hm (hash_ok _ key Hm) Hs) as Hr. split; [lia|].
  apply search_Some in Hs as (j & _ & _ & Hst & _); [|done|by apply hash_ok]. unfold value_at, stop_cell in *.
  destruct (cells !! Z.to_nat r) as [[]|]; congruence.
Qed.

(** [insert] finds no place only when every cell holds another key. *)
Lemma full_cells m cells key idx : map_ok m -> length cells = Z.to_nat (capacity m) ->
  search true m key (hash m key) (Z.to_nat (capacity m)) cells = None -> 0 <= idx < capacity m ->
  exists k v, cells !! Z.to_nat idx = Some (Full k v) /\ k <> key.
Proof.
  intros Hm Hlen Hs Hidx. pose proof (map_ok_pos _ Hm) as Hpos. pose proof (Z.mod_pos_bound (idx - hash m key) _ Hpos).
  pose proof (search_None _ _ _ _ _ _ (Z.to_nat ((idx - hash m key) mod capacity m)) Hm (hash_ok _ key Hm) Hlen Hs) as Hpass.
  unfold probe, pass_cell in Hpass. rewrite Z2Nat.id in Hpass by lia. rewrite Z.add_mod_idemp_r in Hpass by lia.
  replace (hash m key + (idx - hash m key)) with idx in Hpass by lia. rewrite (Z.mod_small idx) in Hpass by done.
  specialize (Hpass ltac:(lia)). destruct (cells !! Z.to_nat idx) as [[| |k v]|]; [done..| |done]. by exists k, v.
Qed.

Lemma empty_represents w : wf w -> view w = replicate (Z.to_nat (capacity (map w))) Free -> represents w ∅.
Proof.
  intros Hw Hv. split; [done|]. rewrite Hv.
  assert (forall idx k v, replicate (Z.to_nat (capacity (map w))) Free !! idx <> Some (Full k v)) as Hfree by (by intros idx k v [[=] _]%lookup_replicate).
  split; [by intros idx k v _ H%Hfree|]. intros k v. split; [by rewrite lookup_empty|]. by intros (idx & _ & H%Hfree).
Qed.

(** C19: A finite map: a call that no other thread disturbs, of a thread that has
    its [ThreadLocalLocal] and is in no call, returns what the map says and changes
    it as the map operations do.  [remove] and [insert] of a key that is there
    retire an entry, and need room in the calling thread's bag of the current
    epoch.  [insert] needs that it does not meet a removed entry before the key it
    replaces; it gives up only when every cell holds another key, and then changes
    nothing. *)
Theorem map_refines_gmap w i M last key value :
  represents w M -> threads w !! i = Some (Idle last) -> may_begin i PinOp (ebr w) = true ->
  ends_in (alone i (Get key) w) (Got (M !! key)) M /\
  (M !! key = None \/ bag_free i (ebr w) = true ->
   ends_in (alone i (Remove key) w) (Removed (M !! key)) (delete key M) /\
   match search_key true w key with
   | Some r => M !! key = None \/ view w !! Z.to_nat r <> Some Grave ->
       ends_in (alone i (Insert key value) w) (Inserted true) (<[key := value]> M)
   | None => ends_in (alone i (Insert key value) w) (Inserted false) M /\
       forall idx, 0 <= idx < capacity (map w) -> exists k v, view w !! Z.to_nat idx = Some (Full k v) /\ k <> key
   end).
Proof.
  intros [Hw He] Hc Hb. pose proof (wf_map _ Hw) as Hm. pose proof (view_length _ Hw) as Hlen.
  pose proof (entries_lookup _ _ _ key Hm He) as Hlook. change (lookup_key w key = M !! key) in Hlook.
  split; [rewrite <- Hlook; eapply ends_in_post; [by eapply alone_get|done]|]. intros Hf. split.
  - pose proof (alone_remove i w last key Hw Hc Hb) as Hp. rewrite Hlook in Hp. eapply ends_in_post; [by apply Hp|].
    unfold lookup_key in Hlook. destruct (search_key false w key) as [r|] eqn:Hs; cbn in Hlook; [|rewrite delete_id; [done|by rewrite <- Hlook]].
    rewrite Hlook. destruct (M !! key) as [v|] eqn:HMk; [|by rewrite delete_id].
    destruct (lookup_cell _ _ _ _ _ _ Hm Hs Hlook). by eapply entries_remove.
  - pose proof (alone_insert i w last key value Hw Hc Hb) as Hp. destruct (search_key true w key) as [r|] eqn:Hs.
    + intros Hg. eapply ends_in_post; [apply Hp|by apply entries_insert]. intros j v [= <-] Hj. destruct Hf as [Hn|]; [|done].
      apply search_range in Hs; [|done|by apply hash_ok]. assert (M !! key = Some v) as Hv; [|congruence].
      apply He. exists r. split; [lia|done].
    + split; [by eapply ends_in_post; [apply Hp|]|]. intros idx Hidx. by eapply full_cells.
Qed.


End represents.

End map.

(** ** Examples, over integer keys that are their own hashes *)

Definition zworld : Type := world (K := Z) (V := Z).
Definition zhash (k : Z) : Z := k.
Definition no_world : zworld := mk_world (mk_ConcurrentHashMap 0 0 []) [] [] empty_machine [].
(** [n] threads, registered one after another. *)
Definition registering (n : nat) : list (action (K := Z) (V := Z)) :=
  concat ((fun i => Collect i New :: replicate i (Step i)) <$> List.seq 0 n).
Definition zopen (cap : Z) (n : nat) : zworld := value no_world (w ← open cap n; run_actions zhash (registering n) w).

Lemma zopen_reachable cap n w0 : open cap n = Ok w0 -> run_may zhash (registering n) w0 = true ->
  run_actions zhash (registering n) w0 = Ok (zopen cap n) -> reachable_world zhash cap n (zopen cap n).
Proof. intros H0 Hm Hr. eapply run_may_reachable; [by apply reachable_open|done..]. Qed.

(** While thread 0 holds the entry of key 1, thread 1 replaces it, and its flushes
    free nothing until thread 0 has left. *)
Definition flush_actions (i : nat) : list (action (K := Z) (V := Z)) := Collect i FlushOp :: replicate call_steps (Step i).
Definition safe_actions : list (action (K := Z) (V := Z)) :=
  [Start 1 (Insert 1 10)] ++ replicate 5 (Step 1) ++ [Start 0 (Get 1)] ++ replicate 3 (Step 0) ++
  [Start 1 (Insert 1 11)] ++ replicate 7 (Step 1) ++ flush_actions 1 ++ flush_actions 1 ++ flush_actions 1.
Definition safe_end : zworld := value no_world (run_actions zhash safe_actions (zopen 4 2)).

Lemma map_memory_safe_witness :
  due (ebr safe_end) = [(0, [0%nat])] /\ gone (ebr safe_end) = [] /\ changes (ebr safe_end) = 1 /\
  exists w', act zhash (Step 0) safe_end = Ok w'.
Proof.
  split_and!; [vm_compute; reflexivity..|]. apply (map_memory_safe zhash 4 2 safe_end).
  - eapply (run_may_reachable zhash 4 2 safe_actions (zopen 4 2)); [|vm_compute; reflexivity..].
    eapply zopen_reachable; vm_compute; reflexivity.
  - apply may_actb_may. vm_compute. reflexivity.
Defined.

Definition after (r : outcome fuel_error (zworld * result (V := Z))) : zworld := match r with Ok (w, _) => w | _ => no_world end.
Definition one_entry : zworld := after (alone zhash 0 (Insert 1 10) (zopen 4 1)).

Lemma map_refines_gmap_witness :
  ends_in zhash (alone zhash 0 (Get 1) one_entry) (Got ((<[1 := 10]> ∅ : gmap Z Z) !! 1)) (<[1 := 10]> ∅).
Proof.
  assert (represents zhash one_entry (<[1 := 10]> ∅)) as H1.
  { pose proof (map_refines_gmap zhash (zopen 4 1) 0 ∅ None 1 10) as H. destruct H as (_ & H).
    - apply empty_represents; [|vm_compute; reflexivity]. apply (reachable_wf zhash 4 1). eapply zopen_reachable; vm_compute; reflexivity.
    - vm_compute. reflexivity.
    - vm_compute. reflexivity.
    - destruct H as [_ H]; [left; apply lookup_empty|].
      replace (search_key zhash true (zopen 4 1) 1) with (Some 1) in H by (vm_compute; reflexivity).
      destruct H as (w' & Hw' & H); [left; apply lookup_empty|]. unfold one_entry. by rewrite Hw'. }
  refine (proj1 (map_refines_gmap zhash one_entry 0 (<[1 := 10]> ∅) (Some (Inserted true)) 1 0 H1 _ _)); vm_compute; reflexivity.
Defined.

(** The results of calls by one thread. *)
Fixpoint results (l : list (call (K := Z) (V := Z))) (w : zworld) : list (result (V := Z)) :=
  match l with
  | [] => []
  | a :: l => match alone zhash 0 a w with Ok (w, r) => r :: results l w | _ => [] end
  end.

(** Keys 0 and 4 have the same hash in a table of four. *)
Definition stale_calls : list (call (K := Z) (V := Z)) :=
  [Insert 0 1; Insert 4 2; Remove 0; Insert 4 3; Remove 4; Get 4].
(** Thread 1 inserts twice at the cell thread 0 is about to take. *)
Definition spurious_actions : list (action (K := Z) (V := Z)) :=
  [Start 0 (Insert 0 1)] ++ replicate 3 (Step 0) ++ [Start 1 (Insert 0 2)] ++ replicate 5 (Step 1) ++ replicate 3 (Step 0) ++
  [Start 1 (Insert 0 3)] ++ replicate 7 (Step 1) ++ replicate 3 (Step 0).
Definition spurious_end : zworld := value no_world (run_actions zhash spurious_actions (zopen 2 2)).

(** What [insert] gets wrong: it reuses a removed cell without looking for the
    key behind it, so the key is there twice and a removed value comes back; and a
    failed compare-and-swap uses up an iteration, so under contention it gives up
    on a table with free cells. *)
Theorem map_insert_anomalies :
  results stale_calls (zopen 4 1) =
    [Inserted true; Inserted true; Removed (Some 1); Inserted true; Removed (Some 3); Got (Some 2)] /\
  threads spurious_end !! 0%nat = Some (Idle (Some (Inserted false))) /\ view spurious_end !! 1%nat = Some Free.
Proof. split_and!; vm_compute; reflexivity. Qed.
