(* ===== verification/Engine.v ===== *)
(** * The storage engine (tier3_storage/src/engine.rs)

    [EngineNode]: [open], [put], [delete], [get], [freeze_active_memtable], and
    the work of a background thread on one flush task.  The threads interleave
    with the owner's calls as a step relation: a worker takes a task from the
    queue, writes and opens the table, and publishes it under the compactor's
    lock.  Of the epoch guards only the check of the thread index is here: the
    engine retires nothing, so a guard protects nothing that it frees.  The panic
    of a rotation whose new log does not open is a panic of [put].  The queue is the
    bounded first-in first-out list that Queue.v refines. *)

From Stdlib Require Import Ascii.
From stdpp Require Import gmap strings.
From S2P Require Import Ebr.
From S2P Require Import Prelude Paths WalRecord WalWriter BinarySearch Block Footer SSTable SSTableReader.
From S2P Require Import Merge Compaction SkipList MemTable.
#[local] Open Scope Z_scope.

Definition QUEUE_CAPACITY : Z := 1024.

(** The name of the table a log is flushed to. *)
Definition sst_id_of (wal_path : path) : Z :=
  match strip_prefix "wal." (file_name wal_path) with
  | Some s => default 0 (parse_u64 s)
  | None => 0
  end.
Definition sst_path_of (wal_path : path) : path :=
  with_extension wal_path ("sst." ++ show_u64 (sst_id_of wal_path))%string.

(** [Option::unwrap]. *)
Definition unwrap {E A} (o : option A) : outcome E A := match o with Some a => Ok a | None => Panic end.

Section engine.
  Context (crc32 : bytes -> Z) (pwrite : bytes -> bytes -> Z -> bytes * Z) (ftruncate : bytes -> Z -> bytes * Z).
  Context `{F : FileOps} `{BH : BinaryHeap} `{BS : BinarySearch} (avx2 : bool).

(** What the threads share behind the compactor's lock: the files and the
    compactor, and whether a thread panicked while it held the lock. *)
Record shared := mk_shared { sh_world : world; poisoned : bool }.

(** A background thread: idle, holding a task it popped, holding a table it
    built, or ended by a panic. *)
Inductive worker :=
| Idle
| Popped (t : FlushTask)
| Built (t : FlushTask) (sst_path : path) (smallest largest : bytes)
| Dead.

Record EngineNode := mk_EngineNode {
  e_active_mem : ConcurrentSkipList;
  e_imm_mem : option ConcurrentSkipList;
  e_wal : WalWriter;
  e_wal_path : path;
  e_flush_queue : list FlushTask;
  e_shared : shared;
  e_workers : list worker;
  e_rng : Z
}.

(** [EngineNode::open] on a directory with these files. *)
Definition EngineNode_open (dir : string) (fs : gmap path bytes) (seed : Z) : EngineNode :=
  let wal_path := mk_path dir "active.wal" in
  let wal := WalWriter_open (default [] (fs !! wal_path)) in
  mk_EngineNode ConcurrentSkipList_new None wal wal_path [] (mk_shared (mk_world (base.delete wal_path fs)
    (LeveledCompactor_new dir 1)) false) [Idle; Idle] seed.

(** ** Writes *)

(** [self.wal.append(&payload)?] *)
Definition e_wal_append (payload : bytes) : st EngineNode write_error unit := fun s =>
  let '(w, r) := WalWriter.append crc32 pwrite payload (e_wal s) in
  (mk_EngineNode (e_active_mem s) (e_imm_mem s) w (e_wal_path s) (e_flush_queue s) (e_shared s) (e_workers s) (e_rng s),
   match r with Ok _ => Ok tt | Err e => Err (Wal e) | Panic => Panic | Ub => Ub end).

(** [self.active_mem.insert(..)] *)
Definition e_mem_insert (weak_ok : bool) (key : bytes) (value : option bytes) (seq : Z) : st EngineNode write_error unit := fun s =>
  match SkipList.insert weak_ok key value seq (e_active_mem s) (e_rng s) with
  | Ok (mem, rng) =>
      (mk_EngineNode mem (e_imm_mem s) (e_wal s) (e_wal_path s) (e_flush_queue s) (e_shared s) (e_workers s) rng, Ok tt)
  | Err e => (s, Err e)
  | Panic => (s, Panic)
  | Ub => (s, Ub)
  end.

(** [MPMCQueue::push]: a full queue gives the task back, and it is dropped. *)
Definition push_task (t : FlushTask) (q : list FlushTask) : list FlushTask :=
  if len q <? QUEUE_CAPACITY then q ++ [t] else q.

(** [opens] is whether [WalWriter::open] of the next log succeeds.  When it does
    not, [expect] panics: the memtable is frozen and the path is the next one, but
    the log that is written is the old one, and no task was pushed. *)
Definition freeze_active_memtable (opens : bool) : st EngineNode write_error unit := fun s =>
  match e_imm_mem s with
  | Some _ => (s, Ok tt)
  | None =>
      let old_mem := e_active_mem s in
      match iter_all (E := write_error) old_mem with
      | Ok es =>
          let next_wal_path := rotated (e_wal_path s) (max_seq es) in
          let old_wal_path := e_wal_path s in
          let w := sh_world (e_shared s) in
          if negb opens then
            (mk_EngineNode ConcurrentSkipList_new (Some old_mem) (e_wal s) next_wal_path
               (e_flush_queue s) (e_shared s) (e_workers s) (e_rng s), Panic)
          else
          let new_wal := WalWriter_open (default [] (files w !! next_wal_path)) in
          let '(old_wal, _) := truncate_to_logical_end ftruncate (e_wal s) in
          let fs := <[old_wal_path := WalWriter.file old_wal]> (base.delete next_wal_path (files w)) in
          (mk_EngineNode ConcurrentSkipList_new (Some old_mem) new_wal next_wal_path
             (push_task (mk_FlushTask old_mem old_wal_path) (e_flush_queue s))
             (mk_shared (mk_world fs (compactor w)) (poisoned (e_shared s))) (e_workers s) (e_rng s), Ok tt)
      | Err e => (s, Err e)
      | Panic => (s, Panic)
      | Ub => (s, Ub)
      end
  end.

Definition write_internal (weak_ok opens : bool) (key : bytes) (value : option bytes) (seq : Z) : st EngineNode write_error unit :=
  e_wal_append (wal_payload key value);;
  e_mem_insert weak_ok key value seq;;
  s ← get_state;
  if MEMTABLE_LIMIT <=? approximate_size (e_active_mem s) then freeze_active_memtable opens else mret tt.

(** [collector.pin(thread_idx)]: an index outside of the registry panics. *)
Definition pin_index {E} (thread_idx : nat) : outcome E unit :=
  if (thread_idx <? MAX_THREADS)%nat then Ok tt else Panic.

Definition put (weak_ok opens : bool) (key value : bytes) (seq : Z) (thread_idx : nat) : st EngineNode write_error unit :=
  lift (pin_index thread_idx);;
  write_internal weak_ok opens key (Some value) seq.
Definition delete (weak_ok opens : bool) (key : bytes) (seq : Z) (thread_idx : nat) : st EngineNode write_error unit :=
  lift (pin_index thread_idx);;
  write_internal weak_ok opens key None seq.

(** ** Reads *)

(** [SSTableReader::open(&table.path)] and [reader.get(key)]: a table that does
    not open is passed over. *)
Definition table_lookup (fs : gmap path bytes) (table : TableMetadata) (key : bytes)
    : outcome write_error (option (option bytes * Z)) :=
  match r ← read_file fs (path_of table); SSTableReader_open r with
  | Ok reader => SSTableReader.get avx2 reader key
  | Err _ => Ok None
  | Panic => Panic
  | Ub => Ub
  end.

(** The loop over level 0, given from the newest table on. *)
Fixpoint search_l0 (fs : gmap path bytes) (key : bytes) (ms : list TableMetadata)
    : outcome write_error (option (option bytes * Z)) :=
  match ms with
  | [] => Ok None
  | table :: ms =>
      if bleb (smallest_key table) key && bleb key (largest_key table) then
        r ← table_lookup fs table key;
        match r with Some res => Ok (Some res) | None => search_l0 fs key ms end
      else search_l0 fs key ms
  end.

Definition l1_target (l1 : list TableMetadata) (key : bytes) : option nat :=
  match binary_search_by (fun m => bytes_cmp (smallest_key m) key) l1 with
  | inl idx => Some idx
  | inr idx => if (0 <? idx)%nat then Some (idx - 1)%nat else None
  end.

Definition search_l1 (fs : gmap path bytes) (key : bytes) (l1 : list TableMetadata)
    : outcome write_error (option (option bytes * Z)) :=
  match l1_target l1 key with
  | Some idx =>
      match l1 !! idx with
      | Some table => if bleb key (largest_key table) then table_lookup fs table key else Ok None
      | None => Ok None
      end
  | None => Ok None
  end.

(** The part of [get] under the compactor's read lock. *)
Definition search_levels (w : world) (key : bytes) : outcome write_error (option (option bytes * Z)) :=
  r ← search_l0 (files w) key (reverse (l0 (compactor w)));
  match r with
  | Some res => Ok (Some res)
  | None => search_l1 (files w) key (l1 (compactor w))
  end.

Definition get (s : EngineNode) (key : bytes) (thread_idx : nat) : outcome write_error (option (option bytes * Z)) :=
  pin_index thread_idx;;
  r ← SkipList.get (e_active_mem s) key;
  match r with
  | Some res => Ok (Some res)
  | None =>
      r ← match e_imm_mem s with Some imm => SkipList.get imm key | None => Ok None end;
      match r with
      | Some res => Ok (Some res)
      | None =>
          if poisoned (e_shared s) then Panic else
          search_levels (sh_world (e_shared s)) key
      end
  end.

(** ** The background threads *)

(** Writing entries to a table, opening it, and taking its first and last key: the
    bytes written and the keys. *)
Definition table_at (sst_path : path) (es : list entry) : st world Prelude.io_error (Z * bytes * bytes) :=
  lift (expect create_file);;
  let '(writer, r) := write_table es SSTableWriter_create in
  write_path sst_path (SSTable.file writer);;
  written ← lift (expect r);
  w ← get_state;
  f ← lift (expect (read_file (files w) sst_path));
  reader ← lift (expect (SSTableReader_open f));
  smallest ← lift (get_first_key reader);
  smallest ← lift (unwrap smallest);
  largest ← lift (unwrap (get_last_key reader));
  mret (written, smallest, largest).

(** A thread's work on a task up to the compactor's lock. *)
Definition build_table (task : FlushTask) : st world Prelude.io_error (path * bytes * bytes) :=
  let sst_path := sst_path_of (task_wal_path task) in
  es ← lift (iter_all (memtable task));
  r ← table_at sst_path es;
  let '(_, smallest, largest) := r in
  mret (sst_path, smallest, largest).

(** Under the lock the table joins level 0 and compaction may run; a panic
    poisons the lock. Then the log is removed. *)
Definition publish (task : FlushTask) (sst_path : path) (smallest largest : bytes) (s : shared) : shared * outcome Prelude.io_error unit :=
  if poisoned s then (s, Panic) else
  let w := sh_world s in
  let w := mk_world (files w) (add_l0_table (compactor w) sst_path smallest largest) in
  match maybe_schedule_compaction w with
  | (w, Ok _) => (mk_shared (mk_world (base.delete (task_wal_path task) (files w)) (compactor w)) false, Ok tt)
  | (w, Panic) => (mk_shared w true, Panic)
  | (w, Err e) => (mk_shared w true, Err e)
  | (w, Ub) => (mk_shared w true, Ub)
  end.

Definition with_worker (i : nat) (w : worker) (q : list FlushTask) (sh : shared) (s : EngineNode) : EngineNode :=
  mk_EngineNode (e_active_mem s) (e_imm_mem s) (e_wal s) (e_wal_path s) q sh (<[i := w]> (e_workers s)) (e_rng s).

(** One step of background thread [i]. *)
Definition worker_step (i : nat) (s : EngineNode) : EngineNode :=
  match e_workers s !! i with
  | Some Idle =>
      match e_flush_queue s with
      | [] => s
      | t :: q => with_worker i (Popped t) q (e_shared s) s
      end
  | Some (Popped t) =>
      let '(w, r) := build_table t (sh_world (e_shared s)) in
      let sh := mk_shared w (poisoned (e_shared s)) in
      match r with
      | Ok (p, lo, hi) => with_worker i (Built t p lo hi) (e_flush_queue s) sh s
      | _ => with_worker i Dead (e_flush_queue s) sh s
      end
  | Some (Built t p lo hi) =>
      let '(sh, r) := publish t p lo hi (e_shared s) in
      with_worker i (match r with Ok _ => Idle | _ => Dead end) (e_flush_queue s) sh s
  | _ => s
  end.

(** ** Runs: the owner's writes and the threads' steps, interleaved *)

Inductive event :=
| Write (weak_ok opens : bool) (thread_idx : nat) (key : bytes) (value : option bytes) (seq : Z)
| Worker (i : nat).

Definition write (weak_ok opens : bool) (thread_idx : nat) (key : bytes) (value : option bytes) (seq : Z) : st EngineNode write_error unit :=
  match value with
  | Some v => put weak_ok opens key v seq thread_idx
  | None => delete weak_ok opens key seq thread_idx
  end.

(** The engine after some events, and the accepted writes; a call of the owner
    that panics ends the run, and its write is the last result. *)
Fixpoint run_events (evs : list event) (s : EngineNode) : EngineNode * list entry * option entry :=
  match evs with
  | [] => (s, [], None)
  | Worker i :: evs => run_events evs (worker_step i s)
  | Write weak_ok opens thread_idx k v q :: evs =>
      match write weak_ok opens thread_idx k v q s with
      | (s', Ok tt) => let '(s', acc, panicked) := run_events evs s' in (s', (k, v, q) :: acc, panicked)
      | (s', Err _) => run_events evs s'
      | (s', _) => (s', [], Some (k, v, q))
      end
  end.

End engine.

(** ** The invariant *)


Definition quiet (w : worker) : Prop := w = Idle \/ w = Dead.

Definition active_wal (dir : string) : path := mk_path dir "active.wal".

(** The one task there can be. *)
Definition task_ok (dir : string) (es : list entry) (t : FlushTask) : Prop :=
  abs (memtable t) (ordered es) /\ task_wal_path t = active_wal dir.

(** [m] describes a table of the entries [es] at [sst_path_of (active_wal dir)]. *)
Definition flushed_as (dir : string) (es : list entry) (fs : gmap path bytes) (p : path) (lo hi : bytes) : Prop :=
  p = sst_path_of (active_wal dir) /\
  (exists f, fs !! p = Some f /\ full_table f (ordered es)) /\
  lo = default [] (ekey <$> hd_error (ordered es)) /\ hi = default [] (ekey <$> last (ordered es)).

(** Where the frozen memtable is on its way to level 0. *)
Inductive flush_stage (dir : string) (es : list entry) (q : list FlushTask) (ws : list worker) (w : world) : Prop :=
| stage_queued t : q = [t] -> task_ok dir es t -> Forall quiet ws -> l0 (compactor w) = [] -> flush_stage dir es q ws w
| stage_popped i t : q = [] -> ws !! i = Some (Popped t) -> task_ok dir es t ->
    (forall j x, ws !! j = Some x -> j <> i -> quiet x) -> l0 (compactor w) = [] -> flush_stage dir es q ws w
| stage_built i t p lo hi : q = [] -> ws !! i = Some (Built t p lo hi) -> task_ok dir es t ->
    (forall j x, ws !! j = Some x -> j <> i -> quiet x) -> l0 (compactor w) = [] ->
    flushed_as dir es (files w) p lo hi -> flush_stage dir es q ws w
| stage_done : q = [] -> Forall quiet ws ->
    (l0 (compactor w) = [] \/ exists m, l0 (compactor w) = [m] /\
       flushed_as dir es (files w) (path_of m) (smallest_key m) (largest_key m)) -> flush_stage dir es q ws w.

Definition flush_ok (dir : string) (imm : option (list entry)) (q : list FlushTask) (ws : list worker) (w : world) (wp : path) : Prop :=
  match imm with
  | None => q = [] /\ Forall quiet ws /\ l0 (compactor w) = [] /\ wp = active_wal dir
  | Some es => es <> [] /\ flush_stage dir es q ws w
  end.

Record engine_ok (dir : string) (s : EngineNode) (active : list entry) (imm : option (list entry)) : Prop := {
  eo_active : abs (e_active_mem s) (ordered active);
  eo_imm : holds_mem (e_imm_mem s) imm;
  eo_wal : writer_wf (e_wal s);
  eo_entries : Forall entry_ok (mem_entries active imm);
  eo_lock : poisoned (e_shared s) = false;
  eo_l1 : l1 (compactor (sh_world (e_shared s))) = [];
  eo_flush : flush_ok dir imm (e_flush_queue s) (e_workers s) (sh_world (e_shared s)) (e_wal_path s)
}.

Lemma open_engine_ok dir fs seed : engine_ok dir (EngineNode_open dir fs seed) [] None.
Proof.
  split; cbn; [exact new_abs | done | apply open_writer_wf | constructor | done | done |].
  split_and!; [done | by repeat constructor; left | done | done].
Qed.

Lemma engine_ok_levels dir s active imm : engine_ok dir s active imm ->
  let c := compactor (sh_world (e_shared s)) in (length (e_flush_queue s) + length (l0 c) <= 1)%nat /\ l1 c = [].
Proof.
  intros [_ _ _ _ _ Hl1 Hfl]. cbn. split; [| done]. destruct imm as [es|].
  - destruct Hfl as [_ [t -> _ _ -> | i t -> _ _ _ -> | i t p lo hi -> _ _ _ -> _ | -> _ [-> | (m & -> & _)]]]; cbn; lia.
  - destruct Hfl as (-> & _ & -> & _). cbn. lia.
Qed.

(** ** Reading a table *)

Section tables.
  Context `{FS : FileOpsSpec} `{!BoundedFile F} `{BHS : BinaryHeapSpec} `{BSS : BinarySearchSpec}.

Lemma write_table_wrote es s s' n : write_table es s = (s', Ok n) -> is_u64 (len (file s')).
Proof.
  unfold write_table. intros Hw. apply st_Ok_bind in Hw as (? & ? & ? & Hw).
  apply finish_wrote in Hw as (f & d & Hwr). by eapply write_all_bound.
Qed.

Lemma write_table_full es s n : Forall entry_ok es -> write_table es SSTableWriter_create = (s, Ok n) -> full_table (file s) es.
Proof. intros Hok Hw. eapply written_is_full; [done.. | by eapply write_table_wrote]. Qed.

(** What reading a key of a table answers. *)
Lemma table_lookup_ok avx2 fs m f es key : fs !! path_of m = Some f -> full_table f es -> sorted_keys es ->
  exists r, table_lookup avx2 fs m key = Ok r /\ (r = None <-> key ∉ ekey <$> es) /\
    (forall v, r = Some v -> exists e, e ∈ es /\ ekey e = key /\ eval e = v) /\
    (strictly_sorted es -> r = lookup_entries es key).
Proof.
  intros Hf (bs & filt & -> & <- & Hok & Hfilt) Hs. unfold table_lookup, read_file. rewrite Hf.
  cbn [mbind outcome_bind]. rewrite table_open by done.
  destruct (table_get (E := write_error) bs filt avx2 key Hok Hfilt Hs) as (res & -> & Hr).
  exists res. rewrite <- lookup_entries_none. done.
Qed.

(** A key that is in no table entry is not found there. *)
Lemma table_lookup_none avx2 fs m f es key : fs !! path_of m = Some f -> full_table f es -> sorted_keys es ->
  key ∉ ekey <$> es -> table_lookup avx2 fs m key = Ok None.
Proof.
  intros Hf Ht Hs Hk. destruct (table_lookup_ok avx2 fs m f es key Hf Ht Hs) as (r & -> & Hnone & _).
  by rewrite (proj2 Hnone Hk).
Qed.

End tables.

(** ** The threads' steps *)

Section workers.
  Context `{FS : FileOpsSpec} `{!BoundedFile F} `{BHS : BinaryHeapSpec}.

Lemma sst_path_active dir : sst_path_of (active_wal dir) = mk_path dir "active.sst.0".
Proof. reflexivity. Qed.

Lemma ordered_nonempty es : es <> [] -> exists x l, ordered es = x :: l.
Proof.
  intros Hne. destruct (ordered es) as [|x l] eqn:Ho; [| eauto]. pose proof (ordered_perm es) as Hp.
  rewrite Ho in Hp. by apply Permutation_nil in Hp.
Qed.

(** The table of some entries, with its range. *)
Lemma table_at_run p es w : Forall entry_ok es -> es <> [] ->
  match table_at p es w with
  | (w', Ok (n, lo, hi)) => compactor w' = compactor w /\
      (files w' = <[p := table_of es]> (files w) /\ full_table (table_of es) es) /\
      lo = default [] (ekey <$> hd_error es) /\ hi = default [] (ekey <$> last es)
  | (w', Panic) => table_fails (table_of es) /\ compactor w' = compactor w
  | _ => False
  end.
Proof.
  intros Hok Hne. unfold table_at, mbind, st_bind, lift, get_state. pose proof (write_table_ends es) as Hrun.
  pose proof create_safe as Hcs. destruct create_file as [[] | e | |] eqn:Hcr; try done; cbn [expect];
    [| split; [left; by rewrite Hcr | done]].
  destruct (write_table es SSTableWriter_create) as [s r] eqn:Hw.
  unfold write_path. destruct r as [n | e | |]; try done; cbn [expect compactor files]; [| by split; [right |]].
  pose proof (write_table_full _ _ _ Hok Hw) as (bs & filt & Hf & Hc & Htok & Hfilt).
  rewrite (write_table_same _ _ _ Hw) in Hf |- *.
  unfold read_file. rewrite lookup_insert_eq. cbn [expect]. rewrite Hf, table_open by done. cbn [expect].
  destruct (table_first_last (E := Prelude.io_error) bs filt Htok) as [-> ->]. rewrite Hc.
  destruct es as [|x l]; [done|]. destruct (last (x :: l)) as [y|] eqn:Hl; [|by apply last_None in Hl].
  cbn [unwrap fmap option_fmap option_map head hd_error files compactor default mret st_ret]. split; [done |].
  split; [split; [done | by exists bs, filt] | done].
Qed.

(** What a thread builds: the table of the memtable's entries. *)
Lemma build_table_any es t w : abs (memtable t) (ordered es) -> Forall entry_ok es -> es <> [] ->
  match build_table t w with
  | (w', Ok (p, lo, hi)) => p = sst_path_of (task_wal_path t) /\ compactor w' = compactor w /\
      (exists f, files w' = <[p := f]> (files w) /\ full_table f (ordered es)) /\
      lo = default [] (ekey <$> hd_error (ordered es)) /\ hi = default [] (ekey <$> last (ordered es))
  | (w', Panic) => table_fails (table_of (ordered es)) /\ compactor w' = compactor w
  | _ => False
  end.
Proof.
  intros Ha Hok Hne. unfold build_table, mbind, st_bind, lift.
  rewrite (iter_all_abs (E := Prelude.io_error) _ _ Ha). cbv beta iota.
  destruct (ordered_nonempty es Hne) as (x & l & Ho).
  pose proof (table_at_run (sst_path_of (task_wal_path t)) (ordered es) w) as Hr.
  rewrite ordered_perm in Hr at 1. specialize (Hr Hok ltac:(by rewrite Ho)).
  destruct (table_at _ _ w) as [w' [[[n lo] hi] | | |]]; try done.
  destruct Hr as (? & Hf & ? & ?). split; [done |]. split; [done |]. split; [by exists (table_of (ordered es)) | done].
Qed.

Lemma build_table_run dir es t w : task_ok dir es t -> Forall entry_ok es -> es <> [] ->
  match build_table t w with
  | (w', Ok (p, lo, hi)) => compactor w' = compactor w /\ flushed_as dir es (files w') p lo hi
  | (w', Panic) => table_fails (table_of (ordered es)) /\ compactor w' = compactor w
  | _ => False
  end.
Proof.
  intros [Ha Hp] Hok Hne. pose proof (build_table_any es t w Ha Hok Hne) as Hb. rewrite Hp in Hb.
  destruct (build_table t w) as [w' [[[p lo] hi] | | |]]; try done.
  destruct Hb as (-> & Hc & (f & Hf & Ht) & Hlo & Hhi). split; [done |]. split_and!; try done.
  exists f. rewrite Hf, lookup_insert_eq. done.
Qed.

Lemma publish_run dir es t p lo hi sh : task_ok dir es t -> poisoned sh = false ->
  l1 (compactor (sh_world sh)) = [] -> l0 (compactor (sh_world sh)) = [] ->
  flushed_as dir es (files (sh_world sh)) p lo hi ->
  exists w', publish t p lo hi sh = (mk_shared w' false, Ok tt) /\ l1 (compactor w') = [] /\
    exists m, l0 (compactor w') = [m] /\ flushed_as dir es (files w') (path_of m) (smallest_key m) (largest_key m).
Proof.
  intros [_ Hp] Hlock Hl1 Hl0 (-> & (f & Hf & Ht) & -> & ->). unfold publish. rewrite Hlock.
  unfold maybe_schedule_compaction, mbind, st_bind, get_state. cbn [compactor add_l0_table l0]. rewrite Hl0.
  cbn [app]. rewrite (proj2 (Z.ltb_lt _ _)) by done. cbn [mret st_ret]. eexists. split; [done |]. split; [done |].
  eexists. cbn [compactor files add_l0_table l0]. rewrite Hl0. split; [reflexivity |].
  split; [done |]. split; [| done]. exists f. split; [| done].
  rewrite Hp, lookup_delete_ne; [done |]. rewrite sst_path_active. unfold active_wal. by intros [= ].
Qed.

(** A thread changes only what the threads share. *)
Lemma quiet_insert i w ws : quiet w -> (forall j x, ws !! j = Some x -> j <> i -> quiet x) -> Forall quiet (<[i := w]> ws).
Proof.
  intros Hw Hws. apply Forall_lookup. intros j x Hj. destruct (decide (j = i)) as [-> | Hne].
  - apply list_lookup_insert_Some in Hj as [(_ & <- & _) | (? & _)]; done.
  - rewrite list_lookup_insert_ne in Hj by done. by eapply Hws.
Qed.

Lemma others_insert i w (ws : list worker) (Q : worker -> Prop) :
  (forall j x, ws !! j = Some x -> j <> i -> Q x) -> forall j x, <[i := w]> ws !! j = Some x -> j <> i -> Q x.
Proof. intros Hws j x Hj Hne. rewrite list_lookup_insert_ne in Hj by done. by eapply Hws. Qed.

Lemma lookup_busy i w w' (ws : list worker) : ws !! i = Some w -> <[i := w']> ws !! i = Some w'.
Proof. intros Hi. apply list_lookup_insert_eq. by eapply lookup_lt_Some. Qed.

(** The stages move on; nothing else of the engine is touched. *)
Lemma popped_stage dir es i t w q ws : flush_stage dir es (t :: q) ws w -> ws !! i = Some Idle ->
  flush_stage dir es q (<[i := Popped t]> ws) w.
Proof.
  intros [t' Hq Ht Hws Hl0 | ? ? Hq | ? ? ? ? ? Hq | Hq]; try done. injection Hq as -> ->. intros Hi.
  eapply (stage_popped _ _ _ _ _ i); [done | by eapply lookup_busy | done | | done].
  intros j x Hj Hne. rewrite list_lookup_insert_ne in Hj by done. by eapply Forall_lookup_1.
Qed.

Lemma built_stage dir es i t w q ws : flush_stage dir es q ws w -> ws !! i = Some (Popped t) ->
  Forall entry_ok es -> es <> [] ->
  match build_table t w with
  | (w', Ok (p, lo, hi)) => compactor w' = compactor w /\ flush_stage dir es q (<[i := Built t p lo hi]> ws) w'
  | (w', _) => compactor w' = compactor w /\ flush_stage dir es q (<[i := Dead]> ws) w'
  end.
Proof.
  intros Hst Hi Hok Hne.
  assert (q = [] /\ task_ok dir es t /\ (forall j x, ws !! j = Some x -> j <> i -> quiet x) /\ l0 (compactor w) = []) as (-> & Ht & Hws & Hl0).
  { destruct Hst as [? Hq ? Hws | i' t' Hq Hi' Ht Hws Hl0 | i' t' p lo hi Hq Hi' Ht Hws | Hq Hws].
    - apply (Forall_lookup_1 _ _ _ _ Hws) in Hi. by destruct Hi.
    - destruct (decide (i = i')) as [<- | Hii]; [rewrite Hi in Hi'; by injection Hi' as -> |].
      destruct (Hws i _ Hi Hii); done.
    - destruct (decide (i = i')) as [<- | Hii]; [rewrite Hi in Hi'; done |]. destruct (Hws i _ Hi Hii); done.
    - apply (Forall_lookup_1 _ _ _ _ Hws) in Hi. by destruct Hi. }
  pose proof (build_table_run dir es t w Ht Hok Hne) as Hb.
  destruct (build_table t w) as [w' [[[p lo] hi] | | |]]; try done; destruct Hb as [Hf Hc].
  - split; [done |].
    eapply (stage_built _ _ _ _ _ i); [done | by eapply lookup_busy | done | by apply others_insert | by rewrite Hf | done].
  - split; [done |]. apply stage_done; [done | apply quiet_insert; [by right | done] |]. left. by rewrite Hc.
Qed.

Lemma published_stage dir es i t p lo hi sh q ws : flush_stage dir es q ws (sh_world sh) ->
  ws !! i = Some (Built t p lo hi) -> poisoned sh = false -> l1 (compactor (sh_world sh)) = [] ->
  exists w', publish t p lo hi sh = (mk_shared w' false, Ok tt) /\ l1 (compactor w') = [] /\
    flush_stage dir es q (<[i := Idle]> ws) w'.
Proof.
  intros Hst Hi Hlock Hl1.
  assert (q = [] /\ task_ok dir es t /\ (forall j x, ws !! j = Some x -> j <> i -> quiet x) /\
    l0 (compactor (sh_world sh)) = [] /\ flushed_as dir es (files (sh_world sh)) p lo hi) as (-> & Ht & Hws & Hl0 & Hf).
  { destruct Hst as [? Hq ? Hws | i' t' Hq Hi' Ht Hws Hl0 | i' t' p' lo' hi' Hq Hi' Ht Hws Hl0 Hf | Hq Hws].
    - apply (Forall_lookup_1 _ _ _ _ Hws) in Hi. by destruct Hi.
    - destruct (decide (i = i')) as [<- | Hii]; [rewrite Hi in Hi'; done |]. destruct (Hws i _ Hi Hii); done.
    - destruct (decide (i = i')) as [<- | Hii]; [rewrite Hi in Hi'; injection Hi' as -> -> -> ->; done |].
      destruct (Hws i _ Hi Hii); done.
    - apply (Forall_lookup_1 _ _ _ _ Hws) in Hi. by destruct Hi. }
  destruct (publish_run dir es t p lo hi sh Ht Hlock Hl1 Hl0 Hf) as (w' & Hp & Hl1' & Hm). exists w'.
  split_and!; [done | done |]. apply stage_done; [done | apply quiet_insert; [by left | done] | by right].
Qed.

Lemma worker_step_ok dir i s active imm : engine_ok dir s active imm -> engine_ok dir (worker_step i s) active imm.
Proof.
  intros Hok. pose proof Hok as [Ha Hi Hw Hen Hlock Hl1 Hfl]. unfold worker_step.
  destruct (e_workers s !! i) as [[| t | t p lo hi |]|] eqn:Hwi; try done.
  - destruct (e_flush_queue s) as [|t q] eqn:Hq; [done |]. split; try done. cbn.
    destruct imm as [es|]; [| by destruct Hfl]. destruct Hfl as [Hne Hst]. split; [done |]. by apply popped_stage.
  - destruct imm as [es|].
    2:{ destruct Hfl as (_ & Hws & _). apply (Forall_lookup_1 _ _ _ _ Hws) in Hwi. by destruct Hwi. }
    destruct Hfl as [Hne Hst]. apply Forall_app in Hen as Hes. destruct Hes as [Hes _].
    pose proof (built_stage dir es i t _ _ _ Hst Hwi Hes Hne) as Hb.
    destruct (build_table t _) as [w' [[[p lo] hi] | | |]]; destruct Hb as [Hc Hst'];
      (split; cbn; rewrite ?Hc; [done.. | split; done]).
  - destruct imm as [es|].
    2:{ destruct Hfl as (_ & Hws & _). apply (Forall_lookup_1 _ _ _ _ Hws) in Hwi. by destruct Hwi. }
    destruct Hfl as [Hne Hst].
    destruct (published_stage dir es i t p lo hi _ _ _ Hst Hwi Hlock Hl1) as (w' & -> & Hl1' & Hst'). by split; cbn.
Qed.

End workers.

(** ** The owner's calls *)

Section owner.
  Context (crc32 : bytes -> Z) (pwrite : bytes -> bytes -> Z -> bytes * Z) (ftruncate : bytes -> Z -> bytes * Z).
  Context `{FS : FileOpsSpec} `{!BoundedFile F} `{BHS : BinaryHeapSpec} `{BSS : BinarySearchSpec} (avx2 : bool).

Lemma len_wal_payload k v : len (wal_payload k v) = 5 + len k + len (default [] v).
Proof. unfold wal_payload. destruct v as [v|]; cbn [default]; unfold Datatypes.id; len_lia. Qed.

(** An entry the log takes fits the table format. *)
Lemma logged_entry_ok w w' k v q n : writer_wf w -> is_u64 q ->
  WalWriter.append crc32 pwrite (wal_payload k v) w = (w', Ok n) -> entry_ok (k, v, q).
Proof.
  intros Hw Hq Hap. rewrite WalWriter.append_result in Hap by done. rewrite len_wal_payload in Hap. unfold STAGING_SIZE, HEADER_SIZE in Hap.
  destruct (Z.ltb_spec (1024 * 1024) (4 + 4 + 8 + (5 + len k + len (default [] v)))); [done |].
  pose proof (len_nonneg k). pose proof (len_nonneg (default [] v)). split_and!; cbn.
  - unfold is_u32. lia.
  - done.
  - destruct v as [v|]; [| done]. unfold TOMBSTONE_VAL_LEN, u32_max. change (default [] (Some v)) with v in *. lia.
Qed.

Lemma freeze_engine_ok opens dir s active imm : engine_ok dir s active imm -> active <> [] ->
  exists s' active' imm', freeze_active_memtable ftruncate opens s = (s', if opens || (if imm is Some _ then true else false) then Ok tt else Panic) /\
    engine_ok dir s' active' imm' /\ mem_entries active' imm' = mem_entries active imm /\
    sector_offset (e_wal s') <= Z.max 0 (sector_offset (e_wal s)).
Proof.
  intros Hok Hne. pose proof Hok as [Ha Hi Hw Hen Hlock Hl1 Hfl]. unfold freeze_active_memtable.
  destruct (e_imm_mem s) as [m|] eqn:Hm, imm as [es|]; try done.
  { exists s, active, (Some es). rewrite orb_true_r. split_and!; [done | done | done | lia]. }
  rewrite (iter_all_abs (E := write_error) _ _ Ha). destruct (truncate_to_logical_end ftruncate (e_wal s)) as [w r].
  assert (mem_entries [] (Some active) = mem_entries active None) as Hent.
  { unfold mem_entries. cbn [default]. by rewrite app_nil_r. }
  destruct Hfl as (Hq & Hws & Hl0 & Hp). destruct opens; cbn [negb orb].
  2:{ eexists _, [], (Some active). split; [reflexivity |]. split_and!; [| done | cbn; lia].
    split; cbn -[rotated]; [exact new_abs | exact Ha | exact Hw | | done | done |].
    - change (Forall entry_ok (mem_entries [] (Some active))). by rewrite Hent.
    - split; [done |]. apply stage_done; [done | done | by left]. }
  eexists _, [], (Some active). split; [reflexivity |]. split_and!; [| done | cbn; lia].
  split; cbn -[rotated]; [exact new_abs | exact Ha | apply open_writer_wf | | done | done |].
  - change (Forall entry_ok (mem_entries [] (Some active))). by rewrite Hent.
  - split; [done |]. rewrite Hq. eapply stage_queued; [reflexivity | by split | done | done].
Qed.

(** What a write leaves; a panic, when it freezes the memtable and the next log
    does not open, has written too. *)
Definition engine_written (opens : bool) dir (s : EngineNode) active imm (e : entry) (r : EngineNode * outcome write_error unit) : Prop :=
  sector_offset (e_wal r.1) <= sector_offset (e_wal s) + STAGING_SIZE /\
  match r with
  | (s', Ok tt) => exists active' imm', engine_ok dir s' active' imm' /\ mem_entries active' imm' = mem_entries active imm ++ [e]
  | (s', Err (Wal _)) => engine_ok dir s' active imm
  | (s', Panic) => opens = false /\ e_imm_mem s = None /\
      exists active' imm', engine_ok dir s' active' imm' /\ mem_entries active' imm' = mem_entries active imm ++ [e]
  | _ => False
  end.

Lemma write_internal_ok dir weak_ok opens k v q s active imm : engine_ok dir s active imm -> is_u64 q ->
  is_u64 (sector_offset (e_wal s) + STAGING_SIZE) ->
  engine_written opens dir s active imm (k, v, q) (write_internal crc32 pwrite ftruncate weak_ok opens k v q s).
Proof.
  intros [Ha Hi Hw Hen Hlock Hl1 Hfl] Hq Hroom. unfold write_internal, e_wal_append. unfold mbind at 1, st_bind at 1.
  pose proof (append_safe crc32 pwrite (e_wal s) (wal_payload k v) Hw Hroom) as Hs.
  pose proof (append_advance crc32 pwrite (e_wal s) (wal_payload k v) Hw Hroom) as Hadv.
  destruct (WalWriter.append crc32 pwrite (wal_payload k v) (e_wal s)) as [w r] eqn:Hap.
  destruct Hs as (Hsafe & Hwf & _). cbn [fst] in Hadv.
  set (s1 := mk_EngineNode _ _ _ _ _ _ _ _). assert (engine_ok dir s1 active imm) as Hok1 by done.
  destruct r as [n | e | |]; try done. unfold e_mem_insert. unfold mbind, st_bind, get_state.
  destruct (insert_abs (E := write_error) weak_ok k v q (e_active_mem s1) (e_rng s1) _ (eo_active _ _ _ _ Hok1)) as (m & g & -> & Hm & _).
  set (s2 := mk_EngineNode _ _ _ _ _ _ _ _).
  assert (mem_entries (active ++ [(k, v, q)]) imm = mem_entries active imm ++ [(k, v, q)]) as Hent.
  { unfold mem_entries. by rewrite app_assoc. }
  assert (engine_ok dir s2 (active ++ [(k, v, q)]) imm) as Hok2.
  { split; try done; [cbn; by rewrite ordered_snoc |]. rewrite Hent. apply Forall_app. split; [done |].
    constructor; [| constructor]. exact (logged_entry_ok (e_wal s) w k v q n Hw Hq Hap). }
  destruct (_ <=? _); [| split; [done | by exists (active ++ [(k, v, q)]), imm]].
  destruct (freeze_engine_ok opens dir s2 _ _ Hok2) as (s3 & active' & imm' & -> & Hok3 & Hent' & Hsec); [by destruct active |].
  assert (exists active' imm', engine_ok dir s3 active' imm' /\ mem_entries active' imm' = mem_entries active imm ++ [(k, v, q)]) as Hex.
  { exists active', imm'. split; [done | by rewrite Hent', Hent]. }
  split.
  2:{ destruct opens; [done |]. destruct imm as [es|]; [done |]. split_and!; [done | | done].
    unfold holds_mem in Hi. by destruct (e_imm_mem s). }
  cbn [fst]. change (e_wal s2) with w in Hsec. destruct Hw as [[Hw0 _] _ _]. unfold STAGING_SIZE in *. lia.
Qed.

Lemma pin_index_ok {E} i : (i < MAX_THREADS)%nat -> pin_index (E := E) i = Ok tt.
Proof. unfold pin_index. by intros ->%Nat.ltb_lt. Qed.

Lemma write_pinned weak_ok opens i k v q s : (i < MAX_THREADS)%nat ->
  write crc32 pwrite ftruncate weak_ok opens i k v q s = write_internal crc32 pwrite ftruncate weak_ok opens k v q s.
Proof.
  intros Hi. by destruct v; cbn [write]; unfold put, delete, mbind at 1, st_bind at 1, lift; rewrite pin_index_ok.
Qed.

(** [get] answers from the memtables; the tables hold nothing else. *)
Lemma get_engine_ok dir s active imm key ti : engine_ok dir s active imm -> (ti < MAX_THREADS)%nat ->
  exists r, get avx2 s key ti = Ok r /\ some_version (mem_entries active imm) key r.
Proof.
  intros [Ha Hi _ _ Hlock Hl1 Hfl] Hidx. unfold get, mem_entries. rewrite pin_index_ok by done. cbn [mbind outcome_bind].
  destruct (get_ordered (E := write_error) _ active key Ha) as (r & -> & Hr). cbn [mbind outcome_bind].
  destruct r as [v|]; [eexists; split; [done | by apply some_version_app] |].
  unfold search_levels. rewrite Hlock, Hl1.
  assert (search_l1 avx2 (files (sh_world (e_shared s))) key [] = Ok None) as Hs1.
  { unfold search_l1, l1_target.
    pose proof (binary_search_spec _ (fun m : TableMetadata => bytes_cmp (smallest_key m) key) []) as Hb.
    destruct (binary_search_by _ []) as [i | i].
    - destruct Hb as (x & Hx & _); [| done]. intros i' j x y _ Hx'. done.
    - by destruct (0 <? i)%nat. }
  destruct (e_imm_mem s) as [m|], imm as [es|]; try done; cbn [default].
  - destruct (get_ordered (E := write_error) _ es key Hi) as (r & -> & Hr'). cbn [mbind outcome_bind].
    destruct r as [v|]; [eexists; split; [done | by apply some_version_older] |].
    exists None. split; [| by apply some_version_older]. destruct Hfl as [_ Hst].
    assert (l0 (compactor (sh_world (e_shared s))) = [] \/ exists m, l0 (compactor (sh_world (e_shared s))) = [m] /\
      flushed_as dir es (files (sh_world (e_shared s))) (path_of m) (smallest_key m) (largest_key m)) as [-> | (t & -> & Hf)].
    { destruct Hst; auto. }
    { by cbn [reverse search_l0 mbind outcome_bind]. }
    destruct Hf as (_ & (f & Hf & Ht) & _ & _). change (reverse [t]) with [t]. cbn [search_l0].
    rewrite (table_lookup_none avx2 _ t f (ordered es) key Hf Ht).
    + cbn [mbind outcome_bind]. by destruct (_ && _).
    + by eapply abs_sorted.
    + rewrite (ordered_perm es). by apply Hr'.
  - destruct Hfl as (_ & _ & -> & _). cbn [reverse search_l0 mbind outcome_bind]. eexists. by split.
Qed.

(** ** Runs *)

Definition event_ok (ev : event) : Prop :=
  match ev with Write _ _ i _ _ q => (i < MAX_THREADS)%nat /\ is_u64 q | Worker _ => True end.

Definition writes (evs : list event) : list entry :=
  omap (fun ev => match ev with Write _ _ _ k v q => Some (k, v, q) | Worker _ => None end) evs.

(** The writes that are in the memtables after a run: the accepted ones, and the
    one whose call panicked. *)
Definition written (acc : list entry) (panicked : option entry) : list entry := acc ++ option_list panicked.

Lemma worker_step_wal i s : e_wal (worker_step i s) = e_wal s.
Proof.
  unfold worker_step. destruct (e_workers s !! i) as [[| t | t p lo hi |]|]; try done.
  - by destruct (e_flush_queue s).
  - destruct (build_table t _) as [w r]. by destruct r as [[[p lo] hi] | | |].
  - by destruct (publish t p lo hi _) as [sh r].
Qed.

(** A call panics at a write that freezes the memtable, when nothing was frozen
    before and the next log does not open. *)
Definition panics_at (s : EngineNode) (evs : list event) (e : entry) : Prop :=
  exists evs1 weak_ok i evs2, evs = evs1 ++ Write weak_ok false i e.1.1 e.1.2 e.2 :: evs2 /\
    let '(s1, _, panicked) := run_events crc32 pwrite ftruncate evs1 s in panicked = None /\ e_imm_mem s1 = None.

Lemma panics_at_cons s ev evs e acc :
  match ev with
  | Worker i => True
  | Write weak_ok opens i k v q => (write crc32 pwrite ftruncate weak_ok opens i k v q s).2 = acc
  end -> match acc with Ok _ | Err _ => True | _ => False end ->
  panics_at (match ev with
    | Worker i => worker_step i s
    | Write weak_ok opens i k v q => (write crc32 pwrite ftruncate weak_ok opens i k v q s).1
    end) evs e -> panics_at s (ev :: evs) e.
Proof.
  intros Hr Hacc (evs1 & w & i & evs2 & -> & Hrun). exists (ev :: evs1), w, i, evs2. split; [done |].
  cbn [run_events]. destruct ev as [w' opens j k v q | j]; [| done].
  destruct (write _ _ _ _ _ _ _ _ _ s) as [s1 r]. cbn [fst snd] in *. subst r.
  destruct acc as [[] | | |]; try done. by destruct (run_events _ _ _ evs1 s1) as [[s2 a] p].
Qed.

Lemma run_events_ok dir evs s active imm : engine_ok dir s active imm -> Forall event_ok evs ->
  is_u64 (sector_offset (e_wal s) + Z.of_nat (S (length evs)) * STAGING_SIZE) ->
  exists s' acc panicked active' imm', run_events crc32 pwrite ftruncate evs s = (s', acc, panicked) /\
    sublist (written acc panicked) (writes evs) /\ engine_ok dir s' active' imm' /\
    mem_entries active' imm' = mem_entries active imm ++ written acc panicked /\
    forall e, panicked = Some e -> panics_at s evs e.
Proof.
  revert s active imm. induction evs as [|[weak_ok opens i k v q | i] evs IH]; intros s active imm Hok Hev Hu; cbn [run_events].
  { exists s, [], None, active, imm. rewrite app_nil_r. by split_and!. }
  2:{ apply Forall_cons in Hev as [_ Hev]. apply (worker_step_ok dir i) in Hok.
    destruct (IH _ _ _ Hok Hev) as (s' & acc & p & active' & imm' & Hrun & Hsub & Hok' & Hent & Hp).
    { rewrite worker_step_wal. destruct Hok as [_ _ [[? _] _ _] _ _ _ _].
      rewrite worker_step_wal in *. unfold is_u64, STAGING_SIZE in *. cbn [length] in Hu. lia. }
    exists s', acc, p, active', imm'. split_and!; try done. intros e He.
    by apply (panics_at_cons s (Worker i) evs e (Ok tt)); [| | apply Hp]. }
  apply Forall_cons in Hev as [[Hi Hq] Hev]. assert (0 <= sector_offset (e_wal s)) as Hs0 by apply (eo_wal _ _ _ _ Hok).
  pose proof (write_internal_ok dir weak_ok opens k v q s active imm Hok Hq) as [Hadv Hw].
  { unfold is_u64, STAGING_SIZE in *. lia. }
  pose proof (panics_at_cons s (Write weak_ok opens i k v q) evs) as Hpan. cbv iota in Hpan.
  rewrite write_pinned in Hpan |- * by done.
  destruct (write_internal _ _ _ _ _ _ _ _ s) as [s1 [[] | [e|] | |]]; try done; cbn [fst snd] in Hadv, Hpan.
  - destruct Hw as (active1 & imm1 & Hok1 & Hent1). assert (0 <= sector_offset (e_wal s1)) as Hs1 by apply (eo_wal _ _ _ _ Hok1).
    destruct (IH s1 active1 imm1 Hok1 Hev) as (s' & acc & p & active' & imm' & -> & Hsub & Hok' & Hent' & Hp).
    { unfold is_u64, STAGING_SIZE in *. cbn [length] in Hu. lia. }
    exists s', ((k, v, q) :: acc), p, active', imm'. split_and!; [done | by constructor | done | |].
    + unfold written in *. by rewrite Hent', Hent1, <- app_assoc.
    + intros e He. by apply (Hpan e (Ok tt)); [| | apply Hp].
  - assert (0 <= sector_offset (e_wal s1)) as Hs1 by apply (eo_wal _ _ _ _ Hw).
    destruct (IH s1 active imm Hw Hev) as (s' & acc & p & active' & imm' & -> & Hsub & Hok' & Hent' & Hp).
    { unfold is_u64, STAGING_SIZE in *. cbn [length] in Hu. lia. }
    exists s', acc, p, active', imm'. split_and!; [done | by constructor | done | done |].
    intros e' He. by apply (Hpan e' (Err (Wal e))); [| | apply Hp].
  - destruct Hw as (-> & Hnone & active1 & imm1 & Hok1 & Hent1).
    exists s1, [], (Some (k, v, q)), active1, imm1. split_and!; [done | | done | done |].
    + cbn. apply sublist_skip, sublist_nil_l.
    + intros e [= <-]. exists [], weak_ok, i, evs. by split.
Qed.

Lemma run_from_open dir fs seed evs : Forall event_ok evs -> Z.of_nat (length evs) < 2 ^ 40 ->
  let s0 := EngineNode_open dir fs seed in
  exists s acc panicked active imm, run_events crc32 pwrite ftruncate evs s0 = (s, acc, panicked) /\
    sublist (written acc panicked) (writes evs) /\ engine_ok dir s active imm /\ mem_entries active imm = written acc panicked /\
    forall e, panicked = Some e -> panics_at s0 evs e.
Proof.
  intros Hev Hn. apply (run_events_ok dir evs _ [] None); [apply open_engine_ok | done |].
  change (sector_offset (e_wal (EngineNode_open dir fs seed))) with 0. unfold is_u64, STAGING_SIZE. lia.
Qed.

(** ** The first write of an opened engine *)

(** A first write is far from the memtable limit, so it is the log's append. *)
Lemma first_write weak_ok opens k v q s s' : e_active_mem s = ConcurrentSkipList_new -> writer_wf (e_wal s) ->
  write_internal crc32 pwrite ftruncate weak_ok opens k v q s = (s', Ok tt) ->
  exists n, WalWriter.append crc32 pwrite (wal_payload k v) (e_wal s) = (e_wal s', Ok n).
Proof.
  intros Hm Hwf. unfold write_internal, e_wal_append, e_mem_insert, mbind, st_bind, get_state. rewrite Hm.
  destruct (WalWriter.append crc32 pwrite (wal_payload k v) (e_wal s)) as [w [n | | |]] eqn:Hap; try done.
  cbn [e_active_mem e_rng].
  destruct (insert_abs (E := write_error) weak_ok k v q ConcurrentSkipList_new (e_rng s) [] new_abs) as (m & g & -> & _ & Hsz).
  cbn [e_active_mem]. rewrite Hsz. rewrite WalWriter.append_result in Hap by done. rewrite len_wal_payload in Hap.
  unfold STAGING_SIZE, HEADER_SIZE in Hap.
  destruct (Z.ltb_spec (1024 * 1024) (4 + 4 + 8 + (5 + len k + len (default [] v)))); [done |].
  change (approximate_size ConcurrentSkipList_new) with 0. pose proof (len_nonneg k). pose proof (len_nonneg (default [] v)).
  rewrite wrap64_small by (unfold is_u64; lia).
  rewrite (proj2 (Z.leb_gt _ _)) by (unfold MEMTABLE_LIMIT; lia). intros [= <-]. by exists n.
Qed.

End owner.

(** ** Flushing into any levels *)

Section publishing.
  Context `{FS : FileOpsSpec} `{!BoundedFile F} `{BHS : BinaryHeapSpec}.

Lemma levels_files fs w t0s t1s : levels_ok w t0s t1s -> (forall p, p ∈ paths_of (t0s ++ t1s) -> fs !! p = files w !! p) ->
  levels_ok (mk_world fs (compactor w)) t0s t1s.
Proof.
  intros [Hl0 Hl1 Hholds Hl0k Hl1k Hapart Hsm Hpaths Hfresh] Hp. split; cbn [compactor files]; try done.
  apply Forall_forall. intros t Ht. rewrite Forall_forall in Hholds. apply (holds_files (files w)); [| by apply Hholds].
  by apply Hp, paths_in.
Qed.

Lemma levels_delete w t0s t1s p : levels_ok w t0s t1s -> p ∉ paths_of (t0s ++ t1s) ->
  levels_ok (mk_world (base.delete p (files w)) (compactor w)) t0s t1s.
Proof. intros Hlv Hp. apply levels_files; [done |]. intros q Hq. apply lookup_delete_ne. by intros ->. Qed.

(** What [publish] leaves, when [w1] has the table in level 0: it stays there or is
    compacted into level 1, the newest version of every key either way; a panic
    only when there are four tables and the one that they are merged into cannot
    be written. *)
Definition published (w1 : world) t0s t1s (t : TableMetadata * list entry) (r : shared * outcome Prelude.io_error unit) : Prop :=
  match r with
  | (sh', Ok tt) => poisoned sh' = false /\
      (levels_ok (sh_world sh') (t0s ++ [t]) t1s \/
       exists t1s', levels_ok (sh_world sh') [] t1s' /\
         forall k, newest_version true (entries ((t0s ++ [t]) ++ t1s)) k (lookup_entries (entries t1s') k))
  | (_, Panic) => L0_TRIGGER_COUNT <= len (t0s ++ [t]) /\
      exists f, merged_table (files w1) (merge_inputs (compactor w1)) f /\ table_fails f
  | _ => False
  end.

Lemma publish_levels task p f es w t0s t1s : levels_ok w t0s t1s -> files w !! p = Some f -> full_table f es ->
  merge_sorted es -> es <> [] -> p ∉ paths_of (t0s ++ t1s) -> task_wal_path task ∉ p :: paths_of (t0s ++ t1s) ->
  (forall i, l1_path (db_dir (compactor w)) i ∉ [p; task_wal_path task]) ->
  0 <= next_sst_id (compactor w) < 2 ^ 64 - 2 ->
  let lo := default [] (ekey <$> hd_error es) in
  let hi := default [] (ekey <$> last es) in
  published (mk_world (files w) (add_l0_table (compactor w) p lo hi)) t0s t1s
    (mk_TableMetadata (next_sst_id (compactor w)) p lo hi, es) (publish task p lo hi (mk_shared w false)).
Proof.
  intros Hlv Hf Ht Hs Hne Hp Hwal Hl1 Hid lo hi.
  assert (levels_ok (mk_world (files w) (add_l0_table (compactor w) p lo hi))
    (t0s ++ [(mk_TableMetadata (next_sst_id (compactor w)) p lo hi, es)]) t1s) as Hadd.
  { rewrite <- (insert_id (files w) p f Hf). apply add_l0_levels; try done; [| lia].
    intros i Hi. apply (Hl1 i). rewrite Hi. constructor. }
  set (t := (mk_TableMetadata (next_sst_id (compactor w)) p lo hi, es)) in *.
  unfold publish. cbn [poisoned sh_world]. set (w1 := mk_world _ _) in *.
  assert (next_sst_id (compactor w1) = next_sst_id (compactor w) + 1) as Hid1.
  { unfold w1. cbn [compactor add_l0_table next_sst_id]. apply wrap64_small. unfold is_u64. lia. }
  pose proof (compaction_run w1 _ _ Hadd ltac:(rewrite Hid1; lia)) as Hc.
  assert (task_wal_path task ∉ paths_of ((t0s ++ [t]) ++ t1s)) as Hw1.
  { intros (u & Hu & Hin)%list_elem_of_fmap. apply Hwal. rewrite Hu. rewrite !elem_of_app, list_elem_of_singleton in Hin.
    destruct Hin as [[Hin | ->] | Hin]; [right; apply paths_in, elem_of_app; by left | by left |].
    right. apply paths_in, elem_of_app. by right. }
  destruct (maybe_schedule_compaction w1) as [w2 [[[]|] | | |]]; try done; cbn [published sh_world poisoned].
  - destruct Hc as (_ & t1s' & Hlv' & _ & _ & Hpaths & Hnew). split; [done |]. right. exists t1s'. split; [| done].
    apply levels_delete; [done |]. cbn [app]. intros [Hin | Heq]%Hpaths.
    + apply Hw1. unfold paths_of in *. rewrite fmap_app, elem_of_app. by right.
    + apply (Hl1 (next_sst_id (compactor w1))). change (db_dir (compactor w)) with (db_dir (compactor w1)). rewrite <- Heq. right. left.
  - destruct Hc as [-> _]. split; [done |]. left. by apply levels_delete.
Qed.


(** What building and publishing a task leaves. *)
Definition flush_post (task : FlushTask) (es : list entry) (w : world) (t0s t1s : list (TableMetadata * list entry)) : Prop :=
  match build_table task w with
  | (w', Ok (p, lo, hi)) =>
      published (mk_world (files w') (add_l0_table (compactor w') p lo hi)) t0s t1s
        (mk_TableMetadata (next_sst_id (compactor w)) p lo hi, ordered es) (publish task p lo hi (mk_shared w' false))
  | (_, Panic) => table_fails (table_of (ordered es))
  | _ => False
  end.

(** A whole flush. *)
Lemma flush_levels_ok task es w t0s t1s : let p := sst_path_of (task_wal_path task) in
  levels_ok w t0s t1s -> abs (memtable task) (ordered es) -> Forall entry_ok es -> es <> [] ->
  StronglySorted (fun a b : entry => a.2 <= b.2) es ->
  p ∉ paths_of (t0s ++ t1s) -> task_wal_path task ∉ p :: paths_of (t0s ++ t1s) ->
  (forall i, l1_path (db_dir (compactor w)) i ∉ [p; task_wal_path task]) ->
  0 <= next_sst_id (compactor w) < 2 ^ 64 - 2 ->
  flush_post task es w t0s t1s.
Proof.
  intros p Hlv Ha Hok Hne Hq Hp Hwal Hl1 Hid. unfold flush_post. pose proof (build_table_any es task w Ha Hok Hne) as Hb.
  destruct (build_table task w) as [w' [[[p' lo] hi] | | |]]; try done; [| by destruct Hb].
  destruct Hb as (Hp1 & Hc & (f & Hf & Ht) & -> & ->). fold p in Hp1. subst p'. rewrite <- Hc.
  destruct w' as [fs c]. cbn [files compactor] in *. subst fs c.
  pose proof (publish_levels task p f (ordered es) (mk_world (<[p := f]> (files w)) (compactor w)) t0s t1s) as Hpub.
  cbn [files compactor] in Hpub. apply Hpub; try done; clear Hpub.
  - apply levels_files; [done |]. intros q Hin. apply lookup_insert_ne. by intros ->.
  - apply lookup_insert_eq.
  - by apply ordered_merge_sorted.
  - destruct (ordered_nonempty es Hne) as (x & l & ->). done.
Qed.

End publishing.

(** * Properties *)

Section properties.
  Context (crc32 : bytes -> Z) (pwrite : bytes -> bytes -> Z -> bytes * Z) (ftruncate : bytes -> Z -> bytes * Z).
  Context `{FS : FileOpsSpec} `{!BoundedFile F} `{BHS : BinaryHeapSpec} `{BSS : BinarySearchSpec}.



(** The engine flushes at most once in its life: after any such run level 0 has at most one
    table, the queue at most one task, and level 1 is empty, so [maybe_schedule_compaction], which
    needs four tables, never merges anything. *)
Theorem engine_flushes_once (dir : string) (fs : gmap path bytes) (seed : Z) (evs : list event)
    (Hev : Forall event_ok evs) (Hn : Z.of_nat (length evs) < 2 ^ 40) :
  let s := (run_events crc32 pwrite ftruncate evs (EngineNode_open dir fs seed)).1.1 in
  let c := compactor (sh_world (e_shared s)) in
  (length (e_flush_queue s) + length (l0 c) <= 1)%nat /\ l1 c = [].
Proof.
  destruct (run_from_open crc32 pwrite ftruncate dir fs seed evs Hev Hn) as (s & acc & p & active & imm & -> & _ & Hok & _).
  exact (engine_ok_levels dir s active imm Hok).
Qed.

(** A frozen memtable is never released: once there is an immutable memtable, no run of writes
    and thread steps replaces or clears it, changes the log that is written, or adds a task; all
    later writes stay in the active memtable. *)
Theorem engine_never_unfreezes (evs : list event) (s : EngineNode) (m : ConcurrentSkipList)
    (Hm : e_imm_mem s = Some m) :
  let s' := (run_events crc32 pwrite ftruncate evs s).1.1 in
  e_imm_mem s' = Some m /\ e_wal_path s' = e_wal_path s /\
  (length (e_flush_queue s') <= length (e_flush_queue s))%nat.
Proof.
  cbv zeta. revert s Hm. induction evs as [|[weak_ok opens j k v q | i] evs IH]; intros s Hm; cbn [run_events]; [done | |].
  - assert (let s' := (write crc32 pwrite ftruncate weak_ok opens j k v q s).1 in
      e_imm_mem s' = Some m /\ e_wal_path s' = e_wal_path s /\ e_flush_queue s' = e_flush_queue s) as Hw.
    { enough (let s' := (write_internal crc32 pwrite ftruncate weak_ok opens k v q s).1 in
        e_imm_mem s' = Some m /\ e_wal_path s' = e_wal_path s /\ e_flush_queue s' = e_flush_queue s) as Hen.
      { destruct v; cbn [write]; unfold put, delete, mbind at 1, st_bind at 1, lift; by destruct (pin_index j) as [[] | | |]. }
      unfold write_internal, e_wal_append, e_mem_insert, mbind, st_bind, get_state.
      destruct (WalWriter.append _ _ _ _) as [w [n | | |]]; try done.
      cbn [e_active_mem e_rng]. destruct (SkipList.insert _ _ _ _ _ _) as [[mem g] | | |]; try done.
      destruct (_ <=? _); [| done]. unfold freeze_active_memtable. cbn [e_imm_mem]. by rewrite Hm. }
    destruct (write _ _ _ _ _ _ _ _ _ s) as [s1 r]. cbn [fst] in Hw. destruct Hw as (Hm1 & Hp1 & Hq1).
    specialize (IH s1 Hm1). rewrite Hp1, Hq1 in IH. destruct r as [[] | | |]; cbn [fst]; [| done | by rewrite Hq1..].
    by destruct (run_events _ _ _ evs s1) as [[s' acc] ok].
  - assert (let s' := worker_step i s in e_imm_mem s' = Some m /\ e_wal_path s' = e_wal_path s /\
      (length (e_flush_queue s') <= length (e_flush_queue s))%nat) as (Hm1 & Hp1 & Hq1).
    { unfold worker_step. destruct (e_workers s !! i) as [[| t | t p lo hi |]|]; try done.
      - destruct (e_flush_queue s) as [|t q] eqn:Hq; cbn; rewrite ?Hq; cbn; split_and!; try done; lia.
      - destruct (build_table t _) as [w r]. by destruct r as [[[p lo] hi] | | |].
      - by destruct (publish t p lo hi _) as [sh r]. }
    specialize (IH _ Hm1). rewrite Hp1 in IH. destruct IH as (? & ? & ?). split_and!; [done | done | lia].
Qed.

(** [open] forgets what was stored: whatever files the directory has, logs and tables of an
    earlier engine included, a newly opened engine answers [None] for every key. The log is not
    replayed and the levels are not rebuilt. *)
Theorem open_forgets (avx2 : bool) (dir : string) (fs : gmap path bytes) (seed : Z) (key : bytes) (i : nat)
    (Hi : (i < MAX_THREADS)%nat) : get avx2 (EngineNode_open dir fs seed) key i = Ok None.
Proof.
  destruct (get_engine_ok avx2 dir _ [] None key i (open_engine_ok dir fs seed) Hi) as (r & -> & Hn & _).
  rewrite (proj2 Hn); [done | intros Hin; inversion Hin].
Qed.

(** C3: Flushing as it is meant to be: for a memtable filled in the order of the sequence numbers, a
    log and a table path that no table uses, and levels in order, a background thread's work on the
    task writes exactly the memtable's entries to the table, and then leaves either levels in order
    with the table as the newest of level 0, or, from the fourth table on, a single level 1 with the
    newest version of every key; the levels stay in order when the log is removed. It panics only
    when a file of its own cannot be written: the table of these very entries, or, from the fourth
    table on, the table that the compaction merges out of the levels with this one. *)
Theorem flush_keeps_levels (task : FlushTask) (es : list entry) (w : world)
    (t0s t1s : list (TableMetadata * list entry)) :
  let p := sst_path_of (task_wal_path task) in
  levels_ok w t0s t1s -> abs (memtable task) (ordered es) -> Forall entry_ok es -> es <> [] ->
  StronglySorted (fun a b : entry => a.2 <= b.2) es ->
  p ∉ paths_of (t0s ++ t1s) -> task_wal_path task ∉ p :: paths_of (t0s ++ t1s) ->
  (forall i, l1_path (db_dir (compactor w)) i ∉ [p; task_wal_path task]) ->
  0 <= next_sst_id (compactor w) < 2 ^ 64 - 2 ->
  flush_post task es w t0s t1s.
Proof. exact (flush_levels_ok task es w t0s t1s). Qed.

(** The first write after a restart overwrites the log: an engine opened on a directory whose log
    has the contents [l] starts again at offset 0, so an accepted write replaces the log's first
    sectors by the new record alone, and keeps only what lies behind them. *)
Theorem restart_overwrites_log `{!Pwrite pwrite} (weak_ok opens : bool) (dir : string) (fs : gmap path bytes) (seed : Z)
    (l : bytes) (k : bytes) (v : option bytes) (q : Z) (s' : EngineNode)
    (Hl : fs !! active_wal dir = Some l)
    (Hw : write_internal crc32 pwrite ftruncate weak_ok opens k v q (EngineNode_open dir fs seed) = (s', Ok tt)) :
  let record := frame crc32 (mk_WalRecord 1 (wal_payload k v)) in
  let end_ := next_multiple_of (len record) SECTOR_SIZE in
  WalWriter.file (e_wal s') = record ++ zeros (end_ - len record) ++ drop (Z.to_nat end_) l.
Proof.
  apply first_write in Hw as [n Hw]; [| done | apply open_writer_wf]. revert Hw. unfold EngineNode_open at 1.
  cbn [e_wal]. unfold active_wal in Hl. rewrite Hl. apply (open_append crc32 pwrite l).
Qed.

End properties.

(** Every flush of the engine numbers its table 0: the log's name starts with [active], so the
    prefix [wal.] that the number is parsed after is never there, however often the log has been
    rotated. *)
Theorem flush_number_is_zero (dir : string) (seqs : list Z) :
  sst_id_of (foldl rotated (active_wal dir) seqs) = 0.
Proof.
  assert (exists t, foldl rotated (active_wal dir) seqs = mk_path dir (String "a"%char t)) as [t ->]; [| done].
  change (active_wal dir) with (mk_path dir (String "a"%char "ctive.wal")). generalize "ctive.wal"%string.
  induction seqs as [|q seqs IH]; intros t; [by eexists |]. cbn [foldl].
  destruct (with_extension_first dir "a"%char t ("wal." ++ show_u64 q)%string) as [t' Ht]; [done |].
  unfold rotated at 2. rewrite Ht. apply IH.
Qed.

(** ** Witnesses *)

Definition sample_truncate (f : bytes) (n : Z) : bytes * Z := (take (Z.to_nat n) f, 0).

Definition sample_events : list event :=
  [Write true true 0 [Byte.x61] (Some [Byte.x01]) 1; Worker 0; Write false false 1 [Byte.x61] None 2; Worker 1].

Lemma sample_events_ok : Forall event_ok sample_events /\ Z.of_nat (length sample_events) < 2 ^ 40.
Proof. split; [repeat constructor; by vm_compute | done]. Qed.


Lemma engine_flushes_once_witness :
  (Forall event_ok sample_events /\ Z.of_nat (length sample_events) < 2 ^ 40) /\
  let s := (run_events (F := bounded_file) byte_sum pwrite_all sample_truncate sample_events (EngineNode_open "db" ∅ RNG_SEED)).1.1 in
  let c := compactor (sh_world (e_shared s)) in
  (length (e_flush_queue s) + length (l0 c) <= 1)%nat /\ l1 c = [].
Proof.
  split; [exact sample_events_ok |]. destruct sample_events_ok as [Hev Hn].
  exact (engine_flushes_once (F := bounded_file) byte_sum pwrite_all sample_truncate "db" ∅ RNG_SEED sample_events Hev Hn).
Defined.

(** A frozen memtable with one entry, its task in the queue. *)
Definition one_entry : list entry := [([Byte.x61], Some [Byte.x01], 1)].

Definition one_mem : ConcurrentSkipList :=
  match insert_all (E := fuel_error) (fun _ => true) one_entry ConcurrentSkipList_new RNG_SEED with
  | Ok (s, _) => s
  | _ => ConcurrentSkipList_new
  end.

Lemma one_mem_abs : abs one_mem (ordered one_entry).
Proof.
  unfold one_mem. destruct (built_abs (E := fuel_error) (fun _ => true) one_entry RNG_SEED) as (s & g & -> & Ha). exact Ha.
Qed.

Definition one_task : FlushTask := mk_FlushTask one_mem (active_wal "db").

Definition frozen_engine : EngineNode :=
  mk_EngineNode ConcurrentSkipList_new (Some one_mem) (WalWriter_open []) (rotated (active_wal "db") 1) [one_task]
    (mk_shared (mk_world {[active_wal "db" := [Byte.x07]]} (LeveledCompactor_new "db" 1)) false) [Idle; Idle] RNG_SEED.

(** A rotation whose new log does not open: the write that froze the memtable
    panics, and is read from the frozen memtable. *)
Example rotation_panics :
  let s := mk_EngineNode one_mem None (WalWriter_open []) (active_wal "db") []
    (mk_shared (mk_world ∅ (LeveledCompactor_new "db" 1)) false) [Idle; Idle] RNG_SEED in
  let '(s', r) := freeze_active_memtable sample_truncate false s in
  r = Panic /\ e_imm_mem s' = Some one_mem /\ e_wal_path s' = rotated (active_wal "db") 1 /\
  e_flush_queue s' = [] /\ get true s' [Byte.x61] 0 = Ok (Some (Some [Byte.x01], 1)).
Proof. vm_compute. done. Qed.

Lemma engine_never_unfreezes_witness :
  e_imm_mem frozen_engine = Some one_mem /\
  let s' := (run_events (F := bounded_file) byte_sum pwrite_all sample_truncate sample_events frozen_engine).1.1 in
  e_imm_mem s' = Some one_mem /\ e_wal_path s' = e_wal_path frozen_engine /\
  (length (e_flush_queue s') <= length (e_flush_queue frozen_engine))%nat.
Proof.
  split; [reflexivity |].
  exact (engine_never_unfreezes (F := bounded_file) byte_sum pwrite_all sample_truncate sample_events frozen_engine one_mem eq_refl).
Defined.

(** The three steps of a thread on that task: pop, build, publish. *)
Example flush_runs :
  let s := worker_step (F := bounded_file) 0 (worker_step (F := bounded_file) 0 (worker_step (F := bounded_file) 0 frozen_engine)) in
  let w := sh_world (e_shared s) in
  e_flush_queue s = [] /\ l0 (compactor w) = [mk_TableMetadata 1 (mk_path "db" "active.sst.0") [Byte.x61] [Byte.x61]] /\
  files w !! active_wal "db" = None /\
  search_l0 true (files w) [Byte.x61] (l0 (compactor w)) = Ok (Some (Some [Byte.x01], 1)).
Proof. vm_compute. done. Qed.

Lemma one_task_ok :
  let w := mk_world ∅ (LeveledCompactor_new "db" 1) in
  levels_ok w [] [] /\ Forall entry_ok one_entry /\ StronglySorted (fun a b : entry => a.2 <= b.2) one_entry /\
  (forall i, l1_path "db" i ∉ [mk_path "db" "active.sst.0"; active_wal "db"]).
Proof.
  split; [apply empty_levels |]. split; [repeat constructor; vm_compute; congruence |]. split; [repeat constructor |].
  intros i. rewrite !not_elem_of_cons. split_and!; [| | intros Hin; inversion Hin];
    by apply (l1_path_other "db" "a"%char).
Qed.

Lemma flush_keeps_levels_witness :
  let w := mk_world ∅ (LeveledCompactor_new "db" 1) in
  (levels_ok w [] [] /\ abs (memtable one_task) (ordered one_entry) /\ Forall entry_ok one_entry) /\
  flush_post (F := bounded_file) one_task one_entry w [] [].
Proof.
  intros w. destruct one_task_ok as (Hlv & Hok & Hq & Hl1). split; [exact (conj Hlv (conj one_mem_abs Hok)) |].
  refine (flush_keeps_levels (F := bounded_file) one_task one_entry w [] [] Hlv one_mem_abs Hok _ Hq _ _ Hl1 _).
  - discriminate.
  - intros Hin. inversion Hin.
  - intros Hin. apply list_elem_of_singleton in Hin. discriminate.
  - vm_compute. split; congruence.
Defined.

(** A directory with the log of an earlier engine. *)
Definition old_log : bytes := frame byte_sum (mk_WalRecord 1 (wal_payload [Byte.x62] (Some [Byte.x02]))).

Definition reopened : EngineNode * outcome write_error unit :=
  write_internal byte_sum pwrite_all sample_truncate true true [Byte.x61] None 1
    (EngineNode_open "db" {[active_wal "db" := old_log]} RNG_SEED).

Lemma reopened_result : reopened = (reopened.1, Ok tt).
Proof.
  assert (reopened.2 = Ok tt) as Hr by (vm_compute; reflexivity). revert Hr. generalize reopened.
  by intros [s r]; cbn; intros ->.
Qed.

Lemma restart_overwrites_log_witness :
  ((({[active_wal "db" := old_log]} : gmap path bytes) !! active_wal "db" = Some old_log) /\ reopened = (reopened.1, Ok tt)) /\
  let record := frame byte_sum (mk_WalRecord 1 (wal_payload [Byte.x61] None)) in
  let end_ := next_multiple_of (len record) SECTOR_SIZE in
  WalWriter.file (e_wal reopened.1) = record ++ zeros (end_ - len record) ++ drop (Z.to_nat end_) old_log.
Proof.
  assert (({[active_wal "db" := old_log]} : gmap path bytes) !! active_wal "db" = Some old_log) as Hl
    by apply lookup_singleton_eq.
  split; [exact (conj Hl reopened_result) |].
  exact (restart_overwrites_log byte_sum pwrite_all sample_truncate true true "db" _ RNG_SEED old_log [Byte.x61] None 1
    reopened.1 Hl reopened_result).
Defined.

Lemma open_forgets_witness : (0 < MAX_THREADS)%nat /\
  get true (EngineNode_open "db" {[active_wal "db" := old_log]} RNG_SEED) [Byte.x62] 0 = Ok None.
Proof.
  assert (0 < MAX_THREADS)%nat as H0 by (unfold MAX_THREADS; lia).
  split; [exact H0 | exact (open_forgets true "db" _ RNG_SEED [Byte.x62] 0 H0)].
Defined.
