(* ===== verification/Levels.v ===== *)
(** * Reading the two levels (tier3_storage/src/engine.rs, compaction/manager.rs)

    The part of [EngineNode::get] under the compactor's lock asks the tables of level 0
    from the newest on, and then at most one table of level 1, found by binary search.
    Here it meets the levels' invariant of Compaction.v.

    [levels_read_newest]: over tables with one version of a key each, where newer tables
    have newer versions, the search answers the newest version of every key;
    [get_reads_newest]: so does [get] with both memtables in front.
    [compaction_keeps_reads]: with [compaction_keeps_newest], a compaction changes no
    answer.  [empty_table_hides_keys]: both need that no stored key is empty, since a
    table without entries, which a compaction that drops everything leaves in level 1,
    has the range of the empty key. *)

From stdpp Require Import gmap strings.
From S2P Require Import Ebr.
From S2P Require Import Prelude Paths WalWriter BinarySearch Block Footer SSTable SSTableReader.
From S2P Require Import Merge Compaction SkipList MemTable Engine.
#[local] Open Scope Z_scope.

Section levels.
  Context `{FS : FileOpsSpec} `{!BoundedFile F} `{BHS : BinaryHeapSpec} `{BSS : BinarySearchSpec} (avx2 : bool).

Implicit Types (t : TableMetadata * list entry) (ts t0s t1s : list (TableMetadata * list entry)).

Lemma entries_cons t ts : entries (t :: ts) = t.2 ++ entries ts.
Proof. done. Qed.

(** ** Level 0 *)

(** The answer of the newest table that has the key; [ts] are from the newest on. *)
Fixpoint newest_table ts (key : bytes) (r : option (option bytes * Z)) : Prop :=
  match ts with
  | [] => r = None
  | t :: ts =>
      if decide (key ∈ ekey <$> t.2) then exists e, e ∈ t.2 /\ ekey e = key /\ r = Some (eval e)
      else newest_table ts key r
  end.

Lemma search_l0_ok fs ts key : Forall (holds fs) ts -> Forall l0_ok ts ->
  exists r, search_l0 avx2 fs key ts.*1 = Ok r /\ newest_table ts key r /\
    (Forall (fun t => strictly_sorted t.2) ts -> r = lookup_entries (entries ts) key).
Proof.
  induction ts as [|t ts IH]; intros Hh Hok; [by exists None |].
  apply Forall_cons in Hh as [Ht Hh]. apply Forall_cons in Hok as [Hk Hok].
  destruct (IH Hh Hok) as (r & Hr & Hn & Hs). cbn [fmap list_fmap search_l0 newest_table].
  pose proof (l0_sorted t Hk) as Hsort. pose proof Ht as ((f & Hf & Hfull) & _).
  destruct (table_lookup_ok avx2 fs t.1 f t.2 key Hf Hfull Hsort) as (r1 & Hl & Hnone & Hsome & Hstrict).
  destruct (decide (key ∈ ekey <$> t.2)) as [Hin | Hin].
  - pose proof Hin as (e & -> & He)%list_elem_of_fmap. destruct (table_range fs t e Ht Hsort He) as [Hlo Hhi].
    destruct (bleb_spec (smallest_key t.1) (ekey e)); [| done]. destruct (bleb_spec (ekey e) (largest_key t.1)); [| done].
    cbn [andb]. rewrite Hl. cbn [mbind outcome_bind]. destruct r1 as [v|]; [| by destruct (proj1 Hnone eq_refl)].
    exists (Some v). split; [done |]. split.
    { destruct (Hsome v eq_refl) as (x & Hx & Hkx & <-). by exists x. }
    intros [Hst _]%Forall_cons. rewrite entries_cons, lookup_entries_app. by rewrite <- Hstrict.
  - rewrite Hl, (proj2 Hnone Hin). cbn [mbind outcome_bind]. exists r. split; [by destruct (_ && _) |]. split; [done |].
    intros [_ Hst]%Forall_cons. rewrite entries_cons, lookup_entries_app, (proj2 (lookup_entries_none t.2 key) Hin). by apply Hs.
Qed.

(** ** Level 1 *)

Lemma smallest_sorted_by key (ms : list TableMetadata) : StronglySorted smallest_le ms ->
  sorted_by (fun m => bytes_cmp (smallest_key m) key) ms.
Proof.
  intros Hs i j x y Hij Hx Hy. apply rank_mono. destruct (decide (i = j)) as [<- | Hne].
  - replace y with x by congruence. apply ble_refl.
  - eapply (StronglySorted_lookup smallest_le ms i j); eauto. lia.
Qed.

(** The table the binary search picks: one that starts with the key, or the last that
    starts below it. *)
Lemma l1_target_ok ts key : StronglySorted smallest_le ts.*1 ->
  match l1_target ts.*1 key with
  | Some i => exists a t b, ts = a ++ t :: b /\ length a = i /\
      (smallest_key t.1 = key \/ blt (smallest_key t.1) key /\ Forall (fun u => blt key (smallest_key u.1)) b)
  | None => Forall (fun u => blt key (smallest_key u.1)) ts
  end.
Proof.
  intros Hs. unfold l1_target. pose proof (binary_search_spec _ _ _ (smallest_sorted_by key _ Hs)) as Hb.
  assert (forall i m, ts.*1 !! i = Some m -> exists a t b, ts = a ++ t :: b /\ length a = i /\ t.1 = m) as Hat.
  { intros i m Hm. rewrite list_lookup_fmap in Hm. destruct (ts !! i) as [t|] eqn:Ht; [|done]. injection Hm as <-.
    apply list_elem_of_split_length in Ht as (a & b & -> & ->). by exists a, t, b. }
  destruct (binary_search_by _ _) as [i | i].
  - destruct Hb as (m & Hm & He). destruct (Hat i m Hm) as (a & t & b & -> & Hl & <-). exists a, t, b.
    split_and!; [done | done | left]. by apply bytes_cmp_eq.
  - destruct Hb as (Hi & Hlt & Hgt). assert (forall j u, (i <= j)%nat -> ts !! j = Some u -> blt key (smallest_key u.1)) as Habove.
    { intros j u Hj Hu. apply bgt_blt. apply (Hgt j u.1 Hj). by rewrite list_lookup_fmap, Hu. }
    destruct (Nat.ltb_spec 0 i) as [Hpos | Hz].
    + destruct (lookup_lt_is_Some_2 ts.*1 (i - 1)) as [m Hm]; [lia|]. destruct (Hat _ m Hm) as (a & t & b & -> & Hl & <-).
      exists a, t, b. split_and!; [done | done | right]. split; [apply (Hlt (i - 1)%nat); [lia | done]|].
      apply Forall_lookup. intros j u Hu. apply (Habove (i + j)%nat); [lia|].
      rewrite lookup_app_r by lia. replace (i + j - length a)%nat with (S j) by lia. exact Hu.
    + apply Forall_lookup. intros j u Hu. apply (Habove j u); [lia | done].
Qed.

(** The keys of the tables on either side of that table. *)
Lemma above_absent fs ts key : Forall (holds fs) ts -> Forall l1_ok ts ->
  Forall (fun u => blt key (smallest_key u.1)) ts -> key ∉ ekey <$> entries ts.
Proof.
  intros Hh Hok Hab. apply not_in_keys. intros e (u & Hu & He)%entries_elem <-. rewrite Forall_forall in Hh, Hok, Hab.
  destruct (table_range fs u e (Hh u Hu) (l1_sorted u (Hok u Hu)) He) as [Hlo _].
  apply not_blt in Hlo. apply Hlo. exact (Hab u Hu).
Qed.

Lemma below_absent fs a t key : Forall (holds fs) a -> Forall (fun u => apart u.2 t.2) a ->
  Forall (fun u => ble (smallest_key u.1) (smallest_key t.1)) a -> holds fs t ->
  [] ∉ ekey <$> entries a -> ble (smallest_key t.1) key -> key ∉ ekey <$> entries a.
Proof.
  intros Hh Hap Hle Ht Hne Hk. apply not_in_keys. intros e (u & Hu & He)%entries_elem <-.
  rewrite Forall_forall in Hh, Hap, Hle. destruct Ht as (_ & Hst & _), (Hh u Hu) as (_ & Hsu & _).
  destruct u as [mu [|x eu]]; [inversion He|]. destruct t as [mt [|y et]]; cbn in Hst, Hsu.
  - specialize (Hle _ Hu). cbn in Hle. rewrite Hst, Hsu in Hle.
    assert (ekey x = []) as Hx by (destruct (ekey x) as [|b k]; [done | by destruct Hle]).
    destruct Hne. rewrite <- Hx. apply list_elem_of_fmap_2, entries_elem. exists (mu, x :: eu). split; [done | left].
  - cbn in Hk. rewrite Hst in Hk. apply not_blt in Hk. apply Hk.
    apply (Hap _ Hu e y); [done | left].
Qed.

Lemma search_l1_ok fs ts key : Forall (holds fs) ts -> Forall l1_ok ts -> StronglySorted (fun a b => apart a.2 b.2) ts ->
  StronglySorted smallest_le ts.*1 -> [] ∉ ekey <$> entries ts ->
  search_l1 avx2 fs key ts.*1 = Ok (lookup_entries (entries ts) key).
Proof.
  intros Hh Hok Hap Hs Hne. unfold search_l1. pose proof (l1_target_ok ts key Hs) as Ht.
  destruct (l1_target ts.*1 key) as [i|].
  2:{ by rewrite (proj2 (lookup_entries_none _ _) (above_absent fs ts key Hh Hok Ht)). }
  destruct Ht as (a & t & b & -> & <- & Hcase).
  rewrite list_lookup_fmap, list_lookup_middle by done. cbn [fmap option_fmap option_map].
  assert (holds fs t /\ l1_ok t) as [Ht Hokt].
  { rewrite Forall_forall in Hh, Hok. split; [apply Hh | apply Hok]; apply elem_of_app; right; left. }
  pose proof Ht as ((f & Hf & Hfull) & Hsm & _).
  destruct (table_lookup_ok avx2 fs t.1 f t.2 key Hf Hfull (l1_sorted t Hokt)) as (r & Hl & _ & _ & Hstrict).
  rewrite (Hstrict (proj1 Hokt)) in Hl. clear Hstrict. rewrite Hl. destruct (decide (key ∈ ekey <$> t.2)) as [Hin | Hin].
  - apply list_elem_of_fmap in Hin as (e & -> & He).
    destruct (table_range fs t e Ht (l1_sorted t Hokt) He) as [_ Hhi]. destruct (bleb_spec (ekey e) (largest_key t.1)); [|done].
    rewrite (strict_lookup t.2 e (proj1 Hokt) He). f_equal. symmetry. apply strict_lookup; [by apply level_strictly_sorted|].
    apply entries_elem. exists t. split; [apply elem_of_app; right; left | done].
  - rewrite (proj2 (lookup_entries_none t.2 key) Hin).
    rewrite (proj2 (lookup_entries_none (entries (a ++ t :: b)) key)); [by destruct (bleb key _)|].
    rewrite entries_app, fmap_app in Hne |- *. rewrite entries_cons, fmap_app, !elem_of_app in *.
    apply Forall_app in Hh as [Hha [_ Hhb]%Forall_cons]. apply Forall_app in Hok as [_ [_ Hokb]%Forall_cons].
    intros [Hk | [Hk | Hk]]; [|done|].
    + revert Hk. apply (below_absent fs a t key Hha); [| | done | tauto | destruct Hcase as [<- | [? _]]; eauto with keys].
      * apply Forall_forall. intros u Hu. eapply (StronglySorted_app_1_elem_of _ _ _ u t Hap); [done | left].
      * apply Forall_forall. intros u Hu. rewrite fmap_app in Hs.
        eapply (StronglySorted_app_1_elem_of _ _ _ u.1 t.1 Hs); [by apply list_elem_of_fmap_2 | left].
    + destruct Hcase as [Hk' | [_ Hab]]; [|by apply (above_absent fs b key Hhb Hokb Hab)].
      rewrite <- Hk', Hsm in Hin, Hk. destruct t.2 as [|e es]; cbn in *; [tauto|]. destruct Hin. left.
Qed.

(** ** Both levels *)

(** [a] holds the newer version of every key that both have. *)
Definition newer (a b : TableMetadata * list entry) : Prop :=
  forall x y, x ∈ a.2 -> y ∈ b.2 -> ekey x = ekey y -> y.2 < x.2.

(** What the search needs besides the levels' invariant. *)
Record readable t0s t1s : Prop := {
  rd_single : Forall (fun t => strictly_sorted t.2) t0s;
  rd_aged : StronglySorted newer (reverse t0s ++ t1s);
  rd_keys : [] ∉ ekey <$> entries (t0s ++ t1s)
}.

Lemma lookup_newest ts key : StronglySorted newer ts -> Forall (fun t => strictly_sorted t.2) ts ->
  newest_version false (entries ts) key (lookup_entries (entries ts) key).
Proof.
  induction 1 as [|t ts Hs IH Hall]; [intros _; left; intros Hin; inversion Hin|].
  intros [Ht Hts]%Forall_cons. rewrite entries_cons, lookup_entries_app.
  destruct (lookup_entries t.2 key) as [[v q]|] eqn:Hl.
  - apply lookup_entries_elem in Hl as ([[k v'] q'] & He & <- & [= -> ->]). cbn [newest_version ekey]. split; [|done].
    split; [apply elem_of_app; by left|]. intros v' q' [Hin | (u & Hu & Hin)%entries_elem]%elem_of_app.
    + pose proof (strict_lookup _ _ Ht Hin) as H1. pose proof (strict_lookup _ _ Ht He) as H2.
      cbn in H1, H2. rewrite H1 in H2. injection H2 as -> ->. lia.
    + rewrite Forall_forall in Hall. specialize (Hall u Hu _ _ He Hin eq_refl). cbn in Hall. lia.
  - apply lookup_entries_none in Hl. eapply newest_version_perm; [apply app_Permutation_comm|].
    apply newest_extra; [done | by apply IH].
Qed.

Lemma search_levels_ok w t0s t1s key : levels_ok w t0s t1s -> Forall (fun t => strictly_sorted t.2) t0s ->
  [] ∉ ekey <$> entries (t0s ++ t1s) ->
  search_levels avx2 w key = Ok (lookup_entries (entries (reverse t0s ++ t1s)) key).
Proof.
  intros [Hl0 Hl1 Hh Hok0 Hok1 Hap Hsm _ _] Hst Hne. apply Forall_app in Hh as [Hh0 Hh1].
  assert ([] ∉ ekey <$> entries t1s) as Hne1 by (rewrite entries_app, fmap_app, elem_of_app in Hne; tauto).
  unfold search_levels. rewrite Hl0, Hl1, <- fmap_reverse.
  destruct (search_l0_ok (files w) (reverse t0s) key) as (r & -> & _ & Hr); [by rewrite reverse_Permutation..|].
  rewrite Hr by by rewrite reverse_Permutation. cbn [mbind outcome_bind]. rewrite entries_app, lookup_entries_app.
  destruct (lookup_entries (entries (reverse t0s)) key); [done|]. by apply (search_l1_ok (files w)).
Qed.

(** The answer as a caller of [get] sees it: tombstones are absence. *)
Definition visible (r : option (option bytes * Z)) : option (bytes * Z) :=
  match r with Some (Some v, q) => Some (v, q) | _ => None end.

(** Versions of a key have different numbers. *)
Lemma aged_unique ts k v v' q : StronglySorted newer ts -> Forall (fun t => strictly_sorted t.2) ts ->
  (k, v, q) ∈ entries ts -> (k, v', q) ∈ entries ts -> v = v'.
Proof.
  intros Hs Hst (a & Ha & Hx)%entries_elem (b & Hb & Hy)%entries_elem.
  induction Hs as [|t ts Hs IH Hall]; [inversion Ha|]. apply Forall_cons in Hst as [Ht Hst]. rewrite Forall_forall in Hall.
  apply elem_of_cons in Ha as [-> | Ha], Hb as [-> | Hb]; [| | |by apply IH].
  - pose proof (strict_lookup _ _ Ht Hx) as H1. pose proof (strict_lookup _ _ Ht Hy) as H2. cbn in H1, H2. rewrite H1 in H2. by injection H2.
  - specialize (Hall b Hb _ _ Hx Hy eq_refl). cbn in Hall. lia.
  - specialize (Hall a Ha _ _ Hy Hx eq_refl). cbn in Hall. lia.
Qed.

Lemma newest_visible es k r r' : (forall v v' q, (k, v, q) ∈ es -> (k, v', q) ∈ es -> v = v') ->
  newest_version false es k r -> newest_version true es k r' -> visible r' = visible r.
Proof.
  intros Hu. assert (forall v q v' q', is_newest es k v q -> is_newest es k v' q' -> v = v' /\ q = q') as Hn.
  { intros v q v' q' [Hin Hmax] [Hin' Hmax']. assert (q = q') as <- by (specialize (Hmax _ _ Hin'); specialize (Hmax' _ _ Hin); lia).
    split; [by eapply Hu | done]. }
  assert (forall v q, is_newest es k v q -> k ∈ ekey <$> es) as Hk.
  { intros v q [Hin _]. apply (list_elem_of_fmap_2 ekey _ _ Hin). }
  destruct r as [[v q]|], r' as [[v' q']|]; cbn.
  - intros [H1 _] [H2 _]. by destruct (Hn _ _ _ _ H1 H2) as [-> ->].
  - intros [H1 _] [Hno | [_ [q' H2]]]; [by destruct Hno; eapply Hk|]. by destruct (Hn _ _ _ _ H1 H2) as [-> ->].
  - intros [Hno | [? _]] [H2 _]; [by destruct Hno; eapply Hk | done].
  - done.
Qed.

Lemma readable_all w t0s t1s : levels_ok w t0s t1s -> readable t0s t1s ->
  Forall (fun t => strictly_sorted t.2) (reverse t0s ++ t1s) /\ entries (reverse t0s ++ t1s) ≡ₚ entries (t0s ++ t1s).
Proof.
  intros Hlv [Hst _ _]. split; [|apply entries_perm; by rewrite reverse_Permutation].
  apply Forall_app. split; [by rewrite reverse_Permutation|]. eapply Forall_impl; [exact (lv_l1_ok _ _ _ Hlv)|]. by intros t [].
Qed.

Lemma read_newest_ok w t0s t1s key : levels_ok w t0s t1s -> readable t0s t1s ->
  exists r, search_levels avx2 w key = Ok r /\ newest_version false (entries (t0s ++ t1s)) key r.
Proof.
  intros Hlv Hr. destruct (readable_all w t0s t1s Hlv Hr) as [Hst Hp]. destruct Hr as [Hs0 Haged Hne].
  rewrite (search_levels_ok w t0s t1s key Hlv Hs0 Hne). eexists. split; [done|].
  eapply newest_version_perm; [exact Hp|]. by apply lookup_newest.
Qed.

Lemma apart_newer ts : StronglySorted (fun a b => apart a.2 b.2) ts -> StronglySorted newer ts.
Proof.
  induction 1 as [|t ts _ IH Hall]; constructor; [done|]. eapply Forall_impl; [exact Hall|]. intros b Hab x y Hx Hy Heq.
  specialize (Hab x y Hx Hy). rewrite Heq in Hab. by destruct (blt_irrefl (ekey y)).
Qed.

(** What a compaction leaves can be read. *)
Lemma compacted_readable w' t0s t1s t1s' : levels_ok w' [] t1s' -> [] ∉ ekey <$> entries (t0s ++ t1s) ->
  (forall k, newest_version true (entries (t0s ++ t1s)) k (lookup_entries (entries t1s') k)) -> readable [] t1s'.
Proof.
  intros Hlv Hne Hnew. split; [constructor | | ].
  - exact (apart_newer t1s' (lv_apart _ _ _ Hlv)).
  - intros Hin. apply Hne. cbn [app] in Hin. pose proof (Hnew []) as Hn.
    destruct (lookup_entries (entries t1s') []) as [[v q]|] eqn:Hl; [|by apply lookup_entries_none in Hl].
    destruct Hn as [[He _] _]. apply (list_elem_of_fmap_2 ekey _ _ He).
Qed.

(** ** The whole read *)

(** Every entry of [a] is newer than the versions of its key in [b]. *)
Definition newer_versions (a b : list entry) : Prop := forall x y, x ∈ a -> y ∈ b -> ekey x = ekey y -> y.2 < x.2.

(** An answer from newer entries goes before one from older entries. *)
Lemma newest_in_front (a b : list entry) key r1 r2 : some_version a key r1 -> NoDup (ekey <$> a) -> newer_versions a b ->
  newest_version false b key r2 -> newest_version false (a ++ b) key (match r1 with Some v => Some v | None => r2 end).
Proof.
  intros [Hnone Hsome] Hnd Hnew Hb. destruct r1 as [[v q]|].
  - destruct (Hsome _ eq_refl) as ([[k v'] q'] & He & Hk & Hv). cbn in Hk, Hv. injection Hv as -> ->. subst k.
    split; [|done]. split; [apply elem_of_app; by left|]. intros v' q' [Hin | Hin]%elem_of_app.
    + apply list_elem_of_lookup in He as [i Hi], Hin as [j Hj].
      assert (i = j) as <-.
      { apply (NoDup_lookup (ekey <$> a) i j key Hnd); rewrite list_lookup_fmap; [exact (f_equal (fmap ekey) Hi) | exact (f_equal (fmap ekey) Hj)]. }
      pose proof (eq_trans (eq_sym Hi) Hj) as Heq. injection Heq as -> ->. lia.
    + specialize (Hnew _ _ He Hin eq_refl). cbn in Hnew. lia.
  - eapply newest_version_perm; [apply app_Permutation_comm|]. apply newest_extra; [by apply Hnone | done].
Qed.

(** Memtables in which every key is written once, each newer than what is behind it. *)
Record fresh_memtables (active : list entry) (imm : option (list entry)) (old : list entry) : Prop := {
  fm_active : NoDup (ekey <$> active);
  fm_imm : NoDup (ekey <$> default [] imm);
  fm_newer : newer_versions active (default [] imm ++ old);
  fm_newer_imm : newer_versions (default [] imm) old
}.

(** What readers see of a compaction. *)
Definition reads_post (w : world) (r : world * outcome io_error (option unit)) : Prop :=
  match r with
  | (w', Ok _) => (exists t0s t1s, levels_ok w' t0s t1s /\ readable t0s t1s) /\
      forall key, exists r r', search_levels avx2 w key = Ok r /\ search_levels avx2 w' key = Ok r' /\ visible r' = visible r
  | (_, Panic) => exists f, merged_table (files w) (merge_inputs (compactor w)) f /\ table_fails f
  | _ => False
  end.

(** ** Properties *)

(** The two levels are a map: over levels in order, where the tables of level 0 have one
    version of a key each, newer tables have newer versions and no key is empty, the search
    of [EngineNode::get] answers with the newest version of the key in both levels, a
    tombstone included, and [None] exactly for keys in neither. *)
Theorem levels_read_newest (w : world) (t0s t1s : list (TableMetadata * list entry)) (key : bytes)
    (Hlv : levels_ok w t0s t1s) (Hr : readable t0s t1s) :
  exists r, search_levels avx2 w key = Ok r /\ newest_version false (entries (t0s ++ t1s)) key r.
Proof. exact (read_newest_ok w t0s t1s key Hlv Hr). Qed.

(** C6: The whole read path is a map: whatever is in the memtable, the frozen memtable, level 0 and
    level 1, when no memtable and no level-0 table has two versions of a key, newer parts have newer
    versions and no key in a table is empty, [EngineNode::get], called with a thread index of the
    registry, answers with the newest version of the key in all of them, a tombstone included, and
    [None] exactly for a key in none. *)
Theorem get_reads_newest (s : EngineNode) (active : list entry) (imm : option (list entry))
    (t0s t1s : list (TableMetadata * list entry)) (key : bytes) (i : nat) (Hidx : (i < MAX_THREADS)%nat)
    (Ha : abs (e_active_mem s) (ordered active)) (Hi : holds_mem (e_imm_mem s) imm) (Hlock : poisoned (e_shared s) = false)
    (Hlv : levels_ok (sh_world (e_shared s)) t0s t1s) (Hr : readable t0s t1s)
    (Hf : fresh_memtables active imm (entries (t0s ++ t1s))) :
  exists r, Engine.get avx2 s key i = Ok r /\ newest_version false (active ++ default [] imm ++ entries (t0s ++ t1s)) key r.
Proof.
  destruct Hf as [Hnda Hndi Hnew Hnewi]. destruct (read_newest_ok _ t0s t1s key Hlv Hr) as (r3 & H3 & Hn3).
  destruct (get_ordered (E := write_error) _ active key Ha) as (r1 & H1 & Hv1).
  assert (exists r2, match e_imm_mem s with Some m => SkipList.get m key | None => Ok None end = Ok (E := write_error) r2 /\
    some_version (default [] imm) key r2) as (r2 & H2 & Hv2).
  { destruct (e_imm_mem s) as [m|], imm as [es|]; try done; [by apply get_ordered|].
    exists None. split; [done|]. split; [|done]. split; [intros _ Hin; inversion Hin | done]. }
  exists (match r1 with Some v => Some v | None => match r2 with Some v => Some v | None => r3 end end). split.
  - unfold Engine.get. rewrite pin_index_ok by done. cbn [mbind outcome_bind]. rewrite H1. cbn [mbind outcome_bind]. destruct r1; [done|]. rewrite H2. cbn [mbind outcome_bind].
    destruct r2; [done|]. rewrite Hlock. exact H3.
  - apply newest_in_front; [done | done | done |]. by apply newest_in_front.
Qed.

(** C7: A compaction is invisible to readers: over such levels [maybe_schedule_compaction] leaves
    such levels again and changes the answer of no search, except that a key whose newest
    version is a tombstone may now have none; it panics only when the table that this very
    compaction merges cannot be written. *)
Theorem compaction_keeps_reads (w : world) (t0s t1s : list (TableMetadata * list entry))
    (Hlv : levels_ok w t0s t1s) (Hr : readable t0s t1s) (Hid : 0 <= next_sst_id (compactor w) < 2 ^ 64 - 1) :
  reads_post w (maybe_schedule_compaction w).
Proof.
  pose proof (compaction_run w t0s t1s Hlv Hid) as Hc. destruct (readable_all w t0s t1s Hlv Hr) as [Hst Hp].
  destruct (maybe_schedule_compaction w) as [w' [[u|] | e | |]]; try done; cbn in Hc.
  - destruct Hc as (_ & t1s' & Hlv' & _ & _ & _ & Hnew). pose proof (compacted_readable w' t0s t1s t1s' Hlv' (rd_keys _ _ Hr) Hnew) as Hr'.
    split; [by exists [], t1s'|]. intros key. destruct (read_newest_ok w t0s t1s key Hlv Hr) as (r & Hg & Hn).
    exists r, (lookup_entries (entries t1s') key). split; [done|]. split.
    { rewrite (search_levels_ok w' [] t1s' key Hlv'); [done | constructor | exact (rd_keys _ _ Hr')]. }
    eapply newest_visible; [|exact Hn | apply Hnew].
    intros v v' q. rewrite <- Hp. by apply aged_unique; [apply Hr|].
  - destruct Hc as [-> _]. split; [by exists t0s, t1s|]. intros key.
    destruct (read_newest_ok w t0s t1s key Hlv Hr) as (r & Hg & _). by exists r, r.
  - by destruct Hc.
Qed.
End levels.

(** ** Witnesses *)

Definition batch_file (es : list entry) : bytes := file (write_table (F := bounded_file) es SSTableWriter_create).1.

(** A table of [es] joins level 0 at [sample_path i]. *)
Definition add_batch (i : Z) (es : list entry) (w : world) : world :=
  mk_world (<[sample_path i := batch_file es]> (files w))
    (add_l0_table (compactor w) (sample_path i) (default [] (ekey <$> hd_error es)) (default [] (ekey <$> last es))).

Definition batch_meta (i : Z) (es : list entry) : TableMetadata * list entry :=
  (mk_TableMetadata i (sample_path i) (default [] (ekey <$> hd_error es)) (default [] (ekey <$> last es)), es).

(** What a table needs, decided by computation. *)
Definition written_ok (es : list entry) : bool :=
  match write_table (F := bounded_file) es SSTableWriter_create with (s, Ok _) => len (file s) <? 2 ^ 64 | _ => false end.

Lemma batch_full es : written_ok es = true -> Forall entry_ok es -> full_table (batch_file es) es.
Proof.
  unfold written_ok, batch_file. destruct (write_table es SSTableWriter_create) as [s [n | | |]] eqn:Hw; try done.
  intros Hl%Z.ltb_lt Hok. cbn [fst]. apply (written_is_full (F := bounded_file) es _ n Hw Hok).
  pose proof (len_nonneg (file s)). unfold is_u64. lia.
Qed.

Lemma add_batch_levels i es w t0s : levels_ok w t0s [] -> full_table (batch_file es) es ->
  merge_sorted es -> es <> [] -> sample_path i ∉ paths_of (t0s ++ []) ->
  next_sst_id (compactor w) = i -> 0 <= i < 2 ^ 64 - 1 ->
  levels_ok (add_batch i es w) (t0s ++ [batch_meta i es]) [].
Proof.
  intros Hlv Hf Hs Hne Hp Hi Hid.
  pose proof (add_l0_levels w t0s [] (sample_path i) _ _ Hlv Hf Hs Hne Hp (sample_path_other i _)) as Ha.
  rewrite Hi in Ha. exact (Ha Hid).
Qed.

(** Four tables that overwrite one key and delete it in the end. *)
Definition batch (i : Z) : list entry :=
  [([Byte.x61], if i =? 4 then None else Some [Byte.x01], i); ([Byte.x62], Some [Byte.x02], i)].
Definition batch_metas : list (TableMetadata * list entry) := (fun i => batch_meta i (batch i)) <$> [1; 2; 3; 4].
Definition batch_world : world := foldl (fun w i => add_batch i (batch i) w) (mk_world ∅ (LeveledCompactor_new "db" 1)) [1; 2; 3; 4].

Lemma batch_ok i : i ∈ [1; 2; 3; 4] -> full_table (batch_file (batch i)) (batch i) /\ strictly_sorted (batch i).
Proof.
  intros Hi. split; [|repeat constructor]. apply batch_full.
  - rewrite !elem_of_cons in Hi. destruct Hi as [-> | [-> | [-> | [-> | Hi]]]]; [by vm_compute..|inversion Hi].
  - rewrite !elem_of_cons in Hi. destruct Hi as [-> | [-> | [-> | [-> | Hi]]]]; [repeat constructor; vm_compute; congruence..|inversion Hi].
Qed.

Lemma batch_levels : levels_ok batch_world batch_metas [].
Proof.
  assert (forall i, i ∈ [1; 2; 3; 4] -> full_table (batch_file (batch i)) (batch i) /\ merge_sorted (batch i)) as Hb.
  { intros i Hi. destruct (batch_ok i Hi). split; [done | by apply strict_merge_sorted]. }
  change batch_metas with (((([] ++ [batch_meta 1 (batch 1)]) ++ [batch_meta 2 (batch 2)]) ++ [batch_meta 3 (batch 3)]) ++ [batch_meta 4 (batch 4)]).
  unfold batch_world. cbn [foldl].
  repeat (apply add_batch_levels; [| apply Hb; rewrite !elem_of_cons; tauto | apply Hb; rewrite !elem_of_cons; tauto | done | | done | done]).
  1: apply empty_levels.
  all: cbn; rewrite ?not_elem_of_cons; split_and?; try done; intros Hin; inversion Hin.
Qed.

Lemma batch_readable : readable batch_metas [].
Proof.
  split.
  - repeat constructor.
  - cbn. repeat constructor; intros x y Hx Hy Hxy; cbn in Hx, Hy;
      repeat (apply elem_of_cons in Hx as [-> | Hx]; [|]); try by inversion Hx.
    all: repeat (apply elem_of_cons in Hy as [-> | Hy]; [|]); try by inversion Hy.
    all: done.
  - cbn. rewrite ?not_elem_of_cons. split_and?; try done; intros Hin; inversion Hin.
Qed.

Lemma levels_read_newest_witness :
  (levels_ok batch_world batch_metas [] /\ readable batch_metas []) /\
  exists r, search_levels true batch_world [Byte.x61] = Ok r /\ newest_version false (entries (batch_metas ++ [])) [Byte.x61] r.
Proof.
  split; [exact (conj batch_levels batch_readable)|].
  exact (levels_read_newest true batch_world batch_metas [] [Byte.x61] batch_levels batch_readable).
Defined.

(** An engine with all four parts: the frozen memtable deletes [b], the active one writes
    [a] again, over the levels of [batch_world]. *)
Definition mem_of (es : list entry) : ConcurrentSkipList :=
  match insert_all (E := fuel_error) (fun _ => true) es ConcurrentSkipList_new RNG_SEED with
  | Ok (m, _) => m
  | _ => ConcurrentSkipList_new
  end.

Lemma mem_of_abs es : abs (mem_of es) (ordered es).
Proof. unfold mem_of. destruct (built_abs (E := fuel_error) (fun _ => true) es RNG_SEED) as (s & g & -> & Ha). exact Ha. Qed.

Definition active_batch : list entry := [([Byte.x61], Some [Byte.x09], 9)].
Definition frozen_batch : list entry := [([Byte.x62], None, 8)].
Definition full_engine : EngineNode :=
  mk_EngineNode (mem_of active_batch) (Some (mem_of frozen_batch)) (WalWriter_open []) (active_wal "db") []
    (mk_shared batch_world false) [Idle; Idle] RNG_SEED.

Lemma full_engine_fresh : fresh_memtables active_batch (Some frozen_batch) (entries (batch_metas ++ [])).
Proof.
  split; [apply NoDup_singleton | apply NoDup_singleton | |]; cbn; intros x y ->%list_elem_of_singleton Hy Hxy;
    repeat (apply elem_of_cons in Hy as [-> | Hy]; [done|]); inversion Hy.
Qed.

Lemma get_reads_newest_witness :
  ((0 < MAX_THREADS)%nat /\ abs (e_active_mem full_engine) (ordered active_batch) /\ poisoned (e_shared full_engine) = false /\
   levels_ok (sh_world (e_shared full_engine)) batch_metas [] /\ readable batch_metas [] /\
   fresh_memtables active_batch (Some frozen_batch) (entries (batch_metas ++ []))) /\
  exists r, Engine.get true full_engine [Byte.x62] 0 = Ok r /\
    newest_version false (active_batch ++ default [] (Some frozen_batch) ++ entries (batch_metas ++ [])) [Byte.x62] r.
Proof.
  assert (0 < MAX_THREADS)%nat as H0 by (unfold MAX_THREADS; lia).
  split; [exact (conj H0 (conj (mem_of_abs active_batch) (conj eq_refl (conj batch_levels (conj batch_readable full_engine_fresh)))))|].
  exact (get_reads_newest true full_engine active_batch (Some frozen_batch) batch_metas [] [Byte.x62] 0 H0 (mem_of_abs active_batch)
    (mem_of_abs frozen_batch) eq_refl batch_levels batch_readable full_engine_fresh).
Defined.

(** A value from the active memtable, a tombstone from the frozen one, and nothing. *)
Example full_engine_reads : (fun k => Engine.get true full_engine [k] 0) <$> [Byte.x61; Byte.x62; Byte.x63] =
  [Ok (Some (Some [Byte.x09], 9)); Ok (Some (None, 8)); Ok None].
Proof. vm_compute. done. Qed.

Lemma batch_next_id : 0 <= next_sst_id (compactor batch_world) < 2 ^ 64 - 1.
Proof. assert (next_sst_id (compactor batch_world) = 5) as -> by by vm_compute. lia. Qed.

Lemma compaction_keeps_reads_witness :
  (levels_ok batch_world batch_metas [] /\ readable batch_metas [] /\ 0 <= next_sst_id (compactor batch_world) < 2 ^ 64 - 1) /\
  reads_post (F := bounded_file) true batch_world (maybe_schedule_compaction (F := bounded_file) batch_world).
Proof.
  split; [exact (conj batch_levels (conj batch_readable batch_next_id))|].
  exact (compaction_keeps_reads (F := bounded_file) true batch_world batch_metas [] batch_levels batch_readable batch_next_id).
Defined.

(** The compaction of that world: one table, without the deleted key. *)
Example batch_compacts :
  let w := (maybe_schedule_compaction (F := bounded_file) batch_world).1 in
  (id <$> l0 (compactor w), id <$> l1 (compactor w)) = ([], [5]) /\
  (fun k => (search_levels true batch_world [k], search_levels true w [k])) <$> [Byte.x61; Byte.x62; Byte.x63] =
    [(Ok (Some (None, 4)), Ok None); (Ok (Some (Some [Byte.x02], 4)), Ok (Some (Some [Byte.x02], 4))); (Ok None, Ok None)].
Proof. vm_compute. done. Qed.

(** ** Empty tables *)

(** Four tables with the empty key and [a], compacted; then four with a deletion of [b],
    which is nowhere. *)
Definition compacted (first : Z) (es : list entry) (w : world) : world :=
  (maybe_schedule_compaction (F := bounded_file)
    (foldl (fun w i => add_batch i es w) w (seqZ first 4))).1.

Definition stored : world :=
  compacted 1 [([], Some [Byte.x01], 1); ([Byte.x61], Some [Byte.x02], 2)] (mk_world ∅ (LeveledCompactor_new "db" 1)).
Definition emptied : world := compacted 6 [([Byte.x62], None, 3)] stored.

(** A compaction that drops all its entries leaves a table without entries in level 1, whose
    smallest and largest key are both the empty key. When the empty key is stored, that table may
    stand behind the table that has it, and the binary search then picks the table without
    entries: a key that was read before the compaction, and has not been written since, is gone. *)
Theorem empty_table_hides_keys :
  let key := [Byte.x61] in
  (fun m => (smallest_key m, largest_key m)) <$> l1 (compactor stored) = [([], [Byte.x61])] /\
  (fun m => (smallest_key m, largest_key m)) <$> l1 (compactor emptied) = [([], [Byte.x61]); ([], [])] /\
  search_levels true stored key = Ok (Some (Some [Byte.x02], 2)) /\ search_levels true emptied key = Ok None /\
  search_levels true stored [] = Ok (Some (Some [Byte.x01], 1)) /\ search_levels true emptied [] = Ok None.
Proof. vm_compute. done. Qed.
