(* ===== verification/EngineBenchmark.v ===== *)
(** * The storage benchmark (tier3_storage/src/bin/engine_benchmark.rs)

    The benchmark is the client that uses the whole path of a table: it fills a
    memtable, writes tables of consecutive keys into level 0 and lets the compactor run
    after each, and then asks the readers of level 1 for every key.  Times and ratios are
    not modelled.

    [benchmark_reads_all]: for any number of tables and of keys to a table (up to 10^8
    keys, the width of the key format), unless one of its tables cannot be written, the levels hold
    exactly the entries written, and with a multiple of four tables every point read
    hits. *)

From Stdlib Require Import Ascii String NArith DecimalString DecimalNat DecimalPos DecimalN DecimalFacts.
From stdpp Require Import gmap strings.
From S2P Require Import Prelude Paths BinarySearch Block Footer SSTable SSTableReader.
From S2P Require Import Merge Compaction SkipList MemTable Engine Levels.
#[local] Open Scope Z_scope.

(** ** Keys *)

(** [{:08}], and [into_bytes]. *)
Definition show_08 (n : Z) : string := let s := show_u64 n in pad_zeros (8 - String.length s) s.
Definition into_bytes (s : string) : bytes := list_byte_of_string s.

Definition bench_key (i : Z) : bytes := into_bytes ("k_" ++ show_08 i).
Definition bench_val (i : Z) : bytes := into_bytes ("v_" ++ show_08 i).
Definition bench_entry (i : Z) : entry := (bench_key i, Some (bench_val i), i).

(** A string of digits is a number between the powers of ten of its length. *)
Lemma digit_range c d : digit c = Some d -> 0 <= d < 10 /\ byte.unsigned (byte_of_ascii c) = d + 48.
Proof. destruct c as [[] [] [] [] [] [] [] []]; vm_compute; intros [= <-]; repeat split; congruence. Qed.

Lemma parse_bounds s p a : 0 <= p -> parse_digits p s = Some a ->
  p * 10 ^ Z.of_nat (String.length s) <= a < (p + 1) * 10 ^ Z.of_nat (String.length s).
Proof.
  revert p. induction s as [|c s IH]; intros p Hp; cbn [parse_digits String.length]; [intros [= <-]; change (Z.of_nat 0) with 0; lia|].
  destruct (digit c) as [d|] eqn:Hd; [|done]. apply digit_range in Hd as [Hd _].
  destruct (_ <? _); [|done]. intros Ha%IH; [|lia]. rewrite Nat2Z.inj_succ, Z.pow_succ_r by lia. nia.
Qed.

(** Strings of digits of one length are ordered as their numbers. *)
Lemma digits_order s t p a b : 0 <= p -> String.length s = String.length t ->
  parse_digits p s = Some a -> parse_digits p t = Some b -> a < b -> blt (into_bytes s) (into_bytes t).
Proof.
  revert t p. induction s as [|c s IH]; intros [|d t] p Hp Hl; cbn [parse_digits String.length] in *; try done.
  { intros [= <-] [= <-]. lia. }
  destruct (digit c) as [x|] eqn:Hc; [|done]. destruct (digit d) as [y|] eqn:Hd; [|done].
  apply digit_range in Hc as [Hx Hbx]. apply digit_range in Hd as [Hy Hby].
  destruct (_ <? _); [|done]. destruct (_ <? _); [|done]. intros Ha Hb Hab.
  pose proof (parse_bounds s (p * 10 + x) a ltac:(lia) Ha) as Hra. pose proof (parse_bounds t (p * 10 + y) b ltac:(lia) Hb) as Hrb.
  injection Hl as Hl. rewrite Hl in Hra. unfold blt, into_bytes.
  change (bytes_cmp (byte_of_ascii c :: list_byte_of_string s) (byte_of_ascii d :: list_byte_of_string t) = Lt).
  cbn [bytes_cmp]. unfold byte.compare. rewrite Hbx, Hby.
  assert (x < y \/ x = y) as [Hlt | ->].
  { assert (0 < 10 ^ Z.of_nat (String.length t)) by (apply Z.pow_pos_nonneg; lia). nia. }
  - by rewrite (proj2 (Z.compare_lt_iff (x + 48) (y + 48))) by lia.
  - rewrite Z.compare_refl. apply (IH t (p * 10 + y)); [lia | done..].
Qed.

(** The number of digits. *)
Lemma to_uint_lead n d : (0 < n)%N -> N.to_uint n <> Decimal.D0 d.
Proof.
  intros Hn Heq. pose proof (DecimalN.Unsigned.of_to n) as Ho.
  pose proof (DecimalN.Unsigned.to_of (N.to_uint n)) as Hu. rewrite Ho in Hu.
  destruct (Decimal.uint_eq_dec (Decimal.nzhead (N.to_uint n)) Decimal.Nil) as [Hz | Hz].
  - apply unorm_0 in Hz. rewrite <- Hu in Hz. rewrite Hz in Ho. cbn in Ho. lia.
  - apply (nzhead_nonzero (N.to_uint n) d). rewrite <- (unorm_nzhead _ Hz), <- Hu. done.
Qed.

Lemma show_length n k : 0 <= n < 10 ^ Z.of_nat k -> is_u64 n -> (0 < k)%nat -> (String.length (show_u64 n) <= k)%nat.
Proof.
  intros Hn Hu Hk. destruct (decide (n = 0)) as [-> | Hne]; [cbn; lia|].
  pose proof (show_digits n Hu) as Hp. unfold show_u64 in *. pose proof (to_uint_lead (Z.to_N n)) as Hl.
  assert (forall d s, 0 < d -> parse_digits d s = Some n -> (S (String.length s) <= k)%nat) as Hb.
  { intros d s Hd Hs. apply parse_bounds in Hs as [Hs _]; [|lia].
    assert (10 ^ Z.of_nat (String.length s) < 10 ^ Z.of_nat k) as Hlt by nia. apply Z.pow_lt_mono_r_iff in Hlt; lia. }
  destruct (N.to_uint (Z.to_N n)) as [|d|d|d|d|d|d|d|d|d|d]; [cbn; lia | exfalso; apply (Hl d); [lia | done] | ..].
  all: cbn [NilEmpty.string_of_uint String.length]; cbn [NilEmpty.string_of_uint parse_digits] in Hp.
  all: match type of Hp with context [digit ?c] => let x := eval vm_compute in (digit c) in change (digit c) with x in Hp end.
  all: cbn iota in Hp; destruct (_ <? _); [|done]; eapply Hb; [|exact Hp]; lia.
Qed.

Lemma length_pad n s : String.length (pad_zeros n s) = (n + String.length s)%nat.
Proof. induction n as [|n IH]; [done|]. cbn. by rewrite IH. Qed.

Lemma show_08_length n : 0 <= n < 10 ^ 8 -> String.length (show_08 n) = 8%nat.
Proof.
  intros Hn. unfold show_08. rewrite length_pad. assert (String.length (show_u64 n) <= 8)%nat; [|lia].
  apply show_length; [exact Hn | unfold is_u64; lia | lia].
Qed.

(** The keys are in the order of their numbers. *)
Lemma bench_key_lt i j : 0 <= i < j -> j < 10 ^ 8 -> blt (bench_key i) (bench_key j).
Proof.
  intros Hi Hj. assert (forall n, 0 <= n < 10 ^ 8 -> parse_digits 0 (show_08 n) = Some n) as Hs.
  { intros n Hn. unfold show_08. rewrite parse_pad. apply show_digits. unfold is_u64. lia. }
  unfold bench_key, into_bytes.
  change (blt (Byte.x6b :: Byte.x5f :: into_bytes (show_08 i)) (Byte.x6b :: Byte.x5f :: into_bytes (show_08 j))).
  unfold blt. cbn [bytes_cmp]. change (byte.compare Byte.x6b Byte.x6b) with Eq. change (byte.compare Byte.x5f Byte.x5f) with Eq.
  apply (digits_order _ _ 0 i j); [lia | by rewrite !show_08_length by lia | apply Hs; lia.. | lia].
Qed.

(** ** The benchmark *)

Section benchmark.
  Context `{F : FileOps} `{BH : BinaryHeap} `{BS : BinarySearch} (avx2 : bool).

Definition bench_entries (first count : Z) : list entry := bench_entry <$> seqZ first count.

(** [db_path.join(format!("{:06}_L0.sst", t))]. *)
Definition bench_path (dir : string) (t : Z) : path := mk_path dir (show_06 t ++ "_L0.sst")%string.

Definition add_l0 (p : path) (smallest largest : bytes) : st world io_error unit := fun w =>
  (mk_world (files w) (add_l0_table (compactor w) p smallest largest), Ok tt).

(** One turn of the loop of the second part: the bytes written. *)
Definition bench_table (dir : string) (keys_per_sstable t : Z) : st world io_error Z :=
  let sst_path := bench_path dir t in
  let start_k := t * keys_per_sstable in
  r ← table_at sst_path (bench_entries start_k keys_per_sstable);
  let '(written_bytes, smallest, largest) := r in
  add_l0 sst_path smallest largest;;
  maybe_schedule_compaction;;
  mret written_bytes.

Fixpoint bench_tables (dir : string) (keys_per_sstable : Z) (ts : list Z) (total_bytes_written : Z) : st world io_error Z :=
  match ts with
  | [] => mret total_bytes_written
  | t :: ts =>
      written_bytes ← bench_table dir keys_per_sstable t;
      bench_tables dir keys_per_sstable ts (wrap64 (total_bytes_written + written_bytes))
  end.

(** [SSTableReader::open(&meta.path).unwrap()] for the tables of level 1. *)
Definition open_reader (fs : gmap path bytes) (meta : TableMetadata) : outcome io_error SSTableReader :=
  f ← expect (read_file fs (path_of meta));
  expect (SSTableReader_open f).

(** The readers are asked until one has the key. *)
Fixpoint hit (readers : list SSTableReader) (key : bytes) : outcome io_error bool :=
  match readers with
  | [] => Ok false
  | r :: readers =>
      res ← SSTableReader.get avx2 r key;
      match res with Some _ => Ok true | None => hit readers key end
  end.

Fixpoint count_hits (readers : list SSTableReader) (ops : list Z) (hits : Z) : outcome io_error Z :=
  match ops with
  | [] => Ok hits
  | i :: ops =>
      b ← hit readers (bench_key i);
      count_hits readers ops (if b : bool then hits + 1 else hits)
  end.

Record bench_result := mk_bench_result { bench_mem : ConcurrentSkipList; bytes_written : Z; point_reads_hit : Z }.

(** [main], in a new directory; [weak] and [rng] are the memtable's. *)
Definition engine_benchmark (weak : nat -> bool) (rng : Z) (dir : string) (total_operations keys_per_sstable : Z) : st world io_error bench_result :=
  let num_tables := total_operations / keys_per_sstable in
  m ← lift (insert_all weak (bench_entries 0 total_operations) ConcurrentSkipList_new rng);
  written ← bench_tables dir keys_per_sstable (seqZ 0 num_tables) 0;
  w ← get_state;
  readers ← lift (mapM (open_reader (files w)) (l1 (compactor w)));
  hits ← lift (count_hits readers (seqZ 0 total_operations) 0);
  mret (mk_bench_result m.1 written hits).

End benchmark.

(** ** The entries *)

Lemma bench_entries_elem a n e : e ∈ bench_entries a n <-> exists i, a <= i < a + n /\ e = bench_entry i.
Proof.
  unfold bench_entries. rewrite list_elem_of_fmap. setoid_rewrite elem_of_seqZ.
  split; intros (i & H1 & H2); exists i; by split.
Qed.

Lemma bench_entries_cons a n : 0 < n -> bench_entries a n = bench_entry a :: bench_entries (Z.succ a) (Z.pred n).
Proof. intros Hn. unfold bench_entries. by rewrite seqZ_cons by lia. Qed.

Lemma bench_sorted a n : 0 <= a -> a + n <= 10 ^ 8 -> strictly_sorted (bench_entries a n).
Proof.
  intros Ha Hn. destruct (Z.le_gt_cases n 0); [unfold bench_entries; rewrite seqZ_nil by lia; constructor|].
  assert (0 <= n) as Hpos by lia. clear H. revert a Ha Hn. pattern n. revert n Hpos. apply natlike_ind; [constructor|].
  intros n Hpos IH a Ha Hn. rewrite bench_entries_cons, Z.pred_succ by lia. constructor; [apply IH; lia|].
  apply Forall_fmap, Forall_forall. intros e (i & Hi & ->)%bench_entries_elem. apply (bench_key_lt a i); lia.
Qed.

Lemma length_into_bytes s : length (into_bytes s) = String.length s.
Proof. unfold into_bytes. induction s as [|c s IH]; [done|]. exact (f_equal S IH). Qed.

Lemma bench_entry_ok i : 0 <= i < 10 ^ 8 -> entry_ok (bench_entry i).
Proof.
  intros Hi. pose proof (show_08_length i Hi) as Hl.
  assert (len (bench_key i) = 10 /\ len (bench_val i) = 10) as [Hk Hv].
  { unfold len, bench_key, bench_val. by rewrite !length_into_bytes, !length_string_app, Hl. }
  unfold entry_ok. cbn [bench_entry ekey fst snd]. rewrite Hk, Hv. unfold is_u32, is_u64, TOMBSTONE_VAL_LEN, u32_max. lia.
Qed.

Lemma bench_entries_ok a n : 0 <= a -> a + n <= 10 ^ 8 -> Forall entry_ok (bench_entries a n).
Proof. intros Ha Hn. apply Forall_forall. intros e (i & Hi & ->)%bench_entries_elem. apply bench_entry_ok. lia. Qed.

(** ** Paths *)

Lemma l0_l1_path dir dir' t i : bench_path dir t <> l1_path dir' i.
Proof.
  unfold bench_path, l1_path. intros [= _ Heq]. apply (f_equal (fun s => nth_error (rev (list_ascii_of_string s)) 4)) in Heq.
  assert (forall a b, list_ascii_of_string (a ++ b) = (list_ascii_of_string a ++ list_ascii_of_string b)%list) as Happ.
  { intros a b. induction a as [|c a IH]; [done|]. exact (f_equal (cons c) IH). }
  rewrite !Happ, !rev_app_distr in Heq. discriminate.
Qed.

Lemma bench_path_inj dir t u : is_u64 t -> is_u64 u -> bench_path dir t = bench_path dir u -> t = u.
Proof. intros Ht Hu [= Hs]. apply (string_app_inj_l "_L0.sst") in Hs. by apply show_06_inj. Qed.

Section properties.
  Context `{FS : FileOpsSpec} `{!BoundedFile F} `{BHS : BinaryHeapSpec} `{BSS : BinarySearchSpec} (avx2 : bool).
  Context (dir : string) (keys : Z) (Hkeys : 0 < keys).

(** After [t] tables: the levels hold the first [t * keys] entries, [t mod 4] tables
    wait in level 0, and names come from the tables made so far. *)
Record bench_inv (t : Z) (w : world) (t0s t1s : list (TableMetadata * list entry)) : Prop := {
  bi_levels : levels_ok w t0s t1s;
  bi_entries : forall e, e ∈ entries (t0s ++ t1s) <-> e ∈ bench_entries 0 (t * keys);
  bi_waiting : len t0s = t mod 4;
  bi_dir : db_dir (compactor w) = dir;
  bi_ids : 0 <= next_sst_id (compactor w) <= 1 + 2 * t;
  bi_paths : forall p, p ∈ paths_of (t0s ++ t1s) -> (exists i, p = l1_path dir i) \/ exists u, 0 <= u < t /\ p = bench_path dir u
}.

(** A key that has one version, not a tombstone, is kept by a compaction. *)
Lemma newest_elem (es out : list entry) : strictly_sorted out ->
  (forall e e', e ∈ es -> e' ∈ es -> ekey e = ekey e' -> e = e') -> (forall e, e ∈ es -> e.1.2 <> None) ->
  (forall k, newest_version true es k (lookup_entries out k)) -> forall e, e ∈ out <-> e ∈ es.
Proof.
  intros Hs Hu Hlive Hn [[k v] q]. specialize (Hn k). split; intros He.
  - pose proof (strict_lookup out _ Hs He) as Hl. cbn in Hl. rewrite Hl in Hn. by destruct Hn as [[Hin _] _].
  - destruct (lookup_entries out k) as [[v' q']|] eqn:Hl.
    + destruct Hn as [[Hin _] _]. rewrite (Hu _ _ He Hin eq_refl). apply lookup_entries_elem in Hl as ([[k0 v0] q0] & H1 & <- & [= -> ->]). done.
    + destruct Hn as [Hno | (_ & q' & Hin & _)]; [destruct Hno; apply (list_elem_of_fmap_2 ekey _ _ He)|].
      by destruct (Hlive _ Hin).
Qed.

Lemma bench_entries_unique n e e' : n <= 10 ^ 8 -> e ∈ bench_entries 0 n -> e' ∈ bench_entries 0 n -> ekey e = ekey e' -> e = e'.
Proof.
  intros Hn (i & Hi & ->)%bench_entries_elem (j & Hj & ->)%bench_entries_elem Hk. cbn in Hk.
  destruct (Z.lt_trichotomy i j) as [Hij | [-> | Hij]]; [|done|].
  - pose proof (bench_key_lt i j ltac:(lia) ltac:(lia)) as Hb. rewrite Hk in Hb. by destruct (blt_irrefl (bench_key j)).
  - pose proof (bench_key_lt j i ltac:(lia) ltac:(lia)) as Hb. rewrite Hk in Hb. by destruct (blt_irrefl (bench_key j)).
Qed.

(** A table joins level 0. *)
Lemma bench_added t w f t0s t1s : bench_inv t w t0s t1s -> 0 <= t -> (t + 1) * keys <= 10 ^ 8 ->
  full_table f (bench_entries (t * keys) keys) ->
  let es := bench_entries (t * keys) keys in
  let lo := default [] (ekey <$> hd_error es) in
  let hi := default [] (ekey <$> last es) in
  let m := (mk_TableMetadata (next_sst_id (compactor w)) (bench_path dir t) lo hi, es) in
  let w' := mk_world (<[bench_path dir t := f]> (files w)) (add_l0_table (compactor w) (bench_path dir t) lo hi) in
  levels_ok w' (t0s ++ [m]) t1s /\ next_sst_id (compactor w') = next_sst_id (compactor w) + 1 /\
  (forall e, e ∈ entries ((t0s ++ [m]) ++ t1s) <-> e ∈ bench_entries 0 ((t + 1) * keys)) /\
  (forall p, p ∈ paths_of ((t0s ++ [m]) ++ t1s) -> (exists i, p = l1_path dir i) \/ exists u, 0 <= u < t + 1 /\ p = bench_path dir u).
Proof.
  intros [Hlv Hes Hwait Hdir Hid Hpaths] Ht Hmax Hf es lo hi m w'. assert (t < 10 ^ 8) as Htb by nia. split_and!.
  - apply add_l0_levels; [done | done | | | | | lia].
    + apply strict_merge_sorted, bench_sorted; nia.
    + unfold es. rewrite bench_entries_cons by lia. done.
    + intros Hin. destruct (Hpaths _ Hin) as [[i Hi] | (u & Hu & Hp)]; [by apply l0_l1_path in Hi|].
      apply bench_path_inj in Hp; unfold is_u64; nia.
    + intros i Hi. symmetry in Hi. by apply l0_l1_path in Hi.
  - apply wrap64_small. unfold is_u64. nia.
  - intros e. rewrite entries_app in Hes |- *. rewrite !entries_app, !elem_of_app. setoid_rewrite elem_of_app in Hes.
    change (entries [m]) with (es ++ []). rewrite app_nil_r. specialize (Hes e). unfold es.
    rewrite bench_entries_elem in Hes |- *. rewrite bench_entries_elem.
    split.
    + intros [[Hx | (i & Hi & ->)] | Hx]; [destruct (proj1 Hes (or_introl Hx)) as (i & Hi & ->) | | destruct (proj1 Hes (or_intror Hx)) as (i & Hi & ->)];
        exists i; (split; [nia | done]).
    + intros (i & Hi & ->). destruct (Z.lt_ge_cases i (t * keys)) as [Hlt | Hge].
      * destruct (proj2 Hes) as [Hx | Hx]; [exists i; split; [lia | done] | tauto | tauto].
      * left; right. exists i. split; [nia | done].
  - intros p. unfold paths_of in *. rewrite !fmap_app, !elem_of_app in *. setoid_rewrite elem_of_app in Hpaths.
    intros [[Hx | ->%list_elem_of_singleton] | Hx]; [destruct (Hpaths p (or_introl Hx)) as [? | (u & ? & ?)] | | destruct (Hpaths p (or_intror Hx)) as [? | (u & ? & ?)]].
    1,4: by left. 1,3: right; exists u; split; [lia | done]. right. exists t. split; [lia | done].
Qed.

Lemma succ_mod4 t : t mod 4 < 3 /\ (t + 1) mod 4 = t mod 4 + 1 \/ t mod 4 = 3 /\ (t + 1) mod 4 = 0.
Proof. Z.div_mod_to_equations. lia. Qed.

(** The world with table [t] in level 0. *)
Definition bench_world (t : Z) (w : world) : world :=
  let es := bench_entries (t * keys) keys in
  mk_world (<[bench_path dir t := table_of es]> (files w))
    (add_l0_table (compactor w) (bench_path dir t) (default [] (ekey <$> hd_error es)) (default [] (ekey <$> last es))).

(** Table [t] cannot be written, or the table that the compaction after it merges. *)
Definition bench_fails (t : Z) (w : world) : Prop :=
  table_fails (table_of (bench_entries (t * keys) keys)) \/
  let w2 := bench_world t w in
  exists f, merged_table (files w2) (merge_inputs (compactor w2)) f /\ table_fails f.

Lemma bench_table_ok t w t0s t1s : bench_inv t w t0s t1s -> 0 <= t -> (t + 1) * keys <= 10 ^ 8 ->
  match bench_table dir keys t w with
  | (w', Ok _) => exists t0s' t1s', bench_inv (t + 1) w' t0s' t1s'
  | (_, Panic) => bench_fails t w
  | _ => False
  end.
Proof.
  intros Hinv Ht Hmax. assert (t < 10 ^ 8) as Htb by nia. unfold bench_table, mbind, st_bind.
  pose proof (table_at_run (bench_path dir t) (bench_entries (t * keys) keys) w) as Hr.
  specialize (Hr (bench_entries_ok (t * keys) keys ltac:(nia) ltac:(nia)) ltac:(by rewrite bench_entries_cons by lia)).
  destruct (table_at _ _ w) as [w1 [[[n lo] hi] | | |]]; try done; [|left; by destruct Hr].
  destruct Hr as (Hc & (Hf & Hfull) & -> & ->). set (f := table_of _) in *. destruct w1 as [fs c]. cbn [files compactor] in Hc, Hf. subst fs c.
  unfold add_l0. cbn [files compactor].
  destruct (bench_added t w f t0s t1s Hinv Ht Hmax Hfull) as (Hlv & Hid & Hes & Hpaths).
  set (w2 := mk_world _ _) in *. set (m := (_, bench_entries _ _)) in *.
  pose proof (bi_ids _ _ _ _ Hinv) as Hids. pose proof (bi_waiting _ _ _ _ Hinv) as Hwait.
  assert (db_dir (compactor w2) = dir) as Hd by exact (bi_dir _ _ _ _ Hinv).
  assert (len (t0s ++ [m]) = t mod 4 + 1) as Hlen by (rewrite len_app, Hwait; done).
  pose proof (compaction_run w2 _ _ Hlv ltac:(rewrite Hid; lia)) as Hcr.
  pose proof (succ_mod4 t) as Hmod.
  destruct (maybe_schedule_compaction w2) as [w' [[u|] | e | |]]; try done; cbn [compaction_post] in Hcr; unfold L0_TRIGGER_COUNT in Hcr.
  - destruct Hcr as (Hge & t1s' & Hlv' & Hd' & Hid' & Hp' & Hnew). exists [], t1s'. split.
    + done.
    + intros e. rewrite <- Hes. cbn [app]. revert e. apply newest_elem; [| | |exact Hnew].
      * exact (level_strictly_sorted t1s' (lv_l1_ok _ _ _ Hlv') (lv_apart _ _ _ Hlv')).
      * intros e e' He He'. rewrite Hes in He, He'. by apply (bench_entries_unique ((t + 1) * keys)).
      * intros e He. apply Hes, bench_entries_elem in He as (i & _ & ->). done.
    + change (len []) with 0. lia.
    + by rewrite Hd'.
    + rewrite Hid', Hid. lia.
    + intros p [Hp | ->]%Hp'; [|left; rewrite Hd; by eexists]. apply Hpaths. unfold paths_of in *.
      rewrite fmap_app, elem_of_app. by right.
  - destruct Hcr as [-> Hlt]. exists (t0s ++ [m]), t1s. split; try done; lia.
  - right. by destruct Hcr.
Qed.

Lemma bench_tables_ok n t w t0s t1s total : bench_inv t w t0s t1s -> 0 <= t -> (t + Z.of_nat n) * keys <= 10 ^ 8 ->
  match bench_tables dir keys (seqZ t (Z.of_nat n)) total w with
  | (w', Ok _) => exists t0s' t1s', bench_inv (t + Z.of_nat n) w' t0s' t1s'
  | (_, Panic) => exists m w' b, (m < n)%nat /\
      bench_tables dir keys (seqZ t (Z.of_nat m)) total w = (w', Ok b) /\ bench_fails (t + Z.of_nat m) w'
  | _ => False
  end.
Proof.
  revert t w t0s t1s total. induction n as [|n IH]; intros t w t0s t1s total Hinv Ht Hmax.
  { rewrite Z.add_0_r. by exists t0s, t1s. }
  rewrite seqZ_cons by lia. replace (Z.pred (Z.of_nat (S n))) with (Z.of_nat n) by lia. cbn [bench_tables].
  unfold mbind, st_bind. pose proof (bench_table_ok t w t0s t1s Hinv Ht ltac:(nia)) as Hb.
  destruct (bench_table dir keys t w) as [w1 [b | e | |]] eqn:Hbt; try done.
  2:{ exists 0%nat, w, total. rewrite Z.add_0_r. split_and!; [lia | done | done]. }
  destruct Hb as (t0s' & t1s' & Hinv').
  replace (t + Z.of_nat (S n)) with (Z.succ t + Z.of_nat n) in * by lia.
  specialize (IH (Z.succ t) w1 t0s' t1s' (wrap64 (total + b)) Hinv' ltac:(lia) ltac:(lia)).
  destruct (bench_tables dir keys _ _ w1) as [w2 [b2 | | |]]; try done.
  destruct IH as (m & w' & b' & Hm & Hrun & Hf). exists (S m), w', b'. split; [lia |].
  replace (t + Z.of_nat (S m)) with (Z.succ t + Z.of_nat m) by lia. split; [| done].
  rewrite seqZ_cons by lia. replace (Z.pred (Z.of_nat (S m))) with (Z.of_nat m) by lia. cbn [bench_tables].
  unfold mbind, st_bind. by rewrite Hbt.
Qed.

(** ** The point reads *)

Lemma open_readers_ok fs ts : Forall (holds fs) ts -> Forall l1_ok ts ->
  exists rs, mapM (open_reader fs) ts.*1 = Ok rs /\
    Forall2 (fun r t => forall key, SSTableReader.get (E := io_error) avx2 r key = Ok (lookup_entries t.2 key)) rs ts.
Proof.
  induction ts as [|t ts IH]; intros Hh Hok; [by exists []|].
  apply Forall_cons in Hh as [((f & Hf & bs & filt & -> & Hc & Htok & Hfilt) & _) Hh], Hok as [[Hst _] Hok].
  destruct (IH Hh Hok) as (rs & Hrs & Hall). exists (table_reader bs filt :: rs). split.
  - rewrite fmap_cons. cbn [mapM]. rewrite Hrs. unfold open_reader, read_file. rewrite Hf. cbn [mbind outcome_bind expect]. rewrite table_open by done.
    done.
  - constructor; [|done]. intros key. rewrite <- Hc in Hfilt, Hst |- *.
    destruct (table_get (E := io_error) bs filt avx2 key Htok Hfilt (strictly_sorted_sorted _ Hst)) as (res & -> & _ & _ & Hres).
    by rewrite Hres.
Qed.

Lemma hit_ok rs ts key :
  Forall2 (fun r t => forall key, SSTableReader.get (E := io_error) avx2 r key = Ok (lookup_entries t.2 key)) rs ts ->
  key ∈ ekey <$> entries ts -> hit avx2 rs key = Ok true.
Proof.
  induction 1 as [|r t rs ts Hr _ IH]; [intros Hin; inversion Hin|]. rewrite entries_cons, fmap_app, elem_of_app.
  intros Hin. cbn [hit]. rewrite Hr. cbn [mbind outcome_bind].
  destruct (lookup_entries t.2 key) eqn:Hl; [done|]. apply lookup_entries_none in Hl. apply IH. tauto.
Qed.

Lemma count_hits_ok rs ops hits : (forall i, i ∈ ops -> hit avx2 rs (bench_key i) = Ok true) ->
  count_hits avx2 rs ops hits = Ok (hits + len ops).
Proof.
  revert hits. induction ops as [|i ops IH]; intros hits Hh; [cbn; f_equal; unfold len; cbn; lia|].
  cbn [count_hits]. rewrite (Hh i) by left. cbn [mbind outcome_bind]. rewrite IH; [|intros j Hj; apply Hh; by right].
  f_equal. unfold len. cbn [length]. lia.
Qed.

(** What a run ends in; a panic after [m] tables only when the next one, or the
    compaction behind it, cannot be written. *)
Definition bench_post (total_operations : Z) (r : world * outcome io_error bench_result) : Prop :=
  match r with
  | (w, Ok res) => point_reads_hit res = total_operations /\ l0 (compactor w) = [] /\
      abs (bench_mem res) (ordered (bench_entries 0 total_operations)) /\
      exists t1s, levels_ok w [] t1s /\ forall e, e ∈ entries t1s <-> e ∈ bench_entries 0 total_operations
  | (_, Panic) => exists m w b, 0 <= m < total_operations / keys /\
      bench_tables dir keys (seqZ 0 m) 0 (mk_world ∅ (LeveledCompactor_new dir 1)) = (w, Ok b) /\ bench_fails m w
  | _ => False
  end.

Lemma bench_start : bench_inv 0 (mk_world ∅ (LeveledCompactor_new dir 1)) [] [].
Proof.
  split; [apply empty_levels | | done | done | cbn; lia | intros p Hp; inversion Hp].
  intros e. unfold bench_entries. rewrite Z.mul_0_l, seqZ_nil by lia. done.
Qed.

(** C34: The benchmark reads back what it wrote: for any number of keys to a table and any number of
    operations that fills a multiple of four tables (at most 10^8, the width of the key format),
    the memtable holds all entries, level 0 is empty, level 1 is in order and holds exactly the
    entries written, and every point read hits. It panics only when, after some number of its
    tables, the next one, or the table that the compaction after it merges, cannot be written. *)
Theorem benchmark_reads_all (weak : nat -> bool) (rng : Z) (total_operations : Z)
    (Htotal : 0 <= total_operations <= 10 ^ 8) (Hdiv : total_operations mod keys = 0)
    (Hfour : (total_operations / keys) mod 4 = 0) :
  bench_post total_operations (engine_benchmark avx2 weak rng dir total_operations keys (mk_world ∅ (LeveledCompactor_new dir 1))).
Proof.
  set (n := total_operations / keys) in *. assert (0 <= n) as Hn by (apply Z.div_pos; lia).
  assert (total_operations = n * keys) as Hnk by (pose proof (Z.div_mod total_operations keys ltac:(lia)); lia).
  unfold engine_benchmark, mbind, st_bind, lift, get_state. fold n.
  destruct (built_abs (E := io_error) weak (bench_entries 0 total_operations) rng) as (m & g & -> & Habs). cbv beta iota.
  pose proof (bench_tables_ok (Z.to_nat n) 0 _ [] [] 0 bench_start ltac:(lia) ltac:(lia)) as Hb. rewrite Z2Nat.id in Hb by done.
  destruct (bench_tables dir keys (seqZ 0 n) 0 _) as [w [written | e | |]]; try done.
  2:{ destruct Hb as (m' & w' & b & Hm & Hrun & Hf). rewrite Z.add_0_l in Hf. exists (Z.of_nat m'), w', b.
    split_and!; [lia | fold n; lia | exact Hrun | exact Hf]. }
  destruct Hb as (t0s & t1s & Hinv). rewrite Z.add_0_l in Hinv. destruct Hinv as [Hlv Hes Hwait _ _ _].
  rewrite Hfour in Hwait. destruct t0s as [|t t0s]; [|by unfold len in Hwait; cbn in Hwait; lia].
  rewrite (lv_l1 _ _ _ Hlv). rewrite <- Hnk in Hes. cbn [app] in Hes.
  destruct (open_readers_ok (files w) t1s (lv_holds _ _ _ Hlv) (lv_l1_ok _ _ _ Hlv)) as (rs & -> & Hrs). cbv beta iota.
  rewrite (count_hits_ok rs).
  - cbn [bench_post mret st_ret point_reads_hit bench_mem]. split_and!; [|exact (lv_l0 _ _ _ Hlv) | exact Habs | by exists t1s].
    unfold len. rewrite length_seqZ. lia.
  - intros i Hi%elem_of_seqZ. apply (hit_ok rs t1s); [done|]. apply (list_elem_of_fmap_2 ekey _ (bench_entry i)), Hes, bench_entries_elem.
    exists i. split; [lia | done].
Qed.

End properties.



(** A small run: twelve keys in four tables. *)
Example small_benchmark :
  match engine_benchmark (F := bounded_file) true (fun _ => true) RNG_SEED "bench" 12 3 (mk_world ∅ (LeveledCompactor_new "bench" 1)) with
  | (w, Ok r) => (point_reads_hit r, len (l0 (compactor w)), len (l1 (compactor w)), next_sst_id (compactor w)) = (12, 0, 1, 6)
  | _ => False
  end.
Proof. vm_compute. done. Qed.

(** With six tables two stay in level 0, and the readers of level 1 do not have their keys. *)
Example six_tables :
  match engine_benchmark (F := bounded_file) true (fun _ => true) RNG_SEED "bench" 12 2 (mk_world ∅ (LeveledCompactor_new "bench" 1)) with
  | (w, Ok r) => (point_reads_hit r, len (l0 (compactor w)), len (l1 (compactor w))) = (8, 2, 1)
  | _ => False
  end.
Proof. vm_compute. done. Qed.

(** The numbers of the program: 400 000 operations, 10 000 keys to a table. *)
Lemma benchmark_reads_all_witness :
  (0 < 10000 /\ 0 <= 400000 <= 10 ^ 8 /\ 400000 mod 10000 = 0 /\ (400000 / 10000) mod 4 = 0) /\
  bench_post (F := bounded_file) "bench" 10000 400000
    (engine_benchmark (F := bounded_file) true (fun _ => true) RNG_SEED "bench" 400000 10000 (mk_world ∅ (LeveledCompactor_new "bench" 1))).
Proof.
  assert (0 <= 400000 <= 10 ^ 8) as Ht by lia.
  split; [split; [lia | split; [exact Ht | split; reflexivity]]|].
  exact (benchmark_reads_all (F := bounded_file) true "bench" 10000 eq_refl (fun _ => true) RNG_SEED 400000 Ht eq_refl eq_refl).
Defined.
