(* ===== verification/EngineDrop.v ===== *)
(** * The end of an engine (tier3_storage/src/engine.rs)

    [Drop] of [EngineNode] clears [is_running] and joins the two background threads.
    A thread looks at the flag before every task, so it may still take one when it has
    already passed the check, ends the task it has, and leaves.

    [engine_drop_ends]: however the threads are scheduled, both joins return after at
    most four steps of each.  What waits in the flush queue then, and what is in
    memory, is only in the logs, and an engine opened on the directory has none of
    it. *)

From stdpp Require Import gmap strings.
From S2P Require Import Prelude Paths WalRecord WalWriter BinarySearch Block Footer SSTable SSTableReader.
From S2P Require Import Merge Compaction SkipList MemTable Engine.
#[local] Open Scope Z_scope.

(** A thread in its loop, with whether it has passed the check of [is_running] since
    its last task, or one that has left it. *)
Inductive stage := InLoop (passed : bool) | Gone.

Record closing := mk_closing { closed_engine : EngineNode; stages : list stage }.

Section drop.
  Context `{F : FileOps} `{BH : BinaryHeap}.

(** A step of thread [i] with [is_running] cleared.  A thread that panicked ends
    too; the result of its join is ignored. *)
Definition stop_step (i : nat) (c : closing) : closing :=
  match stages c !! i, e_workers (closed_engine c) !! i with
  | Some (InLoop true), Some Idle => mk_closing (worker_step i (closed_engine c)) (<[i := InLoop false]> (stages c))
  | Some (InLoop false), Some Idle => mk_closing (closed_engine c) (<[i := Gone]> (stages c))
  | Some (InLoop _), Some Dead => mk_closing (closed_engine c) (<[i := Gone]> (stages c))
  | Some (InLoop _), Some _ => mk_closing (worker_step i (closed_engine c)) (<[i := InLoop false]> (stages c))
  | _, _ => c
  end.

Definition EngineNode_drop (schedule : list nat) (s : EngineNode) (passed : list bool) : closing :=
  foldl (fun c i => stop_step i c) (mk_closing s (InLoop <$> passed)) schedule.

(** The steps a thread has left. *)
Definition work_left (c : closing) (i : nat) : nat :=
  match stages c !! i, e_workers (closed_engine c) !! i with
  | Some (InLoop true), Some Idle => 4
  | Some (InLoop _), Some (Popped _) => 3
  | Some (InLoop _), Some (Built _ _ _ _) => 2
  | Some (InLoop _), _ => 1
  | _, _ => 0
  end.

Lemma worker_step_others i j s : i <> j -> e_workers (worker_step i s) !! j = e_workers s !! j.
Proof.
  intros Hne. unfold worker_step. destruct (e_workers s !! i) as [[|t|t p lo hi|]|]; try done.
  - destruct (e_flush_queue s); [done|]. by apply list_lookup_insert_ne.
  - destruct (build_table t _) as [w [[[p lo] hi]|e| |]]; by apply list_lookup_insert_ne.
  - destruct (publish t p lo hi _) as [sh r]. by apply list_lookup_insert_ne.
Qed.

Lemma worker_step_length i s : length (e_workers (worker_step i s)) = length (e_workers s).
Proof.
  unfold worker_step. destruct (e_workers s !! i) as [[|t|t p lo hi|]|]; try done.
  - destruct (e_flush_queue s); [done|]. apply length_insert.
  - destruct (build_table t _) as [w [[[p lo] hi]|e| |]]; apply length_insert.
  - destruct (publish t p lo hi _) as [sh r]. apply length_insert.
Qed.

(** A step takes the thread on, and no other. *)
Lemma stop_step_work i j c : length (stages c) = length (e_workers (closed_engine c)) ->
  (work_left (stop_step i c) j <= (if decide (i = j) then pred (work_left c j) else work_left c j))%nat /\
  length (stages (stop_step i c)) = length (stages c) /\ length (e_workers (closed_engine (stop_step i c))) = length (e_workers (closed_engine c)).
Proof.
  intros Hlen. destruct c as [s st]. cbn [closed_engine stages] in *. split.
  2:{ unfold stop_step. cbn [stages closed_engine].
    destruct (st !! i) as [[[]|]|], (e_workers s !! i) as [[| | |]|]; cbn [stages closed_engine]; rewrite ?length_insert, ?worker_step_length; done. }
  destruct (decide (i = j)) as [<-|Hne].
  - unfold stop_step, work_left. cbn [stages closed_engine]. destruct (st !! i) as [g|] eqn:Hg; [|cbn [stages closed_engine]; rewrite Hg; lia].
    pose proof (lookup_lt_Some _ _ _ Hg) as Hi. destruct (e_workers s !! i) as [w|] eqn:Hw.
    2:{ apply lookup_ge_None in Hw. lia. }
    destruct g as [p|]; [|cbn [stages closed_engine]; rewrite Hg; lia].
    destruct p, w as [|t|t q lo hi|]; cbn [stages closed_engine]; rewrite list_lookup_insert_eq by done; try lia.
    all: unfold worker_step; rewrite Hw; try (destruct (e_flush_queue s)).
    all: try (destruct (build_table t _) as [x [[[y z] u]|e| |]]); try (destruct (publish t q lo hi _) as [sh [[]|e| |]]);
      cbn [with_worker e_workers]; rewrite ?list_lookup_insert_eq, ?Hw by lia; lia.
  - unfold stop_step, work_left. cbn [stages closed_engine].
    destruct (st !! i) as [[[]|]|], (e_workers s !! i) as [[| | |]|]; cbn [stages closed_engine];
      rewrite ?list_lookup_insert_ne, ?worker_step_others by done; lia.
Qed.

Lemma drop_work schedule c j : length (stages c) = length (e_workers (closed_engine c)) ->
  let c' := foldl (fun c i => stop_step i c) c schedule in
  (work_left c' j <= work_left c j - count_occ Nat.eq_dec schedule j)%nat /\
  length (stages c') = length (stages c) /\ length (e_workers (closed_engine c')) = length (e_workers (closed_engine c)).
Proof.
  revert c. induction schedule as [|i sched IH]; intros c Hlen; cbn [foldl count_occ]; [split; [lia|done]|].
  destruct (stop_step_work i j c Hlen) as (Hw & Hs & He). destruct (IH (stop_step i c)) as (Hw' & Hs' & He'); [congruence|].
  split; [|split; congruence]. destruct (Nat.eq_dec i j), (decide (i = j)); try done; lia.
Qed.

Lemma work_left_bound c i : (work_left c i <= 4)%nat.
Proof. unfold work_left. repeat case_match; lia. Qed.

(** Only a thread that has left has nothing to do. *)
Lemma no_work_gone c i g : stages c !! i = Some g -> work_left c i = 0%nat -> g = Gone.
Proof. unfold work_left. intros ->. destruct g as [p|]; [|done]. by destruct p, (e_workers _ !! i) as [[]|]. Qed.

(** What the threads do after the flag is cleared is a run of their steps. *)
Lemma stop_step_events i c : exists evs, closed_engine (stop_step i c) = foldl (fun s i => worker_step i s) (closed_engine c) evs.
Proof.
  unfold stop_step. destruct (stages c !! i) as [[[]|]|], (e_workers (closed_engine c) !! i) as [[| | |]|];
    first [by exists [] | by exists [i]].
Qed.

Lemma drop_events schedule c : exists evs,
  closed_engine (foldl (fun c i => stop_step i c) c schedule) = foldl (fun s i => worker_step i s) (closed_engine c) evs.
Proof.
  revert c. induction schedule as [|i sched IH]; intros c; cbn [foldl]; [by exists []|].
  destruct (stop_step_events i c) as [e1 H1], (IH (stop_step i c)) as [e2 H2].
  exists (e1 ++ e2). by rewrite H2, H1, foldl_app.
Qed.

(** Threads that wait between two checks of the flag do nothing more. *)
Lemma idle_drop schedule s st : Forall quiet (e_workers s) -> Forall (fun g => g = InLoop false \/ g = Gone) st ->
  closed_engine (foldl (fun c i => stop_step i c) (mk_closing s st) schedule) = s.
Proof.
  intros Hq. revert st. induction schedule as [|i sched IH]; intros st Hst; cbn [foldl]; [done|].
  assert (exists st', stop_step i (mk_closing s st) = mk_closing s st' /\ Forall (fun g => g = InLoop false \/ g = Gone) st') as (st' & -> & Hst').
  { unfold stop_step. cbn [stages closed_engine]. destruct (st !! i) as [g|] eqn:Hg; [|by exists st].
    destruct (e_workers s !! i) as [w|] eqn:Hw; [|by exists st; destruct g as [[]|]].
    destruct (Forall_lookup_1 _ _ _ _ Hst Hg) as [-> | ->]; [|by exists st].
    destruct (Forall_lookup_1 _ _ _ _ Hq Hw) as [-> | ->]; eexists; (split; [reflexivity|]); apply Forall_insert; auto. }
  by apply IH.
Qed.
End drop.

Section properties.
  Context (crc32 : bytes -> Z) (pwrite : bytes -> bytes -> Z -> bytes * Z) (ftruncate : bytes -> Z -> bytes * Z).
  Context `{FS : FileOpsSpec} `{!BoundedFile F} `{BHS : BinaryHeapSpec}.

(** What the owner keeps, which the threads do not touch. *)
Definition owned (s : EngineNode) : ConcurrentSkipList * option ConcurrentSkipList * WalWriter :=
  (e_active_mem s, e_imm_mem s, e_wal s).

Lemma worker_step_owned i s : owned (worker_step i s) = owned s.
Proof.
  unfold worker_step. destruct (e_workers s !! i) as [[|t|t p lo hi|]|]; try done.
  - by destruct (e_flush_queue s).
  - by destruct (build_table t _) as [w [[[p lo] hi]|e| |]].
  - by destruct (publish t p lo hi _) as [sh r].
Qed.

Lemma dropped_ok dir s active imm schedule passed : engine_ok dir s active imm ->
  engine_ok dir (closed_engine (EngineNode_drop schedule s passed)) active imm /\
  owned (closed_engine (EngineNode_drop schedule s passed)) = owned s.
Proof.
  intros Hok. unfold EngineNode_drop. destruct (drop_events schedule (mk_closing s (InLoop <$> passed))) as [evs ->].
  cbn [closed_engine]. revert s Hok. induction evs as [|i evs IH]; intros s Hok; [done|].
  cbn [foldl]. destruct (IH (worker_step i s)) as [? ->]; [by apply worker_step_ok|]. by rewrite worker_step_owned.
Qed.

Lemma drop_all_gone schedule s passed : length passed = length (e_workers s) ->
  (forall i, (i < length (e_workers s))%nat -> (4 <= count_occ Nat.eq_dec schedule i)%nat) ->
  stages (EngineNode_drop schedule s passed) = replicate (length (e_workers s)) Gone.
Proof.
  intros Hp Hsched. set (c0 := mk_closing s (InLoop <$> passed)).
  assert (length (stages c0) = length (e_workers s)) as Hlen by (cbn; by rewrite length_fmap).
  change (EngineNode_drop schedule s passed) with (foldl (fun c i => stop_step i c) c0 schedule).
  apply list_eq_same_length with (length (e_workers s)); [by rewrite length_replicate| |].
  - destruct (drop_work schedule c0 0 Hlen) as (_ & -> & _). exact Hlen.
  - intros i x y Hi Hx Hy. apply lookup_replicate in Hy as [-> _]. apply (no_work_gone _ _ _ Hx).
    destruct (drop_work schedule c0 i Hlen) as (Hw & _). pose proof (work_left_bound c0 i). specialize (Hsched i Hi). lia.
Qed.

(** Dropping an engine ends: after any run of writes and thread steps, whichever
    threads have passed the check of the flag, any schedule that gives every thread four
    steps brings both out of their loops, so both joins return.  The lock is not
    poisoned, the owner's memtables and log are as they were, and the queue and level 0
    together hold at most one memtable. *)
Theorem engine_drop_ends (dir : string) (fs : gmap path bytes) (seed : Z) (evs : list event) (passed : list bool) (schedule : list nat)
    (Hev : Forall event_ok evs) (Hn : Z.of_nat (length evs) < 2 ^ 40) :
  let s := (run_events crc32 pwrite ftruncate evs (EngineNode_open dir fs seed)).1.1 in
  length passed = length (e_workers s) ->
  (forall i, (i < length (e_workers s))%nat -> (4 <= count_occ Nat.eq_dec schedule i)%nat) ->
  let c := EngineNode_drop schedule s passed in
  let s' := closed_engine c in
  stages c = replicate (length (e_workers s)) Gone /\ owned s' = owned s /\ poisoned (e_shared s') = false /\
  (length (e_flush_queue s') + length (l0 (compactor (sh_world (e_shared s')))) <= 1)%nat.
Proof.
  intros s Hp Hsched c s'.
  destruct (run_from_open crc32 pwrite ftruncate dir fs seed evs Hev Hn) as (s0 & acc & p & active & imm & Hs & _ & Hok & _).
  assert (s = s0) as -> by (unfold s; by rewrite Hs).
  destruct (dropped_ok dir s0 active imm schedule passed Hok) as [Hok' Ho].
  split_and!; [by apply drop_all_gone | exact Ho | exact (eo_lock _ _ _ _ Hok') | apply (engine_ok_levels dir _ _ _ Hok')].
Qed.
End properties.

(** Neither the queue nor the memory is flushed at the end: when the threads wait, the
    frozen memtable stays in the queue and its table is never written. *)
Theorem drop_leaves_queue `{F : FileOps} `{BH : BinaryHeap} (schedule : list nat) (s : EngineNode) (passed : list bool)
    (Hq : Forall quiet (e_workers s)) (Hp : Forall (fun b => b = false) passed) :
  closed_engine (EngineNode_drop schedule s passed) = s.
Proof.
  apply idle_drop; [done|]. apply Forall_fmap, (Forall_impl _ _ _ Hp). intros b ->. by left.
Qed.

(** A frozen memtable, threads that wait: at the end both threads are gone, and the
    task is still in the queue; with the check passed, the task is flushed. *)
Example drop_loses_task :
  let c := EngineNode_drop (F := bounded_file) [0; 1; 0; 0; 1; 0; 1; 1]%nat frozen_engine [false; false] in
  stages c = [Gone; Gone] /\ e_flush_queue (closed_engine c) = [one_task].
Proof. vm_compute. done. Qed.

Example drop_ends_task :
  let c := EngineNode_drop (F := bounded_file) [0; 1; 0; 0; 1; 0; 1; 1]%nat frozen_engine [true; true] in
  stages c = [Gone; Gone] /\ e_flush_queue (closed_engine c) = [] /\
  length (l0 (compactor (sh_world (e_shared (closed_engine c))))) = 1%nat.
Proof. vm_compute. done. Qed.
