(* ===== verification/UringOp.v ===== *)
(** * Requests and their tags (uring-engine/src/op.rs and sys.rs)

    The submission and completion entries of io_uring, the packing of a file
    descriptor and an operation into the 64 bits of [user_data], and the requests
    the server prepares.  Every prepared request carries a tag from which its
    completion is told. *)

From S2P Require Import Prelude.
#[local] Open Scope Z_scope.

(** ** sys.rs *)

Definition IORING_OP_ACCEPT : Z := 13.
Definition IORING_OP_CLOSE : Z := 19.
Definition IORING_OP_SEND : Z := 26.
Definition IORING_OP_RECV : Z := 27.
Definition IOSQE_BUFFER_SELECT : Z := Z.shiftl 1 5.
Definition IORING_ACCEPT_MULTISHOT : Z := Z.shiftl 1 0.
Definition IORING_RECV_MULTISHOT : Z := Z.shiftl 1 1.
Definition IORING_CQE_F_BUFFER : Z := Z.shiftl 1 0.
Definition IORING_CQE_F_MORE : Z := Z.shiftl 1 1.
Definition IORING_CQE_BUFFER_SHIFT : Z := 16.

(** The constants of libc the requests use (Linux). *)
Definition SOCK_CLOEXEC : Z := 0x80000.
Definition MSG_NOSIGNAL : Z := 0x4000.

Record io_uring_sqe := mk_sqe {
  opcode : Z;
  sqe_flags : Z;
  ioprio : Z;
  sqe_fd : Z;
  off : Z;
  addr : Z;
  sqe_len : Z;
  op_flags : Z;
  sqe_user_data : Z;
  buf_index : Z;
  personality : Z;
  splice_fd_in : Z;
  addr3 : Z
}.
Definition sqe_default : io_uring_sqe := mk_sqe 0 0 0 0 0 0 0 0 0 0 0 0 0.

Record io_uring_cqe := mk_cqe { user_data : Z; res : Z; cqe_flags : Z }.

#[export] Instance sqe_eq_dec : EqDecision io_uring_sqe.
Proof. solve_decision. Defined.
#[export] Instance cqe_eq_dec : EqDecision io_uring_cqe.
Proof. solve_decision. Defined.

(** ** Tags *)

Definition is_i32 (x : Z) : Prop := - 2 ^ 31 <= x < 2 ^ 31.
(** [x as i32] of a [u64]. *)
Definition as_i32 (x : Z) : Z := let y := x mod 2 ^ 32 in if y <? 2 ^ 31 then y else y - 2 ^ 32.

Definition encode_user_data (fd op : Z) : Z := Z.lor (Z.land (wrap64 fd) 0xFFFFFFFF) (Z.shiftl op 32).
Definition decode_fd (user_data : Z) : Z := as_i32 (Z.land user_data 0xFFFFFFFF).
Definition decode_op (user_data : Z) : Z := Z.land (Z.shiftr user_data 32) 0xFF.

(** ** Requests *)

Definition prep_accept_multishot (sqe : io_uring_sqe) (listen_fd : Z) : io_uring_sqe :=
  mk_sqe IORING_OP_ACCEPT (sqe_flags sqe) IORING_ACCEPT_MULTISHOT listen_fd 0 0 0 SOCK_CLOEXEC
    (encode_user_data listen_fd IORING_OP_ACCEPT) (buf_index sqe) (personality sqe) (splice_fd_in sqe) (addr3 sqe).

Definition prep_recv_multishot (sqe : io_uring_sqe) (fd bgid : Z) : io_uring_sqe :=
  mk_sqe IORING_OP_RECV IOSQE_BUFFER_SELECT IORING_RECV_MULTISHOT fd 0 0 0 (op_flags sqe)
    (encode_user_data fd IORING_OP_RECV) bgid (personality sqe) (splice_fd_in sqe) (addr3 sqe).

Definition prep_send (sqe : io_uring_sqe) (fd buf n : Z) : io_uring_sqe :=
  mk_sqe IORING_OP_SEND (sqe_flags sqe) (ioprio sqe) fd 0 buf n MSG_NOSIGNAL
    (encode_user_data fd IORING_OP_SEND) (buf_index sqe) (personality sqe) (splice_fd_in sqe) (addr3 sqe).

Definition prep_close (sqe : io_uring_sqe) (fd : Z) : io_uring_sqe :=
  mk_sqe IORING_OP_CLOSE (sqe_flags sqe) (ioprio sqe) fd (off sqe) (addr sqe) (sqe_len sqe) (op_flags sqe)
    (encode_user_data fd IORING_OP_CLOSE) (buf_index sqe) (personality sqe) (splice_fd_in sqe) (addr3 sqe).

(** ** Theorems *)

Lemma land_ones_mod x n : 0 <= n -> Z.land x (2 ^ n - 1) = x mod 2 ^ n.
Proof. intros Hn. rewrite <- Z.land_ones, Z.ones_equiv by done. by rewrite Z.sub_1_r. Qed.

Lemma land_low x : Z.land x 0xFFFFFFFF = x mod 2 ^ 32.
Proof. change 0xFFFFFFFF with (2 ^ 32 - 1). by apply land_ones_mod. Qed.

Lemma wrap64_low x : wrap64 x mod 2 ^ 32 = x mod 2 ^ 32.
Proof. unfold wrap64. rewrite Z.mod_mod_divide; [done|]. by exists (2 ^ 32). Qed.

Lemma encode_low fd op : Z.land (encode_user_data fd op) 0xFFFFFFFF = fd mod 2 ^ 32.
Proof.
  unfold encode_user_data. rewrite Z.land_lor_distr_l, !land_low, Z.shiftl_mul_pow2, Z.mod_mul by lia.
  by rewrite Z.lor_0_r, Z.mod_mod, wrap64_low.
Qed.

Lemma encode_high fd op : Z.shiftr (encode_user_data fd op) 32 = op.
Proof.
  unfold encode_user_data. rewrite Z.shiftr_lor, land_low, Z.shiftr_shiftl_l by lia. rewrite Z.sub_diag, Z.shiftl_0_r.
  rewrite Z.shiftr_div_pow2, Z.div_small by (lia || by apply Z.mod_pos_bound). done.
Qed.

Lemma as_i32_mod fd : is_i32 fd -> as_i32 (fd mod 2 ^ 32) = fd.
Proof.
  unfold is_i32, as_i32. intros Hfd. rewrite Z.mod_mod by lia. destruct (Z.ltb_spec (fd mod 2 ^ 32) (2 ^ 31)) as [H|H].
  - destruct (decide (0 <= fd)); [by rewrite Z.mod_small by lia|].
    exfalso. rewrite <- (Z.mod_add fd 1), Z.mod_small in H by lia. lia.
  - destruct (decide (0 <= fd)); [rewrite Z.mod_small in H by lia; lia|].
    rewrite <- (Z.mod_add fd 1), Z.mod_small by lia. lia.
Qed.

Lemma decode_op_encode fd op : 0 <= op < 256 -> decode_op (encode_user_data fd op) = op.
Proof.
  intros Hop. unfold decode_op. rewrite encode_high. change 0xFF with (2 ^ 8 - 1). rewrite land_ones_mod by lia.
  by apply Z.mod_small.
Qed.

Lemma decode_fd_encode fd op : is_i32 fd -> decode_fd (encode_user_data fd op) = fd.
Proof. intros Hfd. unfold decode_fd. rewrite encode_low. by apply as_i32_mod. Qed.

(** A tag gives back the descriptor, negative ones included, and the operation,
    and fits 64 bits. *)
Theorem user_data_roundtrip fd op : is_i32 fd -> 0 <= op < 256 ->
  decode_fd (encode_user_data fd op) = fd /\ decode_op (encode_user_data fd op) = op /\ is_u64 (encode_user_data fd op).
Proof.
  intros Hfd Hop. split; [by apply decode_fd_encode|]. split; [by apply decode_op_encode|]. split.
  - unfold encode_user_data. apply Z.lor_nonneg. split; [apply Z.land_nonneg; by right|]. apply Z.shiftl_nonneg; lia.
  - assert (encode_user_data fd op / 2 ^ 32 = op) as H by (rewrite <- Z.shiftr_div_pow2 by lia; apply encode_high).
    pose proof (Z.div_mod (encode_user_data fd op) (2 ^ 32)). pose proof (Z.mod_pos_bound (encode_user_data fd op) (2 ^ 32)). lia.
Qed.

Lemma user_data_roundtrip_witness : decode_fd (encode_user_data (-1) IORING_OP_SEND) = -1 /\ decode_op (encode_user_data (-1) IORING_OP_SEND) = 26.
Proof. destruct (user_data_roundtrip (-1) IORING_OP_SEND) as (H1 & H2 & _); [by split|by split|]. by split. Defined.

(** A request whose tag names its operation and descriptor. *)
Definition tagged (sqe : io_uring_sqe) : Prop :=
  decode_op (sqe_user_data sqe) = opcode sqe /\ decode_fd (sqe_user_data sqe) = sqe_fd sqe /\
  (opcode sqe = IORING_OP_ACCEPT \/ opcode sqe = IORING_OP_RECV \/ opcode sqe = IORING_OP_SEND \/ opcode sqe = IORING_OP_CLOSE).

Create HintDb tags discriminated.

Lemma tagged_accept sqe fd : is_i32 fd -> tagged (prep_accept_multishot sqe fd).
Proof. intros Hfd. split_and!; cbn -[decode_op decode_fd encode_user_data]; [by apply decode_op_encode|by apply decode_fd_encode|auto]. Qed.
Lemma tagged_recv sqe fd bgid : is_i32 fd -> tagged (prep_recv_multishot sqe fd bgid).
Proof. intros Hfd. split_and!; cbn -[decode_op decode_fd encode_user_data]; [by apply decode_op_encode|by apply decode_fd_encode|auto]. Qed.
Lemma tagged_send sqe fd buf n : is_i32 fd -> tagged (prep_send sqe fd buf n).
Proof. intros Hfd. split_and!; cbn -[decode_op decode_fd encode_user_data]; [by apply decode_op_encode|by apply decode_fd_encode|auto]. Qed.
Lemma tagged_close sqe fd : is_i32 fd -> tagged (prep_close sqe fd).
Proof. intros Hfd. split_and!; cbn -[decode_op decode_fd encode_user_data]; [by apply decode_op_encode|by apply decode_fd_encode|auto]. Qed.

#[export] Hint Resolve tagged_accept tagged_recv tagged_send tagged_close : tags.
