(* ===== verification/Sys.v ===== *)
(** * The system call layer (uring-engine/src/sys.rs, register_buffers of uring.rs)

    The numbers of sys.rs, the three wrappers around [libc::syscall], and the
    layout of the structures that are shared with the kernel: [repr_c] computes the
    offsets [#[repr(C)]] gives the fields.

    [layouts_asserted]: the sizes the code asserts, the offsets of the interface of
    the kernel, and no padding.  [register_buffers_result]: the wrapper returns the
    kernel's answer, and [register_buffers_truncates]: it hands over the number of
    buffers modulo 2^32. *)

From S2P Require Import Prelude UringOp.
#[local] Open Scope Z_scope.

(** ** Numbers *)

Definition SYS_IO_URING_SETUP : Z := 425.
Definition SYS_IO_URING_ENTER : Z := 426.
Definition SYS_IO_URING_REGISTER : Z := 427.
Definition IORING_SETUP_SQPOLL : Z := Z.shiftl 1 1.
Definition IORING_SETUP_CQSIZE : Z := Z.shiftl 1 3.
Definition IORING_SETUP_DEFER_TASKRUN : Z := Z.shiftl 1 13.
Definition IORING_SETUP_COOP_TASKRUN : Z := Z.shiftl 1 8.
Definition IORING_REGISTER_BUFFERS : Z := 0.
Definition IORING_REGISTER_PBUF_RING : Z := 22.
Definition IORING_UNREGISTER_PBUF_RING : Z := 23.
Definition IORING_ENTER_SQ_WAKEUP : Z := Z.shiftl 1 1.
Definition IORING_OFF_CQ_RING : Z := 0x08000000.
Definition IORING_OP_NOP : Z := 0.
Definition IORING_OP_READ_FIXED : Z := 4.
Definition IORING_OP_WRITE_FIXED : Z := 5.
Definition IORING_OP_READ : Z := 22.
Definition IORING_OP_WRITE : Z := 23.
Definition IORING_FEAT_NODROP : Z := Z.shiftl 1 1.
Definition IORING_FEAT_SUBMIT_STABLE : Z := Z.shiftl 1 2.
Definition IORING_FEAT_FAST_POLL : Z := Z.shiftl 1 5.
Definition IORING_FEAT_CQE_SKIP : Z := Z.shiftl 1 11.

(** ** Layouts *)

(** A field: the size of its elements, which is their alignment or a multiple of
    it, the alignment, and how many there are. *)
Record field := mk_field { size : Z; align : Z; count : Z }.
Definition u8 : field := mk_field 1 1 1.
Definition u16 : field := mk_field 2 2 1.
Definition u32 : field := mk_field 4 4 1.
Definition i32 : field := mk_field 4 4 1.
Definition u64 : field := mk_field 8 8 1.
Definition array (f : field) (n : Z) : field := mk_field (size f) (align f) n.

Record layout := mk_layout { offsets : list Z; size_of : Z; align_of : Z }.

(** [#[repr(C)]]: each field at the next multiple of its alignment, the size a
    multiple of the largest. *)
Fixpoint place (at_ : Z) (fs : list field) : list Z * Z :=
  match fs with
  | [] => ([], at_)
  | f :: fs =>
      let o := next_multiple_of at_ (align f) in
      let '(os, e) := place (o + size f * count f) fs in (o :: os, e)
  end.
Definition repr_c (fs : list field) : layout :=
  let a := foldr Z.max 1 (align <$> fs) in
  let '(os, e) := place 0 fs in mk_layout os (next_multiple_of e a) a.

(** A structure as a field of another. *)
Definition embed (l : layout) : field := mk_field (size_of l) (align_of l) 1.
Definition no_padding (fs : list field) : bool :=
  size_of (repr_c fs) =? foldr Z.add 0 ((fun f => size f * count f) <$> fs).

Definition sqring_offsets_fields : list field := [u32; u32; u32; u32; u32; u32; u32; u32; u64].
Definition cqring_offsets_fields : list field := [u32; u32; u32; u32; u32; u32; u32; u32; u64].
Definition params_fields : list field :=
  [u32; u32; u32; u32; u32; u32; u32; array u32 3; embed (repr_c sqring_offsets_fields); embed (repr_c cqring_offsets_fields)].
Definition sqe_fields : list field := [u8; u8; u16; i32; u64; u64; u32; u32; u64; u16; u16; i32; u64; array u64 1].
Definition cqe_fields : list field := [u64; i32; u32].
Definition buf_fields : list field := [u64; u32; u16; u16].
Definition buf_reg_fields : list field := [u64; u32; u16; u16; array u64 3].

(** The four assertions of the code on sizes, the sizes of the structures
    [io_uring_setup] fills, the offsets by which the kernel reads a request, a
    completion, a buffer and a registration, and that no byte is padding, so that
    every byte the kernel reads has been written. *)
Theorem layouts_asserted :
  size_of (repr_c sqe_fields) = 64 /\ size_of (repr_c cqe_fields) = 16 /\
  size_of (repr_c buf_fields) = 16 /\ size_of (repr_c buf_reg_fields) = 40 /\
  size_of (repr_c sqring_offsets_fields) = 40 /\ size_of (repr_c cqring_offsets_fields) = 40 /\ size_of (repr_c params_fields) = 120 /\
  offsets (repr_c sqe_fields) = [0; 1; 2; 4; 8; 16; 24; 28; 32; 40; 42; 44; 48; 56] /\
  offsets (repr_c cqe_fields) = [0; 8; 12] /\ offsets (repr_c buf_fields) = [0; 8; 12; 14] /\
  offsets (repr_c buf_reg_fields) = [0; 8; 12; 14; 16] /\
  offsets (repr_c params_fields) = [0; 4; 8; 12; 16; 20; 24; 28; 40; 80] /\
  forallb no_padding [sqe_fields; cqe_fields; buf_fields; buf_reg_fields; sqring_offsets_fields; cqring_offsets_fields; params_fields] = true.
Proof. by vm_compute. Qed.

(** The cast to [i32] keeps what the kernel returns: -1, a descriptor or a count. *)
Lemma as_i32_id x : is_i32 x -> as_i32 x = x.
Proof.
  unfold is_i32, as_i32. intros Hx. destruct (Z.leb_spec 0 x).
  - rewrite Z.mod_small by lia. destruct (Z.ltb_spec x (2 ^ 31)); lia.
  - replace (x mod 2 ^ 32) with (x + 2 ^ 32) by (apply (Z.mod_unique _ _ (-1)); lia). destruct (Z.ltb_spec (x + 2 ^ 32) (2 ^ 31)); lia.
Qed.

(** ** System calls *)

(** [libc::syscall]: the number and the arguments, pointers as addresses; the
    result, which is -1 with [errno] set when the kernel returns an error. *)
Definition c_syscall : Type := Z -> list Z -> Z.

Section calls.
  Context (syscall : c_syscall) (errno : Z).

Definition io_uring_setup (entries params : Z) : Z := as_i32 (syscall SYS_IO_URING_SETUP [entries; params]).
Definition io_uring_enter (fd to_submit min_complete flags sig : Z) : Z :=
  as_i32 (syscall SYS_IO_URING_ENTER [fd; to_submit; min_complete; flags; sig; 8]).
Definition io_uring_register (fd opcode arg nr_args : Z) : Z := as_i32 (syscall SYS_IO_URING_REGISTER [fd; opcode; arg; nr_args]).

(** [register_buffers]: [iovecs] is the slice's address, [n] its length. *)
Definition register_buffers (fd iovecs n : Z) : outcome io_error unit :=
  let ret := io_uring_register fd IORING_REGISTER_BUFFERS iovecs (wrap32 n) in
  if ret <? 0 then Err (Os errno) else Ok tt.

Theorem register_buffers_result (fd iovecs n : Z) (Hk : forall k l, is_i32 (syscall k l)) (Hn : 0 <= n < 2 ^ 32) :
  let ret := syscall 427 [fd; 0; iovecs; n] in
  (register_buffers fd iovecs n = Ok tt <-> 0 <= ret) /\ (register_buffers fd iovecs n = Err (Os errno) <-> ret < 0).
Proof.
  intros ret. unfold register_buffers, io_uring_register. rewrite as_i32_id by apply Hk. rewrite wrap32_small by done.
  change (syscall SYS_IO_URING_REGISTER _) with ret. destruct (Z.ltb_spec ret 0); split; split; (done || lia).
Qed.

(** A slice of 2^32 buffers or more is registered without its tail, successfully. *)
Theorem register_buffers_truncates (fd iovecs n : Z) : register_buffers fd iovecs (2 ^ 32 + n) = register_buffers fd iovecs n.
Proof.
  unfold register_buffers, wrap32. replace (2 ^ 32 + n) with (n + 1 * 2 ^ 32) by lia. by rewrite Z.mod_add by lia.
Qed.
End calls.

Lemma register_buffers_result_witness : register_buffers (fun _ _ => 0) 14 3 4096 2 = Ok tt.
Proof. apply (register_buffers_result (fun _ _ => 0) 14 3 4096 2); unfold is_i32; intros; lia. Defined.
