(* ===== verification/Uring.v ===== *)
(** * The io_uring rings (uring-engine/src/uring.rs)

    The submission and completion queues that the server shares with the kernel:
    two rings of entries with 32-bit head and tail counters that wrap.  The kernel
    is a parameter that keeps to its documented side ([kernel_ok]): it takes
    published submissions in order, posts completions while there is room, and
    leaves the application's fields alone.  [uring_fifo]: whatever calls and kernel
    actions are interleaved, every request is taken once, in order and as it was
    filled in, and every completion is reaped once, in order.  [uring_new_releases]
    and [uring_new_ready]: what [new] and [Drop] do with the descriptor and the
    mappings. *)

From S2P Require Import Prelude.
From S2P Require Import UringOp.
#[local] Open Scope Z_scope.

(** [fd], [ring_ptr] and the sizes come with [Uring_new] below. *)
Record Uring := mk_Uring {
  sq_head : Z;
  sq_tail : Z;
  sq_mask : Z;
  sq_entries : Z;
  sq_array : list Z;
  sqes : list io_uring_sqe;
  cq_head : Z;
  cq_tail : Z;
  cq_mask : Z;
  cq_entries : Z;
  cqes : list io_uring_cqe;
  sq_tail_local : Z;
  sq_head_cache : Z
}.

(** Accesses through raw pointers, undefined outside of the array. *)
Definition read_at {E A} (l : list A) (i : Z) : outcome E A :=
  match l !! Z.to_nat i with Some x => Ok x | None => Ub end.
Definition write_at {E A} (l : list A) (i : Z) (x : A) : outcome E (list A) :=
  if bool_decide (Z.to_nat i < length l)%nat then Ok (<[Z.to_nat i := x]> l) else Ub.

Definition set_sq_head_cache (x : Z) (u : Uring) : Uring :=
  mk_Uring (sq_head u) (sq_tail u) (sq_mask u) (sq_entries u) (sq_array u) (sqes u) (cq_head u) (cq_tail u)
    (cq_mask u) (cq_entries u) (cqes u) (sq_tail_local u) x.
Definition set_sq_tail (x : Z) (u : Uring) : Uring :=
  mk_Uring (sq_head u) x (sq_mask u) (sq_entries u) (sq_array u) (sqes u) (cq_head u) (cq_tail u)
    (cq_mask u) (cq_entries u) (cqes u) (sq_tail_local u) (sq_head_cache u).
Definition set_sqes (l : list io_uring_sqe) (u : Uring) : Uring :=
  mk_Uring (sq_head u) (sq_tail u) (sq_mask u) (sq_entries u) (sq_array u) l (cq_head u) (cq_tail u)
    (cq_mask u) (cq_entries u) (cqes u) (sq_tail_local u) (sq_head_cache u).
Definition set_sq_array (l : list Z) (u : Uring) : Uring :=
  mk_Uring (sq_head u) (sq_tail u) (sq_mask u) (sq_entries u) l (sqes u) (cq_head u) (cq_tail u)
    (cq_mask u) (cq_entries u) (cqes u) (sq_tail_local u) (sq_head_cache u).
Definition set_sq_tail_local (x : Z) (u : Uring) : Uring :=
  mk_Uring (sq_head u) (sq_tail u) (sq_mask u) (sq_entries u) (sq_array u) (sqes u) (cq_head u) (cq_tail u)
    (cq_mask u) (cq_entries u) (cqes u) x (sq_head_cache u).
Definition set_cq_head (x : Z) (u : Uring) : Uring :=
  mk_Uring (sq_head u) (sq_tail u) (sq_mask u) (sq_entries u) (sq_array u) (sqes u) x (cq_tail u)
    (cq_mask u) (cq_entries u) (cqes u) (sq_tail_local u) (sq_head_cache u).

Definition modify {E} (f : Uring -> Uring) : st Uring E unit := fun u => (f u, Ok tt).

(** [get_sqe]: the index of a zeroed entry, which the caller fills in. *)
Definition available (u : Uring) : Z := wrap32 (sq_tail_local u - sq_head_cache u).

Definition claim_sqe : st Uring io_error Z :=
  u ← get_state;
  let idx := Z.land (sq_tail_local u) (sq_mask u) in
  l ← lift (write_at (sqes u) idx sqe_default);
  modify (set_sqes l);;
  a ← lift (write_at (sq_array u) idx idx);
  modify (set_sq_array a);;
  modify (set_sq_tail_local (wrap32 (sq_tail_local u + 1)));;
  mret idx.

Definition get_sqe : st Uring io_error (option Z) :=
  u ← get_state;
  if sq_entries u <=? available u then
    modify (set_sq_head_cache (sq_head u));;
    u ← get_state;
    if sq_entries u <=? available u then mret None else idx ← claim_sqe; mret (Some idx)
  else idx ← claim_sqe; mret (Some idx).

(** [f(sqe)] through the reference, and [if let Some(sqe) = ring.get_sqe() { f(sqe) }]. *)
Definition fill_sqe (f : io_uring_sqe -> io_uring_sqe) (idx : Z) : st Uring io_error unit :=
  u ← get_state;
  sqe ← lift (read_at (sqes u) idx);
  l ← lift (write_at (sqes u) idx (f sqe));
  modify (set_sqes l).
Definition with_sqe (f : io_uring_sqe -> io_uring_sqe) : st Uring io_error bool :=
  r ← get_sqe;
  match r with
  | Some idx => fill_sqe f idx;; mret true
  | None => mret false
  end.

(** [io_uring_enter] with [to_submit], [min_complete] and the flags: what the
    kernel does to the rings meanwhile, and its return value. *)
Definition IORING_ENTER_GETEVENTS : Z := Z.shiftl 1 0.
Definition syscall_enter : Type := Z -> Z -> Z -> Uring -> Uring * Z.

Definition enter_kernel (enter : syscall_enter) (to_submit min_complete flags : Z) : st Uring io_error Z :=
  fun u => let '(u, ret) := enter to_submit min_complete flags u in (u, Ok ret).

(** [io::Error::last_os_error()], the error number being the negated result. *)
Definition submit (enter : syscall_enter) : st Uring io_error Z :=
  u ← get_state;
  let to_submit := available u in
  if to_submit =? 0 then mret 0 else
  modify (set_sq_tail (sq_tail_local u));;
  ret ← enter_kernel enter to_submit 0 0;
  if ret <? 0 then throw (Os (- ret)) else
  u ← get_state;
  modify (set_sq_head_cache (sq_head u));;
  mret (wrap32 ret).

Definition submit_and_wait (enter : syscall_enter) (min_complete : Z) : st Uring io_error Z :=
  u ← get_state;
  let to_submit := available u in
  modify (set_sq_tail (sq_tail_local u));;
  ret ← enter_kernel enter to_submit min_complete IORING_ENTER_GETEVENTS;
  if ret <? 0 then throw (Os (- ret)) else
  u ← get_state;
  modify (set_sq_head_cache (sq_head u));;
  mret (wrap32 ret).

Definition peek_cqe (u : Uring) : outcome io_error (option io_uring_cqe) :=
  let head := cq_head u in
  let tail := cq_tail u in
  if head =? tail then Ok None else
  let idx := Z.land head (cq_mask u) in
  c ← read_at (cqes u) idx;
  Ok (Some c).

Definition advance_cq (n : Z) (u : Uring) : Uring := set_cq_head (wrap32 (cq_head u + n)) u.

(** [for_each_cqe]: the completions [f] is called on, in order. *)
Fixpoint each_cqe (fuel : nat) (u : Uring) (head tail : Z) : outcome io_error (Z * list io_uring_cqe) :=
  if head =? tail then Ok (head, []) else
  match fuel with
  | O => Err out_of_fuel
  | S fuel =>
      let idx := Z.land head (cq_mask u) in
      cqe ← read_at (cqes u) idx;
      r ← each_cqe fuel u (wrap32 (head + 1)) tail;
      Ok (r.1, cqe :: r.2)
  end.

Definition for_each_cqe : st Uring io_error (list io_uring_cqe) :=
  u ← get_state;
  r ← lift (each_cqe (Z.to_nat (cq_entries u)) u (cq_head u) (cq_tail u));
  (if r.1 =? cq_head u then mret tt else modify (set_cq_head r.1));;
  mret r.2.

(** ** The kernel's side *)

(** The entry at position [p] of the submission ring, and of the completion ring. *)
Definition sqe_at (u : Uring) (p : Z) : option io_uring_sqe :=
  idx ← sq_array u !! Z.to_nat (Z.land (wrap32 p) (sq_mask u));
  sqes u !! Z.to_nat idx.
Definition cqe_at (u : Uring) (p : Z) : option io_uring_cqe := cqes u !! Z.to_nat (Z.land (wrap32 p) (cq_mask u)).

(** What the kernel does to the rings: it takes the entries [taken] from the head
    of the published submissions and posts [posted] behind the completions, as far
    as there is room. *)
Record kernel_ok (u u' : Uring) (taken : list io_uring_sqe) (posted : list io_uring_cqe) : Prop := {
  kernel_sq_head : sq_head u' = wrap32 (sq_head u + len taken);
  kernel_published : len taken <= wrap32 (sq_tail u - sq_head u);
  kernel_taken j e : taken !! j = Some e -> sqe_at u (sq_head u + Z.of_nat j) = Some e;
  kernel_cq_tail : cq_tail u' = wrap32 (cq_tail u + len posted);
  kernel_room : wrap32 (cq_tail u - cq_head u) + len posted <= cq_entries u;
  kernel_cqes_len : length (cqes u') = length (cqes u);
  kernel_posted j c : posted !! j = Some c -> cqe_at u' (cq_tail u + Z.of_nat j) = Some c;
  kernel_kept j : 0 <= j < wrap32 (cq_tail u - cq_head u) -> cqe_at u' (cq_head u + j) = cqe_at u (cq_head u + j);
  kernel_frame : sq_tail u' = sq_tail u /\ sq_mask u' = sq_mask u /\ sq_entries u' = sq_entries u /\
    sq_array u' = sq_array u /\ sqes u' = sqes u /\ cq_head u' = cq_head u /\ cq_mask u' = cq_mask u /\
    cq_entries u' = cq_entries u /\ sq_tail_local u' = sq_tail_local u /\ sq_head_cache u' = sq_head_cache u
}.

(** ** What the rings hold *)

(** The counters without the wrap, and the arrays' sizes: [H], [T], [L] and [C] are
    the head, tail, local tail and cached head of the submission ring, [CH] and
    [CT] the head and tail of the completion ring. *)
Record counters := mk_counters { H : Z; T : Z; L : Z; C : Z; CH : Z; CT : Z }.

Definition ring_size (entries mask : Z) : Prop := is_power_of_two entries = true /\ entries <= 2 ^ 31 /\ mask = entries - 1.

Record rings_at (g : counters) (u : Uring) (out : list io_uring_sqe) (pend : list io_uring_cqe) : Prop := {
  at_sq : ring_size (sq_entries u) (sq_mask u);
  at_cq : ring_size (cq_entries u) (cq_mask u);
  at_lens : len (sqes u) = sq_entries u /\ len (sq_array u) = sq_entries u /\ len (cqes u) = cq_entries u;
  at_array i : 0 <= i < sq_entries u -> sq_array u !! Z.to_nat i = Some i;
  at_values : sq_head u = wrap32 (H g) /\ sq_tail u = wrap32 (T g) /\ sq_tail_local u = wrap32 (L g) /\
    sq_head_cache u = wrap32 (C g) /\ cq_head u = wrap32 (CH g) /\ cq_tail u = wrap32 (CT g);
  at_order : C g <= H g <= T g /\ T g <= L g <= C g + sq_entries u;
  at_cq_order : CH g <= CT g <= CH g + cq_entries u;
  at_out : len out = L g - H g;
  at_sqes j e : out !! j = Some e -> sqes u !! Z.to_nat ((H g + Z.of_nat j) mod sq_entries u) = Some e;
  at_pend : len pend = CT g - CH g;
  at_cqes j c : pend !! j = Some c -> cqes u !! Z.to_nat ((CH g + Z.of_nat j) mod cq_entries u) = Some c
}.

(** The rings hold the requests [out], of which the first [pub] are published, and
    the completions [pend]. *)
Definition holds (u : Uring) (out : list io_uring_sqe) (pub : Z) (pend : list io_uring_cqe) : Prop :=
  exists g, rings_at g u out pend /\ pub = T g - H g.

(** ** Counters that wrap *)

Lemma ring_size_pos e m : ring_size e m -> 0 < e.
Proof. by intros ([?%Z.ltb_lt _]%andb_true_iff & _). Qed.

Lemma ring_index e m x : ring_size e m -> Z.land (wrap32 x) m = x mod e.
Proof.
  intros ([H1%Z.ltb_lt H2%Z.eqb_eq]%andb_true_iff & He & ->). pose proof (Z.log2_nonneg e) as Hl.
  rewrite <- H2 at 1. rewrite land_ones_mod by done. rewrite H2. unfold wrap32. apply Z.mod_mod_divide.
  assert (Z.log2 e <= 31) as Hle.
  { destruct (Z.le_gt_cases (Z.log2 e) 31); [done|]. pose proof (Z.pow_lt_mono_r 2 31 (Z.log2 e)). lia. }
  exists (2 ^ (32 - Z.log2 e)). rewrite <- H2 at 2. rewrite <- Z.pow_add_r by lia. f_equal. lia.
Qed.

Lemma wrap32_sub x y : 0 <= x - y < 2 ^ 32 -> wrap32 (wrap32 x - wrap32 y) = x - y.
Proof. intros Hxy. unfold wrap32. rewrite <- Zminus_mod. by apply Z.mod_small. Qed.

Lemma wrap32_idem_add x y : wrap32 (wrap32 x + y) = wrap32 (x + y).
Proof. unfold wrap32. by rewrite Z.add_mod_idemp_l. Qed.

(** Different positions of a window no longer than the ring have different indices. *)
Lemma mod_neq p q e : 0 < e -> p < q < p + e -> p mod e <> q mod e.
Proof.
  intros He Hpq Heq. assert ((q - p) mod e = 0) as Hm by (rewrite Zminus_mod, Heq, Z.sub_diag; apply Z.mod_0_l; lia).
  rewrite Z.mod_small in Hm; lia.
Qed.

Lemma mod_in e m x : ring_size e m -> 0 <= x mod e < e.
Proof. intros He%ring_size_pos. by apply Z.mod_pos_bound. Qed.

Lemma write_at_ok {E A} (l : list A) i x : 0 <= i < len l -> write_at (E := E) l i x = Ok (<[Z.to_nat i := x]> l).
Proof. intros Hi. unfold write_at. rewrite bool_decide_eq_true_2; [done|]. unfold len in Hi. lia. Qed.

Lemma read_at_ok {E A} (l : list A) i x : l !! Z.to_nat i = Some x -> read_at (E := E) l i = Ok x.
Proof. unfold read_at. by intros ->. Qed.

Lemma at_available g u out pend : rings_at g u out pend -> available u = L g - C g.
Proof.
  intros Hr. unfold available. destruct (at_values _ _ _ _ Hr) as (_ & _ & -> & -> & _). apply wrap32_sub.
  pose proof (at_order _ _ _ _ Hr). destruct (at_sq _ _ _ _ Hr) as (_ & ? & _). lia.
Qed.

(** ** The calls *)

Lemma refresh_at g u out pend : rings_at g u out pend ->
  rings_at (mk_counters (H g) (T g) (L g) (H g) (CH g) (CT g)) (set_sq_head_cache (sq_head u) u) out pend.
Proof.
  intros Hr. split; cbn; try apply Hr.
  - destruct (at_values _ _ _ _ Hr) as (? & ? & ? & ? & ? & ?). done.
  - pose proof (at_order _ _ _ _ Hr). pose proof (at_sq _ _ _ _ Hr). lia.
Qed.

Lemma publish_at g u out pend : rings_at g u out pend ->
  rings_at (mk_counters (H g) (L g) (L g) (C g) (CH g) (CT g)) (set_sq_tail (sq_tail_local u) u) out pend.
Proof.
  intros Hr. split; cbn; try apply Hr.
  - destruct (at_values _ _ _ _ Hr) as (? & ? & ? & ? & ? & ?). done.
  - pose proof (at_order _ _ _ _ Hr). lia.
Qed.

(** The entry that [get_sqe] hands out, filled in. *)
Definition push_sqe (e : io_uring_sqe) (u : Uring) : Uring :=
  let idx := Z.land (sq_tail_local u) (sq_mask u) in
  set_sq_tail_local (wrap32 (sq_tail_local u + 1))
    (set_sq_array (<[Z.to_nat idx := idx]> (sq_array u)) (set_sqes (<[Z.to_nat idx := e]> (sqes u)) u)).

Lemma push_at g u out pend e : rings_at g u out pend -> L g - C g < sq_entries u ->
  rings_at (mk_counters (H g) (T g) (L g + 1) (C g) (CH g) (CT g)) (push_sqe e u) (out ++ [e]) pend.
Proof.
  intros Hr Hroom. pose proof (at_sq _ _ _ _ Hr) as Hs. pose proof (at_order _ _ _ _ Hr) as Ho.
  destruct (at_values _ _ _ _ Hr) as (? & ? & Hl & ? & ? & ?). destruct (at_lens _ _ _ _ Hr) as (Hl1 & Hl2 & Hl3).
  pose proof (mod_in _ _ (L g) Hs) as Hidx. unfold push_sqe. rewrite Hl, (ring_index _ _ _ Hs).
  split; cbn; try apply Hr.
  - unfold len in *. by rewrite !length_insert.
  - intros i Hi. destruct (decide (Z.to_nat (L g mod sq_entries u) = Z.to_nat i)) as [Heq|Hne].
    + rewrite Heq, list_lookup_insert_eq by (unfold len in Hl2; lia). f_equal. lia.
    + rewrite list_lookup_insert_ne by done. by apply (at_array _ _ _ _ Hr).
  - rewrite wrap32_idem_add. done.
  - lia.
  - rewrite len_app, (at_out _ _ _ _ Hr). change (len [e]) with 1. lia.
  - intros j e' Hj. apply lookup_app_Some in Hj as [Hj|[Hge Hj]].
    + pose proof (lookup_lt_Some _ _ _ Hj) as Hlt. pose proof (at_out _ _ _ _ Hr) as Hlen. unfold len in Hlen.
      rewrite list_lookup_insert_ne; [by apply (at_sqes _ _ _ _ Hr)|].
      pose proof (mod_in _ _ (H g + Z.of_nat j) Hs). intros Heq. apply (mod_neq (H g + Z.of_nat j) (L g) (sq_entries u)); [|lia..].
      by eapply ring_size_pos.
    + pose proof (at_out _ _ _ _ Hr) as Hlen. unfold len in Hlen. apply list_lookup_singleton_Some in Hj as [Hj <-].
      replace (H g + Z.of_nat j) with (L g) by lia. apply list_lookup_insert_eq. unfold len in Hl1. lia.
Qed.

Lemma claim_at g u out pend : rings_at g u out pend -> L g - C g < sq_entries u ->
  claim_sqe u = (push_sqe sqe_default u, Ok (Z.land (sq_tail_local u) (sq_mask u))).
Proof.
  intros Hr Hroom. destruct (at_values _ _ _ _ Hr) as (_ & _ & Hl & _). destruct (at_lens _ _ _ _ Hr) as (Hl1 & Hl2 & _).
  pose proof (mod_in _ _ (L g) (at_sq _ _ _ _ Hr)) as Hidx. rewrite <- (ring_index _ _ _ (at_sq _ _ _ _ Hr)), <- Hl in Hidx.
  unfold claim_sqe, mbind, st_bind. cbn -[write_at]. by rewrite !write_at_ok by lia.
Qed.

Lemma fill_at g u out pend f : rings_at g u out pend -> L g - C g < sq_entries u ->
  fill_sqe f (Z.land (sq_tail_local u) (sq_mask u)) (push_sqe sqe_default u) = (push_sqe (f sqe_default) u, Ok tt).
Proof.
  intros Hr Hroom. destruct (at_values _ _ _ _ Hr) as (_ & _ & Hl & _). destruct (at_lens _ _ _ _ Hr) as (Hl1 & _ & _).
  pose proof (mod_in _ _ (L g) (at_sq _ _ _ _ Hr)) as Hidx. rewrite <- (ring_index _ _ _ (at_sq _ _ _ _ Hr)), <- Hl in Hidx.
  unfold push_sqe. set (idx := Z.land _ _) in *. unfold fill_sqe, mbind, st_bind. cbn -[read_at write_at].
  rewrite (read_at_ok _ _ sqe_default) by (apply list_lookup_insert_eq; unfold len in Hl1; lia).
  rewrite write_at_ok by (unfold len in *; rewrite length_insert; lia). unfold modify. cbn. by rewrite list_insert_insert_eq.
Qed.

(** There is an entry exactly when fewer requests are outstanding than the ring holds. *)
Lemma with_sqe_at g u out pend f : rings_at g u out pend -> exists g' u',
  with_sqe f u = (u', Ok (len out <? sq_entries u)) /\ T g' = T g /\ H g' = H g /\
  rings_at g' u' (if len out <? sq_entries u then out ++ [f sqe_default] else out) pend.
Proof.
  intros Hr. pose proof (at_order _ _ _ _ Hr) as Ho. rewrite (at_out _ _ _ _ Hr).
  unfold with_sqe, get_sqe, mbind, st_bind. cbn -[claim_sqe fill_sqe]. rewrite (at_available _ _ _ _ Hr).
  destruct (Z.leb_spec (sq_entries u) (L g - C g)) as [Hfull|Hroom].
  - pose proof (refresh_at _ _ _ _ Hr) as Hr'. set (u' := set_sq_head_cache _ _) in *. cbn -[claim_sqe fill_sqe available].
    fold u'. rewrite (at_available _ _ _ _ Hr'). cbn -[claim_sqe fill_sqe].
    destruct (Z.leb_spec (sq_entries u) (L g - H g)) as [Hfull'|Hroom'].
    + rewrite (proj2 (Z.ltb_ge _ _)) by lia. eexists (mk_counters _ _ _ _ _ _), _. split; [done|]. split; [|split; [|exact Hr']]; done.
    + rewrite (proj2 (Z.ltb_lt _ _)) by lia. change (sq_entries u) with (sq_entries u') in Hroom'.
      rewrite (claim_at _ _ _ _ Hr' Hroom'). unfold mret, st_ret. rewrite (fill_at _ _ _ _ f Hr' Hroom'). eexists (mk_counters _ _ _ _ _ _), _. split; [done|].
      split; [|split; [|exact (push_at _ _ _ _ _ Hr' Hroom')]]; done.
  - rewrite (proj2 (Z.ltb_lt _ _)) by lia. rewrite (claim_at _ _ _ _ Hr Hroom). unfold mret, st_ret. rewrite (fill_at _ _ _ _ f Hr Hroom).
    eexists (mk_counters _ _ _ _ _ _), _. split; [done|]. split; [|split; [|exact (push_at _ _ _ _ _ Hr Hroom)]]; done.
Qed.

Lemma sqe_at_index g u out pend p : rings_at g u out pend -> sqe_at u (sq_head u + p) = sqes u !! Z.to_nat ((H g + p) mod sq_entries u).
Proof.
  intros Hr. unfold sqe_at. destruct (at_values _ _ _ _ Hr) as (-> & _). rewrite wrap32_idem_add, (ring_index _ _ _ (at_sq _ _ _ _ Hr)).
  rewrite (at_array _ _ _ _ Hr); [done|]. by apply (mod_in _ _ _ (at_sq _ _ _ _ Hr)).
Qed.

Lemma cqe_at_index e m u p x : ring_size e m -> cq_entries u = e -> cq_mask u = m ->
  cqe_at u (wrap32 x + p) = cqes u !! Z.to_nat ((x + p) mod e).
Proof. intros Hs He Hm. unfold cqe_at. by rewrite wrap32_idem_add, Hm, (ring_index _ _ _ Hs). Qed.

Lemma at_published g u out pend : rings_at g u out pend -> wrap32 (sq_tail u - sq_head u) = T g - H g.
Proof.
  intros Hr. destruct (at_values _ _ _ _ Hr) as (-> & -> & _). apply wrap32_sub.
  pose proof (at_order _ _ _ _ Hr). destruct (at_sq _ _ _ _ Hr) as (_ & ? & _). lia.
Qed.

Lemma at_completions g u out pend : rings_at g u out pend -> wrap32 (cq_tail u - cq_head u) = CT g - CH g.
Proof.
  intros Hr. destruct (at_values _ _ _ _ Hr) as (_ & _ & _ & _ & -> & ->). apply wrap32_sub.
  pose proof (at_cq_order _ _ _ _ Hr). destruct (at_cq _ _ _ _ Hr) as (_ & ? & _). lia.
Qed.

(** The kernel takes the first of the published requests, as they were filled in. *)
Lemma taken_prefix g u u' out pend taken posted : rings_at g u out pend -> kernel_ok u u' taken posted ->
  exists out', out = taken ++ out'.
Proof.
  intros Hr Hk. exists (drop (length taken) out). rewrite <- (take_drop (length taken) out) at 1. f_equal.
  pose proof (kernel_published _ _ _ _ Hk) as Hp. rewrite (at_published _ _ _ _ Hr) in Hp.
  pose proof (at_out _ _ _ _ Hr) as Hl. pose proof (at_order _ _ _ _ Hr). unfold len in *.
  apply list_eq_same_length with (length taken); [done|rewrite length_take; lia|].
  intros j x y Hj Hx Hy. rewrite lookup_take_lt in Hx by done. apply (at_sqes _ _ _ _ Hr) in Hx.
  apply (kernel_taken _ _ _ _ Hk) in Hy. rewrite (sqe_at_index _ _ _ _ _ Hr) in Hy. congruence.
Qed.

Lemma kernel_at g u u' out pend taken posted : rings_at g u out pend -> kernel_ok u u' taken posted ->
  exists out', out = taken ++ out' /\
    rings_at (mk_counters (H g + len taken) (T g) (L g) (C g) (CH g) (CT g + len posted)) u' out' (pend ++ posted).
Proof.
  intros Hr Hk. destruct (taken_prefix _ _ _ _ _ _ _ Hr Hk) as [out' Hout]. exists out'. split; [done|].
  pose proof (kernel_published _ _ _ _ Hk) as Hp. rewrite (at_published _ _ _ _ Hr) in Hp.
  pose proof (kernel_room _ _ _ _ Hk) as Hroom. rewrite (at_completions _ _ _ _ Hr) in Hroom.
  pose proof (kernel_frame _ _ _ _ Hk) as (Et & Em & Ee & Ea & Es & Ech & Ecm & Ece & El & Ec).
  destruct (at_values _ _ _ _ Hr) as (Hv1 & Hv2 & Hv3 & Hv4 & Hv5 & Hv6). destruct (at_lens _ _ _ _ Hr) as (Hl1 & Hl2 & Hl3).
  pose proof (at_order _ _ _ _ Hr) as Ho. pose proof (at_cq_order _ _ _ _ Hr) as Hco. pose proof (at_out _ _ _ _ Hr) as Hlo.
  pose proof (at_pend _ _ _ _ Hr) as Hlp. pose proof (len_nonneg taken). pose proof (len_nonneg posted).
  pose proof (at_cq _ _ _ _ Hr) as Hcq. rewrite Hout, len_app in Hlo.
  split; cbn; rewrite ?Et, ?Em, ?Ee, ?Ea, ?Es, ?Ech, ?Ecm, ?Ece, ?El, ?Ec; try apply Hr; try lia.
  - split_and!; [done..|]. unfold len in *. rewrite (kernel_cqes_len _ _ _ _ Hk). done.
  - rewrite (kernel_sq_head _ _ _ _ Hk), (kernel_cq_tail _ _ _ _ Hk), Hv1, Hv6, !wrap32_idem_add. done.
  - intros j e Hj. replace (H g + len taken + Z.of_nat j) with (H g + Z.of_nat (length taken + j)) by (unfold len; lia).
    apply (at_sqes _ _ _ _ Hr). rewrite Hout, lookup_app_r by lia. rewrite <- Hj. f_equal. lia.
  - rewrite len_app. lia.
  - intros j c [Hj|[Hge Hj]]%lookup_app_Some.
    + pose proof (lookup_lt_Some _ _ _ Hj) as Hlt. rewrite <- (at_cqes _ _ _ _ Hr _ _ Hj).
      pose proof (kernel_kept _ _ _ _ Hk (Z.of_nat j)) as Hkept. rewrite (at_completions _ _ _ _ Hr) in Hkept.
      rewrite Hv5, !(cqe_at_index _ _ _ _ _ Hcq) in Hkept by done. apply Hkept. unfold len in Hlp. lia.
    + apply (kernel_posted _ _ _ _ Hk) in Hj. rewrite Hv6, (cqe_at_index _ _ _ _ _ Hcq) in Hj by done.
      rewrite <- Hj. do 3 f_equal. unfold len in Hlp. lia.
Qed.

Lemma advance_at g u out pend c : rings_at g u out (c :: pend) ->
  rings_at (mk_counters (H g) (T g) (L g) (C g) (CH g + 1) (CT g)) (advance_cq 1 u) out pend.
Proof.
  intros Hr. destruct (at_values _ _ _ _ Hr) as (Hv1 & Hv2 & Hv3 & Hv4 & Hv5 & Hv6).
  pose proof (at_pend _ _ _ _ Hr) as Hlp. rewrite len_cons in Hlp. pose proof (len_nonneg pend). pose proof (at_cq_order _ _ _ _ Hr).
  split; cbn; try apply Hr; try lia.
  - rewrite Hv5, wrap32_idem_add. done.
  - intros j c' Hj. replace (CH g + 1 + Z.of_nat j) with (CH g + Z.of_nat (S j)) by lia. by apply (at_cqes _ _ _ _ Hr).
Qed.

Lemma cq_empty g u out pend : rings_at g u out pend -> (cq_head u =? cq_tail u) = (len pend =? 0).
Proof.
  intros Hr. destruct (at_values _ _ _ _ Hr) as (_ & _ & _ & _ & Hh & Ht). pose proof (at_completions _ _ _ _ Hr) as Hc.
  pose proof (at_pend _ _ _ _ Hr) as Hp. rewrite Hp, <- Hc. rewrite Hh, Ht in *. destruct (Z.eqb_spec (wrap32 (CH g)) (wrap32 (CT g))) as [He|He].
  - rewrite He, Z.sub_diag. done.
  - symmetry. apply Z.eqb_neq. intros H0. apply He. rewrite H0 in Hc. assert (CT g = CH g) as -> by lia. done.
Qed.

Lemma peek_at g u out pend : rings_at g u out pend -> peek_cqe u = Ok (head pend).
Proof.
  intros Hr. unfold peek_cqe. rewrite (cq_empty _ _ _ _ Hr). destruct pend as [|c pend]; [done|].
  rewrite (proj2 (Z.eqb_neq _ _)) by (rewrite len_cons; pose proof (len_nonneg pend); lia).
  destruct (at_values _ _ _ _ Hr) as (_ & _ & _ & _ & -> & _). rewrite (ring_index _ _ _ (at_cq _ _ _ _ Hr)).
  rewrite (read_at_ok _ _ c); [done|]. rewrite <- (Z.add_0_r (CH g)). by apply (at_cqes _ _ _ _ Hr 0%nat).
Qed.

Lemma wrap32_eqb x y : 0 <= y - x < 2 ^ 32 -> (wrap32 x =? wrap32 y) = (x =? y).
Proof.
  intros Hxy. destruct (Z.eqb_spec x y) as [->|Hne]; [by rewrite Z.eqb_refl|]. apply Z.eqb_neq. intros He.
  pose proof (wrap32_sub y x Hxy) as Hs. rewrite He, Z.sub_diag in Hs. unfold wrap32 in Hs. rewrite Z.mod_0_l in Hs by lia. lia.
Qed.

Lemma each_at g u out pend : rings_at g u out pend -> forall rest read fuel, pend = read ++ rest -> (length rest <= fuel)%nat ->
  each_cqe fuel u (wrap32 (CH g + len read)) (cq_tail u) = Ok (cq_tail u, rest).
Proof.
  intros Hr. destruct (at_values _ _ _ _ Hr) as (_ & _ & _ & _ & _ & Ht). pose proof (at_cq_order _ _ _ _ Hr) as Ho.
  destruct (at_cq _ _ _ _ Hr) as (_ & He & _). pose proof (at_pend _ _ _ _ Hr) as Hl.
  induction rest as [|c rest IH]; intros read fuel Hp Hf.
  - rewrite Hp, app_nil_r in Hl. rewrite Hl, Ht. replace (CH g + (CT g - CH g)) with (CT g) by lia.
    destruct fuel; cbn [each_cqe]; by rewrite Z.eqb_refl.
  - pose proof (len_nonneg read). pose proof (len_nonneg rest). rewrite Hp, len_app, len_cons in Hl. destruct fuel as [|fuel]; [cbn in Hf; lia|].
    cbn [each_cqe]. rewrite Ht, wrap32_eqb by lia. rewrite (proj2 (Z.eqb_neq _ _)) by lia.
    rewrite (ring_index _ _ _ (at_cq _ _ _ _ Hr)), (read_at_ok _ _ c).
    2:{ apply (at_cqes _ _ _ _ Hr (length read)). by rewrite Hp, list_lookup_middle. }
    cbn [mbind outcome_bind]. rewrite wrap32_idem_add, <- Z.add_assoc. change 1 with (len [c]). rewrite <- len_app, <- Ht.
    rewrite (IH (read ++ [c])); [done|by rewrite <- (assoc_L (++))|cbn in Hf; lia].
Qed.

Lemma for_each_at g u out pend : rings_at g u out pend -> exists u', for_each_cqe u = (u', Ok pend) /\
  rings_at (mk_counters (H g) (T g) (L g) (C g) (CT g) (CT g)) u' out [].
Proof.
  intros Hr. destruct (at_values _ _ _ _ Hr) as (Hv1 & Hv2 & Hv3 & Hv4 & Hv5 & Hv6).
  pose proof (at_pend _ _ _ _ Hr) as Hl. pose proof (at_cq_order _ _ _ _ Hr) as Ho.
  assert (rings_at (mk_counters (H g) (T g) (L g) (C g) (CT g) (CT g)) (set_cq_head (cq_tail u) u) out []) as Hd.
  { split; cbn; try apply Hr; try lia; [rewrite len_nil; lia|done]. }
  unfold for_each_cqe, mbind, st_bind. cbn -[each_cqe]. unfold lift.
  assert (each_cqe (Z.to_nat (cq_entries u)) u (cq_head u) (cq_tail u) = Ok (cq_tail u, pend)) as ->.
  { rewrite Hv5, <- (Z.add_0_r (CH g)). apply (each_at _ _ _ _ Hr pend []); [done|]. unfold len in Hl. lia. }
  cbn. destruct (Z.eqb_spec (cq_tail u) (cq_head u)) as [He|He]; eexists; (split; [done|]); [|done].
  replace u with (set_cq_head (cq_tail u) u); [done|]. rewrite He. by destruct u.
Qed.

(** ** Any interleaving of calls and kernel actions *)

Definition publish (u : Uring) : Uring := set_sq_tail (sq_tail_local u) u.

(** What the kernel does inside [io_uring_enter]. *)
Definition enter_ok (enter : syscall_enter) (u : Uring) (taken : list io_uring_sqe) (posted : list io_uring_cqe) : Prop :=
  forall to_submit min_complete flags, kernel_ok (publish u) (enter to_submit min_complete flags (publish u)).1 taken posted.

(** One call, or one action of the kernel, with the requests it prepares and takes
    and the completions it posts and reaps. *)
Inductive uring_step : Uring -> list io_uring_sqe -> list io_uring_sqe -> list io_uring_cqe -> list io_uring_cqe -> Uring -> Prop :=
| step_prepare f u u' b : with_sqe f u = (u', Ok b) -> uring_step u (if b then [f sqe_default] else []) [] [] [] u'
| step_submit enter u u' r taken posted : enter_ok enter u taken posted -> available u <> 0 -> submit enter u = (u', r) ->
    uring_step u [] taken posted [] u'
| step_submit_idle enter u u' r : available u = 0 -> submit enter u = (u', r) -> uring_step u [] [] [] [] u'
| step_submit_and_wait enter n u u' r taken posted : enter_ok enter u taken posted -> submit_and_wait enter n u = (u', r) ->
    uring_step u [] taken posted [] u'
| step_kernel u u' taken posted : kernel_ok u u' taken posted -> uring_step u [] taken posted [] u'
| step_peek u c : peek_cqe u = Ok (Some c) -> uring_step u [] [] [] [c] (advance_cq 1 u)
| step_for_each u u' l : for_each_cqe u = (u', Ok l) -> uring_step u [] [] [] l u'.

Inductive uring_run : Uring -> list io_uring_sqe -> list io_uring_sqe -> list io_uring_cqe -> list io_uring_cqe -> Uring -> Prop :=
| run_start u : uring_run u [] [] [] [] u
| run_step u p t q r u1 p' t' q' r' u' : uring_run u p t q r u1 -> uring_step u1 p' t' q' r' u' ->
    uring_run u (p ++ p') (t ++ t') (q ++ q') (r ++ r') u'.

Lemma submit_idle enter u : available u = 0 -> submit enter u = (u, Ok 0).
Proof. intros Hav. unfold submit. rewrite (st_bind_Ok get_state _ u u u) by done. cbv zeta. by rewrite Hav. Qed.

Lemma submit_at g u out pend enter u' r taken posted : rings_at g u out pend -> enter_ok enter u taken posted ->
  (available u <> 0 /\ submit enter u = (u', r) \/ exists n, submit_and_wait enter n u = (u', r)) ->
  safe r /\ exists g' out', out = taken ++ out' /\ rings_at g' u' out' (pend ++ posted).
Proof.
  intros Hr Hk Hs. pose proof (publish_at _ _ _ _ Hr) as Hp.
  assert (forall to_submit min_complete flags,
    (ret ← enter_kernel enter to_submit min_complete flags;
     if ret <? 0 then throw (Os (- ret)) else u ← get_state; modify (set_sq_head_cache (sq_head u));; mret (wrap32 ret)) (publish u) = (u', r) ->
    safe r /\ exists g' out', out = taken ++ out' /\ rings_at g' u' out' (pend ++ posted)) as Henter.
  { intros a b c. specialize (Hk a b c). unfold enter_kernel, mbind, st_bind. destruct (enter a b c (publish u)) as [u1 ret].
    destruct (kernel_at _ _ _ _ _ _ _ Hp Hk) as (out' & Hout & Hr'). destruct (ret <? 0); cbn.
    - intros [= <- <-]. split; [done|]. by eexists _, _.
    - intros [= <- <-]. split; [done|]. eexists _, _. split; [done|]. by apply refresh_at. }
  destruct Hs as [[Hav Hs]|[n Hs]].
  - eapply (Henter (available u) 0 0). rewrite <- Hs. unfold submit. rewrite (st_bind_Ok get_state _ u u u) by done.
    cbv zeta. rewrite (proj2 (Z.eqb_neq _ _)) by done. reflexivity.
  - eapply (Henter (available u) n IORING_ENTER_GETEVENTS). rewrite <- Hs. reflexivity.
Qed.

Lemma step_at g u out pend p t q r u' : rings_at g u out pend -> uring_step u p t q r u' ->
  exists g' out' pend', out ++ p = t ++ out' /\ pend ++ q = r ++ pend' /\ rings_at g' u' out' pend'.
Proof.
  intros Hr Hs. destruct Hs as [f u u' b Hw|enter u u' r taken posted Hk Hav Hs|enter u u' r Hav Hs|enter n u u' r taken posted Hk Hs
    |u u' taken posted Hk|u c Hp|u u' l Hf].
  - destruct (with_sqe_at _ _ _ _ f Hr) as (g' & u1 & Hw' & _ & _ & Hr'). rewrite Hw' in Hw. injection Hw as <- <-.
    exists g', (if len out <? sq_entries u then out ++ [f sqe_default] else out), pend.
    destruct (len out <? sq_entries u); rewrite ?app_nil_r; done.
  - destruct (submit_at _ _ _ _ _ _ _ _ _ Hr Hk (or_introl (conj Hav Hs))) as (_ & g' & out' & -> & Hr').
    exists g', out', (pend ++ posted). by rewrite app_nil_r.
  - assert (u' = u) as ->.
    { rewrite (submit_idle _ _ Hav) in Hs. by injection Hs as <- _. }
    exists g, out, pend. by rewrite !app_nil_r.
  - destruct (submit_at _ _ _ _ _ _ _ _ _ Hr Hk (or_intror (ex_intro _ n Hs))) as (_ & g' & out' & -> & Hr').
    exists g', out', (pend ++ posted). by rewrite app_nil_r.
  - destruct (kernel_at _ _ _ _ _ _ _ Hr Hk) as (out' & -> & Hr'). eexists _, out', (pend ++ posted). rewrite app_nil_r.
    split; [done|]. split; [done|exact Hr'].
  - rewrite (peek_at _ _ _ _ Hr) in Hp. destruct pend as [|c' pend]; [done|]. injection Hp as ->. apply advance_at in Hr.
    eexists _, out, pend. rewrite !app_nil_r. split; [done|]. split; [done|exact Hr].
  - destruct (for_each_at _ _ _ _ Hr) as (u1 & Hf' & Hr'). rewrite Hf' in Hf. injection Hf as <- <-.
    eexists _, out, []. rewrite !app_nil_r. split; [done|]. split; [done|exact Hr'].
Qed.

(** C15: A pair of queues: whatever calls and kernel actions follow one another, the
    kernel takes exactly the prepared requests, in order and as they were filled
    in, and the application reaps exactly the posted completions, in order.  No
    call leaves the arrays or fails but with the kernel's error: there is an entry
    exactly while fewer requests are outstanding than the ring holds, and
    [peek_cqe] and [for_each_cqe] see the completions that are there. *)
Theorem uring_fifo u0 p t q r u : holds u0 [] 0 [] -> uring_run u0 p t q r u ->
  exists out pub pend, p = t ++ out /\ q = r ++ pend /\ holds u out pub pend /\
    0 <= pub <= len out /\ len out <= sq_entries u /\ len pend <= cq_entries u /\
    (forall f, exists u', with_sqe f u = (u', Ok (len out <? sq_entries u))) /\
    peek_cqe u = Ok (head pend) /\ (exists u', for_each_cqe u = (u', Ok pend)) /\
    (forall enter taken posted u' x, enter_ok enter u taken posted -> submit enter u = (u', x) -> safe x).
Proof.
  intros [g0 [Hr0 _]] Hrun. assert (exists g out pend, p = t ++ out /\ q = r ++ pend /\ rings_at g u out pend) as (g & out & pend & -> & -> & Hr).
  { induction Hrun as [u|u p t q r u1 p' t' q' r' u' _ IH Hs]; [by exists g0, [], []|].
    destruct (IH Hr0) as (g & out & pend & -> & -> & Hr). destruct (step_at _ _ _ _ _ _ _ _ _ Hr Hs) as (g' & out' & pend' & Ho & Hp & Hr').
    exists g', out', pend'. split; [by rewrite <- !(assoc_L (++)), Ho|]. split; [by rewrite <- !(assoc_L (++)), Hp|done]. }
  pose proof (at_order _ _ _ _ Hr). pose proof (at_cq_order _ _ _ _ Hr). pose proof (at_out _ _ _ _ Hr). pose proof (at_pend _ _ _ _ Hr).
  exists out, (T g - H g), pend. split_and!; try done; try lia.
  - by exists g.
  - intros f. destruct (with_sqe_at _ _ _ _ f Hr) as (g' & u' & Hw & _). by exists u'.
  - by eapply peek_at.
  - destruct (for_each_at _ _ _ _ Hr) as (u' & Hf & _). by exists u'.
  - intros enter taken posted u' x Hk Hs. destruct (decide (available u = 0)) as [Hav|Hav].
    + rewrite (submit_idle _ _ Hav) in Hs. by injection Hs as _ <-.
    + by destruct (submit_at _ _ _ _ _ _ _ _ _ Hr Hk (or_introl (conj Hav Hs))).
Qed.

(** A kernel: takes [n] of the published requests and posts [cs]. *)
Definition post_cqe (u : Uring) (c : io_uring_cqe) : Uring :=
  mk_Uring (sq_head u) (sq_tail u) (sq_mask u) (sq_entries u) (sq_array u) (sqes u) (cq_head u) (wrap32 (cq_tail u + 1))
    (cq_mask u) (cq_entries u) (<[Z.to_nat (Z.land (cq_tail u) (cq_mask u)) := c]> (cqes u)) (sq_tail_local u) (sq_head_cache u).
Definition take_sqes (n : nat) (u : Uring) : Uring :=
  mk_Uring (wrap32 (sq_head u + Z.of_nat n)) (sq_tail u) (sq_mask u) (sq_entries u) (sq_array u) (sqes u) (cq_head u) (cq_tail u)
    (cq_mask u) (cq_entries u) (cqes u) (sq_tail_local u) (sq_head_cache u).
Definition kernel_enter (ret : Z) (n : nat) (cs : list io_uring_cqe) : syscall_enter :=
  fun _ _ _ u => (foldl post_cqe (take_sqes n u) cs, ret).

(** A counter about to wrap: three requests through a ring of two. *)
Definition late_ring : Uring :=
  mk_Uring u32_max u32_max 1 2 [0; 1] [sqe_default; sqe_default] 0 0 3 4 (replicate 4 (mk_cqe 0 0 0)) u32_max u32_max.
Definition late_run1 : Uring := (with_sqe (fun e => prep_close e 5) late_ring).1.
Definition late_run2 : Uring := (with_sqe (fun e => prep_close e 6) late_run1).1.
Definition late_enter : syscall_enter := kernel_enter 1 1 [mk_cqe 7 0 0].
Definition late_run3 : Uring := (submit late_enter late_run2).1.
Definition late_run4 : Uring := (with_sqe (fun e => prep_close e 8) late_run3).1.

Lemma late_holds : holds late_ring [] 0 [].
Proof.
  exists (mk_counters u32_max u32_max u32_max u32_max 0 0). split; [|done].
  split; cbn [H T L C CH CT late_ring sq_entries sq_mask cq_entries cq_mask sqes sq_array cqes]; try lia; try done.
  - intros i Hi. assert (i = 0 \/ i = 1) as [-> | ->] by lia; done.
Qed.

Lemma late_enter_ok : enter_ok late_enter late_run2 [prep_close sqe_default 5] [mk_cqe 7 0 0].
Proof.
  intros a b c. split.
  - vm_compute. reflexivity.
  - vm_compute. discriminate.
  - intros j e [-> <-]%list_lookup_singleton_Some. vm_compute. reflexivity.
  - vm_compute. reflexivity.
  - vm_compute. discriminate.
  - vm_compute. reflexivity.
  - intros j e [-> <-]%list_lookup_singleton_Some. vm_compute. reflexivity.
  - intros j Hj. assert (wrap32 (cq_tail (publish late_run2) - cq_head (publish late_run2)) = 0) as Hz by (vm_compute; reflexivity). lia.
  - vm_compute. by split_and!.
Qed.

Lemma run_then u p t q r u1 p' t' q' r' u' P T' Q R : uring_run u p t q r u1 -> uring_step u1 p' t' q' r' u' ->
  P = p ++ p' -> T' = t ++ t' -> Q = q ++ q' -> R = r ++ r' -> uring_run u P T' Q R u'.
Proof. intros Hr Hs -> -> -> ->. by eapply run_step. Qed.

Definition late_prepared : list io_uring_sqe := [prep_close sqe_default 5; prep_close sqe_default 6; prep_close sqe_default 8].

Lemma late_runs : uring_run late_ring late_prepared [prep_close sqe_default 5] [mk_cqe 7 0 0] [] late_run4.
Proof.
  assert (uring_run late_ring [prep_close sqe_default 5] [] [] [] late_run1) as H1.
  { eapply run_then; [apply run_start|apply (step_prepare (fun e => prep_close e 5) _ _ true); vm_compute; reflexivity|done..]. }
  assert (uring_run late_ring [prep_close sqe_default 5; prep_close sqe_default 6] [] [] [] late_run2) as H2.
  { eapply run_then; [exact H1|apply (step_prepare (fun e => prep_close e 6) _ _ true); vm_compute; reflexivity|done..]. }
  assert (uring_run late_ring [prep_close sqe_default 5; prep_close sqe_default 6] [prep_close sqe_default 5] [mk_cqe 7 0 0] [] late_run3) as H3.
  { eapply run_then; [exact H2| |done..]. eapply (step_submit late_enter); [apply late_enter_ok|vm_compute; discriminate|apply surjective_pairing]. }
  eapply run_then; [exact H3|apply (step_prepare (fun e => prep_close e 8) _ _ true); vm_compute; reflexivity|done..].
Qed.

Lemma uring_fifo_witness : sq_tail_local late_run4 = 2 /\
  exists out pub pend, late_prepared = [prep_close sqe_default 5] ++ out /\ [mk_cqe 7 0 0] = [] ++ pend /\ holds late_run4 out pub pend.
Proof.
  split; [vm_compute; reflexivity|].
  destruct (uring_fifo late_ring late_prepared [prep_close sqe_default 5] [mk_cqe 7 0 0] [] late_run4 late_holds late_runs)
    as (out & pub & pend & H1 & H2 & H3 & _).
  by exists out, pub, pend.
Defined.

(** ** [new] and [Drop] *)

(** What [io_uring_setup] returns in [io_uring_params], as far as it is read. *)
Record io_sqring_offsets := mk_sq_off { so_head : Z; so_tail : Z; so_ring_mask : Z; so_ring_entries : Z; so_array : Z }.
Record io_cqring_offsets := mk_cq_off { co_head : Z; co_tail : Z; co_ring_mask : Z; co_ring_entries : Z; co_cqes : Z }.
Record io_uring_params := mk_params { p_sq_entries : Z; p_cq_entries : Z; features : Z; sq_off : io_sqring_offsets; cq_off : io_cqring_offsets }.

Definition IORING_SETUP_CLAMP : Z := Z.shiftl 1 4.
Definition IORING_SETUP_SINGLE_ISSUER : Z := Z.shiftl 1 12.
Definition IORING_FEAT_SINGLE_MMAP : Z := Z.shiftl 1 0.
Definition IORING_OFF_SQ_RING : Z := 0.
Definition IORING_OFF_SQES : Z := 0x10000000.

(** The descriptor and the mappings, and the calls that acquire and release them. *)
Inductive resource := Fd (fd : Z) | RingMap (size : Z) | SqesMap (size : Z).
#[export] Instance resource_eq_dec : EqDecision resource.
Proof. solve_decision. Defined.
Inductive sys_event := Acquire (r : resource) | Release (r : resource).

(** [setup] is [io_uring_setup] (entries and flags), [map_ring] and [map_sqes] are
    whether [mmap] succeeds for a size, and [mem] the 32-bit word at an offset of
    the ring's mapping.  The kernel lays the words and the arrays out apart from one
    another, so that the stores into the arrays leave the words alone. *)
Record kernel_setup := mk_kernel_setup {
  setup : Z -> Z -> Z * io_uring_params;
  map_ring : Z -> bool;
  map_sqes : Z -> bool;
  mem : Z -> Z;
  errno : Z
}.

Definition SIZE_U32 : Z := 4.
Definition SIZE_SQE : Z := 64.
Definition SIZE_CQE : Z := 16.

Definition sq_ring_sz (p : io_uring_params) : Z := wrap64 (so_array (sq_off p) + wrap64 (p_sq_entries p * SIZE_U32)).
Definition cq_ring_sz (p : io_uring_params) : Z := wrap64 (co_cqes (cq_off p) + wrap64 (p_cq_entries p * SIZE_CQE)).
Definition sqes_size (p : io_uring_params) : Z := wrap64 (p_sq_entries p * SIZE_SQE).
Definition ring_size_of (p : io_uring_params) : Z :=
  if negb (Z.land (features p) IORING_FEAT_SINGLE_MMAP =? 0) then Z.max (sq_ring_sz p) (cq_ring_sz p) else sq_ring_sz p.

(** A load or store of [n] bytes at an offset of a mapping of [size] bytes. *)
Definition in_mapping {E} (size o n : Z) : outcome E unit := if (0 <=? o) && (o + n <=? size) then Ok tt else Ub.
Definition load_u32 (k : kernel_setup) (size o : Z) : outcome io_error Z :=
  _ ← in_mapping size o SIZE_U32; Ok (mem k o).

(** How many elements of a size fit in a mapping behind an offset: those a pointer
    to the offset may be indexed with. *)
Definition elements (size o each : Z) : nat := Z.to_nat ((size - o) / each).

(** The pointers and masks of [new], and the loop that fills the array. *)
Definition attach (k : kernel_setup) (p : io_uring_params) (ring_sz sqes_sz : Z) : outcome io_error Uring :=
  sq_head ← load_u32 k ring_sz (so_head (sq_off p));
  sq_tail ← load_u32 k ring_sz (so_tail (sq_off p));
  sq_mask ← load_u32 k ring_sz (so_ring_mask (sq_off p));
  sq_entries_kern ← load_u32 k ring_sz (so_ring_entries (sq_off p));
  cq_head ← load_u32 k ring_sz (co_head (cq_off p));
  cq_tail ← load_u32 k ring_sz (co_tail (cq_off p));
  cq_mask ← load_u32 k ring_sz (co_ring_mask (cq_off p));
  cq_entries_kern ← load_u32 k ring_sz (co_ring_entries (cq_off p));
  _ ← in_mapping ring_sz (so_array (sq_off p)) (sq_entries_kern * SIZE_U32);
  Ok (mk_Uring sq_head sq_tail sq_mask sq_entries_kern (seqZ 0 sq_entries_kern)
    (replicate (elements sqes_sz 0 SIZE_SQE) sqe_default) cq_head cq_tail cq_mask cq_entries_kern
    (replicate (Nat.min (elements ring_sz (co_cqes (cq_off p)) SIZE_CQE) (Z.to_nat cq_entries_kern)) (mk_cqe 0 0 0)) 0 0).

Definition Uring_new (k : kernel_setup) (entries : Z) : list sys_event * outcome io_error (Uring * list resource) :=
  let '(fd, p) := setup k entries (Z.lor IORING_SETUP_SINGLE_ISSUER IORING_SETUP_CLAMP) in
  if fd <? 0 then ([], Err (Os (- fd))) else
  let sqes_sz := sqes_size p in
  let ring_sz := ring_size_of p in
  if negb (map_ring k ring_sz) then ([Acquire (Fd fd); Release (Fd fd)], Err (Os (errno k))) else
  if negb (map_sqes k sqes_sz)
  then ([Acquire (Fd fd); Acquire (RingMap ring_sz); Release (RingMap ring_sz); Release (Fd fd)], Err (Os (errno k))) else
  ([Acquire (Fd fd); Acquire (RingMap ring_sz); Acquire (SqesMap sqes_sz)],
   u ← attach k p ring_sz sqes_sz; Ok (u, [SqesMap sqes_sz; RingMap ring_sz; Fd fd])).

(** [Drop], of a ring with these resources. *)
Definition Uring_drop (rs : list resource) : list sys_event := Release <$> rs.

(** What is held after a list of events. *)
Definition held_after (evs : list sys_event) : list resource :=
  foldl (fun l ev => match ev with Acquire r => l ++ [r] | Release r => filter (fun x => x <> r) l end) [] evs.

Lemma load_ok_or_ub k size o : load_u32 k size o = Ok (mem k o) \/ load_u32 k size o = Ub.
Proof. unfold load_u32, in_mapping. destruct (_ && _); [by left|by right]. Qed.

Lemma attach_ok_or_ub k p r s : (exists u, attach k p r s = Ok u) \/ attach k p r s = Ub.
Proof.
  unfold attach.
  repeat match goal with |- context [load_u32 k r ?o] => destruct (load_ok_or_ub k r o) as [-> | ->]; [cbn [mbind outcome_bind]|by right] end.
  unfold in_mapping. destruct (_ && _); [left; by eexists|by right].
Qed.

Ltac filter_resources :=
  cbn; repeat (case_decide; try (by match goal with
    | Hne : ?x <> ?x |- _ => exfalso; apply Hne
    | Hne : ~ (_ <> _) |- _ => exfalso; apply Hne; discriminate
    end); cbn); try done.

(** [new] leaks nothing: when it fails, the descriptor and the mapping it had
    are released; when it succeeds, the descriptor and both mappings are held and
    [Drop] releases them. *)
Theorem uring_new_releases k entries : let '(evs, r) := Uring_new k entries in
  match r with
  | Err _ => held_after evs = []
  | Ok (_, rs) => held_after evs ≡ₚ rs /\ held_after (evs ++ Uring_drop rs) = []
  | _ => True
  end.
Proof.
  unfold Uring_new. destruct (setup k entries _) as [fd p]. destruct (fd <? 0); [done|].
  destruct (map_ring k _); [|filter_resources].
  destruct (map_sqes k _); [|filter_resources].
  cbn [negb]. destruct (attach_ok_or_ub k p (ring_size_of p) (sqes_size p)) as [[u ->] | ->]; [|done].
  cbn [mbind outcome_bind]. split; [|filter_resources]. filter_resources. solve_Permutation.
Qed.

(** What the kernel documents of a fresh ring: sizes that are powers of two within
    its limits, counters at 0, and everything inside of the one mapping. *)
Record setup_ok (k : kernel_setup) (p : io_uring_params) : Prop := {
  setup_sq : is_power_of_two (p_sq_entries p) = true /\ p_sq_entries p <= 2 ^ 15;
  setup_cq : is_power_of_two (p_cq_entries p) = true /\ p_cq_entries p <= 2 ^ 16;
  setup_words : mem k (so_head (sq_off p)) = 0 /\ mem k (so_tail (sq_off p)) = 0 /\
    mem k (so_ring_mask (sq_off p)) = p_sq_entries p - 1 /\ mem k (so_ring_entries (sq_off p)) = p_sq_entries p /\
    mem k (co_head (cq_off p)) = 0 /\ mem k (co_tail (cq_off p)) = 0 /\
    mem k (co_ring_mask (cq_off p)) = p_cq_entries p - 1 /\ mem k (co_ring_entries (cq_off p)) = p_cq_entries p;
  setup_offsets o : o ∈ [so_head (sq_off p); so_tail (sq_off p); so_ring_mask (sq_off p); so_ring_entries (sq_off p);
    co_head (cq_off p); co_tail (cq_off p); co_ring_mask (cq_off p); co_ring_entries (cq_off p)] ->
    0 <= o /\ o + SIZE_U32 <= ring_size_of p;
  setup_arrays : is_u32 (so_array (sq_off p)) /\ is_u32 (co_cqes (cq_off p));
  setup_feature : Z.land (features p) IORING_FEAT_SINGLE_MMAP <> 0
}.

Lemma setup_sizes k p : setup_ok k p -> 0 < p_sq_entries p /\ 0 < p_cq_entries p /\
  sqes_size p = p_sq_entries p * SIZE_SQE /\
  so_array (sq_off p) + p_sq_entries p * SIZE_U32 <= ring_size_of p /\
  co_cqes (cq_off p) + p_cq_entries p * SIZE_CQE <= ring_size_of p.
Proof.
  intros Hk. destruct (setup_sq _ _ Hk) as [[?%Z.ltb_lt _]%andb_true_iff ?]. destruct (setup_cq _ _ Hk) as [[?%Z.ltb_lt _]%andb_true_iff ?].
  destruct (setup_arrays _ _ Hk) as [Ha Hc]. unfold is_u32 in *. unfold ring_size_of, sqes_size, sq_ring_sz, cq_ring_sz, SIZE_U32, SIZE_CQE, SIZE_SQE.
  rewrite (proj2 (Z.eqb_neq _ _) (setup_feature _ _ Hk)). cbn [negb].
  rewrite !(wrap64_small (_ * _)) by (unfold is_u64; lia). rewrite !wrap64_small by (unfold is_u64; lia). lia.
Qed.

Lemma load_word k p o : setup_ok k p -> o ∈ [so_head (sq_off p); so_tail (sq_off p); so_ring_mask (sq_off p); so_ring_entries (sq_off p);
    co_head (cq_off p); co_tail (cq_off p); co_ring_mask (cq_off p); co_ring_entries (cq_off p)] ->
  load_u32 k (ring_size_of p) o = Ok (mem k o).
Proof.
  intros Hk [H1 H2]%(setup_offsets _ _ Hk). unfold load_u32, in_mapping.
  by rewrite (proj2 (Z.leb_le _ _)), (proj2 (Z.leb_le _ _)) by done.
Qed.

Lemma uring_new_holds k entries fd p : setup k entries (Z.lor IORING_SETUP_SINGLE_ISSUER IORING_SETUP_CLAMP) = (fd, p) ->
  0 <= fd -> setup_ok k p -> map_ring k (ring_size_of p) = true -> map_sqes k (sqes_size p) = true ->
  exists u, (Uring_new k entries).2 = Ok (u, [SqesMap (sqes_size p); RingMap (ring_size_of p); Fd fd]) /\
    holds u [] 0 [] /\ sq_entries u = p_sq_entries p /\ cq_entries u = p_cq_entries p.
Proof.
  intros Hs Hfd Hk Hm1 Hm2. destruct (setup_sizes _ _ Hk) as (Hp1 & Hp2 & Hsz & Hsq & Hcq).
  destruct (setup_words _ _ Hk) as (W1 & W2 & W3 & W4 & W5 & W6 & W7 & W8). destruct (setup_arrays _ _ Hk) as [Ha Hc]. unfold is_u32 in Ha, Hc.
  unfold Uring_new. rewrite Hs, (proj2 (Z.ltb_ge _ _) Hfd), Hm1, Hm2. cbn [negb snd]. unfold attach.
  rewrite !(load_word k p) by (done || (rewrite !elem_of_cons; tauto)). rewrite W1, W2, W3, W4, W5, W6, W7, W8. cbn [mbind outcome_bind].
  unfold in_mapping. rewrite (proj2 (Z.leb_le _ _)), (proj2 (Z.leb_le _ _)) by lia. cbn [andb mbind outcome_bind].
  eexists. split; [done|]. split; [|done]. exists (mk_counters 0 0 0 0 0 0). split; [|done].
  destruct (setup_sq _ _ Hk) as [Hsq2 ?]. destruct (setup_cq _ _ Hk) as [Hcq2 ?].
  assert (elements (sqes_size p) 0 SIZE_SQE = Z.to_nat (p_sq_entries p)) as ->.
  { unfold elements. rewrite Hsz, Z.sub_0_r, Z.div_mul by done. done. }
  assert (p_cq_entries p <= (ring_size_of p - co_cqes (cq_off p)) / SIZE_CQE) by (apply Z.div_le_lower_bound; [done|unfold SIZE_CQE in *; lia]).
  split; cbn; try done; try lia.
  - split_and!; [done|lia|done].
  - split_and!; [done|lia|done].
  - unfold len, elements. rewrite !length_replicate, length_seqZ. lia.
  - intros i Hi. apply lookup_seqZ. lia.
Qed.

(** A fresh ring: when the kernel keeps to what it documents and the mappings
    succeed, [new] reads and writes only inside of them and gives an empty pair of
    queues. *)
Theorem uring_new_ready k entries fd p : setup k entries (Z.lor IORING_SETUP_SINGLE_ISSUER IORING_SETUP_CLAMP) = (fd, p) ->
  0 <= fd -> setup_ok k p -> map_ring k (ring_size_of p) = true -> map_sqes k (sqes_size p) = true ->
  exists u, (Uring_new k entries).2 = Ok (u, [SqesMap (sqes_size p); RingMap (ring_size_of p); Fd fd]) /\
    holds u [] 0 [] /\ sq_entries u = p_sq_entries p /\ cq_entries u = p_cq_entries p.
Proof. apply uring_new_holds. Qed.

Definition example_params : io_uring_params :=
  mk_params 1024 2048 1 (mk_sq_off 0 64 256 264 33344) (mk_cq_off 128 192 260 268 576).
Definition example_setup : kernel_setup :=
  mk_kernel_setup (fun _ _ => (3, example_params)) (fun _ => true) (fun _ => true)
    (fun o => if o =? 256 then 1023 else if o =? 264 then 1024 else if o =? 260 then 2047 else if o =? 268 then 2048 else 0) 12.

Lemma example_setup_ok : setup_ok example_setup example_params.
Proof.
  split.
  - by split.
  - by split.
  - by split_and!.
  - intros o Ho. repeat (apply elem_of_cons in Ho as [->|Ho]; [by vm_compute|]). by apply elem_of_nil in Ho.
  - by split.
  - done.
Qed.

Lemma uring_new_ready_witness :
  exists u, (Uring_new example_setup 1024).2 = Ok (u, [SqesMap 65536; RingMap 37440; Fd 3]) /\ holds u [] 0 [].
Proof.
  destruct (uring_new_ready example_setup 1024 3 example_params) as (u & Hn & Hh & _); [done|done|exact example_setup_ok|done|done|].
  exists u. split; [exact Hn|exact Hh].
Defined.
