(* ===== verification/BufRing.v ===== *)
(** * The provided buffers (uring-engine/src/buf_ring.rs)

    [BufRing]: the ring through which the server hands receive buffers to the
    kernel and back.  The ring's memory is shared; the tail the kernel reads lies
    in it, in the [resv] field of entry 0.  The kernel is a party with a head of
    its own that takes the buffer at its head while its head is not the tail.

    The kernel runs between any two calls of the server.  [add] clears the tail that
    the kernel reads when it writes entry 0, until the next [flush]: the tail is torn.
    [buf_ring_cycle]: as long as the kernel takes no buffer while the tail is torn,
    every buffer is with the server, waits for the [flush], or is with the kernel,
    which takes none of the others.  [buf_ring_torn_tail]: without that condition it
    does. *)

From S2P Require Import Prelude.
From S2P Require Import UringOp.
From S2P Require Import Uring.
#[local] Open Scope Z_scope.

Definition wrap16 (x : Z) : Z := x mod 2 ^ 16.

Record io_uring_buf := mk_buf { b_addr : Z; b_len : Z; bid : Z; resv : Z }.

(** [ring_ptr] is the list of its entries; [buf_storage] is its address. *)
Record BufRing := mk_BufRing {
  bgid : Z;
  b_entries : Z;
  b_mask : Z;
  b_tail : Z;
  bufs : list io_uring_buf;
  buf_storage : Z;
  buf_size : Z
}.

Definition set_bufs (l : list io_uring_buf) (r : BufRing) : BufRing :=
  mk_BufRing (bgid r) (b_entries r) (b_mask r) (b_tail r) l (buf_storage r) (buf_size r).
Definition set_b_tail (x : Z) (r : BufRing) : BufRing :=
  mk_BufRing (bgid r) (b_entries r) (b_mask r) x (bufs r) (buf_storage r) (buf_size r).

Definition add (addr n id : Z) (r : BufRing) : outcome io_error BufRing :=
  let idx := Z.land (b_tail r) (b_mask r) in
  l ← write_at (bufs r) idx (mk_buf addr (wrap32 n) id 0);
  Ok (set_b_tail (wrap16 (b_tail r + 1)) (set_bufs l r)).

Definition get_buffer_ptr (id : Z) (r : BufRing) : Z := buf_storage r + id * buf_size r.

Definition recycle (id : Z) (r : BufRing) : outcome io_error BufRing :=
  let addr := get_buffer_ptr id r in
  add addr (buf_size r) id r.

(** The 16 bits at byte 14 of the ring are the [resv] of entry 0. *)
Definition flush (r : BufRing) : outcome io_error BufRing :=
  e ← read_at (bufs r) 0;
  l ← write_at (bufs r) 0 (mk_buf (b_addr e) (b_len e) (bid e) (b_tail r));
  Ok (set_bufs l r).

(** The loop of [new] over the buffers. *)
Fixpoint add_all (ids : list Z) (r : BufRing) : outcome io_error BufRing :=
  match ids with
  | [] => Ok r
  | id :: ids => r ← recycle id r; add_all ids r
  end.

(** [new]: the two allocations, the registration with the kernel, and the buffers.
    [layout_ok] and [alloc] are whether a layout is valid and an allocation
    succeeds; [register] is the kernel's result. *)
Inductive alloc_event := AllocRing | AllocStorage | FreeRing | FreeStorage.
Record allocator := mk_allocator { layout_ok : Z -> bool; alloc_ring : option unit; alloc_storage : option Z; register_ret : Z }.

Definition SIZE_BUF : Z := 16.
Definition other_error : io_error := Os (-1).
Definition out_of_memory : io_error := Os 12.

Definition BufRing_new (a : allocator) (group entries size : Z) : list alloc_event * outcome io_error BufRing :=
  if negb (is_power_of_two entries) then ([], Panic) else
  let ring_bytes := wrap64 (entries * SIZE_BUF) in
  if negb (layout_ok a ring_bytes) then ([], Err other_error) else
  match alloc_ring a with
  | None => ([], Err out_of_memory)
  | Some _ =>
      let total_storage_bytes := wrap64 (entries * size) in
      if negb (layout_ok a total_storage_bytes) then ([AllocRing], Err other_error) else
      match alloc_storage a with
      | None => ([AllocRing; FreeRing], Err out_of_memory)
      | Some storage =>
          if register_ret a <? 0 then ([AllocRing; AllocStorage; FreeStorage; FreeRing], Err (Os (- register_ret a))) else
          let br := mk_BufRing group entries (wrap16 (entries - 1)) 0
            (replicate (Z.to_nat entries) (mk_buf 0 0 0 0)) storage size in
          ([AllocRing; AllocStorage],
           br ← add_all (seqZ 0 (wrap16 entries)) br;
           flush br)
      end
  end.

(** [Drop]. *)
Definition BufRing_drop : list alloc_event := [FreeStorage; FreeRing].

(** ** The kernel's side *)

Definition shared_tail (r : BufRing) : Z := match bufs r with e :: _ => resv e | [] => 0 end.

(** The kernel takes a buffer for a receive: the entry at its head, unless its head
    is the tail. *)
Definition pick (r : BufRing) (head : Z) : option io_uring_buf :=
  if head =? shared_tail r then None else bufs r !! Z.to_nat (Z.land head (b_mask r)).

(** The ring and the kernel's head; and, for the specification, the buffers that are
    with the server, those recycled since the last [flush], and whether one of these
    went into entry 0, where the tail is. *)
Record buf_system := mk_buf_system { ring : BufRing; khead : Z; in_use : list Z; unflushed : list Z; torn : bool }.

Inductive buf_action := Pick | Recycle (id : Z) | Flush.

(** The stores of one [add] are one step: the entry that it writes is not one the
    kernel may take, and of its fields only the [resv] of entry 0 is read by it. *)
Definition buf_exec (a : buf_action) (s : buf_system) : outcome io_error buf_system :=
  match a with
  | Pick =>
      Ok match pick (ring s) (khead s) with
         | Some e => mk_buf_system (ring s) (wrap16 (khead s + 1)) (in_use s ++ [bid e]) (unflushed s) (torn s)
         | None => s
         end
  | Recycle id =>
      r ← recycle id (ring s);
      Ok (mk_buf_system r (khead s) (filter (fun i => i <> id) (in_use s)) (unflushed s ++ [id])
            (torn s || (Z.land (b_tail (ring s)) (b_mask (ring s)) =? 0)))
  | Flush => r ← flush (ring s); Ok (mk_buf_system r (khead s) (in_use s) [] false)
  end.

Fixpoint buf_run (l : list buf_action) (s : buf_system) : outcome io_error buf_system :=
  match l with
  | [] => Ok s
  | a :: l => s ← buf_exec a s; buf_run l s
  end.

(** ** What the ring holds *)

(** The counters without the wrap are [h] and [t]; the kernel may take the buffers
    [avail], in order. *)
Record slots (h t : Z) (avail : list Z) (r : BufRing) : Prop := {
  slots_size : is_power_of_two (b_entries r) = true /\ b_entries r <= 2 ^ 15 /\ b_mask r = b_entries r - 1;
  slots_len : len (bufs r) = b_entries r;
  slots_tail : b_tail r = wrap16 t;
  slots_avail : len avail = t - h /\ len avail <= b_entries r;
  slots_at j id : avail !! j = Some id -> exists e, bufs r !! Z.to_nat ((h + Z.of_nat j) mod b_entries r) = Some e /\
    bid e = id /\ b_addr e = get_buffer_ptr id r /\ b_len e = wrap32 (buf_size r)
}.

Lemma ring_index16 r h t avail x : slots h t avail r -> Z.land (wrap16 x) (b_mask r) = x mod b_entries r.
Proof.
  intros Hs. destruct (slots_size _ _ _ _ Hs) as ([H1%Z.ltb_lt H2%Z.eqb_eq]%andb_true_iff & He & ->).
  pose proof (Z.log2_nonneg (b_entries r)) as Hl. rewrite <- H2 at 1. rewrite land_ones_mod by done. rewrite H2.
  unfold wrap16. apply Z.mod_mod_divide.
  assert (Z.log2 (b_entries r) <= 15) as Hle.
  { destruct (Z.le_gt_cases (Z.log2 (b_entries r)) 15); [done|]. pose proof (Z.pow_lt_mono_r 2 15 (Z.log2 (b_entries r))). lia. }
  exists (2 ^ (16 - Z.log2 (b_entries r))). rewrite <- H2 at 2. rewrite <- Z.pow_add_r by lia. f_equal. lia.
Qed.

Lemma slots_pos h t avail r : slots h t avail r -> 0 < b_entries r.
Proof. intros Hs. destruct (slots_size _ _ _ _ Hs) as ([?%Z.ltb_lt _]%andb_true_iff & _). done. Qed.

Lemma recycle_slots h t avail r id : slots h t avail r -> len avail < b_entries r ->
  exists r', recycle id r = Ok r' /\ slots h (t + 1) (avail ++ [id]) r' /\
    b_entries r' = b_entries r /\ buf_storage r' = buf_storage r /\ buf_size r' = buf_size r.
Proof.
  intros Hs Hroom. pose proof (slots_pos _ _ _ _ Hs) as Hpos. destruct (slots_avail _ _ _ _ Hs) as [Ha _].
  pose proof (Z.mod_pos_bound t _ Hpos) as Ht. unfold recycle, add. rewrite (slots_tail _ _ _ _ Hs), (ring_index16 _ _ _ _ _ Hs).
  rewrite write_at_ok by (rewrite (slots_len _ _ _ _ Hs); done). eexists. split; [done|]. split; [|done].
  split; cbn; [apply Hs|unfold len; rewrite length_insert; apply Hs|..].
  - unfold wrap16. by rewrite Z.add_mod_idemp_l.
  - rewrite len_app. change (len [id]) with 1. lia.
  - intros j id' [Hj|[Hge Hj]]%lookup_app_Some.
    + pose proof (lookup_lt_Some _ _ _ Hj) as Hlt. destruct (slots_at _ _ _ _ Hs _ _ Hj) as (e & He & Hrest).
      exists e. split; [|done]. rewrite list_lookup_insert_ne; [done|]. pose proof (Z.mod_pos_bound (h + Z.of_nat j) _ Hpos).
      intros Heq. apply (mod_neq (h + Z.of_nat j) t (b_entries r)); [done|unfold len in *; lia|lia].
    + apply list_lookup_singleton_Some in Hj as [Hj <-]. replace (h + Z.of_nat j) with t by (unfold len in *; lia).
      rewrite list_lookup_insert_eq; [by eexists|]. pose proof (slots_len _ _ _ _ Hs) as Hl. unfold len in Hl. lia.
Qed.

Lemma add_all_slots ids h t avail r : slots h t avail r -> len avail + len ids <= b_entries r ->
  exists r', add_all ids r = Ok r' /\ slots h (t + len ids) (avail ++ ids) r' /\
    b_entries r' = b_entries r /\ buf_storage r' = buf_storage r /\ buf_size r' = buf_size r.
Proof.
  revert t avail r. induction ids as [|id ids IH]; intros t avail r Hs Hroom.
  - exists r. rewrite app_nil_r, len_nil, Z.add_0_r. done.
  - rewrite len_cons in Hroom. pose proof (len_nonneg ids). destruct (recycle_slots _ _ _ _ id Hs) as (r1 & H1 & Hs1 & E1 & E2 & E3); [lia|].
    destruct (IH _ _ _ Hs1) as (r' & H2 & Hs2 & F1 & F2 & F3); [rewrite len_app, E1; change (len [id]) with 1; lia|].
    exists r'. cbn [add_all]. rewrite H1. cbn [mbind outcome_bind]. split; [done|]. rewrite <- (assoc_L (++)) in Hs2.
    rewrite len_cons, Z.add_assoc. split; [exact Hs2|]. split_and!; congruence.
Qed.

Lemma flush_slots h t avail r : slots h t avail r -> exists r', flush r = Ok r' /\ slots h t avail r' /\ shared_tail r' = wrap16 t /\
  b_entries r' = b_entries r /\ buf_storage r' = buf_storage r /\ buf_size r' = buf_size r.
Proof.
  intros Hs. pose proof (slots_pos _ _ _ _ Hs) as Hpos. pose proof (slots_len _ _ _ _ Hs) as Hl.
  destruct (lookup_lt_is_Some_2 (bufs r) 0) as [e He]; [unfold len in Hl; lia|].
  unfold flush. rewrite (read_at_ok _ _ e) by done. cbn [mbind outcome_bind]. rewrite write_at_ok by lia. eexists. split; [done|].
  split; [|split; [|done]].
  - split; cbn [set_bufs b_entries b_mask bufs b_tail]; try apply Hs; [unfold len; rewrite length_insert; apply Hs|].
    intros j id Hj. destruct (slots_at _ _ _ _ Hs _ _ Hj) as (e' & He' & Hrest).
    destruct (decide (Z.to_nat 0 = Z.to_nat ((h + Z.of_nat j) mod b_entries r))) as [Heq|Hne].
    + rewrite <- Heq in He' |- *. change (Z.to_nat 0) with 0%nat in *. rewrite list_lookup_insert_eq by (by eapply lookup_lt_Some).
      replace e' with e in * by congruence.
      by eexists.
    + rewrite list_lookup_insert_ne by done. by exists e'.
  - unfold shared_tail. cbn [set_bufs bufs]. destruct (bufs r); [done|]. apply (slots_tail _ _ _ _ Hs).
Qed.

(** ** The cycle *)

(** A new ring: the kernel has all buffers. *)
Definition ring_full (r : BufRing) : Prop := exists h t avail, slots h t avail r /\
  0 = wrap16 h /\ shared_tail r = wrap16 t /\ avail ≡ₚ seqZ 0 (b_entries r).

(** The kernel may take the buffers [avail]; behind them wait those that are not yet
    flushed. *)
Definition buf_inv (s : buf_system) : Prop := exists h p avail, slots h (p + len (unflushed s)) (avail ++ unflushed s) (ring s) /\
  khead s = wrap16 h /\ len avail = p - h /\ (torn s = false -> shared_tail (ring s) = wrap16 p) /\
  (avail ++ unflushed s) ++ in_use s ≡ₚ seqZ 0 (b_entries (ring s)).

(** The server gives back what it has, and the kernel takes no buffer while the tail
    is torn. *)
Definition buf_allowed (a : buf_action) (s : buf_system) : Prop :=
  match a with
  | Pick => torn s = false
  | Recycle id => id ∈ in_use s
  | Flush => True
  end.

Lemma filter_out_perm (id : Z) (l : list Z) : NoDup l -> id ∈ l -> id :: filter (fun i => i <> id) l ≡ₚ l.
Proof.
  intros Hl Hid. apply NoDup_Permutation; [|done|].
  - constructor; [|by apply NoDup_filter]. by intros [? _]%list_elem_of_filter.
  - intros x. rewrite elem_of_cons, list_elem_of_filter. destruct (decide (x = id)) as [->|]; tauto.
Qed.

(** Writing another entry than the first leaves the tail. *)
Lemma recycle_tail h t avail r r' id : slots h t avail r -> recycle id r = Ok r' ->
  (Z.land (b_tail r) (b_mask r) =? 0) = false -> shared_tail r' = shared_tail r.
Proof.
  intros Hs Hr Hne%Z.eqb_neq. pose proof (slots_pos _ _ _ _ Hs) as Hpos. pose proof (Z.mod_pos_bound t _ Hpos).
  unfold recycle, add in Hr. rewrite (slots_tail _ _ _ _ Hs), (ring_index16 _ _ _ _ _ Hs) in Hr, Hne.
  rewrite write_at_ok in Hr by (rewrite (slots_len _ _ _ _ Hs); done). injection Hr as <-.
  unfold shared_tail. cbn [set_b_tail set_bufs bufs]. destruct (Z.to_nat (t mod b_entries r)) eqn:Hi; [lia|]. by destruct (bufs r).
Qed.

Lemma inv_room s id h t avail : slots h t avail (ring s) -> avail ++ in_use s ≡ₚ seqZ 0 (b_entries (ring s)) ->
  id ∈ in_use s -> len avail < b_entries (ring s).
Proof.
  intros Hs Hp Hid. pose proof (Permutation_length Hp) as Hl. rewrite length_app, length_seqZ in Hl.
  pose proof (slots_pos _ _ _ _ Hs). destruct (in_use s) as [|x l]; [by apply elem_of_nil in Hid|]. cbn in Hl. unfold len. lia.
Qed.

(** What the kernel takes, in a state of the invariant. *)
Lemma pick_spec s : buf_inv s -> torn s = false ->
  match pick (ring s) (khead s) with
  | Some e => exists h p avail, slots h (p + len (unflushed s)) (bid e :: avail ++ unflushed s) (ring s) /\
      khead s = wrap16 h /\ len avail = p - h - 1 /\ shared_tail (ring s) = wrap16 p /\
      (bid e :: avail ++ unflushed s) ++ in_use s ≡ₚ seqZ 0 (b_entries (ring s)) /\
      b_addr e = get_buffer_ptr (bid e) (ring s) /\ b_len e = wrap32 (buf_size (ring s))
  | None => unflushed s ++ in_use s ≡ₚ seqZ 0 (b_entries (ring s))
  end.
Proof.
  intros (h & p & avail & Hs & Hh & Hlen & Ht & Hp) Htorn. specialize (Ht Htorn).
  pose proof (slots_avail _ _ _ _ Hs) as [_ Hmax]. destruct (slots_size _ _ _ _ Hs) as (_ & Hle & _).
  rewrite len_app in Hmax. pose proof (len_nonneg (unflushed s)). unfold pick. rewrite Hh, Ht.
  destruct (Z.eqb_spec (wrap16 h) (wrap16 p)) as [He|Hne].
  - destruct avail as [|id avail]; [done|]. exfalso. rewrite len_cons in *. pose proof (len_nonneg avail).
    assert ((p - h) mod 2 ^ 16 = 0) as Hz by (unfold wrap16 in He; rewrite Zminus_mod, He, Z.sub_diag; done).
    rewrite Z.mod_small in Hz; lia.
  - destruct avail as [|id avail]; [rewrite len_nil in Hlen; exfalso; apply Hne; f_equal; lia|]. rewrite len_cons in *.
    destruct (slots_at _ _ _ _ Hs 0%nat id eq_refl) as (e & He & Hid & Hrest). rewrite Z.add_0_r in He.
    rewrite (ring_index16 _ _ _ _ _ Hs), He. exists h, p, avail. rewrite Hid. split_and!; [done|done|lia|done|done|apply Hrest..].
Qed.

Lemma buf_exec_inv a s : buf_inv s -> buf_allowed a s -> exists s', buf_exec a s = Ok s' /\ buf_inv s' /\ b_entries (ring s') = b_entries (ring s).
Proof.
  intros Hinv Ha. destruct a as [|id|]; cbn [buf_exec buf_allowed] in *.
  - pose proof (pick_spec s Hinv Ha) as Hpick. destruct (pick _ _) as [e|]; [|by eexists].
    destruct Hpick as (h & p & avail & Hs & Hh & Hlen & Ht & Hp & _). eexists. split; [done|]. split; [|done].
    exists (h + 1), p, avail. cbn. rewrite Hh. split_and!; [|by unfold wrap16; rewrite Z.add_mod_idemp_l|lia|done|].
    + pose proof (slots_avail _ _ _ _ Hs) as [Hl Hmax]. rewrite len_cons in *.
      split; try apply Hs; [lia|]. intros j id' Hj. replace (h + 1 + Z.of_nat j) with (h + Z.of_nat (S j)) by lia. by apply (slots_at _ _ _ _ Hs).
    + rewrite <- Hp. solve_Permutation.
  - destruct Hinv as (h & p & avail & Hs & Hh & Hlen & Ht & Hp).
    destruct (recycle_slots _ _ _ _ id Hs) as (r' & Hr & Hs' & E1 & _); [by apply (inv_room s id _ _ _ Hs Hp)|].
    rewrite Hr. cbn [mbind outcome_bind]. eexists. split; [done|]. split; [|done]. exists h, p, avail. cbn.
    split_and!; [|done|done| |].
    + rewrite len_app. change (len [id]) with 1. by rewrite (assoc_L (++)), Z.add_assoc.
    + intros [Ht' Hn]%orb_false_iff. rewrite (recycle_tail _ _ _ _ _ _ Hs Hr Hn). by apply Ht.
    + assert (NoDup ((avail ++ unflushed s) ++ in_use s)) as (_ & _ & Hnd)%NoDup_app by (rewrite Hp; apply NoDup_seqZ).
      rewrite E1, <- Hp. rewrite <- (filter_out_perm id (in_use s) Hnd Ha) at 2. solve_Permutation.
  - destruct Hinv as (h & p & avail & Hs & Hh & Hlen & Ht & Hp).
    destruct (flush_slots _ _ _ _ Hs) as (r' & -> & Hs' & Ht' & E1 & _). cbn [mbind outcome_bind]. eexists. split; [done|]. split; [|done].
    exists h, (p + len (unflushed s)), (avail ++ unflushed s). cbn. rewrite !app_nil_r, len_nil, Z.add_0_r, E1. split_and!; try done.
    rewrite len_app. lia.
Qed.

(** The loop of [new], behind the allocations. *)
Lemma new_fill group entries size storage : is_power_of_two entries = true -> entries <= 2 ^ 15 ->
  exists r, (br ← add_all (seqZ 0 (wrap16 entries))
      (mk_BufRing group entries (wrap16 (entries - 1)) 0 (replicate (Z.to_nat entries) (mk_buf 0 0 0 0)) storage size); flush br) = Ok r /\
    ring_full r /\ b_entries r = entries /\ buf_size r = size.
Proof.
  intros Hpow He. assert (0 < entries) as Hpos by (by apply andb_true_iff in Hpow as [?%Z.ltb_lt _]).
  set (br := mk_BufRing _ _ _ _ _ _ _). assert (slots 0 0 [] br) as Hs.
  { split; cbn; try done; try lia.
    - split_and!; [done..|]. unfold wrap16. rewrite Z.mod_small; lia.
    - unfold len. rewrite length_replicate. lia.
    - rewrite len_nil. lia. }
  assert (wrap16 entries = entries) as -> by (unfold wrap16; rewrite Z.mod_small; lia).
  assert (len (seqZ 0 entries) = entries) as Hl by (unfold len; rewrite length_seqZ; lia).
  destruct (add_all_slots (seqZ 0 entries) _ _ _ _ Hs) as (r1 & -> & Hs1 & E1 & _ & E1'); [rewrite Hl, len_nil; cbn; lia|].
  cbn [mbind outcome_bind]. destruct (flush_slots _ _ _ _ Hs1) as (r2 & -> & Hs2 & Ht2 & E2 & _ & E2'). exists r2. split; [done|].
  rewrite E2, E1, E2', E1'. split; [|done]. exists 0, (0 + len (seqZ 0 entries)), (seqZ 0 entries).
  split_and!; [done..|]. by rewrite E2, E1.
Qed.

Lemma new_outcome a group entries size : is_power_of_two entries = true -> entries <= 2 ^ 15 ->
  match (BufRing_new a group entries size).2 with
  | Ok r => ring_full r /\ b_entries r = entries /\ buf_size r = size
  | Err _ => True
  | _ => False
  end.
Proof.
  intros Hpow He. unfold BufRing_new. rewrite Hpow. cbn [negb].
  destruct (negb (layout_ok a _)); [done|]. destruct (alloc_ring a); [|done]. destruct (negb (layout_ok a _)); [done|].
  destruct (alloc_storage a) as [storage|]; [|done]. destruct (register_ret a <? 0); [done|]. cbn [snd].
  by destruct (new_fill group entries size storage Hpow He) as (r & -> & Hr).
Qed.

Lemma buf_new_inv a group entries size r : entries <= 2 ^ 15 -> (BufRing_new a group entries size).2 = Ok r ->
  ring_full r /\ b_entries r = entries /\ buf_size r = size.
Proof.
  intros He Hn. destruct (is_power_of_two entries) eqn:Hpow.
  - pose proof (new_outcome a group entries size Hpow He) as Ho. by rewrite Hn in Ho.
  - unfold BufRing_new in Hn. by rewrite Hpow in Hn.
Qed.

Inductive buf_reachable (entries : Z) : buf_system -> Prop :=
| buf_new a group size r : entries <= 2 ^ 15 -> (BufRing_new a group entries size).2 = Ok r ->
    buf_reachable entries (mk_buf_system r 0 [] [] false)
| buf_act s a s' : buf_reachable entries s -> buf_allowed a s -> buf_exec a s = Ok s' -> buf_reachable entries s'.

Lemma full_inv r : ring_full r -> buf_inv (mk_buf_system r 0 [] [] false).
Proof.
  intros (h & t & avail & Hs & Hh & Ht & Hp). exists h, t, avail. cbn. rewrite len_nil, Z.add_0_r, !app_nil_r.
  split_and!; try done. apply Hs.
Qed.

Lemma buf_reachable_inv entries s : buf_reachable entries s -> buf_inv s /\ b_entries (ring s) = entries.
Proof.
  induction 1 as [a group size r He Hn|s a s' _ [Hi IH] Ha Hx].
  - destruct (buf_new_inv _ _ _ _ _ He Hn) as (? & ? & _). split; [by apply full_inv|done].
  - destruct (buf_exec_inv _ _ Hi Ha) as (s2 & Hx2 & Hi2 & He). rewrite Hx in Hx2. injection Hx2 as <-. by rewrite He.
Qed.

(** C23: Buffers go round, as long as the kernel takes none while the tail is torn (between a
    [recycle] into entry 0, which clears the tail that the kernel reads, and the next [flush]); the
    kernel may run between any two calls otherwise. Then in every reachable state the server has
    some of the buffers, each once, others wait for the [flush], and the kernel takes one of the
    rest, at its address and with its size, or none when there is no rest; so no buffer is
    received into twice. No call panics or leaves the ring. *)
Theorem buf_ring_cycle entries s : buf_reachable entries s ->
  NoDup (unflushed s ++ in_use s) /\ (forall id, id ∈ unflushed s ++ in_use s -> 0 <= id < entries) /\
  (torn s = false -> match pick (ring s) (khead s) with
  | Some e => (bid e ∉ unflushed s ++ in_use s) /\ 0 <= bid e < entries /\ b_addr e = get_buffer_ptr (bid e) (ring s) /\ b_len e = wrap32 (buf_size (ring s))
  | None => unflushed s ++ in_use s ≡ₚ seqZ 0 entries
  end) /\
  (forall a, buf_allowed a s -> exists s', buf_exec a s = Ok s').
Proof.
  intros [Hinv <-]%buf_reachable_inv. pose proof Hinv as (h & p & avail & _ & _ & _ & _ & Hp). rewrite <- (assoc_L (++)) in Hp.
  assert (NoDup (avail ++ unflushed s ++ in_use s)) as (_ & Hdis & Hnd)%NoDup_app by (rewrite Hp; apply NoDup_seqZ).
  split_and!; [done| | |].
  - intros id Hid. assert (id ∈ seqZ 0 (b_entries (ring s))) as Hin by (rewrite <- Hp; apply elem_of_app; by right). apply elem_of_seqZ in Hin. lia.
  - intros Htorn. pose proof (pick_spec s Hinv Htorn) as Hpick. destruct (pick _ _) as [e|]; [|done].
    destruct Hpick as (h' & p' & avail' & _ & _ & _ & _ & Hp' & Hrest). cbn [app] in Hp'. rewrite <- (assoc_L (++)) in Hp'.
    assert (NoDup (bid e :: avail' ++ unflushed s ++ in_use s)) as [Hni _]%NoDup_cons by (rewrite Hp'; apply NoDup_seqZ).
    assert (bid e ∈ seqZ 0 (b_entries (ring s))) as Hin by (rewrite <- Hp'; left). apply elem_of_seqZ in Hin.
    split_and!; [|lia..|apply Hrest|apply Hrest]. intros Hin2. apply Hni, elem_of_app. by right.
  - intros a Ha. destruct (buf_exec_inv a s Hinv Ha) as (s' & H & _). by exists s'.
Qed.

Definition no_ring : BufRing := mk_BufRing 0 0 0 0 [] 0 0.
Definition example_alloc : allocator := mk_allocator (fun _ => true) (Some tt) (Some 65536) 0.
Definition buf_start (entries : Z) : buf_system :=
  mk_buf_system (match (BufRing_new example_alloc 0 entries 2048).2 with Ok r => r | _ => no_ring end) 0 [] [] false.
Definition buf_end (l : list buf_action) (entries : Z) : buf_system :=
  match buf_run l (buf_start entries) with Ok s => s | _ => buf_start 0 end.

(** A ring of two, the kernel between [recycle] and [flush] where it may be: buffer 1
    goes back into entry 1, and is taken again after the [flush]. *)
Definition example_actions : list buf_action := [Pick; Pick; Recycle 0; Flush; Pick; Recycle 1; Pick; Flush; Pick].

Lemma buf_run_reachable entries l s s' : buf_reachable entries s -> buf_run l s = Ok s' ->
  (forall l1 a l2, l = l1 ++ a :: l2 -> exists s1, buf_run l1 s = Ok s1 /\ buf_allowed a s1) -> buf_reachable entries s'.
Proof.
  revert s. induction l as [|a l IH]; intros s Hs; cbn [buf_run]; [by intros [= <-]|].
  destruct (buf_exec a s) as [s1| | |] eqn:Hx; try done. cbn [mbind outcome_bind]. intros Hr Hall.
  destruct (Hall [] a l eq_refl) as (s0 & [= <-] & Ha).
  apply (IH s1); [by eapply buf_act|done|]. intros l1 b l2 ->.
  destruct (Hall (a :: l1) b l2 eq_refl) as (s2 & Hs2 & Hb). cbn [buf_run] in Hs2. rewrite Hx in Hs2. by exists s2.
Qed.

Lemma buf_ring_cycle_witness :
  in_use (buf_end example_actions 2) = [0; 1] /\ NoDup (unflushed (buf_end example_actions 2) ++ in_use (buf_end example_actions 2)).
Proof.
  split; [vm_compute; reflexivity|].
  apply (buf_ring_cycle 2).
  assert (buf_reachable 2 (buf_start 2)) as H0 by (apply (buf_new 2 example_alloc 0 2048); [done|vm_compute; reflexivity]).
  apply (buf_run_reachable 2 example_actions (buf_start 2)); [exact H0|vm_compute; reflexivity|].
  intros l1 a l2 Hl. unfold example_actions in Hl.
  repeat (destruct l1 as [|x l1]; cbn [app] in Hl;
    [injection Hl as <- _; eexists; split; [vm_compute; reflexivity|first [exact I | vm_compute; reflexivity | vm_compute; repeat constructor]]
    |injection Hl as <- Hl]).
  by destruct l1.
Defined.

(** The torn tail: with both buffers of a ring of two at the server, the kernel
    takes buffer 1 a second time if it runs between [recycle] and [flush], because
    [add] writes 0 over the tail when it fills entry 0; behind the [flush] it does
    not. *)
Theorem buf_ring_torn_tail :
  in_use (buf_end [Pick; Pick; Recycle 0; Pick; Pick] 2) = [1; 0; 1] /\ torn (buf_end [Pick; Pick; Recycle 0] 2) = true /\
  in_use (buf_end [Pick; Pick; Recycle 0; Flush; Pick; Pick] 2) = [1; 0] /\
  shared_tail (ring (buf_end [Pick; Pick] 2)) = 2 /\ shared_tail (ring (buf_end [Pick; Pick; Recycle 0] 2)) = 0.
Proof. split_and!; vm_compute; reflexivity. Qed.

(** What [new] still holds. *)
Definition still_allocated (evs : list alloc_event) : bool * bool :=
  foldl (fun s ev => match ev with
    | AllocRing => (true, s.2) | AllocStorage => (s.1, true) | FreeRing => (false, s.2) | FreeStorage => (s.1, false) end) (false, false) evs.

(** A failed [new] frees what it had, but for the ring when the layout of the
    storage is invalid; [Drop] frees both. *)
Lemma buf_ring_new_releases a group entries size : let '(evs, r) := BufRing_new a group entries size in
  match r with
  | Err _ => still_allocated evs = (is_power_of_two entries && layout_ok a (wrap64 (entries * SIZE_BUF)) &&
      bool_decide (alloc_ring a = Some tt) && negb (layout_ok a (wrap64 (entries * size))), false)
  | Ok _ => still_allocated evs = (true, true) /\ still_allocated (evs ++ BufRing_drop) = (false, false)
  | _ => True
  end.
Proof.
  unfold BufRing_new. destruct (is_power_of_two entries) eqn:Hp; [|done]. cbn [negb].
  destruct (layout_ok a (wrap64 (entries * SIZE_BUF))) eqn:Hl1; [|done]. cbn [negb].
  destruct (alloc_ring a) as [[]|]; [|done]. destruct (layout_ok a (wrap64 (entries * size))) eqn:Hl2; [|done]. cbn [negb].
  destruct (alloc_storage a) as [storage|]; [|done]. destruct (register_ret a <? 0); [done|].
  destruct (add_all _ _) as [r1|e| |] eqn:Hadd; [|exfalso|done|done].
  - cbn [mbind outcome_bind]. destruct (flush r1) as [r2|e| |] eqn:Hf; [done|exfalso|done|done].
    unfold flush, read_at, write_at in Hf. repeat case_match; done.
  - revert Hadd. generalize (mk_BufRing group entries (wrap16 (entries - 1)) 0 (replicate (Z.to_nat entries) (mk_buf 0 0 0 0)) storage size).
    induction (seqZ 0 (wrap16 entries)) as [|id ids IH]; intros r; [done|]. cbn [add_all].
    destruct (recycle id r) as [r3| | |] eqn:Hr; cbn [mbind outcome_bind]; [apply IH| |done|done].
    unfold recycle, add, write_at in Hr. case_match; done.
Qed.
