(* ===== verification/Server.v ===== *)
(** * The server's worker (uring-engine/src/main.rs)

    [run_worker]: one thread per core that takes completions from its ring, answers
    the requests in the receive buffers from its store, and hands every write to
    the next core's queue.  A request is 17 bytes (1, key, value) or 9 bytes (2,
    key), everything else is echoed.  The store is an interface ([Store]) with the
    promises a worker relies on ([StoreSpec]); EngineStore.v implements it with the
    storage engine.  ServerRun.v interleaves the worker with the kernel and the
    other threads. *)

From S2P Require Import Prelude.
From S2P Require Import Block.
From S2P Require Import SkipList.
From S2P Require Import MemTable.
From S2P Require Import UringOp.
From S2P Require Import Uring.
From S2P Require Import BufRing.
#[local] Open Scope Z_scope.

Definition RING_ENTRIES : Z := 1024.
Definition BUF_RING_ENTRIES : Z := 4096.
Definition BUF_SIZE : Z := 2048.
Definition BUFFER_GROUP_ID : Z := 0.
Definition TASK_QUEUE_CAPACITY : Z := 2048.
Definition ENOBUFS : Z := 105.

Inductive InterCoreTask := ReplicateWrite (key val : Z).

(** ** The store *)

(** What the worker calls of [EngineNode]; [db_background] are the steps its
    threads may take between two calls. *)
Class Store (D : Type) := {
  db_put : bytes -> bytes -> Z -> D -> D * outcome write_error unit;
  db_get : D -> bytes -> outcome write_error (option (option bytes * Z));
  db_sync : D -> D;
  db_background : D -> D -> Prop
}.

(** [represents d log n]: after [n] calls of [put], the store holds the accepted
    writes [log].  No call panics, and [get] answers from the log. *)
Class StoreSpec (D : Type) `{Store D} := {
  represents : D -> list entry -> Z -> Prop;
  store_limit : Z;
  store_limit_u64 : store_limit <= 2 ^ 63;
  put_represents d log n k v seq : represents d log n -> n < store_limit -> is_u64 seq ->
    match db_put k v seq d with
    | (d', Ok _) => represents d' (log ++ [(k, Some v, seq)]) (n + 1)
    | (d', Err _) => represents d' log (n + 1)
    | _ => False
    end;
  get_represents d log n k : represents d log n -> exists r, db_get d k = Ok r /\ some_version log k r;
  sync_represents d log n : represents d log n -> represents (db_sync d) log n;
  background_represents d d' log n : represents d log n -> db_background d d' -> represents d' log n
}.

Section server.
  Context {D : Type} `{Store D} (core_id listen_fd : Z).

(** The state of [run_worker]; [memory] is the storage of the receive buffers,
    [queues] are the task queues of all cores (bounded FIFOs, Queue.v), and
    [closed] are the descriptors closed directly. *)
Record Worker := mk_Worker {
  w_ring : Uring;
  w_bufs : BufRing;
  memory : bytes;
  db_node : D;
  local_sequence : Z;
  queues : list (list InterCoreTask);
  closed : list Z;
  rx_bytes : Z;
  completed_requests : Z
}.

Definition set_ring (u : Uring) (w : Worker) : Worker :=
  mk_Worker u (w_bufs w) (memory w) (db_node w) (local_sequence w) (queues w) (closed w) (rx_bytes w) (completed_requests w).
Definition set_w_bufs (b : BufRing) (w : Worker) : Worker :=
  mk_Worker (w_ring w) b (memory w) (db_node w) (local_sequence w) (queues w) (closed w) (rx_bytes w) (completed_requests w).
Definition set_memory (m : bytes) (w : Worker) : Worker :=
  mk_Worker (w_ring w) (w_bufs w) m (db_node w) (local_sequence w) (queues w) (closed w) (rx_bytes w) (completed_requests w).
Definition set_db (d : D) (w : Worker) : Worker :=
  mk_Worker (w_ring w) (w_bufs w) (memory w) d (local_sequence w) (queues w) (closed w) (rx_bytes w) (completed_requests w).
Definition set_sequence (n : Z) (w : Worker) : Worker :=
  mk_Worker (w_ring w) (w_bufs w) (memory w) (db_node w) n (queues w) (closed w) (rx_bytes w) (completed_requests w).
Definition set_queues (q : list (list InterCoreTask)) (w : Worker) : Worker :=
  mk_Worker (w_ring w) (w_bufs w) (memory w) (db_node w) (local_sequence w) q (closed w) (rx_bytes w) (completed_requests w).
Definition set_closed (l : list Z) (w : Worker) : Worker :=
  mk_Worker (w_ring w) (w_bufs w) (memory w) (db_node w) (local_sequence w) (queues w) l (rx_bytes w) (completed_requests w).
Definition count_request (n : Z) (w : Worker) : Worker :=
  mk_Worker (w_ring w) (w_bufs w) (memory w) (db_node w) (local_sequence w) (queues w) (closed w)
    (wrap64 (rx_bytes w + n)) (wrap64 (completed_requests w + 1)).

Definition change (f : Worker -> Worker) : st Worker io_error unit := fun w => (f w, Ok tt).

(** Calls of the parts. *)
Definition on_ring {A} (c : st Uring io_error A) : st Worker io_error A := fun w =>
  let '(u, r) := c (w_ring w) in (set_ring u w, r).
Definition on_bufs (c : BufRing -> outcome io_error BufRing) : st Worker io_error unit :=
  w ← get_state;
  b ← lift (c (w_bufs w));
  change (set_w_bufs b).
Definition close_fd (fd : Z) : st Worker io_error unit := change (fun w => set_closed (closed w ++ [fd]) w).

(** Reads and writes through a pointer into the buffers, undefined outside. *)
Definition load (ptr n : Z) : st Worker io_error bytes :=
  w ← get_state;
  let i := ptr - buf_storage (w_bufs w) in
  if in_range (memory w) i (i + n) then mret (sub (memory w) i (i + n)) else lift Ub.
Definition store (ptr : Z) (bs : bytes) : st Worker io_error unit :=
  w ← get_state;
  let i := ptr - buf_storage (w_bufs w) in
  if in_range (memory w) i (i + len bs) then change (set_memory (splice (memory w) i bs)) else lift Ub.
Definition load_u8 (ptr : Z) : st Worker io_error Z := bs ← load ptr 1; mret (from_be_bytes bs).
Definition load_be64 (ptr : Z) : st Worker io_error Z := bs ← load ptr 8; mret (from_be_bytes bs).

(** [db_node.put(&key.to_be_bytes(), &val.to_be_bytes(), local_sequence, ..)]: the
    error, if any. *)
Definition put_pair (key val : Z) : st Worker io_error (option write_error) := fun w =>
  match db_put (to_be_bytes 8 key) (to_be_bytes 8 val) (local_sequence w) (db_node w) with
  | (d, Ok _) => (set_db d w, Ok None)
  | (d, Err e) => (set_db d w, Ok (Some e))
  | (d, Panic) => (set_db d w, Panic)
  | (d, Ub) => (set_db d w, Ub)
  end.
Definition lookup_key (key : Z) : st Worker io_error (option (option bytes * Z)) := fun w =>
  (w, match db_get (db_node w) (to_be_bytes 8 key) with Ok r => Ok r | Err _ => Panic | Panic => Panic | Ub => Ub end).
Definition next_sequence : st Worker io_error unit := change (fun w => set_sequence (wrap64 (local_sequence w + 1)) w).

(** [pop] and [push] of the task queues; a full queue drops the task. *)
Definition pop_task : st Worker io_error (option InterCoreTask) := fun w =>
  match queues w !! Z.to_nat core_id with
  | Some (t :: q) => (set_queues (<[Z.to_nat core_id := q]> (queues w)) w, Ok (Some t))
  | Some [] => (w, Ok None)
  | None => (w, Panic)
  end.
Definition push_to (target : Z) (t : InterCoreTask) : st Worker io_error unit := fun w =>
  match queues w !! Z.to_nat target with
  | Some q =>
      (if len q <? TASK_QUEUE_CAPACITY then set_queues (<[Z.to_nat target := q ++ [t]]> (queues w)) w else w, Ok tt)
  | None => (w, Panic)
  end.

(** Where a worker is: before [submit_and_wait], in the loop over the replicated
    writes (with the iterations left), in the loop over the completions (with
    [recycled_any]), or ended by an error. *)
Inductive phase := Waiting | Applying (todo : nat) | Draining (recycled_any : bool) | Stopped (e : io_error).

(** One iteration of the loop over at most 16 replicated writes, and the loop. *)
Definition apply_step (todo : nat) : st Worker io_error phase :=
  match todo with
  | O => mret (Draining false)
  | S todo =>
      t ← pop_task;
      match t with
      | Some (ReplicateWrite key val) =>
          put_pair key val;;
          next_sequence;;
          mret (Applying todo)
      | None => mret (Draining false)
      end
  end.

Fixpoint apply_tasks (n : nat) : st Worker io_error unit :=
  p ← apply_step n;
  match n, p with
  | S n, Applying _ => apply_tasks n
  | _, _ => mret tt
  end.

(** ** The handlers *)

Definition on_accept (res flags : Z) : st Worker io_error unit :=
  (if 0 <=? res then
     let client_fd := res in
     got ← on_ring (with_sqe (fun sqe => prep_recv_multishot sqe client_fd BUFFER_GROUP_ID));
     if (got : bool) then mret tt else close_fd client_fd
   else mret tt);;
  (if Z.land flags IORING_CQE_F_MORE =? 0 then
     on_ring (with_sqe (fun sqe => prep_accept_multishot sqe listen_fd));; mret tt
   else mret tt).

(** The two places that close a connection. *)
Definition close_client (fd : Z) : st Worker io_error unit :=
  got ← on_ring (with_sqe (fun sqe => prep_close sqe fd));
  if (got : bool) then mret tt else close_fd fd.

Definition handle_set (key val : Z) : st Worker io_error unit :=
  e ← put_pair key val;
  (match e with Some _ => change (fun w => set_db (db_sync (db_node w)) w) | None => mret tt end);;
  next_sequence;;
  w ← get_state;
  if len (queues w) =? 0 then lift Panic else
  push_to ((core_id + 1) mod len (queues w)) (ReplicateWrite key val).

Definition handle_get (fd buf_ptr key : Z) : st Worker io_error unit :=
  r ← lookup_key key;
  match r with
  | Some (Some v_bytes, _) =>
      if len v_bytes =? 8 then
        let val := from_be_bytes v_bytes in
        store buf_ptr (to_be_bytes 8 val);;
        on_ring (with_sqe (fun sqe => prep_send sqe fd buf_ptr 8));;
        mret tt
      else mret tt
  | _ => mret tt
  end.

(** The result is [parsed_ok]. *)
Definition handle_request (fd buf_ptr bytes_read : Z) : st Worker io_error bool :=
  if 9 <=? bytes_read then
    cmd ← load_u8 buf_ptr;
    key ← load_be64 (buf_ptr + 1);
    if (cmd =? 1) && (17 <=? bytes_read) then
      val ← load_be64 (buf_ptr + 9);
      handle_set key val;;
      mret true
    else if cmd =? 2 then
      handle_get fd buf_ptr key;;
      mret true
    else mret false
  else mret false.

(** A receive; the result is whether a buffer was recycled. *)
Definition on_recv (fd res flags : Z) : st Worker io_error bool :=
  if res <=? 0 then
    (if res =? - ENOBUFS then
       on_ring (with_sqe (fun sqe => prep_recv_multishot sqe fd BUFFER_GROUP_ID));; mret tt
     else close_client fd);;
    mret false
  else
    let bytes_read := wrap32 res in
    if negb (Z.land flags IORING_CQE_F_BUFFER =? 0) then
      let bid := wrap16 (Z.shiftr flags IORING_CQE_BUFFER_SHIFT) in
      w ← get_state;
      let buf_ptr := get_buffer_ptr bid (w_bufs w) in
      parsed_ok ← handle_request fd buf_ptr bytes_read;
      (if (parsed_ok : bool) then mret tt
       else on_ring (with_sqe (fun sqe => prep_send sqe fd buf_ptr bytes_read));; mret tt);;
      change (count_request bytes_read);;
      on_bufs (recycle bid);;
      mret true
    else mret false.

Definition on_send (fd res : Z) : st Worker io_error unit :=
  if res <? 0 then close_client fd else mret tt.

Definition dispatch (cqe : io_uring_cqe) : st Worker io_error bool :=
  let fd := decode_fd (user_data cqe) in
  let op := decode_op (user_data cqe) in
  if op =? IORING_OP_ACCEPT then on_accept (res cqe) (cqe_flags cqe);; mret false else
  if op =? IORING_OP_RECV then on_recv fd (res cqe) (cqe_flags cqe) else
  if op =? IORING_OP_SEND then on_send fd (res cqe);; mret false else
  if op =? IORING_OP_CLOSE then mret false else
  lift Panic.

(** ** The loop *)

Definition wait_round (enter : syscall_enter) : st Worker io_error Z := on_ring (submit_and_wait enter 1).
Definition begin_round (enter : syscall_enter) : st Worker io_error unit :=
  wait_round enter;;
  apply_tasks 16.

(** One iteration of the loop over the completions, and the [flush] behind it. *)
Definition drain_step (recycled_any : bool) : st Worker io_error phase :=
  w ← get_state;
  c ← lift (peek_cqe (w_ring w));
  match c with
  | Some cqe =>
      change (fun w => set_ring (advance_cq 1 (w_ring w)) w);;
      b ← dispatch cqe;
      mret (Draining (recycled_any || b))
  | None =>
      (if recycled_any then on_bufs flush else mret tt);;
      mret Waiting
  end.

Fixpoint drain (fuel : nat) (p : phase) : st Worker io_error unit :=
  match p, fuel with
  | Draining b, S fuel => p ← drain_step b; drain fuel p
  | Draining _, O => throw out_of_fuel
  | _, _ => mret tt
  end.

(** A round with no kernel action after [submit_and_wait]. *)
Definition round (enter : syscall_enter) (fuel : nat) : st Worker io_error unit :=
  begin_round enter;;
  drain fuel (Draining false).

(** What [run_worker] does before its loop, after pinning the thread, with the
    results of opening the engine and the listener. *)
Definition worker_new (k : kernel_setup) (a : allocator) (enter : syscall_enter) (d : outcome io_error D)
    (qs : list (list InterCoreTask)) : outcome io_error Worker :=
  '(u, _) ← (Uring_new k RING_ENTRIES).2;
  br ← (BufRing_new a BUFFER_GROUP_ID BUF_RING_ENTRIES BUF_SIZE).2;
  d ← d;
  let w := mk_Worker u br (zeros (BUF_RING_ENTRIES * BUF_SIZE)) d 1 qs [] 0 0 in
  match (got ← on_ring (with_sqe (fun sqe => prep_accept_multishot sqe listen_fd));
         if (got : bool) then on_ring (submit enter);; mret tt else lift Panic) w with
  | (w, Ok _) => Ok w
  | (_, Err e) => Err e
  | (_, Panic) => Panic
  | (_, Ub) => Ub
  end.

End server.

(** ** What the handlers do

    A received buffer as a request, its effect on the worker's state, and the
    reply. *)

Inductive request := SetRequest (key val : Z) | GetRequest (key : Z) | Echo.

Definition parse (bs : bytes) : request :=
  if 9 <=? len bs then
    let cmd := from_be_bytes (sub bs 0 1) in
    let key := from_be_bytes (sub bs 1 9) in
    if (cmd =? 1) && (17 <=? len bs) then SetRequest key (from_be_bytes (sub bs 9 17))
    else if cmd =? 2 then GetRequest key
    else Echo
  else Echo.

Section spec.
  Context {D : Type} `{Store D} (core_id : Z).

Definition stored_value (w : Worker) (key : Z) : option bytes :=
  match db_get (db_node w) (to_be_bytes 8 key) with
  | Ok (Some (Some v, _)) => if len v =? 8 then Some v else None
  | _ => None
  end.

Definition push_queue (i : nat) (t : InterCoreTask) (qs : list (list InterCoreTask)) : list (list InterCoreTask) :=
  alter (fun q => if len q <? TASK_QUEUE_CAPACITY then q ++ [t] else q) i qs.

(** One put at the next sequence number, and the [sync] of a failed one. *)
Definition put_next (key val : Z) (w : Worker) : Worker :=
  let '(d, _) := db_put (to_be_bytes 8 key) (to_be_bytes 8 val) (local_sequence w) (db_node w) in
  set_sequence (wrap64 (local_sequence w + 1)) (set_db d w).
Definition put_or_sync (key val : Z) (w : Worker) : Worker :=
  let '(d, r) := db_put (to_be_bytes 8 key) (to_be_bytes 8 val) (local_sequence w) (db_node w) in
  set_sequence (wrap64 (local_sequence w + 1)) (set_db (match r with Ok _ => d | _ => db_sync d end) w).

Definition serve (req : request) (ptr : Z) (w : Worker) : Worker :=
  match req with
  | SetRequest key val =>
      let w := put_or_sync key val w in
      set_queues (push_queue (Z.to_nat ((core_id + 1) mod len (queues w))) (ReplicateWrite key val) (queues w)) w
  | GetRequest key =>
      match stored_value w key with
      | Some v => set_memory (splice (memory w) (ptr - buf_storage (w_bufs w)) v) w
      | None => w
      end
  | Echo => w
  end.

Definition reply (req : request) (fd ptr n : Z) (w : Worker) : list (io_uring_sqe -> io_uring_sqe) :=
  match req with
  | SetRequest _ _ => []
  | GetRequest key => match stored_value w key with Some _ => [fun sqe => prep_send sqe fd ptr 8] | None => [] end
  | Echo => [fun sqe => prep_send sqe fd ptr n]
  end.

End spec.

(** ** Weakest preconditions of the worker's calls *)

Definition wp {S A} (c : st S io_error A) (Q : A -> S -> Prop) (s : S) : Prop :=
  match c s with (s', Ok a) => Q a s' | _ => False end.

Section wp.
  Context {S : Type}.
  Implicit Types (s : S).

Lemma wp_ret {A} (a : A) (Q : A -> S -> Prop) s : Q a s -> wp (mret a) Q s.
Proof. done. Qed.
Lemma wp_bind {A B} (c : st S io_error A) (f : A -> st S io_error B) (Q : B -> S -> Prop) s :
  wp c (fun a => wp (f a) Q) s -> wp (c ≫= f) Q s.
Proof. unfold wp, mbind, st_bind. by destruct (c s) as [s' []]. Qed.
Lemma wp_get (Q : S -> S -> Prop) s : Q s s -> wp get_state Q s.
Proof. done. Qed.
Lemma wp_lift {A} (o : outcome io_error A) a (Q : A -> S -> Prop) s : o = Ok a -> Q a s -> wp (lift o) Q s.
Proof. by intros ->. Qed.
Lemma wp_mono {A} (c : st S io_error A) (P Q : A -> S -> Prop) s : wp c P s -> (forall a s', P a s' -> Q a s') -> wp c Q s.
Proof. unfold wp. destruct (c s) as [s' []]; auto. Qed.
Lemma wp_Ok {A} (c : st S io_error A) (Q : A -> S -> Prop) s : wp c Q s -> exists a s', c s = (s', Ok a) /\ Q a s'.
Proof. unfold wp. destruct (c s) as [s' []]; [by eexists _, _|done..]. Qed.

End wp.

Lemma wp_change {D} (f : @Worker D -> Worker) (Q : unit -> Worker -> Prop) w : Q tt (f w) -> wp (change f) Q w.
Proof. done. Qed.

Create HintDb worker discriminated.
#[export] Hint Resolve wp_ret wp_get wp_change : worker.

(** ** The parts *)

(** The buffer ring as far as the handlers need it. *)
Record bufs_ok (b : BufRing) : Prop := {
  bo_entries : is_power_of_two (b_entries b) = true /\ b_entries b <= 2 ^ 15;
  bo_mask : b_mask b = b_entries b - 1;
  bo_len : len (bufs b) = b_entries b;
  bo_bids e : e ∈ bufs b -> 0 <= bid e < b_entries b;
  bo_size : 0 <= buf_size b
}.

Lemma bo_pos b : bufs_ok b -> 0 < b_entries b.
Proof. intros Hb. by destruct (bo_entries _ Hb) as [[?%Z.ltb_lt _]%andb_true_iff _]. Qed.

Definition same_storage (b b' : BufRing) : Prop :=
  b_entries b' = b_entries b /\ buf_storage b' = buf_storage b /\ buf_size b' = buf_size b.

Lemma same_storage_refl b : same_storage b b.
Proof. done. Qed.
Lemma same_storage_trans a b c : same_storage a b -> same_storage b c -> same_storage a c.
Proof. intros (? & ? & ?) (? & ? & ?). split_and!; congruence. Qed.

Lemma bufs_insert b i e : bufs_ok b -> 0 <= bid e < b_entries b -> bufs_ok (set_bufs (<[i := e]> (bufs b)) b).
Proof.
  intros Hb He. split; cbn; try apply Hb; [unfold len; rewrite length_insert; apply Hb|].
  intros x [j Hj]%list_elem_of_lookup. apply list_lookup_insert_Some in Hj as [(_ & <- & _)|[_ Hj]]; [done|].
  by eapply (bo_bids _ Hb), list_elem_of_lookup_2.
Qed.

Lemma land_pow2 e x : is_power_of_two e = true -> Z.land x (e - 1) = x mod e.
Proof.
  intros [_ He%Z.eqb_eq]%andb_true_iff. pose proof (Z.log2_nonneg e). rewrite <- He at 1. rewrite land_ones_mod by done. by rewrite He.
Qed.

Lemma recycle_bufs b id : bufs_ok b -> 0 <= id < b_entries b ->
  exists b', recycle id b = Ok b' /\ bufs_ok b' /\ same_storage b b'.
Proof.
  intros Hb Hid. pose proof (bo_pos _ Hb) as Hpos. unfold recycle, add.
  assert (0 <= Z.land (b_tail b) (b_mask b) < b_entries b) as Hidx.
  { rewrite (bo_mask _ Hb), land_pow2 by apply (bo_entries _ Hb). by apply Z.mod_pos_bound. }
  rewrite write_at_ok by (rewrite (bo_len _ Hb); done). eexists. split; [done|]. split; [|done].
  apply (bufs_insert b (Z.to_nat (Z.land (b_tail b) (b_mask b))) (mk_buf (get_buffer_ptr id b) (wrap32 (buf_size b)) id 0)) in Hb; [|done].
  split; apply Hb.
Qed.

Lemma flush_bufs b : bufs_ok b -> exists b', flush b = Ok b' /\ bufs_ok b' /\ same_storage b b'.
Proof.
  intros Hb. pose proof (bo_pos _ Hb) as Hpos. pose proof (bo_len _ Hb) as Hl.
  destruct (lookup_lt_is_Some_2 (bufs b) 0) as [e He]; [unfold len in Hl; lia|]. unfold flush.
  rewrite (read_at_ok _ _ e) by done. cbn [mbind outcome_bind]. rewrite write_at_ok by lia. eexists. split; [done|]. split; [|done].
  apply bufs_insert; [done|]. cbn. by eapply (bo_bids _ Hb), list_elem_of_lookup_2.
Qed.

(** The submission ring holds [out], the completion ring [pend]. *)
Definition ring_has (u : Uring) (out : list io_uring_sqe) (pend : list io_uring_cqe) : Prop := exists g, rings_at g u out pend.

Lemma claim_entries u u' r : claim_sqe u = (u', r) -> sq_entries u' = sq_entries u.
Proof.
  unfold claim_sqe, mbind, st_bind, modify. cbn -[write_at]. destruct (write_at (sqes u) _ _); [|by intros [= <- _]..].
  cbn -[write_at]. by destruct (write_at (sq_array u) _ _); intros [= <- _].
Qed.

Lemma with_sqe_entries f u u' r : with_sqe f u = (u', r) -> sq_entries u' = sq_entries u.
Proof.
  assert (forall u1 u2 x, (idx ← claim_sqe; mret (Some idx)) u1 = (u2, x) -> sq_entries u2 = sq_entries u1) as Hc.
  { intros u1 u2 x. unfold mbind, st_bind. destruct (claim_sqe u1) as [u3 y] eqn:Hcl. apply claim_entries in Hcl.
    destruct y; intros [= <- _]; done. }
  assert (forall u1 u2 x, get_sqe u1 = (u2, x) -> sq_entries u2 = sq_entries u1) as Hg.
  { intros u1 u2 x. unfold get_sqe. unfold mbind at 1, st_bind at 1. cbn -[claim_sqe]. destruct (_ <=? _); [|apply Hc].
    unfold mbind at 1, st_bind at 1, modify. cbn -[claim_sqe available]. unfold mbind at 1, st_bind at 1. cbn -[claim_sqe available].
    destruct (_ <=? _); [by intros [= <- _]|]. by intros ->%Hc. }
  unfold with_sqe. unfold mbind at 1, st_bind at 1. destruct (get_sqe u) as [u1 x] eqn:Hx. apply Hg in Hx.
  destruct x as [[idx|]| | |]; [|by intros [= <- _]..].
  unfold fill_sqe, modify, mbind, st_bind. cbn -[write_at read_at]. destruct (read_at _ _); [|by intros [= <- _]..].
  cbn -[write_at read_at]. by destruct (write_at _ _ _); intros [= <- _].
Qed.

(** One request, if there is room for it. *)
Definition added {A} (room : Z) (out : list A) (e : A) : list A := if len out <? room then out ++ [e] else out.

Lemma with_sqe_has f u out pend : ring_has u out pend ->
  exists u', with_sqe f u = (u', Ok (len out <? sq_entries u)) /\ ring_has u' (added (sq_entries u) out (f sqe_default)) pend /\
    sq_entries u' = sq_entries u.
Proof.
  intros [g Hr]. destruct (with_sqe_at _ _ _ _ f Hr) as (g' & u' & Hw & _ & _ & Hr'). exists u'. split; [done|].
  split; [by exists g'|]. by eapply with_sqe_entries.
Qed.

Section calls.
  Context {D : Type} `{Store D}.
  Implicit Types (w : Worker (D := D)).

Lemma wp_prepare f (Q : bool -> Worker -> Prop) w out pend : ring_has (w_ring w) out pend ->
  (forall u', ring_has u' (added (sq_entries (w_ring w)) out (f sqe_default)) pend -> sq_entries u' = sq_entries (w_ring w) ->
     Q (len out <? sq_entries (w_ring w)) (set_ring u' w)) ->
  wp (on_ring (with_sqe f)) Q w.
Proof.
  intros Hr HQ. destruct (with_sqe_has f _ _ _ Hr) as (u' & Hw & Hr' & He). unfold wp, on_ring. rewrite Hw. by apply HQ.
Qed.

Lemma wp_load ptr n (Q : bytes -> Worker -> Prop) w : let i := ptr - buf_storage (w_bufs w) in
  0 <= i -> 0 <= n -> i + n <= len (memory w) -> Q (sub (memory w) i (i + n)) w -> wp (load ptr n) Q w.
Proof.
  intros i Hi Hn Hl HQ. unfold load. apply wp_bind, wp_get. fold i.
  assert (in_range (memory w) i (i + n) = true) as ->; [|done].
  unfold in_range. rewrite (proj2 (Z.leb_le _ _)), (proj2 (Z.leb_le _ _)), (proj2 (Z.leb_le _ _)) by lia. done.
Qed.

Lemma wp_store ptr bs (Q : unit -> Worker -> Prop) w : let i := ptr - buf_storage (w_bufs w) in
  0 <= i -> i + len bs <= len (memory w) -> Q tt (set_memory (splice (memory w) i bs) w) -> wp (store ptr bs) Q w.
Proof.
  intros i Hi Hl HQ. unfold store. apply wp_bind, wp_get. fold i. pose proof (len_nonneg bs).
  assert (in_range (memory w) i (i + len bs) = true) as ->; [|done].
  unfold in_range. rewrite (proj2 (Z.leb_le _ _)), (proj2 (Z.leb_le _ _)), (proj2 (Z.leb_le _ _)) by lia. done.
Qed.

Lemma sub_sub {A} (l : list A) i j a b : 0 <= i -> 0 <= a -> b <= j - i -> sub (sub l i j) a b = sub l (i + a) (i + b).
Proof.
  intros Hi Ha Hb. unfold sub. rewrite skipn_firstn_comm, drop_drop, take_take. f_equal; [lia|]. f_equal. lia.
Qed.

End calls.

(** ** The store behind the worker *)

Section store.
  Context {D : Type} `{SS : StoreSpec D}.
  Implicit Types (w : Worker (D := D)).

(** The accepted writes: pairs of 8 bytes, with increasing sequence numbers below
    the next one. *)
Definition write_of (n : Z) (e : entry) : Prop :=
  exists key val, is_u64 key /\ is_u64 val /\ e = (to_be_bytes 8 key, Some (to_be_bytes 8 val), e.2) /\ 1 <= e.2 < n.

Record store_holds w (log : list entry) : Prop := {
  sh_represents : represents (db_node w) log (local_sequence w - 1);
  sh_sequence : 1 <= local_sequence w;
  sh_sorted : StronglySorted (fun a b : entry => a.2 < b.2) log;
  sh_writes : Forall (write_of (local_sequence w)) log
}.

(** At least 16 more writes fit the store. *)
Definition room_for_writes w : Prop := local_sequence w + 16 <= store_limit.

(** Whether a call answered [Ok]. *)
Definition answered {E A} (r : outcome E A) : bool := match r with Ok _ => true | _ => false end.

Lemma put_exact w log key val : store_holds w log -> local_sequence w <= store_limit -> is_u64 key -> is_u64 val ->
  exists d r, db_put (to_be_bytes 8 key) (to_be_bytes 8 val) (local_sequence w) (db_node w) = (d, r) /\ safe r /\
    local_sequence (set_sequence (wrap64 (local_sequence w + 1)) w) = local_sequence w + 1 /\
    (forall w', db_node w' = d \/ db_node w' = db_sync d -> local_sequence w' = local_sequence w + 1 ->
      store_holds w' (log ++ if answered r then [(to_be_bytes 8 key, Some (to_be_bytes 8 val), local_sequence w)] else [])).
Proof.
  intros [Hr Hs Hsort Hw] Hlim Hk Hv. pose proof store_limit_u64 as Hl64.
  pose proof (put_represents (db_node w) log (local_sequence w - 1) (to_be_bytes 8 key) (to_be_bytes 8 val) (local_sequence w) Hr) as Hp.
  destruct (db_put _ _ _ (db_node w)) as [d r]. cbn [local_sequence set_sequence].
  rewrite wrap64_small by (unfold is_u64; lia). replace (local_sequence w - 1 + 1) with (local_sequence w) in Hp by lia.
  assert (Forall (write_of (local_sequence w + 1)) log) as Hw'.
  { eapply Forall_impl; [exact Hw|]. intros e (k & v & ? & ? & ? & ?). exists k, v. split_and!; try done; lia. }
  assert (forall w' log', represents d log' (local_sequence w) -> db_node w' = d \/ db_node w' = db_sync d ->
    local_sequence w' = local_sequence w + 1 -> represents (db_node w') log' (local_sequence w' - 1)) as Hrep.
  { intros w' log' Hd [-> | ->] ->; replace (local_sequence w + 1 - 1) with (local_sequence w) by lia; [done|by apply sync_represents]. }
  destruct r as [[]|e| |]; try (exfalso; apply Hp; unfold is_u64; lia).
  - eexists d, _. split; [done|]. split; [done|]. split; [done|]. cbn [answered].
    intros w' Hd Hseq. split; [apply Hrep; [apply Hp; unfold is_u64; lia|done..]|lia| |].
    + apply StronglySorted_app_2; [|done|by repeat constructor]. intros x y Hx ->%list_elem_of_singleton.
      rewrite Forall_forall in Hw. destruct (Hw _ Hx) as (_ & _ & _ & _ & _ & ?). cbn. lia.
    + rewrite Hseq. apply Forall_app. split; [done|]. repeat constructor. exists key, val. split_and!; try done; cbn; lia.
  - eexists d, _. split; [done|]. split; [done|]. split; [done|]. cbn [answered]. rewrite app_nil_r.
    intros w' Hd Hseq. split; [apply Hrep; [apply Hp; unfold is_u64; lia|done..]|lia|done|by rewrite Hseq].
Qed.

Lemma put_at w log key val : store_holds w log -> local_sequence w <= store_limit -> is_u64 key -> is_u64 val ->
  exists d r log', db_put (to_be_bytes 8 key) (to_be_bytes 8 val) (local_sequence w) (db_node w) = (d, r) /\ safe r /\
    local_sequence (set_sequence (wrap64 (local_sequence w + 1)) w) = local_sequence w + 1 /\
    (log' = log \/ log' = log ++ [(to_be_bytes 8 key, Some (to_be_bytes 8 val), local_sequence w)]) /\
    (forall w', db_node w' = d \/ db_node w' = db_sync d -> local_sequence w' = local_sequence w + 1 -> store_holds w' log').
Proof.
  intros Hs Hlim Hk Hv. destruct (put_exact w log key val Hs Hlim Hk Hv) as (d & r & Hput & Hsafe & Hseq & Hall).
  eexists d, r, _. split_and!; [done..| |exact Hall]. destruct (answered r); [by right|left; apply app_nil_r].
Qed.

(** Only values of 8 bytes are stored, so a present key is always answered. *)
Lemma stored_value_at w log key : store_holds w log ->
  match db_get (db_node w) (to_be_bytes 8 key) with
  | Ok r => some_version log (to_be_bytes 8 key) r /\ (stored_value w key = None <-> r = None) /\
      forall v q, r = Some (v, q) -> stored_value w key = v /\ exists val, is_u64 val /\ v = Some (to_be_bytes 8 val)
  | _ => False
  end.
Proof.
  intros [Hr Hs Hsort Hw]. unfold stored_value.
  destruct (get_represents _ _ _ (to_be_bytes 8 key) Hr) as (r & -> & Hv). split; [done|].
  destruct r as [[v q]|]; [|done]. destruct Hv as [_ Hv]. destruct (Hv _ eq_refl) as (e & He & _ & Heq).
  rewrite Forall_forall in Hw. destruct (Hw _ He) as (k & x & _ & Hx & Hex & _). rewrite Hex in Heq. unfold eval in Heq. cbn in Heq.
  injection Heq as <- _. rewrite len_be. cbn. split; [done|]. intros v' q' [= <- <-]. split; [done|by exists x].
Qed.

End store.

(** ** The handlers *)

Definition task_ok (t : InterCoreTask) : Prop := let '(ReplicateWrite key val) := t in is_u64 key /\ is_u64 val.

Lemma push_queue_lookup i t (qs : list (list InterCoreTask)) q : qs !! i = Some q ->
  push_queue i t qs = if len q <? TASK_QUEUE_CAPACITY then <[i := q ++ [t]]> qs else qs.
Proof.
  intros Hq. unfold push_queue. apply list_eq. intros j. destruct (decide (i = j)) as [<-|Hne].
  - rewrite list_lookup_alter_eq, Hq. cbn. destruct (_ <? _); [|done].
    by rewrite list_lookup_insert_eq by (by eapply lookup_lt_Some).
  - rewrite list_lookup_alter_ne by done. destruct (_ <? _); [by rewrite list_lookup_insert_ne|done].
Qed.

Lemma push_queue_ok i t (qs : list (list InterCoreTask)) : task_ok t -> Forall (Forall task_ok) qs -> Forall (Forall task_ok) (push_queue i t qs).
Proof.
  intros Ht Hqs. destruct (qs !! i) as [q|] eqn:Hq.
  - rewrite (push_queue_lookup _ _ _ _ Hq). destruct (_ <? _); [|done]. apply Forall_insert; [done|].
    apply Forall_app. split; [by eapply Forall_lookup_1|by repeat constructor].
  - apply Forall_lookup. intros j q'. unfold push_queue. rewrite list_lookup_alter. case_decide as Hij; [|by apply Forall_lookup].
    subst. by rewrite Hq.
Qed.

Section handlers.
  Context {D : Type} `{SS : StoreSpec D} (core_id listen_fd : Z).
  Implicit Types (w : Worker (D := D)).

Record ready w (log : list entry) (out : list io_uring_sqe) (pend : list io_uring_cqe) : Prop := {
  rd_ring : ring_has (w_ring w) out pend;
  rd_bufs : bufs_ok (w_bufs w);
  rd_memory : len (memory w) = b_entries (w_bufs w) * buf_size (w_bufs w);
  rd_store : store_holds w log;
  rd_core : 0 <= core_id < len (queues w);
  rd_tasks : Forall (Forall task_ok) (queues w)
}.

Lemma wp_push_to target t (Q : unit -> Worker -> Prop) w : 0 <= target < len (queues w) ->
  Q tt (set_queues (push_queue (Z.to_nat target) t (queues w)) w) -> wp (push_to target t) Q w.
Proof.
  intros Ht HQ. destruct (lookup_lt_is_Some_2 (queues w) (Z.to_nat target)) as [q Hq]; [unfold len in Ht; lia|].
  unfold wp, push_to. rewrite (push_queue_lookup _ _ _ _ Hq) in HQ. rewrite Hq. destruct (_ <? _); [done|]. by destruct w.
Qed.

Lemma wp_handle_set w log key val ptr (Q : unit -> Worker -> Prop) : store_holds w log -> local_sequence w <= store_limit ->
  is_u64 key -> is_u64 val -> 0 <= core_id < len (queues w) -> Q tt (serve core_id (SetRequest key val) ptr w) ->
  wp (handle_set core_id key val) Q w.
Proof.
  intros Hs Hlim Hk Hv Hc HQ. destruct (put_at _ _ _ _ Hs Hlim Hk Hv) as (d & r & log' & Hput & Hsafe & _).
  cbn [serve] in HQ. unfold put_or_sync in HQ. rewrite Hput in HQ. unfold handle_set. apply wp_bind.
  assert (forall e, put_pair key val w = (set_db d w, Ok e) -> (e = None -> exists x, r = Ok x) -> (e <> None -> exists x, r = Err x) ->
    wp (put_pair key val) (fun e => wp ((match e with Some _ => change (fun w => set_db (db_sync (db_node w)) w) | None => mret tt end);;
      next_sequence;; w ← get_state;
      if len (queues w) =? 0 then lift Panic else push_to ((core_id + 1) mod len (queues w)) (ReplicateWrite key val)) Q) w) as Hrest.
  { intros e Hpair H1 H2. unfold wp at 1. rewrite Hpair. apply wp_bind.
    assert ((exists x, e = None /\ r = Ok x) \/ (exists x y, e = Some x /\ r = Err y)) as [(x & -> & ->)|(x & y & -> & ->)].
    { destruct e as [e|]; [right; destruct H2 as [x ->]; [done|by eexists _, _]|left; destruct H1 as [x ->]; [done|by eexists]]. }
    all: first [apply wp_ret|apply wp_change]; apply wp_bind, wp_change, wp_bind, wp_get; cbn [queues set_sequence set_db];
      (rewrite (proj2 (Z.eqb_neq _ _)) by lia); (apply wp_push_to; [cbn; apply Z.mod_pos_bound; lia|exact HQ]). }
  unfold put_pair in *. rewrite Hput in Hrest. destruct r as [[]|e| |]; try done.
  - apply (Hrest None); [done|by eexists|done].
  - apply (Hrest (Some e)); [done|done|by eexists].
Qed.

Lemma wp_handle_get w log out pend fd ptr key (Q : unit -> Worker -> Prop) : ready w log out pend ->
  0 <= ptr - buf_storage (w_bufs w) -> ptr - buf_storage (w_bufs w) + 8 <= len (memory w) ->
  (forall u', ring_has u' (foldl (fun out f => added (sq_entries (w_ring w)) out (f sqe_default)) out (reply (GetRequest key) fd ptr 0 w)) pend ->
     sq_entries u' = sq_entries (w_ring w) -> Q tt (set_ring u' (serve core_id (GetRequest key) ptr w))) ->
  wp (handle_get fd ptr key) Q w.
Proof.
  intros Hr Hlo Hhi HQ. pose proof (stored_value_at _ _ key (rd_store _ _ _ _ Hr)) as Hv. unfold handle_get. apply wp_bind.
  unfold wp at 1, lookup_key. destruct (db_get _ _) as [r| | |] eqn:Hget; try done. destruct Hv as (_ & Hn & Hs).
  assert (stored_value w key = None -> Q tt w) as HQn.
  { intros Hnone. cbn [serve reply] in HQ. rewrite Hnone in HQ. specialize (HQ (w_ring w)). cbn [foldl] in HQ.
    replace (set_ring (w_ring w) w) with w in HQ by (by destruct w). apply HQ; [by apply Hr|done]. }
  destruct r as [[v q]|]; [|apply wp_ret, HQn; by apply Hn]. destruct (Hs _ _ eq_refl) as [Heq (x & Hx & ->)]. rewrite len_be. cbn [Z.eqb].
  change (Z.of_nat 8 =? 8) with true. cbv iota. rewrite to_from_be by (by rewrite len_be). apply wp_bind, wp_store; [done|by rewrite len_be|].
  cbn [serve reply] in HQ. rewrite Heq in HQ. apply wp_bind. eapply wp_prepare; [by apply Hr|].
  intros u' Hu He. apply wp_ret. by apply HQ.
Qed.

End handlers.

(** ** A received buffer *)

(** The first [n] bytes of buffer [id]. *)
Definition received {D} (w : Worker (D := D)) (id n : Z) : bytes :=
  sub (memory w) (id * buf_size (w_bufs w)) (id * buf_size (w_bufs w) + n).

Section receive.
  Context {D : Type} `{SS : StoreSpec D} (core_id listen_fd : Z).
  Implicit Types (w : Worker (D := D)).

Lemma serve_frame req ptr w : let w' := serve core_id req ptr w in
  w_ring w' = w_ring w /\ w_bufs w' = w_bufs w /\ closed w' = closed w /\ rx_bytes w' = rx_bytes w /\ completed_requests w' = completed_requests w.
Proof.
  destruct req as [key val|key|]; cbn [serve]; [|by destruct (stored_value w key)|done].
  unfold put_or_sync. by destruct (db_put _ _ _ _).
Qed.

Lemma set_ring_same w : set_ring (w_ring w) w = w.
Proof. by destruct w. Qed.

Lemma parse_length bs key val : parse bs = SetRequest key val -> is_u64 key /\ is_u64 val.
Proof.
  unfold parse. destruct (Z.leb_spec 9 (len bs)) as [H9|]; [|done]. destruct (_ =? 1); cbn [andb].
  - destruct (Z.leb_spec 17 (len bs)) as [H17|]; [|by destruct (_ =? 2)]. intros [= <- <-]. split; apply from_be_u64; rewrite len_sub by lia; lia.
  - by destruct (_ =? 2).
Qed.

(** The outcome of handling a request, up to the reply of an unparsed one. *)
Lemma wp_handle_request w log out pend fd id n : ready core_id w log out pend -> local_sequence w <= store_limit ->
  0 <= id < b_entries (w_bufs w) -> 0 < n <= buf_size (w_bufs w) ->
  let ptr := get_buffer_ptr id (w_bufs w) in
  let req := parse (received w id n) in
  wp (handle_request core_id fd ptr n) (fun ok w' =>
    ok = (match req with Echo => false | _ => true end) /\
    exists u', w' = set_ring u' (serve core_id req ptr w) /\ sq_entries u' = sq_entries (w_ring w) /\
      ring_has u' (if (ok : bool) then foldl (fun out f => added (sq_entries (w_ring w)) out (f sqe_default)) out (reply req fd ptr n w) else out) pend) w.
Proof.
  intros Hr Hlim Hid Hn ptr req. assert (ptr - buf_storage (w_bufs w) = id * buf_size (w_bufs w)) as Hptr by (unfold ptr, get_buffer_ptr; lia).
  pose proof (rd_memory _ _ _ _ _ Hr) as Hmem. assert (id * buf_size (w_bufs w) + n <= len (memory w) /\ 0 <= id * buf_size (w_bufs w)) as [Hin Hlo] by nia.
  assert (len (received w id n) = n) as Hlen by (unfold received; rewrite len_sub by lia; lia).
  assert (forall a b, 0 <= a -> a <= b -> b <= n -> sub (received w id n) a b =
    sub (memory w) (ptr + a - buf_storage (w_bufs w)) (ptr + a - buf_storage (w_bufs w) + (b - a))) as Hsub.
  { intros a b Ha Hab Hb. unfold received. rewrite sub_sub by lia. f_equal; lia. }
  assert (ring_has (w_ring w) out pend) as Hring by apply Hr.
  unfold handle_request. subst req. unfold parse. rewrite Hlen. destruct (Z.leb_spec 9 n) as [H9|H9].
  2:{ apply wp_ret. split; [done|]. exists (w_ring w). by rewrite set_ring_same. }
  apply wp_bind. unfold load_u8. apply wp_bind, wp_load; [lia..|]. apply wp_ret.
  apply wp_bind. unfold load_be64 at 1. apply wp_bind, wp_load; [lia..|]. apply wp_ret.
  rewrite (Hsub 0 1), (Hsub 1 9), Z.add_0_r by lia. change (1 - 0) with 1. change (9 - 1) with 8.
  destruct (_ =? 1); cbn [andb]; [destruct (Z.leb_spec 17 n) as [H17|H17]|].
  - apply wp_bind. unfold load_be64. apply wp_bind, wp_load; [lia..|]. apply wp_ret. rewrite (Hsub 9 17) by lia. change (17 - 9) with 8.
    apply wp_bind. eapply (wp_handle_set _ _ _ _ _ ptr); [by apply Hr|done|apply from_be_u64; rewrite len_sub; lia..|by apply Hr|].
    apply wp_ret. split; [done|]. exists (w_ring w). split; [|by split].
    pose proof (serve_frame (SetRequest (from_be_bytes (sub (memory w) (ptr + 1 - buf_storage (w_bufs w)) (ptr + 1 - buf_storage (w_bufs w) + 8)))
      (from_be_bytes (sub (memory w) (ptr + 9 - buf_storage (w_bufs w)) (ptr + 9 - buf_storage (w_bufs w) + 8)))) ptr w) as (<- & _).
    by rewrite set_ring_same.
  - destruct (_ =? 2); [|apply wp_ret; split; [done|]; exists (w_ring w); by rewrite set_ring_same].
    apply wp_bind. eapply wp_handle_get; [exact Hr|lia..|]. intros u' Hu He. apply wp_ret. split; [done|]. by exists u'.
  - destruct (_ =? 2); [|apply wp_ret; split; [done|]; exists (w_ring w); by rewrite set_ring_same].
    apply wp_bind. eapply wp_handle_get; [exact Hr|lia..|]. intros u' Hu He. apply wp_ret. split; [done|]. by exists u'.
Qed.

(** A completed receive. *)
Definition recv_done (fd id n : Z) (out : list io_uring_sqe) (pend : list io_uring_cqe) w w' : Prop :=
  let ptr := get_buffer_ptr id (w_bufs w) in
  let req := parse (received w id n) in
  exists u' br', w' = count_request n (set_w_bufs br' (set_ring u' (serve core_id req ptr w))) /\
    recycle id (w_bufs w) = Ok br' /\ sq_entries u' = sq_entries (w_ring w) /\
    ring_has u' (foldl (fun out f => added (sq_entries (w_ring w)) out (f sqe_default)) out (reply req fd ptr n w)) pend.

Lemma wp_on_recv w log out pend fd n flags : ready core_id w log out pend -> local_sequence w <= store_limit ->
  let id := wrap16 (Z.shiftr flags IORING_CQE_BUFFER_SHIFT) in
  Z.land flags IORING_CQE_F_BUFFER <> 0 -> 0 <= id < b_entries (w_bufs w) -> 0 < n <= buf_size (w_bufs w) -> is_i32 n ->
  wp (on_recv core_id fd n flags) (fun b w' => b = true /\ recv_done fd id n out pend w w') w.
Proof.
  intros Hr Hlim id Hf Hid Hn H32. unfold on_recv. rewrite (proj2 (Z.leb_gt _ _)) by lia. rewrite (proj2 (Z.eqb_neq _ _)) by done. cbn [negb].
  assert (wrap32 n = n) as -> by (apply wrap32_small; unfold is_i32, is_u32 in *; lia). fold id. apply wp_bind, wp_get. cbv zeta.
  apply wp_bind. eapply wp_mono; [by apply (wp_handle_request _ _ _ _ fd id n Hr Hlim)|]. intros ok w1 (Hok & u1 & -> & He1 & Hu1).
  destruct (recycle_bufs _ _ (rd_bufs _ _ _ _ _ Hr) Hid) as (br' & Hrec & _). pose proof (serve_frame (parse (received w id n)) (get_buffer_ptr id (w_bufs w)) w) as (_ & Hb & _).
  assert (forall u', sq_entries u' = sq_entries (w_ring w) ->
    ring_has u' (foldl (fun out f => added (sq_entries (w_ring w)) out (f sqe_default)) out (reply (parse (received w id n)) fd (get_buffer_ptr id (w_bufs w)) n w)) pend ->
    wp (change (count_request n);; on_bufs (recycle id);; mret true) (fun b w' => b = true /\ recv_done fd id n out pend w w')
      (set_ring u' (serve core_id (parse (received w id n)) (get_buffer_ptr id (w_bufs w)) w))) as Hrest.
  { intros u' He Hu. apply wp_bind, wp_change, wp_bind. unfold on_bufs. apply wp_bind, wp_get, wp_bind. cbn [w_bufs count_request set_ring].
    rewrite Hb. eapply wp_lift; [exact Hrec|]. apply wp_change, wp_ret. split; [done|]. exists u', br'. by split_and!. }
  destruct (parse (received w id n)) eqn:Hp; rewrite Hok in *.
  1,2: apply wp_bind, wp_ret, Hrest; [done|exact Hu1].
  apply wp_bind, wp_bind. eapply wp_prepare; [exact Hu1|]. cbn [w_ring set_ring]. intros u' Hu He. apply wp_ret. rewrite He1 in *.
  apply Hrest; [done|exact Hu].
Qed.

End receive.

(** ** Every completion *)

Lemma as_i32_range x : is_i32 (as_i32 x).
Proof. unfold as_i32, is_i32. pose proof (Z.mod_pos_bound x (2 ^ 32)). cbv zeta. destruct (Z.ltb_spec (x mod 2 ^ 32) (2 ^ 31)); lia. Qed.

Lemma decode_fd_range x : is_i32 (decode_fd x).
Proof. apply as_i32_range. Qed.

(** A completion that hands the worker a filled buffer, which buffer, and how many
    bytes. *)
Definition fills (c : io_uring_cqe) : bool :=
  (decode_op (user_data c) =? IORING_OP_RECV) && (0 <? res c) && negb (Z.land (cqe_flags c) IORING_CQE_F_BUFFER =? 0).
Definition buffer_id (c : io_uring_cqe) : Z := wrap16 (Z.shiftr (cqe_flags c) IORING_CQE_BUFFER_SHIFT).

(** What the kernel promises of a completion. *)
Definition is_op (op : Z) : Prop := op = IORING_OP_ACCEPT \/ op = IORING_OP_RECV \/ op = IORING_OP_SEND \/ op = IORING_OP_CLOSE.
Definition cqe_ok (entries size : Z) (c : io_uring_cqe) : Prop :=
  is_op (decode_op (user_data c)) /\ is_i32 (res c) /\
  (fills c = true -> 0 <= buffer_id c < entries /\ res c <= size).

Section worker.
  Context {D : Type} `{SS : StoreSpec D} (core_id listen_fd : Z) (Hlisten : is_i32 listen_fd).
  Implicit Types (w : Worker (D := D)).

(** The log after one more write, which the store may have refused. *)
Definition log_extends (log log' : list entry) : Prop := exists es, log' = log ++ es.

Lemma log_extends_refl log : log_extends log log.
Proof. exists []. by rewrite app_nil_r. Qed.
Lemma log_extends_trans a b c : log_extends a b -> log_extends b c -> log_extends a c.
Proof. intros [x ->] [y ->]. exists (x ++ y). by rewrite (assoc_L (++)). Qed.

Lemma store_holds_same w w' log : db_node w' = db_node w -> local_sequence w' = local_sequence w -> store_holds w log -> store_holds w' log.
Proof. intros Hd Hs [H1 H2 H3 H4]. split; rewrite ?Hd, ?Hs; done. Qed.

Lemma serve_ready req ptr w log out pend : ready core_id w log out pend -> local_sequence w <= store_limit ->
  (forall key val, req = SetRequest key val -> is_u64 key /\ is_u64 val) ->
  0 <= ptr - buf_storage (w_bufs w) -> ptr - buf_storage (w_bufs w) + 8 <= len (memory w) \/ (forall key, req <> GetRequest key) ->
  exists log', ready core_id (serve core_id req ptr w) log' out pend /\ log_extends log log' /\
    local_sequence w <= local_sequence (serve core_id req ptr w) <= local_sequence w + 1.
Proof.
  intros Hr Hlim Hu Hlo Hhi. destruct (serve_frame core_id req ptr w) as (F1 & F2 & F3 & _). pose proof Hr as [H1 H2 H3 H4 H5 H6].
  destruct req as [key val|key|].
  - destruct (Hu _ _ eq_refl) as [Hk Hv]. destruct (put_at _ _ _ _ H4 Hlim Hk Hv) as (d & r & log' & Hput & Hsafe & Hseq & Hlog & Hst).
    exists log'. assert (local_sequence (serve core_id (SetRequest key val) ptr w) = local_sequence w + 1) as Hs'.
    { cbn [serve]. unfold put_or_sync. rewrite Hput. exact Hseq. }
    split; [split; rewrite ?F1, ?F2; try done|].
    + cbn [serve]. unfold put_or_sync. by rewrite Hput.
    + apply Hst; [|done]. cbn [serve]. unfold put_or_sync. rewrite Hput. cbn. destruct r; auto.
    + cbn [serve]. unfold put_or_sync. rewrite Hput. cbn. unfold push_queue, len. by rewrite length_alter.
    + cbn [serve]. unfold put_or_sync. rewrite Hput. cbn. by apply push_queue_ok.
    + split; [|lia]. destruct Hlog as [-> | ->]; [apply log_extends_refl|by eexists].
  - exists log. cbn [serve] in *. unfold stored_value in *. destruct (db_get _ _) as [[[[v|] q]|]| | |]; try (split; [done|split; [apply log_extends_refl|lia]]).
    destruct (Z.eqb_spec (len v) 8) as [Hv|]; [|split; [done|split; [apply log_extends_refl|lia]]].
    split; [|split; [apply log_extends_refl|cbn; lia]]. split; try done; [|by apply (store_holds_same w)]. cbn. destruct Hhi as [Hhi|Hhi]; [|by destruct (Hhi key)].
    rewrite len_splice; lia.
  - exists log. split; [done|split; [apply log_extends_refl|cbn; lia]].
Qed.

Definition tagged_out (out : list io_uring_sqe) : Prop := Forall tagged out.

Lemma added_tagged room out e : tagged_out out -> tagged e -> tagged_out (added room out e).
Proof. intros Ho He. unfold added. destruct (_ <? _); [|done]. apply Forall_app. split; [done|by apply Forall_singleton]. Qed.

(** What a completion may change besides the store. *)
Definition after (c : io_uring_cqe) w (b : bool) w' : Prop :=
  b = fills c /\ length (queues w') = length (queues w) /\ local_sequence w <= local_sequence w' <= local_sequence w + 1 /\
  same_storage (w_bufs w) (w_bufs w') /\
  (if fills c then recycle (buffer_id c) (w_bufs w) = Ok (w_bufs w') else w_bufs w' = w_bufs w).

Definition worker_post w log (c : io_uring_cqe) (pend : list io_uring_cqe) (b : bool) w' : Prop :=
  exists log' out', ready core_id w' log' out' pend /\ tagged_out out' /\ log_extends log log' /\ after c w b w'.

Lemma unchanged_post w log out c pend w' : ready core_id w log out pend -> fills c = false ->
  (exists out' u' l, ring_has u' out' pend /\ tagged_out out' /\ w' = set_closed l (set_ring u' w)) -> worker_post w log c pend false w'.
Proof.
  intros [H1 H2 H3 H4 H5 H6] Hc (out' & u' & l & Hu & Ht & ->). exists log, out'. split; [split; try done; by apply (store_holds_same w)|].
  split; [done|]. split; [apply log_extends_refl|]. unfold after. rewrite Hc. split_and!; try done; cbn; lia.
Qed.

Lemma closed_same w : set_closed (closed w) w = w.
Proof. by destruct w. Qed.

Lemma wp_close_client w log out c pend fd (Q : unit -> Worker -> Prop) : ready core_id w log out pend -> tagged_out out -> is_i32 fd ->
  fills c = false -> (forall w', worker_post w log c pend false w' -> Q tt w') -> wp (close_client fd) Q w.
Proof.
  intros Hr Ho Hfd Hc HQ. unfold close_client. apply wp_bind. eapply wp_prepare; [by apply Hr|]. intros u' Hu He.
  assert (tagged_out (added (sq_entries (w_ring w)) out (prep_close sqe_default fd))) as Ht by (apply added_tagged; auto with tags).
  assert (forall l, worker_post w log c pend false (set_closed l (set_ring u' w))) as Hpost.
  { intros l. eapply unchanged_post; [done..|]. by eexists _, u', l. }
  destruct (_ <? _); [apply wp_ret|apply wp_change]; apply HQ; [|apply Hpost].
  rewrite <- (closed_same (set_ring u' w)). apply Hpost.
Qed.

Lemma wp_on_accept w log out c pend r flags (Q : unit -> Worker -> Prop) : ready core_id w log out pend -> tagged_out out -> is_i32 r ->
  fills c = false -> (forall w', worker_post w log c pend false w' -> Q tt w') -> wp (on_accept listen_fd r flags) Q w.
Proof.
  intros Hr Ho Hi Hc HQ. unfold on_accept. apply wp_bind.
  assert (forall out' u' l, ring_has u' out' pend -> tagged_out out' ->
    wp (if Z.land flags IORING_CQE_F_MORE =? 0 then on_ring (with_sqe (fun sqe => prep_accept_multishot sqe listen_fd));; mret tt else mret tt) Q
      (set_closed l (set_ring u' w))) as Hrest.
  { intros out' u' l Hu Ht. destruct (_ =? 0).
    - apply wp_bind. eapply wp_prepare; [exact Hu|]. intros u2 Hu2 _. apply wp_ret, HQ. eapply unchanged_post; [done..|].
      exists (added (sq_entries u') out' (prep_accept_multishot sqe_default listen_fd)), u2, l. split; [exact Hu2|]. split; [|done]. apply added_tagged; auto with tags.
    - apply wp_ret, HQ. eapply unchanged_post; [done..|]. by exists out', u', l. }
  assert (ring_has (w_ring w) out pend) as Hring by apply Hr.
  destruct (0 <=? r).
  2:{ apply wp_ret. rewrite <- (closed_same w). rewrite <- (set_ring_same w) at 2. by eapply Hrest. }
  apply wp_bind. eapply wp_prepare; [exact Hring|]. intros u' Hu He.
  assert (tagged_out (added (sq_entries (w_ring w)) out (prep_recv_multishot sqe_default r BUFFER_GROUP_ID))) as Ht by (apply added_tagged; auto with tags).
  destruct (_ <? _); [apply wp_ret|apply wp_change].
  - rewrite <- (closed_same (set_ring u' w)). by eapply Hrest.
  - by eapply Hrest.
Qed.

Lemma foldl_added_tagged room (fs : list (io_uring_sqe -> io_uring_sqe)) out : tagged_out out -> Forall (fun f => tagged (f sqe_default)) fs ->
  tagged_out (foldl (fun out f => added room out (f sqe_default)) out fs).
Proof. intros Ho Hf. revert out Ho. induction Hf as [|f fs Hf _ IH]; intros out Ho; [done|]. by apply IH, added_tagged. Qed.

Lemma reply_tagged req fd ptr n w : is_i32 fd -> Forall (fun f => tagged (f sqe_default)) (reply req fd ptr n w).
Proof.
  intros Hfd. destruct req as [key val|key|]; cbn [reply]; [by constructor|destruct (stored_value w key); [|by constructor]|].
  all: apply Forall_singleton; auto with tags.
Qed.

(** The operation codes are different. *)
Lemma dispatch_recv (c : io_uring_cqe) : decode_op (user_data c) = IORING_OP_RECV ->
  dispatch core_id listen_fd c = on_recv (D := D) core_id (decode_fd (user_data c)) (res c) (cqe_flags c).
Proof. intros Hop. unfold dispatch. by rewrite Hop. Qed.

Lemma wp_on_recv_post w log out c pend : ready core_id w log out pend -> tagged_out out -> local_sequence w <= store_limit ->
  cqe_ok (b_entries (w_bufs w)) (buf_size (w_bufs w)) c -> decode_op (user_data c) = IORING_OP_RECV ->
  wp (on_recv core_id (decode_fd (user_data c)) (res c) (cqe_flags c)) (worker_post w log c pend) w.
Proof.
  intros Hr Ho Hlim (_ & H32 & Hfill) Hop. pose proof (decode_fd_range (user_data c)) as Hfd.
  assert (fills c = (0 <? res c) && negb (Z.land (cqe_flags c) IORING_CQE_F_BUFFER =? 0)) as Hf by (unfold fills; by rewrite Hop).
  destruct (Z.ltb_spec 0 (res c)) as [Hpos|Hneg]; cbn [andb] in Hf.
  - destruct (Z.eqb_spec (Z.land (cqe_flags c) IORING_CQE_F_BUFFER) 0) as [Hz|Hz]; cbn [negb] in Hf.
    + unfold on_recv. rewrite (proj2 (Z.leb_gt _ _)) by done. rewrite Hz. cbn [Z.eqb negb]. apply wp_ret.
      apply (unchanged_post _ _ _ _ _ _ Hr Hf). exists out, (w_ring w), (closed w). split; [by apply Hr|]. split; [done|].
      by rewrite set_ring_same, closed_same.
    + destruct (Hfill Hf) as [Hid Hn]. assert (get_buffer_ptr (buffer_id c) (w_bufs w) - buf_storage (w_bufs w) = buffer_id c * buf_size (w_bufs w)) as Hptr by (unfold get_buffer_ptr; lia).
      eapply wp_mono; [by eapply (wp_on_recv core_id w log out pend)|]. intros b w' [-> (u' & br' & -> & Hrec & He & Hu)].
      fold (buffer_id c) in *. set (ptr := get_buffer_ptr (buffer_id c) (w_bufs w)) in *. set (req := parse (received w (buffer_id c) (res c))) in *.
      pose proof (rd_memory _ _ _ _ _ Hr) as Hmem.
      destruct (serve_ready req ptr w log out pend Hr Hlim) as (log' & Hr' & Hlog & Hseq); [intros k v Hp; by eapply parse_length|rewrite Hptr; nia| |].
      { destruct req eqn:Hreq; [by right| |by right]. left. unfold req in Hreq. assert (len (received w (buffer_id c) (res c)) = res c) as Hl.
        { unfold received. rewrite len_sub by nia. lia. }
        unfold parse in Hreq. rewrite Hl in Hreq. destruct (Z.leb_spec 9 (res c)); [nia|done]. }
      destruct (serve_frame core_id req ptr w) as (F1 & F2 & _). destruct (recycle_bufs _ _ (rd_bufs _ _ _ _ _ Hr) Hid) as (br2 & Hrec2 & Hb & Hsame).
      rewrite Hrec in Hrec2. injection Hrec2 as <-. destruct Hsame as (S1 & S2 & S3).
      exists log', (foldl (fun out f => added (sq_entries (w_ring w)) out (f sqe_default)) out (reply req (decode_fd (user_data c)) ptr (res c) w)).
      split; [split; cbn|].
      * exact Hu.
      * exact Hb.
      * rewrite S1, S3, <- Hmem. pose proof (rd_memory _ _ _ _ _ Hr') as Hm'. rewrite F2 in Hm'. congruence.
      * eapply store_holds_same; [| |by apply (rd_store _ _ _ _ _ Hr')]; done.
      * apply (rd_core _ _ _ _ _ Hr').
      * apply (rd_tasks _ _ _ _ _ Hr').
      * split; [apply foldl_added_tagged; [done|by apply reply_tagged]|]. split; [done|]. unfold after. rewrite Hf. split_and!; try done; cbn; try lia.
        unfold serve, put_or_sync. clear. destruct req; [|by destruct (stored_value w _)|done]. destruct (db_put _ _ _ _). cbn. unfold push_queue. by rewrite length_alter.
  - unfold on_recv. rewrite (proj2 (Z.leb_le _ _)) by done. apply wp_bind. destruct (_ =? - ENOBUFS).
    + apply wp_bind. eapply wp_prepare; [by apply Hr|]. intros u' Hu _. apply wp_ret, wp_ret. apply (unchanged_post _ _ _ _ _ _ Hr Hf).
      exists (added (sq_entries (w_ring w)) out (prep_recv_multishot sqe_default (decode_fd (user_data c)) BUFFER_GROUP_ID)), u', (closed w).
      split; [exact Hu|]. split; [apply added_tagged; auto with tags|]. symmetry. apply (closed_same (set_ring u' w)).
    + eapply wp_close_client; [done..|]. intros w' Hw'. by apply wp_ret.
Qed.

Lemma wp_dispatch w log out c pend : ready core_id w log out pend -> tagged_out out -> local_sequence w <= store_limit ->
  cqe_ok (b_entries (w_bufs w)) (buf_size (w_bufs w)) c ->
  wp (dispatch core_id listen_fd c) (worker_post w log c pend) w.
Proof.
  intros Hr Ho Hlim Hc. pose proof (decode_fd_range (user_data c)) as Hfd. destruct (Hc) as (Hop & H32 & _).
  assert (decode_op (user_data c) <> IORING_OP_RECV -> fills c = false) as Hnf.
  { intros Hne. unfold fills. by rewrite (proj2 (Z.eqb_neq _ _)) by done. }
  destruct Hop as [Hop|[Hop|[Hop|Hop]]].
  - unfold dispatch. rewrite Hop in *. cbn [Z.eqb Pos.eqb]. apply wp_bind. eapply wp_on_accept; [done..|by apply Hnf|]. intros w' Hw'. by apply wp_ret.
  - rewrite dispatch_recv by done. by apply (wp_on_recv_post w log out).
  - unfold dispatch. rewrite Hop in *. cbn. apply wp_bind. unfold on_send. destruct (_ <? 0).
    + eapply wp_close_client; [done..|by apply Hnf|]. intros w' Hw'. by apply wp_ret.
    + apply wp_ret, wp_ret. eapply unchanged_post; [done|by apply Hnf|]. exists out, (w_ring w), (closed w). split; [by apply Hr|].
      by rewrite set_ring_same, closed_same.
  - unfold dispatch. rewrite Hop in *. cbn. apply wp_ret. eapply unchanged_post; [done|by apply Hnf|]. exists out, (w_ring w), (closed w).
    split; [by apply Hr|]. by rewrite set_ring_same, closed_same.
Qed.

Lemma ready_advance w log out c pend : ready core_id w log out (c :: pend) -> ready core_id (set_ring (advance_cq 1 (w_ring w)) w) log out pend.
Proof.
  intros [[g H1] H2 H3 H4 H5 H6]. split; try done; [|by apply (store_holds_same w)]. cbn. eexists. by apply advance_at in H1.
Qed.

Lemma ready_peek w log out pend : ready core_id w log out pend -> peek_cqe (w_ring w) = Ok (head pend).
Proof. intros [[g H1] _ _ _ _ _]. by eapply peek_at. Qed.

(** One iteration of the loop, on a completion and behind the last one. *)
Lemma wp_drain_some w log out c pend r : ready core_id w log out (c :: pend) -> tagged_out out -> local_sequence w <= store_limit ->
  cqe_ok (b_entries (w_bufs w)) (buf_size (w_bufs w)) c ->
  wp (drain_step core_id listen_fd r) (fun p w' => p = Draining (r || fills c) /\ worker_post w log c pend (fills c) w') w.
Proof.
  intros Hr Ho Hlim Hc. unfold drain_step. apply wp_bind, wp_get, wp_bind. eapply wp_lift; [exact (ready_peek _ _ _ _ Hr)|]. cbn [head].
  apply wp_bind, wp_change, wp_bind. pose proof (ready_advance _ _ _ _ _ Hr) as Hr'.
  eapply wp_mono; [by eapply wp_dispatch|]. intros b w' Hp. apply wp_ret. destruct Hp as (log' & out' & H1 & H2 & H3 & Hb & Hrest).
  rewrite Hb. split; [done|]. by exists log', out'.
Qed.

Lemma wp_drain_none w log out r : ready core_id w log out [] ->
  wp (drain_step core_id listen_fd r) (fun p w' => p = Waiting /\ exists br', w' = set_w_bufs br' w /\
    (if r then flush (w_bufs w) = Ok br' else br' = w_bufs w) /\ ready core_id w' log out []) w.
Proof.
  intros Hr. unfold drain_step. apply wp_bind, wp_get, wp_bind. eapply wp_lift; [exact (ready_peek _ _ _ _ Hr)|]. cbn [head].
  pose proof Hr as [H1 H2 H3 H4 H5 H6]. apply wp_bind. destruct r.
  - destruct (flush_bufs _ H2) as (br' & Hf & Hb & S1 & S2 & S3). unfold on_bufs. apply wp_bind, wp_get, wp_bind.
    eapply wp_lift; [exact Hf|]. apply wp_change, wp_ret. split; [done|]. exists br'. split; [done|]. split; [done|].
    split; try done; [cbn; congruence|by apply (store_holds_same w)].
  - apply wp_ret, wp_ret. split; [done|]. exists (w_bufs w). split; [by destruct w|]. done.
Qed.

(** An iteration on the replicated writes, exactly. *)
Definition apply_next (todo : nat) w : phase * Worker :=
  match todo, queues w !! Z.to_nat core_id with
  | S todo, Some (ReplicateWrite key val :: q) => (Applying todo, put_next key val (set_queues (<[Z.to_nat core_id := q]> (queues w)) w))
  | _, _ => (Draining false, w)
  end.

Lemma apply_step_next n w log out pend : ready core_id w log out pend -> local_sequence w <= store_limit ->
  apply_step core_id n w = ((apply_next n w).2, Ok (apply_next n w).1) /\
  exists log', ready core_id (apply_next n w).2 log' out pend /\ log_extends log log'.
Proof.
  intros Hr Hlim. assert (exists log', ready core_id w log' out pend /\ log_extends log log') as Hsame by (exists log; split; [done|apply log_extends_refl]).
  pose proof Hr as [H1 H2 H3 H4 H5 H6]. destruct n as [|n]; cbn [apply_step apply_next]; [done|].
  unfold mbind, st_bind, pop_task. destruct (lookup_lt_is_Some_2 (queues w) (Z.to_nat core_id)) as [q Hq]; [unfold len in H5; lia|].
  rewrite Hq. destruct q as [|[key val] q]; [done|]. assert (Forall task_ok (ReplicateWrite key val :: q)) as Hq2 by (by eapply Forall_lookup_1).
  apply Forall_cons in Hq2 as [[Hk Hv] Hq2]. set (w1 := set_queues _ w). assert (store_holds w1 log) as Hs1 by (by apply (store_holds_same w)).
  destruct (put_at w1 log key val Hs1) as (d & r & log' & Hput & Hsafe & Hseq & Hlog & Hst); [cbn; lia|done..|].
  unfold put_pair, put_next, next_sequence, change. rewrite Hput. split; [by destruct r|]. cbn [snd]. exists log'. split.
  - split; try done; cbn.
    + apply Hst; [by left|exact Hseq].
    + unfold len. by rewrite length_insert.
    + by apply Forall_insert.
  - destruct Hlog as [-> | ->]; [apply log_extends_refl|by eexists].
Qed.

Lemma put_next_frame key val w : let w' := put_next key val w in
  local_sequence w' = wrap64 (local_sequence w + 1) /\ w_ring w' = w_ring w /\ w_bufs w' = w_bufs w /\ memory w' = memory w /\ queues w' = queues w.
Proof. unfold put_next. by destruct (db_put _ _ _ _). Qed.

Lemma apply_next_frame n w log : store_holds w log -> local_sequence w <= store_limit -> let w' := (apply_next n w).2 in
  w_ring w' = w_ring w /\ w_bufs w' = w_bufs w /\ memory w' = memory w /\ length (queues w') = length (queues w) /\
  local_sequence w <= local_sequence w' <= local_sequence w + 1 /\
  match (apply_next n w).1 with Applying m => n = S m | p => p = Draining false end.
Proof.
  intros Hst Hlim. pose proof (sh_sequence _ _ Hst). pose proof store_limit_u64.
  destruct n as [|n]; cbn [apply_next]; [split_and!; done || cbn; lia|].
  destruct (queues w !! _) as [[|[key val] q]|]; [split_and!; done || cbn; lia| |split_and!; done || cbn; lia].
  destruct (put_next_frame key val (set_queues (<[Z.to_nat core_id := q]> (queues w)) w)) as (F1 & F2 & F3 & F4 & F5).
  cbn [fst snd] in *. rewrite F1, F2, F3, F4, F5. cbn. rewrite length_insert, wrap64_small by (unfold is_u64; lia). split_and!; done || lia.
Qed.

(** The replicated writes of a round. *)
Lemma wp_apply_tasks n : forall w log out pend, ready core_id w log out pend -> local_sequence w + Z.of_nat n <= store_limit ->
  wp (apply_tasks core_id n) (fun _ w' => exists log', ready core_id w' log' out pend /\ log_extends log log' /\
    local_sequence w <= local_sequence w' <= local_sequence w + Z.of_nat n /\
    w_ring w' = w_ring w /\ w_bufs w' = w_bufs w /\ memory w' = memory w /\ length (queues w') = length (queues w)) w.
Proof.
  induction n as [|n IH]; intros w log out pend Hr Hlim; cbn [apply_tasks]; apply wp_bind.
  { apply wp_ret, wp_ret. exists log. split; [done|]. split; [apply log_extends_refl|]. split_and!; done || lia. }
  destruct (apply_step_next (S n) w log out pend Hr) as (Hstep & log1 & Hr1 & He1); [lia|].
  destruct (apply_next_frame (S n) w log (rd_store _ _ _ _ _ Hr)) as (F1 & F2 & F3 & F4 & Hs & Hp); [lia|].
  unfold wp at 1. rewrite Hstep. destruct (apply_next (S n) w) as [p w1]. cbn [fst snd] in *.
  destruct p as [|m|b|e]; try done; [|apply wp_ret; exists log1; rewrite F1, F2, F3, F4; split_and!; done || lia].
  injection Hp as <-. eapply wp_mono; [apply (IH _ _ _ _ Hr1); lia|].
  intros _ w' (log2 & Hr' & He' & Hseq' & G1 & G2 & G3 & G4). exists log2. split; [done|]. split; [by eapply log_extends_trans|].
  split_and!; [lia|lia|congruence..].
Qed.

(** [submit_and_wait]: requests are submitted and completions arrive. *)
Lemma wait_round_post w log out pend enter taken posted : ready core_id w log out pend -> enter_ok enter (w_ring w) taken posted ->
  let '(w', r) := wait_round enter w in
  (exists out' u', out = taken ++ out' /\ w' = set_ring u' w /\ ready core_id w' log out' (pend ++ posted)) /\ safe r.
Proof.
  intros [[g H1] H2 H3 H4 H5 H6] Hk. unfold wait_round, on_ring. destruct (submit_and_wait enter 1 (w_ring w)) as [u' r] eqn:Hsub.
  destruct (submit_at _ _ _ _ _ _ _ _ _ H1 Hk (or_intror (ex_intro _ 1 Hsub))) as (Hsafe & g' & out' & Hout & Hr').
  split; [|done]. exists out', u'. split; [done|]. split; [done|]. split; try done; [by exists g'|by apply (store_holds_same w)].
Qed.

(** The beginning of a round. *)
Lemma begin_round_post w log out pend enter taken posted : ready core_id w log out pend -> enter_ok enter (w_ring w) taken posted ->
  room_for_writes w ->
  let '(w', r) := begin_round core_id enter w in
  (exists out' log', out = taken ++ out' /\ ready core_id w' log' out' (pend ++ posted) /\ log_extends log log' /\
    local_sequence w <= local_sequence w' <= local_sequence w + 16 /\
    w_bufs w' = w_bufs w /\ memory w' = memory w /\ length (queues w') = length (queues w)) /\
  match r with Ok _ | Err _ => True | _ => False end.
Proof.
  intros Hr Hk Hroom. unfold begin_round, mbind, st_bind. pose proof (wait_round_post w log out pend enter taken posted Hr Hk) as Hw.
  destruct (wait_round enter w) as [w1 r]. destruct Hw as [(out' & u' & Hout & -> & Hr1) Hsafe].
  destruct r as [n|e| |]; try done.
  - pose proof (wp_apply_tasks 16 _ _ _ _ Hr1 Hroom) as Ht. unfold wp in Ht.
    destruct (apply_tasks core_id 16 (set_ring u' w)) as [w' [[]|e| |]]; try done.
    split; [|done]. destruct Ht as (log' & Hr2 & Hext & Hseq & F1 & F2 & F3 & F4). by exists out', log'.
  - split; [|done]. exists out', log. split; [done|]. split; [done|]. split; [apply log_extends_refl|]. split_and!; done || cbn; lia.
Qed.

Lemma serve_set_ring req ptr u w : serve core_id req ptr (set_ring u w) = set_ring u (serve core_id req ptr w).
Proof.
  destruct req as [key val|key|]; cbn [serve]; [|unfold stored_value; cbn; by repeat case_match|done].
  unfold put_or_sync. cbn. by destruct (db_put _ _ _ _).
Qed.

Lemma reply_set_ring req fd ptr n u w : reply req fd ptr n (set_ring u w) = reply req fd ptr n w.
Proof. done. Qed.

(** An iteration on a receive, exactly. *)
Lemma drain_step_recv w log out c pend r : ready core_id w log out (c :: pend) -> local_sequence w <= store_limit ->
  cqe_ok (b_entries (w_bufs w)) (buf_size (w_bufs w)) c -> fills c = true ->
  exists u' br', drain_step core_id listen_fd r w =
    (count_request (res c) (set_w_bufs br' (set_ring u' (serve core_id (parse (received w (buffer_id c) (res c)))
       (get_buffer_ptr (buffer_id c) (w_bufs w)) w))), Ok (Draining true)) /\
    recycle (buffer_id c) (w_bufs w) = Ok br' /\
    ring_has u' (foldl (fun out f => added (sq_entries (w_ring w)) out (f sqe_default)) out
      (reply (parse (received w (buffer_id c) (res c))) (decode_fd (user_data c)) (get_buffer_ptr (buffer_id c) (w_bufs w)) (res c) w)) pend.
Proof.
  intros Hr Hlim (_ & H32 & Hfill) Hf. destruct (Hfill Hf) as [Hid Hn].
  unfold fills in Hf. apply andb_true_iff in Hf as [[Hop%Z.eqb_eq Hpos%Z.ltb_lt]%andb_true_iff Hflag%negb_true_iff%Z.eqb_neq].
  pose proof (ready_advance _ _ _ _ _ Hr) as Hr'.
  assert (wp (drain_step core_id listen_fd r) (fun p w' => p = Draining true /\ recv_done core_id (decode_fd (user_data c)) (buffer_id c) (res c) out pend
    (set_ring (advance_cq 1 (w_ring w)) w) w') w) as Hwp.
  { unfold drain_step. apply wp_bind, wp_get, wp_bind. eapply wp_lift; [exact (ready_peek _ _ _ _ Hr)|]. cbn [head].
    apply wp_bind, wp_change, wp_bind. rewrite dispatch_recv by done.
    eapply wp_mono; [by eapply wp_on_recv|]. intros b w' [-> Hp]. apply wp_ret. by rewrite orb_true_r. }
  apply wp_Ok in Hwp as (p & w' & Hstep & -> & u' & br' & -> & Hrec & He & Hu). rewrite serve_set_ring in *.
  exists u', br'. split; [exact Hstep|]. by split.
Qed.

(** Without further kernel actions the loop over the completions ends. *)
Lemma wp_drain fuel : forall w log out pend b, ready core_id w log out pend -> tagged_out out ->
  Forall (cqe_ok (b_entries (w_bufs w)) (buf_size (w_bufs w))) pend -> local_sequence w + len pend <= store_limit ->
  (length pend < fuel)%nat ->
  wp (drain core_id listen_fd fuel (Draining b)) (fun _ w' => exists log' out', ready core_id w' log' out' [] /\ tagged_out out' /\ log_extends log log' /\
    local_sequence w <= local_sequence w' <= local_sequence w + len pend) w.
Proof.
  induction fuel as [|fuel IH]; intros w log out pend b Hr Ho Hp Hlim Hf; [lia|]. cbn [drain]. apply wp_bind.
  destruct pend as [|c pend].
  - eapply wp_mono; [by eapply wp_drain_none|]. intros p w' (-> & br' & -> & _ & Hr'). destruct fuel; apply wp_ret; exists log, out;
      (split; [done|]); (split; [done|]); (split; [apply log_extends_refl|]); cbn; rewrite len_nil; lia.
  - apply Forall_cons in Hp as [Hc Hp]. rewrite len_cons in *. pose proof (len_nonneg pend).
    eapply wp_mono; [eapply wp_drain_some; [done..|lia|done]|]. intros p w' (-> & log' & out' & Hr' & Ho' & He & Ha).
    destruct Ha as (_ & _ & Hseq & (S1 & S2 & S3) & _).
    eapply wp_mono; [eapply (IH w' log' out' pend); [done|done|by rewrite S1, S3|lia|cbn in Hf; lia]|].
    intros _ w2 (log2 & out2 & Hr2 & Ho2 & He2 & Hseq2). exists log2, out2. split; [done|]. split; [done|]. split; [by eapply log_extends_trans|lia].
Qed.

End worker.

(** ** Requests on the wire *)

Definition encode_set (key val : Z) : bytes := [Byte.x01] ++ to_be_bytes 8 key ++ to_be_bytes 8 val.
Definition encode_get (key : Z) : bytes := [Byte.x02] ++ to_be_bytes 8 key.

(** The batch that thread [t] of the load generator writes at once (load_gen.rs). *)
Definition pipeline_depth : Z := 16.
Definition batch_buf (t : Z) : bytes :=
  concat ((fun i => let key := wrap64 (t * 10000000 + i) in encode_set key (wrap64 (key * 2))) <$> seqZ 0 pipeline_depth).

Lemma parse_set key val rest : is_u64 key -> is_u64 val -> parse (encode_set key val ++ rest) = SetRequest key val.
Proof.
  intros Hk Hv. unfold parse, encode_set. set (a := to_be_bytes 8 key). set (b := to_be_bytes 8 val).
  assert (len a = 8 /\ len b = 8) as [Ha Hb] by (split; apply (len_be 8)). pose proof (len_nonneg rest).
  assert (len (([Byte.x01] ++ a ++ b) ++ rest) = 17 + len rest) as Hl by (rewrite !len_app, Ha, Hb; change (len [Byte.x01]) with 1; lia).
  rewrite Hl, !(proj2 (Z.leb_le _ _)) by lia.
  assert (sub (([Byte.x01] ++ a ++ b) ++ rest) 0 1 = [Byte.x01]) as -> by (by rewrite <- !(assoc_L (++)), sub_app_start).
  assert (sub (([Byte.x01] ++ a ++ b) ++ rest) 1 9 = a) as -> by (rewrite <- !(assoc_L (++)); apply sub_app; [done|by rewrite Ha]).
  assert (sub (([Byte.x01] ++ a ++ b) ++ rest) 9 17 = b) as ->.
  { rewrite <- (assoc_L (++)), <- (assoc_L (++)), (assoc_L (++) [Byte.x01] a). apply sub_app; [by rewrite len_app, Ha|by rewrite Hb]. }
  change (from_be_bytes [Byte.x01] =? 1) with true. cbn [andb]. unfold a, b. by rewrite !from_to_be.
Qed.

Lemma parse_get key rest : is_u64 key -> parse (encode_get key ++ rest) = GetRequest key.
Proof.
  intros Hk. unfold parse, encode_get. set (a := to_be_bytes 8 key). assert (len a = 8) as Ha by apply (len_be 8). pose proof (len_nonneg rest).
  assert (len (([Byte.x02] ++ a) ++ rest) = 9 + len rest) as -> by (rewrite !len_app, Ha; change (len [Byte.x02]) with 1; lia).
  rewrite (proj2 (Z.leb_le 9 _)) by lia. rewrite <- (assoc_L (++)).
  assert (sub ([Byte.x02] ++ a ++ rest) 0 1 = [Byte.x02]) as -> by (by rewrite sub_app_start).
  assert (sub ([Byte.x02] ++ a ++ rest) 1 9 = a) as -> by (apply sub_app; [done|by rewrite Ha]).
  change (from_be_bytes [Byte.x02] =? 1) with false. change (from_be_bytes [Byte.x02] =? 2) with true. cbn [andb]. unfold a. by rewrite from_to_be.
Qed.

Lemma batch_first t : exists rest, batch_buf t = encode_set (wrap64 (t * 10000000)) (wrap64 (wrap64 (t * 10000000) * 2)) ++ rest.
Proof.
  unfold batch_buf. rewrite seqZ_cons by done. rewrite fmap_cons. cbn [concat]. cbv zeta. rewrite Z.add_0_r. by eexists.
Qed.

Lemma len_encode_set key val : len (encode_set key val) = 17.
Proof. unfold encode_set. by rewrite !len_app, !len_be. Qed.

Lemma len_batch t : len (batch_buf t) = 17 * pipeline_depth.
Proof.
  unfold batch_buf. change (17 * pipeline_depth) with (17 * len (seqZ 0 pipeline_depth)). generalize (seqZ 0 pipeline_depth) as l.
  induction l as [|i l IH]; [done|]. rewrite fmap_cons. cbn [concat]. by rewrite len_app, len_encode_set, IH, len_cons, Z.mul_add_distr_l.
Qed.

(** ** Theorems *)

Section theorems.
  Context {D : Type} `{SS : StoreSpec D} (core_id listen_fd : Z) (Hlisten : is_i32 listen_fd).
  Implicit Types (w : Worker (D := D)).

(** C12: A received buffer is one request.  The loop's step on a receive that filled
    buffer [id] with [n] bytes ends, and does this: a SET (17 bytes or more, first 1) is put under the next
    sequence number, synced when that fails, and handed to the next core's queue
    unless that is full; a GET (9 bytes or more, first 2) of a stored key overwrites the
    buffer's start with the value and prepares its sending; anything else is sent
    back as it came.  A reply is prepared only while the submission ring has room,
    nothing is prepared to receive again, the buffer is recycled at once, and the
    counters count it. *)
Theorem server_answers w log out c pend r : ready core_id w log out (c :: pend) -> local_sequence w <= store_limit ->
  cqe_ok (b_entries (w_bufs w)) (buf_size (w_bufs w)) c -> fills c = true ->
  let id := buffer_id c in let n := res c in let fd := decode_fd (user_data c) in
  let ptr := get_buffer_ptr id (w_bufs w) in
  let req := parse (received w id n) in
  exists u' br', drain_step core_id listen_fd r w =
    (count_request n (set_w_bufs br' (set_ring u' (serve core_id req ptr w))), Ok (Draining true)) /\
    recycle id (w_bufs w) = Ok br' /\
    ring_has u' (foldl (fun out f => added (sq_entries (w_ring w)) out (f sqe_default)) out (reply req fd ptr n w)) pend.
Proof. intros Hr Hlim Hc Hf. by apply (drain_step_recv core_id listen_fd w log out c pend r). Qed.

(** Reads see the writes: for a GET whose key has an accepted write, the worker
    prepares a reply of 8 bytes at the buffer, which then holds the value of one of
    the key's accepted writes; for any other key nothing is sent and the buffer is
    as it was. *)
Theorem server_reads_writes w log out c pend r key : ready core_id w log out (c :: pend) -> local_sequence w <= store_limit ->
  cqe_ok (b_entries (w_bufs w)) (buf_size (w_bufs w)) c -> fills c = true -> len out < sq_entries (w_ring w) ->
  parse (received w (buffer_id c) (res c)) = GetRequest key ->
  let w' := (drain_step core_id listen_fd r w).1 in
  let send := prep_send sqe_default (decode_fd (user_data c)) (get_buffer_ptr (buffer_id c) (w_bufs w)) 8 in
  ((to_be_bytes 8 key ∈ ekey <$> log) /\ ring_has (w_ring w') (out ++ [send]) pend /\
     exists val q, is_u64 val /\ ((to_be_bytes 8 key, Some (to_be_bytes 8 val), q) ∈ log) /\ received w' (buffer_id c) 8 = to_be_bytes 8 val) \/
  ((to_be_bytes 8 key ∉ ekey <$> log) /\ ring_has (w_ring w') out pend /\ memory w' = memory w).
Proof.
  intros Hr Hlim Hc Hf Hroom Hp w' send. subst w'. pose proof Hc as (_ & _ & Hfill). destruct (Hfill Hf) as [Hid Hn].
  destruct (drain_step_recv core_id listen_fd w log out c pend r Hr Hlim Hc Hf) as (u' & br' & -> & Hrec & Hu). rewrite Hp in *. cbn [fst].
  pose proof (stored_value_at w log key (rd_store _ _ _ _ _ Hr)) as Hv. destruct (db_get _ _) as [x| | |]; try done.
  destruct Hv as ([Hnone Hsome] & Hnv & Hsv). pose proof (rd_memory _ _ _ _ _ Hr) as Hm.
  destruct (recycle_bufs _ _ (rd_bufs _ _ _ _ _ Hr) Hid) as (br2 & Hrec2 & _ & S1 & S2 & S3). rewrite Hrec in Hrec2. injection Hrec2 as <-.
  assert (9 <= res c) as H9.
  { unfold parse in Hp. assert (len (received w (buffer_id c) (res c)) = res c) as Hl.
    { unfold received. unfold fills in Hf. apply andb_true_iff in Hf as [[_ ?%Z.ltb_lt]%andb_true_iff _]. rewrite len_sub by nia. lia. }
    rewrite Hl in Hp. by destruct (Z.leb_spec 9 (res c)). }
  destruct x as [[v q]|].
  - left. destruct (Hsv _ _ eq_refl) as [Heq (val & Hval & ->)]. split; [|split].
    + apply dec_stable. intros Hni. by apply Hnone in Hni.
    + cbn [reply] in Hu. rewrite Heq in Hu. cbn [foldl] in Hu. unfold added in Hu. by rewrite (proj2 (Z.ltb_lt _ _)) in Hu.
    + destruct (Hsome _ eq_refl) as (e & He & Hk & Hev). exists val, q. split; [done|]. split.
      * destruct e as [[k v] q']. cbn in Hk, Hev. unfold eval in Hev. cbn in Hev. by injection Hev as -> ->; subst k.
      * unfold received. cbn. rewrite S3. rewrite Heq. cbn. unfold get_buffer_ptr.
        replace (buf_storage (w_bufs w) + buffer_id c * buf_size (w_bufs w) - buf_storage (w_bufs w)) with (buffer_id c * buf_size (w_bufs w)) by lia.
        apply sub_splice_same; [nia|rewrite len_be; lia|nia].
  - right. assert (stored_value w key = None) as Hnone' by (by apply Hnv). split; [by apply Hnone|].
    cbn [reply serve] in *. rewrite Hnone' in *. by split.
Qed.

(** A request for two is one: of the 16 writes that the load generator sends at
    once, a worker that receives them in one buffer stores the first and drops the
    others. *)
Theorem server_drops_pipelined w log out c pend r t : ready core_id w log out (c :: pend) -> local_sequence w <= store_limit ->
  cqe_ok (b_entries (w_bufs w)) (buf_size (w_bufs w)) c -> fills c = true -> res c = len (batch_buf t) ->
  received w (buffer_id c) (res c) = batch_buf t ->
  let w' := (drain_step core_id listen_fd r w).1 in
  let key := wrap64 (t * 10000000) in
  db_node w' = db_node (put_or_sync key (wrap64 (key * 2)) w) /\ local_sequence w' = local_sequence w + 1 /\
  ring_has (w_ring w') out pend /\ recycle (buffer_id c) (w_bufs w) = Ok (w_bufs w').
Proof.
  intros Hr Hlim Hc Hf Hn Hb w' key. subst w'. destruct (drain_step_recv core_id listen_fd w log out c pend r Hr Hlim Hc Hf) as (u' & br' & -> & Hrec & Hu).
  destruct (batch_first t) as [rest Hrest]. fold key in Hrest. rewrite Hb, Hrest in Hu |- *.
  assert (is_u64 key /\ is_u64 (wrap64 (key * 2))) as [Hk Hv] by (split; apply Z.mod_pos_bound; lia).
  rewrite parse_set in Hu |- * by done. cbn [fst reply foldl] in Hu |- *. pose proof (rd_store _ _ _ _ _ Hr) as Hs.
  destruct (put_at w log key (wrap64 (key * 2)) Hs Hlim Hk Hv) as (d & x & log' & Hput & _ & Hseq & _).
  cbn [serve]. unfold put_or_sync. rewrite Hput. cbn. by split_and!.
Qed.

(** A round ends: with no completions posted behind [submit_and_wait], the worker
    applies at most 16 tasks, handles every completion, and is back before the next
    round, with nothing left to reap; it fails only with the kernel's error, and
    never panics. *)
Theorem server_round_ends w log out pend enter taken posted fuel : ready core_id w log out pend -> tagged_out out ->
  enter_ok enter (w_ring w) taken posted -> Forall (cqe_ok (b_entries (w_bufs w)) (buf_size (w_bufs w))) (pend ++ posted) ->
  local_sequence w + 16 + len (pend ++ posted) <= store_limit -> (length (pend ++ posted) < fuel)%nat ->
  match round core_id listen_fd enter fuel w with
  | (w', Ok _) => exists log' out', ready core_id w' log' out' [] /\ tagged_out out' /\ log_extends log log' /\
      local_sequence w <= local_sequence w' <= local_sequence w + 16 + len (pend ++ posted)
  | (_, Err e) => (submit_and_wait enter 1 (w_ring w)).2 = Err e
  | _ => False
  end.
Proof.
  intros Hr Ho Hk Hc Hlim Hf. pose proof (len_nonneg (pend ++ posted)). unfold round, mbind at 1, st_bind at 1.
  pose proof (begin_round_post core_id w log out pend enter taken posted Hr Hk) as Hb. unfold room_for_writes in Hb.
  destruct (begin_round core_id enter w) as [w1 r] eqn:Hbegin. destruct Hb as [(out' & log' & -> & Hr' & He & Hs & F1 & F2 & F3) Hsafe]; [lia|].
  destruct r as [[]|e| |]; try done.
  - apply Forall_app in Ho as [_ Ho].
    pose proof (wp_drain core_id listen_fd Hlisten fuel w1 log' out' (pend ++ posted) false Hr' Ho) as Hd. unfold wp in Hd. rewrite F1 in Hd.
    specialize (Hd Hc ltac:(lia) Hf). destruct (drain _ _ _ _ _) as [w2 [[]|e| |]]; try done.
    destruct Hd as (log2 & out2 & Hr2 & Ho2 & He2 & Hs2). exists log2, out2. split; [done|]. split; [done|].
    split; [by eapply log_extends_trans|lia].
  - unfold begin_round, mbind, st_bind in Hbegin. pose proof (wait_round_post core_id w log _ pend enter taken posted Hr Hk) as Hw.
    unfold wait_round, on_ring in *.
    destruct (submit_and_wait enter 1 (w_ring w)) as [u x]. destruct Hw as [(out2 & u' & _ & _ & Hr1) _].
    destruct x as [n|e'| |]; [|by injection Hbegin as _ ->|done|done].
    pose proof (wp_apply_tasks core_id 16 _ _ _ _ Hr1) as Ht. unfold wp in Ht. cbn [local_sequence set_ring] in Ht. rewrite Hbegin in Ht.
    exfalso. apply Ht. lia.
Qed.

End theorems.

(** ** A small worker

    A store that keeps the log in memory, and a ring of 4 with 2 buffers. *)

#[export] Instance log_store : Store (list entry) := {
  db_put k v q d := (d ++ [(k, Some v, q)], Ok tt);
  db_get d k := Ok (eval <$> last (filter (fun e => ekey e = k) d));
  db_sync d := d;
  db_background d d' := d' = d
}.

#[export] Instance log_store_spec : StoreSpec (list entry).
Proof.
  refine {| represents := fun d log _ => d = log; store_limit := 2 ^ 40 |}; try done.
  - intros d log n k v seq -> _ _. done.
  - intros d log n k ->. eexists. split; [done|]. split.
    + rewrite fmap_None, last_None. split.
      * intros Hf (e & -> & He)%list_elem_of_fmap. assert (e ∈ filter (fun x => ekey x = ekey e) log) as Hin by (by apply list_elem_of_filter).
        rewrite Hf in Hin. by apply elem_of_nil in Hin.
      * intros Hni. apply elem_of_nil_inv. intros e [Hk He]%list_elem_of_filter. apply Hni. rewrite <- Hk. by apply list_elem_of_fmap_2.
    + intros v (e & Hl & ->)%fmap_Some. exists e. apply last_Some_elem_of in Hl. by apply list_elem_of_filter in Hl as [? ?].
  - intros d d' log n -> ->. done.
Defined.

Definition small_ring : Uring := mk_Uring 0 0 3 4 (seqZ 0 4) (replicate 4 sqe_default) 0 0 7 8 (replicate 8 (mk_cqe 0 0 0)) 0 0.
Definition small_bufs : BufRing := match (BufRing_new example_alloc 0 2 512).2 with Ok r => r | _ => no_ring end.
Definition small_worker : Worker := mk_Worker small_ring small_bufs (zeros 1024) ([] : list entry) 1 [[]] [] 0 0.

(** [bs] arrives in buffer [id] for descriptor [fd]. *)
Definition arrive (fd id : Z) (bs : bytes) (w : Worker (D := list entry)) : Worker :=
  set_ring (post_cqe (w_ring w) (mk_cqe (encode_user_data fd IORING_OP_RECV) (len bs) (Z.lor 3 (Z.shiftl id 16))))
    (set_memory (splice (memory w) (id * 512) bs) w).
Definition step (w : Worker (D := list entry)) : Worker := (drain_step 0 3 false w).1.

Definition wrote : Worker := step (arrive 5 0 (encode_set 7 42) small_worker).
Definition asked : Worker := arrive 5 1 (encode_get 7) wrote.

Lemma post_at g u out pend c : rings_at g u out pend -> len pend < cq_entries u ->
  rings_at (mk_counters (H g) (T g) (L g) (C g) (CH g) (CT g + 1)) (post_cqe u c) out (pend ++ [c]).
Proof.
  intros Hr Hroom. pose proof (at_cq _ _ _ _ Hr) as Hs. pose proof (at_cq_order _ _ _ _ Hr) as Ho. pose proof (at_pend _ _ _ _ Hr) as Hp.
  destruct (at_values _ _ _ _ Hr) as (? & ? & ? & ? & ? & Hct). destruct (at_lens _ _ _ _ Hr) as (? & ? & Hl3).
  pose proof (mod_in _ _ (CT g) Hs) as Hidx. unfold post_cqe. rewrite Hct, (ring_index _ _ _ Hs).
  split; cbn; try apply Hr; try done; try lia.
  - unfold len in *. by rewrite length_insert.
  - rewrite wrap32_idem_add. done.
  - rewrite len_app. change (len [c]) with 1. lia.
  - intros j e [Hj|[Hge Hj]]%lookup_app_Some.
    + pose proof (lookup_lt_Some _ _ _ Hj) as Hlt. unfold len in Hp, Hroom. rewrite list_lookup_insert_ne; [by apply (at_cqes _ _ _ _ Hr)|].
      pose proof (mod_in _ _ (CH g + Z.of_nat j) Hs). intros Heq. apply (mod_neq (CH g + Z.of_nat j) (CT g) (cq_entries u)); [|lia..].
      by eapply ring_size_pos.
    + unfold len in *. apply list_lookup_singleton_Some in Hj as [Hj <-].
      replace (CH g + Z.of_nat j) with (CT g) by lia. apply list_lookup_insert_eq. lia.
Qed.

Lemma small_ready : ready 0 small_worker [] [] [].
Proof.
  split; [exists (mk_counters 0 0 0 0 0 0)|..].
  - split; try done; try (by vm_compute). intros i Hi. apply lookup_seqZ. cbn in Hi. lia.
  - split; [by split|done|by vm_compute| |done]. intros e He. repeat (apply elem_of_cons in He as [->|He]; [by vm_compute|]).
    by apply elem_of_nil in He.
  - by vm_compute.
  - split; try done; by constructor.
  - by vm_compute.
  - repeat constructor.
Qed.

Lemma arrive_ready w log out pend fd id bs : ready 0 w log out pend -> len pend < cq_entries (w_ring w) ->
  0 <= id -> id * 512 + len bs <= len (memory w) ->
  ready 0 (arrive fd id bs w) log out (pend ++ [mk_cqe (encode_user_data fd IORING_OP_RECV) (len bs) (Z.lor 3 (Z.shiftl id 16))]).
Proof.
  intros [[g H1] H2 H3 H4 H5 H6] Hroom Hid Hin. pose proof (len_nonneg bs). split; try done.
  - eexists. by apply post_at.
  - cbn. rewrite len_splice; lia.
  - by apply (store_holds_same w).
Qed.

Definition set_arrived : Worker := arrive 5 0 (encode_set 7 42) small_worker.
Definition recv_cqe (fd id n : Z) : io_uring_cqe := mk_cqe (encode_user_data fd IORING_OP_RECV) n (Z.lor 3 (Z.shiftl id 16)).

Lemma recv_cqe_ok fd id n : is_i32 fd -> 0 <= id < 2 -> 0 <= n <= 512 -> cqe_ok 2 512 (recv_cqe fd id n) /\ buffer_id (recv_cqe fd id n) = id.
Proof.
  intros Hfd Hid Hn. assert (buffer_id (recv_cqe fd id n) = id) as Hb by (assert (id = 0 \/ id = 1) as [-> | ->] by lia; by vm_compute).
  split; [|done]. split; [|split].
  - right; left. cbn. by apply decode_op_encode.
  - cbn. unfold is_i32. lia.
  - intros _. rewrite Hb. cbn. lia.
Qed.

Lemma set_arrived_ready : ready 0 set_arrived [] [] [recv_cqe 5 0 17].
Proof. apply (arrive_ready _ _ _ [] 5 0 (encode_set 7 42) small_ready); by vm_compute. Qed.

Lemma server_answers_witness : parse (received set_arrived 0 17) = SetRequest 7 42 /\
  exists u' br', drain_step 0 3 false set_arrived =
    (count_request 17 (set_w_bufs br' (set_ring u' (serve 0 (SetRequest 7 42) 65536 set_arrived))), Ok (Draining true)) /\ ring_has u' [] [].
Proof.
  split; [vm_compute; reflexivity|].
  destruct (server_answers 0 3 set_arrived [] [] (recv_cqe 5 0 17) [] false set_arrived_ready) as (u' & br' & H1 & _ & H3).
  - cbn. lia.
  - apply recv_cqe_ok; unfold is_i32; lia.
  - vm_compute. reflexivity.
  - exists u', br'. replace (parse (received set_arrived (buffer_id (recv_cqe 5 0 17)) (res (recv_cqe 5 0 17)))) with (SetRequest 7 42) in H1, H3 by (vm_compute; reflexivity).
    split; [exact H1|exact H3].
Defined.

(** Handling a receive leaves the worker ready, with the reply prepared. *)
Lemma step_ready w log c pend : ready 0 w log [] (c :: pend) -> cqe_ok (b_entries (w_bufs w)) (buf_size (w_bufs w)) c -> fills c = true ->
  local_sequence w <= 2 ^ 40 -> reply (parse (received w (buffer_id c) (res c))) 0 0 0 w = [] ->
  ready 0 (step w) (db_node (step w)) [] pend.
Proof.
  intros Hr Hc Hf Hlim Hrep.
  destruct (wp_Ok _ _ _ (wp_drain_some 0 3 ltac:(done) w log [] c pend false Hr ltac:(by constructor) Hlim Hc)) as (p & w' & Hs & _ & log' & out' & Hr' & _).
  destruct (drain_step_recv 0 3 w log [] c pend false Hr Hlim Hc Hf) as (u' & br' & Hs2 & _ & Hu).
  assert (step w = w') as -> by (unfold step; by rewrite Hs). rewrite Hs in Hs2. apply pair_equal_spec in Hs2 as [-> _].
  destruct Hr' as [_ H2 H3 H4 H5 H6]. pose proof (sh_represents _ _ H4) as Hlog. cbn [represents log_store_spec] in Hlog. rewrite Hlog.
  split; try done. cbn. destruct (parse _); cbn [reply] in *; [exact Hu| |done]. destruct (stored_value w key); [done|exact Hu].
Qed.

Lemma wrote_ready : ready 0 wrote (db_node wrote) [] [].
Proof.
  assert (cqe_ok 2 512 (recv_cqe 5 0 17)) as Hc by (apply recv_cqe_ok; unfold is_i32; lia).
  assert (parse (received set_arrived (buffer_id (recv_cqe 5 0 17)) (res (recv_cqe 5 0 17))) = SetRequest 7 42) as Hp by (vm_compute; reflexivity).
  apply (step_ready set_arrived [] (recv_cqe 5 0 17) [] set_arrived_ready Hc); [vm_compute; reflexivity|cbn; lia|by rewrite Hp].
Qed.

Lemma asked_ready : ready 0 asked (db_node wrote) [] [recv_cqe 5 1 9].
Proof.
  apply (arrive_ready wrote (db_node wrote) [] [] 5 1 (encode_get 7)); [exact wrote_ready|vm_compute; reflexivity|done|vm_compute; discriminate].
Qed.

Lemma server_reads_writes_witness : received (step asked) 1 8 = to_be_bytes 8 42 /\
  exists val q, ((to_be_bytes 8 7, Some (to_be_bytes 8 val), q) ∈ db_node wrote) /\ received (step asked) 1 8 = to_be_bytes 8 val.
Proof.
  split; [vm_compute; reflexivity|].
  assert (cqe_ok 2 512 (recv_cqe 5 1 9)) as Hc by (apply recv_cqe_ok; unfold is_i32; lia).
  destruct (server_reads_writes 0 3 asked (db_node wrote) [] (recv_cqe 5 1 9) [] false 7 asked_ready ltac:(vm_compute; discriminate) Hc
    ltac:(vm_compute; reflexivity) ltac:(vm_compute; reflexivity) ltac:(vm_compute; reflexivity)) as [(_ & _ & val & q & _ & Hin & Hr)|(Hni & _)].
  - exists val, q. split; [exact Hin|exact Hr].
  - exfalso. apply Hni. replace (db_node wrote) with [(to_be_bytes 8 7, Some (to_be_bytes 8 42), 1)] by (vm_compute; reflexivity). left.
Defined.

(** Thread 0 of the load generator. *)
Definition batch_arrived : Worker := arrive 5 0 (batch_buf 0) small_worker.

Lemma server_drops_pipelined_witness : length (db_node (step batch_arrived)) = 1%nat /\ local_sequence (step batch_arrived) = 2.
Proof.
  split; [vm_compute; reflexivity|].
  assert (ready 0 batch_arrived [] [] [recv_cqe 5 0 272]) as Hr by (apply (arrive_ready _ _ _ [] 5 0 (batch_buf 0) small_ready); by vm_compute).
  assert (cqe_ok 2 512 (recv_cqe 5 0 272)) as Hc by (apply recv_cqe_ok; unfold is_i32; lia).
  destruct (server_drops_pipelined 0 3 batch_arrived [] [] (recv_cqe 5 0 272) [] false 0 Hr ltac:(vm_compute; discriminate) Hc
    ltac:(vm_compute; reflexivity) ltac:(vm_compute; reflexivity) ltac:(vm_compute; reflexivity)) as (_ & Hs & _).
  exact Hs.
Defined.

Definition round_enter : syscall_enter := kernel_enter 0 0 [recv_cqe 5 0 17].
Definition round_start : Worker := set_memory (memory set_arrived) small_worker.

Lemma round_enter_ok : enter_ok round_enter (w_ring round_start) [] [recv_cqe 5 0 17].
Proof.
  intros a b c. split.
  - vm_compute. reflexivity.
  - vm_compute. discriminate.
  - intros j e Hj. by rewrite lookup_nil in Hj.
  - vm_compute. reflexivity.
  - vm_compute. discriminate.
  - vm_compute. reflexivity.
  - intros j e [-> <-]%list_lookup_singleton_Some. vm_compute. reflexivity.
  - intros j Hj. assert (wrap32 (cq_tail (publish (w_ring round_start)) - cq_head (publish (w_ring round_start))) = 0) as Hz by (vm_compute; reflexivity). lia.
  - vm_compute. by split_and!.
Qed.

Lemma server_round_ends_witness : exists w' log' out', round 0 3 round_enter 2 round_start = (w', Ok tt) /\ ready 0 w' log' out' [].
Proof.
  assert (ready 0 round_start [] [] []) as Hr.
  { destruct small_ready as [H1 H2 H3 H4 H5 H6]. split; try done. by apply (store_holds_same small_worker). }
  pose proof (server_round_ends 0 3 ltac:(done) round_start [] [] [] round_enter [] [recv_cqe 5 0 17] 2 Hr ltac:(by constructor) round_enter_ok) as H.
  cbn [app] in H. specialize (H ltac:(apply Forall_singleton, recv_cqe_ok; unfold is_i32; lia) ltac:(vm_compute; discriminate) ltac:(cbn; lia)).
  assert (exists w, round 0 3 round_enter 2 round_start = (w, Ok tt)) as [w Hw] by (exists (round 0 3 round_enter 2 round_start).1; vm_compute; reflexivity).
  rewrite Hw in H. destruct H as (log' & out' & Hr' & _). exists w, log', out'. split; [exact Hw|exact Hr'].
Defined.
