(* ===== verification/Clients.v ===== *)
(** * The programs around the server (uring-engine/src/bin)

    [bench.rs] and [load_gen.rs], which talk to the server, and [tokio_server.rs], the
    echo server it is compared with.  Sockets are what they return: the chunks TCP
    delivers, and whether a write succeeds.

    [bench_is_echoed]: the server of Server.v sends every chunk of the benchmark's stream
    back as it came, however TCP cuts it, and changes nothing else; so does the baseline
    ([tokio_echoes]), and against either every round of the benchmark counts
    ([bench_counts]).  [torn_request_misread]: requests that TCP cuts are read as other
    requests.  [load_thread_counts], [load_report_adds_up]: the load generator's
    counter. *)

From Stdlib Require Import String.
From stdpp Require Import strings.
From S2P Require Import Prelude.
From S2P Require Import Block.
From S2P Require Import MemTable.
From S2P Require Import UringOp.
From S2P Require Import Uring.
From S2P Require Import BufRing.
From S2P Require Import Server.
#[local] Open Scope Z_scope.

(** ** tokio_server.rs *)

(** What [read] and [write_all] return. *)
Inductive read_result := ReadOk (bs : bytes) | ReadErr.

(** One connection's task: the bytes written, and whether it returned.  [ok] is the
    result of writing that chunk back. *)
Fixpoint tokio_task (reads : list (read_result * bool)) : bytes * bool :=
  match reads with
  | [] => ([], false)
  | (ReadErr, _) :: _ => ([], true)
  | (ReadOk [], _) :: _ => ([], true)
  | (ReadOk bs, ok) :: reads => if ok then let '(out, over) := tokio_task reads in (bs ++ out, over) else (bs, true)
  end.

(** While the connection lives it is an echo, in order, whatever the chunks. *)
Theorem tokio_echoes (chunks : list bytes) (rest : list (read_result * bool)) (Hne : Forall (fun c => c <> []) chunks) :
  tokio_task (((fun c => (ReadOk c, true)) <$> chunks) ++ rest) = (concat chunks ++ (tokio_task rest).1, (tokio_task rest).2).
Proof.
  induction Hne as [|c chunks Hc _ IH]; cbn [fmap list_fmap app concat]; [by destruct (tokio_task rest)|].
  destruct c as [|b c]; [done|]. cbn [tokio_task]. rewrite IH. cbn [concat]. by rewrite (assoc_L (++)).
Qed.

(** ** bench.rs *)

Definition PAYLOAD : bytes := list_byte_of_string "PING_PAYLOAD_32_BYTES_RECORD_OK!".

(** [read_exact] of [n] bytes from what has arrived and will; [None] is the error. *)
Definition read_exact (n : nat) (incoming : bytes) : option (bytes * bytes) :=
  if (n <=? length incoming)%nat then Some (take n incoming, drop n incoming) else None.

(** A connection's loop for some rounds, with a peer that answers [peer s] to the stream
    [s]; the rounds it counts. *)
Fixpoint bench_conn (rounds : nat) (peer : bytes -> bytes) (sent got : bytes) (ops : Z) : Z :=
  match rounds with
  | O => ops
  | S rounds =>
      let sent := sent ++ PAYLOAD in
      match read_exact (length PAYLOAD) (drop (length got) (peer sent)) with
      | Some (buf, _) => bench_conn rounds peer sent (got ++ buf) (wrap64 (ops + 1))
      | None => ops
      end
  end.

Lemma bench_conn_echo n peer s ops : (forall s, peer s = s) -> 0 <= ops -> ops + Z.of_nat n < 2 ^ 64 ->
  bench_conn n peer s s ops = ops + Z.of_nat n.
Proof.
  intros Hp. revert s ops. induction n as [|n IH]; intros s ops Hlo Hhi; cbn [bench_conn]; [lia|].
  rewrite Hp, drop_app_length. unfold read_exact. rewrite Nat.leb_refl, firstn_all.
  rewrite wrap64_small by (unfold is_u64; lia). rewrite IH; lia.
Qed.

(** Against an echo every round of a connection counts, and no round waits for ever. *)
Theorem bench_counts (rounds : nat) (peer : bytes -> bytes) (Hecho : forall s, peer s = s) (Hb : Z.of_nat rounds < 2 ^ 64) :
  bench_conn rounds peer [] [] 0 = Z.of_nat rounds.
Proof. by apply bench_conn_echo. Qed.

(** ** The benchmark and the server *)

(** A request is a SET or a GET by its first byte. *)
Lemma parse_other b bs : b <> Byte.x01 -> b <> Byte.x02 -> parse (b :: bs) = Echo.
Proof.
  intros H1 H2. unfold parse. destruct (9 <=? len (b :: bs)); [|done].
  assert (sub (b :: bs) 0 1 = [b]) as -> by done. assert (from_be_bytes [b] <> 1 /\ from_be_bytes [b] <> 2) as [Hn1 Hn2].
  { split; intros Hf; [apply H1 | apply H2]; apply (f_equal (to_be_bytes 1)) in Hf; rewrite (to_from_be 1) in Hf by done;
      injection Hf as ->; done. }
  by rewrite (proj2 (Z.eqb_neq _ _) Hn1), (proj2 (Z.eqb_neq _ _) Hn2).
Qed.

(** A piece of the benchmark's stream. *)
Definition bench_piece (chunk : bytes) : Prop := exists a b k, a ++ chunk ++ b = concat (replicate k PAYLOAD).

Lemma bench_piece_echo chunk : bench_piece chunk -> parse chunk = Echo.
Proof.
  intros (a & b & k & Heq). destruct chunk as [|x chunk]; [done|].
  assert (x ∈ concat (replicate k PAYLOAD)) as Hx by (rewrite <- Heq; apply elem_of_app; right; left).
  assert (x ∈ PAYLOAD) as Hp.
  { clear Heq. induction k as [|k IH]; cbn [replicate concat] in Hx; [inversion Hx|].
    apply elem_of_app in Hx as [Hx | Hx]; [done | by apply IH]. }
  apply parse_other; intros ->; revert Hp; apply (bool_decide_eq_false_1 (_ ∈ PAYLOAD)); by vm_compute.
Qed.

Section served.
  Context {D : Type} `{SS : StoreSpec D} (core_id listen_fd : Z) (Hlisten : is_i32 listen_fd).
  Implicit Types (w : Worker (D := D)).

(** The server is an echo to the benchmark: when a worker receives a piece of the benchmark's
    stream, cut anywhere, its step prepares to send exactly those bytes back, as the baseline
    does, while the store, the queues, the memory and the sequence number stay as they are. *)
Theorem bench_is_echoed w log out c pend r : ready core_id w log out (c :: pend) -> local_sequence w <= store_limit ->
  cqe_ok (b_entries (w_bufs w)) (buf_size (w_bufs w)) c -> fills c = true -> bench_piece (received w (buffer_id c) (res c)) ->
  let w' := (drain_step core_id listen_fd r w).1 in
  let send := prep_send sqe_default (decode_fd (user_data c)) (get_buffer_ptr (buffer_id c) (w_bufs w)) (res c) in
  ring_has (w_ring w') (added (sq_entries (w_ring w)) out send) pend /\
  received w' (buffer_id c) (res c) = received w (buffer_id c) (res c) /\
  (db_node w', queues w', local_sequence w', memory w') = (db_node w, queues w, local_sequence w, memory w) /\
  (received w (buffer_id c) (res c) <> [] ->
   tokio_task [(ReadOk (received w (buffer_id c) (res c)), true)] = (received w' (buffer_id c) (res c), false)).
Proof.
  intros Hr Hlim Hc Hf Hp w' send. subst w'.
  destruct (drain_step_recv core_id listen_fd w log out c pend r Hr Hlim Hc Hf) as (u' & br' & -> & Hrec & Hu).
  rewrite (bench_piece_echo _ Hp) in Hu |- *. cbn [reply foldl serve fst] in Hu |- *.
  assert (received (count_request (res c) (set_w_bufs br' (set_ring u' w))) (buffer_id c) (res c) = received w (buffer_id c) (res c)) as Hrcv.
  { destruct Hc as (_ & _ & Hfill). destruct (Hfill Hf) as [Hid _].
    destruct (recycle_bufs _ _ (rd_bufs _ _ _ _ _ Hr) Hid) as (br2 & Hrec2 & _ & _ & _ & Hsize).
    rewrite Hrec in Hrec2. injection Hrec2 as <-. unfold received. cbn. by rewrite Hsize. }
  split; [exact Hu|]. split; [exact Hrcv|]. split; [done|]. rewrite Hrcv. intros Hne.
  destruct (received w (buffer_id c) (res c)) as [|x bs]; [done|]. cbn [tokio_task]. by rewrite app_nil_r.
Qed.
End served.

(** ** Requests that TCP cuts *)

(** The server reads every receive as a request of its own.  A SET that arrives in two pieces,
    cut before the last byte of the key 2, is sent back as it came, eight bytes of it, and then
    answered as a GET of the value; the batch of the load generator's first thread, cut
    eight bytes into the second request, writes 2^56 under the key 2, which nobody sent. *)
Theorem torn_request_misread :
  (forall val, is_u64 val -> parse (encode_set 2 val) = SetRequest 2 val /\
     parse (take 8 (encode_set 2 val)) = Echo /\ parse (drop 8 (encode_set 2 val)) = GetRequest val) /\
  parse (drop 25 (batch_buf 0)) = SetRequest 2 (2 ^ 56) /\
  (fun i => parse (drop (Z.to_nat (17 * i)) (batch_buf 0))) <$> seqZ 0 16 = (fun i => SetRequest i (2 * i)) <$> seqZ 0 16.
Proof.
  split_and!.
  - intros val Hv. split; [rewrite <- (app_nil_r (encode_set 2 val)); by apply parse_set|].
    assert (encode_set 2 val = Byte.x01 :: replicate 7 Byte.x00 ++ encode_get val) as -> by reflexivity. split; [done|].
    cbn [drop replicate app]. rewrite drop_0, <- (app_nil_r (encode_get val)). by apply parse_get.
  - by vm_compute.
  - by vm_compute.
Qed.

(** ** load_gen.rs *)

(** A thread's loop: each turn writes the batch to every stream and counts the writes that
    succeed; a turn without one is the last.  [turns] are the results of the writes. *)
Fixpoint load_thread (turns : list (list bool)) (total_ops : Z) : Z :=
  match turns with
  | [] => total_ops
  | results :: turns =>
      let total_ops := foldl (fun ops ok => if ok : bool then wrap64 (ops + pipeline_depth) else ops) total_ops results in
      let active_streams := len (filter (fun ok => ok = true) results) in
      if active_streams =? 0 then total_ops else load_thread turns total_ops
  end.

(** The reports, one a second: the difference and the total. *)
Fixpoint load_reports (totals : list Z) (last_ops : Z) : list (Z * Z) :=
  match totals with
  | [] => []
  | current_ops :: totals => (wrap64 (current_ops - last_ops), current_ops) :: load_reports totals current_ops
  end.

Definition accepted (turns : list (list bool)) : Z := len (filter (fun ok => ok = true) (concat turns)).

Lemma turn_counts results ops : 0 <= ops -> ops + pipeline_depth * len (filter (fun ok => ok = true) results) < 2 ^ 64 ->
  foldl (fun ops ok => if ok : bool then wrap64 (ops + pipeline_depth) else ops) ops results =
    ops + pipeline_depth * len (filter (fun ok => ok = true) results).
Proof.
  revert ops. induction results as [|ok results IH]; intros ops Hlo Hhi; [unfold len; cbn; lia|]. cbn [foldl]. rewrite filter_cons in *.
  destruct (decide (ok = true)) as [-> | Hok]; [|destruct ok; [done|]; by apply IH].
  rewrite len_cons in *. pose proof (len_nonneg (filter (fun ok => ok = true) results)). unfold pipeline_depth in *.
  rewrite wrap64_small by (unfold is_u64; lia). rewrite IH; lia.
Qed.

(** A thread counts 16 operations for every write that succeeded until a turn in which none did. *)
Theorem load_thread_counts (turns : list (list bool)) (ops : Z) (Hops : 0 <= ops)
    (Hmax : ops + pipeline_depth * accepted turns < 2 ^ 64) :
  exists done rest, turns = done ++ rest /\ load_thread turns ops = ops + pipeline_depth * accepted done /\
    (rest = [] \/ exists results, last done = Some results /\ Forall (fun ok => ok = false) results).
Proof.
  revert ops Hops Hmax. induction turns as [|results turns IH]; intros ops Hops Hmax.
  { exists [], []. unfold accepted, len; cbn. split_and!; [done | lia | by left]. }
  unfold accepted in *. cbn [concat] in Hmax. rewrite filter_app, len_app in Hmax. cbn [load_thread].
  set (n := len (filter (fun ok => ok = true) results)) in *. pose proof (len_nonneg (filter (fun ok => ok = true) (concat turns))).
  assert (0 <= n) as Hn by apply len_nonneg. unfold pipeline_depth in *.
  rewrite turn_counts by (fold n; unfold pipeline_depth; lia). fold n. unfold pipeline_depth. destruct (Z.eqb_spec n 0) as [Hz | Hz].
  - exists [results], turns. split; [done|]. cbn [concat]. rewrite app_nil_r. fold n. split; [done|]. right. exists results. split; [done|].
    apply Forall_forall. intros ok Hok. destruct ok; [|done]. exfalso.
    assert (true ∈ filter (fun ok => ok = true) results) as Hin by (by apply list_elem_of_filter).
    unfold n, len in Hz. destruct (filter _ results); [inversion Hin | cbn in Hz; lia].
  - destruct (IH (ops + 16 * n)) as (d & rest & -> & Heq & Hend); [lia | lia|]. exists (results :: d), rest. split; [done|].
    rewrite Heq. cbn [concat]. rewrite filter_app, len_app. fold n. split; [lia|].
    destruct Hend as [-> | (x & Hx & Hall)]; [by left|]. right. exists x. split; [|done]. destruct d; [done|]. by rewrite last_cons_cons.
Qed.

(** The reports add up: as the counter only grows, no difference wraps, and the differences
    are together the last total. *)
Theorem load_report_adds_up (totals : list Z) (last_ops : Z) (Hsort : StronglySorted Z.le (last_ops :: totals))
    (Hu : Forall is_u64 (last_ops :: totals)) :
  Forall (fun r => 0 <= r.1 <= r.2) (load_reports totals last_ops) /\
  foldr Z.add 0 ((load_reports totals last_ops).*1) = default last_ops (last totals) - last_ops.
Proof.
  revert last_ops Hsort Hu. induction totals as [|t totals IH]; intros q Hs Hu; [split; [constructor | cbn; lia]|].
  apply StronglySorted_inv in Hs as [Hs Hall]. apply Forall_cons in Hu as [Hq Hu], Hall as [Hle _].
  destruct (IH t Hs Hu) as [IH1 IH2]. apply Forall_cons in Hu as [Ht _]. cbn [load_reports fmap list_fmap foldr fst].
  unfold is_u64 in *. rewrite wrap64_small by (unfold is_u64; lia). split; [constructor; [cbn; lia | exact IH1]|].
  change (list_fmap _ _ fst (load_reports totals t)) with (load_reports totals t).*1. rewrite IH2, last_cons.
  destruct (last totals); cbn; lia.
Qed.
