(* ===== verification/ClientThreads.v ===== *)
(** * The clients' threads (uring-engine/src/bin/load_gen.rs, bench.rs)

    Both programs spawn workers that add to a shared counter until the main thread
    takes the [running] flag down, joins them and reads the total.  [pool] is the
    main thread and the workers taking turns at every access of the flag and the
    counter; the sockets are what they return.

    A worker is used through [ClientThread] and its laws [ClientThreadSpec]: what a step adds to
    the counter and what it has earned.  Over those, [counter_exact]: whatever the
    interleaving, the counter is what was earned less what is on its way;
    [pool_reports]: the total read at the end is everything that was earned, and the
    reports before it add up; [joined]: once the flag is down every worker ends.
    [load_gen] and [bench] are the two instances. *)

From S2P Require Import Prelude Server Clients.
#[local] Open Scope Z_scope.

(** What a call on a socket returns; a [set_nodelay] that fails panics, which ends
    the thread. *)
Inductive socket := Done | Failed | Panics.

(** ** Workers *)

(** One step of a worker, with the flag as it reads it and the result of its call
    on a socket, where it has one: its next state, and what it adds to the counter. *)
Class ClientThread (W : Type) := {
  act : bool -> socket -> W -> W * Z;
  ended : W -> bool
}.

(** [earned]: what the step is to add to the counter, at once or later; [owed]: what
    has been earned and not added; [left]: the steps a worker has once the flag is
    down. *)
Class ClientThreadSpec (W : Type) `{ClientThread W} := {
  earned : bool -> socket -> W -> Z;
  owed : W -> Z;
  left_ : W -> nat;
  act_owes running r w : owed (act running r w).1 + (act running r w).2 = owed w + earned running r w;
  act_adds running r w : 0 <= (act running r w).2 /\ 0 <= earned running r w /\ 0 <= owed w;
  ended_owes w : ended w = true -> owed w = 0;
  ended_stays running r w : ended w = true -> act running r w = (w, 0) /\ earned running r w = 0;
  stop_ends r w : ended w = false -> ((left_ (act false r w).1) < left_ w)%nat
}.

(** ** load_gen.rs *)

Definition connections_per_thread : nat := 2.
Definition num_threads : nat := 4.

(** Where a worker of the load generator is: [tries] connections to open; at the
    head of the [while] loop; writing to stream [i], [active] writes having
    succeeded in this turn; adding to the counter after such a write. *)
Inductive load_worker :=
| Connecting (tries streams : nat)
| Checking (streams : nat)
| Writing (streams i active : nat)
| Adding (streams i active : nat)
| Ended.

Definition load_act (running : bool) (r : socket) (w : load_worker) : load_worker * Z :=
  match w with
  | Connecting (S n) k => (match r with Done => Connecting n (S k) | Failed => Connecting n k | Panics => Ended end, 0)
  | Connecting O k => (if (k =? 0)%nat then Ended else Checking k, 0)
  | Checking k => (if running then Writing k 0 0 else Ended, 0)
  | Writing k i a =>
      if (i <? k)%nat then (match r with Done => Adding k i a | _ => Writing k (S i) a end, 0)
      else (if (a =? 0)%nat then Ended else Checking k, 0)
  | Adding k i a => (Writing k (S i) (S a), pipeline_depth)
  | Ended => (Ended, 0)
  end.

#[export] Instance load_Client : ClientThread load_worker := {
  act := load_act;
  ended w := match w with Ended => true | _ => false end
}.

(** ** bench.rs *)

Definition CONCURRENT_CONNS : nat := 200.

Inductive bench_worker := BConnecting | BChecking | BWriting | BReading | BAdding | BEnded.

Definition bench_act (running : bool) (r : socket) (w : bench_worker) : bench_worker * Z :=
  match w with
  | BConnecting => (match r with Done => BChecking | _ => BEnded end, 0)
  | BChecking => (if running then BWriting else BEnded, 0)
  | BWriting => (match r with Done => BReading | _ => BEnded end, 0)
  | BReading => (match r with Done => BAdding | _ => BEnded end, 0)
  | BAdding => (BChecking, 1)
  | BEnded => (BEnded, 0)
  end.

#[export] Instance bench_Client : ClientThread bench_worker := {
  act := bench_act;
  ended w := match w with BEnded => true | _ => false end
}.

(** ** The main thread and the workers *)

(** The main thread: [n] reports to make; joining worker [i]; done, with the total
    it read. *)
Inductive main_at := Reporting (n : nat) | Joining (i : nat) | Finished (final_ops : Z).

Record pool (W : Type) := mk_pool {
  running : bool;
  total_ops : Z;
  workers : list W;
  main : main_at;
  totals : list Z;
  all_earned : Z
}.
Arguments mk_pool {W}.
Arguments running {W}.
Arguments total_ops {W}.
Arguments workers {W}.
Arguments main {W}.
Arguments totals {W}.
Arguments all_earned {W}.

Inductive turn := MainTurn | WorkerTurn (i : nat) (r : socket).

Section pool.
  Context {W : Type} `{WS : ClientThreadSpec W}.

(** [main] reads the counter for each report, then takes the flag down, joins the
    workers in order, waiting for each, and reads the counter again.  [totals] are
    the totals reported; [all_earned] is kept for the specification. *)
Definition take_turn (x : turn) (p : pool W) : pool W :=
  match x with
  | MainTurn =>
      match main p with
      | Reporting (S n) => mk_pool (running p) (total_ops p) (workers p) (Reporting n) (totals p ++ [total_ops p]) (all_earned p)
      | Reporting O => mk_pool false (total_ops p) (workers p) (Joining 0) (totals p) (all_earned p)
      | Joining i =>
          match workers p !! i with
          | Some w => if ended w then mk_pool (running p) (total_ops p) (workers p) (Joining (S i)) (totals p) (all_earned p) else p
          | None => mk_pool (running p) (total_ops p) (workers p) (Finished (total_ops p)) (totals p) (all_earned p)
          end
      | Finished _ => p
      end
  | WorkerTurn i r =>
      match workers p !! i with
      | Some w =>
          let '(w', n) := act (running p) r w in
          mk_pool (running p) (wrap64 (total_ops p + n)) (<[i := w']> (workers p)) (main p) (totals p)
            (all_earned p + earned (running p) r w)
      | None => p
      end
  end.

Definition take_turns (xs : list turn) (p : pool W) : pool W := foldl (fun p x => take_turn x p) p xs.

Definition spawned (reports : nat) (ws : list W) : pool W := mk_pool true 0 ws (Reporting reports) [] 0.

Definition all_owed (ws : list W) : Z := foldr Z.add 0 (owed <$> ws).
End pool.

Definition load_gen : pool load_worker := spawned 10 (replicate num_threads (Connecting connections_per_thread 0)).
Definition bench : pool bench_worker := spawned 0 (replicate CONCURRENT_CONNS BConnecting).

(** ** What the workers promise *)

Definition load_left (w : load_worker) : nat :=
  match w with
  | Connecting n _ => n + 2
  | Checking _ => 1
  | Writing k i _ => 2 * (k - i) + 2
  | Adding k i _ => 2 * (k - S i) + 3
  | Ended => 0
  end.

(** A write that succeeds earns the operations of a batch. *)
Definition load_earned (running : bool) (r : socket) (w : load_worker) : Z :=
  match w, r with Writing k i _, Done => if (i <? k)%nat then pipeline_depth else 0 | _, _ => 0 end.

Ltac load_cases :=
  cbn [act load_Client load_act load_earned load_left]; unfold pipeline_depth; repeat match goal with
  | |- context [(?a <? ?b)%nat] => destruct (Nat.ltb_spec a b)
  | |- context [(?a =? 0)%nat] => destruct (Nat.eqb_spec a 0)
  end; cbn.

#[export, refine] Instance load_ClientSpec : ClientThreadSpec load_worker := {
  earned := load_earned;
  owed w := match w with Adding _ _ _ => pipeline_depth | _ => 0 end;
  left_ := load_left
}.
Proof.
  - intros [] [] [[|n] k|k|k i a|k i a|]; load_cases; lia.
  - intros [] [] [[|n] k|k|k i a|k i a|]; load_cases; lia.
  - by intros [].
  - intros running r []; try done.
  - intros [] [[|n] k|k|k i a|k i a|] H; cbn in H; try done; load_cases; lia.
Defined.

(** An answer read earns one. *)
#[export, refine] Instance bench_ClientSpec : ClientThreadSpec bench_worker := {
  earned _ r w := match w, r with BReading, Done => 1 | _, _ => 0 end;
  owed w := match w with BAdding => 1 | _ => 0 end;
  left_ w := match w with BConnecting => 2 | BChecking => 1 | BWriting => 4 | BReading => 3 | BAdding => 2 | BEnded => 0 end%nat
}.
Proof.
  - by intros [] [] [].
  - intros [] [] []; cbn; lia.
  - by intros [].
  - by intros running [] [].
  - intros [] [] H; cbn; (done || lia).
Defined.

Section counting.
  Context {W : Type} `{WS : ClientThreadSpec W}.
  Implicit Types (p : pool W) (ws : list W).

Lemma all_owed_cons w ws : all_owed (w :: ws) = owed w + all_owed ws.
Proof. done. Qed.

Lemma all_owed_insert ws i w w' : ws !! i = Some w -> all_owed (<[i := w']> ws) = all_owed ws - owed w + owed w'.
Proof.
  revert i. induction ws as [|v ws IH]; intros [|i] Hi; try done.
  - injection Hi as ->. change (<[0%nat := w']> (w :: ws)) with (w' :: ws). rewrite !all_owed_cons. lia.
  - change (<[S i := w']> (v :: ws)) with (v :: <[i := w']> ws). rewrite !all_owed_cons, (IH i Hi). lia.
Qed.

Lemma all_owed_nonneg ws : 0 <= all_owed ws.
Proof. induction ws as [|w ws IH]; [done|]. rewrite all_owed_cons. pose proof (act_adds true Done w). lia. Qed.

Lemma all_owed_zero ws : (forall w, w ∈ ws -> owed w = 0) -> all_owed ws = 0.
Proof.
  induction ws as [|w ws IH]; intros Hw; [done|]. rewrite all_owed_cons, (Hw w) by left. rewrite IH; [done|].
  intros v Hv. apply Hw. by right.
Qed.

(** What holds of the pool after any turns. *)
Record counted (p : pool W) : Prop := {
  c_total : total_ops p = wrap64 (all_earned p - all_owed (workers p));
  c_earned : all_owed (workers p) <= all_earned p;
  c_down : match main p with Reporting _ => True | _ => running p = false end;
  c_joined i w : match main p with Reporting _ => False | Joining k => (i < k)%nat | Finished _ => True end ->
    workers p !! i = Some w -> ended w = true;
  c_final f : main p = Finished f -> f = total_ops p /\ all_owed (workers p) = 0;
  c_sorted : all_earned p < 2 ^ 64 -> StronglySorted Z.le (0 :: totals p ++ [total_ops p])
}.

Lemma sorted_bump (l : list Z) x y : StronglySorted Z.le (l ++ [x]) -> x <= y -> StronglySorted Z.le (l ++ [y]).
Proof.
  induction l as [|z l IH]; cbn; intros Hs Hxy; [repeat constructor|]. apply StronglySorted_inv in Hs as [Hs Hall].
  constructor; [by apply IH|]. rewrite Forall_app in *. destruct Hall as [? Hx]. split; [done|].
  apply Forall_cons in Hx as [Hx _]. constructor; [lia|done].
Qed.

Lemma sorted_snoc (l : list Z) x : StronglySorted Z.le (l ++ [x]) -> StronglySorted Z.le ((l ++ [x]) ++ [x]).
Proof.
  induction l as [|z l IH]; cbn; intros Hs; [repeat constructor; done|]. apply StronglySorted_inv in Hs as [Hs Hall].
  constructor; [by apply IH|]. rewrite Forall_app. split; [done|]. by apply Forall_app in Hall as [_ ?].
Qed.

Lemma sorted_last (l : list Z) y x : StronglySorted Z.le (l ++ [y]) -> x ∈ l ++ [y] -> x <= y.
Proof.
  induction l as [|z l IH]; cbn; intros Hs Hx; [by apply list_elem_of_singleton in Hx as ->|].
  apply StronglySorted_inv in Hs as [Hs Hall]. apply elem_of_cons in Hx as [->|Hx]; [|by apply IH].
  rewrite Forall_forall in Hall. apply Hall, elem_of_app. right. by apply list_elem_of_singleton.
Qed.

Lemma spawned_counted reports ws : (forall w, w ∈ ws -> owed w = 0) -> counted (spawned reports ws).
Proof.
  intros Hw. assert (all_owed ws = 0) as H0.
  { by apply all_owed_zero. }
  split; cbn -[all_owed]; rewrite ?H0; try done. intros _. repeat constructor; done.
Qed.

Lemma main_counted p : counted p -> counted (take_turn MainTurn p).
Proof.
  intros [Ht He Hd Hj Hf Hs]. unfold take_turn. destruct (main p) as [[|n]|i|f] eqn:Hm.
  - split; try done; cbn. intros i w Hi. lia.
  - split; try done. intros Hlt. by apply (sorted_snoc (0 :: totals p)), Hs.
  - destruct (workers p !! i) as [w|] eqn:Hw.
    + destruct (ended w) eqn:Hen; [|by split; rewrite ?Hm]. split; try done. cbn. intros k v Hk Hv.
      destruct (decide (k = i)) as [->|]; [congruence|]. apply (Hj k); [lia|done].
    + assert (forall k v, workers p !! k = Some v -> ended v = true) as Hall.
      { intros k v Hv. apply (Hj k); [|done]. apply lookup_ge_None in Hw. apply lookup_lt_Some in Hv. lia. }
      split; try done; cbn; [by intros k v _ Hv; eapply Hall|]. intros f [= <-]. split; [done|]. apply all_owed_zero.
      intros v [k Hk]%list_elem_of_lookup. apply ended_owes. by eapply Hall.
  - by split; rewrite ?Hm.
Qed.

Lemma worker_counted i r p : counted p -> counted (take_turn (WorkerTurn i r) p).
Proof.
  intros [Ht He Hd Hj Hf Hs]. unfold take_turn. destruct (workers p !! i) as [w|] eqn:Hw; [|done].
  pose proof (act_owes (running p) r w) as Ho. pose proof (act_adds (running p) r w) as (Hn & Hr & _).
  pose proof (ended_stays (running p) r w) as Hst. destruct (act (running p) r w) as [w' n]. cbn [fst snd] in *.
  pose proof (all_owed_insert _ _ _ w' Hw) as Hins. split; cbn -[all_owed].
  - rewrite Ht, wrap64_add. f_equal. lia.
  - lia.
  - done.
  - intros k v Hk [(<- & <- & _)|[Hne Hv]]%list_lookup_insert_Some; [|by eapply Hj].
    destruct (Hst (Hj _ _ Hk Hw)) as [[= -> _] _]. by eapply Hj.
  - intros f Hm. destruct (Hf _ Hm) as [-> Hz]. assert (ended w = true) as Hen by (apply (Hj i); [by rewrite Hm|done]).
    destruct (Hst Hen) as [[= -> ->] _]. rewrite Hins, Ht, wrap64_add, Z.add_0_r. split; [done|lia].
  - intros Hlt. rewrite app_comm_cons. apply (sorted_bump _ (total_ops p)); [apply Hs; lia|]. rewrite Ht, wrap64_add.
    pose proof (all_owed_nonneg (workers p)). pose proof (all_owed_nonneg (<[i:=w']> (workers p))).
    rewrite !wrap64_small by (unfold is_u64; lia). lia.
Qed.

Lemma turns_counted xs p : counted p -> counted (take_turns xs p).
Proof.
  revert p. induction xs as [|[|i r] xs IH]; intros p Hp; [done|apply IH; by apply main_counted|apply IH; by apply worker_counted].
Qed.

(** Whatever the interleaving and whatever the sockets do, the counter is, modulo
    2^64, what the workers have earned less what they are about to add. *)
Theorem counter_exact (reports : nat) (ws : list W) (xs : list turn) (Hnew : forall w, w ∈ ws -> owed w = 0) :
  let p := take_turns xs (spawned reports ws) in
  total_ops p = wrap64 (all_earned p - all_owed (workers p)).
Proof. apply c_total, turns_counted. by apply spawned_counted. Qed.

(** The total read after the joins is everything that was earned, however late it
    was added; and, below 2^64, no report shows less than the one before, the
    differences printed are exact, and together with the last they add up to it. *)
Theorem pool_reports (reports : nat) (ws : list W) (xs : list turn) (f : Z) (Hnew : forall w, w ∈ ws -> owed w = 0) :
  let p := take_turns xs (spawned reports ws) in
  main p = Finished f ->
  f = wrap64 (all_earned p) /\ running p = false /\
  (all_earned p < 2 ^ 64 -> f = all_earned p /\
     Forall (fun r => 0 <= r.1 <= r.2) (load_reports (totals p ++ [f]) 0) /\
     foldr Z.add 0 ((load_reports (totals p ++ [f]) 0).*1) = f).
Proof.
  intros p Hm. assert (counted p) as [Ht He Hd _ Hf Hs] by (apply turns_counted; by apply spawned_counted).
  rewrite Hm in Hd. destruct (Hf _ Hm) as [-> Hz]. rewrite Hz, Z.sub_0_r in Ht. rewrite Hz in He. split_and!; [done..|].
  intros Hlt. specialize (Hs Hlt). assert (total_ops p = all_earned p) as Heq by (rewrite Ht; apply wrap64_small; unfold is_u64; lia).
  split; [done|]. destruct (load_report_adds_up (totals p ++ [total_ops p]) 0 Hs) as [H1 H2].
  - assert (forall x, x ∈ 0 :: totals p ++ [total_ops p] -> 0 <= x <= total_ops p) as Hall.
    { intros x Hx. split; [|by apply (sorted_last (0 :: totals p) _ _ Hs)]. apply StronglySorted_inv in Hs as [_ Hall].
      rewrite Forall_forall in Hall. apply elem_of_cons in Hx as [->|Hx]; [done|by apply Hall]. }
    apply Forall_forall. intros x Hx%Hall. unfold is_u64. lia.
  - split; [exact H1|]. rewrite H2, last_snoc. cbn. lia.
Qed.

(** The turns of worker [i]. *)
Fixpoint own_turns (i : nat) (xs : list turn) : nat :=
  match xs with
  | [] => 0
  | WorkerTurn j _ :: xs => if decide (j = i) then S (own_turns i xs) else own_turns i xs
  | MainTurn :: xs => own_turns i xs
  end.

Lemma turn_down x p : running p = false -> running (take_turn x p) = false.
Proof. intros Hr. destruct x as [|i r]; unfold take_turn; repeat case_match; done. Qed.

Lemma turn_workers x p : length (workers (take_turn x p)) = length (workers p).
Proof. destruct x as [|i r]; unfold take_turn; repeat case_match; cbn; by rewrite ?length_insert. Qed.

(** With the flag down a worker is ended after as many turns as it has left. *)
Lemma worker_ends xs p i w : running p = false -> workers p !! i = Some w ->
  ended w = true \/ (left_ w <= own_turns i xs)%nat ->
  exists w', workers (take_turns xs p) !! i = Some w' /\ ended w' = true.
Proof.
  revert p w. induction xs as [|x xs IH]; intros p w Hr Hw Hleft.
  { exists w. split; [done|]. destruct Hleft as [|Hleft]; [done|]. destruct (ended w) eqn:He; [done|].
    pose proof (stop_ends Done w He). cbn in Hleft. lia. }
  assert (exists w', workers (take_turn x p) !! i = Some w' /\ (ended w' = true \/ (left_ w' <= own_turns i xs)%nat)) as (w' & Hw' & Hl').
  2:{ by apply (IH (take_turn x p) w'); [apply turn_down| |]. }
  destruct x as [|j r].
  - exists w. split; [|exact Hleft]. unfold take_turn. by repeat case_match.
  - cbn [own_turns] in Hleft. unfold take_turn. destruct (decide (j = i)) as [->|Hne].
    + rewrite Hw, Hr. destruct (ended w) eqn:He.
      * destruct (ended_stays false r w He) as [-> _]. exists w. cbn. rewrite list_lookup_insert_eq by (by eapply lookup_lt_Some). auto.
      * pose proof (stop_ends r w He). destruct (act false r w) as [w' n]. exists w'. cbn in *.
        rewrite list_lookup_insert_eq by (by eapply lookup_lt_Some). split; [done|right]. destruct Hleft as [|Hleft]; [done|]. lia.
    + exists w. split; [|exact Hleft]. destruct (workers p !! j); [|done]. destruct (act _ _ _). cbn. by rewrite list_lookup_insert_ne.
Qed.

Definition stopping (m : main_at) : bool := match m with Reporting _ => false | _ => true end.

Lemma turn_stopping x p : stopping (main p) = true -> stopping (main (take_turn x p)) = true.
Proof.
  intros Hm. destruct x as [|i r]; unfold take_turn.
  - destruct (main p) as [n|k|f] eqn:E; [done| |by rewrite E]. destruct (workers p !! k) as [w|]; [|done].
    destruct (ended w); [done|]. by rewrite E.
  - destruct (workers p !! i) as [w|]; [|done]. by destruct (act (running p) r w).
Qed.

Lemma take_turns_app xs ys p : take_turns (xs ++ ys) p = take_turns ys (take_turns xs p).
Proof. apply foldl_app. Qed.

Lemma finished_stays n p f : main p = Finished f -> main (take_turns (replicate n MainTurn) p) = Finished f.
Proof.
  revert p. induction n as [|n IH]; intros p Hp; [done|]. cbn [replicate take_turns foldl]. apply IH. unfold take_turn. by rewrite Hp.
Qed.

Lemma joins p k n : main p = Joining k -> (forall w, w ∈ workers p -> ended w = true) -> (length (workers p) < k + n)%nat ->
  (0 < n)%nat -> exists f, main (take_turns (replicate n MainTurn) p) = Finished f.
Proof.
  revert p k. induction n as [|n IH]; intros p k Hm Hall Hn Hpos; [lia|].
  change (take_turns (replicate (S n) MainTurn) p) with (take_turns (replicate n MainTurn) (take_turn MainTurn p)).
  destruct (workers p !! k) as [w|] eqn:Hw.
  - assert (ended w = true) as He by (apply Hall; by eapply list_elem_of_lookup_2).
    apply lookup_lt_Some in Hw as Hlt. unfold take_turn. rewrite Hm, Hw, He. apply (IH _ (S k)); [done|done|cbn; lia|lia].
  - exists (total_ops p). apply finished_stays. unfold take_turn. by rewrite Hm, Hw.
Qed.

(** Once the flag is down, every schedule that gives each worker the turns it has
    left, and then [main] one for each join and one more, ends with the total
    read: nothing is waited for for ever. *)
Theorem joined (p : pool W) (xs : list turn) (Hr : running p = false) (Hm : main p = Joining 0)
    (Hturns : forall i w, workers p !! i = Some w -> (left_ w <= own_turns i xs)%nat) :
  exists f, main (take_turns (xs ++ replicate (S (length (workers p))) MainTurn) p) = Finished f.
Proof.
  rewrite take_turns_app. assert (length (workers (take_turns xs p)) = length (workers p)) as Hlen.
  { clear. revert p. induction xs as [|x xs IH]; intros p; [done|]. etransitivity; [apply IH|apply turn_workers]. }
  assert (forall w, w ∈ workers (take_turns xs p) -> ended w = true) as Hall.
  { intros w [i Hi]%list_elem_of_lookup. apply lookup_lt_Some in Hi as Hlt. rewrite Hlen in Hlt.
    destruct (lookup_lt_is_Some_2 _ _ Hlt) as [w0 Hw0]. destruct (worker_ends xs p i w0 Hr Hw0) as (w' & Hw' & He); [right; by eapply Hturns|].
    congruence. }
  assert (stopping (main (take_turns xs p)) = true) as Hst.
  { assert (stopping (main p) = true) as Hst by (by rewrite Hm). clear -Hst. revert p Hst.
    induction xs as [|x xs IH]; intros p Hst; [done|]. apply IH. by apply turn_stopping. }
  destruct (main (take_turns xs p)) as [n|k|f] eqn:Hmx; [done| |].
  - eapply joins; [done|done|lia|lia].
  - exists f. by apply finished_stays.
Qed.
End counting.

(** ** The programs, run *)

(** All of the load generator: the second thread is between its write and its
    addition while a report is made; then the connections fail. *)
Definition load_turns : list turn :=
  concat ((fun i => replicate 4 (WorkerTurn i Done)) <$> [0; 1; 2; 3]%nat) ++
  [WorkerTurn 0 Done; WorkerTurn 0 Done; MainTurn; WorkerTurn 1 Done; WorkerTurn 1 Done; WorkerTurn 1 Done; MainTurn] ++
  replicate 9 MainTurn ++ concat ((fun i => replicate 12 (WorkerTurn i Failed)) <$> [0; 1; 2; 3]%nat) ++ replicate 5 MainTurn.
Definition load_end : pool load_worker := take_turns load_turns load_gen.

Lemma pool_reports_witness :
  totals load_end = 16 :: replicate 9 32 /\ main load_end = Finished 48 /\ all_earned load_end = 48 /\
  foldr Z.add 0 ((load_reports (totals load_end ++ [48]) 0).*1) = 48.
Proof.
  split_and!; [vm_compute; reflexivity..|].
  assert (forall w, w ∈ replicate num_threads (Connecting connections_per_thread 0) -> owed w = 0) as Hnew by (by intros w [-> _]%elem_of_replicate).
  destruct (pool_reports 10 (replicate num_threads (Connecting connections_per_thread 0)) load_turns 48 Hnew) as (_ & _ & H);
    [vm_compute; reflexivity|]. apply H. vm_compute. reflexivity.
Defined.

(** Worker 0 of the benchmark counts a round, worker 1 is waiting for its answer
    when the flag goes down and still counts it; the others never connect. *)
Definition bench_turns : list turn :=
  replicate 5 (WorkerTurn 0 Done) ++ replicate 3 (WorkerTurn 1 Done) ++ [MainTurn] ++
  concat ((fun i => [WorkerTurn i Done; WorkerTurn i Done; WorkerTurn i Failed]) <$> List.seq 0 CONCURRENT_CONNS) ++
  replicate (S CONCURRENT_CONNS) MainTurn.

Lemma bench_counts_late : main (take_turns bench_turns bench) = Finished 2 /\ all_earned (take_turns bench_turns bench) = 2.
Proof. vm_compute. done. Qed.

(** Stopped with a worker still connecting, one writing, one about to add. *)
Definition stopped_pool : pool load_worker :=
  mk_pool false 16 [Connecting 2 0; Writing 2 1 1; Adding 2 0 0; Ended] (Joining 0) [] 32.
Definition stopped_turns : list turn := concat ((fun i => replicate 8 (WorkerTurn i Failed)) <$> List.seq 0 4).

Lemma joined_witness : exists f,
  main (take_turns (stopped_turns ++ replicate (S (length (workers stopped_pool))) MainTurn) stopped_pool) = Finished f.
Proof.
  apply (joined stopped_pool stopped_turns); [reflexivity..|].
  intros i w Hw. destruct i as [|[|[|[|i]]]]; cbn in Hw; try done; injection Hw as <-; apply Nat.leb_le; vm_compute; reflexivity.
Defined.
