(* ===== verification/Process.v ===== *)
(** * The server process (uring-engine/src/main.rs and sys.rs)

    What is around the workers: [main], which reads the number of cores, makes the
    directories and spawns a worker for each core; what a worker sets up before its
    loop, with what it holds and gives back; the listening socket; the pinning of
    a thread to a core; and the telemetry thread.

    [main_spawns]: each core has a directory of its own.  [worker_setup_releases]: a
    worker that fails while it sets up gives back everything it took, and one that
    ends gives back everything it has; [worker_setup_starts]: what it enters its loop
    with is the worker of Server.v.  [monitor_adds_up]: the reports add up.

    The C library, the kernel and the allocator are parameters. *)

From Stdlib Require Import Ascii String.
From stdpp Require Import strings.
From S2P Require Import Prelude.
From S2P Require Import Paths.
From S2P Require Import Block.
From S2P Require Import UringOp.
From S2P Require Import Uring.
From S2P Require Import BufRing.
From S2P Require Import Server.
#[local] Open Scope Z_scope.

(** ** Pinning a thread *)

Section affinity.
  (** The C library's CPU sets. *)
  Context {cpu_set_t : Type} (zeroed : cpu_set_t) (CPU_ZERO : cpu_set_t -> cpu_set_t)
    (CPU_SET : Z -> cpu_set_t -> outcome io_error cpu_set_t) (pthread_setaffinity_np : cpu_set_t -> Z).

Definition pin_current_thread_to_core (core_id : Z) : outcome io_error unit :=
  cpuset ← CPU_SET core_id (CPU_ZERO zeroed);
  let ret := pthread_setaffinity_np cpuset in
  if negb (ret =? 0) then Err (Os ret) else Ok tt.

End affinity.

(** ** The listening socket *)

Definition AF_INET : Z := 2.
Definition SOCK_STREAM : Z := 1.
Definition SOCK_NONBLOCK : Z := 2048.
Definition SOCK_CLOEXEC : Z := 524288.
Definition INADDR_ANY : Z := 0.
Inductive sock_option := SO_REUSEADDR | SO_REUSEPORT | TCP_NODELAY.

(** [x.to_be()] on a little-endian machine. *)
Definition to_be16 (x : Z) : Z := Z.lor (Z.shiftl (x mod 256) 8) (x / 256).
Definition to_be32 (x : Z) : Z := from_le_bytes (to_be_bytes 4 x).

Record sockaddr_in := mk_sockaddr_in { sin_family : Z; sin_port : Z; s_addr : Z }.

Inductive net_call :=
| Socket (domain type protocol fd : Z)
| SetSockOpt (fd : Z) (option : sock_option) (value : Z)
| Bind (fd : Z) (addr : sockaddr_in)
| Listen (fd backlog : Z)
| Close (fd : Z).

(** What the kernel returns; [errno_of] is the error of a failed call. *)
Record net_kernel := mk_net_kernel {
  socket_ret : Z;
  bind_ret : sockaddr_in -> Z;
  listen_ret : Z;
  errno_of : net_call -> Z
}.

Definition create_reuseport_listener (k : net_kernel) (port : Z) : list net_call * outcome io_error Z :=
  let fd := socket_ret k in
  let opened := Socket AF_INET (Z.lor (Z.lor SOCK_STREAM SOCK_NONBLOCK) SOCK_CLOEXEC) 0 fd in
  if fd <? 0 then ([opened], Err (Os (errno_of k opened))) else
  let options := [SetSockOpt fd SO_REUSEADDR 1; SetSockOpt fd SO_REUSEPORT 1; SetSockOpt fd TCP_NODELAY 1] in
  let addr := mk_sockaddr_in AF_INET (to_be16 port) (to_be32 INADDR_ANY) in
  if bind_ret k addr <? 0 then (opened :: options ++ [Bind fd addr; Close fd], Err (Os (errno_of k (Bind fd addr)))) else
  if listen_ret k <? 0 then (opened :: options ++ [Bind fd addr; Listen fd 4096; Close fd], Err (Os (errno_of k (Listen fd 4096)))) else
  (opened :: options ++ [Bind fd addr; Listen fd 4096], Ok fd).

(** ** The set-up of a worker *)

Inductive proc_event :=
| OnRing (e : sys_event)
| OnBufs (e : alloc_event)
| OnNet (e : net_call)
| EngineOpened
| EngineDropped.

(** A value that is dropped when what follows fails, and handed on with it when it
    succeeds. *)
Definition scope {A B} (acquire : list proc_event * outcome io_error A) (drop_it : A -> list proc_event)
    (body : A -> list proc_event * outcome io_error B) : list proc_event * outcome io_error B :=
  let '(e1, r) := acquire in
  match r with
  | Ok a => let '(e2, r2) := body a in (e1 ++ e2 ++ (match r2 with Ok _ => [] | _ => drop_it a end), r2)
  | Err e => (e1, Err e)
  | Panic => (e1, Panic)
  | Ub => (e1, Ub)
  end.

Section setup.
  Context {D : Type} `{Store D}.
  Context {cpu_set_t : Type} (zeroed : cpu_set_t) (CPU_ZERO : cpu_set_t -> cpu_set_t)
    (CPU_SET : Z -> cpu_set_t -> outcome io_error cpu_set_t) (pthread_setaffinity_np : cpu_set_t -> Z).
  Context (k : kernel_setup) (a : allocator) (net : net_kernel) (enter : syscall_enter).

Definition open_ring : list proc_event * outcome io_error (Uring * list resource) :=
  let '(evs, r) := Uring_new k RING_ENTRIES in (OnRing <$> evs, r).
Definition open_bufs : list proc_event * outcome io_error BufRing :=
  let '(evs, r) := BufRing_new a BUFFER_GROUP_ID BUF_RING_ENTRIES BUF_SIZE in (OnBufs <$> evs, r).
Definition open_engine (d : outcome io_error D) : list proc_event * outcome io_error D :=
  (match d with Ok _ => [EngineOpened] | _ => [] end, d).
Definition open_listener : list proc_event * outcome io_error Z :=
  let '(evs, r) := create_reuseport_listener net 8080 in (OnNet <$> evs, r).

(** The multishot accept, and its submission. *)
Definition arm_accept (listen_fd : Z) : st (Worker (D := D)) io_error unit :=
  got ← on_ring (with_sqe (fun sqe => prep_accept_multishot sqe listen_fd));
  if (got : bool) then on_ring (submit enter);; mret tt else lift Panic.

(** [run_worker] up to its loop; [d] is the result of opening the engine.  The result
    is the worker, the resources of its ring, and the listener. *)
Definition worker_setup (core_id : Z) (d : outcome io_error D) (qs : list (list InterCoreTask)) :
    list proc_event * outcome io_error (Worker (D := D) * list resource * Z) :=
  match pin_current_thread_to_core zeroed CPU_ZERO CPU_SET pthread_setaffinity_np core_id with
  | Ok _ =>
      scope open_ring (fun r => OnRing <$> Uring_drop r.2) (fun r =>
      scope open_bufs (fun _ => OnBufs <$> BufRing_drop) (fun br =>
      scope (open_engine d) (fun _ => [EngineDropped]) (fun d =>
      scope open_listener (fun fd => [OnNet (Close fd)]) (fun fd =>
        let w := mk_Worker r.1 br (zeros (BUF_RING_ENTRIES * BUF_SIZE)) d 1 qs [] 0 0 in
        ([], match arm_accept fd w with (w, Ok _) => Ok (w, r.2, fd) | (_, Err e) => Err e | (_, Panic) => Panic | (_, Ub) => Ub end)))))
  | Err e => ([], Err e)
  | Panic => ([], Panic)
  | Ub => ([], Ub)
  end.

(** The end of [run_worker]: its values are dropped, the last one first. *)
Definition worker_drop (rs : list resource) (fd : Z) : list proc_event :=
  [OnNet (Close fd); EngineDropped] ++ (OnBufs <$> BufRing_drop) ++ (OnRing <$> Uring_drop rs).

End setup.

(** ** [main] *)

Definition num_cpus (sysconf : Z) : Z := wrap64 sysconf.

Definition db_root : string := "./db_root".
Definition core_db_dir (core_id : Z) : path := mk_path db_root ("core_" ++ show_u64 core_id).

Inductive dir_event := RemoveDirAll (dir : string) | CreateDirAll (dir : string).

(** [Vec::with_capacity(n)] for elements of this size panics beyond [isize::MAX]
    bytes. *)
Definition with_capacity (n size : Z) : outcome io_error unit := if n * size <=? 2 ^ 63 - 1 then Ok tt else Panic.

(** The statistics, the queues, the directories and the workers: each with its core,
    the index of its queue and statistics, and its directory. *)
Definition main (sysconf : Z) (root_exists : bool) (create : outcome io_error unit) : list dir_event * outcome io_error (list (Z * path)) :=
  let num_cores := num_cpus sysconf in
  match with_capacity num_cores 64 with
  | Ok _ =>
      let removed := if root_exists then [RemoveDirAll db_root] else [] in
      (removed ++ [CreateDirAll db_root],
       _ ← create;
       Ok ((fun core_id => (core_id, core_db_dir core_id)) <$> seqZ 0 num_cores))
  | _ => ([], Panic)
  end.

(** ** The telemetry thread *)

Record WorkerStats := mk_WorkerStats { s_rx_bytes : Z; s_tx_bytes : Z; s_completed_requests : Z }.
Definition WorkerStats_new : WorkerStats := mk_WorkerStats 0 0 0.

Definition saturating_sub (a b : Z) : Z := Z.max 0 (a - b).

(** A line of output: requests and bytes since the last one, and requests in all. *)
Record report := mk_report { delta_reqs : Z; delta_rx : Z; total : Z }.

(** An iteration of the loop; the sums wrap in a release build. *)
Definition monitor_step (stats : list WorkerStats) (last_reqs last_rx_bytes : Z) : option report * (Z * Z) :=
  let total_reqs := foldl (fun t s => wrap64 (t + s_completed_requests s)) 0 stats in
  let total_rx := foldl (fun t s => wrap64 (t + s_rx_bytes s)) 0 stats in
  let delta := saturating_sub total_reqs last_reqs in
  (if 0 <? delta then Some (mk_report delta (saturating_sub total_rx last_rx_bytes) total_reqs) else None, (total_reqs, total_rx)).

Fixpoint monitor (snapshots : list (list WorkerStats)) (last_reqs last_rx_bytes : Z) : list report :=
  match snapshots with
  | [] => []
  | stats :: snapshots =>
      let '(r, (reqs, rx)) := monitor_step stats last_reqs last_rx_bytes in
      option_list r ++ monitor snapshots reqs rx
  end.

(** ** What is held *)

Inductive owned := RingResource (r : resource) | RingMemory | StorageMemory | TheEngine | TheSocket (fd : Z).
#[export] Instance owned_eq_dec : EqDecision owned.
Proof. solve_decision. Defined.

Definition when (P : Prop) `{Decision P} (n : Z) : Z := if decide P then n else 0.

(** How often an event takes a thing, less how often it gives it back. *)
Definition change_of (o : owned) (e : proc_event) : Z :=
  match e with
  | OnRing (Acquire r) => when (o = RingResource r) 1
  | OnRing (Release r) => when (o = RingResource r) (-1)
  | OnBufs AllocRing => when (o = RingMemory) 1
  | OnBufs FreeRing => when (o = RingMemory) (-1)
  | OnBufs AllocStorage => when (o = StorageMemory) 1
  | OnBufs FreeStorage => when (o = StorageMemory) (-1)
  | OnNet (Socket _ _ _ fd) => when (0 <= fd /\ o = TheSocket fd) 1
  | OnNet (Close fd) => when (o = TheSocket fd) (-1)
  | OnNet _ => 0
  | EngineOpened => when (o = TheEngine) 1
  | EngineDropped => when (o = TheEngine) (-1)
  end.

Definition balance (o : owned) (evs : list proc_event) : Z := foldr (fun e n => change_of o e + n) 0 evs.

(** What a worker at its loop holds. *)
Definition worker_holds (rs : list resource) (fd : Z) : list owned := (RingResource <$> rs) ++ [RingMemory; StorageMemory; TheEngine; TheSocket fd].

Lemma balance_app o x y : balance o (x ++ y) = balance o x + balance o y.
Proof.
  induction x as [|e x IH]; [done|]. change (change_of o e + balance o (x ++ y) = change_of o e + balance o x + balance o y). lia.
Qed.

(** [h] is how much of [o] the result of [c] holds. *)
Definition owns {A} (o : owned) (c : list proc_event * outcome io_error A) (h : A -> Z) : Prop :=
  match c.2 with Ok x => balance o c.1 = h x | Err _ => balance o c.1 = 0 | _ => True end.

Lemma scope_owns {A B} o (acquire : list proc_event * outcome io_error A) drop_it (body : A -> list proc_event * outcome io_error B) h1 h2 :
  owns o acquire h1 -> (forall x, acquire.2 = Ok x -> balance o (drop_it x) = - h1 x) ->
  (forall x, acquire.2 = Ok x -> owns o (body x) (fun y => h2 y - h1 x)) -> owns o (scope acquire drop_it body) h2.
Proof.
  unfold owns, scope. destruct acquire as [e1 [x|e| |]]; cbn [fst snd]; intros H1 H2 H3; try done.
  specialize (H2 x eq_refl). specialize (H3 x eq_refl). destruct (body x) as [e2 [y|e| |]]; cbn [fst snd] in *; try done;
    rewrite !balance_app; cbn; lia.
Qed.

Lemma scope_Ok {A B} (acquire : list proc_event * outcome io_error A) drop_it (body : A -> list proc_event * outcome io_error B) y :
  (scope acquire drop_it body).2 = Ok y -> exists x, acquire.2 = Ok x /\ (body x).2 = Ok y.
Proof.
  unfold scope. destruct acquire as [e1 [x|e| |]]; try done. intros Hy. exists x. split; [done|]. by destruct (body x).
Qed.

Ltac events := cbn; unfold when; repeat case_decide; try lia; try (exfalso; intuition (congruence || lia)).

Lemma open_ring_owns o k : owns o (open_ring k) (fun r => - balance o (OnRing <$> Uring_drop r.2)) /\
  forall r, (open_ring k).2 = Ok r -> - balance o (OnRing <$> Uring_drop r.2) = when (o ∈ RingResource <$> r.2) 1.
Proof.
  unfold owns, open_ring, Uring_new. destruct (setup k _ _) as [fd p]. destruct (fd <? 0); [by split|].
  destruct (map_ring k _); cbn [negb]; [|split; [events|done]]. destruct (map_sqes k _); cbn [negb]; [|split; [events|done]].
  destruct (attach_ok_or_ub k p (ring_size_of p) (sqes_size p)) as [[u ->] | ->]; [|by split]. cbn [mbind outcome_bind fst snd]. split; [events|].
  intros r [= <-]. cbn. unfold when. repeat case_decide; simplify_eq; try lia; exfalso; rewrite !elem_of_cons, elem_of_nil in *; intuition congruence.
Qed.

Definition memory_held (o : owned) : Z := when (o = RingMemory) 1 + when (o = StorageMemory) 1.

Lemma buf_ring_events a group entries size : layout_ok a (wrap64 (entries * size)) = true -> let '(evs, r) := BufRing_new a group entries size in
  match r with
  | Ok _ => evs = [AllocRing; AllocStorage]
  | Err _ => evs = [] \/ evs = [AllocRing; FreeRing] \/ evs = [AllocRing; AllocStorage; FreeStorage; FreeRing]
  | _ => True
  end.
Proof.
  intros Hl. pose proof (buf_ring_new_releases a group entries size) as Hrel. unfold BufRing_new in *. rewrite Hl in *.
  destruct (negb (is_power_of_two entries)); [done|]. destruct (negb (layout_ok a _)); [by left|].
  destruct (alloc_ring a); [|by left]. cbn [negb] in *. destruct (alloc_storage a); [|by right; left].
  destruct (register_ret a <? 0); [by right; right|]. destruct (_ ≫= _) as [r|e| |]; try done.
Qed.

Lemma open_bufs_owns o a : layout_ok a (wrap64 (BUF_RING_ENTRIES * BUF_SIZE)) = true -> owns o (open_bufs a) (fun _ => memory_held o).
Proof.
  intros Hl. pose proof (buf_ring_events a BUFFER_GROUP_ID BUF_RING_ENTRIES BUF_SIZE Hl) as He. unfold owns, open_bufs.
  destruct (BufRing_new a _ _ _) as [evs [b|e| |]]; cbn [fst snd]; try done; [subst evs|destruct He as [->|[->| ->]]]; unfold memory_held; events.
Qed.

Lemma open_listener_owns o net : owns o (open_listener net) (fun fd => when (o = TheSocket fd) 1).
Proof.
  unfold owns, open_listener, create_reuseport_listener. destruct (Z.ltb_spec (socket_ret net) 0); [events|].
  destruct (_ <? 0); [events|]. destruct (_ <? 0); events.
Qed.

Lemma when_iff P Q `{Decision P, Decision Q} n : (P <-> Q) -> when P n = when Q n.
Proof. intros HPQ. unfold when. by rewrite (decide_ext P Q). Qed.

Lemma worker_holds_when o rs fd : when (o ∈ worker_holds rs fd) 1 =
  when (o ∈ RingResource <$> rs) 1 + memory_held o + when (o = TheEngine) 1 + when (o = TheSocket fd) 1.
Proof.
  unfold worker_holds, memory_held. destruct (decide (o ∈ RingResource <$> rs)) as [Hin|Hni].
  - pose proof Hin as (r & -> & _)%list_elem_of_fmap. unfold when. rewrite !decide_True, !decide_False by (done || (apply elem_of_app; by left)). done.
  - rewrite (when_iff (o ∈ _ ++ _) (o ∈ [RingMemory; StorageMemory; TheEngine; TheSocket fd])) by (rewrite elem_of_app; intuition).
    unfold when. rewrite (decide_False (P := o ∈ RingResource <$> rs)) by done.
    destruct o; repeat case_decide; rewrite ?elem_of_cons, ?elem_of_nil in *; intuition (congruence || lia).
Qed.

Section theorems.
  Context {D : Type} `{Store D}.
  Context {cpu_set_t : Type} (zeroed : cpu_set_t) (CPU_ZERO : cpu_set_t -> cpu_set_t)
    (CPU_SET : Z -> cpu_set_t -> outcome io_error cpu_set_t) (pthread_setaffinity_np : cpu_set_t -> Z).
  Context (k : kernel_setup) (a : allocator) (net : net_kernel) (enter : syscall_enter).

#[local] Abbreviation setup_of := (worker_setup (D := D) zeroed CPU_ZERO CPU_SET pthread_setaffinity_np k a net enter).

Lemma worker_setup_owns o core_id d qs : layout_ok a (wrap64 (BUF_RING_ENTRIES * BUF_SIZE)) = true ->
  owns o (setup_of core_id d qs) (fun x => when (o ∈ worker_holds x.1.2 x.2) 1).
Proof.
  intros Hl. unfold worker_setup. destruct (pin_current_thread_to_core _ _ _ _ _); try done.
  destruct (open_ring_owns o k) as [Hring Hrs]. eapply scope_owns; [exact Hring|intros; cbn beta; lia|]. intros r Hr. cbn beta. rewrite (Hrs r Hr).
  eapply scope_owns; [by apply open_bufs_owns|intros; unfold memory_held; events|]. intros br _. cbn beta.
  eapply (scope_owns o _ _ _ (fun _ => when (o = TheEngine) 1)); [unfold owns, open_engine; destruct d; events|intros; events|]. intros d' _. cbn beta.
  eapply scope_owns; [apply open_listener_owns|intros; events|]. intros fd _. cbn beta. unfold owns. cbn [fst snd].
  destruct (arm_accept enter fd _) as [w [[]|e| |]]; try done. cbn [fst snd]. rewrite worker_holds_when. change (balance o []) with 0. lia.
Qed.

(** C40: A worker keeps nothing that it gives up.  Whatever the kernel, the allocator and
    the engine answer, a set-up that fails, at the affinity, the ring, the
    buffers, the engine, the socket or the submission, has given back every
    descriptor, mapping, allocation and engine that it took; one that succeeds holds
    each of its resources exactly once and nothing else, and they are all given
    back when the worker ends. *)
Theorem worker_setup_releases core_id d qs : layout_ok a (wrap64 (BUF_RING_ENTRIES * BUF_SIZE)) = true ->
  let '(evs, r) := setup_of core_id d qs in
  match r with
  | Ok (_, rs, fd) => (forall o, balance o evs = if decide (o ∈ worker_holds rs fd) then 1 else 0) /\
      forall o, balance o (evs ++ worker_drop rs fd) = 0
  | Err _ => forall o, balance o evs = 0
  | _ => True
  end.
Proof.
  intros Hl. pose proof (fun o => worker_setup_owns o core_id d qs Hl) as Ho. destruct (setup_of core_id d qs) as [evs [[[w rs] fd]|e| |]] eqn:Hs; try done.
  split; [exact Ho|]. intros o. specialize (Ho o). rewrite balance_app. unfold owns in Ho. cbn [fst snd] in Ho. rewrite Ho, worker_holds_when.
  assert (exists r, (open_ring k).2 = Ok r /\ rs = r.2) as (r & Hr & ->).
  { assert ((setup_of core_id d qs).2 = Ok (w, rs, fd)) as Hok by (by rewrite Hs). unfold worker_setup in Hok.
    destruct (pin_current_thread_to_core _ _ _ _ _); try done. apply scope_Ok in Hok as (r & Hr & Hok). exists r. split; [done|].
    apply scope_Ok in Hok as (br & _ & Hok). apply scope_Ok in Hok as (d' & _ & Hok). apply scope_Ok in Hok as (fd' & _ & Hok). cbn [snd] in Hok.
    destruct (arm_accept enter fd' _) as [w' [[]|e| |]]; try done. by injection Hok as _ <- _. }
  rewrite <- (proj2 (open_ring_owns o k) r Hr). unfold worker_drop, memory_held. rewrite !balance_app. events.
Qed.

(** The worker that the set-up hands on is that of Server.v, over the listener it
    opened. *)
Theorem worker_setup_starts core_id d qs fd : pin_current_thread_to_core zeroed CPU_ZERO CPU_SET pthread_setaffinity_np core_id = Ok tt ->
  (create_reuseport_listener net 8080).2 = Ok fd ->
  match (setup_of core_id d qs).2 with
  | Ok (w, _, fd') => fd' = fd /\ worker_new fd k a enter d qs = Ok w
  | Err e => worker_new fd k a enter d qs = Err e
  | Panic => worker_new fd k a enter d qs = Panic
  | Ub => worker_new fd k a enter d qs = Ub
  end.
Proof.
  intros Hpin Hfd. unfold worker_setup, worker_new. rewrite Hpin. unfold scope, open_ring, open_bufs, open_engine, open_listener.
  destruct (Uring_new k RING_ENTRIES) as [e1 [[u rs]|e| |]]; try done. cbn [snd fst mbind outcome_bind].
  destruct (BufRing_new a _ _ _) as [e2 [br|e| |]]; try done. cbn [snd fst mbind outcome_bind].
  destruct d as [d|e| |]; try done. cbn [snd fst mbind outcome_bind].
  destruct (create_reuseport_listener net 8080) as [e3 r3]. cbn [snd] in Hfd. subst r3. unfold arm_accept.
  generalize (zeros (BUF_RING_ENTRIES * BUF_SIZE)) as m. intros m.
  set (w0 := mk_Worker _ _ _ _ _ _ _ _ _). set (c := (on_ring _ ≫= _) w0). by destruct c as [w [[]|e| |]].
Qed.

End theorems.

(** ** The listener *)

(** The listener has its options set before it is bound to port [port] of every
    address, in the byte order of the network, and is closed when it cannot be bound
    or listened on. *)
Theorem listener_calls net port : let '(calls, r) := create_reuseport_listener net port in
  let addr := mk_sockaddr_in AF_INET (to_be16 port) 0 in
  match r with
  | Ok fd => 0 <= fd /\ calls = [Socket AF_INET (1 + 2048 + 524288) 0 fd; SetSockOpt fd SO_REUSEADDR 1; SetSockOpt fd SO_REUSEPORT 1;
      SetSockOpt fd TCP_NODELAY 1; Bind fd addr; Listen fd 4096]
  | Err e => exists c, e = Os (errno_of net c) /\ (c = Socket AF_INET (1 + 2048 + 524288) 0 (socket_ret net) /\ calls = [c] \/
      exists before, calls = before ++ [c; Close (socket_ret net)])
  | _ => False
  end.
Proof.
  unfold create_reuseport_listener. destruct (Z.ltb_spec (socket_ret net) 0).
  { eexists. split; [done|]. by left. }
  change (to_be32 INADDR_ANY) with 0. destruct (bind_ret net _ <? 0).
  { eexists. split; [done|]. right. by exists [Socket AF_INET (1 + 2048 + 524288) 0 (socket_ret net); SetSockOpt (socket_ret net) SO_REUSEADDR 1;
      SetSockOpt (socket_ret net) SO_REUSEPORT 1; SetSockOpt (socket_ret net) TCP_NODELAY 1]. }
  destruct (listen_ret net <? 0); [|by split].
  eexists. split; [done|]. right. by exists [Socket AF_INET (1 + 2048 + 524288) 0 (socket_ret net); SetSockOpt (socket_ret net) SO_REUSEADDR 1;
    SetSockOpt (socket_ret net) SO_REUSEPORT 1; SetSockOpt (socket_ret net) TCP_NODELAY 1; Bind (socket_ret net) (mk_sockaddr_in AF_INET (to_be16 port) 0)].
Qed.

(** ** [main] *)

Lemma show_u64_inj m n : is_u64 m -> is_u64 n -> show_u64 m = show_u64 n -> m = n.
Proof. intros Hm Hn Heq. apply show_digits in Hm, Hn. rewrite Heq, Hn in Hm. by injection Hm. Qed.

(** Each core has a store of its own.  When the machine's number of cores is known and
    [db_root] can be made, [main] removes an old [db_root] first and then starts one worker for each
    core, with its own number, which is an index of the queues and the statistics,
    and a directory under [db_root] that no other worker has; when the number is not
    known it panics before anything is removed. *)
Theorem main_spawns sysconf root_exists create : -1 <= sysconf <= 2 ^ 56 ->
  main sysconf root_exists create =
    (if sysconf <? 0 then ([], Panic) else
     ((if root_exists then [RemoveDirAll db_root] else []) ++ [CreateDirAll db_root],
      match create with Ok _ => Ok ((fun i => (i, core_db_dir i)) <$> seqZ 0 sysconf) | Err e => Err e | Panic => Panic | Ub => Ub end)) /\
  NoDup (core_db_dir <$> seqZ 0 sysconf) /\
  forall i, i ∈ seqZ 0 sysconf -> 0 <= i < sysconf /\ parent (core_db_dir i) = db_root.
Proof.
  intros Hb. split; [|split].
  - unfold main, num_cpus, with_capacity. destruct (Z.ltb_spec sysconf 0) as [Hneg|Hpos].
    + assert (wrap64 sysconf = sysconf + 2 ^ 64) as ->.
      { unfold wrap64. symmetry. apply Z.mod_unique with (-1); lia. }
      rewrite (proj2 (Z.leb_gt _ _)) by lia. done.
    + rewrite wrap64_small by (unfold is_u64; lia). rewrite (proj2 (Z.leb_le _ _)) by lia. by destruct create.
  - apply NoDup_fmap_2_strong; [|apply NoDup_seqZ]. intros x y Hx%elem_of_seqZ Hy%elem_of_seqZ [= Heq].
    apply show_u64_inj; unfold is_u64; try lia. done.
  - intros i Hi%elem_of_seqZ. split; [lia|done].
Qed.

(** ** Telemetry *)

Definition sum_of (f : WorkerStats -> Z) (stats : list WorkerStats) : Z := foldr (fun s n => f s + n) 0 stats.

Lemma foldl_sum (f : WorkerStats -> Z) stats : forall t, 0 <= t -> (forall s, s ∈ stats -> 0 <= f s) -> t + sum_of f stats < 2 ^ 64 ->
  foldl (fun t s => wrap64 (t + f s)) t stats = t + sum_of f stats.
Proof.
  assert (forall stats, (forall s, s ∈ stats -> 0 <= f s) -> 0 <= sum_of f stats) as Hpos.
  { intros l. induction l as [|s l IH]; intros Hl; cbn; [lia|]. pose proof (Hl s ltac:(by left)).
    assert (0 <= sum_of f l) by (apply IH; intros x Hx; apply Hl; by right). unfold sum_of in *. lia. }
  induction stats as [|s stats IH]; intros t Ht Hs Hb; cbn [foldl sum_of foldr] in *; [lia|].
  pose proof (Hs s ltac:(by left)) as H1. pose proof (Hpos stats ltac:(intros x Hx; apply Hs; by right)) as H2. fold (sum_of f stats) in *.
  rewrite wrap64_small by (unfold is_u64; lia). rewrite IH; [lia|lia|intros x Hx; apply Hs; by right|lia].
Qed.

Lemma foldl_range (f : WorkerStats -> Z) stats : forall t, is_u64 t -> is_u64 (foldl (fun t s => wrap64 (t + f s)) t stats).
Proof.
  induction stats as [|s stats IH]; intros t Ht; [done|]. cbn. apply IH. unfold is_u64, wrap64. apply Z.mod_pos_bound. lia.
Qed.

(** The reports: no difference underflows, whatever the counters do; a
    report never claims more requests than there were in all; and while the counters
    only grow, within 64 bits, the reported differences are together all the
    requests since the start. *)
Theorem monitor_adds_up snapshots : forall last_reqs last_rx, 0 <= last_reqs -> 0 <= last_rx ->
  (forall r, r ∈ monitor snapshots last_reqs last_rx -> 0 < delta_reqs r <= total r /\ is_u64 (total r) /\ is_u64 (delta_rx r)) /\
  (Forall (Forall (fun s => 0 <= s_completed_requests s)) snapshots -> Forall (fun stats => sum_of s_completed_requests stats < 2 ^ 64) snapshots ->
    StronglySorted Z.le (last_reqs :: (sum_of s_completed_requests <$> snapshots)) ->
    foldr Z.add 0 (delta_reqs <$> monitor snapshots last_reqs last_rx) =
      default last_reqs (last (sum_of s_completed_requests <$> snapshots)) - last_reqs).
Proof.
  induction snapshots as [|stats snapshots IH]; intros q x Hq Hx.
  { split; [intros r Hr; by apply elem_of_nil in Hr|]. cbn. lia. }
  cbn [monitor monitor_step]. set (reqs := foldl (fun t s => wrap64 (t + s_completed_requests s)) 0 stats).
  set (rx := foldl (fun t s => wrap64 (t + s_rx_bytes s)) 0 stats).
  assert (is_u64 reqs) as Hr by (by apply foldl_range). assert (is_u64 rx) as Hrx by (by apply foldl_range).
  destruct (IH reqs rx ltac:(apply Hr) ltac:(apply Hrx)) as [IH1 IH2]. unfold saturating_sub. split.
  - intros r [Hin|Hin]%elem_of_app; [|by apply IH1]. destruct (Z.ltb_spec 0 (Z.max 0 (reqs - q))); [|by apply elem_of_nil in Hin].
    apply list_elem_of_singleton in Hin as ->. cbn. unfold is_u64 in *. lia.
  - intros [Hpos Hposs]%Forall_cons [Hb Hbs]%Forall_cons [Hsort Hall]%StronglySorted_inv. cbn [fmap list_fmap] in *.
    assert (reqs = sum_of s_completed_requests stats) as Hreqs.
    { unfold reqs. rewrite foldl_sum; [lia|lia| |lia]. by apply Forall_forall. }
    apply Forall_cons in Hall as [Hle _]. rewrite <- Hreqs in *. specialize (IH2 Hposs Hbs Hsort).
    rewrite fmap_app, foldr_app.
    assert (forall l n, foldr Z.add n l = foldr Z.add 0 l + n) as Hfold by (intros l n; induction l as [|y l IHl]; cbn; lia).
    rewrite Hfold, IH2. destruct (last (sum_of s_completed_requests <$> snapshots)) as [y|] eqn:Hl.
    + rewrite last_cons, Hl. destruct (Z.ltb_spec 0 (Z.max 0 (reqs - q))); cbn; lia.
    + rewrite last_cons, Hl. destruct (Z.ltb_spec 0 (Z.max 0 (reqs - q))); cbn; lia.
Qed.

(** ** Witnesses *)

Definition example_net : net_kernel := mk_net_kernel 9 (fun _ => -1) 0 (fun _ => 98).

(** The port is taken: the ring, the buffers and the engine are given back. *)
Definition example_setup_fails := worker_setup (D := list entry) tt (fun s => s) (fun _ s => Ok s) (fun _ => 0) example_setup example_alloc example_net
  (kernel_enter 1 1 []) 0 (Ok []) [[]].

Lemma worker_setup_releases_witness : length example_setup_fails.1 = 18%nat /\ example_setup_fails.2 = Err (Os 98) /\
  forall o, balance o example_setup_fails.1 = 0.
Proof.
  assert (example_setup_fails.2 = Err (Os 98)) as Hf by (vm_compute; reflexivity).
  split; [vm_compute; reflexivity|]. split; [exact Hf|].
  assert (let '(evs, r) := example_setup_fails in match r with Err _ => forall o, balance o evs = 0 | _ => True end) as Hr.
  { unfold example_setup_fails. pose proof (worker_setup_releases (D := list entry) tt (fun s => s) (fun _ s => Ok s) (fun _ => 0) example_setup
      example_alloc example_net (kernel_enter 1 1 []) 0 (Ok []) [[]] eq_refl) as Hr.
    destruct (worker_setup _ _ _ _ _ _ _ _ _ _ _) as [evs [[[w rs] fd]|e| |]]; [exact I|exact Hr|exact I|exact I]. }
  destruct example_setup_fails as [evs r]. cbn [fst snd] in *. subst r. exact Hr.
Defined.
