(* ===== verification/ServerRun.v ===== *)
(** * The server at work (uring-engine/src/main.rs, with uring.rs and buf_ring.rs)

    A worker of Server.v among the other parties: the kernel, which takes requests,
    selects and fills receive buffers and posts completions; the other cores, which
    push into its queue and pop from theirs; and the store's own threads.  They
    interleave with the worker's steps: [submit_and_wait], an iteration of the loop
    over the replicated writes, and one of the loop over the completions.

    [server_safe]: nothing the worker does in any such run panics or leaves its
    arrays.  [server_buffers_disjoint]: a buffer that is being filled, or waits to be
    handled, is not given out again, unless the kernel selects one between a
    [recycle] and the [flush].  [server_reply_overwritten]: a reply, however, is sent
    from a buffer that has been given back already. *)

From S2P Require Import Prelude.
From S2P Require Import Block.
From S2P Require Import MemTable.
From S2P Require Import UringOp.
From S2P Require Import Uring.
From S2P Require Import BufRing.
From S2P Require Import Server.
#[local] Open Scope Z_scope.

(** The buffers handed over by completions. *)
Definition bufs_of (pend : list io_uring_cqe) : list Z := buffer_id <$> filter (fun c => fills c = true) pend.

(** [requests] are the requests the kernel has taken, [kernel_head] its position in
    the buffer ring, [selected] the buffers it has taken for receives and not yet
    handed over. *)
Record system {D : Type} := mk_system {
  worker : Worker (D := D);
  where_ : phase;
  requests : list io_uring_sqe;
  kernel_head : Z;
  selected : list Z
}.
Arguments system : clear implicits.
Arguments mk_system {D}.

(** Completions answer requests that were taken, with at most a buffer's length, in
    buffers that were selected. *)
Record posted_ok (size : Z) (reqs : list io_uring_sqe) (sel : list Z) (posted : list io_uring_cqe) (sel' : list Z) : Prop := {
  po_request c : c ∈ posted -> exists e, e ∈ reqs /\ user_data c = sqe_user_data e;
  po_res c : c ∈ posted -> is_i32 (res c) /\ (fills c = true -> res c <= size);
  po_buffers : sel ≡ₚ bufs_of posted ++ sel'
}.

Section run.
  Context {D : Type} `{SS : StoreSpec D} (core_id listen_fd : Z) (Hlisten : is_i32 listen_fd).

(** A step of the worker. *)
Inductive own_step : system D -> system D -> Prop :=
| worker_wait enter taken posted w w' r reqs h sel sel' :
    enter_ok enter (w_ring w) taken posted -> posted_ok (buf_size (w_bufs w)) (reqs ++ taken) sel posted sel' ->
    wait_round enter w = (w', r) ->
    own_step (mk_system w Waiting reqs h sel)
      (mk_system w' (match r with Err e => Stopped e | _ => Applying 16 end) (reqs ++ taken) h sel')
| worker_apply n w w' p reqs h sel : room_for_writes w -> apply_step core_id n w = (w', Ok p) ->
    own_step (mk_system w (Applying n) reqs h sel) (mk_system w' p reqs h sel)
| worker_drain b w w' p reqs h sel : room_for_writes w -> drain_step core_id listen_fd b w = (w', Ok p) ->
    own_step (mk_system w (Draining b) reqs h sel) (mk_system w' p reqs h sel).

(** A step of the kernel, or of the store's threads.  In a [calm] run the kernel
    selects no buffer between a [recycle] and the [flush] behind it. *)
Inductive env_step (calm : Prop) : system D -> system D -> Prop :=
| kernel_step u' taken posted w p reqs h sel sel' :
    kernel_ok (w_ring w) u' taken posted -> posted_ok (buf_size (w_bufs w)) (reqs ++ taken) sel posted sel' ->
    env_step calm (mk_system w p reqs h sel) (mk_system (set_ring u' w) p (reqs ++ taken) h sel')
| kernel_select e w p reqs h sel : (calm -> p <> Draining true) -> pick (w_bufs w) h = Some e ->
    env_step calm (mk_system w p reqs h sel) (mk_system w p reqs (wrap16 (h + 1)) (sel ++ [bid e]))
| kernel_fill id bs w p reqs h sel : id ∈ sel -> len bs <= buf_size (w_bufs w) ->
    env_step calm (mk_system w p reqs h sel)
      (mk_system (set_memory (splice (memory w) (id * buf_size (w_bufs w)) bs) w) p reqs h sel)
| store_step d' w p reqs h sel : db_background (db_node w) d' ->
    env_step calm (mk_system w p reqs h sel) (mk_system (set_db d' w) p reqs h sel).

(** The other cores may do anything to the queues but change their number. *)
Definition with_queues (qs : list (list InterCoreTask)) (s : system D) : system D :=
  mk_system (set_queues qs (worker s)) (where_ s) (requests s) (kernel_head s) (selected s).
Inductive others_step : system D -> system D -> Prop :=
| other_cores qs s : length qs = length (queues (worker s)) -> Forall (Forall task_ok) qs -> others_step s (with_queues qs s).

Definition sys_step (calm : Prop) (s s' : system D) : Prop := own_step s s' \/ env_step calm s s' \/ others_step s s'.

(** A worker at the start of its loop. *)
Inductive initial : system D -> Prop :=
| sys_start w reqs pend out : ready core_id w [] out pend -> tagged_out out -> Forall tagged reqs ->
    (forall c, c ∈ pend -> exists e, e ∈ reqs /\ user_data c = sqe_user_data e /\ is_i32 (res c)) -> bufs_of pend = [] ->
    ring_full (w_bufs w) -> initial (mk_system w Waiting reqs 0 []).

(** A run starts with the worker that [run_worker] sets up. *)
Inductive reachable (calm : Prop) : system D -> Prop :=
| sys_initial s : initial s -> reachable calm s
| sys_next s s' : reachable calm s -> sys_step calm s s' -> reachable calm s'.

(** ** The invariant *)

Definition cycle (s : system D) (pend : list io_uring_cqe) : Prop := exists h t avail, slots h t avail (w_bufs (worker s)) /\
  kernel_head s = wrap16 h /\ (where_ s <> Draining true -> shared_tail (w_bufs (worker s)) = wrap16 t) /\
  avail ++ selected s ++ bufs_of pend ≡ₚ seqZ 0 (b_entries (w_bufs (worker s))).

Record sys_inv (calm : Prop) (s : system D) (log : list entry) (out : list io_uring_sqe) (pend : list io_uring_cqe) : Prop := {
  si_ready : ready core_id (worker s) log out pend;
  si_out : tagged_out out;
  si_requests : Forall tagged (requests s);
  si_pend : Forall (cqe_ok (b_entries (w_bufs (worker s))) (buf_size (w_bufs (worker s)))) pend;
  si_selected : Forall (fun id => 0 <= id < b_entries (w_bufs (worker s))) (selected s);
  si_cycle : calm -> cycle s pend
}.

Lemma bufs_of_app a b : bufs_of (a ++ b) = bufs_of a ++ bufs_of b.
Proof. unfold bufs_of. by rewrite filter_app, fmap_app. Qed.

Lemma bufs_of_cons c pend : bufs_of (c :: pend) = if fills c then buffer_id c :: bufs_of pend else bufs_of pend.
Proof.
  unfold bufs_of. destruct (fills c) eqn:Hc; [by rewrite filter_cons_True|]. by rewrite filter_cons_False by congruence.
Qed.

(** What the kernel posts is what the handlers expect. *)
Lemma posted_cqe_ok entries size reqs sel posted sel' : posted_ok size reqs sel posted sel' -> Forall tagged reqs ->
  Forall (fun id => 0 <= id < entries) sel -> Forall (cqe_ok entries size) posted /\ Forall (fun id => 0 <= id < entries) sel'.
Proof.
  intros [Hreq Hres Hbufs] Ht Hs. rewrite Hbufs in Hs. apply Forall_app in Hs as [Hs Hs']. split; [|done].
  rewrite !Forall_forall in *. intros c Hc. destruct (Hreq c Hc) as (e & He & Hu). destruct (Ht e He) as (Hop & _ & Hops). split; [|split].
  - unfold is_op. by rewrite Hu, Hop.
  - by destruct (Hres c Hc).
  - intros Hf. split; [|by apply (Hres c Hc)].
    apply Hs. unfold bufs_of. apply list_elem_of_fmap_2. by apply list_elem_of_filter.
Qed.

Lemma cycle_mono s s' pend pend' : cycle s pend -> w_bufs (worker s') = w_bufs (worker s) -> kernel_head s' = kernel_head s ->
  (where_ s' <> Draining true -> where_ s <> Draining true) -> selected s ++ bufs_of pend ≡ₚ selected s' ++ bufs_of pend' -> cycle s' pend'.
Proof.
  intros (h & t & avail & Hs & Hh & Ht & Hp) Hb Hk Hw Hperm. exists h, t, avail. rewrite Hb, Hk. split_and!; [done|done|auto|]. by rewrite <- Hperm.
Qed.

Lemma after_cycle calm b c w w' reqs h sel pend : (calm : Prop) -> (calm -> cycle (mk_system w (Draining b) reqs h sel) (c :: pend)) ->
  bufs_ok (w_bufs w) -> after c w (fills c) w' -> cycle (mk_system w' (Draining (b || fills c)) reqs h sel) pend.
Proof.
  intros Hcalm Hcyc Hb (_ & _ & _ & (S1 & S2 & S3) & Hbufs). specialize (Hcyc Hcalm). rewrite orb_comm. destruct (fills c) eqn:Hf; cbn [orb].
  - destruct Hcyc as (h0 & t & avail & Hs & Hh & _ & Hp). cbn -[bufs_of] in *. rewrite bufs_of_cons, Hf in Hp.
    destruct (recycle_slots _ _ _ _ (buffer_id c) Hs) as (r' & Hr' & Hs' & E1 & _).
    { pose proof (Permutation_length Hp) as Hl. rewrite !length_app, length_seqZ in Hl. cbn in Hl. pose proof (bo_pos _ Hb). unfold len. lia. }
    rewrite Hbufs in Hr'. injection Hr' as <-. exists h0, (t + 1), (avail ++ [buffer_id c]). cbn -[bufs_of]. split_and!; [done|done|done|].
    rewrite E1, <- Hp. solve_Permutation.
  - eapply cycle_mono; [exact Hcyc|done..|]. cbn -[bufs_of]. rewrite bufs_of_cons, Hf. done.
Qed.

Lemma drained_cycle calm b w reqs h sel br' : (calm : Prop) -> (calm -> cycle (mk_system w (Draining b) reqs h sel) []) ->
  (if b then flush (w_bufs w) = Ok br' else br' = w_bufs w) -> cycle (mk_system (set_w_bufs br' w) Waiting reqs h sel) [].
Proof.
  intros Hcalm Hcyc Hf. specialize (Hcyc Hcalm). destruct b.
  - destruct Hcyc as (h0 & t & avail & Hs & Hh & _ & Hp). destruct (flush_slots _ _ _ _ Hs) as (r' & Hr' & Hs' & Ht & E1 & _).
    cbn -[bufs_of] in *. rewrite Hf in Hr'. injection Hr' as <-. exists h0, t, avail. cbn -[bufs_of]. split_and!; [done|done|done|]. by rewrite E1.
  - subst br'. eapply cycle_mono; [exact Hcyc|done..|]. done.
Qed.

Lemma select_cycle e w p reqs h sel pend : cycle (mk_system w p reqs h sel) pend -> p <> Draining true -> bufs_ok (w_bufs w) ->
  pick (w_bufs w) h = Some e -> cycle (mk_system w p reqs (wrap16 (h + 1)) (sel ++ [bid e])) pend.
Proof.
  intros (h0 & t & avail & Hs & Hh & Ht & Hp) Hcalm Hb He. cbn -[bufs_of] in *. specialize (Ht Hcalm).
  pose proof (slots_avail _ _ _ _ Hs) as [Hlen Hmax]. unfold pick in He. rewrite Hh, Ht in He.
  destruct (Z.eqb_spec (wrap16 h0) (wrap16 t)) as [|Hne]; [done|].
  destruct avail as [|id avail]; [rewrite len_nil in Hlen; exfalso; apply Hne; f_equal; lia|]. rewrite len_cons in *.
  destruct (slots_at _ _ _ _ Hs 0%nat id eq_refl) as (e' & He' & Hid & _). rewrite Z.add_0_r in He'.
  rewrite (ring_index16 _ _ _ _ _ Hs), He' in He. injection He as ->.
  exists (h0 + 1), t, avail. cbn -[bufs_of]. rewrite Hh. split_and!; [|by unfold wrap16; rewrite Z.add_mod_idemp_l|done|].
  - split; try apply Hs; [lia|]. intros j id' Hj. replace (h0 + 1 + Z.of_nat j) with (h0 + Z.of_nat (S j)) by lia. by apply (slots_at _ _ _ _ Hs).
  - rewrite <- Hp, Hid. solve_Permutation.
Qed.

(** The kernel's part of a step. *)
Lemma posted_inv calm w p reqs h sel log out pend taken posted sel' w' p' log' out' : 
  sys_inv calm (mk_system w p reqs h sel) log out pend -> out = taken ++ out' ->
  posted_ok (buf_size (w_bufs w)) (reqs ++ taken) sel posted sel' -> ready core_id w' log' out' (pend ++ posted) -> w_bufs w' = w_bufs w ->
  (p' <> Draining true -> p <> Draining true) -> sys_inv calm (mk_system w' p' (reqs ++ taken) h sel') log' out' (pend ++ posted).
Proof.
  intros [Hr Ho Hq Hp Hs Hcyc] -> Hpo Hr' Hb Hph. apply Forall_app in Ho as [Htk Ho]. cbn -[bufs_of] in *.
  assert (Forall tagged (reqs ++ taken)) as Hq' by (by apply Forall_app).
  destruct (posted_cqe_ok _ _ _ _ _ _ Hpo Hq' Hs) as [Hc Hs']. split; cbn; rewrite ?Hb; try done; [by apply Forall_app|].
  intros Hcalm. eapply cycle_mono; [by apply Hcyc|done|done|done|]. cbn -[bufs_of]. rewrite bufs_of_app, (po_buffers _ _ _ _ _ Hpo). solve_Permutation.
Qed.

Lemma sys_step_inv (calm : Prop) s s' log out pend : sys_inv calm s log out pend -> sys_step calm s s' ->
  exists log' out' pend', sys_inv calm s' log' out' pend' /\ log_extends log log'.
Proof.
  intros Hi [Hst|[Hst|Hst]].
  all: destruct Hst as [enter taken posted w w' r reqs h sel sel' Hk Hpo Hb|n w w' p reqs h sel Hroom Hb|b w w' p reqs h sel Hroom Hd]
    || destruct Hst as [u' taken posted w p reqs h sel sel' Hk Hpo|e w p reqs h sel Hcalm Hpick|id bs w p reqs h sel Hid Hlen|d' w p reqs h sel Hbg]
    || destruct Hst as [qs [w p reqs h sel] Hl Hqs].
  - pose proof (wait_round_post core_id w log out pend enter taken posted (si_ready _ _ _ _ _ Hi) Hk) as Hw. rewrite Hb in Hw.
    destruct Hw as [(out' & u' & Hout & -> & Hr') _]. exists log, out', (pend ++ posted). split; [|apply log_extends_refl].
    eapply posted_inv; done.
  - assert (local_sequence w <= store_limit) as Hlim by (unfold room_for_writes in Hroom; lia). pose proof (si_ready _ _ _ _ _ Hi) as Hr.
    destruct (apply_step_next core_id n w log out pend Hr Hlim) as (Hstep & log' & Hr' & He).
    destruct (apply_next_frame core_id n w log (rd_store _ _ _ _ _ Hr) Hlim) as (F1 & F2 & _ & _ & _ & Hp).
    rewrite Hb in Hstep. injection Hstep as -> ->. exists log', out, pend. split; [|done].
    destruct Hi as [_ Ho Hq Hpe Hs Hcyc]. cbn -[bufs_of] in *. split; cbn -[bufs_of]; rewrite ?F2; try done. intros Hc. specialize (Hcyc Hc).
    eapply cycle_mono; [exact Hcyc|done|done| |done]. done.
  - destruct pend as [|c pend].
    + destruct (wp_Ok _ _ _ (wp_drain_none core_id listen_fd w log out b (si_ready _ _ _ _ _ Hi))) as (p' & w2 & Hd2 & -> & br' & -> & Hf & Hr').
      rewrite Hd in Hd2. apply pair_equal_spec in Hd2 as [-> [= ->]]. exists log, out, []. split; [|apply log_extends_refl].
      destruct Hi as [Hr Ho Hq Hp Hs Hcyc]. cbn -[bufs_of] in *.
      assert (same_storage (w_bufs w) br') as (S1 & S2 & S3).
      { destruct b; [|by subst]. destruct (flush_bufs _ (rd_bufs _ _ _ _ _ Hr)) as (b2 & Hf2 & _ & Hsame). rewrite Hf in Hf2. by injection Hf2 as <-. }
      split; cbn; rewrite ?S1, ?S3; try done. intros Hc. by eapply drained_cycle.
    + destruct Hi as [Hr Ho Hq Hp Hs Hcyc]. cbn -[bufs_of] in *. apply Forall_cons in Hp as [Hc Hp]. pose proof (rd_bufs _ _ _ _ _ Hr) as Hbufs.
      assert (local_sequence w <= store_limit) as Hlim by (unfold room_for_writes in Hroom; lia).
      destruct (wp_Ok _ _ _ (wp_drain_some core_id listen_fd Hlisten w log out c pend b Hr Ho Hlim Hc)) as (p' & w2 & Hd2 & -> & log' & out' & Hr' & Ho' & He & Ha).
      rewrite Hd in Hd2. apply pair_equal_spec in Hd2 as [-> [= ->]]. exists log', out', pend. split; [|done].
      pose proof Ha as (_ & _ & _ & (S1 & S2 & S3) & _). split; cbn; rewrite ?S1, ?S3; try done. intros Hcm. by eapply after_cycle.
  - destruct (si_ready _ _ _ _ _ Hi) as [[g H1] H2 H3 H4 H5 H6]. cbn -[bufs_of] in *. destruct (kernel_at _ _ _ _ _ _ _ H1 Hk) as (out' & Hout & Hr').
    exists log, out', (pend ++ posted). split; [|apply log_extends_refl]. eapply posted_inv; [exact Hi|done|done| |done|done].
    split; try done; [by eexists|by apply (store_holds_same w)].
  - exists log, out, pend. split; [|apply log_extends_refl]. destruct Hi as [Hr Ho Hq Hp Hs Hcyc]. cbn -[bufs_of] in *. split; cbn; try done.
    + apply Forall_app. split; [done|]. apply Forall_singleton. apply (bo_bids _ (rd_bufs _ _ _ _ _ Hr)).
      unfold pick in Hpick. destruct (_ =? _); [done|]. by eapply list_elem_of_lookup_2.
    + intros Hc. eapply select_cycle; [by apply Hcyc|by apply Hcalm|by apply Hr|done].
  - exists log, out, pend. split; [|apply log_extends_refl]. destruct Hi as [Hr Ho Hq Hp Hs Hcyc]. cbn -[bufs_of] in *. split; cbn; try done.
    + destruct Hr as [H1 H2 H3 H4 H5 H6]. split; try done; [|by apply (store_holds_same w)]. cbn.
      rewrite Forall_forall in Hs. specialize (Hs _ Hid). pose proof (bo_size _ H2).
      rewrite len_splice; [done|nia|rewrite H3; nia].
  - exists log, out, pend. split; [|apply log_extends_refl]. destruct Hi as [Hr Ho Hq Hp Hs Hcyc]. cbn -[bufs_of] in *. split; cbn; try done.
    + destruct Hr as [H1 H2 H3 [R1 R2 R3 R4] H5 H6]. split; try done. split; try done. cbn. by eapply background_represents.
  - exists log, out, pend. split; [|apply log_extends_refl]. destruct Hi as [Hr Ho Hq Hp Hs Hcyc]. cbn -[bufs_of] in *. split; cbn; try done.
    + destruct Hr as [H1 H2 H3 H4 H5 H6]. split; try done; [by apply (store_holds_same w)|cbn; unfold len in *; by rewrite Hl].
Qed.

(** ** The start *)

Lemma ring_full_ok b : ring_full b -> 0 <= buf_size b -> bufs_ok b.
Proof.
  intros (h & t & avail & Hs & _ & _ & Hp) Hsz.
  pose proof (slots_pos _ _ _ _ Hs) as Hpos. destruct (slots_size _ _ _ _ Hs) as (H1 & H2 & H3).
  split; [done|done|by apply (slots_len _ _ _ _ Hs)| |done]. intros e [i Hi]%list_elem_of_lookup.
  pose proof (lookup_lt_Some _ _ _ Hi) as Hlt. pose proof (slots_len _ _ _ _ Hs) as Hl. unfold len in Hl.
  pose proof (Permutation_length Hp) as Hpl. rewrite length_seqZ in Hpl.
  pose proof (Z.mod_pos_bound (Z.of_nat i - h) (b_entries b) Hpos) as Hj. set (j := (Z.of_nat i - h) mod b_entries b) in *.
  destruct (lookup_lt_is_Some_2 avail (Z.to_nat j)) as [id Hid]; [lia|]. destruct (slots_at _ _ _ _ Hs _ _ Hid) as (e' & He' & Hbid & _).
  assert ((h + Z.of_nat (Z.to_nat j)) mod b_entries b = Z.of_nat i) as Hmod.
  { rewrite Z2Nat.id by lia. unfold j. rewrite Z.add_mod_idemp_r by lia. replace (h + (Z.of_nat i - h)) with (Z.of_nat i) by lia. apply Z.mod_small. lia. }
  rewrite Hmod, Nat2Z.id, Hi in He'. injection He' as <-. rewrite Hbid. apply list_elem_of_lookup_2 in Hid. rewrite Hp in Hid. apply elem_of_seqZ in Hid. lia.
Qed.

Definition listen_request : io_uring_sqe := prep_accept_multishot sqe_default listen_fd.

(** What the start relies on: the kernel's layout of the ring, and that it takes the
    accept and may complete it at once. *)
Record start_ok (k : kernel_setup) (enter : syscall_enter) (d : D) (qs : list (list InterCoreTask)) (posted : list io_uring_cqe) : Prop := {
  st_setup fd p : setup k RING_ENTRIES (Z.lor IORING_SETUP_SINGLE_ISSUER IORING_SETUP_CLAMP) = (fd, p) -> 0 <= fd -> setup_ok k p;
  st_enter u : ring_has u [listen_request] [] -> enter_ok enter u [listen_request] posted;
  st_posted c : c ∈ posted -> user_data c = sqe_user_data listen_request /\ is_i32 (res c);
  st_store : represents d [] 0;
  st_core : 0 <= core_id < len qs;
  st_tasks : Forall (Forall task_ok) qs
}.

Lemma uring_new_outcome k : (forall fd p, setup k RING_ENTRIES (Z.lor IORING_SETUP_SINGLE_ISSUER IORING_SETUP_CLAMP) = (fd, p) -> 0 <= fd -> setup_ok k p) ->
  match (Uring_new k RING_ENTRIES).2 with Ok (u, _) => ring_has u [] [] /\ 0 < sq_entries u | Err _ => True | _ => False end.
Proof.
  intros Hs. destruct (setup k RING_ENTRIES (Z.lor IORING_SETUP_SINGLE_ISSUER IORING_SETUP_CLAMP)) as [fd p] eqn:Heq.
  assert (forall o, (Uring_new k RING_ENTRIES).2 = o -> match o with Ok (u, _) => ring_has u [] [] /\ 0 < sq_entries u | Err _ => True | _ => False end) as Hall; [|by apply Hall].
  intros o Ho. unfold Uring_new in Ho. rewrite Heq in Ho. destruct (Z.ltb_spec fd 0) as [|Hfd]; [by subst o|].
  destruct (map_ring k (ring_size_of p)) eqn:Hm1; [|by subst o]. destruct (map_sqes k (sqes_size p)) eqn:Hm2; [|by subst o].
  destruct (uring_new_holds k RING_ENTRIES fd p Heq Hfd (Hs _ _ eq_refl Hfd) Hm1 Hm2) as (u & Hn & [g [Hr _]] & _).
  unfold Uring_new in Hn. rewrite Heq, (proj2 (Z.ltb_ge _ _) Hfd), Hm1, Hm2 in Hn. rewrite Hn in Ho. subst o. split; [by exists g|].
  destruct (at_sq _ _ _ _ Hr) as ([?%Z.ltb_lt _]%andb_true_iff & _). done.
Qed.

Lemma accepts_fill_nothing posted : (forall c, c ∈ posted -> user_data c = sqe_user_data listen_request /\ is_i32 (res c)) -> bufs_of posted = [].
Proof.
  intros Hp. unfold bufs_of.
  assert (filter (fun c => fills c = true) posted = []) as ->; [|done]. apply elem_of_nil_inv. intros c [Hf Hc]%list_elem_of_filter.
  destruct (Hp _ Hc) as [Hu _]. unfold fills in Hf. rewrite Hu in Hf. cbn -[decode_op encode_user_data] in Hf. by rewrite decode_op_encode in Hf.
Qed.

(** ** Theorems *)

Lemma sys_reachable_inv calm s : reachable calm s -> exists log out pend, sys_inv calm s log out pend.
Proof.
  induction 1 as [s [w reqs pend out Hr Ho Hq Hp Hb Hi]|s s' _ (log & out & pend & Hi) Hst].
  - exists [], out, pend. split; cbn -[bufs_of]; try done.
    + apply Forall_forall. intros c Hc. destruct (Hp c Hc) as (e & He & Hu & H32). destruct (proj1 (Forall_forall _ _) Hq e He) as (Hop & _ & Hops). split; [|split].
      * unfold is_op. by rewrite Hu, Hop.
      * done.
      * intros Hf. exfalso. assert (buffer_id c ∈ bufs_of pend) as Hin; [|rewrite Hb in Hin; by apply elem_of_nil in Hin].
        apply list_elem_of_fmap_2. by apply list_elem_of_filter.
    + intros _. destruct Hi as (h & t & avail & Hs & Hh & Ht & Hperm). exists h, t, avail. cbn -[bufs_of] in *. rewrite Hb. cbn [app]. by rewrite app_nil_r.
  - destruct (sys_step_inv calm s s' log out pend Hi Hst) as (log' & out' & pend' & Hi' & _). by exists log', out', pend'.
Qed.

Lemma start_initial k a enter d qs posted : start_ok k enter d qs posted ->
  match worker_new listen_fd k a enter (Ok d) qs with
  | Ok w => initial (mk_system w Waiting [listen_request] 0 []) /\ local_sequence w = 1 /\ queues w = qs
  | Err _ => True
  | _ => False
  end.
Proof.
  intros [Hset Hent Hpost Hst Hc Ht]. unfold worker_new.
  pose proof (uring_new_outcome k Hset) as Hu. destruct (Uring_new k RING_ENTRIES).2 as [[u rs]|e| |]; try done. destruct Hu as [Hu Hpos]. cbn [mbind outcome_bind].
  pose proof (new_outcome a BUFFER_GROUP_ID BUF_RING_ENTRIES BUF_SIZE ltac:(done) ltac:(done)) as Hb.
  destruct (BufRing_new a BUFFER_GROUP_ID BUF_RING_ENTRIES BUF_SIZE).2 as [br|e| |]; try done. destruct Hb as (Hb & Hbe & Hbs). cbn [mbind outcome_bind].
  pose proof (len_zeros (BUF_RING_ENTRIES * BUF_SIZE)) as Hmem. revert Hmem. generalize (zeros (BUF_RING_ENTRIES * BUF_SIZE)) as mem. intros mem Hmem.
  set (w := mk_Worker _ _ _ _ _ _ _ _ _).
  destruct (with_sqe_has (fun sqe => prep_accept_multishot sqe listen_fd) u [] [] Hu) as (u1 & Hw1 & Hu1 & He1).
  unfold added in Hu1. change (len (@nil io_uring_sqe)) with 0 in *. rewrite (proj2 (Z.ltb_lt _ _)) in Hw1, Hu1 by done. change ([] ++ [_]) with [listen_request] in Hu1.
  unfold mbind, st_bind, on_ring. cbn [w_ring w]. rewrite Hw1. cbv iota beta. cbn [w_ring set_ring].
  pose proof Hu1 as [g Hr1]. pose proof (Hent _ Hu1) as Hk.
  assert (available u1 <> 0) as Hav.
  { rewrite (at_available _ _ _ _ Hr1). pose proof (at_out _ _ _ _ Hr1) as Hlo. pose proof (at_order _ _ _ _ Hr1). change (len [listen_request]) with 1 in Hlo. lia. }
  destruct (submit enter u1) as [u2 r] eqn:Hsub. destruct (submit_at _ _ _ _ _ _ _ _ _ Hr1 Hk (or_introl (conj Hav Hsub))) as (Hsafe & g' & out' & Hout & Hr2).
  destruct r as [n|e| |]; try done. change (mret tt : st Worker io_error unit) with (fun w : Worker (D := D) => (w, @Ok io_error unit tt)). cbv beta iota.
  destruct out' as [|? ?]; [|done]. split; [|done]. apply (sys_start _ [listen_request] posted []).
  - split; try done; [by exists g'|apply (ring_full_ok br); [done|by rewrite Hbs]| |].
    + cbn [memory w_bufs set_ring w]. by rewrite Hbe, Hbs, Hmem.
    + split; try done; constructor.
  - constructor.
  - apply Forall_singleton. unfold listen_request. auto with tags.
  - intros c Hcp. destruct (Hpost c Hcp). exists listen_request. split_and!; [by left|done..].
  - by apply accepts_fill_nothing.
  - done.
Qed.

Lemma started_initial k a enter d qs posted w : start_ok k enter d qs posted -> worker_new listen_fd k a enter (Ok d) qs = Ok w ->
  initial (mk_system w Waiting [listen_request] 0 []) /\ local_sequence w = 1 /\ queues w = qs.
Proof. intros Hs Hw. pose proof (start_initial k a enter d qs posted Hs) as Hi. by rewrite Hw in Hi. Qed.

Lemma start_reachable calm k a enter d qs posted : start_ok k enter d qs posted ->
  match worker_new listen_fd k a enter (Ok d) qs with
  | Ok w => reachable calm (mk_system w Waiting [listen_request] 0 [])
  | Err _ => True
  | _ => False
  end.
Proof. intros Hs. pose proof (start_initial k a enter d qs posted Hs) as H1. destruct (worker_new _ _ _ _ _ _); try done. apply sys_initial, H1. Qed.

(** The start gives a running worker: [run_worker] sets up its rings, finds a free
    entry for the accept, and submits it, or fails with the error of a system call;
    it does not panic, and the worker it enters its loop with starts a run. *)
Theorem server_starts calm k a enter d qs posted : start_ok k enter d qs posted ->
  match worker_new listen_fd k a enter (Ok d) qs with
  | Ok w => reachable calm (mk_system w Waiting [listen_request] 0 [])
  | Err _ => True
  | _ => False
  end.
Proof. apply start_reachable. Qed.

Lemma worker_safe calm s : reachable calm s -> room_for_writes (worker s) ->
  (exists log out pend, ring_has (w_ring (worker s)) out pend /\ tagged_out out /\ store_holds (worker s) log) /\
  match where_ s with
  | Waiting => forall enter taken posted, enter_ok enter (w_ring (worker s)) taken posted -> safe (wait_round enter (worker s)).2
  | Applying n => exists w' p, apply_step core_id n (worker s) = (w', Ok p)
  | Draining b => exists w' p, drain_step core_id listen_fd b (worker s) = (w', Ok p)
  | Stopped _ => True
  end.
Proof.
  intros (log & out & pend & [Hr Ho Hq Hp Hs Hcyc])%sys_reachable_inv Hroom. split.
  { exists log, out, pend. split; [apply Hr|]. split; [done|apply Hr]. }
  destruct (where_ s) as [|n|b|e]; [| | |done].
  - intros enter taken posted Hk. pose proof (wait_round_post core_id _ _ _ _ _ _ _ Hr Hk) as Hb.
    destruct (wait_round enter (worker s)) as [w' r]. by destruct Hb as [_ Hb].
  - destruct (apply_step_next core_id n _ _ _ _ Hr) as [Hstep _]; [unfold room_for_writes in Hroom; lia|]. by eexists _, _.
  - destruct pend as [|c pend].
    + destruct (wp_Ok _ _ _ (wp_drain_none core_id listen_fd _ _ _ b Hr)) as (p & w' & Hd & _). by exists w', p.
    + apply Forall_cons in Hp as [Hc _]. assert (local_sequence (worker s) <= store_limit) as Hlim by (unfold room_for_writes in Hroom; lia).
      destruct (wp_Ok _ _ _ (wp_drain_some core_id listen_fd Hlisten _ _ _ _ _ b Hr Ho Hlim Hc)) as (p & w' & Hd & _). by exists w', p.
Qed.

(** C11: The worker never panics and never leaves its arrays: in every reachable state,
    whatever the kernel, the other cores and the store's threads have done, the next
    [submit_and_wait] ends in a value or the kernel's error, and the next iteration
    of either loop in a value; the requests it has prepared carry the tag of their
    operation and descriptor; and the store's accepted writes have increasing
    sequence numbers below the next one. *)
Theorem server_safe calm s : reachable calm s -> room_for_writes (worker s) ->
  (exists log out pend, ring_has (w_ring (worker s)) out pend /\ tagged_out out /\ store_holds (worker s) log) /\
  match where_ s with
  | Waiting => forall enter taken posted, enter_ok enter (w_ring (worker s)) taken posted -> safe (wait_round enter (worker s)).2
  | Applying n => exists w' p, apply_step core_id n (worker s) = (w', Ok p)
  | Draining b => exists w' p, drain_step core_id listen_fd b (worker s) = (w', Ok p)
  | Stopped _ => True
  end.
Proof. apply worker_safe. Qed.

(** C22: No buffer is received into twice: in every reachable state of a run in which
    the kernel selects no buffer between a [recycle] and the [flush] behind it, the
    buffers being filled and those of the completions that wait are all different,
    and the kernel selects none of them, except between a [recycle] and its
    [flush]. *)
Theorem server_buffers_disjoint s : reachable True s -> exists out pend, ring_has (w_ring (worker s)) out pend /\
  NoDup (selected s ++ bufs_of pend) /\
  forall e, where_ s <> Draining true -> pick (w_bufs (worker s)) (kernel_head s) = Some e ->
    (bid e ∉ selected s ++ bufs_of pend) /\ 0 <= bid e < b_entries (w_bufs (worker s)).
Proof.
  intros (log & out & pend & [Hr Ho Hq Hp Hs Hcyc])%sys_reachable_inv. exists out, pend. split; [apply Hr|].
  pose proof (Hcyc I) as Hc. pose proof Hc as (h & t & avail & _ & _ & _ & Hperm).
  assert (NoDup (avail ++ selected s ++ bufs_of pend)) as (_ & _ & Hnd)%NoDup_app by (rewrite Hperm; apply NoDup_seqZ).
  split; [done|]. intros e Hw Hpick. destruct s as [w p reqs kh sel]. cbn -[bufs_of] in *.
  pose proof (select_cycle e w p reqs kh sel pend Hc Hw (rd_bufs _ _ _ _ _ Hr) Hpick) as (h2 & t2 & avail2 & _ & _ & _ & Hperm2).
  cbn -[bufs_of] in Hperm2. assert (NoDup (avail2 ++ (sel ++ [bid e]) ++ bufs_of pend)) as (_ & _ & Hnd2)%NoDup_app by (rewrite Hperm2; apply NoDup_seqZ).
  split.
  - intros Hin. rewrite <- (assoc_L (++)) in Hnd2. apply NoDup_app in Hnd2 as (_ & Hd & Hnd3).
    apply NoDup_app in Hnd3 as (_ & Hd2 & _). apply elem_of_app in Hin as [Hin|Hin].
    + apply (Hd _ Hin). apply elem_of_app. left. by apply list_elem_of_singleton.
    + apply (Hd2 (bid e)); [by apply list_elem_of_singleton|done].
  - assert (bid e ∈ seqZ 0 (b_entries (w_bufs w))) as Hin; [|apply elem_of_seqZ in Hin; lia]. rewrite <- Hperm2, !elem_of_app, list_elem_of_singleton. auto.
Qed.

End run.

(** ** Examples *)

Definition take_one : syscall_enter := kernel_enter 1 1 [].

Lemma take_one_ok u e : ring_has u [e] [] -> enter_ok take_one u [e] [].
Proof.
  intros [g Hr] a b c. cbn. pose proof (publish_at _ _ _ _ Hr) as Hp. pose proof (at_out _ _ _ _ Hp) as Ho. pose proof (at_pend _ _ _ _ Hp) as Hpe.
  cbn in Ho, Hpe. destruct (at_values _ _ _ _ Hp) as (_ & _ & _ & _ & _ & Hct). cbn in Hct.
  split; try done; cbn.
  - pose proof (at_published _ _ _ _ Hp) as Hpub. cbn in Hpub. rewrite Hpub. change (len [e]) with 1 in *. lia.
  - intros j x [-> <-]%list_lookup_singleton_Some. change (sq_head u) with (sq_head (publish u)). rewrite (sqe_at_index _ _ _ _ _ Hp).
    by apply (at_sqes _ _ _ _ Hp 0%nat).
  - rewrite Hct, wrap32_idem_add. by rewrite len_nil, Z.add_0_r.
  - pose proof (at_completions _ _ _ _ Hp) as Hc. cbn in Hc. rewrite Hc. pose proof (at_cq_order _ _ _ _ Hp) as Hco. cbn in Hco. change (len (@nil io_uring_cqe)) with 0. lia.
Qed.

Lemma server_starts_witness :
  match worker_new 3 example_setup example_alloc take_one (Ok ([] : list entry)) [[]] with
  | Ok w => reachable 0 3 True (mk_system w Waiting [listen_request 3] 0 [])
  | Err _ => True
  | _ => False
  end.
Proof.
  apply (server_starts 0 3 ltac:(done) True example_setup example_alloc take_one [] [[]] []). split.
  - intros fd p [= <- <-] _. exact example_setup_ok.
  - intros u Hu. by apply take_one_ok.
  - intros c Hc. by apply elem_of_nil in Hc.
  - done.
  - done.
  - repeat constructor.
Defined.

(** A client (descriptor 5) writes 7 := 42 and reads 7; then two more receives
    arrive before its reply is sent. *)
Definition start_requests : list io_uring_sqe := [prep_recv_multishot sqe_default 5 0; prep_recv_multishot sqe_default 6 0].
Definition secret : bytes := to_be_bytes 8 (2 ^ 63).

Definition fill (id : Z) (bs : bytes) (w : Worker (D := list entry)) : Worker := set_memory (splice (memory w) (id * buf_size (w_bufs w)) bs) w.
Definition both_enter : syscall_enter := kernel_enter 0 0 [recv_cqe 5 0 17; recv_cqe 5 1 9].
Definition filled : Worker := fill 1 (encode_get 7) (fill 0 (encode_set 7 42) small_worker).
Definition posted_both : Worker := (wait_round both_enter filled).1.
Definition stored_seven : Worker := (drain_step 0 3 false posted_both).1.
Definition replied : Worker := (drain_step 0 3 true stored_seven).1.
Definition flushed : Worker := (drain_step 0 3 true replied).1.
Definition overwritten : Worker := fill 1 secret flushed.

Definition last_state : system (list entry) := mk_system overwritten Waiting start_requests 4 [0; 1].

Lemma both_enter_ok : enter_ok both_enter (w_ring filled) [] [recv_cqe 5 0 17; recv_cqe 5 1 9].
Proof.
  intros a b c. split.
  - vm_compute. reflexivity.
  - vm_compute. discriminate.
  - intros j e Hj. by rewrite lookup_nil in Hj.
  - vm_compute. reflexivity.
  - vm_compute. discriminate.
  - vm_compute. reflexivity.
  - intros j e Hj. destruct j as [|[|j]]; [injection Hj as <-; vm_compute; reflexivity..|]. apply lookup_lt_Some in Hj. cbn in Hj. lia.
  - intros j Hj. assert (wrap32 (cq_tail (publish (w_ring filled)) - cq_head (publish (w_ring filled))) = 0) as Hz by (vm_compute; reflexivity). lia.
  - vm_compute. by split_and!.
Qed.

Lemma small_reachable : reachable 0 3 True (mk_system small_worker Waiting start_requests 0 []).
Proof.
  apply sys_initial, (sys_start 0 small_worker start_requests [] []); [exact small_ready|by constructor| |intros c Hc; by apply elem_of_nil in Hc|done|].
  - repeat (apply Forall_cons; split; [by apply tagged_recv|]). by constructor.
  - by apply (buf_new_inv example_alloc 0 2 512).
Qed.

Lemma overwritten_reachable : reachable 0 3 True last_state.
Proof.
  assert (reachable 0 3 True (mk_system small_worker Waiting start_requests 2 [0; 1])) as H1.
  { eapply (sys_next 0 3 True (mk_system small_worker Waiting start_requests 1 [0])); [eapply sys_next; [exact small_reachable|]|].
    - right; left. apply (kernel_select True (mk_buf 65536 512 0 2) small_worker Waiting start_requests 0 []); [done|vm_compute; reflexivity].
    - right; left. apply (kernel_select True (mk_buf 66048 512 1 0) small_worker Waiting start_requests 1 [0]); [done|vm_compute; reflexivity]. }
  assert (reachable 0 3 True (mk_system filled Waiting start_requests 2 [0; 1])) as H2.
  { eapply sys_next; [eapply sys_next; [exact H1|]|].
    - right; left. apply (kernel_fill True 0 (encode_set 7 42)); [by left|vm_compute; discriminate].
    - right; left. apply (kernel_fill True 1 (encode_get 7)); [by right; left|vm_compute; discriminate]. }
  assert (reachable 0 3 True (mk_system posted_both (Applying 16) (start_requests ++ []) 2 [])) as H3.
  { refine (sys_next _ _ _ _ _ H2 (or_introl (worker_wait 0 3 both_enter [] [recv_cqe 5 0 17; recv_cqe 5 1 9] filled posted_both (Ok 0) start_requests 2 [0; 1] [] _ _ _))).
    - exact both_enter_ok.
    - split.
      + intros c Hc. exists (prep_recv_multishot sqe_default 5 0). split; [by left|].
        apply elem_of_cons in Hc as [->|Hc]; [done|]. by apply list_elem_of_singleton in Hc as ->.
      + intros c Hc. apply elem_of_cons in Hc as [->|Hc]; [by vm_compute|]. apply list_elem_of_singleton in Hc as ->. by vm_compute.
      + assert (bufs_of [recv_cqe 5 0 17; recv_cqe 5 1 9] = [0; 1]) as -> by (vm_compute; reflexivity). done.
    - vm_compute. reflexivity. }
  assert (reachable 0 3 True (mk_system flushed Waiting (start_requests ++ []) 2 [])) as H4.
  { eapply sys_next; [eapply sys_next; [eapply sys_next; [eapply sys_next; [exact H3|]|]|]|].
    - left. apply (worker_apply 0 3 16 posted_both posted_both (Draining false)); [vm_compute; discriminate|vm_compute; reflexivity].
    - left. apply (worker_drain 0 3 false posted_both stored_seven (Draining true)); [vm_compute; discriminate|vm_compute; reflexivity].
    - left. apply (worker_drain 0 3 true stored_seven replied (Draining true)); [vm_compute; discriminate|vm_compute; reflexivity].
    - left. apply (worker_drain 0 3 true replied flushed Waiting); [vm_compute; discriminate|vm_compute; reflexivity]. }
  assert (reachable 0 3 True (mk_system flushed Waiting start_requests 4 [0; 1])) as H5.
  { eapply (sys_next 0 3 True (mk_system flushed Waiting start_requests 3 [0])); [eapply sys_next; [exact H4|]|].
    - right; left. apply (kernel_select True (mk_buf 65536 512 0 4) flushed Waiting start_requests 2 []); [done|vm_compute; reflexivity].
    - right; left. apply (kernel_select True (mk_buf 66048 512 1 0) flushed Waiting start_requests 3 [0]); [done|vm_compute; reflexivity]. }
  refine (sys_next _ _ _ _ _ H5 (or_intror (or_introl (kernel_fill True 1 secret flushed Waiting start_requests 4 [0; 1] _ _)))).
  - by right; left.
  - vm_compute. discriminate.
Qed.

(** A reply is sent from a buffer that is no longer the worker's.  In this reachable
    state client 5 has read key 7 and the reply was written as 42; the request that
    sends it is still in the ring, for 8 bytes at the address of buffer 1; but the
    buffer was recycled when the reply was prepared, the kernel has selected it for
    another receive, and the 8 bytes are that client's. *)
Theorem server_reply_overwritten :
  reachable 0 3 True last_state /\
  received flushed 1 8 = to_be_bytes 8 42 /\
  sqe_at (w_ring (worker last_state)) 0 = Some (prep_send sqe_default 5 (get_buffer_ptr 1 (w_bufs (worker last_state))) 8) /\
  sq_head (w_ring (worker last_state)) = 0 /\
  (1 ∈ selected last_state) /\
  received (worker last_state) 1 8 = secret /\ secret <> to_be_bytes 8 42.
Proof.
  split; [exact overwritten_reachable|]. split_and!; try (vm_compute; reflexivity); [right; left|vm_compute; discriminate].
Qed.

Lemma last_room : room_for_writes (worker last_state).
Proof. vm_compute. discriminate. Qed.

Lemma server_safe_witness : exists log out pend, ring_has (w_ring overwritten) out pend /\ tagged_out out /\ store_holds overwritten log.
Proof. destruct (server_safe 0 3 ltac:(done) True last_state overwritten_reachable last_room) as [H _]. exact H. Defined.

Lemma server_buffers_disjoint_witness : exists out pend, ring_has (w_ring overwritten) out pend /\ NoDup ([0; 1] ++ bufs_of pend).
Proof.
  destruct (server_buffers_disjoint 0 3 ltac:(done) last_state overwritten_reachable) as (out & pend & H1 & H2 & _).
  exists out, pend. split; [exact H1|exact H2].
Defined.
