(* ===== verification/Cluster.v ===== *)
(** * The cores together (uring-engine/src/main.rs)

    [main] makes one task queue for each core and spawns [run_worker] once for each;
    the queues are all the workers share.  A cluster is the workers of ServerRun.v,
    each with its own kernel, ring, buffers and store, over one list of queues; its
    steps are those of any worker or of its surroundings, in any order, and a run
    records the writes that the workers make.

    [cluster_routes]: the queue of a core holds exactly what the core before it handed
    over and it has not applied, in order; a write is dropped only when 2048 wait.
    [cluster_stores]: the store of a core has the accepted ones of its own writes, in
    order, and no worker panics.  [cluster_reads]: a key is found only at the core
    that served its write and at the next one.  [replicas_diverge]: two cores that
    write one key exchange their values and keep them, for ever. *)

From S2P Require Import Prelude.
From S2P Require Import Block.
From S2P Require Import MemTable.
From S2P Require Import UringOp.
From S2P Require Import Uring.
From S2P Require Import BufRing.
From S2P Require Import Server.
From S2P Require Import ServerRun.
#[local] Open Scope Z_scope.

(** A write at a core: served to a client, or applied from the core's queue; [ok] is
    whether the store's [put] answered [Ok]. *)
Inductive event := Served (key val : Z) (ok : bool) | Applied (key val : Z) (ok : bool).

Definition event_pair (e : event) : Z * Z := match e with Served k v _ | Applied k v _ => (k, v) end.
Definition event_answer (e : event) : bool := match e with Served _ _ ok | Applied _ _ ok => ok end.
Definition is_served (e : event) : bool := match e with Served _ _ _ => true | _ => false end.

Definition events_of (i : nat) (tr : list (nat * event)) : list event := snd <$> filter (fun x => x.1 = i) tr.
Definition writes (i : nat) (tr : list (nat * event)) : list (Z * Z) := event_pair <$> events_of i tr.
Definition served (i : nat) (tr : list (nat * event)) : list (Z * Z) := event_pair <$> filter (fun e => is_served e = true) (events_of i tr).
Definition applied (i : nat) (tr : list (nat * event)) : list (Z * Z) := event_pair <$> filter (fun e => is_served e = false) (events_of i tr).

Definition task_pair (t : InterCoreTask) : Z * Z := let '(ReplicateWrite key val) := t in (key, val).

Section cluster.
  Context {D : Type} `{SS : StoreSpec D} (listen : nat -> Z) (Hlisten : forall i, is_i32 (listen i)).

Definition put_answer (key val : Z) (w : Worker (D := D)) : bool :=
  answered (db_put (to_be_bytes 8 key) (to_be_bytes 8 val) (local_sequence w) (db_node w)).2.

(** The write of the worker's next step. *)
Definition next_write (i : nat) (s : system D) : list (nat * event) :=
  let w := worker s in
  match where_ s with
  | Applying (S _) => match queues w !! i with Some (ReplicateWrite k v :: _) => [(i, Applied k v (put_answer k v w))] | _ => [] end
  | Draining _ =>
      match peek_cqe (w_ring w) with
      | Ok (Some c) =>
          if fills c then match parse (received w (buffer_id c) (res c)) with SetRequest k v => [(i, Served k v (put_answer k v w))] | _ => [] end
          else []
      | _ => []
      end
  | _ => []
  end.

(** ** The cluster

    [None] is a core whose thread has not got to its loop. *)
Record cluster := mk_cluster {
  cores : list (option (system D));
  shared : list (list InterCoreTask)
}.

Definition main_start (num_cores : nat) : cluster := mk_cluster (replicate num_cores None) (replicate num_cores []).

Inductive cluster_step (calm : Prop) : cluster -> list (nat * event) -> cluster -> Prop :=
| spawn i s c : cores c !! i = Some None -> initial (Z.of_nat i) s -> local_sequence (worker s) = 1 -> queues (worker s) = shared c ->
    cluster_step calm c [] (mk_cluster (<[i := Some s]> (cores c)) (shared c))
| core_step i s s' c : cores c !! i = Some (Some s) -> own_step (Z.of_nat i) (listen i) (with_queues (shared c) s) s' ->
    cluster_step calm c (next_write i (with_queues (shared c) s)) (mk_cluster (<[i := Some s']> (cores c)) (queues (worker s')))
| outside_step i s s' c : cores c !! i = Some (Some s) -> env_step calm s s' ->
    cluster_step calm c [] (mk_cluster (<[i := Some s']> (cores c)) (shared c)).

Inductive cluster_run (calm : Prop) (c0 : cluster) : list (nat * event) -> cluster -> Prop :=
| run_start : cluster_run calm c0 [] c0
| run_step tr c ev c' : cluster_run calm c0 tr c -> cluster_step calm c ev c' -> cluster_run calm c0 (tr ++ ev) c'.

(** ** What the handlers leave alone *)

Definition same_store (w w' : Worker (D := D)) : Prop :=
  db_node w' = db_node w /\ local_sequence w' = local_sequence w /\ queues w' = queues w.

Lemma same_store_refl w : same_store w w.
Proof. done. Qed.
Lemma same_store_trans a b c : same_store a b -> same_store b c -> same_store a c.
Proof. intros (? & ? & ?) (? & ? & ?). split_and!; congruence. Qed.

Definition keeps {A} (c : st (Worker (D := D)) io_error A) : Prop := forall w, same_store w (c w).1.

Lemma keeps_ret {A} (a : A) : keeps (mret a).
Proof. done. Qed.
Lemma keeps_lift {A} (o : outcome io_error A) : keeps (lift o).
Proof. done. Qed.
Lemma keeps_get : keeps get_state.
Proof. done. Qed.
Lemma keeps_ring {A} (c : st Uring io_error A) : keeps (on_ring c).
Proof. intros w. unfold on_ring. by destruct (c (w_ring w)). Qed.
Lemma keeps_close fd : keeps (close_fd fd).
Proof. done. Qed.
Lemma keeps_change f : (forall w, same_store w (f w)) -> keeps (change f).
Proof. intros Hf w. apply Hf. Qed.
Lemma keeps_bind {A B} (c : st Worker io_error A) (f : A -> st Worker io_error B) : keeps c -> (forall a, keeps (f a)) -> keeps (c ≫= f).
Proof.
  intros Hc Hf w. specialize (Hc w). unfold mbind, st_bind. destruct (c w) as [w1 [a|e| |]]; try exact Hc.
  eapply same_store_trans; [exact Hc|apply Hf].
Qed.

End cluster.

Create HintDb keeps discriminated.
#[export] Hint Resolve keeps_ret keeps_lift keeps_get keeps_ring keeps_close : keeps.
Ltac keeps := repeat first [done | solve [auto with keeps] | apply keeps_bind; [|intros ?] | apply keeps_change; intros ?; done | case_match].

Section steps.
  Context {D : Type} `{SS : StoreSpec D} (listen : nat -> Z) (Hlisten : forall i, is_i32 (listen i)).
  Implicit Types (w : Worker (D := D)).

Lemma keeps_client fd : keeps (D := D) (close_client fd).
Proof. unfold close_client. keeps. Qed.
Lemma keeps_accept fd r flags : keeps (D := D) (on_accept fd r flags).
Proof. unfold on_accept. keeps. Qed.
Lemma keeps_bufs (f : BufRing -> outcome io_error BufRing) : keeps (D := D) (on_bufs f).
Proof. unfold on_bufs. keeps. Qed.

Lemma keeps_dispatch core_id fd c : fills c = false -> keeps (D := D) (dispatch core_id fd c).
Proof.
  intros Hf. unfold dispatch. destruct (_ =? IORING_OP_ACCEPT); [apply keeps_bind; [apply keeps_accept|keeps]|].
  unfold fills in Hf. destruct (_ =? IORING_OP_RECV).
  - cbn [andb] in Hf. unfold on_recv. destruct (Z.leb_spec (res c) 0).
    + apply keeps_bind; [|keeps]. destruct (res c =? - ENOBUFS); [keeps|apply keeps_client].
    + rewrite (proj2 (Z.ltb_lt _ _)) in Hf by done. cbn [andb] in Hf. rewrite Hf. keeps.
  - destruct (_ =? IORING_OP_SEND); [|destruct (_ =? IORING_OP_CLOSE); keeps].
    apply keeps_bind; [unfold on_send; destruct (res c <? 0); [apply keeps_client|keeps]|keeps].
Qed.

(** ** The effect of a step on store and queues *)

Definition effect (i : nat) (ev : list (nat * event)) w w' : Prop :=
  match ev with
  | [] => same_store w w'
  | [(j, Applied k v ok)] => j = i /\ ok = put_answer k v w /\ local_sequence w <= store_limit /\ exists q, queues w !! i = Some (ReplicateWrite k v :: q) /\
      same_store (put_next k v (set_queues (<[i := q]> (queues w)) w)) w'
  | [(j, Served k v ok)] => j = i /\ ok = put_answer k v w /\ local_sequence w <= store_limit /\ is_u64 k /\ is_u64 v /\ same_store (serve (Z.of_nat i) (SetRequest k v) 0 w) w'
  | _ => False
  end.

Lemma own_step_effect calm i s s' : reachable (Z.of_nat i) (listen i) calm s -> own_step (Z.of_nat i) (listen i) s s' ->
  effect i (next_write i s) (worker s) (worker s').
Proof.
  intros (log & out & pend & [Hr Ho Hq Hp Hs Hcyc])%sys_reachable_inv Hst; [|done].
  destruct Hst as [enter taken posted w w' r reqs h sel sel' Hk Hpo Hb|n w w' p reqs h sel Hroom Hb|b w w' p reqs h sel Hroom Hd];
    unfold next_write; cbn [worker where_] in *.
  - pose proof (keeps_ring (D := D) (submit_and_wait enter 1) w) as Hkeep. unfold wait_round in Hb. by rewrite Hb in Hkeep.
  - assert (local_sequence w <= store_limit) as Hlim by (unfold room_for_writes in Hroom; lia).
    destruct (apply_step_next _ n w _ _ _ Hr Hlim) as [Hstep _]. rewrite Hb in Hstep. injection Hstep as -> _.
    destruct n as [|n]; cbn [apply_next]; [done|]. rewrite Nat2Z.id. destruct (queues w !! i) as [[|[k v] q]|] eqn:Hqi; [done| |done].
    split; [done|]. split; [done|]. split; [done|]. by exists q.
  - rewrite (ready_peek _ _ _ _ _ Hr). destruct pend as [|c pend]; cbn [head].
    + destruct (wp_Ok _ _ _ (wp_drain_none _ (listen i) w _ _ b Hr)) as (p' & w2 & Hd2 & _ & br' & -> & _). rewrite Hd in Hd2.
      apply pair_equal_spec in Hd2 as [-> _]. repeat split.
    + apply Forall_cons in Hp as [Hc _]. assert (local_sequence w <= store_limit) as Hlim by (unfold room_for_writes in Hroom; lia).
      destruct (fills c) eqn:Hf.
      * destruct (drain_step_recv _ (listen i) w _ _ c pend b Hr Hlim Hc Hf) as (u' & br' & Hd2 & _). rewrite Hd in Hd2.
        apply pair_equal_spec in Hd2 as [-> _].
        destruct (parse _) as [k v|k|] eqn:Hparse; [|cbn [serve]; by destruct (stored_value w k)|done].
        destruct (parse_length _ _ _ Hparse) as [Hk Hv]. split; [done|]. split; [done|]. split; [done|]. split; [done|]. split; [done|]. cbn [serve]. unfold put_or_sync.
        by destruct (db_put _ _ _ _).
      * unfold drain_step, mbind, st_bind, get_state, lift in Hd. rewrite (ready_peek _ _ _ _ _ Hr) in Hd. cbn [head change] in Hd.
        pose proof (keeps_dispatch (Z.of_nat i) (listen i) c Hf (set_ring (advance_cq 1 (w_ring w)) w)) as Hkeep.
        destruct (dispatch _ _ c _) as [w2 [b2|e| |]]; try done. injection Hd as -> _. exact Hkeep.
Qed.

(** ** Traces *)

Definition entry_of (n : nat) (kv : Z * Z) : entry := (to_be_bytes 8 kv.1, Some (to_be_bytes 8 kv.2), Z.of_nat n + 1).

(** The writes as the store would have them if it accepted all. *)
Definition numbered (ws : list (Z * Z)) : list entry := imap entry_of ws.

(** Those whose [put] answered [Ok]. *)
Definition accepted_of (n : nat) (e : event) : list entry :=
  if event_answer e then [entry_of n (event_pair e)] else [].
Definition accepted (i : nat) (tr : list (nat * event)) : list entry := concat (imap accepted_of (events_of i tr)).

Lemma numbered_snoc ws kv : numbered (ws ++ [kv]) = numbered ws ++ [entry_of (length ws) kv].
Proof. unfold numbered. rewrite imap_app. cbn. by rewrite Nat.add_0_r. Qed.

Lemma events_of_app i a b : events_of i (a ++ b) = events_of i a ++ events_of i b.
Proof. unfold events_of. by rewrite filter_app, fmap_app. Qed.
Lemma events_of_one i j e : events_of i [(j, e)] = if decide (j = i) then [e] else [].
Proof. unfold events_of. rewrite filter_cons. cbn. by case_decide. Qed.

Lemma writes_app i a b : writes i (a ++ b) = writes i a ++ writes i b.
Proof. unfold writes. by rewrite events_of_app, fmap_app. Qed.
Lemma served_app i a b : served i (a ++ b) = served i a ++ served i b.
Proof. unfold served. by rewrite events_of_app, filter_app, fmap_app. Qed.
Lemma applied_app i a b : applied i (a ++ b) = applied i a ++ applied i b.
Proof. unfold applied. by rewrite events_of_app, filter_app, fmap_app. Qed.

Lemma writes_one i j e : writes i [(j, e)] = if decide (j = i) then [event_pair e] else [].
Proof. unfold writes. rewrite events_of_one. by case_decide. Qed.
Lemma served_one i j e : served i [(j, e)] = if decide (j = i /\ is_served e = true) then [event_pair e] else [].
Proof.
  unfold served. rewrite events_of_one. destruct (decide (j = i)) as [->|Hne]; [|by rewrite decide_False by (by intros [])].
  rewrite filter_cons. destruct (decide (is_served e = true)); [by rewrite decide_True|by rewrite decide_False by (by intros [])].
Qed.
Lemma applied_one i j e : applied i [(j, e)] = if decide (j = i /\ is_served e = false) then [event_pair e] else [].
Proof.
  unfold applied. rewrite events_of_one. destruct (decide (j = i)) as [->|Hne]; [|by rewrite decide_False by (by intros [])].
  rewrite filter_cons. destruct (decide (is_served e = false)); [by rewrite decide_True|by rewrite decide_False by (by intros [])].
Qed.

Lemma accepted_snoc i tr e : accepted i (tr ++ [(i, e)]) = accepted i tr ++ accepted_of (length (events_of i tr)) e.
Proof.
  unfold accepted. rewrite events_of_app, events_of_one, decide_True by done. rewrite imap_app, concat_app. cbn.
  by rewrite Nat.add_0_r, app_nil_r.
Qed.

Lemma accepted_other i tr ev : Forall (fun x : nat * event => x.1 <> i) ev -> accepted i (tr ++ ev) = accepted i tr.
Proof.
  intros Hev. unfold accepted. rewrite events_of_app. enough (events_of i ev = []) as -> by by rewrite app_nil_r.
  induction Hev as [|[j e] ev Hj _ IH]; [done|]. change ((j, e) :: ev) with ([(j, e)] ++ ev). by rewrite events_of_app, events_of_one, IH, decide_False.
Qed.

Lemma accepted_none i tr : writes i tr = [] -> accepted i tr = [].
Proof. unfold writes, accepted. by intros ->%fmap_nil_inv. Qed.

(** An accepted write is a write, with its number. *)
Lemma accepted_sublist i tr : sublist (accepted i tr) (numbered (writes i tr)).
Proof.
  unfold accepted, numbered, writes. induction (events_of i tr) as [|e es IH] using rev_ind; [constructor|].
  rewrite imap_app, concat_app, fmap_app, imap_app. apply sublist_app; [done|]. cbn. rewrite length_fmap, app_nil_r.
  unfold accepted_of. case_match; [done|apply sublist_nil_l].
Qed.

(** ** Stores *)

Lemma effect_store i ev w w' log : effect i ev w w' -> store_holds w log -> Forall (Forall task_ok) (queues w) ->
  local_sequence w' = local_sequence w + len ev /\
  store_holds w' (log ++ concat ((fun x => accepted_of (Z.to_nat (local_sequence w - 1)) x.2) <$> ev)).
Proof.
  intros He Hst Hq. pose proof (sh_sequence _ _ Hst) as Hs1.
  assert (forall k v ok, accepted_of (Z.to_nat (local_sequence w - 1)) (Served k v ok) =
    if ok then [(to_be_bytes 8 k, Some (to_be_bytes 8 v), local_sequence w)] else []) as Hacc.
  { intros k v []; [|done]. unfold accepted_of, entry_of. cbn [event_answer event_pair fst snd]. do 2 f_equal. lia. }
  assert (forall n k v ok, accepted_of n (Applied k v ok) = accepted_of n (Served k v ok)) as Happ by done.
  destruct ev as [|[j [k v ok|k v ok]] [|? ?]]; cbn [effect] in He; try done; cbn [fmap list_fmap concat snd];
    rewrite ?Happ, ?Hacc, ?app_nil_r.
  - destruct He as (Hd & Hs & _). split; [rewrite Hs, len_nil; lia|]. by eapply store_holds_same.
  - destruct He as (_ & -> & Hlim & Hk & Hv & (Hd & Hs & _)). destruct (put_exact w log k v Hst Hlim Hk Hv) as (d & r & Hput & Hsafe & Hseq & Hall).
    unfold put_answer. cbn [serve] in Hd, Hs. unfold put_or_sync in Hd, Hs. rewrite Hput in Hd, Hs |- *. cbn in Hd, Hs, Hseq. rewrite Hseq in Hs. split; [done|].
    apply Hall; [rewrite Hd; destruct r; auto|done].
  - destruct He as (_ & -> & Hlim & q & Hqi & (Hd & Hs & _)). assert (task_ok (ReplicateWrite k v)) as [Hk Hv].
    { pose proof (Forall_lookup_1 _ _ _ _ Hq Hqi) as Hall. by apply Forall_cons in Hall as [? _]. }
    destruct (put_exact w log k v Hst Hlim Hk Hv) as (d & r & Hput & Hsafe & Hseq & Hall).
    unfold put_answer, put_next in *. cbn in Hd, Hs, Hseq. rewrite Hput in Hd, Hs |- *. cbn in Hd, Hs. rewrite Hseq in Hs. split; [done|].
    apply Hall; [by left|done].
Qed.

Lemma effect_writes i ev w w' : effect i ev w w' -> forall j, writes j ev = if decide (j = i) then event_pair <$> ev.*2 else [].
Proof.
  intros He j. destruct ev as [|[m [k v ok|k v ok]] [|? ?]]; cbn [effect] in He; try done; [by case_decide| |];
    destruct He as [-> _]; rewrite writes_one; do 2 case_decide; naive_solver.
Qed.

Lemma effect_one i ev w w' : effect i ev w w' -> ev = [] \/ exists e, ev = [(i, e)].
Proof. destruct ev as [|[m [k v ok|k v ok]] [|? ?]]; cbn [effect]; try done; [by left| |]; intros [-> _]; right; by eexists. Qed.

Lemma effect_keys i ev w w' : effect i ev w w' -> Forall (Forall task_ok) (queues w) ->
  Forall (fun x : nat * event => is_u64 (event_pair x.2).1) ev.
Proof.
  destruct ev as [|[m [k v ok|k v ok]] [|? ?]]; cbn [effect]; try done; intros He Hq; apply Forall_singleton; cbn.
  - by destruct He as (_ & _ & _ & ? & _).
  - destruct He as (_ & _ & _ & q & Hqi & _). pose proof (Forall_lookup_1 _ _ _ _ Hq Hqi) as Hall. by apply Forall_cons in Hall as [[? _] _].
Qed.

Lemma env_step_store calm s s' log : env_step calm s s' -> store_holds (worker s) log ->
  store_holds (worker s') log /\ local_sequence (worker s') = local_sequence (worker s).
Proof.
  intros [] Hst; cbn [worker] in *; (split; [|done]); try by apply (store_holds_same w).
  destruct Hst as [H1 H2 H3 H4]. split; try done. cbn. by eapply background_represents.
Qed.

(** ** Queues *)

(** What was handed to a queue, up to what a full queue dropped, is what was taken
    out of it and what it holds. *)
Definition route (sent taken : list (Z * Z)) (q : list InterCoreTask) : Prop :=
  exists kept, sublist kept sent /\ kept = taken ++ (task_pair <$> q) /\ len q <= TASK_QUEUE_CAPACITY /\
    (len sent <= TASK_QUEUE_CAPACITY -> kept = sent).

Lemma route_push sent taken q k v : route sent taken q ->
  route (sent ++ [(k, v)]) taken (if len q <? TASK_QUEUE_CAPACITY then q ++ [ReplicateWrite k v] else q).
Proof.
  intros (kept & Hsub & -> & Hlen & Hall). pose proof (len_nonneg sent). destruct (Z.ltb_spec (len q) TASK_QUEUE_CAPACITY) as [Hlt|Hge].
  - exists (taken ++ (task_pair <$> q) ++ [(k, v)]). rewrite fmap_app, len_app. split_and!; [|done|change (len [ReplicateWrite k v]) with 1; lia|].
    + rewrite app_assoc. by apply sublist_app.
    + rewrite len_app, app_assoc. change (len [(k, v)]) with 1. intros Hs. rewrite Hall by lia. done.
  - exists (taken ++ (task_pair <$> q)). split_and!; [by apply sublist_inserts_r|done|done|]. intros Hs. exfalso.
    rewrite len_app in Hs. change (len [(k, v)]) with 1 in Hs. rewrite <- Hall in Hs by lia. rewrite len_app, len_fmap in Hs.
    pose proof (len_nonneg taken). lia.
Qed.

Lemma route_pop sent taken q k v : route sent taken (ReplicateWrite k v :: q) -> route sent (taken ++ [(k, v)]) q.
Proof.
  intros (kept & Hsub & -> & Hlen & Hall). rewrite len_cons in Hlen. exists (taken ++ (k, v) :: (task_pair <$> q)).
  rewrite <- app_assoc. split_and!; [done|done|lia|done].
Qed.

(** The same as a program: the queue behind core [i], replayed from the trace.  A
    write that core [i] serves joins it unless it is full; a write that the next core
    applies must be at its head. *)
Definition next_core (n i : nat) : nat := ((i + 1) mod n)%nat.

Definition replay_step (n i : nat) (q : list (Z * Z)) (x : nat * event) : option (list (Z * Z)) :=
  match x.2 with
  | Served k v _ =>
      if decide (x.1 = i) then Some (if len q <? TASK_QUEUE_CAPACITY then q ++ [(k, v)] else q) else Some q
  | Applied k v _ =>
      if decide (x.1 = next_core n i) then
        match q with
        | kv :: q => if decide (kv = (k, v)) then Some q else None
        | [] => None
        end
      else Some q
  end.
Fixpoint replay (n i : nat) (q : list (Z * Z)) (tr : list (nat * event)) : option (list (Z * Z)) :=
  match tr with
  | [] => Some q
  | x :: tr => q ← replay_step n i q x; replay n i q tr
  end.

Lemma replay_snoc n i q tr q' x q'' : replay n i q tr = Some q' -> replay_step n i q' x = Some q'' -> replay n i q (tr ++ [x]) = Some q''.
Proof.
  revert q. induction tr as [|y tr IH]; intros q; cbn [replay app]; [intros [= ->] ->; done|].
  destruct (replay_step n i q y) as [q1|]; [|done]. cbn. apply IH.
Qed.

Lemma next_core_lt n i : (i < n)%nat -> (next_core n i < n)%nat.
Proof. intros Hi. apply Nat.mod_upper_bound. lia. Qed.

Lemma next_core_inj n i j : (i < n)%nat -> (j < n)%nat -> next_core n i = next_core n j -> i = j.
Proof.
  unfold next_core. intros Hi Hj Hn. destruct (decide (i + 1 = n)%nat) as [Hi'|Hi'], (decide (j + 1 = n)%nat) as [Hj'|Hj'];
    rewrite ?Hi', ?Hj', ?Nat.Div0.mod_same, ?(Nat.mod_small (i + 1)), ?(Nat.mod_small (j + 1)) in Hn by lia; lia.
Qed.

Lemma next_core_Z n i : Z.to_nat ((Z.of_nat i + 1) mod Z.of_nat n) = next_core n i.
Proof. unfold next_core. replace (Z.of_nat i + 1) with (Z.of_nat (i + 1)) by lia. by rewrite <- Nat2Z.inj_mod, Nat2Z.id. Qed.

Definition routes (n : nat) (tr : list (nat * event)) (qs : list (list InterCoreTask)) : Prop := length qs = n /\
  forall i, (i < n)%nat -> exists q, qs !! next_core n i = Some q /\ route (served i tr) (applied (next_core n i) tr) q /\
    replay n i [] tr = Some (task_pair <$> q).

Lemma effect_routes n i tr ev w w' : (i < n)%nat -> routes n tr (queues w) -> effect i ev w w' -> routes n (tr ++ ev) (queues w').
Proof.
  intros Hi [Hn Hr] He. destruct ev as [|[m [k v ok|k v ok]] [|? ?]]; cbn [effect] in He; try done.
  - destruct He as (_ & _ & ->). by rewrite app_nil_r.
  - destruct He as (-> & _ & _ & _ & _ & (_ & _ & Hqs)). cbn [serve] in Hqs.
    assert (queues w' = push_queue (next_core n i) (ReplicateWrite k v) (queues w)) as ->.
    { rewrite Hqs. unfold put_or_sync. destruct (db_put _ _ _ _). cbn. unfold len. by rewrite Hn, next_core_Z. }
    split; [unfold push_queue; by rewrite length_alter|]. intros j Hj. destruct (Hr j Hj) as (q & Hq & Hroute & Hrep).
    rewrite served_app, applied_app, served_one, applied_one, (decide_False (P := i = next_core n j /\ _)), app_nil_r by (by intros []).
    destruct (decide (i = j)) as [<-|Hne].
    + rewrite decide_True by done. eexists. split; [unfold push_queue; by rewrite list_lookup_alter_eq, Hq|]. split; [by apply route_push|].
      eapply replay_snoc; [exact Hrep|]. unfold replay_step. cbn [fst snd]. rewrite decide_True by done. rewrite len_fmap.
      case_match; [by rewrite fmap_app|done].
    + rewrite decide_False, app_nil_r by (by intros []). exists q. split; [unfold push_queue; rewrite list_lookup_alter_ne; [done|]|split; [done|]].
      { intros Heq. by apply Hne, (next_core_inj n). }
      eapply replay_snoc; [exact Hrep|]. unfold replay_step. cbn [fst snd]. by rewrite decide_False.
  - destruct He as (-> & _ & _ & q0 & Hq0 & (_ & _ & Hqs)).
    assert (queues w' = <[i := q0]> (queues w)) as -> by (rewrite Hqs; unfold put_next; by destruct (db_put _ _ _ _)).
    split; [by rewrite length_insert|]. intros j Hj. destruct (Hr j Hj) as (q & Hq & Hroute & Hrep).
    rewrite served_app, applied_app, served_one, applied_one, (decide_False (P := i = j /\ _)), app_nil_r by (by intros []).
    destruct (decide (i = next_core n j)) as [->|Hne].
    + rewrite decide_True by done. rewrite Hq in Hq0. injection Hq0 as ->. exists q0.
      split; [apply list_lookup_insert_eq; rewrite Hn; by apply next_core_lt|]. split; [by apply (route_pop _ _ _ k v)|].
      eapply replay_snoc; [exact Hrep|]. unfold replay_step. cbn [fst snd fmap list_fmap task_pair]. by rewrite !decide_True.
    + rewrite decide_False, app_nil_r by (by intros []). exists q. split; [by rewrite list_lookup_insert_ne|]. split; [done|].
      eapply replay_snoc; [exact Hrep|]. unfold replay_step. cbn [fst snd]. by rewrite decide_False.
Qed.

(** ** The invariant *)

Record cluster_inv (calm : Prop) (n : nat) (tr : list (nat * event)) (c : cluster) : Prop := {
  ci_cores : length (cores c) = n;
  ci_routes : routes n tr (shared c);
  ci_tasks : Forall (Forall task_ok) (shared c);
  ci_keys : Forall (fun x : nat * event => is_u64 (event_pair x.2).1) tr;
  ci_reach i s : cores c !! i = Some (Some s) -> reachable (Z.of_nat i) (listen i) calm (with_queues (shared c) s);
  ci_none i : cores c !! i = Some None -> writes i tr = [];
  ci_store i s : cores c !! i = Some (Some s) -> local_sequence (worker s) = 1 + len (writes i tr) /\
    store_holds (worker s) (accepted i tr)
}.

Lemma start_inv calm n : cluster_inv calm n [] (main_start n).
Proof.
  split; cbn.
  - apply length_replicate.
  - split; [apply length_replicate|]. intros i Hi. exists []. split; [apply lookup_replicate; by split; [|apply next_core_lt]|]. split; [by exists []|done].
  - by apply Forall_replicate.
  - done.
  - intros i s Hs. by apply lookup_replicate in Hs as [? _].
  - done.
  - intros i s Hs. by apply lookup_replicate in Hs as [? _].
Qed.

Lemma with_queues_twice (a b : list (list InterCoreTask)) (s : system D) : with_queues a (with_queues b s) = with_queues a s.
Proof. done. Qed.
Lemma with_queues_self (s : system D) : with_queues (queues (worker s)) s = s.
Proof. destruct s as [w ? ? ? ?]. unfold with_queues. cbn. f_equal. by destruct w. Qed.

(** The steps of the others are [others_step]s to a core. *)
Lemma others_reach calm i s qs qs' : reachable (Z.of_nat i) (listen i) calm (with_queues qs s) -> length qs' = length qs ->
  Forall (Forall task_ok) qs' -> reachable (Z.of_nat i) (listen i) calm (with_queues qs' s).
Proof.
  intros Hr Hl Hq. eapply sys_next; [exact Hr|]. right. right. rewrite <- (with_queues_twice qs' qs). by apply other_cores.
Qed.

Lemma env_with_queues calm qs s s' : env_step calm s s' -> env_step calm (with_queues qs s) (with_queues qs s').
Proof.
  intros [u' taken posted w p reqs h sel sel' Hk Hp|e w p reqs h sel Hc Hp|id bs w p reqs h sel Hid Hl|d' w p reqs h sel Hb].
  - by apply (kernel_step calm u' taken posted (set_queues qs w)).
  - by apply (kernel_select calm e (set_queues qs w)).
  - by apply (kernel_fill calm id bs (set_queues qs w)).
  - by apply (store_step calm d' (set_queues qs w)).
Qed.

(** A lookup in the cores after core [i] changed. *)
Lemma core_cases {A} (l : list A) i j x y : <[i := x]> l !! j = Some y -> (j = i /\ y = x) \/ (j <> i /\ l !! j = Some y).
Proof.
  intros Hj. destruct (decide (j = i)) as [->|Hne]; [|right; by rewrite list_lookup_insert_ne in Hj].
  left. by apply list_lookup_insert_Some in Hj as [(_ & <- & _)|[? _]].
Qed.

Lemma spawn_inv calm n tr i s c : cluster_inv calm n tr c -> cores c !! i = Some None -> initial (Z.of_nat i) s ->
  local_sequence (worker s) = 1 -> queues (worker s) = shared c -> cluster_inv calm n (tr ++ []) (mk_cluster (<[i := Some s]> (cores c)) (shared c)).
Proof.
  intros [H1 H2 H3 Hkeys H4 H5 H6] Hi Hinit Hs Hq. rewrite app_nil_r. split; cbn [cores shared]; try done.
  - by rewrite length_insert.
  - intros j s' Hj. destruct (core_cases _ _ _ _ _ Hj) as [[-> [= ->]]|[_ Hj']]; [|by apply H4].
    rewrite <- Hq, with_queues_self. by apply sys_initial.
  - intros j Hj. destruct (core_cases _ _ _ _ _ Hj) as [[-> ?]|[_ Hj']]; [done|by apply H5].
  - intros j s' Hj. destruct (core_cases _ _ _ _ _ Hj) as [[-> [= ->]]|[_ Hj']]; [|by apply H6].
    rewrite (H5 i Hi). split; [done|]. rewrite accepted_none by by apply H5. destruct Hinit as [w reqs pend out Hr]. apply (rd_store _ _ _ _ _ Hr).
Qed.

Lemma outside_inv calm n tr i s s' c : cluster_inv calm n tr c -> cores c !! i = Some (Some s) -> env_step calm s s' ->
  cluster_inv calm n (tr ++ []) (mk_cluster (<[i := Some s']> (cores c)) (shared c)).
Proof.
  intros [H1 H2 H3 Hkeys H4 H5 H6] Hi Hst. rewrite app_nil_r. split; cbn [cores shared]; try done.
  - by rewrite length_insert.
  - intros j x Hj. destruct (core_cases _ _ _ _ _ Hj) as [[-> [= ->]]|[_ Hj']]; [|by apply H4].
    eapply sys_next; [by apply H4|]. right. left. by apply env_with_queues.
  - intros j Hj. destruct (core_cases _ _ _ _ _ Hj) as [[-> ?]|[_ Hj']]; [done|by apply H5].
  - intros j x Hj. destruct (core_cases _ _ _ _ _ Hj) as [[-> [= ->]]|[_ Hj']]; [|by apply H6].
    destruct (H6 i s Hi) as (Hseq & Hlog). by destruct (env_step_store _ _ _ _ Hst Hlog) as [Hlog' ->].
Qed.

Lemma own_inv calm n tr i s s' c : cluster_inv calm n tr c -> cores c !! i = Some (Some s) ->
  own_step (Z.of_nat i) (listen i) (with_queues (shared c) s) s' ->
  cluster_inv calm n (tr ++ next_write i (with_queues (shared c) s)) (mk_cluster (<[i := Some s']> (cores c)) (queues (worker s'))).
Proof.
  intros [H1 H2 H3 Hkeys H4 H5 H6] Hi Hst. pose proof (H4 i s Hi) as Hreach.
  pose proof (own_step_effect calm i _ _ Hreach Hst) as He. set (ev := next_write i (with_queues (shared c) s)) in *.
  assert (reachable (Z.of_nat i) (listen i) calm s') as Hreach' by (eapply sys_next; [exact Hreach|by left]).
  assert (i < n)%nat as Hin by (rewrite <- H1; by eapply lookup_lt_Some).
  pose proof (effect_routes n i tr ev (worker (with_queues (shared c) s)) (worker s') Hin H2 He) as Hroutes.
  assert (Forall (Forall task_ok) (queues (worker s'))) as Htasks.
  { destruct (sys_reachable_inv _ _ (Hlisten i) _ _ Hreach') as (log & out & pend & Hinv). apply (rd_tasks _ _ _ _ _ (si_ready _ _ _ _ _ _ Hinv)). }
  split; cbn [cores shared]; try done.
  - by rewrite length_insert.
  - apply Forall_app. split; [done|]. by apply (effect_keys _ _ _ _ He).
  - intros j x Hj. destruct (core_cases _ _ _ _ _ Hj) as [[-> [= ->]]|[_ Hj']]; [by rewrite with_queues_self|].
    eapply others_reach; [by apply H4| |done]. destruct H2 as [-> _], Hroutes as [-> _]. done.
  - intros j Hj. destruct (core_cases _ _ _ _ _ Hj) as [[-> ?]|[Hne Hj']]; [done|].
    rewrite writes_app, (H5 j Hj'), (effect_writes _ _ _ _ He). by case_decide.
  - intros j x Hj. rewrite writes_app, (effect_writes _ _ _ _ He).
    destruct (core_cases _ _ _ _ _ Hj) as [[-> [= ->]]|[Hne Hj']].
    2:{ rewrite decide_False, app_nil_r by done. rewrite (accepted_other j) by (destruct (effect_one _ _ _ _ He) as [-> | [e ->]]; by repeat constructor).
      by apply H6. }
    rewrite decide_True by done. destruct (H6 i s Hi) as (Hseq & Hlog).
    destruct (effect_store i ev (worker (with_queues (shared c) s)) (worker s') (accepted i tr) He) as (Hseq' & Hlog'); [by apply (store_holds_same (worker s))|done|].
    cbn [worker with_queues local_sequence set_queues] in Hseq', Hlog'. rewrite len_app, !len_fmap, Hseq', Hseq. split; [lia|].
    rewrite Hseq in Hlog'. replace (Z.to_nat (1 + len (writes i tr) - 1)) with (length (events_of i tr)) in Hlog'
      by (unfold writes; rewrite len_fmap; unfold len; lia).
    destruct (effect_one _ _ _ _ He) as [-> | [e ->]]; [by rewrite !app_nil_r in *|].
    cbn [fmap list_fmap snd concat] in Hlog'. by rewrite accepted_snoc, <- (app_nil_r (accepted_of _ _)).
Qed.

Lemma cluster_run_inv calm n tr c : cluster_run listen calm (main_start n) tr c -> cluster_inv calm n tr c.
Proof.
  induction 1 as [|tr c ev c' _ IH Hst]; [apply start_inv|].
  destruct Hst as [i s c Hi Hinit Hs Hq|i s s' c Hi Hst|i s s' c Hi Hst]; [by eapply spawn_inv|by eapply own_inv|by eapply outside_inv].
Qed.

(** What is applied was served by the core before. *)
Lemma applied_served n tr qs i k v : routes n tr qs -> (i < n)%nat -> (k, v) ∈ applied i tr ->
  exists j, (j < n)%nat /\ next_core n j = i /\ (k, v) ∈ served j tr.
Proof.
  intros [_ Hr] Hi Hin. exists ((i + n - 1) mod n)%nat.
  assert ((i + n - 1) mod n < n)%nat as Hj by (apply Nat.mod_upper_bound; lia).
  assert (next_core n ((i + n - 1) mod n) = i) as Hn.
  { unfold next_core. rewrite Nat.Div0.add_mod_idemp_l. replace (i + n - 1 + 1)%nat with (i + 1 * n)%nat by lia.
    rewrite Nat.Div0.mod_add. by apply Nat.mod_small. }
  split; [done|]. split; [done|]. destruct (Hr _ Hj) as (q & _ & (kept & Hsub & -> & _) & _). rewrite Hn in Hsub.
  eapply elem_of_sublist; [|exact Hsub]. apply elem_of_app. by left.
Qed.

Lemma write_cases i tr k v : (k, v) ∈ writes i tr -> (k, v) ∈ served i tr \/ (k, v) ∈ applied i tr.
Proof.
  intros (e & He & Hin)%list_elem_of_fmap. unfold served, applied. rewrite He.
  destruct (is_served e) eqn:Hs; [left|right]; apply list_elem_of_fmap_2; by apply list_elem_of_filter.
Qed.

Lemma be_inj (n : nat) x y : 0 <= x < 2 ^ (Z.of_nat n * 8) -> 0 <= y < 2 ^ (Z.of_nat n * 8) -> to_be_bytes n x = to_be_bytes n y -> x = y.
Proof. intros Hx Hy Heq. by rewrite <- (from_to_be n x Hx), <- (from_to_be n y Hy), Heq. Qed.

Lemma numbered_elem ws e : e ∈ numbered ws -> exists k v, (k, v) ∈ ws /\ ekey e = to_be_bytes 8 k /\ e.1.2 = Some (to_be_bytes 8 v).
Proof.
  intros (n & [k v] & -> & Hkv)%elem_of_lookup_imap. exists k, v. split; [by eapply list_elem_of_lookup_2|done].
Qed.

(** ** Theorems *)

(** C13: Writes go round the cores through bounded queues: in every run of [num_cores] cores, the
    queue of a core is what the trace makes of a first-in first-out queue of 2048 places, exactly:
    a write that the core before serves to a client joins it, and is dropped if and only if 2048
    tasks wait at that moment; a write that the core applies is the one at the head, and leaves it.
    So what a core has applied and what waits for it are together served writes in the order in
    which they were served, and all of them as long as at most 2048 were served. *)
Theorem cluster_routes calm num_cores tr c : cluster_run listen calm (main_start num_cores) tr c -> forall i, (i < num_cores)%nat ->
  exists q kept, shared c !! next_core num_cores i = Some q /\ replay num_cores i [] tr = Some (task_pair <$> q) /\
    sublist kept (served i tr) /\ kept = applied (next_core num_cores i) tr ++ (task_pair <$> q) /\ len q <= TASK_QUEUE_CAPACITY /\
    (len (served i tr) <= TASK_QUEUE_CAPACITY -> kept = served i tr).
Proof.
  intros Hrun i Hi. destruct (ci_routes _ _ _ _ (cluster_run_inv _ _ _ _ Hrun)) as [_ Hr].
  destruct (Hr i Hi) as (q & Hq & (kept & H1 & H2 & H3 & H4) & Hrep). by exists q, kept.
Qed.

(** The cores together are safe, and each store has its own writes: in every run no
    core's next step panics or leaves its arrays while its store has room; the next
    sequence number of a core counts the writes it served and applied; and its store
    holds exactly those whose [put] answered [Ok], in their order and numbered by it, and
    answers every key with one of them. *)
Theorem cluster_stores calm num_cores tr c i s : cluster_run listen calm (main_start num_cores) tr c -> cores c !! i = Some (Some s) ->
  local_sequence (worker s) = 1 + len (writes i tr) /\
  (represents (db_node (worker s)) (accepted i tr) (len (writes i tr)) /\ sublist (accepted i tr) (numbered (writes i tr)) /\
    forall key, exists r, db_get (db_node (worker s)) key = Ok r /\ some_version (accepted i tr) key r) /\
  (room_for_writes (worker s) -> let w := worker (with_queues (shared c) s) in
    match where_ s with
    | Waiting => forall enter taken posted, enter_ok enter (w_ring w) taken posted -> safe (wait_round enter w).2
    | Applying m => exists w' p, apply_step (Z.of_nat i) m w = (w', Ok p)
    | Draining b => exists w' p, drain_step (Z.of_nat i) (listen i) b w = (w', Ok p)
    | Stopped _ => True
    end).
Proof.
  intros Hrun Hi. destruct (cluster_run_inv _ _ _ _ Hrun) as [_ _ _ _ Hreach _ Hst]. destruct (Hst i s Hi) as (Hseq & Hlog).
  split; [done|]. split.
  - pose proof (sh_represents _ _ Hlog) as Hr. rewrite Hseq in Hr. replace (1 + len (writes i tr) - 1) with (len (writes i tr)) in Hr by lia.
    split; [done|]. split; [apply accepted_sublist|]. intros key. by apply (get_represents _ _ _ key) in Hr.
  - intros Hroom. apply (worker_safe _ _ (Hlisten i) calm (with_queues (shared c) s) (Hreach i s Hi) Hroom).
Qed.

(** C14: A key is found only where it was written, and one core further: what a core's
    store answers for a key is a value that the core itself, or the one before it,
    has served to a client for that key; when neither has, the answer is that there
    is none, whatever the other cores hold. *)
Theorem cluster_reads calm num_cores tr c i s key : cluster_run listen calm (main_start num_cores) tr c -> cores c !! i = Some (Some s) -> is_u64 key ->
  exists r, db_get (db_node (worker s)) (to_be_bytes 8 key) = Ok r /\
    forall v q, r = Some (v, q) -> exists val, v = Some (to_be_bytes 8 val) /\
      ((key, val) ∈ served i tr \/ exists j, (j < num_cores)%nat /\ next_core num_cores j = i /\ (key, val) ∈ served j tr).
Proof.
  intros Hrun Hi Hk. pose proof (cluster_run_inv _ _ _ _ Hrun) as Hinv. destruct (ci_store _ _ _ _ Hinv i s Hi) as (Hseq & Hlog).
  destruct (get_represents _ _ _ (to_be_bytes 8 key) (sh_represents _ _ Hlog)) as (r & Hr & Hv). exists r. split; [done|].
  intros v q ->. destruct Hv as [_ Hv]. destruct (Hv _ eq_refl) as (e & He & Hek & Heq).
  destruct (numbered_elem _ _ (elem_of_sublist _ _ _ He (accepted_sublist i tr))) as (k & x & Hkx & Hk' & Hx).
  assert (k = key) as ->.
  { apply (be_inj 8); [|done|congruence]. apply list_elem_of_fmap in Hkx as (y & Hy & ([? z] & -> & [_ Hz]%list_elem_of_filter)%list_elem_of_fmap).
    pose proof (proj1 (Forall_forall _ _) (ci_keys _ _ _ _ Hinv) _ Hz) as Hu. cbn in Hu, Hy. by rewrite <- Hy in Hu. }
  exists x. split; [by injection Heq as <- _|]. destruct (write_cases _ _ _ _ Hkx) as [Hs|Ha]; [by left|right].
  apply (applied_served num_cores _ _ _ _ _ (ci_routes _ _ _ _ Hinv)) in Ha; [done|]. rewrite <- (ci_cores _ _ _ _ Hinv). by eapply lookup_lt_Some.
Qed.

End steps.

(** ** A script

    Runs over the log store of Server.v, executed: a command is a step of the
    cluster, or none when its conditions fail. *)

Inductive command :=
| Fill (i : nat) (bs : bytes)                (* the kernel receives into a buffer *)
| Post (i : nat) (c : io_uring_cqe)          (* [submit_and_wait] returns with a completion *)
| Own (i : nat).                             (* another step of the worker *)

Definition may_post (u : Uring) : bool :=
  (wrap32 (cq_tail u) =? cq_tail u) && (wrap32 (cq_tail u - cq_head u) =? 0) && (1 <=? cq_entries u) &&
  (Z.to_nat (Z.land (cq_tail u) (cq_mask u)) <? length (cqes u))%nat.

Definition post_one (c : io_uring_cqe) : syscall_enter := kernel_enter 0 0 [c].

Lemma post_one_ok u c : may_post u = true -> enter_ok (post_one c) u [] [c].
Proof.
  intros [[[H0%Z.eqb_eq H1%Z.eqb_eq]%andb_true_iff H2%Z.leb_le]%andb_true_iff H3%Nat.ltb_lt]%andb_true_iff a b f.
  split; cbn [post_one kernel_enter foldl fst]; try done.
  - cbn. unfold wrap32. rewrite len_nil. apply Z.mod_pos_bound. lia.
  - change (cq_tail (publish u)) with (cq_tail u). change (cq_head (publish u)) with (cq_head u). rewrite H1. exact H2.
  - cbn. by rewrite length_insert.
  - intros j x [-> <-]%list_lookup_singleton_Some. unfold cqe_at. cbn. rewrite Z.add_0_r, H0. by apply list_lookup_insert_eq.
  - intros j Hj. change (cq_tail (publish u)) with (cq_tail u) in Hj. change (cq_head (publish u)) with (cq_head u) in Hj. lia.
Qed.

#[local] Abbreviation state := (system (list entry)).

Definition receive (bs : bytes) (s : state) : option state :=
  let w := worker s in
  match where_ s, pick (w_bufs w) (kernel_head s) with
  | Waiting, Some e =>
      if len bs <=? buf_size (w_bufs w)
      then Some (mk_system (set_memory (splice (memory w) (bid e * buf_size (w_bufs w)) bs) w) Waiting (requests s) (wrap16 (kernel_head s + 1)) (selected s ++ [bid e]))
      else None
  | _, _ => None
  end.

Definition returns (cqe : io_uring_cqe) (s : state) : option state :=
  let w := worker s in
  match where_ s, selected s with
  | Waiting, id :: sel =>
      if may_post (w_ring w) && existsb (fun e => sqe_user_data e =? user_data cqe) (requests s) && fills cqe && (buffer_id cqe =? id) && (0 <=? res cqe) && (res cqe <=? buf_size (w_bufs w)) && (buf_size (w_bufs w) <? 2 ^ 31)
      then let '(w', r) := wait_round (post_one cqe) w in
           Some (mk_system w' (match r with Err e => Stopped e | _ => Applying 16 end) (requests s ++ []) (kernel_head s) sel)
      else None
  | _, _ => None
  end.

Definition continues (i : nat) (s : state) : option state :=
  let w := worker s in
  if negb (local_sequence w + 16 <=? 2 ^ 40) then None else
  match where_ s with
  | Applying n => match apply_step (Z.of_nat i) n w with (w', Ok p) => Some (mk_system w' p (requests s) (kernel_head s) (selected s)) | _ => None end
  | Draining b => match drain_step (Z.of_nat i) 3 b w with (w', Ok p) => Some (mk_system w' p (requests s) (kernel_head s) (selected s)) | _ => None end
  | _ => None
  end.

Definition core_of (x : command) : nat := match x with Fill i _ | Post i _ | Own i => i end.

Definition exec1 (x : command) (c : cluster (D := list entry)) : option (cluster (D := list entry) * list (nat * event)) :=
  let i := core_of x in
  match cores c !! i with
  | Some (Some s) =>
      let s0 := with_queues (shared c) s in
      match x with
      | Fill _ bs => s' ← receive bs s; Some (mk_cluster (<[i := Some s']> (cores c)) (shared c), [])
      | Post _ cqe => s' ← returns cqe s0; Some (mk_cluster (<[i := Some s']> (cores c)) (queues (worker s')), next_write i s0)
      | Own _ => s' ← continues i s0; Some (mk_cluster (<[i := Some s']> (cores c)) (queues (worker s')), next_write i s0)
      end
  | _ => None
  end.

Fixpoint exec (xs : list command) (c : cluster (D := list entry)) : option (cluster (D := list entry) * list (nat * event)) :=
  match xs with
  | [] => Some (c, [])
  | x :: xs => '(c, ev) ← exec1 x c; '(c, tr) ← exec xs c; Some (c, ev ++ tr)
  end.

Lemma receive_ok bs s s' : receive bs s = Some s' -> exists s1, env_step True s s1 /\ env_step True s1 s'.
Proof.
  destruct s as [w p reqs h sel]. unfold receive. cbn [where_ worker kernel_head requests selected].
  destruct p; try done. destruct (pick _ _) as [e|] eqn:Hp; [|done]. destruct (Z.leb_spec (len bs) (buf_size (w_bufs w))); [|done].
  intros [= <-]. exists (mk_system w Waiting reqs (wrap16 (h + 1)) (sel ++ [bid e])). split; [by apply kernel_select|].
  apply kernel_fill; [|done]. apply elem_of_app. right. by left.
Qed.

Lemma returns_ok i cqe s s' : returns cqe s = Some s' -> own_step (Z.of_nat i) 3 s s'.
Proof.
  destruct s as [w p reqs h sel]. unfold returns. cbn [where_ worker kernel_head requests selected].
  destruct p; try done. destruct sel as [|id sel]; [done|]. destruct (_ && _) eqn:Hb; [|done].
  repeat match goal with H : _ && _ = true |- _ => apply andb_true_iff in H as [? ?] end.
  destruct (wait_round (post_one cqe) w) as [w' r] eqn:Hw. intros [= <-].
  apply (worker_wait (Z.of_nat i) 3 (post_one cqe) [] [cqe] w w' r reqs h (id :: sel) sel); [by apply post_one_ok| |done].
  rewrite app_nil_r. split.
  - intros c ->%list_elem_of_singleton. match goal with H : existsb _ _ = true |- _ => apply existsb_exists in H as (e & He & Hu%Z.eqb_eq) end.
    exists e. split; [by apply list_elem_of_In|done].
  - intros c ->%list_elem_of_singleton. unfold is_i32. lia.
  - rewrite bufs_of_cons. match goal with H : fills cqe = true |- _ => rewrite H end. assert (buffer_id cqe = id) as -> by lia. done.
Qed.

Lemma continues_ok i s s' : continues i s = Some s' -> own_step (Z.of_nat i) 3 s s'.
Proof.
  destruct s as [w p reqs h sel]. unfold continues. cbn [where_ worker kernel_head requests selected].
  destruct (Z.leb_spec (local_sequence w + 16) (2 ^ 40)); cbn [negb]; [|done]. destruct p as [|n|b|e]; try done.
  - destruct (apply_step _ n w) as [w' [p|e| |]] eqn:Hs; try done. intros [= <-]. by apply worker_apply.
  - destruct (drain_step _ _ b w) as [w' [p|e| |]] eqn:Hs; try done. intros [= <-]. by apply worker_drain.
Qed.

Lemma exec_ok xs : forall c c0 tr0 c' tr, cluster_run (fun _ => 3) True c0 tr0 c -> exec xs c = Some (c', tr) ->
  cluster_run (fun _ => 3) True c0 (tr0 ++ tr) c'.
Proof.
  induction xs as [|x xs IH]; intros c c0 tr0 c' tr Hrun Hx; cbn [exec] in Hx; [injection Hx as <- <-; by rewrite app_nil_r|].
  destruct (exec1 x c) as [[c1 ev]|] eqn:H1; [|done]. cbn in Hx. destruct (exec xs c1) as [[c2 tr2]|] eqn:H2; [|done]. injection Hx as <- <-.
  rewrite app_assoc. eapply IH; [|exact H2]. unfold exec1 in H1. destruct (cores c !! core_of x) as [[s|]|] eqn:Hc; try done.
  destruct x as [i bs|i cqe|i]; cbn [core_of] in *.
  - destruct (receive bs s) as [s'|] eqn:Hs; [|done]. injection H1 as <- <-. destruct (receive_ok _ _ _ Hs) as (s1 & Ha & Hb).
    pose proof (run_step _ _ _ _ _ _ _ Hrun (outside_step (fun _ => 3) True i s s1 c Hc Ha)) as Hrun1. rewrite app_nil_r in Hrun1.
    assert (cores (mk_cluster (<[i := Some s1]> (cores c)) (shared c)) !! i = Some (Some s1)) as Hc1 by (cbn; apply list_lookup_insert_eq; by eapply lookup_lt_Some).
    pose proof (run_step _ _ _ _ _ _ _ Hrun1 (outside_step (fun _ => 3) True i s1 s' _ Hc1 Hb)) as Hrun2. cbn in Hrun2. by rewrite list_insert_insert_eq in Hrun2.
  - destruct (returns cqe _) as [s'|] eqn:Hs; [|done]. injection H1 as <- <-. eapply run_step; [exact Hrun|].
    apply (core_step (fun _ => 3) True i s s' c Hc). by apply (returns_ok i cqe).
  - destruct (continues i _) as [s'|] eqn:Hs; [|done]. injection H1 as <- <-. eapply run_step; [exact Hrun|].
    apply (core_step (fun _ => 3) True i s s' c Hc). by apply continues_ok.
Qed.

(** ** Two cores *)

Definition two_start : state := mk_system (set_queues [[]; []] small_worker) Waiting start_requests 0 [].
Definition two_cores : cluster (D := list entry) := mk_cluster [Some two_start; Some two_start] [[]; []].

Lemma two_initial i : (i < 2)%nat -> initial (Z.of_nat i) two_start.
Proof.
  intros Hi. apply (sys_start _ _ start_requests [] []); [|by constructor| |intros c Hc; by apply elem_of_nil in Hc|done|].
  - destruct small_ready as [H1 H2 H3 H4 _ _]. split; try done; [by apply (store_holds_same small_worker)|cbn; change (len [[]; []]) with 2; lia|repeat constructor].
  - repeat (apply Forall_cons; split; [by apply tagged_recv|]). by constructor.
  - by apply (buf_new_inv example_alloc 0 2 512).
Qed.

Lemma two_run : cluster_run (fun _ => 3) True (main_start 2) [] two_cores.
Proof.
  pose proof (run_start (fun _ => 3) True (main_start (D := list entry) 2)) as H0.
  pose proof (run_step _ _ _ _ _ _ _ H0 (spawn (fun _ => 3) True 0 two_start (main_start 2) eq_refl (two_initial 0 ltac:(lia)) eq_refl eq_refl)) as H1.
  exact (run_step _ _ _ _ _ _ _ H1 (spawn (fun _ => 3) True 1 two_start (mk_cluster [Some two_start; None] [[]; []]) eq_refl (two_initial 1 ltac:(lia)) eq_refl eq_refl)).
Qed.

(** Client 5 of either core writes key 7 and then reads it: 1 at core 0, 2 at core 1. *)
Definition arrivals (i : nat) (v : Z) : list command := [Fill i (encode_set 7 v); Fill i (encode_get 7); Post i (recv_cqe 5 0 17); Own i].
Definition writes_then_reads : list command :=
  arrivals 0 1 ++ arrivals 1 2 ++ [Own 0; Own 1; Own 0; Own 1] ++
  concat ((fun i => [Post i (recv_cqe 5 1 9); Own i; Own i; Own i]) <$> [0%nat; 1%nat]).

Definition both_read : cluster (D := list entry) * list (nat * event) := default (two_cores, []) (exec writes_then_reads two_cores).

Definition final (i : nat) : state := match cores both_read.1 !! i with Some (Some s) => s | _ => two_start end.

Lemma both_read_run : cluster_run (fun _ => 3) True (main_start 2) both_read.2 both_read.1.
Proof.
  assert (exec writes_then_reads two_cores = Some (both_read.1, both_read.2)) as Hx by (vm_compute; reflexivity).
  exact (exec_ok _ _ _ _ _ _ two_run Hx).
Qed.

(** Cores that write one key do not agree.  In this run of two cores a client of core 0
    writes 7 := 1 and a client of core 1 writes 7 := 2, and each core applies the write
    of the other behind its own.  Then no task waits, and both clients read the value
    of the other: core 0 answers 2 and core 1 answers 1, and stays with it. *)
Theorem replicas_diverge : let '(c, tr) := both_read in
  cluster_run (fun _ => 3) True (main_start 2) tr c /\
  tr = [(0%nat, Served 7 1 true); (1%nat, Served 7 2 true); (0%nat, Applied 7 2 true); (1%nat, Applied 7 1 true)] /\ shared c = [[]; []] /\
  exists s0 s1, cores c = [Some s0; Some s1] /\
    db_get (db_node (worker s0)) (to_be_bytes 8 7) = Ok (Some (Some (to_be_bytes 8 2), 2)) /\ received (worker s0) 1 8 = to_be_bytes 8 2 /\
    db_get (db_node (worker s1)) (to_be_bytes 8 7) = Ok (Some (Some (to_be_bytes 8 1), 2)) /\ received (worker s1) 1 8 = to_be_bytes 8 1.
Proof.
  rewrite (surjective_pairing both_read). split; [exact both_read_run|].
  split; [vm_compute; reflexivity|]. split; [vm_compute; reflexivity|]. exists (final 0), (final 1).
  split; [vm_compute; reflexivity|]. split_and!; vm_compute; reflexivity.
Qed.

(** ** Witnesses *)

Lemma final_core i : (i < 2)%nat -> cores both_read.1 !! i = Some (Some (final i)).
Proof. intros Hi. destruct i as [|[|i]]; [vm_compute; reflexivity..|lia]. Qed.

Lemma cluster_routes_witness : exists q kept, shared both_read.1 !! 1%nat = Some q /\
  replay 2 0 [] both_read.2 = Some (task_pair <$> q) /\ sublist kept [(7, 1)] /\
  kept = [(7, 1)] ++ (task_pair <$> q) /\ len q <= TASK_QUEUE_CAPACITY /\ (1 <= TASK_QUEUE_CAPACITY -> kept = [(7, 1)]).
Proof. exact (cluster_routes (fun _ => 3) ltac:(done) True 2 both_read.2 both_read.1 both_read_run 0%nat ltac:(lia)). Defined.

Lemma cluster_stores_witness : local_sequence (worker (final 1)) = 3 /\
  (db_node (worker (final 1)) = accepted 1 both_read.2 /\ sublist (accepted 1 both_read.2) (numbered [(7, 2); (7, 1)]) /\
    forall key, exists r, db_get (db_node (worker (final 1))) key = Ok r /\ some_version (accepted 1 both_read.2) key r).
Proof.
  destruct (cluster_stores (fun _ => 3) ltac:(done) True 2 both_read.2 both_read.1 1%nat (final 1) both_read_run (final_core 1 ltac:(lia))) as (Hs & Hlog & _).
  exact (conj Hs Hlog).
Defined.

Lemma cluster_reads_witness : exists r, db_get (db_node (worker (final 0))) (to_be_bytes 8 7) = Ok r /\
  forall v q, r = Some (v, q) -> exists val, v = Some (to_be_bytes 8 val) /\
    ((7, val) ∈ served 0 both_read.2 \/ exists j, (j < 2)%nat /\ next_core 2 j = 0%nat /\ (7, val) ∈ served j both_read.2).
Proof.
  exact (cluster_reads (fun _ => 3) ltac:(done) True 2 both_read.2 both_read.1 0%nat (final 0) 7 both_read_run (final_core 0 ltac:(lia)) ltac:(unfold is_u64; lia)).
Defined.
