(* ===== verification/EngineStore.v ===== *)
(** * The server over the storage engine (uring-engine/src/main.rs and tier3_storage/src/engine.rs)

    [EngineNode] keeps what the server's worker expects of its store: [engine_store]
    gives the calls, [engine_store_spec] the promises, from the lemmas of Engine.v.
    [server_over_engine] is the whole: the cores of Cluster.v, each over an engine
    that starts empty, run with their kernels and their engines' flush threads
    without a panic, as long as a rotated log opens, and every read answers from
    the writes whose [put] answered [Ok]. *)

From stdpp Require Import gmap strings.
From S2P Require Import Ebr.
From S2P Require Import Prelude.
From S2P Require Import Paths.
From S2P Require Import WalRecord.
From S2P Require Import WalWriter.
From S2P Require Import BinarySearch.
From S2P Require Import Block.
From S2P Require Import SSTable.
From S2P Require Import SSTableReader.
From S2P Require Import Merge.
From S2P Require Import Compaction.
From S2P Require Import SkipList.
From S2P Require Import MemTable.
From S2P Require Import Engine.
From S2P Require Import UringOp.
From S2P Require Import Uring.
From S2P Require Import BufRing.
From S2P Require Import Server.
From S2P Require Import ServerRun.
From S2P Require Import Cluster.
#[local] Open Scope Z_scope.

(** [EngineNode::sync]. *)
Definition engine_sync (fsync : bytes -> Z) : st EngineNode WalRecord.io_error unit := fun s =>
  let '(w, r) := WalWriter.sync fsync (e_wal s) in
  (mk_EngineNode (e_active_mem s) (e_imm_mem s) w (e_wal_path s) (e_flush_queue s) (e_shared s) (e_workers s) (e_rng s), r).

Section engine_store.
  Context (crc32 : bytes -> Z) (pwrite : bytes -> bytes -> Z -> bytes * Z) (ftruncate : bytes -> Z -> bytes * Z) (fsync : bytes -> Z).
  Context `{FS : FileOpsSpec} `{!BoundedFile F} `{BHS : BinaryHeapSpec} `{BSS : BinarySearchSpec} (avx2 : bool) (weak_ok opens : Z -> bool) (thread_idx : nat).
  Context (Hopens : forall seq, opens seq = true) (Hidx : (thread_idx < MAX_THREADS)%nat).

(** By sequence number, [weak_ok] is which of the skip list's weak compare-and-swaps
    fail spuriously, and [opens] whether the next log opens if that write freezes the
    memtable.  [thread_idx] is what [register] returned to the worker. *)
#[local] Instance engine_store : Store EngineNode := {
  db_put k v seq s := Engine.put crc32 pwrite ftruncate (weak_ok seq) (opens seq) k v seq thread_idx s;
  db_get s k := Engine.get avx2 s k thread_idx;
  db_sync s := (engine_sync fsync s).1;
  db_background s s' := exists i, s' = worker_step i s
}.

(** After [n] writes the log file has grown by at most [n] staging buffers. *)
Definition engine_represents (s : EngineNode) (log : list entry) (n : Z) : Prop :=
  exists dir active imm, engine_ok dir s active imm /\ mem_entries active imm = log /\
    0 <= n <= 2 ^ 40 /\ sector_offset (e_wal s) <= n * STAGING_SIZE.

Lemma engine_open_represents dir fs seed : engine_represents (EngineNode_open dir fs seed) [] 0.
Proof. exists dir, [], None. split; [apply open_engine_ok|]. by split_and!. Qed.

#[local] Instance engine_store_spec : StoreSpec EngineNode.
Proof.
  refine {| represents := engine_represents; store_limit := 2 ^ 40 |}; try done.
  - intros s log n k v q (dir & active & imm & Hok & Hlog & Hn & Hoff) Hlim Hq. cbn [db_put engine_store].
    assert (0 <= sector_offset (e_wal s)) as Hs0 by apply (eo_wal _ _ _ _ Hok).
    pose proof (write_internal_ok crc32 pwrite ftruncate dir (weak_ok q) (opens q) k (Some v) q s active imm Hok Hq) as [Hadv Hw].
    { unfold is_u64, STAGING_SIZE in *. lia. }
    unfold Engine.put, mbind, st_bind, lift. rewrite pin_index_ok by done.
    destruct (write_internal _ _ _ _ _ _ _ _ s) as [s' [[]|[e|]| |]]; try done; cbn [fst] in Hadv;
      [| |by destruct Hw as (Hno & _); rewrite Hopens in Hno].
    + destruct Hw as (active' & imm' & Hok' & Hent). exists dir, active', imm'. split; [done|]. rewrite Hent, Hlog. split; [done|]. lia.
    + exists dir, active, imm. split; [done|]. split; [done|]. lia.
  - intros s log n k (dir & active & imm & Hok & <- & _). exact (get_engine_ok avx2 dir s active imm k thread_idx Hok Hidx).
  - intros s log n (dir & active & imm & [H1 H2 H3 H4 H5 H6 H7] & Hlog & Hn). cbn [db_sync engine_store]. exists dir, active, imm.
    assert ((engine_sync fsync s).1 = s) as ->; [|by split].
    unfold engine_sync, WalWriter.sync, mbind, st_bind, get_state, throw. destruct s as [a b w c d e f g]. cbn. by destruct (_ <? 0).
  - intros s s' log n (dir & active & imm & Hok & Hlog & Hn & Hoff) [i ->]. exists dir, active, imm.
    rewrite worker_step_wal. split; [by apply worker_step_ok|done].
Defined.

(** C2: The server over the engine: in every run of [num_cores] workers, each over an engine that
    was empty when it started, with their kernels, each other and the engines' flush threads, the
    next sequence number of a core counts the writes it served and applied, and its engine holds
    exactly those of them whose [put] answered [Ok]: it answers each key with a value of one of
    these, and with [None] when there is none. No next step panics or leaves its arrays within 2^40
    writes. Both hold on the condition that the next log opens when a memtable is frozen (the code
    panics when it does not, engine.rs:207) and that the worker's thread index is one of the
    collector's registry. *)
Theorem server_over_engine (listen : nat -> Z) calm num_cores tr c i s : (forall i, is_i32 (listen i)) ->
  cluster_run listen calm (main_start num_cores) tr c -> cores c !! i = Some (Some s) ->
  local_sequence (worker s) = 1 + len (writes i tr) /\
  (engine_represents (db_node (worker s)) (accepted i tr) (len (writes i tr)) /\ sublist (accepted i tr) (numbered (writes i tr)) /\
    forall key, exists r, Engine.get avx2 (db_node (worker s)) key thread_idx = Ok r /\ some_version (accepted i tr) key r) /\
  (room_for_writes (worker s) -> let w := worker (with_queues (Cluster.shared c) s) in
    match where_ s with
    | Waiting => forall enter taken posted, enter_ok enter (w_ring w) taken posted -> safe (wait_round enter w).2
    | Applying m => exists w' p, apply_step (Z.of_nat i) m w = (w', Ok p)
    | Draining b => exists w' p, drain_step (Z.of_nat i) (listen i) b w = (w', Ok p)
    | Stopped _ => True
    end).
Proof. intros Hl Hrun Hi. exact (cluster_stores listen Hl calm num_cores tr c i s Hrun Hi). Qed.

End engine_store.

(** ** An example: an empty directory, a kernel that takes the accept *)

#[local] Abbreviation example_engine := (EngineNode_open "db" ∅ RNG_SEED).
#[local] Abbreviation example_started := (worker_new (D := EngineNode) 3 example_setup example_alloc take_one (Ok example_engine) [[]]).

Lemma example_index : (0 < MAX_THREADS)%nat.
Proof. unfold MAX_THREADS. lia. Qed.
#[local] Abbreviation example_spec := (engine_store_spec (F := bounded_file) byte_sum pwrite_all sample_truncate (fun _ => 0) true
  (fun _ => true) (fun _ => true) 0 (fun _ => eq_refl) example_index).

Definition succeeds {E A} (o : outcome E A) (P : A -> Prop) : Prop := match o with Ok x => P x | _ => False end.

Lemma example_starts : succeeds example_started (fun w => local_sequence w = 1).
Proof.
  unfold worker_new. generalize (zeros (BUF_RING_ENTRIES * BUF_SIZE)) as m. intros m. vm_compute. reflexivity.
Qed.

Lemma outcome_ok {E A} (o : outcome E A) (P : A -> Prop) : succeeds o P -> exists x, o = Ok x /\ P x.
Proof. destruct o; try done. by eexists. Qed.

Lemma example_start_ok : start_ok (SS := example_spec)
  0 3 example_setup take_one example_engine [[]] [].
Proof.
  split.
  - intros fd p [= <- <-] _. exact example_setup_ok.
  - intros u Hu. by apply take_one_ok.
  - intros c Hc. by apply elem_of_nil in Hc.
  - apply engine_open_represents.
  - done.
  - repeat constructor.
Qed.

Lemma example_room (w : @Worker EngineNode) : local_sequence w = 1 -> room_for_writes (SS := example_spec) w.
Proof. unfold room_for_writes. intros ->. done. Qed.

Lemma example_worker : exists w : @Worker EngineNode,
  example_started = Ok w /\ room_for_writes (SS := example_spec) w.
Proof.
  destruct (outcome_ok example_started (fun w => local_sequence w = 1) example_starts) as (w & Hw & Hs). exists w.
  split; [exact Hw|by apply example_room].
Qed.

Lemma example_run (w : @Worker EngineNode) : example_started = Ok w ->
  cluster_run (SS := example_spec) (fun _ => 3) True (main_start 1) [] (mk_cluster [Some (mk_system w Waiting [listen_request 3] 0 [])] [[]]).
Proof.
  intros Hw.
  assert (initial (SS := example_spec) 0 (mk_system w Waiting [listen_request 3] 0 []) /\ local_sequence w = 1 /\ queues w = [[]]) as (Hinit & Hseq & Hq).
  { refine (started_initial (SS := example_spec) 0 3 _ example_setup example_alloc take_one example_engine [[]] [] w _ _);
      [by split|exact example_start_ok|exact Hw]. }
  pose proof (run_start (SS := example_spec) (fun _ => 3) True (main_start (D := EngineNode) 1)) as H0.
  exact (run_step _ _ _ _ _ _ _ H0 (spawn (SS := example_spec) (fun _ => 3) True 0 _ (main_start 1) eq_refl Hinit Hseq Hq)).
Qed.

Lemma server_over_engine_witness : exists w : @Worker EngineNode,
  example_started = Ok w /\ local_sequence w = 1 /\
  forall key, exists r, Engine.get true (db_node w) key 0 = Ok r.
Proof.
  destruct example_worker as (w & Hw & Hroom). exists w. split; [exact Hw|].
  assert (forall i : nat, is_i32 ((fun _ => 3) i)) as H3 by (intros i; split; lia).
  destruct (server_over_engine (F := bounded_file) byte_sum pwrite_all sample_truncate (fun _ => 0) true (fun _ => true) (fun _ => true) 0 (fun _ => eq_refl) example_index (fun _ => 3) True 1 []
    (mk_cluster [Some (mk_system w Waiting [listen_request 3] 0 [])] [[]]) 0 (mk_system w Waiting [listen_request 3] 0 []) H3 (example_run w Hw) eq_refl)
    as (Hseq & (_ & _ & Hg) & _).
  split; [exact Hseq|]. intros key. destruct (Hg key) as (r & Hr & _). by exists r.
Defined.
